(* ===== verification/_CoqProject ===== *)
-Q . S2P
Prelude.v
Status.v
Logger.v
Config.v
Domain.v
Dag.v
NewWorkflow.v
EventBus.v
GoFloat.v
Jobs.v
LinkedList.v
RetryQueue.v
Registry.v
Scheduler.v
Client.v
Engine.v
WorkflowSpec.v
EngineBase.v
EngineProps.v
EngineQueue.v
EngineCauses.v
EngineHistory.v
EngineProgress.v
EngineTheorems.v
EngineStays.v
Server.v
Polling.v
System.v
SystemCauses.v
SystemEvents.v
SystemProgress.v
SystemDelivery.v
SystemWork.v
Monitoring.v
SystemRuns.v
GoHeap.v
PriorityQueue.v
WorkerPool.v
PoolProps.v
PoolRuns.v
Executors.v
WorkerTask.v
WorkerService.v
Startup.v
WorkerProps.v
WorkerRuns.v
Cluster.v
ClusterProps.v
ClusterRuns.v
