(* ===== verification/Prelude.v ===== *)
(** * Verification of the distributed workflow orchestrator

    The program accepts workflows (graphs of tasks) over gRPC, keeps them in
    memory, hands every task whose dependencies have succeeded to a worker
    process and follows the workers' reports.  This development models its
    control plane, its worker process and the packages they are built on, and
    proves what they guarantee.  File and function names below are those under
    [src/].

    ** The parts and how they interact

    - [common/domain]: tasks, workflows, workers, their status automata, and
      [NewWorkflow], which validates a request.  [Status.v], [Domain.v],
      [Dag.v] (the cycle check), [NewWorkflow.v].
    - [pkg/event_bus]: publish/subscribe with bounded buffers.  [EventBus.v].
    - [pkg/retry_queue]: periodic triggers.  [LinkedList.v] (the linked queue,
      shared with [pkg/worker_pool/linked_queue.go]), [RetryQueue.v].
    - [infrastructure/control-plane/orchestration]: the registry of workers and
      its dead man's switch, driven by the retry queue.  [Registry.v].
    - [infrastructure/control-plane/scheduler]: the ready queue ([Jobs.v]) and
      the choice of a worker ([Scheduler.v], on the doubles of [GoFloat.v]);
      the scheduling pass itself is in [System.v].
    - [infrastructure/control-plane/client]: connections to workers.
      [Client.v].
    - [infrastructure/control-plane/engine]: the workflow engine.  [Engine.v].
    - [infrastructure/control-plane/server] and [events]: the gRPC handlers and
      the event stream.  [Server.v]; [Polling.v] for [GetWorkflow] read by
      read.
    - [cmd/control-plane/main.go]: all of these together.  [System.v].
    - [pkg/worker_pool]: the priority queue of jobs waiting for a retry
      ([PriorityQueue.v], over the library's [container/heap], [GoHeap.v]),
      and the pool of goroutines that execute jobs ([WorkerPool.v]).
    - [infrastructure/worker/executor], [pkg/executror_registry]: running a
      process or an HTTP request for a payload.  [Executors.v].
    - [infrastructure/worker/models] and [client]: the execution of one task,
      its reports, the connection to the control plane.  [WorkerTask.v].
    - [infrastructure/worker/service], [server] and [cmd/worker/main.go]: the
      worker process.  [WorkerService.v].
    - [common/logger]: levels, handlers and attributes over [log/slog].
      [Logger.v].
    - the two [config] packages, and both [main] functions from the command
      line to the listening server: [Config.v], [Startup.v].
    - all of it: one control plane, its workers, and the calls between them.
      [Cluster.v].

    The engine turns requests and reports into status changes, publishes each
    on the bus, and pushes a job into the ready queue for every task that
    becomes READY.  The scheduler takes jobs in batches, chooses workers from
    the registry's snapshot, sends the requests through the client and calls
    the engine back ([OnTaskDispatched]).  The registry declares silent workers
    dead and then calls the client ([CloseConn]) and the engine
    ([ReassignDeadWorkerTasks]).  Streams subscribe to the bus.

    A worker's [Dispatch] handler records the task's key in the set of tasks
    in flight ([unique]) and offers the task to the pool; a goroutine of the
    pool runs the executor and reports to the control plane, and the key is
    removed when the task's [Do] has succeeded.  A job whose [Do] fails waits
    in the priority queue and is executed again.  [WorkerTask] requires the
    control plane's [Scheduler] and [Server], so the round trips of a dispatch
    and of a report are statements about the code of both processes.

    ** How the code is modelled

    A component's state is a record, and each of its functions a Gallina
    function on it with the source's name.  A Go call that can fail or panic
    has the type [outcome] or returns its error in an option or sum.  What the
    program takes from its environment is a [World]: the order of every
    [range] over a map, the clock and the generated identifiers; theorems hold
    for every world.  A pointer to a task or a worker is its key; where
    aliasing matters (the slice and the two maps of [NewWorkflow], the nodes
    of the linked queues, the subscribers of the bus) there is a heap.

    A method that holds one mutex throughout is one transition.  Goroutines
    that release it are state machines with a program counter: [rq_pc] (the
    retry loop), [stop_pc] (each call of a [StopLoop] or [Stop]), the steps of
    [bus_next], [sched_pc] (one scheduling pass), [probe_pc] (a heartbeat check,
    its death hooks and its return to the retry loop), [stream_pc].  A reader
    that takes no mutex ([poll_pc]) sees the states between two assignments;
    [EngineHistory] splits every call of the engine into its assignments
    ([engine_write]) for it.
    [System.sys_next] interleaves them with the handlers; a step that needs a
    mutex another goroutine holds is not enabled.  [WorkerPool.pool_next] does
    the same for the goroutines of the pool, at the grain of one channel
    operation, one queue operation, one atomic access or one reading of the
    clock, and [WorkerService.ws_next] adds the handlers of the process, its
    heartbeat and the attempts that run inside [Do].  [Cluster.cluster_next]
    composes a [System] with any number of worker processes: its steps are
    those of one component, or of the two that meet in a call; requests and
    responses may be lost, reports may be late and overtake each other, and
    processes start and crash at any time.  What the executors do outside, the
    commands run and the requests sent with what was observed, is part of their
    result ([external_call]) and goes into the logs [ran] of a process and
    [executions] of the whole program.

    Two interfaces are type classes: [heap_Interface], with [heap_Laws] for
    what [container/heap] requires of it, and [World].  The procedures of
    [GoHeap] are verified against the laws alone; [PriorityQueue] is an
    instance.

    Recursion that is not structural carries fuel.  [hasCycle] gets one unit
    per task plus one ([hasCycle_enough_fuel]: it never runs out), the loop of
    [cancelDownstream] as much ([cancelLoop_cascade]: it empties its queue).
    The sifting loops of [container/heap] get one unit more than the index
    they start from ([heap_up]) or than the length ([heap_down]); their
    specifications in [GoHeap] give a result, so this is enough.
    Integers wrap where the code can overflow ([wrap64], [wrap32]); float64 is
    the binary64 format of the Standard Library's [SpecFloat].

    ** What is proved

    - [ClusterProps.v], end to end, on the log of all executions: a worker
      executes a task only after an earlier entry of the log shows a successful
      execution of each of its dependencies; a task is SUCCEEDED only if the log
      has a successful execution of it, and its stored result is the output
      observed there.  The
      steps between are in [EngineCauses.v] (only a report of success makes a
      task succeed, only READY tasks are queued) and [SystemCauses.v] (the
      same for the interleaved control plane).
    - The graph check and [NewWorkflow]: [validateTasksCycle] returns nil exactly
      on acyclic graphs and terminates; a request is accepted exactly when it
      is valid; what is accepted is well formed and contains what was asked.
    - [WorkflowSpec.v] is the abstract specification of one workflow: how task
      statuses may move along a dependency graph, and the invariant between
      requests.  [EngineBase.v] gives the effect of the engine's private
      methods in its terms, [EngineProps.v] that every request preserves the
      invariant and refines the specification, [EngineQueue.v] what each
      request puts into the ready queue, and [EngineTheorems.v] the resulting
      guarantees: dependencies are respected, workflows do not stall, statuses
      mean what they say, finished tasks stay, and the exact effect of every
      request on every branch.  [EngineStays.v] says which requests leave a task
      where it is.
    - [EngineHistory.v], [SystemEvents.v]: the events the engine publishes are
      the status changes it makes, in order; what a subscriber or a streaming
      client has seen of a task follows the task's automaton.
    - [Polling.v]: what the answer to [GetWorkflow] means although it is put
      together while the workflow changes, and what it may show.
    - [EngineProgress.v], [SystemProgress.v], [SystemDelivery.v]: no state of a
      workflow is a dead end; a measure that every status change lowers, but
      for the reassignment of a dead worker's tasks, bounds the number of
      changes; how often the request of a task can reach a worker.
    - [System.v]: the engine's guarantees carry over to every interleaving; a
      READY task has exactly one job and other tasks none; a scheduling pass is
      bounded and moves on unless it waits for the answer of a worker or for the
      registry; workers only receive requests of stored tasks.
    - [SystemWork.v]: for every unfinished task there is work: a job in the
      scheduler's hands, or an executing task whose request was delivered to a
      worker; and what happens to a report that comes too early.
    - [Monitoring.v]: a worker stays watched until it has been silent for long
      enough, and what becomes of one that is not watched.
    - [Scheduler.v]: the chosen worker is capable and least loaded.
    - [RetryQueue.v], [Registry.v]: active triggers are not lost, concurrent
      calls of [StopLoop] included, and the verdict of each probe.
    - [EventBus.v], [Server.v]: delivery in order within the bounds, the
      submission round trip, and what a streaming client sees.
    - [GoHeap.v], [PriorityQueue.v]: the procedures of [container/heap]
      terminate, do not panic, keep the elements and restore the order; the
      priority queue stays well formed and behaves as a list sorted by due
      time.
    - [PoolProps.v]: no job of the pool is lost or duplicated, none is retried
      before it is due, the channel and the busy counter stay within bounds,
      and nothing panics but a send on the channel a [Stop] has closed and a
      second [Stop] that closes it again.
    - [Executors.v], [WorkerTask.v]: the exact results of the executors, and
      the round trips of a dispatched task and of its report.
    - [WorkerProps.v]: every step of the worker process refines an abstract
      set of tasks in flight ([flight_step]); a task never has two copies on a
      worker; a report is the report of a call that an executor made.
    - [SystemRuns.v], [PoolRuns.v], [WorkerRuns.v], [ClusterRuns.v] (a whole
      workflow from submission to success) and the last sections of the other
      files hold the executions: instances of the theorems, and the orders of
      events in which the program misbehaves (a deadlock between scheduler and
      registry, a scheduler that waits for ever for a worker's answer, lost
      reports, stranded and needlessly dispatched tasks, duplicate or missing
      probes, workers that are never probed again, concurrent stops that panic, a NaN load, a stale connection, a stream mixing workflows, a
      task the worker refuses for ever, a cancelled task that runs again, a
      task sent twice after a lost response, a task completed by a worker it
      was taken from, jobs lost when a pool stops).
    - [Logger.v], [Config.v], [Startup.v]: which records are printed, how a
      configuration is found and when it is refused, when each [main] gets to
      serve, and that it then serves from the initial state of [System.v] or
      [WorkerService.v].

    ** Assumptions and what is not modelled

    The calls of the engine are single steps with respect to the bus: the
    goroutines of the bus do not move between two [Publish]es of one call, so a
    buffer may fill up in the model where in the program a receiver would have
    made room.  [EventBus.delivery_is_ordered] is about the bus alone and holds
    for every interleaving of single [Publish]es with its goroutines.

    [sort.Slice] is insertion sort up to 12 elements, as in the library; for
    longer slices only its contract is used ([LargeSort], with an instance).
    [grpc.NewClient] is a parameter, and the outcome of an RPC is arbitrary:
    [Dispatch] has no deadline, so its return is a step of the environment that
    need not come.
    Generated identifiers are assumed fresh where a theorem says so.  The
    contexts of the control plane are never cancelled by [main] and are
    omitted.  The engine's [Push] and the scheduler's [PopBatch] may
    interleave ([LPop]), and the handlers of [GetWorkflow] and
    [StreamWorkflowEvents] read a workflow after the engine's mutex is released
    ([Polling], [StreamWorkflowEvents]); a read that races with an assignment
    gives the value before or after it.  The goroutines that notify
    workers of a cancellation are recorded by the calls they make
    ([cancel_calls]) and by the connections they open ([LNotify]).

    On the worker, what a process or an HTTP request does, the outcome of a
    remote call and the verdict of a context are arbitrary observations, made
    by the labels of the steps.  [encoding/json] and the building of requests
    are the parameter [Json].  The clock of the pool never goes back.  The
    context of the pool is never cancelled and [Stop] never called by [main],
    nor is [StopLoop]; both are modelled nevertheless, with any number of
    callers, since their packages export them.  An executor's timeout is passed
    to what it asks for; the observation that comes back is not required to
    respect it.

    In [Cluster] a heartbeat or a registration is handled when it is sent, the
    process behind a connection does not change ([reaches]), and the control
    plane does not restart (it keeps everything in memory).

    The components leave out their calls of the logger, which change no state
    of theirs; [Logger.v] models that package on its own.  [yaml.Unmarshal]
    and the opening of a listener are parameters of [Startup.v]; what a
    process does when it receives a signal is not modelled.

    Not modelled are the generated code ([common/api/protogen]) and the
    transport beneath it. *)

From stdpp Require Import base gmap strings list fin_maps relations sorting.
From Stdlib Require Import ZArith Lia.

(** ** Outcomes of Go calls

    A Go function that may panic and may return an error has three outcomes;
    [E] is the type of its error values. *)
Inductive outcome (E A : Type) : Type :=
  | Ret (a : A)
  | Err (e : E)
  | Panic.
Arguments Ret {E A} _.
Arguments Err {E A} _.
Arguments Panic {E A}.

#[export] Instance outcome_ret E : MRet (outcome E) := λ A a, Ret a.
#[export] Instance outcome_bind E : MBind (outcome E) := λ A B k m,
  match m with
  | Ret a => k a
  | Err e => Err e
  | Panic => Panic
  end.

(** ** Sources of nondeterminism

    A Go [range] statement over a map visits the keys in an unspecified
    order, which may differ from one execution of the statement to the next.
    A [shuffle] is one such choice of order.  A [World] supplies everything
    the program takes from its environment: the order of the n-th range
    statement, the n-th value of [time.Now()] and the n-th string returned by
    [uuid.NewString()].  Every theorem is stated for an arbitrary world, so it
    holds for every iteration order, clock and identifier source. *)
Record shuffle := Shuffle {
  shuffle_fun :> list string → list string;
  shuffle_perm : ∀ l, shuffle_fun l ≡ₚ l;
}.

Class World := {
  rng : nat → shuffle;
  clk : nat → Z;
  uuid : nat → string;
}.

Definition keys {V} (m : gmap string V) : list string := (map_to_list m).*1.

(** The key sequence of [for k := range m] executed at tick [n]. *)
Definition range_keys `{World} {V} (n : nat) (m : gmap string V) : list string :=
  rng n (keys m).

Lemma elem_of_keys {V} (m : gmap string V) k : k ∈ keys m ↔ is_Some (m !! k).
Proof.
  unfold keys. rewrite list_elem_of_fmap. split.
  - intros ([k' v] & -> & Hin). apply elem_of_map_to_list in Hin. eauto.
  - intros [v Hv]. exists (k, v). by rewrite elem_of_map_to_list.
Qed.

Lemma NoDup_keys {V} (m : gmap string V) : NoDup (keys m).
Proof. apply NoDup_fst_map_to_list. Qed.

Lemma length_keys {V} (m : gmap string V) : length (keys m) = size m.
Proof. unfold keys. by rewrite length_fmap, length_map_to_list. Qed.

Lemma elem_of_range_keys `{World} {V} n (m : gmap string V) k :
  k ∈ range_keys n m ↔ is_Some (m !! k).
Proof. unfold range_keys. by rewrite shuffle_perm, elem_of_keys. Qed.

Lemma NoDup_range_keys `{World} {V} n (m : gmap string V) : NoDup (range_keys n m).
Proof. unfold range_keys. rewrite shuffle_perm. apply NoDup_keys. Qed.

(** A loop that collects the entries of a map in the order of its keys. *)
Lemma omap_lookup_fst {V} (m : gmap string V) (l : list string) :
  (∀ x, x ∈ l → is_Some (m !! x)) → (omap (λ x, (λ v, (x, v)) <$> m !! x) l).*1 = l.
Proof.
  induction l as [|x l IH]; intros Hall; simpl; [done|].
  destruct (Hall x) as [v Hx]; [left|]. rewrite Hx. simpl. f_equal. apply IH. intros y Hy. apply Hall. by right.
Qed.

(** Two worlds in which the examples run: keys in the order of the map's
    internal representation, and in the reverse order. *)
Program Definition shuffle_id : shuffle := Shuffle (λ l, l) _.
Next Obligation. done. Qed.
Program Definition shuffle_rev : shuffle := Shuffle reverse _.
Next Obligation. intros l. simpl. by rewrite reverse_Permutation. Qed.

Definition world_of (s : shuffle) (ids : list string) : World := {|
  rng _ := s;
  clk n := Z.of_nat n;
  uuid n := default EmptyString (ids !! n);
|}.

(** ** Machine integers *)
Definition two64 : Z := 18446744073709551616.
Definition two63 : Z := 9223372036854775808.
Definition two32 : Z := 4294967296.
Definition two31 : Z := 2147483648.

(** Two's complement wrap-around of a result to int64 and to int32. *)
Definition wrap64 (z : Z) : Z := ((z + two63) mod two64 - two63)%Z.
Definition wrap32 (z : Z) : Z := ((z + two31) mod two32 - two31)%Z.

Definition int64_ok (z : Z) : Prop := (- two63 ≤ z < two63)%Z.
Definition int32_ok (z : Z) : Prop := (- two31 ≤ z < two31)%Z.

Lemma wrap64_id z : int64_ok z → wrap64 z = z.
Proof.
  unfold int64_ok, wrap64, two63, two64. intros Hz.
  rewrite Z.mod_small by lia. lia.
Qed.

Lemma wrap64_ok z : int64_ok (wrap64 z).
Proof.
  unfold int64_ok, wrap64, two63, two64.
  pose proof (Z.mod_pos_bound (z + 9223372036854775808) 18446744073709551616). lia.
Qed.

Lemma wrap32_id z : int32_ok z → wrap32 z = z.
Proof.
  unfold int32_ok, wrap32, two31, two32. intros Hz.
  rewrite Z.mod_small by lia. lia.
Qed.

(** Durations are int64 nanosecond counts. *)
Definition Second : Z := 1000000000.
Definition Millisecond : Z := 1000000.

(** Times are int64-like nanosecond counts since the epoch; [Unix] floors to
    seconds. *)
Definition Unix (t : Z) : Z := (t / Second)%Z.

(** ** Lists *)

(** [l[:n]] and [l[n:]] for [0 <= n <= len(l)] are [take] and [drop]. *)
Lemma foldl_inv {A B} (P : A → Prop) (f : A → B → A) (l : list B) (a : A) :
  P a → (∀ a b, b ∈ l → P a → P (f a b)) → P (foldl f a l).
Proof.
  revert a. induction l as [|b l IH]; intros a Ha Hf; [done|]. simpl.
  apply IH; [apply Hf; [left|done]|]. intros a' b' Hb'. apply Hf. by right.
Qed.

(** A loop over a list with an invariant that knows the prefix already done. *)
Lemma foldl_prefix_inv {A B} (P : list B → A → Prop) (f : A → B → A) (l : list B) (a : A) :
  P [] a →
  (∀ done b rest a, l = done ++ b :: rest → P done a → P (done ++ [b]) (f a b)) →
  P l (foldl f a l).
Proof.
  intros H0 Hstep.
  enough (∀ rest done a, l = done ++ rest → P done a → P l (foldl f a rest)) as Hgen.
  { by apply (Hgen l [] a). }
  induction rest as [|b rest IH]; intros done a' Hl Ha; simpl.
  - by rewrite app_nil_r in Hl; subst.
  - apply (IH (done ++ [b])); [by rewrite <-app_assoc|]. eapply Hstep; eauto.
Qed.

(** Selecting the same way from a sublist. *)
Lemma sublist_omap {A B} (f : A → option B) (l k : list A) : l `sublist_of` k → omap f l `sublist_of` omap f k.
Proof.
  induction 1 as [|x l k _ IH|x l k _ IH]; simpl; [done|..].
  - destruct (f x); [by apply sublist_skip|done].
  - destruct (f x); [by apply sublist_cons|done].
Qed.

(** ** Relations *)

(** Rule induction for the states reachable from an initial state. *)
Lemma rtc_invariant {A} (R : relation A) (P : A → Prop) x y :
  P x → (∀ a b, P a → R a b → P b) → rtc R x y → P y.
Proof. intros Hx Hstep Hrtc. induction Hrtc; eauto. Qed.

(** Simulation of transitive paths through a relation between the points. *)
Lemma tc_simulation {A B} (R : relation A) (S : relation B) (rel : A → B → Prop) :
  (∀ a x y, S x y → rel a x → ∃ b, rel b y ∧ R a b) →
  ∀ x y a, tc S x y → rel a x → ∃ b, rel b y ∧ tc R a b.
Proof.
  intros Hsim x y a Htc. revert a. induction Htc as [x y Hxy|x y z Hxy _ IH]; intros a Ha.
  - destruct (Hsim _ _ _ Hxy Ha) as (b & ? & ?). eauto using tc_once.
  - destruct (Hsim _ _ _ Hxy Ha) as (b & Hb & ?). destruct (IH b Hb) as (c & ? & ?).
    eauto using tc_l.
Qed.

(** An accessible point lies on no cycle. *)
Lemma Acc_tc_irrefl {A} (R : relation A) x : Acc (flip R) x → ¬ tc R x x.
Proof.
  induction 1 as [x _ IH]. intros Hc.
  assert (∃ y, R x y ∧ tc R y y) as (y & Hxy & Hyy).
  { inversion Hc as [? ? Hx|? y ? Hx Hy]; subst; [eauto using tc_once|].
    exists y. split; [done|]. eapply tc_r; done. }
  exact (IH y Hxy Hyy).
Qed.

(** The points after the first of a sequence of [R]-steps. *)
Inductive path {A} (R : relation A) : A → list A → A → Prop :=
  | path_nil x : path R x [] x
  | path_cons x y l z : R x y → path R y l z → path R x (y :: l) z.

Lemma path_once {A} (R : relation A) x y : R x y → path R x [y] y.
Proof. intros Hxy. econstructor; [done|constructor]. Qed.

Lemma path_app {A} (R : relation A) x l y l' z : path R x l y → path R y l' z → path R x (l ++ l') z.
Proof. induction 1; [done|]. simpl. intros Hl. econstructor; eauto. Qed.

Lemma path_mono {A} (R S : relation A) x l y : (∀ a b, R a b → S a b) → path R x l y → path S x l y.
Proof. intros HRS. induction 1; econstructor; eauto. Qed.

Lemma path_rtc {A} (R : relation A) x l y : path R x l y → rtc R x y.
Proof. induction 1; [done|by eapply rtc_l]. Qed.

(** A point from which no step leaves is the last one. *)
Lemma path_stuck {A} (R : relation A) x l y z :
  path R x l y → z ∈ l → (∀ z', ¬ R z z') → y = z.
Proof.
  intros Hp Hz Hstuck. revert Hz. induction Hp as [x|x y l w Hxy Hp IH]; [by intros ?%elem_of_nil|].
  intros [->|Hz]%elem_of_cons; [|by apply IH]. inversion Hp as [|? y' ? ? Hy]; subst; [done|]. by apply Hstuck in Hy.
Qed.

(** ** Tactics and hints shared by the components *)
Create HintDb orc.
Create Rewrite HintDb orc.

Ltac go_cases := repeat (case_match || case_decide); simplify_eq/=.

#[export] Hint Resolve NoDup_keys NoDup_range_keys : orc.
