(* ===== verification/Status.v ===== *)
(** * Status automata

    The status types of [common/domain]: tasks ([task_status.go]), workflows
    ([workflow_status.go]) and workers ([wokrer.go]).  Each is a byte in Go;
    the named constants are the only values the program constructs (the
    private [status] fields are only written through [UpdateStatus] and the
    [Set*] methods), so each is an inductive type with those constants. *)

From stdpp Require Import base strings relations.
From Stdlib Require Import ZArith.
From S2P Require Import Prelude.

Inductive transit_error := ErrTransitToSameStatus | ErrTransitNotAllowed.

#[export] Instance transit_error_eq_dec : EqDecision transit_error.
Proof. solve_decision. Defined.

(** ** Task statuses *)

Inductive TaskStatus :=
  | TaskPending | TaskReady | TaskDispatched | TaskRunning | TaskSucceeded
  | TaskFailed | TaskRetrying | TaskCancelled | TaskStatusUnknown.

#[export] Instance TaskStatus_eq_dec : EqDecision TaskStatus.
Proof. solve_decision. Defined.

(** The transition table [taskStatusesGraph[s][newStatus]]; entries the Go
    literal leaves out are [false]. *)
Definition taskStatusesGraph (s newStatus : TaskStatus) : bool :=
  match s, newStatus with
  | TaskPending, (TaskReady | TaskCancelled) => true
  | TaskReady, (TaskDispatched | TaskCancelled) => true
  | TaskDispatched, (TaskRunning | TaskSucceeded | TaskFailed | TaskCancelled | TaskReady) => true
  | TaskRunning, (TaskSucceeded | TaskCancelled | TaskFailed | TaskReady) => true
  | TaskFailed, TaskRetrying => true
  | TaskRetrying, (TaskDispatched | TaskRunning) => true
  | _, _ => false
  end.

(** [None] is Go's [nil] error. *)
Definition TaskStatus_CanTransitTo (s newStatus : TaskStatus) : option transit_error :=
  if decide (s = newStatus) then Some ErrTransitToSameStatus
  else if taskStatusesGraph s newStatus then None
  else Some ErrTransitNotAllowed.

Definition TaskStatus_IsTerminated (s : TaskStatus) : bool :=
  bool_decide (s = TaskSucceeded) || bool_decide (s = TaskFailed) || bool_decide (s = TaskCancelled).

Definition TaskStatus_String (s : TaskStatus) : string :=
  match s with
  | TaskPending => "PENDING"
  | TaskReady => "READY"
  | TaskDispatched => "DISPATCHED"
  | TaskRunning => "RUNNING"
  | TaskSucceeded => "SUCCEEDED"
  | TaskFailed => "FAILED"
  | TaskRetrying => "RETRYING"
  | TaskCancelled => "CANCELLED"
  | TaskStatusUnknown => "UNKNOWN"
  end.

(** The protobuf enum [TaskReportStatus] is open: any int32 may arrive.  Its
    named values are 0 (RUNNING), 1 (SUCCEEDED) and 2 (FAILED). *)
Definition TASK_REPORT_RUNNING : Z := 0.
Definition TASK_REPORT_SUCCEEDED : Z := 1.
Definition TASK_REPORT_FAILED : Z := 2.

Definition FromProtoTaskStatus (status : Z) : TaskStatus :=
  if decide (status = TASK_REPORT_RUNNING) then TaskRunning
  else if decide (status = TASK_REPORT_FAILED) then TaskFailed
  else if decide (status = TASK_REPORT_SUCCEEDED) then TaskSucceeded
  else TaskPending.

(** ** Workflow statuses *)

Inductive WorkflowStatus :=
  | WorkflowPending | WorkflowRunning | WorkflowSucceeded | WorkflowFailed | WorkflowCancelled.

#[export] Instance WorkflowStatus_eq_dec : EqDecision WorkflowStatus.
Proof. solve_decision. Defined.

Definition workflowStatusesGraph (s newStatus : WorkflowStatus) : bool :=
  match s, newStatus with
  | WorkflowPending, (WorkflowRunning | WorkflowCancelled) => true
  | WorkflowRunning, (WorkflowSucceeded | WorkflowFailed | WorkflowCancelled) => true
  | _, _ => false
  end.

Definition WorkflowStatus_CanTransitTo (s newStatus : WorkflowStatus) : option transit_error :=
  if decide (s = newStatus) then Some ErrTransitToSameStatus
  else if workflowStatusesGraph s newStatus then None
  else Some ErrTransitNotAllowed.

Definition WorkflowStatus_IsTerminated (s : WorkflowStatus) : bool :=
  bool_decide (s = WorkflowSucceeded) || bool_decide (s = WorkflowFailed)
  || bool_decide (s = WorkflowCancelled).

Definition WorkflowStatus_String (s : WorkflowStatus) : string :=
  match s with
  | WorkflowPending => "PENDING"
  | WorkflowRunning => "RUNNING"
  | WorkflowSucceeded => "SUCCEEDED"
  | WorkflowFailed => "FAILED"
  | WorkflowCancelled => "CANCELLED"
  end.

(** ** Worker statuses *)

Inductive WorkerStatus := WorkerAlive | WorkerSuspect | WorkerDead.

#[export] Instance WorkerStatus_eq_dec : EqDecision WorkerStatus.
Proof. solve_decision. Defined.

Definition WorkerStatus_String (s : WorkerStatus) : string :=
  match s with
  | WorkerAlive => "ALIVE"
  | WorkerSuspect => "SUSPECT"
  | WorkerDead => "DEAD"
  end.

(** ** The automata as relations *)

Definition task_step (s s' : TaskStatus) : Prop := TaskStatus_CanTransitTo s s' = None.
Definition workflow_step (s s' : WorkflowStatus) : Prop := WorkflowStatus_CanTransitTo s s' = None.

Ltac status_cases := repeat match goal with s : TaskStatus |- _ => destruct s
  | s : WorkflowStatus |- _ => destruct s end; try done; vm_compute in *; try done.

Lemma task_step_graph s s' : task_step s s' ↔ taskStatusesGraph s s' = true.
Proof. unfold task_step. destruct s, s'; vm_compute; split; congruence. Qed.

Lemma workflow_step_graph s s' : workflow_step s s' ↔ workflowStatusesGraph s s' = true.
Proof. unfold workflow_step. destruct s, s'; vm_compute; split; congruence. Qed.

Lemma TaskStatus_IsTerminated_spec s :
  TaskStatus_IsTerminated s = true ↔ s = TaskSucceeded ∨ s = TaskFailed ∨ s = TaskCancelled.
Proof. destruct s; vm_compute; intuition congruence. Qed.

Lemma WorkflowStatus_IsTerminated_spec s :
  WorkflowStatus_IsTerminated s = true ↔
  s = WorkflowSucceeded ∨ s = WorkflowFailed ∨ s = WorkflowCancelled.
Proof. destruct s; vm_compute; intuition congruence. Qed.

(** The terminal statuses of a workflow are those it cannot leave. *)
Theorem workflow_terminal_iff_stuck s :
  WorkflowStatus_IsTerminated s = true ↔ ∀ s', ¬ workflow_step s s'.
Proof.
  setoid_rewrite workflow_step_graph. split.
  - intros H s'. by destruct s, s'.
  - intros H. pose proof (H WorkflowRunning). pose proof (H WorkflowFailed). by destruct s.
Qed.
