(* ===== verification/Logger.v ===== *)
(** * Logging

    [common/logger]: the levels and handlers of [logger.go], a thin layer over
    [log/slog], and the attribute constructors of [wrappers.go].  A record that
    is emitted is appended to the output; how a handler prints it is the
    library's. *)

From stdpp Require Import base strings list.
From Stdlib Require Import ZArith Lia.
From S2P Require Import Prelude.

(** ** Levels *)

(** A [LogLevel] is a byte; any value may be converted to it. *)
Definition LogLevel : Type := Z.
Definition INFO : LogLevel := 0%Z.
Definition DEBUG : LogLevel := 1%Z.
Definition WARN : LogLevel := 2%Z.
Definition ERROR : LogLevel := 3%Z.

(** The levels of [log/slog]. *)
Definition LevelDebug : Z := -4.
Definition LevelInfo : Z := 0.
Definition LevelWarn : Z := 4.
Definition LevelError : Z := 8.

Definition toSlogLevel (level : LogLevel) : Z :=
  if decide (level = DEBUG) then LevelDebug
  else if decide (level = WARN) then LevelWarn
  else if decide (level = ERROR) then LevelError
  else LevelInfo.

(** ** Attributes *)

(** A [slog.Value] of the kinds the constructors make; [A] is what [Any] and
    [Error] carry.  Integers are int64. *)
Inductive Value (A : Type) :=
  | StringValue (s : string)
  | Int64Value (n : Z)
  | BoolValue (b : bool)
  | AnyValue (a : A).
Arguments StringValue {A} s.
Arguments Int64Value {A} n.
Arguments BoolValue {A} b.
Arguments AnyValue {A} a.

Section attributes.
Context {A : Type}.

Record Attr := { Key : string; Val : Value A }.

Definition Error_attr (err : A) : Attr := {| Key := "error"; Val := AnyValue err |}.
Definition String_attr (key msg : string) : Attr := {| Key := key; Val := StringValue msg |}.
Definition Any_attr (key : string) (data : A) : Attr := {| Key := key; Val := AnyValue data |}.
Definition Int_attr (key : string) (data : Z) : Attr := {| Key := key; Val := Int64Value data |}.
Definition Bool_attr (key : string) (data : bool) : Attr := {| Key := key; Val := BoolValue data |}.

(** [int(data)] of an uint64, and of an uint32. *)
Definition UInt64_attr (key : string) (data : Z) : Attr := Int_attr key (wrap64 data).
Definition UInt32_attr (key : string) (data : Z) : Attr := Int_attr key (wrap64 data).

(** The loop of [Other] from index [i], with the builder's contents. *)
Fixpoint Other_loop (fuel : nat) (fields : list string) (i : nat) (str : string) : string :=
  match fuel with
  | O => str
  | S fuel =>
      match fields !! i, fields !! S i with
      | Some k, Some v =>
          let str := str +:+ k +:+ ": " +:+ v in
          let str := if decide (i + 2 < length fields) then str +:+ ", " else str in
          Other_loop fuel fields (i + 2) str
      | _, _ => str
      end
  end.

Definition Other (fields : list string) : Attr :=
  if decide (length fields mod 2 ≠ 0) then String_attr "other" (String.concat ", " fields)
  else String_attr "other" (Other_loop (S (length fields)) fields 0 "").

(** ** The logger *)

Inductive format := TextFormat | JSONFormat.

Record Logger := { h_format : format; h_level : Z }.

Definition New (level : LogLevel) (isDev : bool) : Logger :=
  if isDev then {| h_format := TextFormat; h_level := toSlogLevel level |}
  else {| h_format := JSONFormat; h_level := toSlogLevel level |}.

Record LogRecord := { rec_level : Z; rec_msg : string; rec_args : list Attr }.
Implicit Types (l : Logger) (out : list LogRecord).

(** [slog.Logger.Log]: a record below the handler's level is not emitted. *)
Definition log_record (level : Z) l (msg : string) (args : list Attr) out : list LogRecord :=
  if decide (h_level l ≤ level)%Z then out ++ [{| rec_level := level; rec_msg := msg; rec_args := args |}] else out.

Definition Logger_Info := log_record LevelInfo.
Definition Logger_Debug := log_record LevelDebug.
Definition Logger_Warn := log_record LevelWarn.
Definition Logger_Error := log_record LevelError.

(** ** Properties *)

(** The fields of [Other] as its value shows them. *)
Fixpoint pairs (fields : list string) : list string :=
  match fields with
  | k :: v :: fields => (k +:+ ": " +:+ v) :: pairs fields
  | _ => []
  end.

Lemma append_assoc (a b c : string) : a +:+ (b +:+ c) = (a +:+ b) +:+ c.
Proof. induction a as [|x a IH]; [done|]. change (String x (a +:+ (b +:+ c)) = String x ((a +:+ b) +:+ c)). by f_equal. Qed.

Lemma append_empty_r (a : string) : a +:+ "" = a.
Proof. induction a as [|x a IH]; [done|]. change (String x (a +:+ "") = String x a). by f_equal. Qed.

Lemma Other_loop_pairs fuel pre fields str :
  length fields < fuel → Nat.Even (length fields) →
  Other_loop fuel (pre ++ fields) (length pre) str = str +:+ String.concat ", " (pairs fields).
Proof.
  revert pre fields str. induction fuel as [|fuel IH]; intros pre fields str Hf He; [lia|]. cbn [Other_loop].
  destruct fields as [|k [|v fields]]; [|by destruct He as [? He]; simpl in He; lia|].
  - rewrite app_nil_r, lookup_ge_None_2 by lia. by rewrite append_empty_r.
  - rewrite list_lookup_middle by done. rewrite (cons_middle k), app_assoc.
    rewrite list_lookup_middle by (rewrite length_app; simpl; lia).
    rewrite (cons_middle v), app_assoc. replace (length pre + 2) with (length ((pre ++ [k]) ++ [v]))
      by (rewrite !length_app; simpl; lia).
    rewrite IH; [|simpl in Hf; lia|destruct He as [x Hx]; exists (x - 1); simpl in Hx; lia].
    rewrite !length_app. cbn [pairs]. destruct fields as [|k' [|v' fields]].
    + rewrite decide_False by (simpl; lia). by rewrite append_empty_r.
    + destruct He as [x Hx]. simpl in Hx. lia.
    + rewrite decide_True by (simpl; lia). cbn [pairs]. change (String.concat ", " (?x :: ?y :: ?l)) with (x +:+ (", " +:+ String.concat ", " (y :: l))).
      by rewrite !append_assoc.
Qed.

(** [Other] shows an even number of fields as comma-separated [key: value]
    pairs and an odd number as they are. *)
Theorem Other_correct fields :
  Other fields =
  String_attr "other" (String.concat ", " (if decide (length fields mod 2 ≠ 0) then fields else pairs fields)).
Proof.
  unfold Other. case_decide as Hm; [done|]. rewrite (Other_loop_pairs _ [] fields ""); [done|lia|].
  exists (length fields / 2).
  pose proof (Nat.div_mod_eq (length fields) 2). lia.
Qed.

(** How severe a level is meant to be; the constants are in another order. *)
Definition severity (level : LogLevel) : Z :=
  (if decide (level = DEBUG) then 0 else if decide (level = WARN) then 2 else if decide (level = ERROR) then 3 else 1)%Z.

(** A logger made for [level] emits exactly what is at least as severe. *)
Theorem New_filters level isDev level' msg args out :
  log_record (toSlogLevel level') (New level isDev) msg args out =
  if decide (severity level ≤ severity level')%Z
  then out ++ [{| rec_level := toSlogLevel level'; rec_msg := msg; rec_args := args |}] else out.
Proof.
  unfold log_record. assert (h_level (New level isDev) = toSlogLevel level) as -> by by destruct isDev.
  erewrite decide_ext; [done|]. unfold toSlogLevel, severity, LevelDebug, LevelInfo, LevelWarn, LevelError.
  repeat case_decide; lia.
Qed.

(** Counters above the range of int64 are shown as negative numbers. *)
Theorem UInt64_attr_value key data :
  (0 ≤ data < two64)%Z →
  UInt64_attr key data = Int_attr key (if decide (data < two63)%Z then data else data - two64)%Z.
Proof.
  intros Hd. unfold UInt64_attr, wrap64, two63, two64 in *. f_equal. case_decide.
  - rewrite Z.mod_small; lia.
  - replace (data + 9223372036854775808)%Z with (data - 9223372036854775808 + 1 * 18446744073709551616)%Z by lia.
    rewrite Z.mod_add, Z.mod_small; lia.
Qed.
End attributes.
Arguments Attr A : clear implicits.
