(* ===== verification/Config.v ===== *)
(** * Configuration

    [infrastructure/control-plane/config] and [infrastructure/worker/config]:
    both processes take one flag, [-config], read that file and decode it.
    Command line and files are inputs; the parser of [flag] is the library's
    for one string flag; [yaml.Unmarshal] is a parameter. *)

From stdpp Require Import base gmap strings list pretty.
From Stdlib Require Import ZArith Lia Ascii.
From S2P Require Import Prelude.

(** ** The command line *)

(** One argument: not a flag (the flags end here), malformed, or a flag with
    the value after its first [=], if any. *)
Inductive argument := Positional | BadSyntax | Flag (name : string) (value : option string).

Fixpoint split_value (name : string) : string * option string :=
  match name with
  | EmptyString => (EmptyString, None)
  | String c rest =>
      if decide (c = "="%char) then (EmptyString, Some rest)
      else let '(n, v) := split_value rest in (String c n, v)
  end.

Definition flag_of_name (name : string) : argument :=
  match name with
  | EmptyString => BadSyntax
  | String c _ => if decide (c = "-"%char ∨ c = "="%char) then BadSyntax
                  else let '(n, v) := split_value name in Flag n v
  end.

Definition argument_of (s : string) : argument :=
  match s with
  | String "-" (String "-" EmptyString) => Positional
  | String "-" (String "-" name) => flag_of_name name
  | String "-" (String c name) => flag_of_name (String c name)
  | _ => Positional
  end.

(** [flag.Parse] exits with status 2 on an error and 0 after the usage. *)
Inductive parsed := Parsed (value : string) | FlagExit (code : nat).

Fixpoint flag_Parse (args : list string) (configPath : string) : parsed :=
  match args with
  | [] => Parsed configPath
  | s :: rest =>
      match argument_of s with
      | Positional => Parsed configPath
      | BadSyntax => FlagExit 2
      | Flag name value =>
          if decide (name = "config") then
            match value, rest with
            | Some v, _ => flag_Parse rest v
            | None, v :: rest => flag_Parse rest v
            | None, [] => FlagExit 2
            end
          else if decide (name = "help" ∨ name = "h") then FlagExit 0
          else FlagExit 2
      end
  end.

(** ** Loading *)

Inductive config_error := ReadFailed | ParseFailed.

(** [Load] returns, or the process has exited. *)
Inductive loaded (C : Type) :=
  | Loaded (cfg : C)
  | LoadFailed (err : config_error)
  | LoadExits (code : nat).
Arguments Loaded {C} cfg.
Arguments LoadFailed {C} err.
Arguments LoadExits {C} code.

Definition loaded_map {C D} (f : C → D) (l : loaded C) : loaded D :=
  match l with Loaded cfg => Loaded (f cfg) | LoadFailed err => LoadFailed err | LoadExits code => LoadExits code end.

(** The files that can be read, with their contents. *)
Definition files : Type := gmap string string.

(** What both packages do. *)
Definition load_file {C} (Unmarshal : string → option C) (fs : files) (args : list string) : loaded C :=
  match flag_Parse args "config.yaml" with
  | FlagExit code => LoadExits code
  | Parsed configPath =>
      match fs !! configPath with
      | None => LoadFailed ReadFailed
      | Some bytes => match Unmarshal bytes with
                      | None => LoadFailed ParseFailed
                      | Some config => Loaded config
                      end
      end
  end.

Module ControlPlane.

Record Config := { cfg_Port : string; cfg_BusCapacity : Z }.

Definition Load (Unmarshal : string → option Config) (fs : files) (args : list string) : loaded Config :=
  load_file Unmarshal fs args.

Definition Print (cfg : Config) : list string :=
  ["-------CONFIG-------"; "GRPC Port: " +:+ cfg_Port cfg; "BUS Capacity: " +:+ pretty (cfg_BusCapacity cfg)].
End ControlPlane.

Module Worker.

Record Config := {
  cfg_Port : string; cfg_ID : string; cfg_Address : string; cfg_Capacity : Z; cfg_Pool : Z;
  cfg_Labels : gmap string string; cfg_Capabilities : list string; cfg_ControlPlane : string;
}.

Definition set_cfg_ID v (cfg : Config) : Config :=
  let 'Build_Config p _ a c n l k s := cfg in Build_Config p v a c n l k s.

(** The identifier is not read: every start of the process is a new worker. *)
Definition Load `{World} (Unmarshal : string → option Config) (fs : files) (args : list string) (n : nat)
    : loaded Config * nat :=
  match load_file Unmarshal fs args with
  | Loaded config => (Loaded (set_cfg_ID (uuid n) config), S n)
  | l => (l, n)
  end.

Definition Print (cfg : Config) : list string :=
  ["-------CONFIG-------"; "GRPC Port: " +:+ cfg_Port cfg; "Worker ID: " +:+ cfg_ID cfg;
   "Worker Address: " +:+ cfg_Address cfg; "Control Plane Address: " +:+ cfg_ControlPlane cfg].
End Worker.

(** ** Properties *)

Section properties.
Context {C : Type} (Unmarshal : string → option C).
Implicit Types (fs : files) (args : list string).

(** The last [-config] before the first argument that is not a flag counts. *)
Lemma flag_Parse_config v args path : flag_Parse ("-config" :: v :: args) path = flag_Parse args v.
Proof. done. Qed.

Lemma flag_Parse_default path : flag_Parse [] path = Parsed path.
Proof. done. Qed.

Lemma flag_Parse_config_eq v args path : flag_Parse (("-config=" +:+ v) :: args) path = flag_Parse args v.
Proof. reflexivity. Qed.

(** [Load] returns a configuration exactly when the file of the command line
    can be read and decoded. *)
Lemma load_file_loaded fs args cfg :
  load_file Unmarshal fs args = Loaded cfg ↔
  ∃ path bytes, flag_Parse args "config.yaml" = Parsed path ∧ fs !! path = Some bytes ∧ Unmarshal bytes = Some cfg.
Proof.
  unfold load_file. split.
  - destruct (flag_Parse args "config.yaml") as [path|code]; [|done]. destruct (fs !! path) as [bytes|] eqn:Hf; [|done].
    destruct (Unmarshal bytes) as [c|] eqn:Hu; [|done]. intros [= ->]. eauto.
  - intros (path & bytes & -> & -> & ->). done.
Qed.
End properties.
