(* ===== verification/Domain.v ===== *)
(** * The domain model

    [common/domain/task.go], [workflow.go] (the data and the observers; the
    constructor is in [NewWorkflow.v] and the cycle check in [Dag.v]) and
    [wokrer.go].  A [*Task] stored in a workflow is modelled by the task's
    value inside [Workflow.Tasks]; code that mutates a task through such a
    pointer rewrites that entry. *)

From stdpp Require Import base gmap strings list.
From Stdlib Require Import ZArith.
From S2P Require Import Prelude Status.

(** ** Tasks *)

Record TaskSpec := { Type_ : string; Payload : string }.

Record TaskResult := {
  res_Status : TaskStatus;
  ExitCode : Z;
  Stdout : string;
  Stderr : string;
  res_Error : string;
  Duration : Z;
}.

Record Task := {
  task_ID : string;
  task_WorkflowID : string;
  task_Name : string;
  DependsOn : list string;
  Spec : TaskSpec;
  MaxRetries : Z;
  RetryBackoff : Z;
  Timeout : Z;
  task_status : TaskStatus;
  AssignedTo : string;
  Attempt : Z;
  task_result : option TaskResult;
  task_CreatedAt : Z;
  task_UpdatedAt : Z;
}.

(** Field assignments [t.f = v]. *)
Definition set_task_ID (v : string) (t : Task) : Task :=
  let 'Build_Task _ w n d s m r o st a at_ re c u := t in Build_Task v w n d s m r o st a at_ re c u.
Definition set_task_WorkflowID (v : string) (t : Task) : Task :=
  let 'Build_Task i _ n d s m r o st a at_ re c u := t in Build_Task i v n d s m r o st a at_ re c u.
Definition set_DependsOn (v : list string) (t : Task) : Task :=
  let 'Build_Task i w n _ s m r o st a at_ re c u := t in Build_Task i w n v s m r o st a at_ re c u.
Definition set_RetryBackoff (v : Z) (t : Task) : Task :=
  let 'Build_Task i w n d s m _ o st a at_ re c u := t in Build_Task i w n d s m v o st a at_ re c u.
Definition set_Timeout (v : Z) (t : Task) : Task :=
  let 'Build_Task i w n d s m r _ st a at_ re c u := t in Build_Task i w n d s m r v st a at_ re c u.
Definition set_task_status (v : TaskStatus) (t : Task) : Task :=
  let 'Build_Task i w n d s m r o _ a at_ re c u := t in Build_Task i w n d s m r o v a at_ re c u.
Definition set_AssignedTo (v : string) (t : Task) : Task :=
  let 'Build_Task i w n d s m r o st _ at_ re c u := t in Build_Task i w n d s m r o st v at_ re c u.
Definition set_task_CreatedAt (v : Z) (t : Task) : Task :=
  let 'Build_Task i w n d s m r o st a at_ re _ u := t in Build_Task i w n d s m r o st a at_ re v u.
Definition set_task_UpdatedAt (v : Z) (t : Task) : Task :=
  let 'Build_Task i w n d s m r o st a at_ re c _ := t in Build_Task i w n d s m r o st a at_ re c v.

Definition Task_SetResult (result : option TaskResult) (t : Task) : Task :=
  let 'Build_Task i w n d s m r o st a at_ _ c u := t in
  Build_Task i w n d s m r o st a at_ result c u.

Definition Task_GetStatus (t : Task) : TaskStatus := task_status t.

Definition Task_GetResult (t : Task) : option TaskResult := task_result t.

Definition Task_IsReady (t : Task) : bool :=
  bool_decide (task_status t = TaskPending) || bool_decide (task_status t = TaskRetrying).

Definition Task_IsFinished (t : Task) : bool :=
  bool_decide (task_status t = TaskSucceeded) || bool_decide (task_status t = TaskFailed)
  || bool_decide (task_status t = TaskCancelled).

(** [UpdateStatus] returns the error, or the updated task. *)
Definition Task_UpdateStatus (t : Task) (status : TaskStatus) : transit_error + Task :=
  match TaskStatus_CanTransitTo (task_status t) status with
  | Some err => inl err
  | None => inr (set_task_status status t)
  end.

(** ** Workflows *)

Record Workflow := {
  wf_ID : string;
  TenantID : string;
  wf_Name : string;
  Tasks : gmap string Task;
  wf_status : WorkflowStatus;
  wf_CreatedAt : Z;
  wf_UpdatedAt : Z;
}.

Definition set_Tasks (v : gmap string Task) (w : Workflow) : Workflow :=
  let 'Build_Workflow i t n _ s c u := w in Build_Workflow i t n v s c u.
Definition set_wf_status (v : WorkflowStatus) (w : Workflow) : Workflow :=
  let 'Build_Workflow i t n k _ c u := w in Build_Workflow i t n k v c u.

Definition AllDepsSucceeded (t : Task) (wf : Workflow) : bool :=
  forallb (λ dep, match Tasks wf !! dep with
                  | Some task => bool_decide (Task_GetStatus task = TaskSucceeded)
                  | None => false
                  end) (DependsOn t).

Definition Workflow_GetStatus (w : Workflow) : WorkflowStatus := wf_status w.

Definition Workflow_UpdateStatus (w : Workflow) (status : WorkflowStatus) : transit_error + Workflow :=
  match WorkflowStatus_CanTransitTo (wf_status w) status with
  | Some err => inl err
  | None => inr (set_wf_status status w)
  end.

Definition Workflow_IsFinished (w : Workflow) : bool :=
  bool_decide (wf_status w = WorkflowSucceeded) || bool_decide (wf_status w = WorkflowFailed)
  || bool_decide (wf_status w = WorkflowCancelled).

(** The three observers below stop at the first task that decides them; they
    have no effect, so their result does not depend on the iteration order
    and any enumeration of the map's values serves. *)
Definition AllTasksFinished (w : Workflow) : bool :=
  forallb (λ kt, Task_IsFinished kt.2) (map_to_list (Tasks w)).

Definition HasFailedTask (w : Workflow) : bool :=
  existsb (λ kt, bool_decide (Task_GetStatus kt.2 = TaskFailed)) (map_to_list (Tasks w)).

Definition HasCancelledTask (w : Workflow) : bool :=
  existsb (λ kt, bool_decide (Task_GetStatus kt.2 = TaskCancelled)) (map_to_list (Tasks w)).

(** ** Worker nodes *)

Record WorkerNode := {
  node_ID : string;
  Address : string;
  Labels : gmap string string;
  Capabilities : list string;
  Capacity : Z;
  RunningTasks : Z;
  LastHeartbeat : Z;
  node_status : WorkerStatus;
}.

Definition set_node_status (v : WorkerStatus) (n : WorkerNode) : WorkerNode :=
  let 'Build_WorkerNode i a l ca cy r h _ := n in Build_WorkerNode i a l ca cy r h v.
Definition set_RunningTasks (v : Z) (n : WorkerNode) : WorkerNode :=
  let 'Build_WorkerNode i a l ca cy _ h s := n in Build_WorkerNode i a l ca cy v h s.
Definition set_LastHeartbeat (v : Z) (n : WorkerNode) : WorkerNode :=
  let 'Build_WorkerNode i a l ca cy r _ s := n in Build_WorkerNode i a l ca cy r v s.

Definition WorkerNode_GetStatus (n : WorkerNode) : WorkerStatus := node_status n.
Definition WorkerNode_IsReady (n : WorkerNode) : bool := bool_decide (node_status n = WorkerAlive).
Definition SetAlive (n : WorkerNode) : WorkerNode := set_node_status WorkerAlive n.
Definition SetSuspect (n : WorkerNode) : WorkerNode := set_node_status WorkerSuspect n.
Definition SetDead (n : WorkerNode) : WorkerNode := set_node_status WorkerDead n.

(** ** Observers as propositions *)

Definition finished (s : TaskStatus) : Prop :=
  s = TaskSucceeded ∨ s = TaskFailed ∨ s = TaskCancelled.

#[export] Instance finished_dec s : Decision (finished s).
Proof. unfold finished. apply _. Defined.

Lemma Task_IsFinished_spec t : Task_IsFinished t = true ↔ finished (task_status t).
Proof. unfold Task_IsFinished, finished. destruct (task_status t); vm_compute; intuition congruence. Qed.

Lemma Task_IsFinished_false t : Task_IsFinished t = false ↔ ¬ finished (task_status t).
Proof. rewrite <-Task_IsFinished_spec. by destruct (Task_IsFinished t). Qed.

Lemma Task_IsReady_spec t :
  Task_IsReady t = true ↔ task_status t = TaskPending ∨ task_status t = TaskRetrying.
Proof. unfold Task_IsReady. destruct (task_status t); vm_compute; intuition congruence. Qed.

Lemma Workflow_IsFinished_spec w :
  Workflow_IsFinished w = true ↔ WorkflowStatus_IsTerminated (wf_status w) = true.
Proof. unfold Workflow_IsFinished. by destruct (wf_status w). Qed.

(** [AllDepsSucceeded] decides that every dependency exists and succeeded. *)
Lemma AllDepsSucceeded_spec t wf :
  AllDepsSucceeded t wf = true ↔
  ∀ d, d ∈ DependsOn t → ∃ td, Tasks wf !! d = Some td ∧ task_status td = TaskSucceeded.
Proof.
  unfold AllDepsSucceeded. rewrite forallb_forall. setoid_rewrite <-list_elem_of_In.
  split; intros H d Hd; specialize (H d Hd).
  - destruct (Tasks wf !! d) as [td|]; [|done]. apply bool_decide_eq_true in H. eauto.
  - destruct H as (td & -> & Htd). by apply bool_decide_eq_true.
Qed.

Lemma AllTasksFinished_spec w :
  AllTasksFinished w = true ↔ ∀ k t, Tasks w !! k = Some t → finished (task_status t).
Proof.
  unfold AllTasksFinished. rewrite forallb_forall. setoid_rewrite <-list_elem_of_In. split.
  - intros H k t Hk. apply Task_IsFinished_spec, (H (k, t)). by apply elem_of_map_to_list.
  - intros H [k t] Hin. apply Task_IsFinished_spec, (H k). by apply elem_of_map_to_list.
Qed.

Lemma has_task_spec (f : string * Task → bool) w :
  existsb f (map_to_list (Tasks w)) = true ↔ ∃ k t, Tasks w !! k = Some t ∧ f (k, t) = true.
Proof.
  rewrite existsb_exists. setoid_rewrite <-list_elem_of_In. split.
  - intros ([k t] & Hin & HP). apply elem_of_map_to_list in Hin. eauto.
  - intros (k & t & Hin & HP). exists (k, t). by rewrite elem_of_map_to_list.
Qed.

Lemma HasFailedTask_spec w :
  HasFailedTask w = true ↔ ∃ k t, Tasks w !! k = Some t ∧ task_status t = TaskFailed.
Proof. unfold HasFailedTask. rewrite has_task_spec. by setoid_rewrite bool_decide_eq_true. Qed.

Lemma HasCancelledTask_spec w :
  HasCancelledTask w = true ↔ ∃ k t, Tasks w !! k = Some t ∧ task_status t = TaskCancelled.
Proof. unfold HasCancelledTask. rewrite has_task_spec. by setoid_rewrite bool_decide_eq_true. Qed.
