(* ===== verification/Dag.v ===== *)
(** * Validation of the task graph

    [validateTasksCycle] and [hasCycle] of [common/domain/workflow.go]: a
    depth-first search with three colours (absent or 0 white, 1 gray, 2
    black), run from every task with a fresh colour map.  The search recurses
    on task identifiers, so it carries fuel; [hasCycle_enough_fuel] shows that
    one unit per task is enough. *)

From stdpp Require Import base gmap strings list relations.
From Stdlib Require Import ZArith Lia.
From S2P Require Import Prelude Status Domain.

Definition gray : Z := 1.
Definition black : Z := 2.

Inductive dfs_result :=
  | DfsDone (colors : gmap string Z)     (* nil error *)
  | DfsCycle (from to : string)          (* "cycle detected: from -> to" *)
  | DfsPanic                             (* nil dereference of tasks[taskID] *)
  | DfsOutOfFuel.

(** The loop over [tasks[taskID].DependsOn]; [rec] is the recursive call. *)
Fixpoint visitDeps (rec : gmap string Z → string → dfs_result) (taskID : string)
    (deps : list string) (colors : gmap string Z) : dfs_result :=
  match deps with
  | [] => DfsDone colors
  | task :: deps =>
      let c := default 0%Z (colors !! task) in
      if decide (c = gray) then DfsCycle taskID task
      else if decide (c = 0%Z) then
        match rec colors task with
        | DfsDone colors' => visitDeps rec taskID deps colors'
        | DfsCycle _ _ => DfsCycle taskID task
        | r => r
        end
      else visitDeps rec taskID deps colors
  end.

Fixpoint hasCycle (fuel : nat) (tasks : gmap string Task) (colors : gmap string Z)
    (taskID : string) : dfs_result :=
  match fuel with
  | O => DfsOutOfFuel
  | S fuel =>
      let colors := <[taskID := gray]> colors in
      match tasks !! taskID with
      | None => DfsPanic
      | Some t =>
          match visitDeps (hasCycle fuel tasks) taskID (DependsOn t) colors with
          | DfsDone colors => DfsDone (<[taskID := black]> colors)
          | r => r
          end
      end
  end.

Inductive cycle_error := CycleDetectedInTask (taskID : string).

(** The loop over [tasks] in the order [order]; [None] in the result is [nil]. *)
Fixpoint validateLoop (tasks : gmap string Task) (order : list string)
    : outcome cycle_error () :=
  match order with
  | [] => Ret ()
  | k :: order =>
      match tasks !! k with
      | None => validateLoop tasks order
      | Some task =>
          match hasCycle (S (size tasks)) tasks ∅ (task_ID task) with
          | DfsDone _ => validateLoop tasks order
          | DfsCycle _ _ => Err (CycleDetectedInTask (task_ID task))
          | _ => Panic
          end
      end
  end.

Definition validateTasksCycle `{World} (n : nat) (tasks : gmap string Task)
    : outcome cycle_error () :=
  validateLoop tasks (range_keys n tasks).

(** ** The graph *)

(** [depends tasks x y]: task [x] lists [y] in its [DependsOn]. *)
Definition depends (tasks : gmap string Task) (x y : string) : Prop :=
  ∃ t, tasks !! x = Some t ∧ y ∈ DependsOn t.

Definition acyclic (tasks : gmap string Task) : Prop := ∀ x, ¬ tc (depends tasks) x x.

(** Keys are the tasks' own identifiers and every dependency is a task. *)
Definition closed (tasks : gmap string Task) : Prop :=
  ∀ k t, tasks !! k = Some t →
    task_ID t = k ∧ ∀ d, d ∈ DependsOn t → is_Some (tasks !! d).

(** ** Correctness of the search *)

Section search.
Context (tasks : gmap string Task).
Implicit Types (colors : gmap string Z) (x y u d : string).

#[local] Abbreviation edge := (depends tasks).
#[local] Abbreviation grounded := (Acc (flip edge)).

Definition is_gray colors x : Prop := colors !! x = Some gray.

(** Only gray and black are ever stored, and black tasks are on no cycle. *)
Definition colors_ok colors : Prop :=
  ∀ x c, colors !! x = Some c → c = gray ∨ c = black ∧ grounded x.

(** What a completed visit changes: the gray tasks stay the same, coloured
    tasks stay coloured. *)
Definition extends colors colors' : Prop :=
  colors_ok colors' ∧ (∀ x, is_gray colors' x ↔ is_gray colors x) ∧ dom colors ⊆ dom colors'.

Lemma extends_refl colors : colors_ok colors → extends colors colors.
Proof. by repeat split. Qed.

Lemma extends_trans c1 c2 c3 : extends c1 c2 → extends c2 c3 → extends c1 c3.
Proof.
  intros (_ & Hg1 & Hd1) (Hok & Hg2 & Hd2). split; [done|split; [|set_solver]].
  intros x. by rewrite Hg2, Hg1.
Qed.

(** Specification of one visit of a white task [u]. *)
Definition visit_spec (r : dfs_result) colors u : Prop :=
  match r with
  | DfsDone colors' => extends colors colors' ∧ colors' !! u = Some black
  | DfsCycle _ _ => (∀ g, is_gray colors g → rtc edge g u) → ∃ x, tc edge x x
  | _ => True
  end.

Definition deps_spec (r : dfs_result) colors u (deps : list string) : Prop :=
  match r with
  | DfsDone colors' => extends colors colors' ∧ ∀ d, d ∈ deps → grounded d
  | DfsCycle _ _ =>
      (∀ g, is_gray colors g → rtc edge g u) → (∀ d, d ∈ deps → edge u d) → ∃ x, tc edge x x
  | _ => True
  end.

Lemma rtc_edge_tc x y : rtc edge x y → edge y x → tc edge y y.
Proof. intros [->|Ht]%rtc_tc He; eauto using tc_once, tc_l. Qed.

Lemma visitDeps_spec rec u deps colors :
  (∀ colors d, colors_ok colors → colors !! d = None → visit_spec (rec colors d) colors d) →
  colors_ok colors →
  deps_spec (visitDeps rec u deps colors) colors u deps.
Proof.
  intros Hrec. revert colors. induction deps as [|d deps IH]; intros colors Hok; simpl.
  { split; [by apply extends_refl|]. intros d Hd. by apply elem_of_nil in Hd. }
  case_decide as Hgray.
  { intros Hreach Hedge. exists u. apply (rtc_edge_tc d); [|apply Hedge; left].
    apply Hreach. red. by destruct (colors !! d); simplify_eq/=. }
  case_decide as Hwhite.
  - assert (colors !! d = None) as Hd.
    { destruct (colors !! d) as [c|] eqn:Hc; [|done]. simpl in *. subst.
      by destruct (Hok _ _ Hc) as [?|[? _]]. }
    pose proof (Hrec colors d Hok Hd) as Hv. destruct (rec colors d) as [colors'|f t| |]; [| |exact I|exact I].
    + destruct Hv as [Hext Hb]. pose proof Hext as (Hok' & Hg & _).
      specialize (IH colors' Hok'). destruct (visitDeps _ _ _ colors'); [| |exact I|exact I]; simpl in *.
      * destruct IH as [Hext' Hall]. split; [by eapply extends_trans|].
        intros d' Hd'. apply elem_of_cons in Hd' as [->|Hd']; [|by apply Hall].
        by destruct (Hok' _ _ Hb) as [?|[_ ?]].
      * intros Hreach Hedge. apply IH; [intros g; rewrite Hg; eauto|].
        intros d' Hd'. apply Hedge. by right.
    + intros Hreach Hedge. apply Hv. intros g Hg. eapply rtc_r; [by apply Hreach|].
      apply Hedge. left.
  - assert (grounded d) as Hgd.
    { destruct (colors !! d) as [c|] eqn:Hc; simpl in *; [|done].
      by destruct (Hok _ _ Hc) as [?|[_ ?]]. }
    specialize (IH colors Hok). destruct (visitDeps _ _ _ colors); [| |exact I|exact I]; simpl in *.
    + destruct IH as [Hext Hall]. split; [done|].
      intros d' Hd'. apply elem_of_cons in Hd' as [->|Hd']; [done|by apply Hall].
    + intros Hreach Hedge. apply IH; [done|]. intros d' Hd'. apply Hedge. by right.
Qed.

Lemma colors_ok_gray colors u : colors_ok colors → colors_ok (<[u := gray]> colors).
Proof. intros Hok x c. rewrite lookup_insert. case_decide; [intros [= <-]; by left|apply Hok]. Qed.

(** Blackening [u] once every dependency is grounded ends its visit. *)
Lemma blacken_extends colors colors' u t :
  tasks !! u = Some t → colors !! u = None →
  extends (<[u := gray]> colors) colors' → (∀ d, d ∈ DependsOn t → grounded d) →
  extends colors (<[u := black]> colors').
Proof.
  intros Ht Hu (Hok & Hg & Hd) Hall. repeat split.
  - intros x c. rewrite lookup_insert. case_decide as Hx; [|apply Hok]. intros [= <-]. right.
    split; [done|]. subst. constructor. intros y (t' & Ht' & Hy). simplify_eq. by apply Hall.
  - unfold is_gray in *. specialize (Hg x). revert Hg. rewrite !lookup_insert.
    case_decide; [done|]. by intros ->.
  - unfold is_gray in *. specialize (Hg x). revert Hg. rewrite !lookup_insert.
    case_decide; [by subst; rewrite Hu|]. by intros <-.
  - rewrite dom_insert_L in *. set_solver.
Qed.

Lemma hasCycle_spec fuel colors u :
  colors_ok colors → colors !! u = None → visit_spec (hasCycle fuel tasks colors u) colors u.
Proof.
  revert colors u. induction fuel as [|fuel IH]; intros colors u Hok Hu; [done|]. simpl.
  destruct (tasks !! u) as [t|] eqn:Ht; [|done].
  pose proof (visitDeps_spec (hasCycle fuel tasks) u (DependsOn t) (<[u := gray]> colors) IH
    (colors_ok_gray _ _ Hok)) as Hv.
  destruct (visitDeps _ _ _ _) as [colors'|f x| |]; [| |exact I|exact I]; simpl in *.
  - destruct Hv as [Hext Hall]. split; [|apply lookup_insert_eq]. by eapply blacken_extends.
  - intros Hreach. apply Hv; [|intros d Hd; by exists t].
    intros g. unfold is_gray. rewrite lookup_insert. case_decide; [by subst|]. apply Hreach.
Qed.

(** *** Fuel *)

Definition white_left colors : nat := size (dom tasks ∖ dom colors).

Definition terminates (r : dfs_result) : Prop := r ≠ DfsPanic ∧ r ≠ DfsOutOfFuel.

Lemma visitDeps_terminates rec u deps colors :
  (∀ colors d, colors_ok colors → colors !! d = None → visit_spec (rec colors d) colors d) →
  (∀ colors' d, dom colors ⊆ dom colors' → colors_ok colors' → colors' !! d = None →
    d ∈ deps → terminates (rec colors' d)) →
  colors_ok colors → terminates (visitDeps rec u deps colors).
Proof.
  intros Hrec. revert colors. induction deps as [|d deps IH]; intros colors Hterm Hok; simpl; [done|].
  case_decide as Hgray; [done|].
  assert (∀ colors', dom colors ⊆ dom colors' → colors_ok colors' →
    terminates (visitDeps rec u deps colors')) as Hnext.
  { intros colors' Hsub Hok'. apply IH; [|done]. intros c2 d2 Hs2 Hok2 Hd2 Hin.
    apply Hterm; [set_solver|done|done|by right]. }
  case_decide as Hwhite; [|by apply Hnext].
  assert (colors !! d = None) as Hd.
  { destruct (colors !! d) as [c|] eqn:Hc; [|done]. simpl in *. subst.
    by destruct (Hok _ _ Hc) as [?|[? _]]. }
  pose proof (Hrec colors d Hok Hd) as Hv.
  destruct (Hterm colors d) as [Hp Hf]; [done|done|done|left|].
  destruct (rec colors d); try done. destruct Hv as [(Hok' & _ & Hsub) _]. by apply Hnext.
Qed.

Lemma hasCycle_terminates fuel colors u :
  closed tasks → colors_ok colors → is_Some (tasks !! u) → colors !! u = None →
  white_left colors ≤ fuel → terminates (hasCycle fuel tasks colors u).
Proof.
  intros Hclosed. revert colors u. induction fuel as [|fuel IH]; intros colors u Hok Hu Hw Hle.
  - exfalso. assert (u ∈ dom tasks ∖ dom colors) as Hin.
    { rewrite elem_of_difference, !elem_of_dom, Hw. split; [done|]. by intros [? ?]. }
    unfold white_left in Hle. assert (dom tasks ∖ dom colors ≡ ∅) by (apply size_empty_inv; lia).
    set_solver.
  - simpl. destruct Hu as [t Ht]. rewrite Ht.
    assert (terminates (visitDeps (hasCycle fuel tasks) u (DependsOn t) (<[u:=gray]> colors))) as [H1 H2].
    { apply visitDeps_terminates; [apply hasCycle_spec| |by apply colors_ok_gray].
      intros colors' d Hsub Hok' Hd Hin. apply IH; [done|by eapply Hclosed|done|].
      assert (white_left colors' < white_left colors); [|lia].
      unfold white_left. apply subset_size. rewrite dom_insert_L in Hsub.
      assert (u ∈ dom tasks) by (by apply elem_of_dom).
      assert (u ∉ dom colors) by (by apply not_elem_of_dom). set_solver. }
    by destruct (visitDeps _ _ _ _).
Qed.
End search.

(** ** The validation *)

Lemma colors_ok_empty tasks : colors_ok tasks ∅.
Proof. intros x c. by rewrite lookup_empty. Qed.

(** One unit of fuel per task is enough for a search from any task. *)
Lemma hasCycle_enough_fuel tasks u fuel :
  closed tasks → is_Some (tasks !! u) → size tasks ≤ fuel → terminates (hasCycle fuel tasks ∅ u).
Proof.
  intros Hc Hu Hf. apply hasCycle_terminates; [done|apply colors_ok_empty|done|done|].
  unfold white_left. rewrite dom_empty_L, difference_empty_L, size_dom. done.
Qed.

Lemma validateLoop_spec tasks order :
  closed tasks → (∀ k, k ∈ order → is_Some (tasks !! k)) →
  match validateLoop tasks order with
  | Ret _ => ∀ k, k ∈ order → Acc (flip (depends tasks)) k
  | Err _ => ∃ x, tc (depends tasks) x x
  | Panic => False
  end.
Proof.
  intros Hclosed. induction order as [|k order IH]; intros Hin; cbn [validateLoop].
  { intros k Hk. by apply elem_of_nil in Hk. }
  destruct (Hin k) as [t Ht]; [left|]. rewrite Ht. destruct (Hclosed _ _ Ht) as [-> _].
  pose proof (hasCycle_enough_fuel tasks k (S (size tasks))) as [Hp Hf]; [done|by eauto|lia|].
  pose proof (hasCycle_spec tasks (S (size tasks)) ∅ k (colors_ok_empty _) (lookup_empty _)) as Hv.
  destruct (hasCycle _ _ _ _) as [colors|f x| |]; try done.
  - destruct Hv as [(Hok & _ & _) Hb].
    destruct (Hok _ _ Hb) as [?|[_ Hacc]]; [done|].
    specialize (IH (λ k' Hk', Hin k' (list_elem_of_further _ _ _ Hk'))).
    destruct (validateLoop tasks order); [|done|done].
    intros k' [->|Hk']%elem_of_cons; [done|by apply IH].
  - apply Hv. intros g Hg. by apply lookup_empty_Some in Hg.
Qed.

(** ** Graphs with the same identifiers and edges *)

Definition same_graph (ts ts' : gmap string Task) : Prop :=
  ∀ k, (λ t, (task_ID t, DependsOn t)) <$> ts !! k = (λ t, (task_ID t, DependsOn t)) <$> ts' !! k.

#[export] Instance same_graph_equiv : Equivalence same_graph.
Proof. split; [done|by intros ?? H k; rewrite H|by intros ??? H1 H2 k; rewrite H1]. Qed.

Lemma same_graph_lookup ts ts' k t :
  same_graph ts ts' → ts !! k = Some t →
  ∃ t', ts' !! k = Some t' ∧ task_ID t' = task_ID t ∧ DependsOn t' = DependsOn t.
Proof.
  intros Hg Hk. specialize (Hg k). rewrite Hk in Hg. simpl in Hg.
  destruct (ts' !! k) as [t'|]; [|done]. injection Hg as ??. eauto.
Qed.

Lemma same_graph_depends ts ts' x y : same_graph ts ts' → depends ts x y → depends ts' x y.
Proof.
  intros Hg (t & Ht & Hy). destruct (same_graph_lookup _ _ _ _ Hg Ht) as (t' & ? & _ & Hd).
  exists t'. by rewrite Hd.
Qed.

Lemma same_graph_closed ts ts' : same_graph ts ts' → closed ts → closed ts'.
Proof.
  intros Hg Hc k t' Ht'. symmetry in Hg.
  destruct (same_graph_lookup _ _ _ _ Hg Ht') as (t & Ht & Hi & Hd).
  destruct (Hc _ _ Ht) as [Hid Hdeps]. split; [congruence|]. intros d Hin.
  rewrite <-Hd in Hin. destruct (Hdeps d Hin) as [u Hu]. symmetry in Hg.
  destruct (same_graph_lookup _ _ _ _ Hg Hu) as (u' & ? & _). eauto.
Qed.

Lemma same_graph_acc ts ts' k :
  same_graph ts ts' → Acc (flip (depends ts)) k → Acc (flip (depends ts')) k.
Proof.
  intros Hg. induction 1 as [k _ IH]. constructor. intros y Hy. apply IH.
  eapply same_graph_depends; [by symmetry|done].
Qed.

Lemma acc_acyclic tasks : (∀ k, Acc (flip (depends tasks)) k) → acyclic tasks.
Proof. intros Hacc x. by apply Acc_tc_irrefl. Qed.

(** C31. Cycle detection is sound and complete: on a task map whose keys are
    the tasks' IDs and whose dependencies are all present, the check neither
    panics nor runs out of fuel, and it returns nil exactly when the
    dependency graph has no cycle, for every iteration order of the map. *)
Theorem validateTasksCycle_iff_acyclic `{World} n (tasks : gmap string Task) :
  closed tasks →
  validateTasksCycle n tasks ≠ Panic ∧ (validateTasksCycle n tasks = Ret () ↔ acyclic tasks).
Proof.
  intros Hclosed. unfold validateTasksCycle.
  pose proof (validateLoop_spec tasks (range_keys n tasks) Hclosed
    (λ k, proj1 (elem_of_range_keys _ _ _))) as Hv.
  destruct (validateLoop tasks _) as [[]|e|]; [| |done].
  - split; [done|]. split; [intros _|done]. apply acc_acyclic. intros k.
    destruct (decide (is_Some (tasks !! k))) as [Hk|Hk]; [by apply Hv, elem_of_range_keys|].
    constructor. intros y (t & Ht & _). destruct Hk. eauto.
  - split; [done|]. split; [done|]. intros Hac. destruct Hv as [x Hx]. by destruct (Hac x).
Qed.
