(* ===== verification/NewWorkflow.v ===== *)
(** * Construction of a workflow

    [NewWorkflow] and [resolveDependencies] of [common/domain/workflow.go].
    The slice [tasks] is mutated in place, and the two index maps hold
    pointers into it: a pointer [&tasks[i]] is the index [i], so the maps
    alias the slice as in the source. *)

From stdpp Require Import base gmap strings list relations.
From Stdlib Require Import ZArith Lia.
From S2P Require Import Prelude Status Domain Dag.

Inductive workflow_error :=
  | DuplicateTaskName (name : string)    (* "duplicate task name: %s" *)
  | DuplicateTaskID (id : string)        (* "duplicate task id: %s" *)
  | InvalidDependency (depName : string) (* "invalid tasks: invalid dependency: %s" *)
  | TasksCycleFailed (taskID : string).  (* "tasks cycle failed: cycle detected in task: %s" *)

Definition workflow_error_String (e : workflow_error) : string :=
  match e with
  | DuplicateTaskName name => "duplicate task name: " +:+ name
  | DuplicateTaskID id => "duplicate task id: " +:+ id
  | InvalidDependency d => "invalid tasks: invalid dependency: " +:+ d
  | TasksCycleFailed id => "tasks cycle failed: cycle detected in task: " +:+ id
  end.

Definition defaultTimeout : Z := 30 * Second.
Definition defaultRetryBackoff : Z := 200 * Millisecond.

Section NewWorkflow.
Context `{World}.

Record index_state := {
  slice : list Task;
  byName : gmap string nat;
  byID : gmap string nat;
  ticks : nat;
}.

(** [if task.ID == "" { task.ID = uuid.NewString() }] *)
Definition ensureID (task : Task) (n : nat) : Task * nat :=
  if decide (task_ID task = "") then (set_task_ID (uuid n) task, S n) else (task, n).

(** The loop [for i := range tasks] that fills the two maps. *)
Fixpoint indexTasks (idxs : list nat) (st : index_state) : outcome workflow_error index_state :=
  match idxs with
  | [] => Ret st
  | i :: idxs =>
      match slice st !! i with
      | None => Panic
      | Some task =>
          let '(task, n) := ensureID task (ticks st) in
          if decide (is_Some (byName st !! task_Name task)) then
            Err (DuplicateTaskName (task_Name task))
          else if decide (is_Some (byID st !! task_ID task)) then
            Err (DuplicateTaskID (task_ID task))
          else indexTasks idxs {|
            slice := <[i := task]> (slice st);
            byName := <[task_Name task := i]> (byName st);
            byID := <[task_ID task := i]> (byID st);
            ticks := n;
          |}
      end
  end.

(** The inner loop of [resolveDependencies]: the IDs of [task.DependsOn]. *)
Fixpoint resolveNames (sl : list Task) (byName : gmap string nat) (deps : list string)
    : outcome workflow_error (list string) :=
  match deps with
  | [] => Ret []
  | depName :: deps =>
      match byName !! depName with
      | None => Err (InvalidDependency depName)
      | Some j =>
          match sl !! j with
          | None => Panic
          | Some depTask =>
              resolved ← resolveNames sl byName deps;
              Ret (task_ID depTask :: resolved)
          end
      end
  end.

(** [resolveDependencies], visiting the tasks in the order [order]. *)
Fixpoint resolveDependencies (order : list string) (sl : list Task) (byName : gmap string nat)
    : outcome workflow_error (list Task) :=
  match order with
  | [] => Ret sl
  | name :: order =>
      match byName !! name with
      | None => resolveDependencies order sl byName
      | Some i =>
          match sl !! i with
          | None => Panic
          | Some task =>
              resolved ← resolveNames sl byName (DependsOn task);
              resolveDependencies order (<[i := set_DependsOn resolved task]> sl) byName
          end
      end
  end.

(** One iteration of the final loop over [wf.Tasks]. *)
Definition finishTask (wfID : string) (n : nat) (t : Task) : Task :=
  let t := set_task_WorkflowID wfID t in
  let t := set_task_CreatedAt (clk n) t in
  let t := set_task_UpdatedAt (clk (S n)) t in
  let t := if decide (Timeout t = 0%Z) then set_Timeout defaultTimeout t else t in
  if decide (RetryBackoff t = 0%Z) then set_RetryBackoff defaultRetryBackoff t else t.

Definition finishTasks (wfID : string) (order : list string) (ts : gmap string Task) (n : nat)
    : gmap string Task * nat :=
  foldl (λ '(ts, n) k, (alter (finishTask wfID n) k ts, S (S n))) (ts, n) order.

(** The map [tasksMapByID] with its pointers followed. *)
Definition derefTasks (sl : list Task) (byID : gmap string nat) : gmap string Task :=
  omap (λ i, sl !! i) byID.

(** The workflow and the tick after the call; the draws of a failing call
    are discarded with it. *)
Definition NewWorkflow (tenantID name : string) (tasks : list Task) (n : nat)
    : outcome workflow_error (Workflow * nat) :=
  st ← indexTasks (seq 0 (length tasks))
         {| slice := tasks; byName := ∅; byID := ∅; ticks := n |};
  sl ← resolveDependencies (range_keys (ticks st) (byName st)) (slice st) (byName st);
  let tasksMapByID := derefTasks sl (byID st) in
  match validateTasksCycle (S (ticks st)) tasksMapByID with
  | Panic => Panic
  | Err (CycleDetectedInTask id) => Err (TasksCycleFailed id)
  | Ret _ =>
      let n := S (S (ticks st)) in
      let wfID := uuid n in
      let '(ts, n') := finishTasks wfID (range_keys (n + 3) tasksMapByID) tasksMapByID (n + 4) in
      Ret ({| wf_ID := wfID; TenantID := tenantID; wf_Name := name; Tasks := ts;
              wf_status := WorkflowPending; wf_CreatedAt := clk (n + 1);
              wf_UpdatedAt := clk (n + 2) |}, n')
  end.
End NewWorkflow.

Definition plain_task (id name : string) (deps : list string) : Task :=
  {| task_ID := id; task_WorkflowID := ""; task_Name := name; DependsOn := deps;
     Spec := {| Type_ := ""; Payload := "" |}; MaxRetries := 0; RetryBackoff := 0; Timeout := 0;
     task_status := TaskPending; AssignedTo := ""; Attempt := 0; task_result := None;
     task_CreatedAt := 0; task_UpdatedAt := 0 |}.

(** ** What a valid request is *)

(** The tasks after [ensureID], in slice order. *)
Fixpoint assignIDs `{World} (tasks : list Task) (n : nat) : list Task * nat :=
  match tasks with
  | [] => ([], n)
  | t :: tasks =>
      let '(t, n) := ensureID t n in
      let '(tasks, n) := assignIDs tasks n in (t :: tasks, n)
  end.

(** In a request, dependencies are given by name. *)
Definition name_edge (tasks : list Task) (x y : string) : Prop :=
  ∃ t, t ∈ tasks ∧ task_Name t = x ∧ y ∈ DependsOn t.

Record request_ok (tasks : list Task) : Prop := {
  rok_names : NoDup (task_Name <$> tasks);
  rok_ids : NoDup (task_ID <$> tasks);
  rok_deps : ∀ t d, t ∈ tasks → d ∈ DependsOn t → d ∈ task_Name <$> tasks;
  rok_acyclic : ∀ x, ¬ tc (name_edge tasks) x x;
}.

(** What a stored workflow satisfies. *)
Record wf_wellformed (wf : Workflow) : Prop := {
  wfok_closed : closed (Tasks wf);
  wfok_acyclic : ∀ k, Acc (flip (depends (Tasks wf))) k;
  wfok_owner : ∀ k t, Tasks wf !! k = Some t → task_WorkflowID t = wf_ID wf;
}.

(** [resolves tasks d id]: the task named [d] has identifier [id]. *)
Definition resolves (tasks : list Task) (d id : string) : Prop :=
  ∃ t, t ∈ tasks ∧ task_Name t = d ∧ task_ID t = id.

(** ** Index maps *)

Section index.
Context (key : Task → string).

Definition indexes (sl : list Task) (m : gmap string nat) : Prop :=
  ∀ x j, m !! x = Some j ↔ ∃ t, sl !! j = Some t ∧ key t = x.

Lemma indexes_nil : indexes [] ∅.
Proof. intros x j. rewrite lookup_empty, lookup_nil. naive_solver. Qed.

Lemma indexes_NoDup sl m : indexes sl m → NoDup (key <$> sl).
Proof.
  intros Hm. apply NoDup_alt. intros i j x. rewrite !list_lookup_fmap, !fmap_Some.
  intros (ti & Hi & ->) (tj & Hj & Heq).
  assert (m !! key ti = Some i) by (apply Hm; eauto).
  assert (m !! key ti = Some j) by (apply Hm; eauto). congruence.
Qed.

Lemma indexes_snoc pre t m :
  indexes pre m → m !! key t = None → indexes (pre ++ [t]) (<[key t := length pre]> m).
Proof.
  intros Hm Hnone x j. rewrite lookup_insert. split.
  - case_decide as Hx.
    + intros [= <-]. exists t. by rewrite lookup_app_r, Nat.sub_diag by lia.
    + intros (t' & Ht' & <-)%Hm. exists t'. split; [by apply lookup_app_l_Some|done].
  - intros (t' & [Ht'|[Hge Ht']]%lookup_app_Some & <-).
    + case_decide as Hx; [|apply Hm; eauto].
      exfalso. assert (m !! key t' = Some j) by (apply Hm; eauto). congruence.
    + apply list_lookup_singleton_Some in Ht' as [? <-].
      rewrite decide_True by done. f_equal. lia.
Qed.

Lemma indexes_dup pre t suf m :
  indexes pre m → is_Some (m !! key t) → ¬ NoDup (key <$> pre ++ t :: suf).
Proof.
  intros Hm [j (t' & Ht' & Heq)%Hm]. rewrite fmap_app, fmap_cons, NoDup_app.
  intros (_ & Hdis & _). apply (Hdis (key t)); [|left]. rewrite <-Heq.
  apply list_elem_of_fmap. eauto using list_elem_of_lookup_2.
Qed.

Lemma indexes_elem sl m x :
  indexes sl m → is_Some (m !! x) ↔ x ∈ key <$> sl.
Proof.
  intros Hm. rewrite list_elem_of_fmap. split.
  - intros [j (t & Ht & <-)%Hm]. eauto using list_elem_of_lookup_2.
  - intros (t & -> & [j Hj]%list_elem_of_lookup). exists j. apply Hm. eauto.
Qed.
End index.

(** ** The indexing loop *)

Section build.
Context `{World}.

Lemma ensureID_name t n : task_Name (ensureID t n).1 = task_Name t.
Proof. unfold ensureID. case_decide; [|done]. by destruct t. Qed.

Lemma ensureID_deps t n : DependsOn (ensureID t n).1 = DependsOn t.
Proof. unfold ensureID. case_decide; [|done]. by destruct t. Qed.

Lemma assignIDs_cons t ts n :
  (assignIDs (t :: ts) n).1 = (ensureID t n).1 :: (assignIDs ts (ensureID t n).2).1.
Proof. simpl. destruct (ensureID t n) as [t' n']. simpl. by destruct (assignIDs ts n'). Qed.

Lemma assignIDs_cons_2 t ts n :
  (assignIDs (t :: ts) n).2 = (assignIDs ts (ensureID t n).2).2.
Proof. simpl. destruct (ensureID t n) as [t' n']. simpl. by destruct (assignIDs ts n'). Qed.

(** The two maps after the loop index the slice by name and by ID. *)
Lemma indexTasks_spec suf pre mN mI n :
  indexes task_Name pre mN → indexes task_ID pre mI →
  let all := pre ++ (assignIDs suf n).1 in
  match indexTasks (seq (length pre) (length suf))
          {| slice := pre ++ suf; byName := mN; byID := mI; ticks := n |} with
  | Ret st => slice st = all ∧ ticks st = (assignIDs suf n).2 ∧
              indexes task_Name all (byName st) ∧ indexes task_ID all (byID st)
  | Err (DuplicateTaskName _) => ¬ NoDup (task_Name <$> all)
  | Err (DuplicateTaskID _) => ¬ NoDup (task_ID <$> all)
  | _ => False
  end.
Proof.
  revert pre mN mI n. induction suf as [|t suf IH]; intros pre mN mI n HN HI.
  { simpl. by rewrite app_nil_r. }
  cbn [length seq indexTasks]. cbn [slice byName byID ticks].
  rewrite lookup_app_r, Nat.sub_diag by lia. cbn [lookup list_lookup].
  rewrite assignIDs_cons, assignIDs_cons_2.
  destruct (ensureID t n) as [t' n'] eqn:He. cbn [fst snd].
  case_decide as HdN.
  { by eapply (indexes_dup task_Name). }
  case_decide as HdI.
  { by eapply (indexes_dup task_ID). }
  rewrite <-eq_None_not_Some in HdN, HdI.
  assert (<[length pre := t']> (pre ++ t :: suf) = (pre ++ [t']) ++ suf) as ->.
  { rewrite insert_app_r_alt, Nat.sub_diag by lia. by rewrite <-app_assoc. }
  specialize (IH (pre ++ [t']) (<[task_Name t' := length pre]> mN)
    (<[task_ID t' := length pre]> mI) n').
  rewrite length_app, Nat.add_1_r, <-app_assoc in IH. simpl in IH.
  apply IH; by apply indexes_snoc.
Qed.

(** ** Dependency resolution *)

Lemma resolveNames_ids (sl sl' : list Task) mN deps :
  task_ID <$> sl = task_ID <$> sl' → resolveNames sl mN deps = resolveNames sl' mN deps.
Proof.
  intros Hids. induction deps as [|d deps IH]; [done|]. simpl.
  destruct (mN !! d) as [j|]; [|done].
  assert (task_ID <$> sl !! j = task_ID <$> sl' !! j) as Hj
    by (by rewrite <-!list_lookup_fmap, Hids).
  rewrite IH. destruct (sl !! j), (sl' !! j); simpl in *; try done. injection Hj as ->. done.
Qed.

Lemma resolveNames_spec sl mN deps :
  indexes task_Name sl mN →
  match resolveNames sl mN deps with
  | Ret ds => Forall2 (resolves sl) deps ds
  | Err (InvalidDependency _) => ∃ d, d ∈ deps ∧ d ∉ task_Name <$> sl
  | _ => False
  end.
Proof.
  intros Hm. induction deps as [|d deps IH]; simpl; [done|].
  destruct (mN !! d) as [j|] eqn:Hd.
  - apply Hm in Hd as (t & Ht & Hname). rewrite Ht.
    destruct (resolveNames sl mN deps) as [|[]|]; simpl; [|done|done| |done|done].
    + constructor; [|done]. exists t. eauto using list_elem_of_lookup_2.
    + destruct IH as (d' & ? & ?). exists d'. split; [by right|done].
  - exists d. split; [left|]. rewrite <-(indexes_elem task_Name) by done.
    rewrite Hd. by intros [? ?].
Qed.

(** [t'] is [t] with its dependency names replaced by identifiers. *)
Definition resolved_as (tasks : list Task) (t t' : Task) : Prop :=
  ∃ ds, Forall2 (resolves tasks) (DependsOn t) ds ∧ t' = set_DependsOn ds t.

Lemma insert_resolved_ids (sl : list Task) i t ds :
  sl !! i = Some t → task_ID <$> <[i := set_DependsOn ds t]> sl = task_ID <$> sl.
Proof.
  intros Hi. rewrite list_fmap_insert. apply list_insert_id.
  rewrite list_lookup_fmap, Hi. by destruct t.
Qed.

(** Tasks named in [order] are resolved, the others are as in [sl]; names
    are read in [sl0], whose identifiers [sl] still has. *)
Lemma resolveDependencies_spec (sl0 : list Task) mN order (sl : list Task) :
  indexes task_Name sl0 mN → NoDup order →
  task_ID <$> sl = task_ID <$> sl0 →
  (∀ i t, sl0 !! i = Some t → task_Name t ∈ order → sl !! i = Some t) →
  match resolveDependencies order sl mN with
  | Ret sl' => task_ID <$> sl' = task_ID <$> sl0 ∧
      ∀ i t, sl0 !! i = Some t →
        if decide (task_Name t ∈ order)
        then ∃ t', sl' !! i = Some t' ∧ resolved_as sl0 t t'
        else sl' !! i = sl !! i
  | Err (InvalidDependency _) => ∃ t d, t ∈ sl0 ∧ d ∈ DependsOn t ∧ d ∉ task_Name <$> sl0
  | _ => False
  end.
Proof.
  intros Hm Hnd. revert sl. induction Hnd as [|x order Hx Hnd IH]; intros sl Hids Hsl; simpl.
  { by split. }
  destruct (mN !! x) as [i|] eqn:Hix.
  - pose proof Hix as (t & Ht & Hname)%Hm.
    assert (sl !! i = Some t) as Hslt by (apply Hsl; [done|rewrite Hname; left]).
    rewrite Hslt, (resolveNames_ids sl sl0) by done.
    pose proof (resolveNames_spec sl0 mN (DependsOn t) Hm) as Hr.
    destruct (resolveNames sl0 mN (DependsOn t)) as [ds|[]|]; simpl; [|done|done| |done|done].
    2:{ destruct Hr as (d & ? & ?). exists t, d. eauto using list_elem_of_lookup_2. }
    assert (∀ j u, sl0 !! j = Some u → task_Name u ≠ x → i ≠ j) as Hne by (by intros j u ?? ->; simplify_eq).
    specialize (IH (<[i := set_DependsOn ds t]> sl)).
    rewrite insert_resolved_ids in IH by done. specialize (IH Hids).
    assert (∀ j u, sl0 !! j = Some u → task_Name u ∈ order →
      <[i := set_DependsOn ds t]> sl !! j = Some u) as Hpre.
    { intros j u Hu Hin. rewrite list_lookup_insert_ne; [apply Hsl; [done|by right]|].
      eapply Hne; [done|]. intros Heq. by rewrite Heq in Hin. }
    specialize (IH Hpre). destruct (resolveDependencies order _ mN) as [sl'|e|]; [|done|done].
    destruct IH as [Hids' IH]. split; [done|]. intros j u Hu. specialize (IH j u Hu).
    destruct (decide (task_Name u = x)) as [Heq|Hnx].
    + assert (j = i) as ->.
      { assert (mN !! x = Some j) by (apply Hm; eauto). congruence. }
      simplify_eq. rewrite decide_False in IH by done.
      rewrite decide_True by left. exists (set_DependsOn ds t). split; [|by exists ds].
      rewrite IH. apply list_lookup_insert_eq. by eapply lookup_lt_Some.
    + rewrite (decide_ext _ (task_Name u ∈ order)) by (rewrite elem_of_cons; naive_solver).
      case_decide; [done|]. rewrite IH. apply list_lookup_insert_ne. by eapply Hne.
  - specialize (IH sl Hids). 
    assert (∀ i t, sl0 !! i = Some t → task_Name t ≠ x) as Hno.
    { intros i t Ht Heq. assert (mN !! x = Some i) by (apply Hm; eauto). congruence. }
    assert (∀ i t, sl0 !! i = Some t → task_Name t ∈ order → sl !! i = Some t) as Hpre.
    { intros i t Ht Hin. apply Hsl; [done|by right]. }
    specialize (IH Hpre). destruct (resolveDependencies order sl mN) as [sl'|e|]; [|done|done].
    destruct IH as [Hids' IH]. split; [done|]. intros i t Ht. specialize (IH i t Ht).
    rewrite (decide_ext _ (task_Name t ∈ order)); [done|].
    rewrite elem_of_cons. naive_solver.
Qed.
End build.

(** ** The task map built from the resolved slice *)

Section deref.
Context (sl0 sl : list Task) (mI : gmap string nat).
Context (Hindex : indexes task_ID sl0 mI) (Hids : task_ID <$> sl = task_ID <$> sl0)
        (Hres : Forall2 (resolved_as sl0) sl0 sl)
        (Hnames : NoDup (task_Name <$> sl0)).

Lemma derefTasks_spec k t : derefTasks sl mI !! k = Some t ↔ t ∈ sl ∧ task_ID t = k.
Proof.
  unfold derefTasks. rewrite lookup_omap, bind_Some. split.
  - intros (i & (t0 & Ht0 & Hid)%Hindex & Hi). split; [by eapply list_elem_of_lookup_2|].
    assert (task_ID <$> sl !! i = task_ID <$> sl0 !! i) as Heq by (by rewrite <-!list_lookup_fmap, Hids).
    rewrite Hi, Ht0 in Heq. by simplify_eq/=.
  - intros [[i Hi]%list_elem_of_lookup Hid]. exists i. split; [|done]. apply Hindex.
    assert (task_ID <$> sl !! i = task_ID <$> sl0 !! i) as Heq by (by rewrite <-!list_lookup_fmap, Hids).
    rewrite Hi in Heq. destruct (sl0 !! i) as [t0|]; [|done]. simplify_eq/=. eauto.
Qed.

Lemma resolved_elem t' : t' ∈ sl → ∃ t, t ∈ sl0 ∧ resolved_as sl0 t t'.
Proof.
  intros [i Hi]%list_elem_of_lookup. destruct (Forall2_lookup_r _ _ _ _ _ Hres Hi) as (t & ? & ?).
  eauto using list_elem_of_lookup_2.
Qed.

Lemma elem_resolved t : t ∈ sl0 → ∃ t', t' ∈ sl ∧ resolved_as sl0 t t'.
Proof.
  intros [i Hi]%list_elem_of_lookup. destruct (Forall2_lookup_l _ _ _ _ _ Hres Hi) as (t' & ? & ?).
  eauto using list_elem_of_lookup_2.
Qed.

Lemma resolved_as_ID t t' : resolved_as sl0 t t' → task_ID t' = task_ID t.
Proof. intros (ds & _ & ->). by destruct t. Qed.

Lemma resolved_as_deps t t' : resolved_as sl0 t t' → Forall2 (resolves sl0) (DependsOn t) (DependsOn t').
Proof. intros (ds & H & ->). by destruct t. Qed.

Lemma resolves_inj a b id : resolves sl0 a id → resolves sl0 b id → a = b.
Proof.
  pose proof (indexes_NoDup task_ID _ _ Hindex) as Hnd.
  intros (t & Ht & <- & <-) (u & Hu & <- & Heq).
  apply list_elem_of_lookup in Ht as [i Hi], Hu as [j Hj].
  assert (i = j) as ->; [|by simplify_eq].
  eapply (NoDup_lookup _ _ _ (task_ID t) Hnd); rewrite list_lookup_fmap, ?Hi, ?Hj; simpl; congruence.
Qed.

Lemma resolves_fun a x y : resolves sl0 a x → resolves sl0 a y → x = y.
Proof.
  intros (t & Ht & <- & <-) (u & Hu & Heq & <-).
  apply list_elem_of_lookup in Ht as [i Hi], Hu as [j Hj].
  assert (i = j) as ->; [|by simplify_eq].
  eapply (NoDup_lookup _ _ _ (task_Name t) Hnames); rewrite list_lookup_fmap, ?Hi, ?Hj; simpl; congruence.
Qed.

Lemma derefTasks_closed : closed (derefTasks sl mI).
Proof.
  intros k t' [Hin Hid]%derefTasks_spec. split; [done|]. intros d Hd.
  destruct (resolved_elem t' Hin) as (t & _ & Hr%resolved_as_deps).
  apply list_elem_of_lookup in Hd as [i Hi].
  destruct (Forall2_lookup_r _ _ _ _ _ Hr Hi) as (dn & _ & u & Hu & _ & <-).
  destruct (elem_resolved u Hu) as (u' & Hu' & Hr'). exists u'.
  apply derefTasks_spec. split; [done|]. by apply resolved_as_ID.
Qed.

(** Paths between identifiers and paths between names correspond. *)
Lemma depends_name_edge a x y :
  depends (derefTasks sl mI) x y → resolves sl0 a x → ∃ b, resolves sl0 b y ∧ name_edge sl0 a b.
Proof.
  intros (t' & [Hin <-]%derefTasks_spec & Hy) Ha.
  destruct (resolved_elem t' Hin) as (t & Ht & Hr).
  apply list_elem_of_lookup in Hy as [i Hi].
  destruct (Forall2_lookup_r _ _ _ _ _ (resolved_as_deps _ _ Hr) Hi) as (b & Hb & Hbr).
  exists b. split; [done|]. exists t. split; [done|]. split; [|by eapply list_elem_of_lookup_2].
  eapply resolves_inj; [|exact Ha]. exists t. by rewrite (resolved_as_ID _ _ Hr).
Qed.

Lemma name_edge_depends x a b :
  name_edge sl0 a b → resolves sl0 a x → ∃ y, resolves sl0 b y ∧ depends (derefTasks sl mI) x y.
Proof.
  intros (t & Ht & Hn & Hb) Ha.
  destruct (elem_resolved t Ht) as (t' & Ht' & Hr).
  apply list_elem_of_lookup in Hb as [i Hi].
  destruct (Forall2_lookup_l _ _ _ _ _ (resolved_as_deps _ _ Hr) Hi) as (y & Hy & Hyr).
  exists y. split; [done|]. exists t'. split; [|by eapply list_elem_of_lookup_2].
  apply derefTasks_spec. split; [done|]. rewrite (resolved_as_ID _ _ Hr).
  eapply resolves_fun; [|exact Ha]. by exists t.
Qed.

Lemma derefTasks_cycle :
  (∃ x, tc (depends (derefTasks sl mI)) x x) ↔ ∃ a, tc (name_edge sl0) a a.
Proof.
  split.
  - intros [x Hc].
    assert (∃ a, resolves sl0 a x) as [a Ha].
    { assert (∃ t', t' ∈ sl ∧ task_ID t' = x) as (t' & Ht' & <-).
      { inv Hc as [? ? (t & Ht & _)|? ? ? (t & Ht & _)]; exists t; by apply derefTasks_spec. }
      destruct (resolved_elem t' Ht') as (t & Ht & Hr). exists (task_Name t), t.
      by rewrite (resolved_as_ID _ _ Hr). }
    destruct (tc_simulation (name_edge sl0) (depends (derefTasks sl mI)) (resolves sl0)
      (λ a x y, depends_name_edge a x y) x x a Hc Ha) as (b & Hb & Htc).
    exists a. by rewrite (resolves_inj _ _ _ Hb Ha) in Htc.
  - intros [a Hc].
    assert (∃ x, resolves sl0 a x) as [x Hx].
    { inv Hc as [? ? (t & ? & ? & _)|? ? ? (t & ? & ? & _)]; exists (task_ID t); by exists t. }
    destruct (tc_simulation (depends (derefTasks sl mI)) (name_edge sl0) (λ x a, resolves sl0 a x)
      name_edge_depends a a x Hc Hx) as (y & Hy & Htc).
    exists x. by rewrite (resolves_fun _ _ _ Hy Hx) in Htc.
Qed.
End deref.

(** ** The final loop and the whole constructor *)

Section result.
Context `{World}.

Lemma finishTask_ID wfID n t : task_ID (finishTask wfID n t) = task_ID t.
Proof. unfold finishTask. destruct t; simpl. by repeat case_decide. Qed.
Lemma finishTask_deps wfID n t : DependsOn (finishTask wfID n t) = DependsOn t.
Proof. unfold finishTask. destruct t; simpl. by repeat case_decide. Qed.
Lemma finishTask_name wfID n t : task_Name (finishTask wfID n t) = task_Name t.
Proof. unfold finishTask. destruct t; simpl. by repeat case_decide. Qed.
Lemma finishTask_status wfID n t : task_status (finishTask wfID n t) = task_status t.
Proof. unfold finishTask. destruct t; simpl. by repeat case_decide. Qed.
Lemma finishTask_owner wfID n t : task_WorkflowID (finishTask wfID n t) = wfID.
Proof. unfold finishTask. destruct t; simpl. by repeat case_decide. Qed.
Lemma finishTask_defaults wfID n t :
  Timeout (finishTask wfID n t) = (if decide (Timeout t = 0%Z) then defaultTimeout else Timeout t) ∧
  RetryBackoff (finishTask wfID n t) =
    (if decide (RetryBackoff t = 0%Z) then defaultRetryBackoff else RetryBackoff t).
Proof. unfold finishTask. destruct t; simpl. by repeat case_decide. Qed.

Lemma finishTasks_lookup wfID order ts n k :
  NoDup order →
  (k ∈ order → ∃ n', (finishTasks wfID order ts n).1 !! k = finishTask wfID n' <$> ts !! k) ∧
  (k ∉ order → (finishTasks wfID order ts n).1 !! k = ts !! k).
Proof.
  intros Hnd. unfold finishTasks. revert ts n.
  induction Hnd as [|x order Hx Hnd IH]; intros ts n; simpl.
  { split; [by intros ?%elem_of_nil|done]. }
  destruct (IH (alter (finishTask wfID n) x ts) (S (S n))) as [IHin IHout]. split.
  - intros [->|Hin]%elem_of_cons.
    + exists n. by rewrite IHout, lookup_alter_eq by done.
    + destruct (IHin Hin) as [n' ->]. exists n'. rewrite lookup_alter_ne; [done|]. by intros ->.
  - intros [Hne Hout]%not_elem_of_cons. by rewrite IHout, lookup_alter_ne by done.
Qed.

Lemma finishTasks_spec wfID m ts n k :
  ∃ n', (finishTasks wfID (range_keys m ts) ts n).1 !! k = finishTask wfID n' <$> ts !! k.
Proof.
  destruct (finishTasks_lookup wfID (range_keys m ts) ts n k (NoDup_range_keys _ _)) as [Hin Hout].
  destruct (ts !! k) as [t|] eqn:Hk.
  - apply Hin. rewrite elem_of_range_keys. eauto.
  - exists 0. rewrite Hout; [done|]. rewrite elem_of_range_keys, Hk. by intros [? ?].
Qed.

Lemma finishTasks_graph wfID m ts n : same_graph ts (finishTasks wfID (range_keys m ts) ts n).1.
Proof.
  intros k. destruct (finishTasks_spec wfID m ts n k) as [n' ->].
  destruct (ts !! k) as [t|]; simpl; [|done]. by rewrite finishTask_ID, finishTask_deps.
Qed.

(** A stored task [t'] comes from the request's task [t]. *)
Definition built_from (sl0 : list Task) (wfID : string) (t t' : Task) : Prop :=
  task_ID t' = task_ID t ∧ task_Name t' = task_Name t ∧ task_status t' = task_status t ∧
  task_WorkflowID t' = wfID ∧
  Forall2 (resolves sl0) (DependsOn t) (DependsOn t') ∧
  Timeout t' = (if decide (Timeout t = 0%Z) then defaultTimeout else Timeout t) ∧
  RetryBackoff t' = (if decide (RetryBackoff t = 0%Z) then defaultRetryBackoff else RetryBackoff t).

(** The resolution stage on an indexed slice. *)
Lemma resolve_stage sl0 mN n :
  indexes task_Name sl0 mN →
  match resolveDependencies (range_keys n mN) sl0 mN with
  | Ret sl => task_ID <$> sl = task_ID <$> sl0 ∧ Forall2 (resolved_as sl0) sl0 sl
  | Err (InvalidDependency _) => ∃ t d, t ∈ sl0 ∧ d ∈ DependsOn t ∧ d ∉ task_Name <$> sl0
  | _ => False
  end.
Proof.
  intros Hm. pose proof (resolveDependencies_spec sl0 mN (range_keys n mN) sl0 Hm
    (NoDup_range_keys _ _) eq_refl (λ i t Hi _, Hi)) as Hr.
  destruct (resolveDependencies _ _ _) as [sl|e|]; [|done|done].
  destruct Hr as [Hids Hall]. split; [done|]. apply Forall2_same_length_lookup. split.
  - by rewrite <-(length_fmap task_ID sl0), <-Hids, length_fmap.
  - intros i t t' Ht Ht'. specialize (Hall i t Ht). rewrite decide_True in Hall.
    + destruct Hall as (t'' & ? & ?). by simplify_eq.
    + rewrite elem_of_range_keys. exists i. apply Hm. eauto.
Qed.

Lemma all_resolved_ok sl0 sl :
  Forall2 (resolved_as sl0) sl0 sl → ∀ t d, t ∈ sl0 → d ∈ DependsOn t → d ∈ task_Name <$> sl0.
Proof.
  intros Hres t d [i Hi]%list_elem_of_lookup [j Hj]%list_elem_of_lookup.
  destruct (Forall2_lookup_l _ _ _ _ _ Hres Hi) as (t' & _ & ds & Hds & _).
  destruct (Forall2_lookup_l _ _ _ _ _ Hds Hj) as (id & _ & u & Hu & <- & _).
  apply list_elem_of_fmap. eauto.
Qed.

Definition new_workflow_spec (sl0 : list Task) (r : outcome workflow_error (Workflow * nat)) : Prop :=
  match r with
  | Ret (wf, _) => request_ok sl0 ∧ wf_wellformed wf ∧ wf_status wf = WorkflowPending ∧
      (∀ t, t ∈ sl0 → ∃ t', Tasks wf !! task_ID t = Some t' ∧ built_from sl0 (wf_ID wf) t t') ∧
      (∀ k t', Tasks wf !! k = Some t' → ∃ t, t ∈ sl0 ∧ built_from sl0 (wf_ID wf) t t')
  | Err (DuplicateTaskName _) => ¬ NoDup (task_Name <$> sl0)
  | Err (DuplicateTaskID _) => ¬ NoDup (task_ID <$> sl0)
  | Err (InvalidDependency _) => ∃ t d, t ∈ sl0 ∧ d ∈ DependsOn t ∧ d ∉ task_Name <$> sl0
  | Err (TasksCycleFailed _) => ∃ x, tc (name_edge sl0) x x
  | Panic => False
  end.

Lemma built_lookup sl0 sl mI wfID m n k t' :
  indexes task_ID sl0 mI → task_ID <$> sl = task_ID <$> sl0 → Forall2 (resolved_as sl0) sl0 sl →
  let ts := derefTasks sl mI in
  (finishTasks wfID (range_keys m ts) ts n).1 !! k = Some t' →
  ∃ t, t ∈ sl0 ∧ task_ID t = k ∧ built_from sl0 wfID t t'.
Proof.
  intros HI Hids Hres ts Hlook. destruct (finishTasks_spec wfID m ts n k) as [n' Hf].
  rewrite Hf in Hlook. apply fmap_Some in Hlook as (u & Hu & ->).
  apply (derefTasks_spec sl0 sl mI HI Hids) in Hu as [Hu Hk].
  destruct (resolved_elem sl0 sl Hres u Hu) as (t & Ht & Hr). exists t. split; [done|].
  pose proof (resolved_as_ID _ _ _ Hr) as Hid. pose proof (resolved_as_deps _ _ _ Hr) as Hdeps.
  destruct Hr as (ds & _ & ->).
  destruct (finishTask_defaults wfID n' (set_DependsOn ds t)) as [Hto Hrb].
  split; [congruence|]. red.
  rewrite finishTask_ID, finishTask_name, finishTask_status, finishTask_owner, finishTask_deps, Hto, Hrb.
  by destruct t.
Qed.

Lemma lookup_built sl0 sl mI wfID m n t :
  indexes task_ID sl0 mI → task_ID <$> sl = task_ID <$> sl0 → Forall2 (resolved_as sl0) sl0 sl →
  t ∈ sl0 →
  let ts := derefTasks sl mI in
  ∃ t', (finishTasks wfID (range_keys m ts) ts n).1 !! task_ID t = Some t' ∧ built_from sl0 wfID t t'.
Proof.
  intros HI Hids Hres Ht ts.
  destruct (elem_resolved sl0 sl Hres t Ht) as (u & Hu & Hr).
  assert (ts !! task_ID t = Some u) as Hlook.
  { apply (derefTasks_spec sl0 sl mI HI Hids). split; [done|]. by apply (resolved_as_ID sl0). }
  destruct (finishTasks_spec wfID m ts n (task_ID t)) as [n' Hf]. rewrite Hlook in Hf. simpl in Hf.
  exists (finishTask wfID n' u). split; [done|].
  destruct (built_lookup sl0 sl mI wfID m n (task_ID t) _ HI Hids Hres Hf) as (t2 & Ht2 & Hid & Hb).
  assert (t2 = t) as ->; [|done].
  pose proof (indexes_NoDup _ _ _ HI) as Hnd.
  apply list_elem_of_lookup in Ht as [i Hi], Ht2 as [j Hj].
  assert (i = j) as ->; [|by simplify_eq].
  eapply (NoDup_lookup _ _ _ (task_ID t) Hnd); rewrite list_lookup_fmap, ?Hi, ?Hj; simpl; congruence.
Qed.

(** Every outcome of the constructor, for the tasks after ID generation. *)
Lemma NewWorkflow_correct tenantID name tasks n :
  new_workflow_spec (assignIDs tasks n).1 (NewWorkflow tenantID name tasks n).
Proof.
  unfold NewWorkflow. pose proof (indexTasks_spec tasks [] ∅ ∅ n (indexes_nil _) (indexes_nil _)) as Hi.
  simpl in Hi. destruct (indexTasks _ _) as [st|[]|]; try done.
  destruct Hi as (Hsl & _ & HN & HI). cbn [mbind outcome_bind]. rewrite Hsl. clear Hsl.
  set (sl0 := (assignIDs tasks n).1) in *.
  pose proof (resolve_stage sl0 (byName st) (ticks st) HN) as Hr.
  destruct (resolveDependencies _ _ _) as [sl|[]|]; try done. destruct Hr as [Hids Hres].
  cbn [mbind outcome_bind]. set (ts := derefTasks sl (byID st)).
  pose proof (indexes_NoDup _ _ _ HN) as HndN. pose proof (indexes_NoDup _ _ _ HI) as HndI.
  assert (closed ts) as Hclosed by (by eapply derefTasks_closed).
  pose proof (derefTasks_cycle sl0 sl _ HI Hids Hres HndN) as Hcyc. fold ts in Hcyc.
  unfold validateTasksCycle.
  pose proof (validateLoop_spec ts (range_keys (S (ticks st)) ts) Hclosed
    (λ k, proj1 (elem_of_range_keys _ _ _))) as Hv.
  destruct (validateLoop ts _) as [[]|[id]|]; [|by apply Hcyc|done].
  assert (∀ k, Acc (flip (depends ts)) k) as Hacc.
  { intros k. destruct (decide (is_Some (ts !! k))) as [Hk|Hk].
    - apply Hv. by rewrite elem_of_range_keys.
    - constructor. intros y (t & Ht & _). destruct Hk. eauto. }
  set (wfID := uuid _).
  destruct (finishTasks _ _ _ _) as [ts' n'] eqn:Hfin.
  assert (ts' = (finishTasks wfID (range_keys (S (S (ticks st)) + 3) ts) ts (S (S (ticks st)) + 4)).1)
    as -> by (by rewrite Hfin).
  simpl. split; [split|split; [split|split; [done|split]]]; simpl.
  - done.
  - done.
  - by eapply all_resolved_ok.
  - intros a Ha. assert (∃ x, tc (depends ts) x x) as [x Hx] by (apply Hcyc; eauto).
    by eapply Acc_tc_irrefl.
  - eapply same_graph_closed; [apply finishTasks_graph|done].
  - intros k. eapply same_graph_acc; [apply finishTasks_graph|done].
  - intros k t' Ht'. 
    by destruct (built_lookup _ _ _ _ _ _ _ _ HI Hids Hres Ht') as (? & _ & _ & _ & _ & _ & ? & _).
  - intros t Ht. by eapply lookup_built.
  - intros k t' Ht'. destruct (built_lookup _ _ _ _ _ _ _ _ HI Hids Hres Ht') as (? & ? & ? & ?); eauto.
Qed.
End result.

Lemma assignIDs_ticks `{World} tasks n : n ≤ (assignIDs tasks n).2.
Proof.
  revert n. induction tasks as [|t tasks IH]; intros n; [done|]. rewrite assignIDs_cons_2.
  etrans; [|apply IH]. unfold ensureID. case_decide; simpl; lia.
Qed.

(** The name is the given one, the identifier a generated one. *)
Lemma NewWorkflow_ID `{World} tenantID name tasks n wf n' :
  NewWorkflow tenantID name tasks n = Ret (wf, n') → wf_Name wf = name ∧ ∃ m, n ≤ m ∧ wf_ID wf = uuid m.
Proof.
  unfold NewWorkflow. pose proof (indexTasks_spec tasks [] ∅ ∅ n (indexes_nil _) (indexes_nil _)) as Hi.
  simpl in Hi. destruct (indexTasks _ _) as [st|[]|]; try done.
  destruct Hi as (_ & Htk & _). cbn [mbind outcome_bind].
  destruct (resolveDependencies _ _ _) as [sl|[]|]; try done. cbn [mbind outcome_bind].
  destruct (validateTasksCycle _ _) as [[]|[]|]; try done.
  destruct (finishTasks _ _ _ _) as [ts' n2]. intros [= <- _]. split; [done|]. simpl.
  exists (S (S (ticks st))). split; [|done]. rewrite Htk. pose proof (assignIDs_ticks tasks n). lia.
Qed.

(** ** Properties of the constructor *)

Lemma NewWorkflow_accepts `{World} tenantID name (tasks : list Task) n :
  (∃ wf n', NewWorkflow tenantID name tasks n = Ret (wf, n')) ↔ request_ok (assignIDs tasks n).1.
Proof.
  pose proof (NewWorkflow_correct tenantID name tasks n) as Hc.
  destruct (NewWorkflow tenantID name tasks n) as [[wf n']|e|]; simpl in Hc; [| |done].
  - split; [by intros _; destruct Hc|eauto].
  - split; [by intros (? & ? & ?)|]. intros [HN HI Hd Hac]. exfalso.
    destruct e; [by apply Hc|by apply Hc| |].
    + destruct Hc as (t & d & Ht & Hin & Hno). by apply Hno, (Hd t).
    + destruct Hc as [x Hx]. by apply (Hac x).
Qed.

(** C32. A submitted task list is accepted exactly when it is valid: names and
    identifiers are distinct, every dependency names a task of the list, and
    the dependency graph over names has no cycle; and the constructor never
    panics.  The identifiers are those after generation for tasks without one. *)
Theorem NewWorkflow_accepts_iff_valid `{World} tenantID name (tasks : list Task) n :
  NewWorkflow tenantID name tasks n ≠ Panic ∧
  ((∃ wf n', NewWorkflow tenantID name tasks n = Ret (wf, n')) ↔ request_ok (assignIDs tasks n).1).
Proof.
  split; [|apply NewWorkflow_accepts]. pose proof (NewWorkflow_correct tenantID name tasks n) as Hc.
  by destruct (NewWorkflow tenantID name tasks n).
Qed.

(** C33. An accepted workflow is well formed: it is PENDING, its tasks are
    keyed by their own IDs and owned by it, dependencies are identifiers of
    its tasks and form an acyclic graph, and it holds exactly the requested
    tasks, each with its name and status kept, its dependency names replaced
    by the IDs of the tasks so named, and the default timeout (30 s) and retry
    backoff (200 ms) where the request left them zero. *)
Theorem NewWorkflow_wellformed `{World} tenantID name (tasks : list Task) n wf n' :
  NewWorkflow tenantID name tasks n = Ret (wf, n') →
  let sl0 := (assignIDs tasks n).1 in
  wf_wellformed wf ∧ wf_status wf = WorkflowPending ∧
  (∀ t, t ∈ sl0 → ∃ t', Tasks wf !! task_ID t = Some t' ∧ built_from sl0 (wf_ID wf) t t') ∧
  (∀ k t', Tasks wf !! k = Some t' → ∃ t, t ∈ sl0 ∧ built_from sl0 (wf_ID wf) t t').
Proof.
  intros Hr. pose proof (NewWorkflow_correct tenantID name tasks n) as Hc.
  rewrite Hr in Hc. by destruct Hc as [_ Hc].
Qed.

Definition demo_tasks : list Task :=
  [plain_task "uuid-2" "build" ["fetch"]; plain_task "" "fetch" []].
Definition demo_world : World := world_of shuffle_rev ["uuid-1"; "u1"; "u2"; "wf-1"; "u4"].

Lemma validateTasksCycle_witness :
  let tasks := derefTasks [plain_task "a" "a" ["b"]; plain_task "b" "b" []] {["a" := 0; "b" := 1]} in
  closed tasks ∧ acyclic tasks.
Proof.
  set (tasks := derefTasks _ _).
  assert (closed tasks) as Hc.
  { intros k t Hk. apply elem_of_map_to_list in Hk.
    assert (map_to_list tasks = [("a", plain_task "a" "a" ["b"]); ("b", plain_task "b" "b" [])]) as Heq
      by (vm_compute; reflexivity).
    rewrite Heq in Hk. apply elem_of_cons in Hk as [[= -> ->]|Hk].
    - split; [done|]. intros d ->%list_elem_of_singleton. by eexists.
    - apply list_elem_of_singleton in Hk as [= -> ->]. split; [done|]. by intros d ?%elem_of_nil. }
  split; [done|]. apply (validateTasksCycle_iff_acyclic (H := demo_world) 0 tasks Hc).
  vm_compute. reflexivity.
Defined.

Lemma NewWorkflow_wellformed_witness :
  match NewWorkflow (H := demo_world) "admin" "wf" demo_tasks 0 with
  | Ret (wf, _) => wf_wellformed wf ∧ size (Tasks wf) = 2
  | _ => False
  end.
Proof.
  destruct (NewWorkflow (H := demo_world) "admin" "wf" demo_tasks 0) as [[wf n']|e|] eqn:E;
    [|vm_compute in E; discriminate E..].
  split; [by apply (NewWorkflow_wellformed (H := demo_world) "admin" "wf" demo_tasks 0 wf n' E)|].
  vm_compute in E. injection E as <- _. reflexivity.
Defined.
