(* ===== verification/EventBus.v ===== *)
(** * The event bus

    [pkg/event_bus]: a bounded channel of published events, one dispatcher
    goroutine that fans events out to the subscribers' own bounded queues,
    and one goroutine per subscriber that calls its handler.  All sends are
    non-blocking: an event is dropped where the receiver's buffer is full.

    A [*Subscriber] is shared between the subscriber list and its goroutine,
    so subscribers live in a heap and a pointer is an index.  The methods run
    under [b.mu] and are atomic; the goroutines are the other steps of
    [bus_next].  [calls] is the sequence of events a handler was called with. *)

From stdpp Require Import base gmap gmultiset strings list relations.
From Stdlib Require Import ZArith Lia.
From S2P Require Import Prelude.

(** The capacity of a subscriber's queue ([NewSubscriber]). *)
Definition subscriber_cap : nat := 128.

Section bus.
Context {E H : Type}.   (* events and handlers *)

Record Subscriber := {
  sub_id : string;
  handler : H;
  sub_queue : list E;
  sub_closed : bool;     (* [sub.close] has been closed *)
  calls : list E;
}.

Record Bus := {
  subs : gmap nat Subscriber;    (* the heap of subscribers *)
  next_sub : nat;
  subscribers : list nat;
  ch : list E;                   (* buffered events, oldest first *)
  bus_cap : nat;
  inflight : option E;           (* received by the dispatcher, not yet fanned out *)
  dispatching : bool;            (* the dispatcher goroutine is running *)
  running : gset nat;            (* running subscriber goroutines ([b.wg]) *)
  stopped : bool;
  done_closed : bool;            (* [b.done] has been closed *)
}.

Definition set_subs v (b : Bus) : Bus :=
  let 'Build_Bus _ n l c k i d r s q := b in Build_Bus v n l c k i d r s q.
Definition set_subscribers v (b : Bus) : Bus :=
  let 'Build_Bus h n _ c k i d r s q := b in Build_Bus h n v c k i d r s q.
Definition set_ch v (b : Bus) : Bus :=
  let 'Build_Bus h n l _ k i d r s q := b in Build_Bus h n l v k i d r s q.
Definition set_inflight v (b : Bus) : Bus :=
  let 'Build_Bus h n l c k _ d r s q := b in Build_Bus h n l c k v d r s q.

Definition set_sub_queue v (s : Subscriber) : Subscriber :=
  let 'Build_Subscriber i h _ c l := s in Build_Subscriber i h v c l.
Definition close_sub (s : Subscriber) : Subscriber :=
  let 'Build_Subscriber i h q _ l := s in Build_Subscriber i h q true l.
Definition call_handler e (s : Subscriber) : Subscriber :=
  let 'Build_Subscriber i h q c l := s in Build_Subscriber i h q c (l ++ [e]).

Definition NewSubscriber (id : string) (h : H) : Subscriber :=
  {| sub_id := id; handler := h; sub_queue := []; sub_closed := false; calls := [] |}.

(** [make(chan Event, capacity)] panics on a negative capacity. *)
Definition NewBus (capacity : Z) : outcome () Bus :=
  let capacity := if decide (capacity = 0%Z) then 128%Z else capacity in
  if decide (capacity < 0)%Z then Panic
  else Ret {| subs := ∅; next_sub := 0; subscribers := []; ch := [];
              bus_cap := Z.to_nat capacity; inflight := None; dispatching := true;
              running := ∅; stopped := false; done_closed := false |}.

(** A non-blocking send on a channel of capacity [cap] with buffer [q]. *)
Definition try_send (cap : nat) (e : E) (q : list E) : list E :=
  if decide (length q < cap) then q ++ [e] else q.

(** The loop shared by [Subscribe] and [Unsubscribe]: close and remove the
    first subscriber with this id. *)
Fixpoint find_id (heap : gmap nat Subscriber) (id : string) (l : list nat) : option (nat * nat) :=
  match l with
  | [] => None
  | p :: l =>
      match heap !! p with
      | Some s => if decide (sub_id s = id) then Some (0, p)
                  else (λ ip, (S ip.1, ip.2)) <$> find_id heap id l
      | None => (λ ip, (S ip.1, ip.2)) <$> find_id heap id l
      end
  end.

Definition remove_id (id : string) (b : Bus) : Bus :=
  match find_id (subs b) id (subscribers b) with
  | Some (i, p) =>
      set_subscribers (take i (subscribers b) ++ drop (S i) (subscribers b))
        (set_subs (alter close_sub p (subs b)) b)
  | None => b
  end.

Definition add_sub (s : Subscriber) (b : Bus) : Bus :=
  let 'Build_Bus h n l c k i d r st q := b in
  Build_Bus (<[n := s]> h) (S n) (l ++ [n]) c k i d ({[n]} ∪ r) st q.

(** [true] is the error "bus is stopped". *)
Definition Subscribe (id : string) (h : H) (b : Bus) : bool * Bus :=
  if stopped b then (true, b)
  else (false, add_sub (NewSubscriber id h) (remove_id id b)).

Definition Unsubscribe (id : string) (b : Bus) : Bus := remove_id id b.

Definition Publish (e : E) (b : Bus) : Bus :=
  if stopped b then b else set_ch (try_send (bus_cap b) e (ch b)) b.

(** [Shutdown] up to [b.wg.Wait()], which returns when [running] is empty. *)
Definition Shutdown (b : Bus) : Bus :=
  if stopped b then b
  else let 'Build_Bus h n l c k i d r _ _ := b in Build_Bus h n l c k i d r true true.

(** The dispatcher receives an event, then fans it out under [b.mu]. *)
Definition dispatch_take (b : Bus) : option Bus :=
  match dispatching b, inflight b, ch b with
  | true, None, e :: q => Some (set_inflight (Some e) (set_ch q b))
  | _, _, _ => None
  end.

Definition enqueue (e : E) (s : Subscriber) : Subscriber :=
  set_sub_queue (try_send subscriber_cap e (sub_queue s)) s.

Definition fan_out (e : E) (l : list nat) (heap : gmap nat Subscriber) : gmap nat Subscriber :=
  foldl (λ heap p, alter (enqueue e) p heap) heap l.

Definition dispatch_fan (b : Bus) : option Bus :=
  match dispatching b, inflight b with
  | true, Some e => Some (set_inflight None (set_subs (fan_out e (subscribers b) (subs b)) b))
  | _, _ => None
  end.

Definition dispatch_exit (b : Bus) : option Bus :=
  match dispatching b, inflight b, done_closed b with
  | true, None, true =>
      let 'Build_Bus h n l c k i _ r s q := b in Some (Build_Bus h n l c k i false r s q)
  | _, _, _ => None
  end.

(** One iteration of [startSubscriber]: the handler call, or the exit. *)
Definition subscriber_handle (p : nat) (b : Bus) : option Bus :=
  match subs b !! p with
  | Some s =>
      match sub_queue s with
      | e :: q =>
          if decide (p ∈ running b)
          then Some (set_subs (<[p := call_handler e (set_sub_queue q s)]> (subs b)) b)
          else None
      | [] => None
      end
  | None => None
  end.

Definition subscriber_exit (p : nat) (b : Bus) : option Bus :=
  match subs b !! p with
  | Some s =>
      if decide (p ∈ running b ∧ (sub_closed s = true ∨ done_closed b = true)) then
        let 'Build_Bus h n l c k i d r st q := b in Some (Build_Bus h n l c k i d (r ∖ {[p]}) st q)
      else None
  | None => None
  end.

Inductive bus_label :=
  | LPublish (e : E) | LSubscribe (id : string) (h : H) | LUnsubscribe (id : string) | LShutdown
  | LTake | LFan | LDispatchExit | LHandle (p : nat) | LExit (p : nat).

(** The effect of a label; [None] where the step is not enabled. *)
Definition bus_next (l : bus_label) (b : Bus) : option Bus :=
  match l with
  | LPublish e => Some (Publish e b)
  | LSubscribe id h => Some (Subscribe id h b).2
  | LUnsubscribe id => Some (Unsubscribe id b)
  | LShutdown => Some (Shutdown b)
  | LTake => dispatch_take b
  | LFan => dispatch_fan b
  | LDispatchExit => dispatch_exit b
  | LHandle p => subscriber_handle p b
  | LExit p => subscriber_exit p b
  end.

(** Executions: the labels from oldest to newest. *)
Inductive bus_run (b0 : Bus) : list bus_label → Bus → Prop :=
  | bus_run_nil : bus_run b0 [] b0
  | bus_run_snoc tr b l b' : bus_run b0 tr b → bus_next l b = Some b' → bus_run b0 (tr ++ [l]) b'.

(** The events passed to [Publish] in an execution, in order. *)
Definition published (tr : list bus_label) : list E :=
  omap (λ l, match l with LPublish e => Some e | _ => None end) tr.
End bus.

Arguments Subscriber E H : clear implicits.
Arguments Bus E H : clear implicits.
Arguments bus_label E H : clear implicits.

(** ** Invariants of the bus *)

Section bus_props.
Context {E H : Type}.
Implicit Types (b : Bus E H) (s : Subscriber E H) (p q : nat).

(** The subscriber list is the set of open subscribers, one per id. *)
Record registered_ok b : Prop := {
  reg_open p : p ∈ subscribers b → ∃ s, subs b !! p = Some s ∧ sub_closed s = false;
  reg_closed p s : subs b !! p = Some s → p ∉ subscribers b → sub_closed s = true;
  reg_next p s : subs b !! p = Some s → p < next_sub b;
  reg_nodup : NoDup (subscribers b);
  reg_ids p q s s' : p ∈ subscribers b → q ∈ subscribers b →
    subs b !! p = Some s → subs b !! q = Some s' → sub_id s = sub_id s' → p = q;
  reg_running p s : subs b !! p = Some s → sub_closed s = false → done_closed b = false →
    p ∈ running b;
}.

Record bounded b : Prop := {
  bnd_ch : length (ch b) ≤ bus_cap b;
  bnd_queue p s : subs b !! p = Some s → length (sub_queue s) ≤ subscriber_cap;
}.

(** Everything a subscriber has received or has pending was dispatched, in
    the order of publication. *)
Definition ordered (pub : list E) b : Prop :=
  ∃ dispatched, dispatched ++ option_list (inflight b) ++ ch b `sublist_of` pub ∧
    ∀ p s, subs b !! p = Some s → calls s ++ sub_queue s `sublist_of` dispatched.

Lemma try_send_length cap (e : E) (q : list E) : length q ≤ cap → length (try_send cap e q) ≤ cap.
Proof. unfold try_send. case_decide; [rewrite length_app; simpl; lia|done]. Qed.

Lemma try_send_sublist cap (e : E) (q pre l : list E) :
  pre ++ q `sublist_of` l → pre ++ try_send cap e q `sublist_of` l ++ [e].
Proof.
  intros Hs. unfold try_send. case_decide.
  - rewrite app_assoc. by apply sublist_app.
  - by apply sublist_inserts_r.
Qed.

(** *** The registration list *)

Lemma find_id_Some heap id l i p :
  find_id heap id l = Some (i, p) → l !! i = Some p ∧ ∃ s, heap !! p = Some s ∧ @sub_id E H s = id.
Proof.
  revert i. induction l as [|x l IH]; intros i; simpl; [done|].
  destruct (heap !! x) as [s|] eqn:Hx; [case_decide|].
  - intros [= <- <-]. eauto.
  - intros ([j r] & Hj & Heq)%fmap_Some. simplify_eq/=. by apply IH.
  - intros ([j r] & Hj & Heq)%fmap_Some. simplify_eq/=. by apply IH.
Qed.

Lemma find_id_None heap id l p s :
  find_id heap id l = None → p ∈ l → heap !! p = Some s → @sub_id E H s ≠ id.
Proof.
  induction l as [|x l IH]; simpl; [by intros _ ?%elem_of_nil|].
  intros Hf [->|Hp]%elem_of_cons Hs; revert Hf.
  - rewrite Hs. case_decide; [done|]. done.
  - destruct (heap !! x) as [sx|]; [case_decide; [done|]|]; rewrite fmap_None; intros; by apply IH.
Qed.

(** What [Unsubscribe] does to the list and to the subscribers. *)
Lemma remove_id_spec id b :
  registered_ok b →
  let b' := remove_id id b in
  NoDup (subscribers b') ∧
  (∀ q, q ∈ subscribers b' ↔ q ∈ subscribers b ∧ ∀ s, subs b !! q = Some s → sub_id s ≠ id) ∧
  (∀ q, subs b' !! q = if decide (q ∈ subscribers b ∧ q ∉ subscribers b')
                       then close_sub <$> subs b !! q else subs b !! q) ∧
  next_sub b' = next_sub b ∧ running b' = running b ∧ done_closed b' = done_closed b ∧
  ch b' = ch b ∧ bus_cap b' = bus_cap b ∧ inflight b' = inflight b.
Proof.
  intros Hok. unfold remove_id. destruct (find_id _ _ _) as [[i p]|] eqn:Hf.
  - apply find_id_Some in Hf as (Hi & s & Hs & Hid).
    pose proof (reg_nodup _ Hok) as Hnd. pose proof (reg_ids _ Hok) as Hids.
    destruct b as [h n l c k fl d r st dn]; simpl in *. rewrite <-delete_take_drop.
    pose proof (delete_Permutation l i p Hi) as Hperm.
    pose proof Hnd as Hnd'. rewrite Hperm in Hnd'. apply NoDup_cons in Hnd' as [Hp Hnd'].
    split; [done|]. assert (∀ q, q ∈ delete i l ↔ q ∈ l ∧ q ≠ p) as Hdel.
    { intros q. assert (q ∈ l ↔ q = p ∨ q ∈ delete i l) as -> by (by rewrite <-elem_of_cons, <-Hperm).
      naive_solver. }
    split; [|split; [|done]]; intros q.
    + rewrite Hdel. split; intros [Hq Hne]; (split; [done|]).
      * intros sq Hsq ?. destruct Hne. eapply (Hids q p); eauto using list_elem_of_lookup_2. congruence.
      * intros ->. by apply (Hne s).
    + rewrite lookup_alter. destruct (decide (p = q)) as [->|Hne]; case_decide as Hq;
        rewrite Hdel in Hq; [done| |naive_solver|done].
      destruct Hq. split; [by eapply list_elem_of_lookup_2|naive_solver].
  - split; [by apply Hok|]. split; [|split; [|done]]; intros q.
    + split; [|naive_solver]. intros Hq. split; [done|]. intros s Hs. by eapply find_id_None.
    + rewrite decide_False; [done|]. naive_solver.
Qed.

Lemma close_sub_fields s :
  sub_closed (close_sub s) = true ∧ sub_id (close_sub s) = sub_id s ∧
  sub_queue (close_sub s) = sub_queue s ∧ calls (close_sub s) = calls s.
Proof. by destruct s. Qed.

Lemma remove_id_registered id b : registered_ok b → registered_ok (remove_id id b).
Proof.
  intros Hok. destruct (remove_id_spec id b Hok) as (Hnd & Hin & Hsubs & Hn & Hr & Hd & _).
  pose proof Hok as [Ho Hc Hnx _ Hids Hrun].
  split; [| | |done| |].
  - intros p Hp. pose proof Hp as [Hp' _]%Hin. destruct (Ho p Hp') as (s & Hs & ?).
    exists s. rewrite Hsubs, decide_False by naive_solver. done.
  - intros p s. rewrite Hsubs. case_decide as Hp.
    + intros (s' & ? & ->)%fmap_Some _. apply close_sub_fields.
    + intros Hs Hnp. apply (Hc p); [done|]. naive_solver.
  - intros p s. rewrite Hsubs, Hn. case_decide; [intros (s' & ? & _)%fmap_Some|]; eauto.
  - intros p q s s' Hp Hq. rewrite !Hsubs, !decide_False by naive_solver.
    apply Hids; [by apply Hin in Hp as []|by apply Hin in Hq as []].
  - intros p s. rewrite Hsubs, Hr, Hd. case_decide.
    + intros (s' & ? & ->)%fmap_Some. by rewrite (proj1 (close_sub_fields s')).
    + apply Hrun.
Qed.

Lemma remove_id_fresh id b p s :
  registered_ok b → p ∈ subscribers (remove_id id b) → subs (remove_id id b) !! p = Some s →
  sub_id s ≠ id.
Proof.
  intros Hok Hp. destruct (remove_id_spec id b Hok) as (_ & Hin & Hsubs & _).
  rewrite Hsubs, decide_False by naive_solver. apply Hin in Hp as [_ Hp]. apply Hp.
Qed.

Lemma add_sub_registered s b :
  registered_ok b → sub_closed s = false →
  (∀ p s', p ∈ subscribers b → subs b !! p = Some s' → sub_id s' ≠ sub_id s) →
  registered_ok (add_sub s b).
Proof.
  intros [Ho Hc Hnx Hnd Hids Hrun] Hopen Hfresh.
  destruct b as [h n l c k fl d r st dn]; simpl in *.
  assert (h !! n = None) as Hnone.
  { destruct (h !! n) as [s'|] eqn:Hn; [|done]. apply Hnx in Hn. lia. }
  assert (∀ p, p ∈ l → n ≠ p) as Hne by (intros p Hp ->; apply Ho in Hp as (? & ? & _); congruence).
  split; simpl.
  - intros p [Hp|Hp%list_elem_of_singleton]%elem_of_app;
      [|exists s; subst; by rewrite lookup_insert_eq].
    rewrite lookup_insert_ne by auto. auto.
  - intros p s'. rewrite lookup_insert. case_decide as Hx.
    + intros _ Hnp. destruct Hnp. subst. set_solver.
    + intros Hs Hnp. eapply Hc; [done|]. set_solver.
  - intros p s'. rewrite lookup_insert. case_decide; [lia|]. intros ?%Hnx. lia.
  - apply NoDup_app. split; [done|]. split; [|apply NoDup_singleton].
    intros p Hp Heq%list_elem_of_singleton. by eapply Hne.
  - intros p q s1 s2 [Hp|Hp%list_elem_of_singleton]%elem_of_app
      [Hq|Hq%list_elem_of_singleton]%elem_of_app;
      subst; rewrite ?lookup_insert_eq, ?lookup_insert_ne by eauto; intros Hs1 Hs2 Heq; simplify_eq.
    + by eapply Hids.
    + by edestruct (Hfresh p s1).
    + by edestruct (Hfresh q s2).
    + done.
  - intros p s'. rewrite lookup_insert. case_decide; [set_solver|].
    intros Hs Hcl Hdn. apply elem_of_union_r. by eapply Hrun.
Qed.

(** Updates that keep ids and closed flags, and the list of subscribers. *)
Lemma registered_ok_same b b' :
  registered_ok b → subscribers b' = subscribers b → next_sub b' = next_sub b →
  (∀ p, (λ s, (sub_id s, sub_closed s)) <$> subs b' !! p = (λ s, (sub_id s, sub_closed s)) <$> subs b !! p) →
  (∀ p s, subs b !! p = Some s → p ∈ running b → p ∉ running b' →
     sub_closed s = true ∨ done_closed b = true) →
  (done_closed b = true → done_closed b' = true) →
  registered_ok b'.
Proof.
  intros [Ho Hc Hnx Hnd Hids Hrun] Hl Hn Hsame Hrun' Hdone.
  assert (∀ p s', subs b' !! p = Some s' →
    ∃ s, subs b !! p = Some s ∧ sub_id s = sub_id s' ∧ sub_closed s = sub_closed s') as Hback.
  { intros p s' Hs'. specialize (Hsame p). rewrite Hs' in Hsame.
    destruct (subs b !! p) as [s|]; simplify_eq/=. eauto. }
  split; rewrite ?Hl, ?Hn; [| | |done| |].
  - intros p (s & Hs & Hcl)%Ho. specialize (Hsame p). rewrite Hs in Hsame.
    destruct (subs b' !! p) as [s'|]; simplify_eq/=. exists s'. split; [done|congruence].
  - intros p s' (s & Hs & _ & <-)%Hback Hnp. by eapply Hc.
  - intros p s' (s & Hs & _)%Hback. by eapply Hnx.
  - intros p q s1 s2 Hp Hq (s1' & ? & ? & _)%Hback (s2' & ? & ? & _)%Hback ?.
    apply (Hids p q s1' s2'); congruence.
  - intros p s' (s & Hs & _ & Hcl)%Hback Hopen Hdn.
    destruct (decide (p ∈ running b')) as [|Hno]; [done|exfalso].
    assert (done_closed b = false) by (destruct (done_closed b); [by rewrite Hdone in Hdn|done]).
    destruct (Hrun' p s Hs) as [?|?]; [eapply Hrun; [done|congruence|done]|done|congruence|congruence].
Qed.

Lemma fan_out_lookup e l (heap : gmap nat (Subscriber E H)) p :
  NoDup l →
  fan_out e l heap !! p = if decide (p ∈ l) then enqueue e <$> heap !! p else heap !! p.
Proof.
  intros Hnd. unfold fan_out. revert heap. induction Hnd as [|x l Hx Hnd IH]; intros heap; simpl; [done|].
  rewrite IH, lookup_alter. destruct (decide (x = p)) as [->|Hne].
  - rewrite (decide_False (P := p ∈ l)) by done. by rewrite decide_True by left.
  - rewrite (decide_ext (p ∈ x :: l) (p ∈ l)); [done|]. rewrite elem_of_cons. naive_solver.
Qed.

Lemma enqueue_fields e s :
  sub_id (enqueue e s) = sub_id s ∧ sub_closed (enqueue e s) = sub_closed s ∧
  calls (enqueue e s) = calls s ∧ sub_queue (enqueue e s) = try_send subscriber_cap e (sub_queue s).
Proof. by destruct s. Qed.

(** *** Preservation *)

(** Each step of the bus keeps the subscriber list consistent. *)
Lemma bus_next_registered l b b' : registered_ok b → bus_next l b = Some b' → registered_ok b'.
Proof.
  intros Hok. destruct l as [e|id h|id| | | | |p|p]; simpl.
  - intros [= <-]. unfold Publish. destruct (stopped b); [done|].
    eapply registered_ok_same; [exact Hok|by destruct b..].
  - intros [= <-]. unfold Subscribe. destruct (stopped b); [done|]. simpl.
    apply add_sub_registered; [by apply remove_id_registered|done|].
    intros q s Hq Hs. by eapply remove_id_fresh.
  - intros [= <-]. by apply remove_id_registered.
  - intros [= <-]. unfold Shutdown. destruct (stopped b); [done|].
    eapply registered_ok_same; [exact Hok|by destruct b..].
  - unfold dispatch_take. destruct (dispatching b), (inflight b), (ch b); try done. intros [= <-].
    eapply registered_ok_same; [exact Hok|by destruct b..].
  - unfold dispatch_fan. destruct (dispatching b), (inflight b) as [e|]; try done. intros [= <-].
    eapply registered_ok_same; [exact Hok|by destruct b|by destruct b| |by destruct b|by destruct b].
    intros q. assert (subs (set_inflight None (set_subs (fan_out e (subscribers b) (subs b)) b)) =
      fan_out e (subscribers b) (subs b)) as -> by by destruct b.
    rewrite fan_out_lookup by apply Hok. case_decide; [|done].
    destruct (subs b !! q) as [s|]; [|done]. simpl. by destruct s.
  - unfold dispatch_exit. destruct (dispatching b), (inflight b), (done_closed b) eqn:Hd; try done.
    destruct b as [h n l c k fl d r st dn]; simpl in *. intros [= <-].
    eapply registered_ok_same; [exact Hok|done..].
  - unfold subscriber_handle. destruct (subs b !! p) as [s|] eqn:Hs; [|done].
    destruct (sub_queue s) as [|e q]; [done|]. case_decide; [|done]. intros [= <-].
    eapply registered_ok_same; [exact Hok|by destruct b|by destruct b| |by destruct b|by destruct b].
    intros x. destruct b as [h n l c k fl d r st dn]; simpl in *. rewrite lookup_insert.
    case_decide; [|done]. subst. rewrite Hs. by destruct s.
  - unfold subscriber_exit. destruct (subs b !! p) as [s|] eqn:Hs; [|done].
    case_decide as Hrun; [|done]. destruct b as [h n l c k fl d r st dn]; simpl in *. intros [= <-].
    eapply registered_ok_same; [exact Hok|done|done|done| |done]. simpl. intros x sx Hsx Hx Hnx.
    destruct (decide (x = p)) as [->|Hne]; [simplify_eq; by destruct Hrun|].
    destruct Hnx. apply elem_of_difference. by rewrite elem_of_singleton.
Qed.

Lemma registered_ok_new c b : NewBus c = Ret b → registered_ok b.
Proof.
  unfold NewBus. intros Hb. repeat case_decide; try done; injection Hb as <-.
  all: split; simpl; [by intros ? ?%elem_of_nil|by intros ??|by intros ??|constructor
    |by intros ???? ?%elem_of_nil|by intros ??].
Qed.

Lemma bounded_new c b : NewBus c = Ret b → bounded b.
Proof.
  unfold NewBus. intros Hb. repeat case_decide; try done; injection Hb as <-.
  all: split; simpl; [lia|by intros ??].
Qed.

Lemma ordered_new c b : NewBus c = Ret b → ordered [] b.
Proof.
  unfold NewBus. intros Hb. repeat case_decide; try done; injection Hb as <-.
  all: exists []; split; [constructor|by intros ??].
Qed.

(** How the subscribers of [remove_id] and of a fan-out relate to the ones
    before: same calls, and the queue at most extended by the event. *)
Lemma remove_id_queues id b p s' :
  registered_ok b → subs (remove_id id b) !! p = Some s' →
  ∃ s, subs b !! p = Some s ∧ sub_queue s' = sub_queue s ∧ calls s' = calls s.
Proof.
  intros Hok. destruct (remove_id_spec id b Hok) as (_ & _ & -> & _).
  case_decide; [|eauto]. intros (s & Hs & ->)%fmap_Some. exists s.
  by destruct (close_sub_fields s) as (_ & _ & -> & ->).
Qed.

Lemma bus_next_bounded l b b' : registered_ok b → bounded b → bus_next l b = Some b' → bounded b'.
Proof.
  intros Hok [Hch Hq]. destruct l as [e|id h|id| | | | |p|p]; simpl.
  - intros [= <-]. unfold Publish. destruct (stopped b); [done|].
    destruct b; split; simpl in *; [by apply try_send_length|done].
  - intros [= <-]. unfold Subscribe. destruct (stopped b); [done|]. simpl.
    destruct (remove_id_spec id b Hok) as (_ & _ & _ & _ & _ & _ & Hc & Hk & _).
    pose proof (λ p s, remove_id_queues id b p s Hok) as Hrem.
    destruct (remove_id id b) as [h' n l c k fl d r st dn]; simpl in *. subst.
    split; simpl; [done|]. intros q s. rewrite lookup_insert. case_decide.
    + intros [= <-]. simpl. lia.
    + intros (s' & ? & -> & _)%Hrem. eauto.
  - intros [= <-]. destruct (remove_id_spec id b Hok) as (_ & _ & _ & _ & _ & _ & Hc & Hk & _).
    split; unfold Unsubscribe; [by rewrite Hc, Hk|].
    intros q s (s' & ? & -> & _)%remove_id_queues; eauto.
  - intros [= <-]. unfold Shutdown. destruct (stopped b); [done|]. by destruct b.
  - unfold dispatch_take. destruct (dispatching b), (inflight b), (ch b) eqn:Hc; try done.
    intros [= <-]. destruct b; split; simpl in *; [subst; simpl in *; lia|done].
  - unfold dispatch_fan. destruct (dispatching b), (inflight b) as [e|]; try done. intros [= <-].
    pose proof (reg_nodup _ Hok) as Hnd. destruct b; split; simpl in *; [done|].
    intros q s. rewrite fan_out_lookup by done. case_decide; [|apply Hq].
    intros (s' & Hs' & ->)%fmap_Some. destruct (enqueue_fields e s') as (_ & _ & _ & ->).
    apply try_send_length. eauto.
  - unfold dispatch_exit. destruct (dispatching b), (inflight b), (done_closed b); try done.
    by destruct b; intros [= <-].
  - unfold subscriber_handle. destruct (subs b !! p) as [s|] eqn:Hs; [|done].
    pose proof (Hq _ _ Hs) as Hqs. destruct (sub_queue s) as [|e q]; [done|].
    case_decide; [|done]. intros [= <-].
    destruct b; split; simpl in *; [done|]. intros x sx. rewrite lookup_insert. case_decide; [|apply Hq].
    intros [= <-]. destruct s; simpl in *. lia.
  - unfold subscriber_exit. destruct (subs b !! p); [|done]. case_decide; [|done].
    by destruct b; intros [= <-].
Qed.

(** A step extends the publication sequence by its label's event. *)
Lemma bus_next_ordered l b b' pub :
  registered_ok b → ordered pub b → bus_next l b = Some b' → ordered (pub ++ published [l]) b'.
Proof.
  intros Hok (D & HD & Hs). destruct l as [e|id h|id| | | | |p|p]; simpl; rewrite ?app_nil_r.
  - intros [= <-]. unfold Publish. destruct (stopped b).
    { exists D. split; [by apply sublist_inserts_r|done]. }
    exists D. destruct b; simpl in *. split; [|done].
    rewrite app_assoc in *. by apply try_send_sublist.
  - intros [= <-]. unfold Subscribe. destruct (stopped b); [by exists D|]. simpl. exists D.
    destruct (remove_id_spec id b Hok) as (_ & _ & _ & _ & _ & _ & Hc & _ & Hfl).
    pose proof (λ p s, remove_id_queues id b p s Hok) as Hrem.
    destruct (remove_id id b) as [h' n l c k fl d r st dn]; simpl in *. subst. split; [done|].
    intros q s. rewrite lookup_insert. case_decide.
    + intros [= <-]. simpl. apply sublist_nil_l.
    + intros (s' & ? & -> & ->)%Hrem. eauto.
  - intros [= <-]. destruct (remove_id_spec id b Hok) as (_ & _ & _ & _ & _ & _ & Hc & _ & Hfl).
    exists D. unfold Unsubscribe. rewrite Hc, Hfl. split; [done|].
    intros q s (s' & ? & -> & ->)%remove_id_queues; eauto.
  - intros [= <-]. exists D. unfold Shutdown. destruct (stopped b); [done|]. by destruct b.
  - unfold dispatch_take. destruct (dispatching b), (inflight b), (ch b) eqn:Hc; try done.
    intros [= <-]. exists D. by destruct b; simpl in *; subst.
  - unfold dispatch_fan. destruct (dispatching b), (inflight b) as [e|] eqn:Hfl; try done. intros [= <-].
    pose proof (reg_nodup _ Hok) as Hnd. exists (D ++ [e]). destruct b; simpl in *; subst. simpl in *.
    split; [by rewrite <-app_assoc|]. intros q s. rewrite fan_out_lookup by done. case_decide.
    + intros (s' & Hs' & ->)%fmap_Some. destruct (enqueue_fields e s') as (_ & _ & -> & ->).
      apply try_send_sublist. eauto.
    + intros Hq. apply sublist_inserts_r. eauto.
  - unfold dispatch_exit. destruct (dispatching b), (inflight b) eqn:Hfl, (done_closed b); try done.
    intros Hb. exists D. destruct b; simpl in *; simplify_eq/=. done.
  - unfold subscriber_handle. destruct (subs b !! p) as [s|] eqn:Hsp; [|done].
    pose proof (Hs _ _ Hsp) as Hss. destruct (sub_queue s) as [|e q] eqn:Hq; [done|].
    case_decide; [|done]. intros [= <-]. exists D. destruct b; simpl in *. split; [done|].
    intros x sx. rewrite lookup_insert. case_decide; [|apply Hs].
    intros [= <-]. destruct s; simpl in *. subst. by rewrite <-app_assoc.
  - unfold subscriber_exit. destruct (subs b !! p); [|done]. case_decide; [|done].
    intros Hb. exists D. destruct b; simpl in *; simplify_eq/=. done.
Qed.

(** Everything reachable from a new bus. *)
Lemma bus_run_inv c b0 tr b :
  NewBus c = Ret b0 → bus_run b0 tr b → registered_ok b ∧ bounded b ∧ ordered (published tr) b.
Proof.
  intros Hnew. induction 1 as [|tr b l b' _ (Hok & Hb & Ho) Hstep].
  - split_and!; eauto using registered_ok_new, bounded_new, ordered_new.
  - split; [by eapply bus_next_registered|]. split; [by eapply bus_next_bounded|].
    unfold published in *. rewrite omap_app. by eapply bus_next_ordered.
Qed.
End bus_props.

(** ** Properties *)

(** Delivery order: in every execution of the bus, the events a
    subscriber's handler has been called with form a subsequence of the
    events published, in publication order: events may be dropped at full
    buffers, but none is duplicated, reordered or invented. *)
Theorem delivery_is_ordered {E H} c (b0 : Bus E H) tr b p s :
  NewBus c = Ret b0 → bus_run b0 tr b → subs b !! p = Some s →
  calls s `sublist_of` published tr.
Proof.
  intros Hnew Hrun Hs. destruct (bus_run_inv _ _ _ _ Hnew Hrun) as (_ & _ & D & HD & Hq).
  transitivity D; [|transitivity (D ++ option_list (inflight b) ++ ch b)].
  - transitivity (calls s ++ sub_queue s); [by apply sublist_inserts_r|by eapply Hq].
  - by apply sublist_inserts_r.
  - done.
Qed.

(** Subscriptions and buffers: in every execution, the subscriber list
    has no duplicate pointer and at most one subscriber per id, its members
    are open and every other subscriber has been closed (so closing twice,
    which would panic, cannot happen), open subscribers have a running
    goroutine until shutdown, and neither the bus channel nor a subscriber's
    queue exceeds its capacity. *)
Theorem bus_invariant {E H} c (b0 : Bus E H) tr b :
  NewBus c = Ret b0 → bus_run b0 tr b → registered_ok b ∧ bounded b.
Proof. intros Hnew Hrun. by destruct (bus_run_inv _ _ _ _ Hnew Hrun) as (? & ? & _). Qed.

Definition demo_trace : list (bus_label string ()) :=
  [LSubscribe "s" (); LPublish "e1"; LTake; LPublish "e2"; LFan; LHandle 0; LTake; LFan; LHandle 0].

(** Runs a trace where every label is enabled. *)
Definition run_trace {E H} (b0 : Bus E H) (tr : list (bus_label E H)) : option (Bus E H) :=
  foldl (λ b l, b ≫= bus_next l) (Some b0) tr.

Lemma run_trace_snoc {E H} (b0 : Bus E H) tr l :
  run_trace b0 (tr ++ [l]) = run_trace b0 tr ≫= bus_next l.
Proof. unfold run_trace. by rewrite foldl_app. Qed.

Lemma run_trace_run {E H} (b0 : Bus E H) tr b : run_trace b0 tr = Some b → bus_run b0 tr b.
Proof.
  revert b. induction tr as [|l tr IH] using rev_ind; intros b.
  - intros [= <-]. constructor.
  - rewrite run_trace_snoc. intros (b1 & Hl & Hb1)%bind_Some. econstructor; eauto.
Qed.

Lemma delivery_is_ordered_witness :
  ∃ (b0 b : Bus string ()), NewBus 4 = Ret b0 ∧ run_trace b0 demo_trace = Some b ∧
    (calls <$> subs b !! 0) = Some ["e1"; "e2"] ∧ ["e1"; "e2"] `sublist_of` published demo_trace.
Proof.
  eexists _, _. split; [reflexivity|]. split; [vm_compute; reflexivity|].
  split; [vm_compute; reflexivity|].
  eapply (delivery_is_ordered 4 _ demo_trace _ 0 (Build_Subscriber "s" () [] false ["e1"; "e2"]));
    [reflexivity|apply run_trace_run; vm_compute; reflexivity|vm_compute; reflexivity].
Defined.

Lemma bus_invariant_witness :
  ∃ (b0 b : Bus string ()), NewBus 4 = Ret b0 ∧ bus_run b0 demo_trace b ∧ registered_ok b.
Proof.
  eexists _, _. split; [reflexivity|].
  match goal with |- bus_run ?b0 _ _ ∧ _ =>
    assert (bus_run b0 demo_trace (default b0 (run_trace b0 demo_trace))) as Hrun
      by (apply run_trace_run; vm_compute; reflexivity) end.
  split; [exact Hrun|]. apply (bus_invariant 4 _ demo_trace _ eq_refl Hrun).
Defined.
