(* ===== verification/GoFloat.v ===== *)
(** * float64 arithmetic

    The uses of float64 in the program: the load of a worker
    ([scheduler.go], [float64(a)/float64(b)] and its comparisons) and
    [Duration.Seconds] ([engine.go]), which is exact on whole seconds.  Values and operations are those of the
    binary64 format in the Standard Library's [SpecFloat]. *)

From stdpp Require Import base list.
From Stdlib Require Import ZArith Lia Floats.SpecFloat.
From S2P Require Import Prelude.

Definition float64 := spec_float.

Definition f64_of_int (z : Z) : float64 := binary_normalize 53 1024 z 0 false.
Definition f64_div (x y : float64) : float64 := SFdiv 53 1024 x y.
Definition f64_add (x y : float64) : float64 := SFadd 53 1024 x y.

(** Go's [==] and [<] on float64 (both false on NaN). *)
Definition f64_eqb (x y : float64) : bool := SFeqb x y.
Definition f64_ltb (x y : float64) : bool := SFltb x y.

(** [int64(f)]: truncation towards zero, for values in range.  The result of
    converting a NaN, an infinity or an out-of-range value is
    implementation-defined in Go; it is taken to be the least int64, as on
    amd64. *)
Definition f64_to_int64 (f : float64) : Z :=
  let z := match f with
           | S754_zero _ => 0%Z
           | S754_finite s m e =>
               let a := match e with
                        | Z0 => Zpos m
                        | Zpos p => (Zpos m * 2 ^ Zpos p)%Z
                        | Zneg p => (Zpos m / 2 ^ Zpos p)%Z
                        end in
               if s then (- a)%Z else a
           | _ => (- two63)%Z
           end in
  if decide (int64_ok z) then z else (- two63)%Z.

(** [time.Duration.Seconds]. *)
Definition Duration_Seconds (d : Z) : float64 :=
  let sec := Z.quot d Second in
  let nsec := Z.rem d Second in
  f64_add (f64_of_int sec) (f64_div (f64_of_int nsec) (f64_of_int Second)).

(** ** The order on non-NaN values

    A non-NaN value is ranked by a triple of integers; comparison of floats is
    the lexicographic comparison of their ranks. *)

Definition rank (f : float64) : Z * Z * Z :=
  match f with
  | S754_nan => (3, 0, 0)
  | S754_infinity s => (if s then -2 else 2, 0, 0)
  | S754_zero _ => (0, 0, 0)
  | S754_finite s m e => if s then (-1, -e, -Zpos m) else (1, e, Zpos m)
  end%Z.

Definition rank_lt (a b : Z * Z * Z) : Prop :=
  let '(a1, a2, a3) := a in let '(b1, b2, b3) := b in
  (a1 < b1 ∨ a1 = b1 ∧ (a2 < b2 ∨ a2 = b2 ∧ a3 < b3))%Z.

Lemma SFcompare_rank f g :
  f ≠ S754_nan → g ≠ S754_nan →
  match SFcompare f g with
  | Some Lt => rank_lt (rank f) (rank g)
  | Some Eq => rank f = rank g
  | Some Gt => rank_lt (rank g) (rank f)
  | None => False
  end.
Proof.
  intros Hf Hg. destruct f as [s|s| |s m e], g as [s'|s'| |s' m' e']; try done;
    destruct s; try destruct s'; simpl; try lia; try done.
  - destruct (Z.compare_spec e e'); subst; simpl; [|lia..].
    change (Pos.compare_cont Eq m m') with (Pos.compare m m').
    destruct (Pos.compare_spec m m'); subst; simpl; [done|lia..].
  - destruct (Z.compare_spec e e'); subst; simpl; [|lia..].
    change (Pos.compare_cont Eq m m') with (Pos.compare m m').
    destruct (Pos.compare_spec m m'); subst; simpl; [done|lia..].
Qed.

Lemma rank_lt_irrefl a b : rank_lt a b → a ≠ b.
Proof. destruct a as [[a1 a2] a3], b as [[b1 b2] b3]. simpl. intros ? [= -> -> ->]. lia. Qed.

Lemma rank_lt_asym a b : rank_lt a b → ¬ rank_lt b a.
Proof. destruct a as [[a1 a2] a3], b as [[b1 b2] b3]. simpl. lia. Qed.

Lemma rank_lt_trans a b c : rank_lt a b → rank_lt b c → rank_lt a c.
Proof. destruct a as [[a1 a2] a3], b as [[b1 b2] b3], c as [[c1 c2] c3]. simpl. lia. Qed.

Lemma rank_lt_total a b : rank_lt a b ∨ a = b ∨ rank_lt b a.
Proof.
  destruct a as [[a1 a2] a3], b as [[b1 b2] b3]. simpl.
  assert (a1 = b1 ∧ a2 = b2 ∧ a3 = b3 ∨ ¬ (a1 = b1 ∧ a2 = b2 ∧ a3 = b3))%Z as [(-> & -> & ->)|Hne] by lia;
    [by right; left|lia].
Qed.

Lemma f64_ltb_rank f g :
  f ≠ S754_nan → g ≠ S754_nan → f64_ltb f g = true ↔ rank_lt (rank f) (rank g).
Proof.
  intros Hf Hg. pose proof (SFcompare_rank f g Hf Hg) as Hc. unfold f64_ltb, SFltb.
  destruct (SFcompare f g) as [[]|]; [| | |done]; (split; [done|]); [|done|].
  - intros Hr. by apply rank_lt_irrefl in Hr.
  - intros Hr. by apply rank_lt_asym in Hr.
Qed.

Lemma f64_eqb_rank f g :
  f ≠ S754_nan → g ≠ S754_nan → f64_eqb f g = true ↔ rank f = rank g.
Proof.
  intros Hf Hg. pose proof (SFcompare_rank f g Hf Hg) as Hc. unfold f64_eqb, SFeqb.
  destruct (SFcompare f g) as [[]|]; [done| | |done]; (split; [done|]).
  - intros Hr. by apply rank_lt_irrefl in Hc.
  - intros Hr. by apply rank_lt_irrefl in Hc.
Qed.

(** ** Conversions and quotients of integers are not NaN *)

Lemma shr_1_nonneg r : (0 ≤ shr_m r)%Z → (0 ≤ shr_m (shr_1 r))%Z.
Proof. destruct r as [m r s]. simpl. by destruct m as [|[]|[]]. Qed.

Lemma iter_shr_nonneg p r : (0 ≤ shr_m r)%Z → (0 ≤ shr_m (iter_pos shr_1 p r))%Z.
Proof. revert r. induction p; intros r Hr; simpl; auto using shr_1_nonneg. Qed.

Lemma shr_fexp_nonneg m e l : (0 ≤ m)%Z → (0 ≤ shr_m (shr_fexp 53 1024 m e l).1)%Z.
Proof.
  intros Hm. unfold shr_fexp, shr.
  assert (0 ≤ shr_m (shr_record_of_loc m l))%Z by (by destruct l as [|[]]).
  destruct (fexp _ _ _ - e)%Z; simpl; auto using iter_shr_nonneg.
Qed.

Lemma round_nonneg m l : (0 ≤ m)%Z → (0 ≤ round_nearest_even m l)%Z.
Proof. intros Hm. destruct l as [|[]]; simpl; try lia. destruct (Z.even m); lia. Qed.

Lemma binary_round_aux_not_nan s m e l :
  (0 ≤ m)%Z → binary_round_aux 53 1024 s m e l ≠ S754_nan.
Proof.
  intros Hm. unfold binary_round_aux.
  pose proof (shr_fexp_nonneg m e l Hm) as H1.
  destruct (shr_fexp 53 1024 m e l) as [r1 e1]. simpl in H1.
  pose proof (shr_fexp_nonneg _ e1 loc_Exact (round_nonneg _ (loc_of_shr_record r1) H1)) as H2.
  destruct (shr_fexp 53 1024 _ e1 loc_Exact) as [r2 e2]. simpl in H2.
  destruct (shr_m r2); [done| |lia]. by case_match.
Qed.

Lemma f64_of_int_not_nan z : f64_of_int z ≠ S754_nan.
Proof.
  unfold f64_of_int, binary_normalize, binary_round. destruct z as [|p|p]; [done|..];
    destruct (shl_align _ _ _); by apply binary_round_aux_not_nan.
Qed.

(** An int64 converts to a finite value. *)
Lemma digits2_pos_bound p : (Zpos p < 2 ^ Zpos (digits2_pos p) ∧ 2 ^ (Zpos (digits2_pos p) - 1) ≤ Zpos p)%Z.
Proof.
  induction p as [p [IH1 IH2]|p [IH1 IH2]|]; cbn [digits2_pos]; [| |done];
    rewrite ?Pos2Z.inj_succ, ?Z.pow_succ_r by lia;
    replace (Z.succ (Zpos (digits2_pos p)) - 1)%Z with (Z.succ (Zpos (digits2_pos p) - 1)) by lia;
    rewrite Z.pow_succ_r by lia; lia.
Qed.

Lemma Zdigits2_le m k : (0 ≤ m)%Z → (0 ≤ k)%Z → (m < 2 ^ k)%Z → (Zdigits2 m ≤ k)%Z.
Proof.
  intros Hm Hk Hlt. destruct m as [|p|p]; simpl; [lia| |lia].
  destruct (digits2_pos_bound p) as [_ Hp]. apply Z.lt_pred_le.
  apply (Z.pow_lt_mono_r_iff 2); lia.
Qed.

Lemma shr_1_le r : (0 ≤ shr_m r)%Z → (shr_m (shr_1 r) ≤ shr_m r)%Z.
Proof. destruct r as [m r s]. simpl. destruct m as [|[]|[]]; simpl; lia. Qed.

Lemma iter_shr_le p r : (0 ≤ shr_m r)%Z → (shr_m (iter_pos shr_1 p r) ≤ shr_m r)%Z.
Proof.
  revert r. induction p; intros r Hr; simpl; eauto using shr_1_le.
  - etrans; [apply IHp|etrans; [apply IHp|by apply shr_1_le]]; auto using iter_shr_nonneg, shr_1_nonneg.
  - etrans; [apply IHp|by apply IHp]; auto using iter_shr_nonneg.
Qed.

Lemma shr_fexp_bound m e l k :
  (0 ≤ m < 2 ^ k)%Z → (0 ≤ k)%Z →
  let '(r, e') := shr_fexp 53 1024 m e l in
  (0 ≤ shr_m r < 2 ^ k)%Z ∧ (e' ≤ Z.max e (Z.max (k + e - 53) (-1074)))%Z.
Proof.
  intros Hm Hk. pose proof (shr_fexp_nonneg m e l (proj1 Hm)) as Hnn.
  unfold shr_fexp, shr in *. set (r0 := shr_record_of_loc m l) in *.
  assert (shr_m r0 = m) as Hr0 by (by destruct l as [|[]]).
  pose proof (Zdigits2_le m k (proj1 Hm) Hk (proj2 Hm)) as Hd.
  unfold fexp, emin in *. destruct (Z.max _ _ - e)%Z eqn:Hn; simpl in *.
  - rewrite Hr0. lia.
  - pose proof (iter_shr_le p r0). lia.
  - rewrite Hr0. lia.
Qed.

Lemma binary_round_aux_finite s m e l k k' :
  (0 ≤ m < 2 ^ k)%Z → (0 ≤ k)%Z → (2 ^ k + 1 < 2 ^ k')%Z → (0 ≤ k')%Z →
  (e ≤ 20)%Z → (k' ≤ 200)%Z → (k ≤ 200)%Z →
  ∀ s', binary_round_aux 53 1024 s m e l ≠ S754_infinity s'.
Proof.
  intros Hm Hk Hkk Hk' He Hb Hbk s'. unfold binary_round_aux.
  pose proof (shr_fexp_bound m e l k Hm Hk) as H1. destruct (shr_fexp 53 1024 m e l) as [r1 e1].
  destruct H1 as [H1 He1].
  set (m2 := round_nearest_even (shr_m r1) (loc_of_shr_record r1)).
  assert (0 ≤ m2 < 2 ^ k')%Z as H2.
  { unfold m2. destruct (loc_of_shr_record r1) as [|[]]; simpl; try lia. destruct (Z.even _); lia. }
  pose proof (shr_fexp_bound m2 e1 loc_Exact k' H2 Hk') as H3.
  destruct (shr_fexp 53 1024 m2 e1 loc_Exact) as [r2 e2]. destruct H3 as [H3 He2].
  destruct (shr_m r2); [done| |done]. destruct (Z.leb_spec e2 (1024 - 53)); [done|lia].
Qed.

Lemma iter_xO_pow p n : (Zpos (Pos.iter xO p n) = Zpos p * 2 ^ Zpos n)%Z.
Proof.
  induction n as [|n IH] using Pos.peano_ind; [simpl; lia|].
  rewrite Pos.iter_succ, Pos2Z.inj_succ, Z.pow_succ_r by lia.
  change (Zpos (Pos.iter xO p n)~0) with (2 * Zpos (Pos.iter xO p n))%Z. lia.
Qed.

Lemma shl_align_bound p : (Zpos p < 2 ^ 63)%Z →
  let '(mz, ez) := shl_align p 0 (fexp 53 1024 (Zpos (digits2_pos p) + 0)) in
  (0 ≤ Zpos mz < 2 ^ 63)%Z ∧ (ez ≤ 20)%Z.
Proof.
  intros Hp. unfold shl_align, fexp, emin.
  destruct (digits2_pos_bound p) as [Hlt Hge].
  destruct (Z.max _ _ - 0)%Z eqn:Hd; [lia|lia|]. split; [|lia].
  assert (Zpos (Pos.iter xO p p0) = Zpos p * 2 ^ Zpos p0)%Z as ->.
  { apply iter_xO_pow. }
  assert (Zpos p0 = 53 - Zpos (digits2_pos p))%Z as -> by lia.
  assert (2 ^ 53 = 2 ^ Zpos (digits2_pos p) * 2 ^ (53 - Zpos (digits2_pos p)))%Z as H53
    by (rewrite <-Z.pow_add_r by lia; f_equal; lia).
  assert (0 < 2 ^ (53 - Zpos (digits2_pos p)))%Z by (apply Z.pow_pos_nonneg; lia).
  assert (2 ^ 53 < 2 ^ 63)%Z by lia. nia.
Qed.

Lemma f64_of_int_finite z s : (Z.abs z < 2 ^ 63)%Z → f64_of_int z ≠ S754_infinity s.
Proof.
  intros Hz. unfold f64_of_int, binary_normalize, binary_round. destruct z as [|p|p]; [done|..];
    pose proof (shl_align_bound p ltac:(lia)) as Hb; destruct (shl_align _ _ _) as [mz ez];
    destruct Hb as [Hb He]; apply (binary_round_aux_finite _ _ _ _ 63 64); lia.
Qed.

(** An integer of at most 53 bits converts exactly; in particular a nonzero
    one does not become zero. *)
Lemma shr_fexp_id m e :
  (2 ^ 52 ≤ m < 2 ^ 53)%Z → (-1074 ≤ e)%Z →
  shr_fexp 53 1024 m e loc_Exact = (shr_record_of_loc m loc_Exact, e).
Proof.
  intros Hm He. unfold shr_fexp, shr, fexp, emin.
  assert (Zdigits2 m = 53)%Z as ->.
  { apply Z.le_antisymm; [apply Zdigits2_le; lia|]. destruct m as [|p|p]; simpl; [lia| |lia].
    destruct (digits2_pos_bound p) as [Hlt _]. apply Z.lt_pred_le.
    apply (Z.pow_lt_mono_r_iff 2); lia. }
  replace (Z.max (53 + e - 53) (3 - 1024 - 53) - e)%Z with 0%Z by lia. done.
Qed.

Lemma f64_of_int_nonzero z s : z ≠ 0%Z → (Z.abs z < 2 ^ 53)%Z → f64_of_int z ≠ S754_zero s.
Proof.
  intros Hz Hlt.
  assert (∀ b p, (Zpos p < 2 ^ 53)%Z → binary_round 53 1024 b p 0 ≠ S754_zero s) as Hpos.
  { intros b p Hp. unfold binary_round. pose proof (digits2_pos_bound p) as [Hd1 Hd2].
    assert (Zpos (digits2_pos p) ≤ 53)%Z as Hd by (apply (Zdigits2_le (Zpos p) 53); lia).
    unfold shl_align. destruct (fexp _ _ _ - 0)%Z eqn:Hn; unfold fexp, emin in Hn; [|lia|].
    - assert (2 ^ 52 ≤ Zpos p < 2 ^ 53)%Z as Hm.
      { split; [|done]. etrans; [|exact Hd2]. apply Z.pow_le_mono_r; lia. }
      unfold binary_round_aux. rewrite shr_fexp_id by lia. simpl. rewrite shr_fexp_id by lia. done.
    - assert (Zpos p0 = 53 - Zpos (digits2_pos p))%Z as Hp0 by lia.
      assert (2 ^ 52 ≤ Zpos (Pos.iter xO p p0) < 2 ^ 53)%Z as Hm.
      { rewrite iter_xO_pow, Hp0. set (d := Zpos (digits2_pos p)) in *.
        assert (2 ^ 53 = 2 ^ d * 2 ^ (53 - d))%Z as H53 by (rewrite <-Z.pow_add_r by lia; f_equal; lia).
        assert (2 ^ 52 = 2 ^ (d - 1) * 2 ^ (53 - d))%Z as H52 by (rewrite <-Z.pow_add_r by lia; f_equal; lia).
        assert (0 < 2 ^ (53 - d))%Z by (apply Z.pow_pos_nonneg; lia). nia. }
      unfold binary_round_aux, fexp, emin. rewrite shr_fexp_id by lia. simpl.
      rewrite shr_fexp_id by lia. simpl. by case_match. }
  unfold f64_of_int, binary_normalize. destruct z as [|p|p]; [done|apply Hpos; lia..].
Qed.

Lemma f64_div_not_nan x y :
  x ≠ S754_nan → y ≠ S754_nan → (∀ s, x ≠ S754_infinity s) →
  (∀ s s', ¬ (x = S754_zero s ∧ y = S754_zero s')) → f64_div x y ≠ S754_nan.
Proof.
  intros Hx Hy Hinf Hz. unfold f64_div.
  destruct x as [s|s| |s m e], y as [s'|s'| |s' m' e']; simpl; try done; try by edestruct Hinf.
  - by edestruct Hz.
  - unfold SFdiv_core_binary. 
    match goal with |- context [Z.div_eucl ?a ?b] =>
      pose proof (Z_div_mod a b ltac:(lia)) as Hd; assert (0 ≤ a)%Z as Ha;
      [|destruct (Z.div_eucl a b) as [q r]; apply binary_round_aux_not_nan; nia] end.
    match goal with |- (0 ≤ match ?x with _ => _ end)%Z => destruct x end;
      [lia|by apply Z.shiftl_nonneg|lia].
Qed.

(** An int of at most 53 bits survives the conversion and back. *)
Lemma f64_of_int_exact p :
  (Zpos p < 2 ^ 53)%Z →
  f64_to_int64 (f64_of_int (Zpos p)) = Zpos p ∧ ∀ s, f64_add (f64_of_int (Zpos p)) (S754_zero s) = f64_of_int (Zpos p).
Proof.
  intros Hp. assert (∃ m e, f64_of_int (Zpos p) = S754_finite false m e ∧ (e ≤ 0)%Z ∧ (Zpos m = Zpos p * 2 ^ (- e))%Z)
    as (m & e & -> & He & Hm).
  { unfold f64_of_int, binary_normalize, binary_round. pose proof (digits2_pos_bound p) as [Hd1 Hd2].
    assert (Zpos (digits2_pos p) ≤ 53)%Z as Hd by (apply (Zdigits2_le (Zpos p) 53); lia).
    unfold shl_align. destruct (fexp _ _ _ - 0)%Z eqn:Hn; unfold fexp, emin in Hn; [|lia|].
    - assert (2 ^ 52 ≤ Zpos p < 2 ^ 53)%Z as Hm.
      { split; [|done]. etrans; [|exact Hd2]. apply Z.pow_le_mono_r; lia. }
      unfold binary_round_aux. rewrite shr_fexp_id by lia. simpl. rewrite shr_fexp_id by lia.
      exists p, 0%Z. split_and!; [done|done|]. change (- 0)%Z with 0%Z. lia.
    - assert (Zpos p0 = 53 - Zpos (digits2_pos p))%Z as Hp0 by lia.
      assert (2 ^ 52 ≤ Zpos (Pos.iter xO p p0) < 2 ^ 53)%Z as Hm.
      { rewrite iter_xO_pow, Hp0. set (d := Zpos (digits2_pos p)) in *.
        assert (2 ^ 53 = 2 ^ d * 2 ^ (53 - d))%Z as H53 by (rewrite <-Z.pow_add_r by lia; f_equal; lia).
        assert (2 ^ 52 = 2 ^ (d - 1) * 2 ^ (53 - d))%Z as H52 by (rewrite <-Z.pow_add_r by lia; f_equal; lia).
        assert (0 < 2 ^ (53 - d))%Z by (apply Z.pow_pos_nonneg; lia). nia. }
      unfold binary_round_aux, fexp, emin. rewrite shr_fexp_id by lia. simpl. rewrite shr_fexp_id by lia. simpl.
      rewrite (proj2 (Z.leb_le _ _)) by lia. do 2 eexists. split_and!; [done|lia|].
      rewrite iter_xO_pow. f_equal. f_equal. lia. }
  split; [|done]. unfold f64_to_int64. rewrite decide_True.
  - destruct e as [|e|e]; simpl in Hm |- *; [lia|lia|]. rewrite Hm. apply Z.div_mul. lia.
  - destruct e as [|e|e]; simpl in Hm |- *; [unfold int64_ok, two63; lia|lia|].
    rewrite Hm, Z.div_mul by lia. unfold int64_ok, two63. lia.
Qed.

(** A whole number of seconds, as [int64(d.Seconds())] computes it. *)
Lemma Duration_Seconds_whole s :
  (0 ≤ s)%Z → int64_ok (s * Second) → f64_to_int64 (Duration_Seconds (s * Second)) = s.
Proof.
  intros Hs Hok. unfold Duration_Seconds. rewrite Z.quot_mul, Z.rem_mul by done.
  assert (f64_div (f64_of_int 0) (f64_of_int Second) = S754_zero false) as -> by (vm_compute; reflexivity).
  destruct s as [|p|p]; [vm_compute; reflexivity| |lia].
  destruct (f64_of_int_exact p) as [H1 H2]; [unfold int64_ok, two63, Second in Hok; lia|]. by rewrite H2.
Qed.
