(* ===== verification/Jobs.v ===== *)
(** * Jobs and the ready queue

    [Job] of [scheduler/scheduler.go] and [scheduler/queue.go].  A job's
    callback [OnDispatched] is a closure over a task pointer; it is
    represented by the captured pointer (type [CB], [None] for a nil
    callback), and run by whoever owns the pointed-to state. *)

From stdpp Require Import base strings list.
From Stdlib Require Import ZArith Lia.
From S2P Require Import Prelude.

(** [protogen.DispatchRequest]. *)
Record DispatchRequest := {
  dr_WorkflowId : string;
  dr_TaskId : string;
  dr_Type : string;
  dr_Payload : string;
  dr_TimeoutSeconds : Z;
}.

(** The generated getter is nil-safe. *)
Definition DispatchRequest_GetType (r : option DispatchRequest) : string :=
  match r with Some r => dr_Type r | None => "" end.

Record Job {CB : Type} := {
  job_ID : string;
  job_WorkflowID : string;
  Request : option DispatchRequest;
  OnDispatched : option CB;
}.
Arguments Job CB : clear implicits.

Section queue.
Context {CB : Type}.

(** [ReadyQueue.items]. *)
Definition ReadyQueue : Type := list (Job CB).

Definition NewReadyQueue : ReadyQueue := [].

Definition Push (job : Job CB) (q : ReadyQueue) : ReadyQueue := q ++ [job].

(** The slice expressions [items[:n]] and [items[n:]].  The second panics when
    [n] is beyond the length, the first only beyond the capacity; [PopBatch]
    evaluates both with the same [n], so beyond the length it panics either
    way, and a queue without spare capacity stands for any. *)
Definition slice_to (n : Z) (q : ReadyQueue) : outcome () ReadyQueue :=
  if decide (0 ≤ n ≤ Z.of_nat (length q))%Z then Ret (take (Z.to_nat n) q) else Panic.

Definition slice_from (n : Z) (q : ReadyQueue) : outcome () ReadyQueue :=
  if decide (0 ≤ n ≤ Z.of_nat (length q))%Z then Ret (drop (Z.to_nat n) q) else Panic.

(** The batch and the remaining queue. *)
Definition PopBatch (n : Z) (q : ReadyQueue) : outcome () (list (Job CB) * ReadyQueue) :=
  let n := if decide (n > Z.of_nat (length q))%Z then Z.of_nat (length q) else n in
  batch ← slice_to n q;
  rest ← slice_from n q;
  Ret (batch, rest).

(** The size of the batch and the order of the queue. *)
Lemma PopBatch_spec n q :
  (0 ≤ n)%Z →
  ∃ batch rest, PopBatch n q = Ret (batch, rest) ∧ q = batch ++ rest ∧
    length batch = Nat.min (Z.to_nat n) (length q).
Proof.
  intros Hn. unfold PopBatch.
  set (m := if decide (n > Z.of_nat (length q))%Z then Z.of_nat (length q) else n).
  assert (0 ≤ m ≤ Z.of_nat (length q))%Z as Hm by (unfold m; case_decide; lia).
  assert (Z.to_nat m = Nat.min (Z.to_nat n) (length q)) as Hlen by (unfold m; case_decide; lia).
  cbn zeta. unfold slice_to, slice_from. rewrite !(decide_True (P := (0 ≤ m ≤ Z.of_nat (length q))%Z)) by done.
  eexists _, _. split; [done|]. split; [by rewrite take_drop|]. rewrite length_take. lia.
Qed.
End queue.
Arguments ReadyQueue CB : clear implicits.
