(* ===== verification/LinkedList.v ===== *)
(** * Singly linked queues

    Both [pkg/retry_queue/retry_queue.go] (type [node]) and
    [pkg/worker_pool/linked_queue.go] (type [Item]) keep a queue as heap nodes
    with a [next] pointer, a head and a tail pointer and a counter, and use
    the same two procedures on it.  [linked] is that representation, with the
    nodes in a heap; [represents] relates it to the list of its values, and the
    two lemmas below say that the procedures implement append and uncons, so
    in particular never dereference nil. *)

From stdpp Require Import base gmap list.
From Stdlib Require Import ZArith Lia.
From S2P Require Import Prelude.

Record node {A : Type} := { value : A; next : option nat }.
Arguments node A : clear implicits.

Record linked {A : Type} := {
  nodes : gmap nat (node A);   (* the heap; freed nodes stay until collected *)
  fresh : nat;
  ll_head : option nat;
  ll_tail : option nat;
  ll_len : Z;
}.
Arguments linked A : clear implicits.

Section linked.
Context {A : Type}.
Implicit Types (q : linked A) (v : A) (l : list A) (p : nat) (ps : list nat).

Definition set_next (n : option nat) (x : node A) : node A := {| value := value x; next := n |}.

Definition ll_empty : linked A := {| nodes := ∅; fresh := 0; ll_head := None; ll_tail := None; ll_len := 0 |}.

(** [enqueue] of the retry queue and [Queue] of the linked queue; a nil tail
    with a non-nil head would be dereferenced. *)
Definition ll_push v q : outcome () (linked A) :=
  let p := fresh q in
  let nodes := <[p := {| value := v; next := None |}]> (nodes q) in
  match ll_head q, ll_tail q with
  | None, _ =>
      Ret {| nodes := nodes; fresh := S p; ll_head := Some p; ll_tail := Some p; ll_len := ll_len q + 1 |}
  | Some h, Some t =>
      Ret {| nodes := alter (set_next (Some p)) t nodes; fresh := S p; ll_head := Some h;
             ll_tail := Some p; ll_len := ll_len q + 1 |}
  | Some _, None => Panic
  end.

(** [dequeue] and [Dequeue]; [None] is the empty queue's answer. *)
Definition ll_pop q : outcome () (option A * linked A) :=
  match ll_head q with
  | None => Ret (None, q)
  | Some h =>
      match nodes q !! h with
      | None => Panic
      | Some n =>
          Ret (Some (value n),
               {| nodes := <[h := set_next None n]> (nodes q); fresh := fresh q; ll_head := next n;
                  ll_tail := match next n with None => None | Some _ => ll_tail q end;
                  ll_len := ll_len q - 1 |})
      end
  end.

(** The values from the node [p] on, following the [next] pointers. *)
Fixpoint walk (fuel : nat) (h : gmap nat (node A)) (p : option nat) : list A :=
  match fuel, p with
  | S fuel, Some p =>
      match h !! p with Some n => value n :: walk fuel h (next n) | None => [] end
  | _, _ => []
  end.

(** The nodes [ps], linked in this order, hold the values [l]. *)
Definition links (h : gmap nat (node A)) ps l : Prop :=
  length ps = length l ∧
  ∀ i p v, ps !! i = Some p → l !! i = Some v → h !! p = Some {| value := v; next := ps !! S i |}.

Definition represents q l : Prop :=
  ∃ ps, links (nodes q) ps l ∧ NoDup ps ∧ (∀ p, p ∈ ps → p < fresh q) ∧
    ll_head q = head ps ∧ ll_tail q = last ps ∧ ll_len q = Z.of_nat (length l).

Lemma represents_empty : represents ll_empty [].
Proof.
  exists []. split; [by split|]. split_and!; [constructor|by intros p ?%elem_of_nil|done..].
Qed.

Lemma links_walk h ps l : links h ps l → walk (length l) h (head ps) = l.
Proof.
  revert ps. induction l as [|v l IH]; intros [|p ps] [Hlen Hl]; simpl in *; try done; try lia.
  rewrite (Hl 0 p v) by done. simpl. f_equal.
  transitivity (walk (length l) h (head ps)); [by destruct ps|]. apply IH.
  split; [lia|]. intros i x y Hx Hy. by apply (Hl (S i)).
Qed.

(** The representation determines the list. *)
Lemma represents_inj q l l' : represents q l → represents q l' → l = l'.
Proof.
  intros (ps & Hl & _ & _ & Hh & _ & Hn) (ps' & Hl' & _ & _ & Hh' & _ & Hn').
  apply links_walk in Hl, Hl'. rewrite <-Hl, <-Hl', <-Hh, <-Hh'. f_equal. lia.
Qed.

Lemma links_length h ps l : links h ps l → length ps = length l.
Proof. by intros [? _]. Qed.

Lemma links_snoc h ps l p v :
  links h ps l → NoDup ps → p ∉ ps →
  links (from_option (λ t, alter (set_next (Some p)) t (<[p := {| value := v; next := None |}]> h))
           (<[p := {| value := v; next := None |}]> h) (last ps)) (ps ++ [p]) (l ++ [v]).
Proof.
  intros [Hlen Hl] Hnd Hp. split; [rewrite !length_app; simpl; lia|].
  intros i x y Hx Hy.
  assert (∀ t, last ps = Some t → ps !! (length ps - 1) = Some t ∧ t ≠ p) as Hlast.
  { intros t Ht. rewrite last_lookup in Ht. replace (pred (length ps)) with (length ps - 1) in Ht by lia.
    split; [done|]. intros ->. by apply Hp, (list_elem_of_lookup_2 _ _ _ Ht). }
  destruct (decide (i < length ps)) as [Hi|Hi].
  - rewrite lookup_app_l in Hx by done. rewrite lookup_app_l in Hy by lia.
    assert (x ≠ p) as Hxp by (intros ->; by apply Hp, (list_elem_of_lookup_2 _ _ _ Hx)).
    destruct (last ps) as [t|] eqn:Ht; [|apply last_None in Ht; subst; simpl in Hi; lia].
    destruct (Hlast t eq_refl) as [Htl Htp]. simpl.
    destruct (decide (S i < length ps)) as [Hsi|Hsi].
    + rewrite lookup_alter_ne, lookup_insert_ne by (try done; intros ->;
        pose proof (NoDup_lookup _ _ _ _ Hnd Hx Htl); lia).
      rewrite (lookup_app_l ps) by done. by apply Hl.
    + assert (i = length ps - 1) as -> by lia. rewrite Htl in Hx. injection Hx as <-.
      rewrite lookup_alter_eq, lookup_insert_ne by done. rewrite (Hl _ _ _ Htl Hy). simpl. unfold set_next. simpl.
      do 2 f_equal. rewrite lookup_app_r by lia. by replace (S (length ps - 1) - length ps) with 0 by lia.
  - rewrite lookup_app_r in Hx by lia. rewrite (lookup_app_r l) in Hy by lia. rewrite <-Hlen in Hy.
    destruct (i - length ps) as [|] eqn:Hd; [|done]. simpl in Hx, Hy. injection Hx as <-. injection Hy as <-.
    rewrite lookup_ge_None_2 by (rewrite length_app; simpl; lia).
    destruct (last ps) as [t|] eqn:Ht; simpl; [|by rewrite lookup_insert_eq].
    destruct (Hlast t eq_refl) as [_ Htp]. by rewrite lookup_alter_ne, lookup_insert_eq.
Qed.

Lemma ll_push_spec q l v :
  represents q l → ∃ q', ll_push v q = Ret q' ∧ represents q' (l ++ [v]).
Proof.
  intros (ps & Hl & Hnd & Hfr & Hh & Ht & Hn). unfold ll_push. rewrite Hh, Ht.
  assert (fresh q ∉ ps) as Hnew by (intros Hin%Hfr; lia).
  pose proof (links_snoc _ _ _ (fresh q) v Hl Hnd Hnew) as Hl'.
  assert (NoDup (ps ++ [fresh q])) as Hnd'.
  { apply NoDup_app. split; [done|]. split; [|apply NoDup_singleton]. intros x Hx Hx'%list_elem_of_singleton. by subst. }
  assert (∀ p, p ∈ ps ++ [fresh q] → p < S (fresh q)) as Hfr'.
  { intros p [Hin%Hfr|Hin%list_elem_of_singleton]%elem_of_app; [lia|subst; lia]. }
  destruct ps as [|h ps]; [|destruct (last (h :: ps)) as [t|] eqn:Hlast; [|by apply last_None in Hlast]].
  - simpl. eexists. split; [done|]. exists [fresh q]. split_and!; try done. simpl. rewrite length_app. simpl. lia.
  - simpl. eexists. split; [done|]. exists ((h :: ps) ++ [fresh q]). simpl. split_and!; try done.
    + by rewrite app_comm_cons, last_snoc.
    + rewrite length_app. simpl. lia.
Qed.

Lemma ll_pop_spec q l :
  represents q l →
  match l with
  | [] => ll_pop q = Ret (None, q)
  | v :: l' => ∃ q', ll_pop q = Ret (Some v, q') ∧ represents q' l'
  end.
Proof.
  intros (ps & [Hlen Hl] & Hnd & Hfr & Hh & Ht & Hn). unfold ll_pop. rewrite Hh.
  destruct l as [|v l], ps as [|p ps]; simpl in *; try lia; [done|].
  rewrite (Hl 0 p v) by done. simpl. eexists. split; [done|]. exists ps.
  apply NoDup_cons in Hnd as [Hp Hnd]. split_and!; simpl.
  - split; [simpl; lia|]. simpl. intros i x y Hx Hy. rewrite lookup_insert_ne; [by apply (Hl (S i))|].
    intros ->. by apply Hp, (list_elem_of_lookup_2 _ _ _ Hx).
  - done.
  - intros x Hx. apply Hfr. by right.
  - by destruct ps.
  - destruct ps as [|x ps]; [done|]. simpl. by rewrite Ht.
  - lia.
Qed.
End linked.
