(* ===== verification/RetryQueue.v ===== *)
(** * The retry queue

    [pkg/retry_queue]: a linked queue of triggers, a map from the key of each
    active trigger to the second at which it is due, and one goroutine,
    [RunLoop], that takes triggers from the front, runs those that are due
    and puts them back.  The lock is released between taking a trigger and
    putting it back, so the loop is a sequence of atomic steps ([rq_pc]) that
    interleave with [Push] and [Cancel] of other goroutines and with any number
    of calls of [StopLoop].  Such a call is itself a sequence of steps on the
    unbuffered [stopChan] ([stop_pc]): its [select], its send, which blocks
    until somebody receives, and its [close].

    A trigger's [Do] closure is represented by the data it captures ([D]); its
    verdict is part of the label of the step that runs it. *)

From stdpp Require Import base gmap strings list.
From Stdlib Require Import ZArith Lia.
From S2P Require Import Prelude LinkedList.

Section retry_queue.
Context {D : Type}.

(** [CommonRetryTrigger]. *)
Record RetryTrigger := { tr_key : string; tr_timeout : Z; tr_do : D }.

(** Where [RunLoop] is: at the [select], past it and before the lock, holding a
    trigger that was active with due time [t], running its [Do], about to put
    it back, or returned. *)
Inductive rq_pc :=
  | RqSelect
  | RqTake
  | RqTaken (trigger : RetryTrigger) (t : Z)
  | RqDoing (trigger : RetryTrigger) (t : Z)
  | RqPut (trigger : RetryTrigger) (t : Z)
  | RqReturned.

(** Where a call of [StopLoop] is: at its [select], in the [default] case
    before the send, blocked in the send, before [close], or returned. *)
Inductive stop_pc := StopSelect | StopSend | StopBlocked | StopClose | StopReturned.

Record RetryQueue := {
  rq_list : linked RetryTrigger;
  active : gmap string Z;
  stoppers : list stop_pc;   (* the calls of [StopLoop], in the order they were made *)
  stop_queue : list nat;     (* those blocked on [stopChan], in the order they came *)
  stop_closed : bool;
  loop : rq_pc;
}.

Definition set_rq_list v (q : RetryQueue) : RetryQueue :=
  let 'Build_RetryQueue _ a s w c p := q in Build_RetryQueue v a s w c p.
Definition set_active v (q : RetryQueue) : RetryQueue :=
  let 'Build_RetryQueue l _ s w c p := q in Build_RetryQueue l v s w c p.
Definition set_loop v (q : RetryQueue) : RetryQueue :=
  let 'Build_RetryQueue l a s w c _ := q in Build_RetryQueue l a s w c v.
Definition set_stop s w c (q : RetryQueue) : RetryQueue :=
  let 'Build_RetryQueue l a _ _ _ p := q in Build_RetryQueue l a s w c p.

Definition NewRetryQueue : RetryQueue :=
  {| rq_list := ll_empty; active := ∅; stoppers := []; stop_queue := []; stop_closed := false; loop := RqSelect |}.

Definition enqueue (trigger : RetryTrigger) (q : RetryQueue) : outcome () RetryQueue :=
  l ← ll_push trigger (rq_list q); mret (set_rq_list l q).

Definition dequeue (q : RetryQueue) : outcome () (option RetryTrigger * RetryQueue) :=
  '(trigger, l) ← ll_pop (rq_list q); mret (trigger, set_rq_list l q).

(** [time.Now().Add(trigger.GetTimeout()).Unix()] *)
Definition due (trigger : RetryTrigger) (now : Z) : Z := Unix (now + tr_timeout trigger).

Definition Push (trigger : RetryTrigger) (now : Z) (q : RetryQueue) : outcome () RetryQueue :=
  if decide (is_Some (active q !! tr_key trigger)) then mret q
  else enqueue trigger (set_active (<[tr_key trigger := due trigger now]> (active q)) q).

Definition Cancel (key : string) (q : RetryQueue) : RetryQueue := set_active (delete key (active q)) q.

(** Receiving from [stopChan], which fails when nobody sends and the channel is
    open: a closed channel answers at once, and the first blocked sender is
    released to its [close]. *)
Definition receive_stop (q : RetryQueue) : option RetryQueue :=
  if stop_closed q then Some q
  else match stop_queue q with
       | i :: w => Some (set_stop (<[i := StopClose]> (stoppers q)) w false q)
       | [] => None
       end.

Definition set_stopper i pc (q : RetryQueue) : RetryQueue :=
  set_stop (<[i := pc]> (stoppers q)) (stop_queue q) (stop_closed q) q.

(** A new call of [StopLoop], and the next step of the [i]-th call.  A send on
    the closed channel panics, also when it had blocked before, and so does a
    second [close].  [None]: blocked, or over. *)
Definition StopLoop (q : RetryQueue) : RetryQueue :=
  set_stop (stoppers q ++ [StopSelect]) (stop_queue q) (stop_closed q) q.

Definition stop_next (i : nat) (q : RetryQueue) : option (outcome () RetryQueue) :=
  match stoppers q !! i with
  | Some StopSelect =>
      Some (Ret (match receive_stop q with
                 | Some q => set_stopper i StopReturned q
                 | None => set_stopper i StopSend q
                 end))
  | Some StopSend =>
      Some (if stop_closed q then Panic
            else Ret (set_stop (<[i := StopBlocked]> (stoppers q)) (stop_queue q ++ [i]) false q))
  | Some StopBlocked => if stop_closed q then Some Panic else None
  | Some StopClose =>
      Some (if stop_closed q then Panic
            else Ret (set_stop (<[i := StopReturned]> (stoppers q)) (stop_queue q) true q))
  | Some StopReturned | None => None
  end.

(** [RunLoop]: its [select] returns on a stop; else it takes a trigger. *)
Definition loop_select (q : RetryQueue) : RetryQueue :=
  match receive_stop q with
  | Some q => set_loop RqReturned q
  | None => set_loop RqTake q
  end.

Definition loop_take (q : RetryQueue) : outcome () RetryQueue :=
  '(trigger, q) ← dequeue q;
  mret (set_loop match trigger with
                 | None => RqSelect
                 | Some trigger =>
                     match active q !! tr_key trigger with
                     | None => RqSelect
                     | Some t => RqTaken trigger t
                     end
                 end q).

(** Holding a trigger: run it if it is due, then renew it or cancel its key,
    then put it back if its key is (still, or again) active. *)
Definition loop_check (now : Z) (trigger : RetryTrigger) (t : Z) (q : RetryQueue) : RetryQueue :=
  set_loop (if decide (t ≤ Unix now)%Z then RqDoing trigger t else RqPut trigger t) q.

Definition loop_done (again : bool) (now : Z) (trigger : RetryTrigger) (t : Z) (q : RetryQueue) : RetryQueue :=
  if again then set_loop (RqPut trigger (due trigger now)) q
  else set_loop (RqPut trigger t) (Cancel (tr_key trigger) q).

Definition loop_put (trigger : RetryTrigger) (t : Z) (q : RetryQueue) : outcome () RetryQueue :=
  let q := set_loop RqSelect q in
  if decide (is_Some (active q !! tr_key trigger))
  then enqueue trigger (set_active (<[tr_key trigger := t]> (active q)) q)
  else mret q.

Inductive rq_label :=
  | RPush (trigger : RetryTrigger) (now : Z)
  | RCancel (key : string)
  | RStop
  | RStopStep (i : nat)
  | RSelect
  | RTake
  | RCheck (now : Z)
  | RDo (again : bool) (now : Z)   (* the verdict of [Do] *)
  | RPut.

(** One atomic step; [None] when the label's step is not enabled. *)
Definition rq_next (l : rq_label) (q : RetryQueue) : option (outcome () RetryQueue) :=
  match l, loop q with
  | RPush trigger now, _ => Some (Push trigger now q)
  | RCancel key, _ => Some (mret (Cancel key q))
  | RStop, _ => Some (mret (StopLoop q))
  | RStopStep i, _ => stop_next i q
  | RSelect, RqSelect => Some (mret (loop_select q))
  | RTake, RqTake => Some (loop_take q)
  | RCheck now, RqTaken trigger t => Some (mret (loop_check now trigger t q))
  | RDo again now, RqDoing trigger t => Some (mret (loop_done again now trigger t q))
  | RPut, RqPut trigger t => Some (loop_put trigger t q)
  | _, _ => None
  end.

Inductive rq_run (q0 : RetryQueue) : list rq_label → outcome () RetryQueue → Prop :=
  | rq_run_nil : rq_run q0 [] (Ret q0)
  | rq_run_snoc tr q l r : rq_run q0 tr (Ret q) → rq_next l q = Some r → rq_run q0 (tr ++ [l]) r.

(** The values of the nodes, from the head. *)
Definition queued (q : RetryQueue) : list RetryTrigger :=
  walk (size (nodes (rq_list q))) (nodes (rq_list q)) (ll_head (rq_list q)).

Definition Len (q : RetryQueue) : Z := ll_len (rq_list q).
Definition ActiveLen (q : RetryQueue) : nat := size (active q).
Definition ActiveExists (key : string) (q : RetryQueue) : bool := bool_decide (is_Some (active q !! key)).

(** The loop over the nodes stops at the hundredth active key. *)
Definition ActiveKeys (q : RetryQueue) : list string :=
  take 100 (filter (λ key, is_Some (active q !! key)) (tr_key <$> queued q)).

(** The trigger [RunLoop] holds outside the lock. *)
Definition in_hand (q : RetryQueue) : list RetryTrigger :=
  match loop q with
  | RqTaken trigger _ | RqDoing trigger _ | RqPut trigger _ => [trigger]
  | RqSelect | RqTake | RqReturned => []
  end.

(** ** No active trigger is lost *)

Definition tracked (q : RetryQueue) : Prop :=
  ∃ l, represents (rq_list q) l ∧
    ∀ key, is_Some (active q !! key) → key ∈ tr_key <$> in_hand q ++ l.

Lemma tracked_new : tracked NewRetryQueue.
Proof. exists []. split; [apply represents_empty|]. simpl. intros key [t Ht]. by rewrite lookup_empty in Ht. Qed.

Definition tracked_result (r : outcome () RetryQueue) : Prop :=
  match r with Ret q => tracked q | _ => False end.

(** Enqueuing a trigger whose key may be the only untracked one. *)
Lemma enqueue_tracked trigger q l :
  represents (rq_list q) l →
  (∀ key, is_Some (active q !! key) → key = tr_key trigger ∨ key ∈ tr_key <$> in_hand q ++ l) →
  tracked_result (enqueue trigger q).
Proof.
  intros Hl Hkeys. unfold enqueue. destruct (ll_push_spec (rq_list q) l trigger Hl) as (l' & -> & Hl').
  simpl. exists (l ++ [trigger]). destruct q as [l0 a s w c p]. split; [done|]. unfold in_hand in *. simpl in *.
  intros key Hk. rewrite app_assoc, fmap_app, elem_of_app. simpl.
  destruct (Hkeys key Hk) as [->|Hin]; [right; left|by left].
Qed.

Lemma push_tracked trigger now q : tracked q → tracked_result (Push trigger now q).
Proof.
  intros (l & Hl & Hkeys). unfold Push. case_decide as Ha; [by exists l|].
  apply (enqueue_tracked _ _ l); [by destruct q|]. intros key Hk.
  destruct q as [l0 a s w c p]. unfold in_hand in *. simpl in *. rewrite lookup_insert in Hk.
  case_decide; [by left|right; by apply Hkeys].
Qed.

Lemma take_tracked q : loop q = RqTake → tracked q → tracked_result (loop_take q).
Proof.
  intros Hloop (l & Hl & Hkeys). destruct q as [l0 a s w c p]. simpl in *. subst p. unfold loop_take, dequeue. simpl.
  pose proof (ll_pop_spec l0 l Hl) as Hpop. destruct l as [|x l].
  - rewrite Hpop. simpl. by exists [].
  - destruct Hpop as (l1 & -> & Hl1). simpl. unfold in_hand in Hkeys. simpl in Hkeys.
    exists l. split; [done|]. intros key Hk. pose proof (Hkeys key Hk) as Hin. unfold in_hand. simpl in Hk.
    destruct (a !! tr_key x) as [t|] eqn:Hx; simpl; [done|].
    apply elem_of_cons in Hin as [->|Hin]; [|done]. rewrite Hx in Hk. by destruct Hk.
Qed.

(** Steps that keep the list, with the same or fewer active keys. *)
Lemma tracked_same q q' :
  rq_list q' = rq_list q → in_hand q' = in_hand q →
  (∀ key, is_Some (active q' !! key) → is_Some (active q !! key)) → tracked q → tracked q'.
Proof. intros Hl Hh Ha (l & Hr & Hkeys). exists l. rewrite Hl, Hh. split; [done|]. intros key Hk. by apply Hkeys, Ha. Qed.

Lemma put_tracked trigger t q :
  loop q = RqPut trigger t → tracked q →
  tracked_result (loop_put trigger t q).
Proof.
  unfold loop_put. intros Hloop (l & Hl & Hkeys). destruct q as [l0 a s w c p]. simpl in *. subst p. unfold in_hand in Hkeys.
  simpl in Hkeys. case_decide as Ha.
  - apply (enqueue_tracked _ _ l); [done|]. simpl. intros key Hk. rewrite lookup_insert in Hk.
    case_decide; [by left|]. pose proof (Hkeys key Hk) as Hin. by apply elem_of_cons in Hin.
  - exists l. split; [done|]. simpl. intros key Hk. pose proof (Hkeys key Hk) as Hin.
    apply elem_of_cons in Hin as [->|Hin]; [done|done].
Qed.

(** A step of the stop channel. *)
Lemma receive_stop_tracked q q' : receive_stop q = Some q' → tracked q → tracked q' ∧ loop q' = loop q.
Proof.
  unfold receive_stop. destruct q as [l0 a s w c p]. simpl. destruct c; [by intros [= <-]|].
  destruct w as [|i w]; [done|]. intros [= <-] Ht. done.
Qed.

(** Only a call of [StopLoop] can panic. *)
Lemma rq_next_tracked l q r :
  rq_next l q = Some r → tracked q → tracked_result r ∨ r = Panic ∧ ∃ i, l = RStopStep i.
Proof.
  intros Hn Ht. unfold rq_next in Hn.
  destruct l as [trigger now|key| |i| | |now|again now|].
  - left. simplify_eq. by apply push_tracked.
  - left. simplify_eq. eapply tracked_same; [..|exact Ht]; try by destruct q.
    intros k. destruct q as [l0 a s w c p]. simpl. rewrite lookup_delete. case_decide; [by intros [? ?]|done].
  - left. simplify_eq. by destruct q.
  - unfold stop_next in Hn. destruct (stoppers q !! i) as [[]|]; [..|done]; try (injection Hn as <-).
    + left. destruct (receive_stop q) as [q'|] eqn:Hr; [|by destruct q].
      destruct (receive_stop_tracked q q' Hr Ht) as [Ht' _]. by destruct q'.
    + destruct (stop_closed q); [by eauto|left; by destruct q].
    + destruct (stop_closed q); [|done]. injection Hn as <-. by eauto.
    + destruct (stop_closed q); [by eauto|left; by destruct q].
    + done.
  - left. destruct (loop q) eqn:Hl; try done. simplify_eq. unfold loop_select. simpl.
    destruct (receive_stop q) as [q'|] eqn:Hr.
    + destruct (receive_stop_tracked q q' Hr Ht) as [(l & Hl' & Hk) Hlp]. exists l. destruct q' as [l0 a s w c p].
      split; [done|]. unfold in_hand in *. simpl in *. by rewrite Hlp, Hl in Hk.
    + destruct q as [l0 a s w c p]; simpl in *; by subst.
  - left. destruct (loop q) eqn:Hl; try done. simplify_eq. by apply take_tracked.
  - left. destruct (loop q) eqn:Hl; try done. simplify_eq. eapply tracked_same; [..|exact Ht];
      destruct q as [l0 a s w c p]; simpl in *; subst; try done. by case_decide.
  - left. destruct (loop q) eqn:Hl; try by destruct again.
    destruct q as [l0 a s w c p]; simpl in *; subst. destruct again; simplify_eq;
      (eapply tracked_same; [..|exact Ht]); try done.
    intros k. simpl. rewrite lookup_delete. case_decide; [by intros [? ?]|done].
  - left. destruct (loop q) eqn:Hl; try done. simplify_eq. by eapply put_tracked.
Qed.

(** ** The stop channel *)

Definition is_stop (l : rq_label) : bool := match l with RStop => true | _ => false end.

(** The number of calls of [StopLoop]. *)
Definition stop_calls (tr : list rq_label) : nat := length (List.filter is_stop tr).

(** [n] calls were made, the blocked ones are those queued on the channel, and
    the one that closed the channel has returned. *)
Record stop_inv (n : nat) (q : RetryQueue) : Prop := {
  st_calls : length (stoppers q) = n;
  st_queue : NoDup (stop_queue q);
  st_blocked i : i ∈ stop_queue q → stoppers q !! i = Some StopBlocked;
  st_closer : stop_closed q = true → ∃ i, stoppers q !! i = Some StopReturned;
}.

Lemma stop_inv_same n q q' :
  stoppers q' = stoppers q → stop_queue q' = stop_queue q → stop_closed q' = stop_closed q →
  stop_inv n q → stop_inv n q'.
Proof. intros Hs Hw Hc []. split; rewrite ?Hs, ?Hw, ?Hc; done. Qed.

(** A call moves on; whoever closed the channel stays returned. *)
Lemma stop_inv_move n q i pc pc' c :
  stoppers q !! i = Some pc → pc ≠ StopBlocked → pc ≠ StopReturned →
  (c = true → stop_closed q = true ∨ pc' = StopReturned) →
  stop_inv n q → stop_inv n (set_stop (<[i := pc']> (stoppers q)) (stop_queue q) c q).
Proof.
  intros Hi Hb Hr Hc [Hn Hw Hbl Hcl]. assert (i < length (stoppers q)) as Hlt by by eapply lookup_lt_Some.
  destruct q as [l0 a s w c0 p]. split; simpl in *.
  - by rewrite length_insert.
  - done.
  - intros j Hj. rewrite list_lookup_insert_ne; [by apply Hbl|]. intros ->. rewrite (Hbl j Hj) in Hi. congruence.
  - intros H1. destruct (Hc H1) as [H2| ->]; [|exists i; by apply list_lookup_insert_eq].
    destruct (Hcl H2) as [j Hj]. exists j. rewrite list_lookup_insert_ne; [done|]. congruence.
Qed.

Lemma receive_stop_inv n q q' :
  receive_stop q = Some q' → stop_inv n q →
  stop_inv n q' ∧ ∀ i, stoppers q !! i = Some StopSelect → stoppers q' !! i = Some StopSelect.
Proof.
  unfold receive_stop. destruct q as [l0 a s w c p]. simpl. destruct c; [by intros [= <-]|].
  destruct w as [|i w]; [done|]. intros [= <-] [Hn Hw Hbl _]. simpl in *. apply NoDup_cons in Hw as [Hi Hw]. split.
  - split; simpl; [by rewrite length_insert|done| |done]. intros j Hj. rewrite list_lookup_insert_ne; [|by intros ->].
    apply Hbl. by right.
  - intros j Hj. rewrite list_lookup_insert_ne; [done|]. intros ->. rewrite (Hbl j ltac:(left)) in Hj. congruence.
Qed.

Lemma stop_next_inv n i q q' : stop_next i q = Some (Ret q') → stop_inv n q → stop_inv n q'.
Proof.
  unfold stop_next. intros Hn Hi. destruct (stoppers q !! i) as [pc|] eqn:Hpc; [|done].
  destruct pc; simplify_eq.
  - destruct (receive_stop q) as [q1|] eqn:Hr.
    + destruct (receive_stop_inv n q q1 Hr Hi) as [Hi1 Hs1]. by eapply stop_inv_move; [by apply Hs1|..|exact Hi1]; auto.
    + by eapply stop_inv_move; [done|..|exact Hi]; auto.
  - destruct (stop_closed q) eqn:Hc; [done|]. injection Hn as <-.
    assert (i < length (stoppers q)) as Hlt by by eapply lookup_lt_Some.
    destruct Hi as [Hlen Hw Hbl _]. destruct q as [l0 a s w c p]. split; simpl in *.
    + by rewrite length_insert.
    + apply NoDup_app. split; [done|]. split; [|apply NoDup_singleton]. intros j Hj ->%list_elem_of_singleton.
      rewrite (Hbl _ Hj) in Hpc. congruence.
    + intros j [Hj|Hj]%elem_of_app.
      * rewrite list_lookup_insert_ne; [by apply Hbl|]. intros ->. rewrite (Hbl j Hj) in Hpc. congruence.
      * apply list_elem_of_singleton in Hj as ->. by apply list_lookup_insert_eq.
    + done.
  - by destruct (stop_closed q).
  - destruct (stop_closed q) eqn:Hc; [done|]. injection Hn as <-. by eapply stop_inv_move; [done|..|exact Hi]; auto.
Qed.

Lemma enqueue_stop n trigger q q' : enqueue trigger q = Ret q' → stop_inv n q → stop_inv n q'.
Proof.
  unfold enqueue. destruct (ll_push _ _) as [l|[]|]; [|done..]. intros [= <-]. by apply stop_inv_same; destruct q.
Qed.

Lemma rq_next_stop n l q q' :
  rq_next l q = Some (Ret q') → stop_inv n q → stop_inv (n + if is_stop l then 1 else 0) q'.
Proof.
  intros Hn Hi. unfold rq_next in Hn. destruct l as [trigger now|key| |i| | |now|again now|]; simpl; rewrite ?Nat.add_0_r.
  - injection Hn as Hn. unfold Push in Hn. case_decide; [by injection Hn as <-|]. eapply enqueue_stop; [exact Hn|].
    revert Hi. by apply stop_inv_same; destruct q.
  - injection Hn as <-. revert Hi. by apply stop_inv_same; destruct q.
  - injection Hn as <-. destruct Hi as [Hn Hw Hbl Hcl]. destruct q as [l0 a s w c p]. split; simpl in *.
    + rewrite length_app. simpl. lia.
    + done.
    + intros i Hin. by apply lookup_app_l_Some, Hbl.
    + intros Hc. destruct (Hcl Hc) as [i Hi]. exists i. by apply lookup_app_l_Some.
  - by eapply stop_next_inv.
  - destruct (loop q); try done. injection Hn as <-. unfold loop_select. destruct (receive_stop q) as [q1|] eqn:Hr.
    + destruct (receive_stop_inv n q q1 Hr Hi) as [Hi1 _]. revert Hi1. by apply stop_inv_same; destruct q1.
    + revert Hi. by apply stop_inv_same; destruct q.
  - destruct (loop q); try done. injection Hn as Hn. unfold loop_take, dequeue in Hn.
    destruct (ll_pop _) as [[x l]|[]|]; [|done..]. injection Hn as <-. revert Hi. by apply stop_inv_same; destruct q.
  - destruct (loop q); try done. injection Hn as <-. revert Hi. by apply stop_inv_same; destruct q.
  - destruct (loop q), again; try done; injection Hn as <-; revert Hi; by apply stop_inv_same; destruct q.
  - destruct (loop q); try done. injection Hn as Hn. unfold loop_put in Hn. case_decide.
    + eapply enqueue_stop; [exact Hn|]. revert Hi. by apply stop_inv_same; destruct q.
    + injection Hn as <-. revert Hi. by apply stop_inv_same; destruct q.
Qed.

(** Whoever panics meets a channel that another call has closed. *)
Lemma stop_next_panic n i q :
  stop_next i q = Some Panic → stop_inv n q → stop_closed q = true ∧ 2 ≤ n.
Proof.
  unfold stop_next. intros Hn [<- _ _ Hcl]. destruct (stoppers q !! i) as [pc|] eqn:Hi; [|done].
  assert (stop_closed q = true ∧ pc ≠ StopReturned) as [Hc Hpc].
  { destruct pc; simplify_eq; destruct (stop_closed q); done. }
  split; [done|]. destruct (Hcl Hc) as [j Hj]. assert (i ≠ j) by congruence.
  apply lookup_lt_Some in Hi, Hj. lia.
Qed.

Lemma rq_run_inv tr q :
  rq_run NewRetryQueue tr (Ret q) → tracked q ∧ stop_inv (stop_calls tr) q.
Proof.
  intros Hrun. remember (Ret q) as r eqn:Hr. revert q Hr. induction Hrun as [|tr q0 l r _ IH Hn]; intros q.
  - intros [= <-]. split; [apply tracked_new|]. split; simpl; [done|constructor|by intros i ?%elem_of_nil|done].
  - intros ->. destruct (IH q0 eq_refl) as [Ht Hs]. split.
    + by destruct (rq_next_tracked l q0 _ Hn Ht) as [|[? _]].
    + unfold stop_calls. rewrite List.filter_app, length_app. simpl. pose proof (rq_next_stop _ l q0 q Hn Hs) as Hq.
      unfold stop_calls in Hq. by destruct (is_stop l).
Qed.

(** C34. The retry queue never loses an active trigger: in every execution, with
    any interleaving of [Push], [Cancel] and the steps of calls of [StopLoop]
    with the steps of [RunLoop], and any outcomes of the triggers, every active
    key has a trigger in the queue or in [RunLoop]'s hands.  The loop, [Push]
    and [Cancel] never panic; the only panics are those of a call of
    [StopLoop] that sends on or closes the channel after another call of
    [StopLoop] has closed it. *)
Theorem active_triggers_never_lost tr r :
  rq_run NewRetryQueue tr r →
  (∃ q l, r = Ret q ∧ represents (rq_list q) l ∧
    ∀ key, is_Some (active q !! key) → ∃ trigger, trigger ∈ in_hand q ++ l ∧ tr_key trigger = key) ∨
  r = Panic ∧ ∃ tr' q i, tr = tr' ++ [RStopStep i] ∧ rq_run NewRetryQueue tr' (Ret q) ∧
    stop_closed q = true ∧ 2 ≤ stop_calls tr'.
Proof.
  intros Hrun. destruct Hrun as [|tr q l r Hrun Hn].
  - left. destruct tracked_new as (l & Hl & Hk). exists NewRetryQueue, l. split; [done|]. split; [done|].
    intros key [t Ht]. simpl in Ht. by rewrite lookup_empty in Ht.
  - destruct (rq_run_inv tr q Hrun) as [Ht Hs]. destruct (rq_next_tracked l q r Hn Ht) as [Hr|[-> [i ->]]].
    + left. destruct r as [q'|[]|]; [|done..]. destruct Hr as (l' & Hl & Hkeys). exists q', l'. split; [done|].
      split; [done|]. intros key Hk. specialize (Hkeys key Hk). apply list_elem_of_fmap in Hkeys as (x & -> & Hin). eauto.
    + right. split; [done|]. destruct (stop_next_panic _ i q Hn Hs) as [Hc H2]. exists tr, q, i. by split_and!.
Qed.

(** Runs a trace where every label is enabled and nothing panics. *)
Definition rq_exec (q0 : RetryQueue) (tr : list rq_label) : option RetryQueue :=
  foldl (λ q l, q ← q; r ← rq_next l q; match r with Ret q => Some q | _ => None end) (Some q0) tr.

Lemma rq_exec_run q0 tr q : rq_exec q0 tr = Some q → rq_run q0 tr (Ret q).
Proof.
  revert q. induction tr as [|l tr IH] using rev_ind; intros q.
  - intros [= <-]. constructor.
  - unfold rq_exec. rewrite foldl_app. simpl. fold (rq_exec q0 tr).
    intros (q1 & Hq1 & (r & Hr & Hq)%bind_Some)%bind_Some. destruct r; simplify_eq. econstructor; eauto.
Qed.
End retry_queue.
Arguments RetryTrigger D : clear implicits.
Arguments RetryQueue D : clear implicits.
Arguments rq_label D : clear implicits.

(** ** An execution *)

(** A trigger stops itself while its key is pushed again. *)
Definition demo_trigger (key : string) : RetryTrigger () :=
  {| tr_key := key; tr_timeout := 15 * Second; tr_do := () |}.
Definition demo_trace : list (rq_label ()) :=
  [RPush (demo_trigger "w") 0; RSelect; RTake; RCheck (20 * Second); RDo false (20 * Second);
   RPush (demo_trigger "w") (20 * Second); RPut].

Definition demo_queue : RetryQueue () := default NewRetryQueue (rq_exec NewRetryQueue demo_trace).

Lemma demo_queue_run : rq_run NewRetryQueue demo_trace (Ret demo_queue).
Proof. apply rq_exec_run. vm_compute. reflexivity. Qed.

Lemma active_triggers_never_lost_witness :
  ActiveExists "w" demo_queue = true ∧
  ∃ l trigger, represents (rq_list demo_queue) l ∧ trigger ∈ in_hand demo_queue ++ l ∧ tr_key trigger = "w".
Proof.
  split; [vm_compute; reflexivity|].
  destruct (active_triggers_never_lost demo_trace _ demo_queue_run) as [(q & l & Hq & Hl & Hk)|[Hp _]];
    [|discriminate Hp].
  injection Hq as <-. destruct (Hk "w") as (trigger & Hin & Hkey); [vm_compute; by eexists|].
  exists l, trigger. split; [exact Hl|]. split; [exact Hin|exact Hkey].
Defined.

(** Two concurrent calls of [StopLoop] panic: both find nobody sending and
    block in their own send; the loop receives one value and returns, that
    call closes the channel, and the other call's send panics. *)
Definition two_stops : list (rq_label ()) :=
  [RStop; RStop; RStopStep 0; RStopStep 1; RStopStep 0; RStopStep 1; RSelect; RStopStep 0].

Theorem concurrent_stops_panic :
  rq_run (D := ()) NewRetryQueue (two_stops ++ [RStopStep 1]) Panic.
Proof.
  apply (rq_run_snoc _ two_stops (default NewRetryQueue (rq_exec NewRetryQueue two_stops))); [|vm_compute; reflexivity].
  apply rq_exec_run. vm_compute. reflexivity.
Qed.

(** A key can be in the queue twice.  When [Do] ends a trigger and the
    same key is pushed before [RunLoop] has put the trigger back, the loop
    takes the new entry for its own and re-queues the old trigger next to the
    new one, both active from then on. *)
Theorem push_during_do_duplicates :
  ∃ (tr : list (rq_label ())) q, rq_run NewRetryQueue tr (Ret q) ∧
    tr_key <$> queued q = ["w"; "w"] ∧ ActiveLen q = 1 ∧ Len q = 2%Z.
Proof.
  exists demo_trace, demo_queue. split; [apply demo_queue_run|]. vm_compute. auto.
Qed.
