(* ===== verification/Registry.v ===== *)
(** * The worker registry

    [orchestration/registry.go]: the registered workers, the dead man's switch
    that probes their heartbeats through the retry queue, and the hooks run
    when a worker is declared dead.  Workers live in the map and are never
    removed or replaced, so a [*domain.WorkerNode] is its key.  [time.Now()]
    is an argument of each operation. *)

From stdpp Require Import base gmap strings list.
From Stdlib Require Import ZArith Lia.
From S2P Require Import Prelude Status Domain LinkedList RetryQueue.

Definition heartbeatGracePeriod : Z := 15 * Second.

Inductive registry_error := WorkerNotFound (workerID : string).

(** Assignments to the fields a re-registration replaces. *)
Definition set_registration (w : WorkerNode) (n : WorkerNode) : WorkerNode :=
  {| node_ID := node_ID n; Address := Address w; Labels := Labels w; Capabilities := Capabilities w;
     Capacity := Capacity w; RunningTasks := RunningTasks n; LastHeartbeat := LastHeartbeat n;
     node_status := node_status n |}.

Section registry.
Context `{W : World} {HK : Type}.   (* HK: the death hooks *)

(** A trigger's closure captures the worker's ID. *)
Record WorkerRegistry := {
  workers : gmap string WorkerNode;
  retryQueue : RetryQueue string;
  onDeadHooks : list HK;
  reg_tick : nat;
}.

Definition set_workers v (r : WorkerRegistry) : WorkerRegistry :=
  let 'Build_WorkerRegistry _ q h t := r in Build_WorkerRegistry v q h t.
Definition set_retryQueue v (r : WorkerRegistry) : WorkerRegistry :=
  let 'Build_WorkerRegistry w _ h t := r in Build_WorkerRegistry w v h t.

Definition NewWorkerRegistry : WorkerRegistry :=
  {| workers := ∅; retryQueue := NewRetryQueue; onDeadHooks := []; reg_tick := 0 |}.

Definition OnWorkerDead (hook : HK) (r : WorkerRegistry) : WorkerRegistry :=
  let 'Build_WorkerRegistry w q h t := r in Build_WorkerRegistry w q (h ++ [hook]) t.

(** The part of [Register] under the lock, and its [Push]. *)
Definition register_store (w : WorkerNode) (now : Z) (r : WorkerRegistry) : WorkerRegistry :=
  match workers r !! node_ID w with
  | Some existing =>
      set_workers (<[node_ID w := SetAlive (set_LastHeartbeat now (set_registration w existing))]> (workers r)) r
  | None => set_workers (<[node_ID w := set_LastHeartbeat now w]> (workers r)) r
  end.

Definition heartbeat_trigger (workerID : string) : RetryTrigger string :=
  {| tr_key := workerID; tr_timeout := heartbeatGracePeriod; tr_do := workerID |}.

Definition register_push (workerID : string) (now : Z) (r : WorkerRegistry) : outcome () WorkerRegistry :=
  q ← Push (heartbeat_trigger workerID) now (retryQueue r); mret (set_retryQueue q r).

Definition Register (w : WorkerNode) (now : Z) (r : WorkerRegistry) : outcome () WorkerRegistry :=
  register_push (node_ID w) now (register_store w now r).

Definition Heartbeat (workerID : string) (runningTasks now : Z) (r : WorkerRegistry)
    : option registry_error * WorkerRegistry :=
  match workers r !! workerID with
  | None => (Some (WorkerNotFound workerID), r)
  | Some wnode =>
      (None, set_workers
               (<[workerID := SetAlive (set_LastHeartbeat now (set_RunningTasks runningTasks wnode))]> (workers r)) r)
  end.

(** The snapshot, in the order of one iteration of the map. *)
Definition AliveWorkers (r : WorkerRegistry) : list WorkerNode * WorkerRegistry :=
  (omap (λ k, w ← workers r !! k; if WorkerNode_IsReady w then Some w else None)
     (range_keys (reg_tick r) (workers r)),
   let 'Build_WorkerRegistry w q h t := r in Build_WorkerRegistry w q h (S t)).

Definition IncrementRunning (workerID : string) (r : WorkerRegistry) : WorkerRegistry :=
  match workers r !! workerID with
  | None => r
  | Some wnode => set_workers (<[workerID := set_RunningTasks (wrap64 (RunningTasks wnode + 1)) wnode]> (workers r)) r
  end.

Definition AddressOf (workerID : string) (r : WorkerRegistry) : string :=
  match workers r !! workerID with Some wnode => Address wnode | None => "" end.

(** ** The dead man's switch *)

(** [updateWorkerStatus] returns the hooks it called, in order. *)
Definition updateWorkerStatus (workerID : string) (status : WorkerStatus) (r : WorkerRegistry)
    : list HK * WorkerRegistry :=
  match workers r !! workerID with
  | None => ([], r)
  | Some wnode =>
      match status with
      | WorkerAlive => ([], set_workers (<[workerID := SetAlive wnode]> (workers r)) r)
      | WorkerSuspect => ([], set_workers (<[workerID := SetSuspect wnode]> (workers r)) r)
      | WorkerDead => (onDeadHooks r, set_workers (<[workerID := SetDead wnode]> (workers r)) r)
      end
  end.

(** What [checkHeartbeat] decides from its unlocked reads: nothing to do
    (return false), or a status to set and the value to return. *)
Definition checkVerdict (workerID : string) (now : Z) (r : WorkerRegistry) : option (WorkerStatus * bool) :=
  match workers r !! workerID with
  | None => None
  | Some worker =>
      if decide (WorkerNode_GetStatus worker = WorkerDead) then None
      else if decide (now - LastHeartbeat worker > heartbeatGracePeriod)%Z then
        if decide (WorkerNode_GetStatus worker = WorkerAlive) then Some (WorkerSuspect, true)
        else Some (WorkerDead, false)
      else Some (WorkerAlive, true)
  end.
End registry.
Arguments WorkerRegistry HK : clear implicits.

(** ** The probe *)

Section props.
Context `{W : World} {HK : Type}.
Implicit Types (r : WorkerRegistry HK).

Lemma workers_set_workers v r : workers (set_workers v r) = v.
Proof. by destruct r. Qed.
Lemma workers_set_retryQueue v r : workers (set_retryQueue v r) = workers r.
Proof. by destruct r. Qed.
Lemma retryQueue_set_workers v r : retryQueue (set_workers v r) = retryQueue r.
Proof. by destruct r. Qed.
Lemma retryQueue_set_retryQueue v r : retryQueue (set_retryQueue v r) = v.
Proof. by destruct r. Qed.
#[local] Hint Rewrite workers_set_workers workers_set_retryQueue retryQueue_set_workers
  retryQueue_set_retryQueue : orc.

(** The dead man's switch.  A probe gives up on a worker (it is not repeated)
    exactly when the worker is unknown or already DEAD, or when it has been
    SUSPECT since an earlier probe and its heartbeat is still stale: it is then
    declared DEAD.  Otherwise a fresh heartbeat makes it ALIVE and a stale one
    SUSPECT. *)
Theorem checkVerdict_correct workerID now r :
  match workers r !! workerID with
  | None => checkVerdict workerID now r = None
  | Some n =>
      let stale := (now - LastHeartbeat n > heartbeatGracePeriod)%Z in
      (node_status n = WorkerDead → checkVerdict workerID now r = None) ∧
      (node_status n ≠ WorkerDead → ¬ stale → checkVerdict workerID now r = Some (WorkerAlive, true)) ∧
      (node_status n = WorkerAlive → stale → checkVerdict workerID now r = Some (WorkerSuspect, true)) ∧
      (node_status n = WorkerSuspect → stale → checkVerdict workerID now r = Some (WorkerDead, false))
  end.
Proof.
  unfold checkVerdict, WorkerNode_GetStatus. destruct (workers r !! workerID) as [n|]; [|done]. cbn zeta.
  destruct (node_status n); split_and!; intros; simplify_eq; repeat case_decide; done.
Qed.

(** Giving up. *)
Lemma checkVerdict_gives_up workerID now r status :
  checkVerdict workerID now r = Some (status, false) →
  ∃ n, workers r !! workerID = Some n ∧ status = WorkerDead ∧ node_status n = WorkerSuspect ∧
    (now - LastHeartbeat n > heartbeatGracePeriod)%Z.
Proof.
  unfold checkVerdict, WorkerNode_GetStatus. destruct (workers r !! workerID) as [n|] eqn:Hn; [|done].
  repeat case_decide; intros [= <-]. exists n. split_and!; try done. by destruct (node_status n).
Qed.

Lemma checkVerdict_none workerID now r :
  checkVerdict workerID now r = None →
  workers r !! workerID = None ∨ ∃ n, workers r !! workerID = Some n ∧ node_status n = WorkerDead.
Proof.
  unfold checkVerdict, WorkerNode_GetStatus. destruct (workers r !! workerID) as [n|] eqn:Hn; [|by left].
  repeat case_decide; intros; simplify_eq. eauto.
Qed.

(** Setting a status touches neither the queue nor the other fields; the hooks
    run when it is DEAD. *)
Lemma updateWorkerStatus_spec workerID status r :
  let '(hooks, r') := updateWorkerStatus workerID status r in
  workers r' = alter (set_node_status status) workerID (workers r) ∧ retryQueue r' = retryQueue r ∧
  hooks = (if decide (status = WorkerDead ∧ is_Some (workers r !! workerID)) then onDeadHooks r else []).
Proof.
  unfold updateWorkerStatus. destruct (workers r !! workerID) as [n|] eqn:Hn.
  - destruct status; simpl; autorewrite with orc; (split; [|split; [done|try case_decide; naive_solver]]).
    all: apply map_eq; intros id; rewrite lookup_insert, lookup_alter; case_decide; subst; by rewrite ?Hn.
  - split; [|split; [done|]]; [|rewrite decide_False; [done|intros [_ [? ?]]; congruence]].
    apply map_eq. intros id. rewrite lookup_alter. case_decide; subst; by rewrite ?Hn.
Qed.
End props.
