(* ===== verification/Scheduler.v ===== *)
(** * The scheduler

    [scheduler/scheduler.go]: the choice of a worker for a job, and one
    scheduling pass.  [assignOnce] runs in its own goroutine and takes one
    lock after another, so a pass is a sequence of atomic steps ([sched_pc])
    between which the engine and the registry serve other calls; [System.v]
    puts the steps together with theirs. *)

From stdpp Require Import base gmap strings list sorting.
From Stdlib Require Import ZArith Lia.
From S2P Require Import Prelude Status Domain GoFloat Jobs.

(** ** [sort.Slice]

    Up to 12 elements the library sorts by insertion: each element moves left
    past the elements it is less than.  For longer slices it runs a
    pattern-defeating quicksort, of which only the documented contract is
    used. *)
Fixpoint insert_back {A} (less : A → A → bool) (x : A) (rl : list A) : list A :=
  match rl with
  | [] => [x]
  | y :: rl => if less x y then y :: insert_back less x rl else x :: y :: rl
  end.

(** The sorted prefix is kept in reverse. *)
Definition insertion_sort {A} (less : A → A → bool) (l : list A) : list A :=
  reverse (foldl (λ rl x, insert_back less x rl) [] l).

(** A strict weak order. *)
Record swo {A} (less : A → A → bool) (P : A → Prop) : Prop := {
  swo_asym x y : P x → P y → less x y = true → less y x = false;
  swo_trans x y z : P x → P y → P z → less x y = false → less y z = false → less x z = false;
}.

Class LargeSort := {
  large_sort {A} (less : A → A → bool) (l : list A) : list A;
  large_sort_perm {A} (less : A → A → bool) (l : list A) : large_sort less l ≡ₚ l;
  large_sort_sorted {A} (less : A → A → bool) (l : list A) :
    swo less (λ x, x ∈ l) → StronglySorted (λ x y, less y x = false) (large_sort less l);
}.

Definition sort_Slice `{LargeSort} {A} (less : A → A → bool) (l : list A) : list A :=
  if decide (length l ≤ 12) then insertion_sort less l else large_sort less l.

(** ** The choice of a worker *)

Definition load (w : WorkerNode) : float64 := f64_div (f64_of_int (RunningTasks w)) (f64_of_int (Capacity w)).

(** The comparison given to [sort.Slice]. *)
Definition worker_less (w1 w2 : WorkerNode) : bool :=
  let load1 := load w1 in
  let load2 := load w2 in
  if negb (f64_eqb load1 load2) then f64_ltb load1 load2
  else bool_decide (Capacity w1 > Capacity w2)%Z.

Inductive select_error :=
  | EmptyWorkers
  | NoWorkerFound (taskType : string).

Definition selectWorker `{LargeSort} (workers : list WorkerNode) (taskType : string) : select_error + string :=
  if bool_decide (workers = []) then inl EmptyWorkers
  else
    let candidates := filter (λ w, taskType ∈ Capabilities w) workers in
    match candidates with
    | [] => inl (NoWorkerFound taskType)
    | _ => match sort_Slice worker_less candidates with
           | w :: _ => inr (node_ID w)
           | [] => inl (NoWorkerFound taskType)
           end
    end.

(** ** Correctness of the sort *)

Section sort.
Context {A : Type} (less : A → A → bool) (P : A → Prop) (Hswo : swo less P).

Lemma insert_back_perm x rl : insert_back less x rl ≡ₚ x :: rl.
Proof. induction rl as [|y rl IH]; simpl; [done|]. case_match; [|done]. rewrite IH. apply Permutation_swap. Qed.

#[local] Abbreviation descending := (StronglySorted (λ x y, less x y = false)).

Lemma insert_back_sorted x rl :
  P x → Forall P rl → descending rl → descending (insert_back less x rl).
Proof.
  intros Hx. induction rl as [|y rl IH]; intros HP Hs; simpl; [by repeat constructor|].
  apply Forall_cons in HP as [Hy HP]. apply StronglySorted_inv in Hs as [Hs Hall].
  destruct (less x y) eqn:Hxy.
  - constructor; [by apply IH|]. rewrite insert_back_perm. constructor; [by apply (swo_asym _ _ Hswo)|done].
  - constructor; [by constructor|]. constructor; [done|]. rewrite Forall_forall in *.
    intros z Hz. apply (swo_trans _ _ Hswo x y z); auto.
Qed.

Lemma insertion_sort_perm l : insertion_sort less l ≡ₚ l.
Proof.
  unfold insertion_sort. rewrite reverse_Permutation.
  enough (∀ acc, foldl (λ rl x, insert_back less x rl) acc l ≡ₚ l ++ acc) as Hgen by (by rewrite Hgen, app_nil_r).
  induction l as [|x l IH]; intros acc; simpl; [done|]. by rewrite IH, insert_back_perm, Permutation_middle.
Qed.

Lemma insertion_sort_sorted l :
  Forall P l → StronglySorted (λ x y, less y x = false) (insertion_sort less l).
Proof.
  intros HP. unfold insertion_sort.
  assert (∀ acc, Forall P acc → descending acc → descending (foldl (λ rl x, insert_back less x rl) acc l)) as Hgen.
  { induction HP as [|x l Hx HP IH]; intros acc Hacc Hs; simpl; [done|]. apply IH.
    - rewrite insert_back_perm. by constructor.
    - by apply insert_back_sorted. }
  specialize (Hgen [] (List.Forall_nil _) (SSorted_nil _)). revert Hgen.
  generalize (foldl (λ rl x, insert_back less x rl) [] l) as rl. clear. intros rl Hs.
  induction Hs as [|x rl Hs IH Hall]; [constructor|]. rewrite reverse_cons.
  apply StronglySorted_app_2; [|done|by repeat constructor].
  intros y z Hy Hz. apply list_elem_of_singleton in Hz as ->. rewrite elem_of_reverse in Hy.
  by eapply Forall_forall in Hall.
Qed.
End sort.

Lemma sort_Slice_perm `{LargeSort} {A} (less : A → A → bool) l : sort_Slice less l ≡ₚ l.
Proof. unfold sort_Slice. case_decide; [apply insertion_sort_perm|apply large_sort_perm]. Qed.

Lemma sort_Slice_sorted `{LargeSort} {A} (less : A → A → bool) l :
  swo less (λ x, x ∈ l) → StronglySorted (λ x y, less y x = false) (sort_Slice less l).
Proof.
  intros Hs. unfold sort_Slice. case_decide; [|by apply large_sort_sorted].
  eapply insertion_sort_sorted; [exact Hs|]. by apply Forall_forall.
Qed.

(** The sort the examples use for long slices as well. *)
#[export] Program Instance insertion_large : LargeSort := {| large_sort := @insertion_sort |}.
Next Obligation. intros A less l. apply insertion_sort_perm. Qed.
Next Obligation.
  intros A less l Hs. eapply insertion_sort_sorted; [exact Hs|]. by apply Forall_forall.
Qed.

(** ** Correctness of the choice *)

Section select.
Context `{LargeSort}.
Implicit Types (w c : WorkerNode) (ws : list WorkerNode).

(** A worker whose load is a number: its capacity is not zero, and both
    counters are in the range of the program's integers. *)
Definition load_ok w : Prop :=
  Capacity w ≠ 0%Z ∧ (Z.abs (Capacity w) < 2 ^ 53)%Z ∧ (Z.abs (RunningTasks w) < 2 ^ 63)%Z.

Lemma load_not_nan w : load_ok w → load w ≠ SpecFloat.S754_nan.
Proof.
  intros (Hc & Hcb & Hr). unfold load. apply f64_div_not_nan.
  - apply f64_of_int_not_nan.
  - apply f64_of_int_not_nan.
  - intros s. by apply f64_of_int_finite.
  - intros s s' [_ Hz]. by apply (f64_of_int_nonzero (Capacity w) s').
Qed.

Lemma worker_less_rank w c :
  load_ok w → load_ok c →
  worker_less w c = true ↔
    rank_lt (rank (load w)) (rank (load c)) ∨ rank (load w) = rank (load c) ∧ (Capacity w > Capacity c)%Z.
Proof.
  intros Hw%load_not_nan Hc%load_not_nan. unfold worker_less.
  pose proof (f64_eqb_rank _ _ Hw Hc) as He. pose proof (f64_ltb_rank _ _ Hw Hc) as Hl.
  destruct (f64_eqb (load w) (load c)); simpl.
  - assert (rank (load w) = rank (load c)) as Heq by tauto. rewrite bool_decide_eq_true. split; [by auto|].
    intros [Hlt|[_ ?]]; [|done]. by apply rank_lt_irrefl in Hlt.
  - rewrite Hl. split; [by auto|]. intros [?|[Heq _]]; [done|]. by apply He in Heq.
Qed.

Lemma worker_less_swo : swo worker_less load_ok.
Proof.
  split.
  - intros w c Hw Hc. rewrite <-not_true_iff_false, !worker_less_rank by done.
    intros [Hlt|[Heq Hcap]] [Hlt'|[Heq' Hcap']].
    + by apply rank_lt_asym in Hlt.
    + rewrite Heq' in Hlt. by apply rank_lt_irrefl in Hlt.
    + rewrite Heq in Hlt'. by apply rank_lt_irrefl in Hlt'.
    + lia.
  - intros x y z Hx Hy Hz. rewrite <-!not_true_iff_false, !worker_less_rank by done. intros H1 H2 H3.
    destruct (rank_lt_total (rank (load x)) (rank (load y))) as [Hlt|[Hxy|Hlt]]; [by apply H1; left| |].
    + destruct (rank_lt_total (rank (load y)) (rank (load z))) as [Hlt|[Hyz|Hlt]]; [by apply H2; left| |].
      * destruct H3 as [Hlt|[_ Hcap]]; [rewrite Hxy, Hyz in Hlt; by apply rank_lt_irrefl in Hlt|].
        assert (¬ (Capacity x > Capacity y)%Z) by (intros ?; apply H1; by right).
        assert (¬ (Capacity y > Capacity z)%Z) by (intros ?; apply H2; by right). lia.
      * rewrite <-Hxy in Hlt. destruct H3 as [Hlt'|[Heq _]]; [by apply rank_lt_asym in Hlt|].
        rewrite Heq in Hlt. by apply rank_lt_irrefl in Hlt.
    + assert (rank_lt (rank (load y)) (rank (load z))) as Hyz.
      { destruct H3 as [Hlt'|[<- _]]; [by eapply rank_lt_trans|done]. }
      apply H2. by left.
Qed.

Definition candidate (taskType : string) ws c : Prop := c ∈ ws ∧ taskType ∈ Capabilities c.

(** The selected worker heads the sorted candidates. *)
Lemma selectWorker_head ws taskType :
  match selectWorker ws taskType with
  | inl EmptyWorkers => ws = []
  | inl (NoWorkerFound t) => t = taskType ∧ ws ≠ [] ∧ ∀ c, ¬ candidate taskType ws c
  | inr id => ∃ w rest, sort_Slice worker_less (filter (λ w, taskType ∈ Capabilities w) ws) = w :: rest ∧
      node_ID w = id
  end.
Proof.
  unfold selectWorker. case_bool_decide as Hws; [done|].
  destruct (filter (λ w, taskType ∈ Capabilities w) ws) as [|c0 cs] eqn:Heq.
  - split_and!; [done..|]. intros c [Hin Hcap].
    assert (c ∈ filter (λ w, taskType ∈ Capabilities w) ws) as Hc by (by apply list_elem_of_filter).
    rewrite Heq in Hc. by apply elem_of_nil in Hc.
  - destruct (sort_Slice worker_less _) as [|w rest] eqn:Hs; [|by exists w, rest].
    exfalso. pose proof (sort_Slice_perm worker_less (c0 :: cs)) as Hp. rewrite Hs in Hp.
    by apply Permutation_nil_cons in Hp.
Qed.

(** Choosing a worker never panics and fails only for want of one: the
    result is an error exactly when there are no workers, or none with the
    job's type among its capabilities, and otherwise a worker of the snapshot
    that has the capability. *)
Theorem selectWorker_finds_capable ws taskType :
  match selectWorker ws taskType with
  | inl EmptyWorkers => ws = []
  | inl (NoWorkerFound t) => t = taskType ∧ ws ≠ [] ∧ ∀ c, ¬ candidate taskType ws c
  | inr id => ∃ w, candidate taskType ws w ∧ node_ID w = id
  end.
Proof.
  pose proof (selectWorker_head ws taskType) as Hsel. destruct (selectWorker ws taskType) as [[|t]|id]; [done..|].
  destruct Hsel as (w & rest & Hs & Hid). exists w. split; [|done].
  assert (w ∈ filter (λ w, taskType ∈ Capabilities w) ws) as Hin.
  { rewrite <-(sort_Slice_perm worker_less), Hs. left. }
  apply list_elem_of_filter in Hin as [? ?]. done.
Qed.

(** C37. The least loaded worker is chosen: when no candidate's capacity is
    zero and the counters are in range, no other candidate has a smaller load,
    and among those with an equal load none has a larger capacity.  Loads are
    IEEE double quotients, as the program computes them. *)
Theorem selectWorker_least_loaded ws taskType id :
  (∀ c, candidate taskType ws c → load_ok c) →
  selectWorker ws taskType = inr id →
  ∃ w, candidate taskType ws w ∧ node_ID w = id ∧
    ∀ c, candidate taskType ws c →
      f64_ltb (load c) (load w) = false ∧
      (f64_eqb (load c) (load w) = true → (Capacity c ≤ Capacity w)%Z).
Proof.
  intros Hok Hsel. pose proof (selectWorker_head ws taskType) as Hhead. rewrite Hsel in Hhead.
  destruct Hhead as (w & rest & Hs & Hid). set (cs := filter _ ws) in *.
  assert (∀ c, c ∈ cs ↔ candidate taskType ws c) as Hcs.
  { intros c. unfold cs, candidate. rewrite list_elem_of_filter. tauto. }
  assert (swo worker_less (λ x, x ∈ cs)) as Hswo.
  { destruct worker_less_swo as [Ha Ht]. split; intros; [apply Ha|eapply Ht]; eauto; by apply Hok, Hcs. }
  apply (sort_Slice_sorted worker_less) in Hswo. rewrite Hs in Hswo. apply StronglySorted_inv in Hswo as [_ Hall].
  assert (w ∈ cs) as Hw by (rewrite <-(sort_Slice_perm worker_less), Hs; left).
  exists w. split; [by apply Hcs|]. split; [done|]. intros c Hc.
  assert (worker_less c w = false) as Hless.
  { apply Hcs in Hc as Hin. rewrite <-(sort_Slice_perm worker_less), Hs in Hin. apply elem_of_cons in Hin as [->|Hin].
    - apply Hcs, Hok in Hw as Hlw. apply not_true_iff_false. rewrite worker_less_rank by done.
      intros [Hlt|[_ ?]]; [by apply rank_lt_irrefl in Hlt|lia].
    - by eapply Forall_forall in Hall. }
  apply Hok in Hc as Hlc. apply Hcs, Hok in Hw as Hlw.
  rewrite <-not_true_iff_false, worker_less_rank in Hless by done. split.
  - apply not_true_iff_false. rewrite f64_ltb_rank by (by apply load_not_nan). tauto.
  - rewrite f64_eqb_rank by (by apply load_not_nan). intros Heq. destruct (decide (Capacity c ≤ Capacity w)%Z); [done|].
    destruct Hless. right. split; [done|lia].
Qed.
End select.

(** ** Executions *)

Section demo.

Definition node (id : string) (capacity runningTasks : Z) : WorkerNode :=
  {| node_ID := id; Address := id; Labels := ∅; Capabilities := ["shell"]; Capacity := capacity;
     RunningTasks := runningTasks; LastHeartbeat := 0; node_status := WorkerAlive |}.

Lemma selectWorker_least_loaded_witness :
  selectWorker [node "a" 4 2; node "b" 8 4; node "c" 2 2] "shell" = inr "b" ∧
  ∃ w, candidate "shell" [node "a" 4 2; node "b" 8 4; node "c" 2 2] w ∧ node_ID w = "b" ∧
    ∀ c, candidate "shell" [node "a" 4 2; node "b" 8 4; node "c" 2 2] c →
      f64_ltb (load c) (load w) = false ∧ (f64_eqb (load c) (load w) = true → (Capacity c ≤ Capacity w)%Z).
Proof.
  split; [vm_compute; reflexivity|].
  apply (selectWorker_least_loaded [node "a" 4 2; node "b" 8 4; node "c" 2 2] "shell" "b");
    [|vm_compute; reflexivity].
  intros c [Hc _]. unfold load_ok.
  repeat (apply elem_of_cons in Hc as [->|Hc]; [simpl; lia|]). by apply elem_of_nil in Hc.
Defined.

(** A zero capacity spoils the choice.  The load of an idle worker
    registered with capacity 0 is NaN, which no load is less than; placed
    between the others in the snapshot it keeps a fully loaded worker in front
    of an idle one, although without it the idle one is chosen. *)
Theorem zero_capacity_hides_idle_worker :
  let busy := node "busy" 4 4 in
  let idle := node "idle" 4 0 in
  let broken := node "broken" 0 0 in
  selectWorker [busy; broken; idle] "shell" = inr "busy" ∧
  selectWorker [busy; idle] "shell" = inr "idle" ∧
  f64_ltb (load idle) (load busy) = true.
Proof. vm_compute. split_and!; reflexivity. Qed.
End demo.
