(* ===== verification/Client.v ===== *)
(** * The control plane's worker client

    [client/worker_client.go]: one gRPC connection per worker, dialed on first
    use at the address the registry resolves and closed when the worker is
    declared dead.  [getOrDial] holds the client's mutex while it asks the
    registry for the address (which takes the registry's), so it is given in
    two steps: the lookup under the mutex, and the dial.

    [grpc.NewClient] is the library's: an argument that gives the connection
    for an address, or fails. *)

From stdpp Require Import base gmap strings list.
From S2P Require Import Prelude.

Section client.
Context {Conn : Type} (NewClient : string → option Conn).

(** [GRPCWorkerClient.conns] *)
Definition Conns : Type := gmap string Conn.
Implicit Types (conns : Conns) (workerID addr : string).

Definition NewWorkerClient : Conns := ∅.

(** The connection if there is one; otherwise the dial comes next. *)
Definition getOrDial_cached workerID conns : option Conn := conns !! workerID.

(** The rest of [getOrDial], with the resolved address. *)
Definition getOrDial_dial workerID addr conns : option Conn * Conns :=
  match NewClient addr with
  | None => (None, conns)
  | Some conn => (Some conn, <[workerID := conn]> conns)
  end.

(** The whole call when nothing comes between. *)
Definition getOrDial (AddressOf : string → string) workerID conns : option Conn * Conns :=
  match getOrDial_cached workerID conns with
  | Some conn => (Some conn, conns)
  | None => getOrDial_dial workerID (AddressOf workerID) conns
  end.

Definition CloseConn workerID conns : Conns := delete workerID conns.

(** Dialing is done once: the first connection is returned ever after,
    whatever address the registry resolves later, until it is closed. *)
Lemma getOrDial_once AddressOf AddressOf' workerID conns conn conns' :
  getOrDial AddressOf workerID conns = (Some conn, conns') →
  conns' !! workerID = Some conn ∧ getOrDial AddressOf' workerID conns' = (Some conn, conns').
Proof.
  unfold getOrDial, getOrDial_cached, getOrDial_dial.
  unfold Conns in *. destruct (conns !! workerID) as [c|] eqn:Hc; [intros [= -> <-]; by rewrite Hc|].
  destruct (NewClient (AddressOf workerID)); intros [= -> <-]. by rewrite !lookup_insert_eq.
Qed.

(** After [CloseConn] the address is resolved again. *)
Lemma getOrDial_closed AddressOf workerID conns :
  (getOrDial AddressOf workerID (CloseConn workerID conns)).1 = NewClient (AddressOf workerID).
Proof.
  unfold getOrDial, getOrDial_cached, getOrDial_dial, CloseConn, Conns. rewrite lookup_delete_eq. by destruct (NewClient _).
Qed.
End client.
Arguments Conns Conn : clear implicits.
