(* ===== verification/Engine.v ===== *)
(** * The workflow engine

    [infrastructure/control-plane/engine/engine.go].  Every method the other
    parts call runs under [e.mu] ([CancelTask] releases it before it spawns the
    notifications, which only use local data), so each is one atomic transition
    on [Engine].  The record also holds what the methods reach through
    pointers: the scheduler's ready queue and the event bus.

    A [*domain.Task] is a [TaskRef]: the workflow and the task's key in it.
    The engine never removes a workflow or a task, and identifiers of stored
    workflows are generated, so the reference keeps denoting the object the
    pointer denotes. *)

From stdpp Require Import base gmap strings list.
From Stdlib Require Import ZArith Lia.
From S2P Require Import Prelude Status Domain EventBus Jobs GoFloat.

Record TaskRef := { ref_wf : string; ref_task : string }.

#[export] Instance TaskRef_eq_dec : EqDecision TaskRef.
Proof. solve_decision. Defined.

(** [events/task_events.go] and [events/workflow_events.go]. *)
Inductive event :=
  | TaskStatusChangedEvent (WorkflowID TaskID : string) (Status : TaskStatus) (Timestamp : Z)
  | WorkflowStatusChangedEvent (WorkflowID : string) (Status : WorkflowStatus) (Timestamp : Z).

Inductive engine_error :=
  | WorkflowNotFound (workflowID : string)
  | TaskNotFound (taskID : string)
  | TaskAlreadyTerminal (taskID : string) (status : TaskStatus).

Record RunningTaskRef := { TaskID : string; WorkerID : string }.

Section engine.
Context `{W : World} {H : Type}.   (* H: the event handlers of the bus *)

Record Engine := {
  workflows : gmap string Workflow;
  queue : ReadyQueue TaskRef;              (* e.scheduler.queue *)
  eventBus : Bus event H;
  has_notifier : bool;                     (* e.workerNotifier != nil *)
  cancel_calls : list (string * list string); (* spawned CancelTasks(worker, tasks) calls *)
  tick : nat;
}.

Definition set_workflows v (e : Engine) : Engine :=
  let 'Build_Engine _ q b n c k := e in Build_Engine v q b n c k.
Definition set_queue v (e : Engine) : Engine :=
  let 'Build_Engine w _ b n c k := e in Build_Engine w v b n c k.
Definition set_bus v (e : Engine) : Engine :=
  let 'Build_Engine w q _ n c k := e in Build_Engine w q v n c k.
Definition set_cancel_calls v (e : Engine) : Engine :=
  let 'Build_Engine w q b n _ k := e in Build_Engine w q b n v k.
Definition next_tick (e : Engine) : Engine :=
  let 'Build_Engine w q b n c k := e in Build_Engine w q b n c (S k).

Definition NewWorkflowEngine (bus : Bus event H) (notifier : bool) : Engine :=
  {| workflows := ∅; queue := NewReadyQueue; eventBus := bus; has_notifier := notifier;
     cancel_calls := []; tick := 0 |}.

(** ** Task pointers *)

(** [wf.Tasks] of a stored workflow. *)
Definition tasks_of (e : Engine) (wfID : string) : gmap string Task :=
  default ∅ (Tasks <$> workflows e !! wfID).

Definition get_task (e : Engine) (r : TaskRef) : option Task := tasks_of e (ref_wf r) !! ref_task r.

(** An assignment through a task pointer, and through a workflow pointer. *)
Definition mod_task (r : TaskRef) (f : Task → Task) (e : Engine) : Engine :=
  set_workflows (alter (λ wf, set_Tasks (alter f (ref_task r) (Tasks wf)) wf) (ref_wf r) (workflows e)) e.

Definition mod_workflow (wfID : string) (f : Workflow → Workflow) (e : Engine) : Engine :=
  set_workflows (alter f wfID (workflows e)) e.

Definition publish_event (ev : Z → event) (e : Engine) : Engine :=
  next_tick (set_bus (Publish (ev (Unix (clk (tick e)))) (eventBus e)) e).

(** ** Status updates *)

Definition UpdateTaskStatus (e : Engine) (r : TaskRef) (newStatus : TaskStatus) : bool * Engine :=
  match get_task e r with
  | None => (false, e)
  | Some task =>
      match Task_UpdateStatus task newStatus with
      | inl _ => (false, e)
      | inr task' =>
          (true, publish_event
                   (TaskStatusChangedEvent (task_WorkflowID task') (task_ID task') (Task_GetStatus task'))
                   (mod_task r (λ _, task') e))
      end
  end.

Definition UpdateWorkflowStatus (e : Engine) (wfID : string) (newStatus : WorkflowStatus) : bool * Engine :=
  match workflows e !! wfID with
  | None => (false, e)
  | Some wf =>
      match Workflow_UpdateStatus wf newStatus with
      | inl _ => (false, e)
      | inr wf' =>
          (true, publish_event (WorkflowStatusChangedEvent (wf_ID wf') (Workflow_GetStatus wf'))
                   (mod_workflow wfID (λ _, wf') e))
      end
  end.

(** ** Scheduling ready tasks *)

Definition job_of (r : TaskRef) (task : Task) : Job TaskRef := {|
  job_ID := task_ID task;
  job_WorkflowID := task_WorkflowID task;
  Request := Some {|
    dr_TaskId := task_ID task;
    dr_WorkflowId := task_WorkflowID task;
    dr_Type := Type_ (Spec task);
    dr_Payload := Payload (Spec task);
    dr_TimeoutSeconds := f64_to_int64 (Duration_Seconds (Timeout task));
  |};
  OnDispatched := Some r;
|}.

Definition pushJob (e : Engine) (r : TaskRef) : Engine :=
  match get_task e r with
  | None => e
  | Some task => set_queue (Push (job_of r task) (queue e)) e
  end.

Definition recomputeReadyTasks (e : Engine) (wf : Workflow) : list string * Engine :=
  (omap (λ k, task ← Tasks wf !! k;
              if Task_IsReady task && AllDepsSucceeded task wf then Some (task_ID task) else None)
     (range_keys (tick e) (Tasks wf)),
   next_tick e).

(** One iteration of the loop over [readyTasks]. *)
Definition markReady (wfID : string) (e : Engine) (readyTaskID : string) : Engine :=
  let r := {| ref_wf := wfID; ref_task := readyTaskID |} in
  match get_task e r with
  | None => e
  | Some _ => pushJob (UpdateTaskStatus e r TaskReady).2 r
  end.

Definition markReadyTasks (e : Engine) (wfID : string) : Engine :=
  match workflows e !! wfID with
  | None => e
  | Some wf =>
      let '(readyTasks, e) := recomputeReadyTasks e wf in
      let e := if bool_decide (readyTasks ≠ []) && bool_decide (Workflow_GetStatus wf = WorkflowPending)
               then (UpdateWorkflowStatus e wfID WorkflowRunning).2 else e in
      foldl (markReady wfID) e readyTasks
  end.

Definition finalizeWorkflowIfDone (e : Engine) (wfID : string) : Engine :=
  match workflows e !! wfID with
  | None => e
  | Some wf =>
      if Workflow_IsFinished wf || negb (AllTasksFinished wf) then e
      else
        let target := if HasFailedTask wf then WorkflowFailed
                      else if HasCancelledTask wf then WorkflowCancelled
                      else WorkflowSucceeded in
        (UpdateWorkflowStatus e wfID target).2
  end.

(** ** Cancellation *)

Definition is_active (s : TaskStatus) : bool :=
  bool_decide (s = TaskDispatched) || bool_decide (s = TaskRunning).

(** The body of [cancelDownstream] for the dequeued [id] and the task [k]. *)
Definition cancelVisit (wfID id : string) (acc : list RunningTaskRef * list string * Engine) (k : string)
    : list RunningTaskRef * list string * Engine :=
  let '(running, q, e) := acc in
  let r := {| ref_wf := wfID; ref_task := k |} in
  match get_task e r with
  | None => acc
  | Some t =>
      if Task_IsFinished t then acc
      else if decide (id ∈ DependsOn t) then
        let running := if is_active (Task_GetStatus t)
                       then running ++ [{| TaskID := task_ID t; WorkerID := AssignedTo t |}]
                       else running in
        let '(ok, e) := UpdateTaskStatus e r TaskCancelled in
        (running, if ok then q ++ [task_ID t] else q, e)
      else acc
  end.

(** The loop [for len(queue) > 0]; the queue left over is empty when the
    fuel sufficed. *)
Fixpoint cancelLoop (fuel : nat) (wfID : string) (q : list string)
    (running : list RunningTaskRef) (e : Engine) : list RunningTaskRef * list string * Engine :=
  match q, fuel with
  | [], _ | _, O => (running, q, e)
  | id :: q, S fuel =>
      let '(running, q, e) :=
        foldl (cancelVisit wfID id) (running, q, next_tick e) (range_keys (tick e) (tasks_of e wfID)) in
      cancelLoop fuel wfID q running e
  end.

Definition cancelDownstream (e : Engine) (wfID rootID : string) : list RunningTaskRef * Engine :=
  let '(running, _, e) := cancelLoop (S (size (tasks_of e wfID))) wfID [rootID] [] e in
  (running, e).

Definition group_refs (refs : list RunningTaskRef) : gmap string (list string) :=
  foldl (λ byWorker ref,
           <[WorkerID ref := default [] (byWorker !! WorkerID ref) ++ [TaskID ref]]> byWorker)
    ∅ refs.

Definition notifyWorkersOfCancellation (e : Engine) (refs : list RunningTaskRef) : Engine :=
  if bool_decide (refs = []) || negb (has_notifier e) then e
  else
    let byWorker := group_refs refs in
    let calls := omap (λ w, (λ ids, (w, ids)) <$> byWorker !! w) (range_keys (tick e) byWorker) in
    set_cancel_calls (cancel_calls e ++ calls) (next_tick e).

(** One iteration of [CancelWorkflow]'s loop. *)
Definition cancelOne (wfID : string) (acc : list RunningTaskRef * Engine) (k : string)
    : list RunningTaskRef * Engine :=
  let '(running, e) := acc in
  let r := {| ref_wf := wfID; ref_task := k |} in
  match get_task e r with
  | None => acc
  | Some task =>
      if Task_IsFinished task then acc
      else
        let running := if is_active (Task_GetStatus task)
                       then running ++ [{| TaskID := task_ID task; WorkerID := AssignedTo task |}]
                       else running in
        (running, (UpdateTaskStatus e r TaskCancelled).2)
  end.

Definition CancelWorkflow (e : Engine) (workflowID : string) : option engine_error * Engine :=
  match workflows e !! workflowID with
  | None => (Some (WorkflowNotFound workflowID), e)
  | Some wf =>
      let '(running, e) :=
        foldl (cancelOne workflowID) ([], next_tick e) (range_keys (tick e) (Tasks wf)) in
      let e := (UpdateWorkflowStatus e workflowID WorkflowCancelled).2 in
      (None, notifyWorkersOfCancellation e running)
  end.

(** [findTask]: the first workflow, in iteration order, that has the task. *)
Definition findTask (e : Engine) (taskID : string) : option TaskRef * Engine :=
  (head (omap (λ w, wf ← workflows e !! w;
                    if decide (is_Some (Tasks wf !! taskID))
                    then Some {| ref_wf := w; ref_task := taskID |} else None)
           (range_keys (tick e) (workflows e))),
   next_tick e).

Definition CancelTask (e : Engine) (taskID : string) : option engine_error * Engine :=
  let '(found, e) := findTask e taskID in
  match r ← found; task ← get_task e r; Some (r, task) with
  | None => (Some (TaskNotFound taskID), e)
  | Some (r, task) =>
      if Task_IsFinished task then (Some (TaskAlreadyTerminal taskID (Task_GetStatus task)), e)
      else
        let running := if is_active (Task_GetStatus task)
                       then [{| TaskID := task_ID task; WorkerID := AssignedTo task |}] else [] in
        let e := (UpdateTaskStatus e r TaskCancelled).2 in
        let '(downstream, e) := cancelDownstream e (ref_wf r) (task_ID task) in
        let e := finalizeWorkflowIfDone e (ref_wf r) in
        (None, notifyWorkersOfCancellation e (running ++ downstream))
  end.

(** ** Requests and reports *)

Definition GetWorkflow (e : Engine) (workflowID : string) : engine_error + Workflow :=
  match workflows e !! workflowID with
  | None => inl (WorkflowNotFound workflowID)
  | Some wf => inr wf
  end.

Definition SubmitWorkflow (e : Engine) (wf : Workflow) : string * Engine :=
  let e := set_workflows (<[wf_ID wf := wf]> (workflows e)) e in
  (wf_ID wf, markReadyTasks e (wf_ID wf)).

Definition OnTaskResponse (e : Engine) (workflowID taskID : string) (result : TaskResult)
    : option engine_error * Engine :=
  match workflows e !! workflowID with
  | None => (Some (WorkflowNotFound workflowID), e)
  | Some wf =>
      match Tasks wf !! taskID with
      | None => (Some (TaskNotFound taskID), e)
      | Some task =>
          let r := {| ref_wf := workflowID; ref_task := taskID |} in
          let e :=
            match res_Status result with
            | TaskFailed | TaskSucceeded =>
                let '(ok, e) := UpdateTaskStatus e r (res_Status result) in
                if ok then
                  let e := mod_task r (Task_SetResult (Some result)) e in
                  if decide (res_Status result = TaskFailed)
                  then (cancelDownstream e workflowID (task_ID task)).2 else e
                else e
            | TaskRunning => (UpdateTaskStatus e r TaskRunning).2
            | _ => e
            end in
          let e := markReadyTasks e workflowID in
          (None, finalizeWorkflowIfDone e workflowID)
      end
  end.

Definition OnTaskDispatched (e : Engine) (r : TaskRef) (workerID : string) : Engine :=
  let e := mod_task r (set_AssignedTo workerID) e in
  (UpdateTaskStatus e r TaskDispatched).2.

(** ** Reassignment after a worker's death *)

Definition reassignTask (workerID wfID : string) (e : Engine) (k : string) : Engine :=
  let r := {| ref_wf := wfID; ref_task := k |} in
  match get_task e r with
  | None => e
  | Some task =>
      if decide (AssignedTo task ≠ workerID) then e
      else if is_active (Task_GetStatus task) then
        let e := mod_task r (set_AssignedTo "") e in
        let '(ok, e) := UpdateTaskStatus e r TaskReady in
        if ok then pushJob e r else e
      else e
  end.

Definition reassignWorkflow (workerID : string) (e : Engine) (wfID : string) : Engine :=
  foldl (reassignTask workerID wfID) (next_tick e) (range_keys (tick e) (tasks_of e wfID)).

Definition ReassignDeadWorkerTasks (e : Engine) (workerID : string) : Engine :=
  foldl (reassignWorkflow workerID) (next_tick e) (range_keys (tick e) (workflows e)).
End engine.

Arguments Engine H : clear implicits.
