(* ===== verification/WorkflowSpec.v ===== *)
(** * The abstract specification of one workflow

    What the engine promises about a workflow, without queues, events, workers
    or identifiers of objects: a fixed dependency graph [G], a status for every
    task [σ] and the workflow's status [ω].  [spec_step] is the only way task
    statuses may move; [spec_inv] is what holds whenever no request is being
    handled.  [EngineProps.v] shows that the engine implements both. *)

From stdpp Require Import base gmap strings list relations.
From Stdlib Require Import ZArith Lia.
From S2P Require Import Prelude Status Domain.

Abbreviation statuses := (gmap string TaskStatus).

(** A task has started once its dependencies have been waited for. *)
Definition started (s : TaskStatus) : Prop :=
  s = TaskReady ∨ s = TaskDispatched ∨ s = TaskRunning ∨ s = TaskSucceeded ∨ s = TaskFailed.

(** The statuses the control plane uses; [TaskRetrying] is reserved. *)
Definition known (s : TaskStatus) : Prop := s ≠ TaskRetrying ∧ s ≠ TaskStatusUnknown.

Definition active (s : TaskStatus) : Prop := s = TaskReady ∨ s = TaskDispatched ∨ s = TaskRunning.
Definition executing (s : TaskStatus) : Prop := s = TaskDispatched ∨ s = TaskRunning.
Definition bad (s : TaskStatus) : Prop := s = TaskFailed ∨ s = TaskCancelled.

#[export] Instance started_dec s : Decision (started s).
Proof. unfold started. apply _. Defined.
#[export] Instance executing_dec s : Decision (executing s).
Proof. unfold executing. apply _. Defined.
#[export] Instance bad_dec s : Decision (bad s).
Proof. unfold bad. apply _. Defined.

(** Case analysis on a status goal whose hypotheses are about that status. *)
Ltac by_status :=
  unfold started, known, active, executing, bad, finished, not in *;
  repeat match goal with
  | H : Some _ = Some _ |- _ => injection H as H
  | H : _ ∧ _ |- _ => destruct H
  | H : _ ∨ _ |- _ => destruct H
  end; subst; try congruence; intuition congruence.

Section spec.
Context (G : gmap string (list string)).
Implicit Types (σ : statuses) (k d : string) (s : TaskStatus).

Definition dep k d : Prop := ∃ l, G !! k = Some l ∧ d ∈ l.

(** ** Steps *)

Inductive spec_step : relation statuses :=
  | spec_ready σ k :
      σ !! k = Some TaskPending → (∀ d, dep k d → σ !! d = Some TaskSucceeded) →
      spec_step σ (<[k := TaskReady]> σ)
  | spec_dispatch σ k : σ !! k = Some TaskReady → spec_step σ (<[k := TaskDispatched]> σ)
  | spec_run σ k : σ !! k = Some TaskDispatched → spec_step σ (<[k := TaskRunning]> σ)
  | spec_report σ k s s' : σ !! k = Some s → executing s → s' = TaskSucceeded ∨ s' = TaskFailed →
      spec_step σ (<[k := s']> σ)
  | spec_requeue σ k s : σ !! k = Some s → executing s → spec_step σ (<[k := TaskReady]> σ)
  | spec_cancel σ k s : σ !! k = Some s → ¬ finished s → spec_step σ (<[k := TaskCancelled]> σ).

(** Every task that started had all its dependencies succeed. *)
Definition safe σ : Prop :=
  ∀ k d s, σ !! k = Some s → started s → dep k d → σ !! d = Some TaskSucceeded.

Definition all_known σ : Prop := ∀ k s, σ !! k = Some s → known s.

(** A step moves one unfinished task. *)
Lemma spec_step_inv σ σ' :
  spec_step σ σ' →
  ∃ k s s', σ' = <[k := s']> σ ∧ σ !! k = Some s ∧ ¬ finished s ∧ known s' ∧
    (started s' → started s ∨ ∀ d, dep k d → σ !! d = Some TaskSucceeded).
Proof.
  destruct 1 as [σ k Hk Hd|σ k Hk|σ k Hk|σ k s s' Hk Hs Hs'|σ k s Hk Hs|σ k s Hk Hs];
    eexists k, _, _; (split_and!; [done|exact Hk|..]).
  all: try (intros _; right; exact Hd).
  all: by_status.
Qed.

Lemma spec_step_safe σ σ' : spec_step σ σ' → safe σ → safe σ'.
Proof.
  intros (k & s & s' & -> & Hk & Hfin & _ & Hst)%spec_step_inv Hsafe x d sx.
  rewrite !lookup_insert. case_decide as Hx; subst.
  - intros [= <-] Hs' Hd.
    assert (σ !! d = Some TaskSucceeded) as Hds by (destruct (Hst Hs'); eauto).
    case_decide; subst; [|done]. rewrite Hds in Hk. simplify_eq. by_status.
  - intros Hx' Hsx Hd. pose proof (Hsafe _ _ _ Hx' Hsx Hd) as Hds.
    case_decide; subst; [|done]. rewrite Hds in Hk. simplify_eq. by_status.
Qed.

Lemma spec_step_known σ σ' : spec_step σ σ' → all_known σ → all_known σ'.
Proof.
  intros (k & s & s' & -> & _ & _ & Hs' & _)%spec_step_inv Hkn x sx.
  rewrite lookup_insert. case_decide; [by intros [= <-]|apply Hkn].
Qed.

Lemma spec_steps_safe σ σ' : rtc spec_step σ σ' → safe σ → safe σ'.
Proof. intros Hr Hs. eapply (rtc_invariant _ safe); eauto using spec_step_safe. Qed.

Lemma spec_steps_known σ σ' : rtc spec_step σ σ' → all_known σ → all_known σ'.
Proof. intros Hr Hs. eapply (rtc_invariant _ all_known); eauto using spec_step_known. Qed.

(** Finished tasks never move again. *)
Lemma spec_steps_finished σ σ' k s :
  rtc spec_step σ σ' → σ !! k = Some s → finished s → σ' !! k = Some s.
Proof.
  intros Hr Hk Hs. eapply (rtc_invariant _ (λ σ, σ !! k = Some s)); [done| |done].
  intros a b Ha (x & sx & s' & -> & Hx & Hfin & _)%spec_step_inv.
  rewrite lookup_insert. case_decide; [|done]. congruence.
Qed.

Lemma spec_steps_dom σ σ' : rtc spec_step σ σ' → dom σ' = dom σ.
Proof.
  intros Hr. eapply (rtc_invariant _ (λ x, dom x = dom σ)); [done| |done].
  intros a b <- (x & sx & s' & -> & Hx & _)%spec_step_inv.
  apply dom_insert_lookup_L. eauto.
Qed.

(** Task statuses move along the transition table. *)
Lemma spec_step_automaton σ σ' k s :
  spec_step σ σ' → σ !! k = Some s → all_known σ →
  σ' !! k = Some s ∨ ∃ s', σ' !! k = Some s' ∧ task_step s s'.
Proof.
  intros Hstep Hk Hkn. pose proof (Hkn _ _ Hk) as Hs. setoid_rewrite task_step_graph.
  destruct Hstep as [σ x Hx ?|σ x Hx|σ x Hx|σ x sx s' Hx He Hs'|σ x sx Hx He|σ x sx Hx Hf];
    (destruct (decide (x = k)) as [->|Hne]; [|left; by rewrite lookup_insert_ne]);
    rewrite lookup_insert_eq; right; eexists; (split; [done|]); rewrite Hk in Hx; simplify_eq.
  all: try destruct Hs'; subst; try done.
  all: repeat match goal with x : TaskStatus |- _ => destruct x end; try done; by_status.
Qed.

(** ** The quiescent state *)

(** Nothing below a failed or cancelled task is left to run. *)
Definition cascaded σ : Prop :=
  ∀ k d s, σ !! k = Some s → dep k d → (∃ sd, σ !! d = Some sd ∧ bad sd) → s = TaskCancelled.

Definition ready_now σ k : Prop :=
  σ !! k = Some TaskPending ∧ ∀ d, dep k d → σ !! d = Some TaskSucceeded.

(** No task that could be scheduled is left waiting. *)
Definition eager σ : Prop := ∀ k, ¬ ready_now σ k.

Definition all_finished σ : Prop := ∀ k s, σ !! k = Some s → finished s.
Definition some_task σ s : Prop := ∃ k, σ !! k = Some s.

(** The workflow's status against its tasks' statuses. *)
Definition terminal_ok σ (ω : WorkflowStatus) : Prop :=
  match ω with
  | WorkflowPending | WorkflowRunning => True
  | WorkflowSucceeded => σ ≠ ∅ ∧ ∀ k s, σ !! k = Some s → s = TaskSucceeded
  | WorkflowFailed => all_finished σ ∧ some_task σ TaskFailed
  | WorkflowCancelled => all_finished σ ∧ (σ = ∅ ∨ some_task σ TaskCancelled)
  end.

Definition status_ok σ (ω : WorkflowStatus) : Prop :=
  match ω with
  | WorkflowPending => σ = ∅
  | WorkflowRunning => ¬ all_finished σ
  | _ => terminal_ok σ ω
  end.

Record consistent σ : Prop := {
  con_safe : safe σ;
  con_known : all_known σ;
  con_cascaded : cascaded σ;
}.

Record spec_inv σ (ω : WorkflowStatus) : Prop := {
  inv_consistent : consistent σ;
  inv_eager : eager σ;
  inv_status : status_ok σ ω;
}.

(** The graph of a workflow: closed under dependencies and without cycles. *)
Record graph_ok σ : Prop := {
  graph_dom k : is_Some (G !! k) ↔ is_Some (σ !! k);
  graph_closed k d : dep k d → is_Some (G !! d);
  graph_acyclic k : Acc (flip dep) k;
}.

#[export] Instance all_finished_dec σ : Decision (all_finished σ).
Proof.
  refine (cast_if (decide (map_Forall (λ _ s, finished s) σ))); unfold all_finished; done.
Defined.

Lemma not_all_finished σ : ¬ all_finished σ → ∃ k s, σ !! k = Some s ∧ ¬ finished s.
Proof. intros H. apply map_not_Forall in H; [|apply _]. naive_solver. Qed.

Lemma unfinished_not_all σ k s : σ !! k = Some s → ¬ finished s → ¬ all_finished σ.
Proof. intros Hk Hs Hall. by apply Hs, (Hall k). Qed.

(** The dependencies of a task as a list. *)
Lemma dep_list k d : dep k d ↔ d ∈ default [] (G !! k).
Proof.
  unfold dep. destruct (G !! k) as [l|]; simpl.
  - split; [by intros (? & [= <-] & ?)|eauto].
  - rewrite elem_of_nil. split; [by intros (? & ? & ?)|done].
Qed.

(** In an eager state a pending task waits for some dependency. *)
Lemma waiting_dep σ k :
  eager σ → σ !! k = Some TaskPending → ∃ d, dep k d ∧ σ !! d ≠ Some TaskSucceeded.
Proof.
  intros Heager Hk. setoid_rewrite dep_list. setoid_rewrite list_elem_of_In. rewrite <-List.Exists_exists.
  destruct (decide (Exists (λ d, σ !! d ≠ Some TaskSucceeded) (default [] (G !! k)))) as [|Hno]; [done|].
  destruct (Heager k). split; [done|]. intros d Hd%dep_list.
  destruct (decide (σ !! d = Some TaskSucceeded)) as [|Hne]; [done|].
  destruct Hno. apply Exists_exists. eauto.
Qed.

(** An unfinished task leads, through its unfinished dependencies, to an
    active one: the workflow is never stuck. *)
Lemma unfinished_active σ k s :
  graph_ok σ → consistent σ → eager σ → σ !! k = Some s → ¬ finished s →
  ∃ k' s', rtc dep k k' ∧ σ !! k' = Some s' ∧ active s'.
Proof.
  intros Hg [_ Hkn Hcas] Heager. revert s.
  induction (graph_acyclic _ Hg k) as [k _ IH]. intros s Hk Hs.
  destruct (decide (s = TaskPending)) as [->|Hnp].
  2:{ exists k, s. split; [done|]. split; [done|]. specialize (Hkn _ _ Hk).
      destruct s; by_status. }
  subst. destruct (waiting_dep _ _ Heager Hk) as (d & Hkd & Hns).
  destruct (graph_closed _ Hg _ _ Hkd) as [l Hl].
  assert (is_Some (σ !! d)) as [sd Hsd] by (apply (graph_dom _ Hg); eauto).
  assert (¬ bad sd) as Hnb by (intros Hb; by discriminate (Hcas k d _ Hk Hkd (ex_intro _ _ (conj Hsd Hb)))).
  destruct (IH d Hkd sd Hsd) as (k' & s' & Hr & Hk' & Ha).
  { rewrite Hsd in Hns. by_status. }
  exists k', s'. split; [by eapply rtc_l|done].
Qed.

(** ** Single moves *)

Definition cascaded_but (q : list string) σ : Prop :=
  ∀ k d s, σ !! k = Some s → dep k d → d ∉ q → (∃ sd, σ !! d = Some sd ∧ bad sd) → s = TaskCancelled.

Lemma cascaded_nil σ : cascaded σ ↔ cascaded_but [] σ.
Proof.
  split; intros H k d s Hk Hd; [intros _; by apply (H k d)|]. apply (H k d); [done..|]. apply not_elem_of_nil.
Qed.

(** Moving an unfinished task can only upset the tasks directly below it. *)
Lemma move_cascaded_but q σ k s s' :
  σ !! k = Some s → ¬ finished s → cascaded_but q σ → cascaded_but (k :: q) (<[k := s']> σ).
Proof.
  intros Hk Hf Hc x d sx Hx Hd [Hdk Hdq]%not_elem_of_cons (sd & Hsd & Hb).
  rewrite lookup_insert_ne in Hsd by done. revert Hx. rewrite lookup_insert. case_decide; subst.
  - intros _. assert (s = TaskCancelled) as -> by (eapply Hc; eauto). by_status.
  - intros Hx. eapply Hc; eauto.
Qed.

Lemma cascaded_but_good q σ k s :
  σ !! k = Some s → ¬ bad s → cascaded_but (k :: q) σ → cascaded_but q σ.
Proof.
  intros Hk Hb Hc x d sx Hx Hd Hdq (sd & Hsd & Hbd). apply (Hc x d); [done..| |by eauto].
  intros [->|?]%elem_of_cons; [|done]. congruence.
Qed.

Lemma spec_step_consistent σ k s' :
  spec_step σ (<[k := s']> σ) → (∃ s, σ !! k = Some s ∧ ¬ finished s) → ¬ bad s' →
  consistent σ → consistent (<[k := s']> σ).
Proof.
  intros Hstep (s & Hk & Hf) Hb [Hs Hkn Hc]. split.
  - by eapply spec_step_safe.
  - by eapply spec_step_known.
  - apply cascaded_nil. eapply (cascaded_but_good _ _ k s'); [by rewrite lookup_insert_eq|done|].
    eapply move_cascaded_but; [done..|]. by apply cascaded_nil.
Qed.

Lemma move_eager σ k s' :
  s' ≠ TaskPending → s' ≠ TaskSucceeded → eager σ → eager (<[k := s']> σ).
Proof.
  intros Hp Hsuc He x [Hx Hd]. apply (He x).
  destruct (decide (k = x)) as [->|Hne]; [rewrite lookup_insert_eq in Hx; congruence|].
  rewrite lookup_insert_ne in Hx by done. split; [done|]. intros d Hxd. specialize (Hd d Hxd).
  destruct (decide (k = d)) as [->|?]; [rewrite lookup_insert_eq in Hd; congruence|].
  by rewrite lookup_insert_ne in Hd.
Qed.

(** ** Scheduling everything that is ready *)

#[export] Instance ready_now_dec σ k : Decision (ready_now σ k).
Proof.
  refine (cast_if (decide (σ !! k = Some TaskPending ∧
    Forall (λ d, σ !! d = Some TaskSucceeded) (default [] (G !! k))))); unfold ready_now;
    rewrite Forall_forall in *; setoid_rewrite dep_list; done.
Defined.

Definition mark_ready σ : statuses :=
  map_imap (λ k s, Some (if decide (ready_now σ k) then TaskReady else s)) σ.

Lemma lookup_mark_ready σ k :
  mark_ready σ !! k = (λ s, if decide (ready_now σ k) then TaskReady else s) <$> σ !! k.
Proof. unfold mark_ready. rewrite map_lookup_imap. by destruct (σ !! k). Qed.

Lemma mark_ready_ne σ k s :
  s ≠ TaskReady → mark_ready σ !! k = Some s ↔ σ !! k = Some s ∧ ¬ ready_now σ k.
Proof.
  intros Hne. rewrite lookup_mark_ready. destruct (σ !! k) as [sk|]; simpl; [|naive_solver].
  case_decide; split; intros; destruct_and?; simplify_eq; done.
Qed.

Lemma mark_ready_succeeded σ k : mark_ready σ !! k = Some TaskSucceeded ↔ σ !! k = Some TaskSucceeded.
Proof.
  rewrite mark_ready_ne by done. split; [by intros [? _]|]. intros Hk. split; [done|].
  intros [? _]. congruence.
Qed.

Lemma mark_ready_eager σ : eager (mark_ready σ).
Proof.
  intros k [Hk Hd]. apply mark_ready_ne in Hk as [Hk Hn]; [|done]. apply Hn. split; [done|].
  intros d Hkd. by apply mark_ready_succeeded, Hd.
Qed.

Lemma mark_ready_consistent σ : consistent σ → consistent (mark_ready σ).
Proof.
  intros [Hs Hkn Hc]. split.
  - intros k d s Hk Hst Hkd. apply mark_ready_succeeded. revert Hk. rewrite lookup_mark_ready.
    destruct (σ !! k) as [sk|] eqn:Hsk; simpl; [|done]. case_decide as Hr; intros [= <-].
    + by apply Hr.
    + by eapply Hs.
  - intros k s. rewrite lookup_mark_ready. destruct (σ !! k) as [sk|] eqn:Hsk; simpl; [|done].
    case_decide; intros [= <-]; [by_status|by apply (Hkn k)].
  - intros k d s Hk Hkd (sd & Hsd & Hb).
    assert (σ !! d = Some sd) as Hd by (apply mark_ready_ne in Hsd as [? _]; [done|by_status]).
    revert Hk. rewrite lookup_mark_ready. destruct (σ !! k) as [sk|] eqn:Hsk; simpl; [|done].
    case_decide as Hr; intros [= <-].
    + destruct Hr as [_ Hr]. rewrite (Hr d Hkd) in Hd. simplify_eq. by_status.
    + eapply Hc; eauto.
Qed.

Lemma eager_mark_ready σ : eager σ → mark_ready σ = σ.
Proof.
  intros He. apply map_eq. intros k. rewrite lookup_mark_ready.
  destruct (σ !! k); simpl; [|done]. by rewrite decide_False by apply He.
Qed.

(** ** Cancelling everything unfinished *)

Definition cancel_all σ : statuses := (λ s, if decide (finished s) then s else TaskCancelled) <$> σ.

Definition cancel_status (ω : WorkflowStatus) : WorkflowStatus :=
  if decide (ω = WorkflowPending ∨ ω = WorkflowRunning) then WorkflowCancelled else ω.

Lemma lookup_cancel_all σ k s :
  cancel_all σ !! k = Some s →
  finished s ∧ (σ !! k = Some s ∨ s = TaskCancelled ∧ ∃ s0, σ !! k = Some s0 ∧ ¬ finished s0).
Proof.
  unfold cancel_all. rewrite lookup_fmap, fmap_Some. intros (s0 & Hk & ->).
  case_decide; [by eauto|]. split; [by_status|]. eauto 6.
Qed.

Lemma cancel_all_finished σ : all_finished (cancel_all σ).
Proof. intros k s Hk. by apply lookup_cancel_all in Hk as [? _]. Qed.

Lemma cancel_all_keeps σ k s : σ !! k = Some s → finished s → cancel_all σ !! k = Some s.
Proof. intros Hk Hf. unfold cancel_all. by rewrite lookup_fmap, Hk; simpl; rewrite decide_True. Qed.

Lemma cancel_all_cancels σ k s :
  σ !! k = Some s → ¬ finished s → cancel_all σ !! k = Some TaskCancelled.
Proof. intros Hk Hf. unfold cancel_all. by rewrite lookup_fmap, Hk; simpl; rewrite decide_False. Qed.

Lemma cancel_all_consistent σ : consistent σ → consistent (cancel_all σ).
Proof.
  intros [Hs Hkn Hc]. split.
  - intros k d s Hk Hst Hkd. apply lookup_cancel_all in Hk as [Hf [Hk|[-> _]]]; [|by_status].
    eapply cancel_all_keeps; [by eapply Hs|by left].
  - intros k s Hk. apply lookup_cancel_all in Hk as [Hf _]. by_status.
  - intros k d s Hk Hkd (sd & Hsd & Hb). apply lookup_cancel_all in Hk as [Hf [Hk|[-> _]]]; [|done].
    apply lookup_cancel_all in Hsd as [_ [Hsd|[-> (s0 & Hsd & Hf0)]]]; [by eapply Hc; eauto|].
    destruct (decide (started s)) as [Hst|]; [|by_status].
    rewrite (Hs _ _ _ Hk Hst Hkd) in Hsd. simplify_eq. destruct Hf0. by left.
Qed.

(** ** The workflow's status *)

Definition target_status σ : WorkflowStatus :=
  if decide (map_Exists (λ _ s, s = TaskFailed) σ) then WorkflowFailed
  else if decide (map_Exists (λ _ s, s = TaskCancelled) σ) then WorkflowCancelled
  else WorkflowSucceeded.

Definition finalize σ (ω : WorkflowStatus) : WorkflowStatus :=
  if decide (all_finished σ) then
    if workflowStatusesGraph ω (target_status σ) then target_status σ else ω
  else ω.

(** The status before the workflow is finalized. *)
Definition status_pre σ (ω : WorkflowStatus) : Prop :=
  match ω with
  | WorkflowPending => σ = ∅
  | WorkflowRunning => σ ≠ ∅
  | _ => terminal_ok σ ω
  end.

Lemma target_status_ok σ : all_finished σ → σ ≠ ∅ → status_ok σ (target_status σ).
Proof.
  intros Hall Hne. unfold target_status. case_decide as Hf; [|case_decide as Hc]; simpl.
  - split; [done|]. destruct Hf as (k & s & Hk & ->). by exists k.
  - split; [done|]. right. destruct Hc as (k & s & Hk & ->). by exists k.
  - split; [done|]. intros k s Hk. pose proof (Hall k s Hk).
    assert (s ≠ TaskFailed) by (intros ->; destruct Hf; by exists k, TaskFailed).
    assert (s ≠ TaskCancelled) by (intros ->; destruct Hc; by exists k, TaskCancelled). by_status.
Qed.

Lemma finalize_ok σ ω : status_pre σ ω → status_ok σ (finalize σ ω).
Proof.
  intros Hpre. unfold finalize. case_decide as Hall.
  2:{ destruct ω; naive_solver. }
  destruct ω; simpl in Hpre |- *; try done; subst.
  - unfold target_status. by rewrite !decide_False by (intros (? & ? & Hk & _); by rewrite lookup_empty in Hk).
  - pose proof (target_status_ok σ Hall Hpre). unfold target_status in *. by repeat case_decide.
Qed.

Lemma finished_stuck σ σ' : all_finished σ → rtc spec_step σ σ' → σ' = σ.
Proof.
  intros Hall Hr. apply map_eq. intros k. destruct (σ !! k) as [s|] eqn:Hk.
  - eapply spec_steps_finished; eauto.
  - apply not_elem_of_dom. rewrite (spec_steps_dom _ _ Hr). by apply not_elem_of_dom.
Qed.

Lemma status_terminal_finished σ ω :
  status_ok σ ω → WorkflowStatus_IsTerminated ω = true → all_finished σ.
Proof. destruct ω; try done; simpl; [|tauto|tauto]. intros [_ H] _ k s Hk. left. eauto. Qed.

Lemma status_ok_steps σ σ' ω : status_ok σ ω → rtc spec_step σ σ' → status_pre σ' ω.
Proof.
  intros Hok Hr. destruct (WorkflowStatus_IsTerminated ω) eqn:Ht.
  - rewrite (finished_stuck _ _ (status_terminal_finished _ _ Hok Ht) Hr). by destruct ω.
  - pose proof (spec_steps_dom _ _ Hr) as Hdom. destruct ω; simpl in *; try done.
    + subst. by apply dom_empty_inv_L; rewrite Hdom, dom_empty_L.
    + intros ->. rewrite dom_empty_L in Hdom. symmetry in Hdom. apply dom_empty_inv_L in Hdom as ->.
      apply Hok. by intros k s ?%lookup_empty_Some.
Qed.

Lemma cancel_status_ok σ ω : status_ok σ ω → status_ok (cancel_all σ) (cancel_status ω).
Proof.
  intros Hok. unfold cancel_status. case_decide as Hd.
  - split; [apply cancel_all_finished|]. destruct Hd as [->| ->]; simpl in Hok; subst.
    + left. apply fmap_empty.
    + right. apply not_all_finished in Hok as (k & s & Hk & Hs). exists k. by eapply cancel_all_cancels.
  - assert (all_finished σ) as Hall.
    { eapply status_terminal_finished; [done|]. destruct ω; naive_solver. }
    assert (cancel_all σ = σ) as ->; [|by destruct ω].
    apply map_eq. intros k. destruct (σ !! k) as [s|] eqn:Hk.
    + eapply cancel_all_keeps; eauto.
    + unfold cancel_all. by rewrite lookup_fmap, Hk.
Qed.

Lemma finished_eager σ : all_finished σ → eager σ.
Proof. intros Hall k [Hk _]. specialize (Hall _ _ Hk). by_status. Qed.

Lemma cancel_all_inv σ ω : spec_inv σ ω → spec_inv (cancel_all σ) (cancel_status ω).
Proof.
  intros [Hc He Ho]. split; [by apply cancel_all_consistent| |by apply cancel_status_ok].
  apply finished_eager, cancel_all_finished.
Qed.

(** ** Guarded moves in sequence *)

(** [UpdateTaskStatus] on the abstract state: the move if the table has it. *)
Definition try_move s' σ k : statuses :=
  match σ !! k with
  | Some s => if taskStatusesGraph s s' then <[k := s']> σ else σ
  | None => σ
  end.

Lemma try_move_Some s' σ k s :
  σ !! k = Some s → try_move s' σ k = if taskStatusesGraph s s' then <[k := s']> σ else σ.
Proof. unfold try_move. by intros ->. Qed.

Lemma lookup_try_move s' σ k x :
  try_move s' σ k !! x = (λ s, if decide (x = k) then if taskStatusesGraph s s' then s' else s else s) <$> σ !! x.
Proof.
  unfold try_move. destruct (decide (x = k)) as [->|Hne].
  - destruct (σ !! k) as [s|] eqn:Hk; simpl; [|by rewrite Hk].
    destruct (taskStatusesGraph s s'); [by rewrite lookup_insert_eq|by rewrite Hk].
  - transitivity (σ !! x); [|by destruct (σ !! x)].
    destruct (σ !! k) as [s|]; [|done]. case_match; [by rewrite lookup_insert_ne|done].
Qed.

Lemma lookup_try_moves s' L σ k :
  foldl (try_move s') σ L !! k =
  (λ s, if decide (k ∈ L) then if taskStatusesGraph s s' then s' else s else s) <$> σ !! k.
Proof.
  revert σ. induction L as [|x L IH]; intros σ; simpl.
  { by destruct (σ !! k). }
  rewrite IH, lookup_try_move. destruct (σ !! k) as [s|]; simpl; [|done]. f_equal.
  destruct (decide (k = x)) as [->|Hne].
  - rewrite (decide_True (P := x ∈ x :: L)) by left.
    destruct (taskStatusesGraph s s') eqn:Hg; case_decide; try done; [by destruct s'|by rewrite Hg].
  - destruct (decide (k ∈ L)) as [Hin|Hin]; [by rewrite decide_True by (by right)|].
    rewrite decide_False; [done|]. intros [?|?]%elem_of_cons; done.
Qed.

Lemma try_moves_ready L σ :
  (∀ k, k ∈ L ↔ ready_now σ k) → foldl (try_move TaskReady) σ L = mark_ready σ.
Proof.
  intros HL. apply map_eq. intros k. rewrite lookup_try_moves, lookup_mark_ready.
  destruct (σ !! k) as [s|] eqn:Hk; simpl; [|done]. f_equal.
  destruct (decide (ready_now σ k)) as [Hr|Hr].
  - rewrite decide_True by (by apply HL). destruct Hr as [Hp _]. by simplify_eq.
  - by rewrite decide_False by (by rewrite HL).
Qed.

Lemma try_moves_cancel L σ :
  all_known σ → (∀ k, is_Some (σ !! k) → k ∈ L) → foldl (try_move TaskCancelled) σ L = cancel_all σ.
Proof.
  intros Hkn HL. apply map_eq. intros k. rewrite lookup_try_moves. unfold cancel_all. rewrite lookup_fmap.
  destruct (σ !! k) as [s|] eqn:Hk; simpl; [|done]. f_equal.
  rewrite decide_True by (apply HL; eauto). specialize (Hkn _ _ Hk).
  case_decide as Hf; destruct s; try done; by_status.
Qed.

Lemma try_move_cancel_steps σ k : rtc spec_step σ (try_move TaskCancelled σ k).
Proof.
  unfold try_move. destruct (σ !! k) as [s|] eqn:Hk; [|done].
  destruct (taskStatusesGraph s TaskCancelled) eqn:Hg; [|done].
  apply rtc_once. eapply spec_cancel; [done|]. destruct s; try done; by_status.
Qed.

Lemma cancel_all_steps σ : all_known σ → rtc spec_step σ (cancel_all σ).
Proof.
  intros Hkn. rewrite <-(try_moves_cancel (map_to_list σ).*1); [|done|].
  2:{ intros k [s Hk]. apply list_elem_of_fmap. exists (k, s). by rewrite elem_of_map_to_list. }
  apply foldl_inv; [done|]. intros a k _ Ha. etrans; [done|apply try_move_cancel_steps].
Qed.

Lemma mark_ready_steps σ : rtc spec_step σ (mark_ready σ).
Proof.
  set (L := filter (ready_now σ) (map_to_list σ).*1).
  assert (∀ k, k ∈ L ↔ ready_now σ k) as HL.
  { intros k. unfold L. rewrite list_elem_of_filter, list_elem_of_fmap. split; [by intros [? _]|].
    intros Hr. split; [done|]. destruct Hr as [Hk _]. exists (k, TaskPending). by rewrite elem_of_map_to_list. }
  rewrite <-(try_moves_ready L) by done.
  apply (foldl_prefix_inv (λ done σ', σ' = foldl (try_move TaskReady) σ done ∧ rtc spec_step σ σ')); [done|].
  intros done k rest a Hl [-> Hr]. split; [by rewrite foldl_app|]. etrans; [done|].
  assert (ready_now σ k) as [Hp Hd] by (apply HL; rewrite Hl; set_solver).
  pose proof (lookup_try_moves TaskReady done σ k) as Hk. rewrite Hp in Hk. simpl in Hk.
  rewrite (try_move_Some _ _ _ _ Hk). case_decide as Hin; [done|]. simpl. apply rtc_once, spec_ready; [done|].
  intros d Hkd. rewrite lookup_try_moves, (Hd d Hkd). simpl. by case_decide.
Qed.

(** ** The cascade below a failed or cancelled task *)

Definition unfinished_left σ : nat := size (filter (λ ks, ¬ finished ks.2) σ).

Lemma unfinished_left_le σ : unfinished_left σ ≤ size σ.
Proof. apply map_size_filter. Qed.

Lemma unfinished_left_finish σ k s s' :
  σ !! k = Some s → ¬ finished s → finished s' →
  S (unfinished_left (<[k := s']> σ)) = unfinished_left σ.
Proof.
  intros Hk Hs Hs'. unfold unfinished_left.
  rewrite map_filter_insert_False by (simpl; tauto). rewrite map_filter_delete.
  rewrite map_size_delete_Some; [|exists s; by apply map_lookup_filter_Some].
  assert (size (filter (λ ks : string * TaskStatus, ¬ finished ks.2) σ) ≠ 0); [|lia].
  intros H%map_size_empty_inv. apply (lookup_empty_Some (M := gmap string) k s). rewrite <-H.
  by apply map_lookup_filter_Some.
Qed.

(** [below root k]: task [k] depends on [root], directly or transitively. *)
Definition below root k : Prop := tc dep k root.

(** The state of the cascade from [root]: [q] holds the cancelled tasks whose
    dependents may not have been visited yet. *)
Record cascade_inv root (σ0 : statuses) (q : list string) σ : Prop := {
  ci_steps : rtc spec_step σ0 σ;
  ci_safe : safe σ;
  ci_known : all_known σ;
  ci_casc : cascaded_but q σ;
  ci_queue id : id ∈ q → (id = root ∨ below root id) ∧ ∃ s, σ !! id = Some s ∧ bad s;
  ci_frame k : σ !! k = σ0 !! k ∨
    σ !! k = Some TaskCancelled ∧ below root k ∧ ∃ s, σ0 !! k = Some s ∧ ¬ finished s;
}.

Lemma cascade_inv_start root σ s :
  safe σ → all_known σ → cascaded_but [root] σ → σ !! root = Some s → bad s →
  cascade_inv root σ [root] σ.
Proof.
  intros. split; [done..| |by left]. intros id ->%list_elem_of_singleton. eauto.
Qed.

(** An unfinished task below a failed or cancelled one is still pending. *)
Lemma below_bad_pending σ k id s sid :
  safe σ → all_known σ → σ !! k = Some s → ¬ finished s → dep k id → σ !! id = Some sid → bad sid →
  s = TaskPending.
Proof.
  intros Hs Hkn Hk Hf Hd Hid Hb. destruct (decide (started s)) as [Hst|Hst].
  - rewrite (Hs _ _ _ Hk Hst Hd) in Hid. simplify_eq. by_status.
  - specialize (Hkn _ _ Hk). destruct s; by_status.
Qed.

(** Visiting a dependent of the dequeued task. *)
Lemma cascade_inv_visit root σ0 q σ k s id :
  cascade_inv root σ0 q σ → id ∈ q → dep k id → σ !! k = Some s → ¬ finished s →
  cascade_inv root σ0 (q ++ [k]) (<[k := TaskCancelled]> σ).
Proof.
  intros [Hst Hs Hkn Hc Hq Hfr] Hid Hd Hk Hf. destruct (Hq _ Hid) as [Hroot (sid & Hsid & Hb)].
  assert (below root k) as Hbelow by (destruct Hroot as [->|]; [by apply tc_once|by eapply tc_l]).
  assert (spec_step σ (<[k:=TaskCancelled]> σ)) as Hstep by by eapply spec_cancel.
  split.
  - by eapply rtc_r.
  - by eapply spec_step_safe.
  - by eapply spec_step_known.
  - intros x d sx Hx Hxd Hnq. eapply move_cascaded_but; [exact Hk|done|exact Hc|exact Hx|done|set_solver].
  - intros x Hx. rewrite lookup_insert. case_decide; subst; [split; [by right|]; eexists; split; [done|by right]|].
    apply Hq. set_solver.
  - intros x. rewrite lookup_insert. case_decide; subst; [|apply Hfr]. right. split; [done|]. split; [done|].
    destruct (Hfr x) as [Heq|(Heq & _)]; [rewrite <-Heq; eauto|].
    rewrite Hk in Heq. simplify_eq. destruct Hf. by_status.
Qed.

(** Dequeuing a task all of whose dependents are cancelled. *)
Lemma cascade_inv_pop root σ0 q σ id :
  cascade_inv root σ0 (id :: q) σ →
  (∀ k s, dep k id → σ !! k = Some s → s = TaskCancelled) → cascade_inv root σ0 q σ.
Proof.
  intros [Hst Hs Hkn Hc Hq Hfr] Hall. split; [done..| | |done].
  - intros k d s Hk Hd Hnq Hb. destruct (decide (d = id)) as [->|Hne]; [by eapply Hall|].
    eapply Hc; [done..|set_solver|done].
  - intros x Hx. apply Hq. by right.
Qed.

(** What the whole cascade does. *)
Definition cascade_done root σ0 σ : Prop :=
  (∀ k s, below root k → σ0 !! k = Some s → ¬ finished s → σ !! k = Some TaskCancelled) ∧
  (∀ k, σ !! k = σ0 !! k ∨
    σ !! k = Some TaskCancelled ∧ below root k ∧ ∃ s, σ0 !! k = Some s ∧ ¬ finished s).

Lemma cascade_inv_below root σ0 σ s :
  graph_ok σ0 → cascade_inv root σ0 [] σ → σ0 !! root = Some s → bad s →
  ∀ k, below root k → σ !! k = Some TaskCancelled.
Proof.
  intros Hg [Hst Hs Hkn Hc Hq Hfr] Hroot Hb.
  assert (∃ sr, σ !! root = Some sr ∧ bad sr) as Hbad.
  { exists s. split; [|done]. eapply spec_steps_finished; [done..|by_status]. }
  assert (∀ k d, dep k d → is_Some (σ !! k)) as Hdom.
  { intros k d (l & Hl & _). apply elem_of_dom. rewrite (spec_steps_dom _ _ Hst).
    apply elem_of_dom, (graph_dom _ Hg). eauto. }
  assert (∀ k d, dep k d → (∃ sd, σ !! d = Some sd ∧ bad sd) → σ !! k = Some TaskCancelled) as Hone.
  { intros k d Hd Hbd. destruct (Hdom _ _ Hd) as [sk Hk]. rewrite Hk. f_equal.
    eapply Hc; [done..|apply not_elem_of_nil|done]. }
  intros k Hk. unfold below in Hk. revert Hbad. induction Hk as [k d Hd|k x d Hd _ IH]; intros Hbad; [by eapply Hone|].
  eapply Hone; [done|]. exists TaskCancelled. split; [by apply IH|by right].
Qed.

Lemma cascade_inv_done root σ0 σ s :
  graph_ok σ0 → cascade_inv root σ0 [] σ → σ0 !! root = Some s → bad s →
  consistent σ ∧ cascade_done root σ0 σ.
Proof.
  intros Hg Hci Hroot Hb. split.
  - destruct Hci. split; [done..|by apply cascaded_nil].
  - split; [|by apply (ci_frame _ _ _ _ Hci)].
    intros k sk Hk Hsk Hf. eapply cascade_inv_below; eauto.
Qed.

Lemma cascade_done_eager root σ0 σ : eager σ0 → cascade_done root σ0 σ → eager σ.
Proof.
  intros He [_ Hfr] k [Hk Hd]. destruct (Hfr k) as [Hk'|(Hk' & _)]; [|congruence].
  apply (He k). split; [congruence|]. intros d Hkd. specialize (Hd d Hkd).
  destruct (Hfr d) as [Hd'|(Hd' & _)]; congruence.
Qed.

(** ** Moves that keep the invariant *)

Lemma unfinished_running σ ω k s :
  status_ok σ ω → σ !! k = Some s → ¬ finished s → ω = WorkflowRunning.
Proof.
  intros Hok Hk Hf. destruct ω; [|done|exfalso..]; simpl in Hok.
  - subst. by apply lookup_empty_Some in Hk.
  - apply Hf. left. by apply (proj2 Hok k).
  - by apply Hf, (proj1 Hok k).
  - by apply Hf, (proj1 Hok k).
Qed.

(** Moving an unfinished task to an active status. *)
Lemma move_active_inv σ ω k s s' :
  spec_inv σ ω → spec_step σ (<[k := s']> σ) → σ !! k = Some s → ¬ finished s → active s' →
  spec_inv (<[k := s']> σ) ω.
Proof.
  intros [Hc He Ho] Hstep Hk Hf Ha. split.
  - eapply spec_step_consistent; [done|by eauto| |done]. by_status.
  - apply move_eager; [by_status..|done].
  - rewrite (unfinished_running _ _ _ _ Ho Hk Hf). simpl.
    eapply unfinished_not_all; [by rewrite lookup_insert_eq|]. by_status.
Qed.

(** Rescheduling after some steps restores the invariant once the workflow is
    finalized. *)
Lemma mark_finalize_inv σ σ' ω :
  status_ok σ ω → rtc spec_step σ σ' → consistent σ' →
  spec_inv (mark_ready σ') (finalize (mark_ready σ') ω).
Proof.
  intros Ho Hr Hc. split; [by apply mark_ready_consistent|apply mark_ready_eager|].
  apply finalize_ok. eapply status_ok_steps; [done|]. etrans; [done|apply mark_ready_steps].
Qed.

Lemma finalize_step σ ω : rtc workflow_step ω (finalize σ ω).
Proof.
  unfold finalize. case_decide; [|done]. destruct (workflowStatusesGraph _ _) eqn:Hg; [|done].
  by apply rtc_once, workflow_step_graph.
Qed.

Lemma cancel_status_step ω : rtc workflow_step ω (cancel_status ω).
Proof.
  unfold cancel_status. case_decide as Hd; [|done].
  apply rtc_once, workflow_step_graph. by destruct Hd as [->| ->].
Qed.

Lemma try_move_known s' σ k : known s' → all_known σ → all_known (try_move s' σ k).
Proof.
  intros Hs' Hkn x s. rewrite lookup_try_move. destruct (σ !! x) as [sx|] eqn:Hx; simpl; [|done].
  specialize (Hkn _ _ Hx). repeat case_match; intros [= <-]; done.
Qed.

(** A report the table accepts is a step. *)
Lemma report_step σ k s s' :
  consistent σ → σ !! k = Some s → taskStatusesGraph s s' = true →
  s' = TaskRunning ∨ s' = TaskSucceeded ∨ s' = TaskFailed →
  ¬ finished s ∧ spec_step σ (<[k := s']> σ).
Proof.
  intros Hc Hk Hg Hs'. pose proof (con_known _ Hc _ _ Hk) as Hkn.
  destruct Hs' as [->|Hs'].
  - destruct s; try done; [|by_status]. split; [by_status|by apply spec_run].
  - assert (executing s) by (destruct Hs' as [->| ->]; destruct s; try done; by_status).
    split; [by_status|by eapply spec_report].
Qed.

Lemma good_report_consistent σ k s s' :
  consistent σ → σ !! k = Some s → taskStatusesGraph s s' = true → s' = TaskRunning ∨ s' = TaskSucceeded →
  consistent (<[k := s']> σ) ∧ spec_step σ (<[k := s']> σ).
Proof.
  intros Hc Hk Hg Hs'. destruct (report_step σ k s s') as [Hf Hstep]; [done..|by intuition|].
  split; [|done]. eapply spec_step_consistent; [done|by eauto|by_status|done].
Qed.

(** The transition table lets task [k] move to [s]. *)
Definition accepts σ k s : bool :=
  match σ !! k with Some s0 => taskStatusesGraph s0 s | None => false end.

(** The effect of a report of status [s] on task [k], before rescheduling. *)
Definition reported σ k s σ' : Prop :=
  if accepts σ k s then
    match s with
    | TaskRunning | TaskSucceeded => σ' = <[k := s]> σ
    | TaskFailed => cascade_done k (<[k := TaskFailed]> σ) σ'
    | _ => σ' = σ
    end
  else σ' = σ.
End spec.
