(* ===== verification/EngineBase.v ===== *)
(** * The engine's operations on one workflow

    How each private method of the engine changes the workflow it works on,
    in terms of the abstract state of [WorkflowSpec.v]: [at_state e σ ω] says
    that, of everything in [workflows], only workflow [w] differs from the
    starting engine [e0], that its tasks have statuses [σ] and it has status
    [ω], and that nothing but statuses, assignments and results changed. *)

From stdpp Require Import base gmap strings list relations.
From Stdlib Require Import ZArith Lia.
From S2P Require Import Prelude Status Domain Dag NewWorkflow EventBus Jobs GoFloat Engine WorkflowSpec.

(** ** The abstract state of a workflow *)

Definition task_statuses (wf : Workflow) : statuses := task_status <$> Tasks wf.
Definition graph_of (wf : Workflow) : gmap string (list string) := DependsOn <$> Tasks wf.

(** A task without what the engine may change. *)
Definition frozen (t : Task) : Task := set_task_status TaskPending (set_AssignedTo "" (Task_SetResult None t)).

(** A workflow without what the engine may change. *)
Definition frozen_wf (wf : Workflow) : Workflow :=
  set_wf_status WorkflowPending (set_Tasks (frozen <$> Tasks wf) wf).

(** [wf.Tasks[k] = t] *)
Definition put_task (k : string) (t : Task) (wf : Workflow) : Workflow := set_Tasks (<[k := t]> (Tasks wf)) wf.

Lemma frozen_inj_fields t t' :
  frozen t = frozen t' →
  task_ID t = task_ID t' ∧ task_WorkflowID t = task_WorkflowID t' ∧ DependsOn t = DependsOn t' ∧
  Spec t = Spec t' ∧ Timeout t = Timeout t'.
Proof. by destruct t, t'; intros [= ?]; simplify_eq/=. Qed.

Lemma frozen_status s t : frozen (set_task_status s t) = frozen t.
Proof. by destruct t. Qed.
Lemma frozen_assigned v t : frozen (set_AssignedTo v t) = frozen t.
Proof. by destruct t. Qed.
Lemma frozen_result v t : frozen (Task_SetResult v t) = frozen t.
Proof. by destruct t. Qed.
Lemma status_set_status s t : task_status (set_task_status s t) = s.
Proof. by destruct t. Qed.
Lemma status_set_assigned v t : task_status (set_AssignedTo v t) = task_status t.
Proof. by destruct t. Qed.
Lemma status_set_result v t : task_status (Task_SetResult v t) = task_status t.
Proof. by destruct t. Qed.
Lemma Tasks_set_Tasks v wf : Tasks (set_Tasks v wf) = v.
Proof. by destruct wf. Qed.
Lemma Tasks_set_wf_status v wf : Tasks (set_wf_status v wf) = Tasks wf.
Proof. by destruct wf. Qed.
Lemma frozen_wf_status v wf : frozen_wf (set_wf_status v wf) = frozen_wf wf.
Proof. by destruct wf. Qed.
Lemma wf_status_set_Tasks v wf : wf_status (set_Tasks v wf) = wf_status wf.
Proof. by destruct wf. Qed.
Lemma wf_status_set_wf_status v wf : wf_status (set_wf_status v wf) = v.
Proof. by destruct wf. Qed.
Lemma set_Tasks_id wf : set_Tasks (Tasks wf) wf = wf.
Proof. by destruct wf. Qed.

#[export] Hint Rewrite frozen_status frozen_assigned frozen_result status_set_status status_set_assigned
  status_set_result Tasks_set_Tasks Tasks_set_wf_status frozen_wf_status wf_status_set_Tasks
  wf_status_set_wf_status set_Tasks_id : orc.

Lemma frozen_wf_Tasks wf : Tasks (frozen_wf wf) = frozen <$> Tasks wf.
Proof. unfold frozen_wf. by autorewrite with orc. Qed.

Lemma frozen_wf_ID wf wf' : frozen_wf wf = frozen_wf wf' → wf_ID wf = wf_ID wf'.
Proof. destruct wf, wf'. by intros [= -> _ _ _]. Qed.

Lemma frozen_wf_Name wf wf' : frozen_wf wf = frozen_wf wf' → wf_Name wf = wf_Name wf'.
Proof. destruct wf, wf'. by intros [= _ _ -> _]. Qed.

Lemma frozen_wf_put k t t0 wf :
  Tasks wf !! k = Some t0 → frozen t = frozen t0 → frozen_wf (put_task k t wf) = frozen_wf wf.
Proof.
  intros Hk Ht. destruct wf as [i tn n ts st c u]. unfold frozen_wf, put_task. simpl in *. f_equal.
  rewrite fmap_insert, Ht. apply insert_id. by rewrite lookup_fmap, Hk.
Qed.

Lemma task_statuses_put k t wf : task_statuses (put_task k t wf) = <[k := task_status t]> (task_statuses wf).
Proof. unfold task_statuses, put_task. autorewrite with orc. by rewrite fmap_insert. Qed.

(** Tasks of two workflows with the same frozen part correspond. *)
Lemma frozen_lookup wf wf' k t :
  frozen_wf wf' = frozen_wf wf → Tasks wf !! k = Some t →
  ∃ t', Tasks wf' !! k = Some t' ∧ frozen t' = frozen t.
Proof.
  intros Hf Hk. assert (frozen <$> Tasks wf' !! k = Some (frozen t)) as (t' & ? & ?)%fmap_Some; [|by eauto].
  by rewrite <-lookup_fmap, <-frozen_wf_Tasks, Hf, frozen_wf_Tasks, lookup_fmap, Hk.
Qed.

Lemma graph_of_frozen wf wf' : frozen_wf wf' = frozen_wf wf → graph_of wf' = graph_of wf.
Proof.
  intros Hf. assert (∀ wf, graph_of wf = DependsOn <$> Tasks (frozen_wf wf)) as Hg.
  { intros w. rewrite frozen_wf_Tasks. unfold graph_of. rewrite <-map_fmap_compose.
    apply map_fmap_ext. by intros k []. }
  by rewrite (Hg wf'), Hf, <-Hg.
Qed.

Lemma depends_dep wf k d : depends (Tasks wf) k d ↔ dep (graph_of wf) k d.
Proof.
  unfold depends, dep, graph_of. setoid_rewrite lookup_fmap. setoid_rewrite fmap_Some.
  split; [intros (t & -> & ?); eauto|intros (l & (t & ? & ->) & ?); eauto].
Qed.

Lemma wellformed_frozen wf wf' : frozen_wf wf' = frozen_wf wf → wf_wellformed wf → wf_wellformed wf'.
Proof.
  intros Hf [Hc Ha Ho].
  assert (same_graph (Tasks wf) (Tasks wf')) as Hg.
  { intros k. assert (frozen <$> Tasks wf !! k = frozen <$> Tasks wf' !! k) as Hk.
    { by rewrite <-!lookup_fmap, <-!frozen_wf_Tasks, Hf. }
    destruct (Tasks wf !! k), (Tasks wf' !! k); try done; simpl in Hk; injection Hk as Hk.
    simpl. by apply frozen_inj_fields in Hk as (-> & _ & -> & _). }
  split; [by eapply same_graph_closed|intros k; by eapply same_graph_acc|].
  intros k t Ht. destruct (frozen_lookup wf' wf k t) as (t0 & Hk & Ht0); [done..|].
  rewrite (frozen_wf_ID _ _ Hf), <-(Ho k t0 Hk).
  by apply frozen_inj_fields in Ht0 as (_ & -> & _).
Qed.

Lemma wellformed_graph_ok wf : wf_wellformed wf → graph_ok (graph_of wf) (task_statuses wf).
Proof.
  intros [Hc Ha _]. split.
  - intros k. unfold graph_of, task_statuses. by rewrite !lookup_fmap, !fmap_is_Some.
  - intros k d (t & Hk & Hd)%depends_dep. unfold graph_of. rewrite lookup_fmap, fmap_is_Some.
    by apply (Hc _ _ Hk).
  - intros k. induction (Ha k) as [k _ IH]. constructor. intros y Hy. apply IH. by apply depends_dep.
Qed.

(** ** What the operations leave alone *)

Section frames.
Context `{W : World} {H : Type}.
Implicit Types (e : Engine H) (r : TaskRef).

(** The fields of an engine apart from its workflows do not matter to the
    lookups. *)
Lemma workflows_set_queue v e : workflows (set_queue v e) = workflows e.
Proof. by destruct e. Qed.
Lemma workflows_set_bus v e : workflows (set_bus v e) = workflows e.
Proof. by destruct e. Qed.
Lemma workflows_set_cancel_calls v e : workflows (set_cancel_calls v e) = workflows e.
Proof. by destruct e. Qed.
Lemma workflows_next_tick e : workflows (next_tick e) = workflows e.
Proof. by destruct e. Qed.
Lemma workflows_set_workflows v e : workflows (set_workflows v e) = v.
Proof. by destruct e. Qed.
Lemma workflows_publish ev e : workflows (publish_event ev e) = workflows e.
Proof. unfold publish_event. by rewrite workflows_next_tick, workflows_set_bus. Qed.
Lemma workflows_pushJob e r : workflows (pushJob e r) = workflows e.
Proof. unfold pushJob. destruct (get_task e r); [apply workflows_set_queue|done]. Qed.

Lemma workflows_notify e refs : workflows (notifyWorkersOfCancellation e refs) = workflows e.
Proof.
  unfold notifyWorkersOfCancellation. case_match; [done|].
  by rewrite workflows_set_cancel_calls, workflows_next_tick.
Qed.

Lemma tasks_of_Some e w wf : workflows e !! w = Some wf → tasks_of e w = Tasks wf.
Proof. unfold tasks_of. by intros ->. Qed.

Lemma get_task_Some e w wf k :
  workflows e !! w = Some wf → get_task e {| ref_wf := w; ref_task := k |} = Tasks wf !! k.
Proof. intros Hw. unfold get_task. simpl. by rewrite (tasks_of_Some _ _ _ Hw). Qed.

Lemma mod_task_workflows e w k wf t f :
  workflows e !! w = Some wf → Tasks wf !! k = Some t →
  workflows (mod_task {| ref_wf := w; ref_task := k |} f e) = <[w := put_task k (f t) wf]> (workflows e).
Proof.
  intros Hw Hk. unfold mod_task. rewrite workflows_set_workflows. simpl.
  rewrite (alter_alt_Some _ _ _ _ Hw). f_equal. unfold put_task.
  by rewrite (alter_alt_Some _ _ _ _ Hk).
Qed.

Lemma mod_workflow_workflows e w wf f :
  workflows e !! w = Some wf → workflows (mod_workflow w f e) = <[w := f wf]> (workflows e).
Proof.
  intros Hw. unfold mod_workflow. by rewrite workflows_set_workflows, (alter_alt_Some _ _ _ _ Hw).
Qed.
End frames.

#[export] Hint Rewrite @workflows_set_queue @workflows_set_bus @workflows_set_cancel_calls @workflows_next_tick
  @workflows_set_workflows @workflows_publish @workflows_pushJob @workflows_notify : orc.

(** ** Working on one workflow *)

Section at_state.
Context `{W : World} {H : Type}.
Context (e0 : Engine H) (w : string) (wf0 : Workflow).
Context (Hwf0 : workflows e0 !! w = Some wf0) (Hok : wf_wellformed wf0).

#[local] Abbreviation G := (graph_of wf0).
#[local] Abbreviation ref k := {| ref_wf := w; ref_task := k |}.
Implicit Types (e : Engine H) (σ : statuses) (k : string).

Definition at_state e σ (ω : WorkflowStatus) : Prop :=
  ∃ wf, workflows e = <[w := wf]> (workflows e0) ∧ frozen_wf wf = frozen_wf wf0 ∧
    task_statuses wf = σ ∧ wf_status wf = ω.

Lemma at_state_start : at_state e0 (task_statuses wf0) (wf_status wf0).
Proof. exists wf0. by rewrite insert_id. Qed.

(** Steps that do not touch the workflows. *)
Lemma at_state_same e e' σ ω : workflows e' = workflows e → at_state e σ ω → at_state e' σ ω.
Proof. intros He (wf & Hw & ?). exists wf. by rewrite He. Qed.

Lemma at_state_lookup e σ ω :
  at_state e σ ω →
  ∃ wf, workflows e !! w = Some wf ∧ frozen_wf wf = frozen_wf wf0 ∧ task_statuses wf = σ ∧
    wf_status wf = ω ∧ wf_wellformed wf ∧ graph_of wf = G.
Proof.
  intros (wf & Hw & Hf & Hs & Ho). exists wf. rewrite Hw, lookup_insert_eq.
  split_and!; [done..|by eapply wellformed_frozen|by apply graph_of_frozen].
Qed.

(** The task behind a status. *)
Lemma at_state_task e σ ω k s :
  at_state e σ ω → σ !! k = Some s →
  ∃ t, get_task e (ref k) = Some t ∧ task_status t = s ∧ task_ID t = k ∧ task_WorkflowID t = wf_ID wf0 ∧
    G !! k = Some (DependsOn t) ∧ (∃ t0, Tasks wf0 !! k = Some t0 ∧ frozen t = frozen t0).
Proof.
  intros (wf & Hw & Hf & Hs & Ho & [Hc _ Hown] & Hg)%at_state_lookup Hk.
  rewrite <-Hs in Hk. unfold task_statuses in Hk. rewrite lookup_fmap, fmap_Some in Hk.
  destruct Hk as (t & Hk & ->). exists t. rewrite (get_task_Some _ _ _ _ Hw).
  split_and!; [done..|by apply (Hc k t)|by rewrite (Hown _ _ Hk); apply frozen_wf_ID| |].
  - rewrite <-Hg. unfold graph_of. by rewrite lookup_fmap, Hk.
  - destruct (frozen_lookup wf wf0 k t) as (t0 & ? & ?); [done..|]. eauto.
Qed.

Lemma at_state_no_task e σ ω k : at_state e σ ω → σ !! k = None → get_task e (ref k) = None.
Proof.
  intros (wf & Hw & Hf & Hs & _)%at_state_lookup Hk. rewrite (get_task_Some _ _ _ _ Hw).
  rewrite <-Hs in Hk. unfold task_statuses in Hk. by rewrite lookup_fmap, fmap_None in Hk.
Qed.

Lemma at_state_dom e σ ω k : at_state e σ ω → is_Some (tasks_of e w !! k) ↔ is_Some (σ !! k).
Proof.
  intros (wf & Hw & _ & Hs & _)%at_state_lookup. rewrite (tasks_of_Some _ _ _ Hw), <-Hs.
  unfold task_statuses. by rewrite lookup_fmap, fmap_is_Some.
Qed.

(** Assignments through task and workflow pointers. *)
Lemma mod_task_at_state e σ ω k f t :
  at_state e σ ω → get_task e (ref k) = Some t → frozen (f t) = frozen t →
  at_state (mod_task (ref k) f e) (<[k := task_status (f t)]> σ) ω.
Proof.
  intros Hat Ht Hf. pose proof Hat as (wf & Hw & Hfr & Hs & Ho & _)%at_state_lookup.
  rewrite (get_task_Some _ _ _ _ Hw) in Ht. exists (put_task k (f t) wf). split_and!.
  - destruct Hat as (wf' & Hw' & _). rewrite (mod_task_workflows _ _ _ _ _ _ Hw Ht), Hw'.
    apply insert_insert_eq.
  - by rewrite (frozen_wf_put _ _ _ _ Ht Hf).
  - by rewrite task_statuses_put, Hs.
  - unfold put_task. by autorewrite with orc.
Qed.

Lemma mod_workflow_at_state e σ ω ω' :
  at_state e σ ω → ∀ wf, workflows e !! w = Some wf →
  at_state (mod_workflow w (λ _, set_wf_status ω' wf) e) σ ω'.
Proof.
  intros Hat wf Hw. pose proof Hat as (wf1 & Hw1 & Hfr & Hs & Ho & _)%at_state_lookup. simplify_eq.
  eexists. split_and!.
  - destruct Hat as (wf' & Hw' & _). rewrite (mod_workflow_workflows _ _ _ _ Hw), Hw'.
    apply insert_insert_eq.
  - by autorewrite with orc.
  - unfold task_statuses. by autorewrite with orc.
  - by autorewrite with orc.
Qed.

(** ** Status updates *)

Lemma UpdateTaskStatus_spec e σ ω k s s' :
  at_state e σ ω → σ !! k = Some s →
  let '(ok, e') := UpdateTaskStatus e (ref k) s' in
  ok = taskStatusesGraph s s' ∧
  at_state e' (if taskStatusesGraph s s' then <[k := s']> σ else σ) ω.
Proof.
  intros Hat Hk. destruct (at_state_task _ _ _ _ _ Hat Hk) as (t & Ht & <- & _).
  unfold UpdateTaskStatus. rewrite Ht. unfold Task_UpdateStatus, TaskStatus_CanTransitTo.
  case_decide as Heq.
  { rewrite <-Heq. by destruct (task_status t). }
  destruct (taskStatusesGraph _ _); [|done]. split; [done|].
  eapply at_state_same; [by autorewrite with orc|].
  pose proof (mod_task_at_state e σ ω k (λ _, set_task_status s' t) t Hat Ht (frozen_status _ _)) as Hm.
  cbv beta in Hm. by rewrite status_set_status in Hm.
Qed.

Lemma UpdateWorkflowStatus_spec e σ ω ω' :
  at_state e σ ω →
  at_state (UpdateWorkflowStatus e w ω').2 σ (if workflowStatusesGraph ω ω' then ω' else ω).
Proof.
  intros Hat. pose proof Hat as (wf & Hw & _ & _ & Ho & _)%at_state_lookup.
  unfold UpdateWorkflowStatus. rewrite Hw. unfold Workflow_UpdateStatus, WorkflowStatus_CanTransitTo.
  rewrite Ho. case_decide as Heq.
  { rewrite <-Heq. by destruct ω. }
  destruct (workflowStatusesGraph _ _); [|done]. simpl.
  eapply at_state_same; [by autorewrite with orc|]. by eapply mod_workflow_at_state.
Qed.

(** A status update is a guarded move of the abstract state. *)
Lemma UpdateTaskStatus_move e σ ω k s' :
  at_state e σ ω → at_state (UpdateTaskStatus e (ref k) s').2 (try_move s' σ k) ω.
Proof.
  intros Hat. unfold try_move. destruct (σ !! k) as [s|] eqn:Hk.
  - pose proof (UpdateTaskStatus_spec e σ ω k s s' Hat Hk) as Hu.
    by destruct (UpdateTaskStatus e (ref k) s') as [ok e'], Hu.
  - unfold UpdateTaskStatus. by rewrite (at_state_no_task _ _ _ _ Hat Hk).
Qed.

(** ** Scheduling *)

Lemma recomputeReadyTasks_spec e σ ω wf k :
  at_state e σ ω → workflows e !! w = Some wf → all_known σ →
  k ∈ (recomputeReadyTasks e wf).1 ↔ ready_now G σ k.
Proof.
  intros Hat Hw Hkn. pose proof Hat as (wf' & Hw' & _ & Hs & _ & [Hc _ _] & Hg)%at_state_lookup. simplify_eq.
  unfold recomputeReadyTasks. simpl. rewrite list_elem_of_omap. unfold ready_now, task_statuses.
  split.
  - intros (x & _ & (t & Ht & Hx)%bind_Some). case_match eqn:Hcond; [|done]. injection Hx as Hx.
    apply andb_true_iff in Hcond as [Hr%Task_IsReady_spec Hd].
    destruct (Hc _ _ Ht) as [Hid _]. rewrite Hid in Hx. subst x.
    setoid_rewrite lookup_fmap. rewrite Ht. split.
    + simpl. destruct Hr as [->|Hr]; [done|]. exfalso. destruct (Hkn k (task_status t)) as [Hn _]; [|done].
      unfold task_statuses. by rewrite lookup_fmap, Ht.
    + intros d Hkd. rewrite <-Hg in Hkd. apply depends_dep in Hkd as (t' & Ht' & Hin). simplify_eq.
      rewrite AllDepsSucceeded_spec in Hd. destruct (Hd d Hin) as (td & -> & Htd). simpl. by rewrite Htd.
  - rewrite lookup_fmap, fmap_Some. intros [(t & Ht & Hst) Hdeps]. exists k.
    rewrite elem_of_range_keys. split; [by eauto|]. rewrite Ht. simpl.
    rewrite (proj2 (Task_IsReady_spec t)) by (by left). simpl.
    rewrite (proj2 (AllDepsSucceeded_spec t wf)); [f_equal; by apply (Hc k)|].
    intros d Hd. assert (dep G k d) as Hkd by (rewrite <-Hg; apply depends_dep; by exists t).
    specialize (Hdeps d Hkd). rewrite lookup_fmap, fmap_Some in Hdeps. destruct Hdeps as (td & ? & ?). eauto.
Qed.

Lemma markReady_move e σ ω k :
  at_state e σ ω → at_state (markReady w e k) (try_move TaskReady σ k) ω.
Proof.
  intros Hat. unfold markReady. destruct (get_task e (ref k)) as [t|] eqn:Ht.
  - eapply at_state_same; [by autorewrite with orc|]. by apply UpdateTaskStatus_move.
  - unfold try_move. destruct (σ !! k) as [s|] eqn:Hk; [|done].
    destruct (at_state_task _ _ _ _ _ Hat Hk) as (t & ? & _). congruence.
Qed.

(** The status [markReadyTasks] leaves: a pending workflow starts running when
    some task becomes ready. *)
Definition mark_status σ (ω : WorkflowStatus) : WorkflowStatus :=
  if decide (ω = WorkflowPending ∧ map_Exists (λ k _, ready_now G σ k) σ) then WorkflowRunning else ω.

Lemma markReadyTasks_spec e σ ω :
  at_state e σ ω → all_known σ →
  at_state (markReadyTasks e w) (mark_ready G σ) (mark_status σ ω).
Proof.
  intros Hat Hkn. pose proof Hat as (wf & Hw & _ & _ & Ho & _)%at_state_lookup.
  unfold markReadyTasks. rewrite Hw.
  pose proof (λ k, recomputeReadyTasks_spec e σ ω wf k Hat Hw Hkn) as HL.
  destruct (recomputeReadyTasks e wf) as [L e1] eqn:Hrec. simpl in HL.
  assert (at_state e1 σ ω) as Hat1.
  { eapply at_state_same; [|exact Hat]. unfold recomputeReadyTasks in Hrec. simplify_eq.
    apply workflows_next_tick. }
  rewrite <-(try_moves_ready _ L) by done.
  assert (L ≠ [] ↔ map_Exists (λ k _, ready_now G σ k) σ) as HL0.
  { unfold map_Exists. setoid_rewrite <-HL. split.
    - destruct L as [|k L]; [done|]. intros _. exists k.
      destruct (proj1 (HL k)) as [Hk _]; [left|]. exists TaskPending. split; [done|left].
    - intros (k & s & _ & Hk) ->. by apply elem_of_nil in Hk. }
  match goal with |- context [foldl _ ?x L] => set (e2 := x) end.
  assert (at_state e2 σ (mark_status σ ω)) as Hat2.
  { unfold e2, mark_status, Workflow_GetStatus. rewrite Ho. rewrite bool_decide_decide.
    destruct (decide (L ≠ [])) as [Hne|Hne], (bool_decide (ω = WorkflowPending)) eqn:Hb; simpl.
    - apply bool_decide_eq_true in Hb as ->. rewrite decide_True by tauto.
      by apply (UpdateWorkflowStatus_spec _ _ WorkflowPending WorkflowRunning).
    - apply bool_decide_eq_false in Hb. by rewrite decide_False by tauto.
    - by rewrite decide_False by tauto.
    - by rewrite decide_False by tauto. }
  clearbody e2. revert Hat2. generalize (mark_status σ ω) as ω'. clear -Hok. intros ω'. revert e2 σ.
  induction L as [|k L IH]; intros e2 σ Hat; simpl; [done|]. by apply IH, markReady_move.
Qed.

(** ** Finalization *)

Lemma target_status_spec wf :
  (if HasFailedTask wf then WorkflowFailed
   else if HasCancelledTask wf then WorkflowCancelled else WorkflowSucceeded)
  = target_status (task_statuses wf).
Proof.
  assert (∀ s, map_Exists (λ _ s', s' = s) (task_statuses wf) ↔
    ∃ k t, Tasks wf !! k = Some t ∧ task_status t = s) as He.
  { intros s. unfold map_Exists, task_statuses. setoid_rewrite lookup_fmap. setoid_rewrite fmap_Some.
    split; [intros (k & s' & (t & Ht & ->) & Hs); eauto|intros (k & t & Ht & Hs); eauto 6]. }
  unfold target_status.
  destruct (HasFailedTask wf) eqn:Hf.
  { rewrite decide_True; [done|]. by apply He, HasFailedTask_spec. }
  rewrite decide_False by (rewrite He, <-HasFailedTask_spec; congruence).
  destruct (HasCancelledTask wf) eqn:Hc.
  { rewrite decide_True; [done|]. by apply He, HasCancelledTask_spec. }
  by rewrite decide_False by (rewrite He, <-HasCancelledTask_spec; congruence).
Qed.

Lemma AllTasksFinished_statuses wf : AllTasksFinished wf = true ↔ all_finished (task_statuses wf).
Proof.
  rewrite AllTasksFinished_spec. unfold all_finished, task_statuses. setoid_rewrite lookup_fmap.
  setoid_rewrite fmap_Some. split; [intros Hf k s (t & Ht & ->); eauto|intros Hf k t Ht; eauto].
Qed.

Lemma finalize_spec e σ ω :
  at_state e σ ω → at_state (finalizeWorkflowIfDone e w) σ (finalize σ ω).
Proof.
  intros Hat. pose proof Hat as (wf & Hw & _ & Hs & Ho & _)%at_state_lookup.
  unfold finalizeWorkflowIfDone, finalize. rewrite Hw, target_status_spec, Hs.
  assert (Workflow_IsFinished wf = WorkflowStatus_IsTerminated ω) as ->.
  { unfold Workflow_IsFinished, WorkflowStatus_IsTerminated. by rewrite Ho. }
  destruct (AllTasksFinished wf) eqn:Hall; simpl.
  2:{ rewrite orb_true_r, decide_False; [done|]. intros H1.
      rewrite <-Hs in H1. apply AllTasksFinished_statuses in H1. congruence. }
  apply AllTasksFinished_statuses in Hall. rewrite Hs in Hall. rewrite decide_True by done.
  pose proof (UpdateWorkflowStatus_spec e σ ω (target_status σ) Hat). by destruct ω.
Qed.

(** ** Cancelling a whole workflow *)

Lemma cancelOne_move running e σ ω k :
  at_state e σ ω → at_state (cancelOne w (running, e) k).2 (try_move TaskCancelled σ k) ω.
Proof.
  intros Hat. unfold cancelOne. destruct (get_task e (ref k)) as [t|] eqn:Ht.
  - destruct (Task_IsFinished t) eqn:Hf; [|by apply UpdateTaskStatus_move].
    simpl. unfold try_move. destruct (σ !! k) as [s|] eqn:Hk; [|done].
    destruct (at_state_task _ _ _ _ _ Hat Hk) as (t' & Ht' & <- & _). simplify_eq.
    apply Task_IsFinished_spec in Hf. destruct Hf as [->|[->| ->]]; done.
  - simpl. unfold try_move. destruct (σ !! k) as [s|] eqn:Hk; [|done].
    destruct (at_state_task _ _ _ _ _ Hat Hk) as (t & ? & _). congruence.
Qed.

Lemma cancelOnes_move L running e σ ω :
  at_state e σ ω → at_state (foldl (cancelOne w) (running, e) L).2 (foldl (try_move TaskCancelled) σ L) ω.
Proof.
  revert running e σ. induction L as [|k L IH]; intros running e σ Hat; [done|]. cbn [foldl].
  pose proof (cancelOne_move running e σ ω k Hat) as Hat'. destruct (cancelOne w (running, e) k) as [r e'].
  by apply IH.
Qed.

(** ** The cascade *)

Section cascade.
Context (σ0 : statuses) (ω : WorkflowStatus) (root : string).

(** One state of the traversal: [pend] is the task being visited, if any. *)
Definition cascade_at e (pend q : list string) σ : Prop :=
  at_state e σ ω ∧ cascade_inv G root σ0 (pend ++ q) σ.

(** The outcome of a part of the traversal that ends in [acc]: nothing to
    report to the workers, and every task cancelled was queued. *)
Definition visited (pend q : list string) σ (acc : list RunningTaskRef * list string * Engine H)
    (q' : list string) σ' : Prop :=
  acc.1 = ([], q') ∧ cascade_at acc.2 pend q' σ' ∧ rtc (spec_step G) σ σ' ∧
  unfinished_left σ' + length q' = unfinished_left σ + length q.

Lemma cancelVisit_cascade q e σ id k :
  cascade_at e [id] q σ →
  ∃ q' σ', visited [id] q σ (cancelVisit w id ([], q, e) k) q' σ' ∧
    (dep G k id → ∀ s, σ' !! k = Some s → finished s).
Proof.
  intros [Hat Hci]. unfold cancelVisit.
  destruct (σ !! k) as [s|] eqn:Hk.
  2:{ rewrite (at_state_no_task _ _ _ _ Hat Hk). exists q, σ. split; [done|]. congruence. }
  destruct (at_state_task _ _ _ _ _ Hat Hk) as (t & Ht & Hst & Hid & _ & Hdeps & _). rewrite Ht.
  destruct (Task_IsFinished t) eqn:Hf.
  { apply Task_IsFinished_spec in Hf. exists q, σ. split; [done|]. congruence. }
  apply Task_IsFinished_false in Hf. rewrite Hst in Hf.
  destruct (decide (id ∈ DependsOn t)) as [Hin|Hnin].
  2:{ exists q, σ. split; [done|]. intros (l & Hl & Hd). congruence. }
  assert (dep G k id) as Hdep by by exists (DependsOn t).
  destruct (ci_queue _ _ _ _ _ Hci id) as [_ (sid & Hsid & Hb)]; [left|].
  assert (s = TaskPending) as -> by (eapply below_bad_pending; [by eapply ci_safe|by eapply ci_known|done..]).
  unfold Task_GetStatus. rewrite Hst, Hid. simpl.
  pose proof (UpdateTaskStatus_spec e σ ω k TaskPending TaskCancelled Hat Hk) as Hu.
  destruct (UpdateTaskStatus e (ref k) TaskCancelled) as [ok e']. destruct Hu as [-> Hat']. simpl in *.
  exists (q ++ [k]), (<[k := TaskCancelled]> σ). split.
  - split_and!; [done|split; [done|]|apply rtc_once; by eapply spec_cancel|].
    + by eapply (cascade_inv_visit _ _ _ (id :: q)); [..|left|done|done|].
    + rewrite length_app. simpl. enough (S (unfinished_left (<[k:=TaskCancelled]> σ)) = unfinished_left σ) by lia.
      eapply unfinished_left_finish; [done..|by_status].
  - intros _ s'. rewrite lookup_insert_eq. intros [= <-]. by_status.
Qed.

Lemma cancelVisits_cascade ks q e σ id :
  cascade_at e [id] q σ →
  ∃ q' σ', visited [id] q σ (foldl (cancelVisit w id) ([], q, e) ks) q' σ' ∧
    ∀ k s, k ∈ ks → dep G k id → σ' !! k = Some s → finished s.
Proof.
  revert q e σ. induction ks as [|k ks IH]; intros q e σ Hc; cbn [foldl].
  { exists q, σ. split; [done|]. by intros k s ?%elem_of_nil. }
  destruct (cancelVisit_cascade q e σ id k Hc) as (q1 & σ1 & (Hq1 & Hc1 & Hr1 & Hn1) & Hfin1).
  destruct (cancelVisit w id ([], q, e) k) as [acc e1]. simpl in *. subst acc.
  destruct (IH q1 e1 σ1 Hc1) as (q2 & σ2 & (Hq2 & Hc2 & Hr2 & Hn2) & Hfin2).
  exists q2, σ2. split; [split_and!; [done|done|by etrans|lia]|].
  intros x s [->|Hx]%elem_of_cons Hd Hs; [|by eapply Hfin2].
  destruct (σ1 !! k) as [s1|] eqn:Hs1.
  - pose proof (spec_steps_finished _ _ _ _ _ Hr2 Hs1 (Hfin1 Hd s1 eq_refl)). simplify_eq. by eapply Hfin1.
  - apply not_elem_of_dom in Hs1. rewrite <-(spec_steps_dom _ _ _ Hr2) in Hs1.
    apply not_elem_of_dom in Hs1. congruence.
Qed.

(** The dequeued task's dependents are all cancelled after its visit. *)
Lemma cascade_at_pop e id q σ (ks : list string) :
  cascade_at e [id] q σ → (∀ k, is_Some (σ !! k) → k ∈ ks) →
  (∀ k s, k ∈ ks → dep G k id → σ !! k = Some s → finished s) → cascade_at e [] q σ.
Proof.
  intros [Hat Hci] Hks Hfin. split; [done|]. apply (cascade_inv_pop _ _ _ _ _ id); [done|].
  intros k s Hd Hk. destruct (ci_queue _ _ _ _ _ Hci id) as [_ (sid & Hsid & Hb)]; [left|].
  assert (finished s) as Hf by (apply (Hfin k s); [apply Hks; by eexists|done..]).
  destruct (decide (started s)) as [Hst|]; [|by_status].
  rewrite (ci_safe _ _ _ _ _ Hci _ _ _ Hk Hst Hd) in Hsid. simplify_eq. by_status.
Qed.

(** The loop empties its queue within the fuel. *)
Lemma cancelLoop_cascade fuel q e σ :
  cascade_at e [] q σ → unfinished_left σ + length q ≤ fuel →
  ∃ e' σ', cancelLoop fuel w q [] e = ([], [], e') ∧ cascade_at e' [] [] σ'.
Proof.
  revert q e σ. induction fuel as [|fuel IH]; intros [|id q] e σ Hc Hle; simpl in Hle; try lia;
    cbn [cancelLoop]; [by exists e, σ|by exists e, σ|].
  assert (cascade_at (next_tick e) [id] q σ) as Hc0.
  { destruct Hc as [Hat Hci]. split; [|done]. eapply at_state_same; [apply workflows_next_tick|done]. }
  destruct (cancelVisits_cascade (range_keys (tick e) (tasks_of e w)) q (next_tick e) σ id Hc0)
    as (q' & σ' & (Hq & Hc' & Hr & Hn) & Hfin).
  destruct (foldl _ _ _) as [acc e']. simpl in *. subst acc.
  apply (IH q' e' σ'); [|lia]. eapply cascade_at_pop; [done| |exact Hfin].
  intros k Hk. rewrite elem_of_range_keys, (at_state_dom _ _ _ _ (proj1 Hc)), <-elem_of_dom.
  by rewrite <-(spec_steps_dom _ _ _ Hr), elem_of_dom.
Qed.

Lemma cancelDownstream_spec e s :
  at_state e σ0 ω → safe G σ0 → all_known σ0 → cascaded_but G [root] σ0 → σ0 !! root = Some s → bad s →
  ∃ e' σ', cancelDownstream e w root = ([], e') ∧ at_state e' σ' ω ∧ consistent G σ' ∧
    cascade_done G root σ0 σ' ∧ rtc (spec_step G) σ0 σ'.
Proof.
  intros Hat Hs Hkn Hc Hroot Hb. unfold cancelDownstream.
  assert (cascade_at e [] [root] σ0) as Hca by (split; [done|by eapply cascade_inv_start]).
  pose proof Hat as (wf & Hw & Hf & Hsig & _ & Hwf & Hg)%at_state_lookup.
  assert (size (tasks_of e w) = size σ0) as Hsize.
  { rewrite (tasks_of_Some _ _ _ Hw), <-Hsig. symmetry. apply map_size_fmap. }
  destruct (cancelLoop_cascade (S (size (tasks_of e w))) [root] e σ0 Hca) as (e' & σ' & Heq & Hat' & Hci).
  { pose proof (unfinished_left_le σ0). simpl. lia. }
  rewrite Heq. exists e', σ'. split; [done|]. split; [done|].
  destruct (cascade_inv_done G root σ0 σ' s) as [Hcon Hdone]; [|done..|].
  { rewrite <-Hg, <-Hsig. by apply wellformed_graph_ok. }
  split_and!; [done..|]. by apply (ci_steps _ _ _ _ _ Hci).
Qed.
End cascade.
End at_state.

(** ** Notifying the workers *)

Section notify.
Context `{W : World} {H : Type}.
Implicit Types (e : Engine H) (r : TaskRef) (refs : list RunningTaskRef).

(** The tasks of one worker, in the order of [refs]. *)
Definition ids_of (worker : string) refs : list string :=
  TaskID <$> filter (λ ref, WorkerID ref = worker) refs.

Lemma ids_of_app worker refs refs' : ids_of worker (refs ++ refs') = ids_of worker refs ++ ids_of worker refs'.
Proof. unfold ids_of. by rewrite filter_app, fmap_app. Qed.

Lemma group_refs_lookup refs worker :
  group_refs refs !! worker = match ids_of worker refs with [] => None | ids => Some ids end.
Proof.
  unfold group_refs.
  apply (foldl_prefix_inv (λ pre m, m !! worker = match ids_of worker pre with [] => None | ids => Some ids end));
    [apply lookup_empty|].
  intros pre ref rest m _ Hm. rewrite ids_of_app. unfold ids_of at 2. rewrite filter_cons, filter_nil, lookup_insert.
  destruct (decide (WorkerID ref = worker)) as [->|Hne]; simpl.
  - rewrite Hm. by destruct (ids_of worker pre).
  - by rewrite Hm, app_nil_r.
Qed.

(** One batch per worker that has a task to stop, holding exactly its tasks. *)
Lemma notify_calls e refs :
  has_notifier e = true →
  ∃ calls, cancel_calls (notifyWorkersOfCancellation e refs) = cancel_calls e ++ calls ∧
    NoDup calls.*1 ∧ ∀ worker ids, (worker, ids) ∈ calls ↔ ids = ids_of worker refs ∧ ids ≠ [].
Proof.
  intros Hn. unfold notifyWorkersOfCancellation. rewrite Hn, orb_false_r.
  case_bool_decide as Hrefs.
  { exists []. rewrite app_nil_r. split; [done|]. split; [constructor|]. subst.
    intros worker ids. rewrite elem_of_nil. split; [done|by intros [-> ?]]. }
  set (m := group_refs refs). set (calls := omap _ _). exists calls. split; [by destruct e|].
  assert (∀ worker ids, (worker, ids) ∈ calls ↔ m !! worker = Some ids) as Hin.
  { intros worker ids. unfold calls. rewrite list_elem_of_omap. split.
    - intros (x & _ & (ids' & Hx & [= -> ->])%fmap_Some). done.
    - intros Hm. exists worker. rewrite elem_of_range_keys, Hm. by eauto. }
  split.
  - unfold calls. rewrite omap_lookup_fst; [apply NoDup_range_keys|]. intros x. by rewrite elem_of_range_keys.
  - intros worker ids. rewrite Hin. unfold m. rewrite group_refs_lookup.
    destruct (ids_of worker refs) as [|x l]; [naive_solver|].
    split; [by intros [= <-]|by intros [-> _]].
Qed.

(** ** Updates of other tasks *)

Lemma get_task_ext e e' r : workflows e' = workflows e → get_task e' r = get_task e r.
Proof. intros Heq. unfold get_task, tasks_of. by rewrite Heq. Qed.

Lemma get_task_mod_task e r r' f :
  get_task (mod_task r f e) r' = if decide (r = r') then f <$> get_task e r' else get_task e r'.
Proof.
  unfold get_task, tasks_of, mod_task. rewrite workflows_set_workflows, lookup_alter.
  destruct r as [w k], r' as [w' k']. simpl.
  destruct (decide (w = w')) as [->|Hw]; [|by rewrite decide_False by congruence].
  destruct (workflows e !! w') as [wf|]; simpl; [|by rewrite lookup_empty; case_decide].
  autorewrite with orc. rewrite lookup_alter.
  destruct (decide (k = k')) as [->|Hk]; [by rewrite decide_True|by rewrite decide_False by congruence].
Qed.

Lemma get_task_UpdateTaskStatus e r r' s :
  get_task (UpdateTaskStatus e r s).2 r' =
  if decide (r = r')
  then (λ t, if taskStatusesGraph (task_status t) s then set_task_status s t else t) <$> get_task e r'
  else get_task e r'.
Proof.
  unfold UpdateTaskStatus. destruct (get_task e r) as [t|] eqn:Ht.
  2:{ simpl. case_decide; [|done]. subst. by rewrite Ht. }
  unfold Task_UpdateStatus, TaskStatus_CanTransitTo. case_decide as Heq; simpl.
  { case_decide; [|done]. subst. rewrite Ht. simpl. by destruct (task_status t). }
  destruct (taskStatusesGraph (task_status t) s) eqn:Hg; simpl.
  2:{ case_decide; [|done]. subst. rewrite Ht. simpl. by rewrite Hg. }
  erewrite get_task_ext by apply workflows_publish. rewrite get_task_mod_task.
  case_decide; [|done]. subst. rewrite Ht. simpl. by rewrite Hg.
Qed.

(** The references [CancelWorkflow] collects. *)
Definition running_ref e w k : list RunningTaskRef :=
  match get_task e {| ref_wf := w; ref_task := k |} with
  | Some t => if decide (executing (task_status t))
              then [{| TaskID := task_ID t; WorkerID := AssignedTo t |}] else []
  | None => []
  end.

Lemma is_active_spec s : is_active s = true ↔ executing s.
Proof. unfold is_active, executing. by rewrite orb_true_iff, !bool_decide_eq_true. Qed.

Lemma cancelOne_running w running e k :
  (cancelOne w (running, e) k).1 = running ++ running_ref e w k.
Proof.
  unfold cancelOne, running_ref. destruct (get_task e _) as [t|]; [|by rewrite app_nil_r].
  destruct (Task_IsFinished t) eqn:Hf.
  { apply Task_IsFinished_spec in Hf. rewrite decide_False; [by rewrite app_nil_r|by_status]. }
  simpl. unfold Task_GetStatus. destruct (is_active (task_status t)) eqn:Ha.
  - apply is_active_spec in Ha. by rewrite decide_True.
  - rewrite decide_False; [by rewrite app_nil_r|]. rewrite <-is_active_spec. congruence.
Qed.

Lemma cancelOne_frame w running e k k' :
  k ≠ k' → running_ref (cancelOne w (running, e) k).2 w k' = running_ref e w k'.
Proof.
  intros Hne. unfold running_ref, cancelOne.
  destruct (get_task e {| ref_wf := w; ref_task := k |}) as [t|]; [|done].
  destruct (Task_IsFinished t); [done|]. simpl.
  by rewrite get_task_UpdateTaskStatus, decide_False by congruence.
Qed.

(** Every task is inspected before its own update only. *)
Lemma cancelOnes_running w ks running e :
  NoDup ks → (foldl (cancelOne w) (running, e) ks).1 = running ++ (ks ≫= running_ref e w).
Proof.
  revert running e. induction ks as [|k ks IH]; intros running e Hnd; [simpl; by rewrite app_nil_r|].
  apply NoDup_cons in Hnd as [Hk Hnd]. cbn [foldl].
  pose proof (cancelOne_running w running e k) as Hr.
  pose proof (λ k' Hne, cancelOne_frame w running e k k' Hne) as Hfr.
  destruct (cancelOne w (running, e) k) as [running' e']. simpl in *. subst running'.
  rewrite IH, <-app_assoc by done. f_equal. f_equal.
  apply Forall_bind_ext, Forall_forall. intros k' Hk'. apply Hfr. by intros ->.
Qed.

Lemma get_task_UpdateWorkflowStatus e w s r : get_task (UpdateWorkflowStatus e w s).2 r = get_task e r.
Proof.
  unfold UpdateWorkflowStatus. destruct (workflows e !! w) as [wf|] eqn:Hw; [|done].
  unfold Workflow_UpdateStatus. destruct (WorkflowStatus_CanTransitTo _ _); [done|]. simpl.
  erewrite get_task_ext by apply workflows_publish. unfold get_task, tasks_of.
  rewrite (mod_workflow_workflows _ _ _ _ Hw), lookup_insert. case_decide; [|done]. subst. rewrite Hw. simpl.
  by autorewrite with orc.
Qed.
End notify.

(** ** What the status updates do not touch

    A preorder on engines that contains the primitive operations contains every
    method built from them; the case of an observation of the engine that the
    operations keep is [stable]. *)

Section stepwise.
Context `{W : World} {H : Type}.

Record stepwise (R : relation (Engine H)) : Prop := {
  stepwise_preorder : PreOrder R;
  stepwise_cancel e r : R e (UpdateTaskStatus e r TaskCancelled).2;
  stepwise_workflow e w s : R e (UpdateWorkflowStatus e w s).2;
  stepwise_tick e : R e (next_tick e);
}.

Context (R : relation (Engine H)) (HR : stepwise R).
Implicit Types (e : Engine H) (w k : string).
#[local] Instance stepwise_R : PreOrder R := stepwise_preorder R HR.

Lemma stepwise_foldl {A B} (eng : A → Engine H) (f : A → B → A) l a :
  (∀ a b, R (eng a) (eng (f a b))) → R (eng a) (eng (foldl f a l)).
Proof.
  intros Hf. apply (foldl_inv (λ x, R (eng a) (eng x))); [done|]. intros x b _ Hx. by etrans.
Qed.

Lemma stepwise_cancelOnes w ks running e : R e (foldl (cancelOne w) (running, e) ks).2.
Proof.
  apply (stepwise_foldl snd (cancelOne w) ks (running, e)). intros [run e1] k. unfold cancelOne.
  case_match; [|done]. case_match; [done|]. by apply (stepwise_cancel _ HR).
Qed.

Lemma stepwise_cancelVisit w id acc k : R acc.2 (cancelVisit w id acc k).2.
Proof.
  destruct acc as [[running q] e]. unfold cancelVisit. case_match; [|done]. case_match; [done|].
  case_decide; [|done]. pose proof (stepwise_cancel _ HR e {| ref_wf := w; ref_task := k |}) as Hu.
  by destruct (UpdateTaskStatus _ _ _).
Qed.

Lemma stepwise_cancelLoop fuel w q running e : R e (cancelLoop fuel w q running e).2.
Proof.
  revert q running e. induction fuel as [|fuel IH]; intros [|id q] running e; simpl; try done.
  etrans; [apply (stepwise_tick _ HR)|].
  pose proof (stepwise_foldl snd (cancelVisit w id) (range_keys (tick e) (tasks_of e w)) (running, q, next_tick e)
    (stepwise_cancelVisit w id)) as Hf.
  destruct (foldl _ _ _) as [[running' q'] e']. simpl in Hf. etrans; [exact Hf|apply IH].
Qed.

Lemma stepwise_cancelDownstream e w root : R e (cancelDownstream e w root).2.
Proof.
  unfold cancelDownstream. pose proof (stepwise_cancelLoop (S (size (tasks_of e w))) w [root] [] e) as Hc.
  by destruct (cancelLoop _ _ _ _ _) as [[running q] e'].
Qed.

Lemma stepwise_finalize e w : R e (finalizeWorkflowIfDone e w).
Proof. unfold finalizeWorkflowIfDone. repeat case_match; try done; apply (stepwise_workflow _ HR). Qed.

(** If it also contains [pushJob] and the update to READY. *)
Lemma stepwise_markReadyTasks e w :
  (∀ e r, R e (pushJob e r)) → (∀ e r, R e (UpdateTaskStatus e r TaskReady).2) → R e (markReadyTasks e w).
Proof.
  intros Hpush Hready. unfold markReadyTasks. destruct (workflows e !! w) as [wf|]; [|done]. simpl.
  etrans; [|apply (stepwise_foldl id)].
  - etrans; [apply (stepwise_tick _ HR)|]. case_match; [apply (stepwise_workflow _ HR)|done].
  - intros e1 k. unfold markReady, id. case_match; [|done]. etrans; [|apply Hpush]. apply Hready.
Qed.

(** The end of a call that cancels tasks. *)
Lemma stepwise_CancelWorkflow e w :
  (∀ e refs, R e (notifyWorkersOfCancellation e refs)) → R e (CancelWorkflow e w).2.
Proof.
  intros Hn. unfold CancelWorkflow. destruct (workflows e !! w) as [wf|]; [|done].
  pose proof (stepwise_cancelOnes w (range_keys (tick e) (Tasks wf)) [] (next_tick e)) as Hc.
  destruct (foldl _ _ _) as [running e1]. simpl in *. etrans; [apply (stepwise_tick _ HR)|]. etrans; [exact Hc|].
  etrans; [|apply Hn]. apply (stepwise_workflow _ HR).
Qed.

Lemma stepwise_CancelTask e k :
  (∀ e refs, R e (notifyWorkersOfCancellation e refs)) → R e (CancelTask e k).2.
Proof.
  intros Hn. unfold CancelTask, findTask. simpl. etrans; [apply (stepwise_tick _ HR)|].
  match goal with |- context [r ← ?x; _] => destruct x as [r|] end; [|done]. simpl.
  destruct (get_task (next_tick e) r) as [t|]; [|done]. simpl. destruct (Task_IsFinished t); [done|].
  pose proof (stepwise_cancelDownstream (UpdateTaskStatus (next_tick e) r TaskCancelled).2 (ref_wf r) (task_ID t)) as Hc.
  destruct (cancelDownstream _ _ _) as [downstream e1]. simpl in *. etrans; [|apply Hn].
  etrans; [|apply stepwise_finalize]. etrans; [|exact Hc]. by apply (stepwise_cancel _ HR).
Qed.
End stepwise.

Section stable.
Context `{W : World} {H : Type} {B : Type}.

Record stable (obs : Engine H → B) : Prop := {
  stable_task e r s : obs (UpdateTaskStatus e r s).2 = obs e;
  stable_workflow e w s : obs (UpdateWorkflowStatus e w s).2 = obs e;
  stable_tick e : obs (next_tick e) = obs e;
  stable_push e r : obs (pushJob e r) = obs e;
}.

Context (obs : Engine H → B) (Hobs : stable obs).
Implicit Types (e : Engine H) (w k : string).

Lemma stable_stepwise : stepwise (λ e e', obs e' = obs e).
Proof.
  split.
  - split; [done|]. intros a b c Hab Hbc. by rewrite Hbc.
  - intros e r. apply (stable_task _ Hobs).
  - apply (stable_workflow _ Hobs).
  - apply (stable_tick _ Hobs).
Qed.

Lemma stable_cancelOnes w ks running e : obs (foldl (cancelOne w) (running, e) ks).2 = obs e.
Proof. exact (stepwise_cancelOnes _ stable_stepwise w ks running e). Qed.

Lemma stable_cancelDownstream e w root : obs (cancelDownstream e w root).2 = obs e.
Proof. exact (stepwise_cancelDownstream _ stable_stepwise e w root). Qed.

Lemma stable_finalize e w : obs (finalizeWorkflowIfDone e w) = obs e.
Proof. exact (stepwise_finalize _ stable_stepwise e w). Qed.

Lemma stable_markReadyTasks e w : obs (markReadyTasks e w) = obs e.
Proof. apply (stepwise_markReadyTasks _ stable_stepwise); [apply (stable_push _ Hobs)|intros; apply (stable_task _ Hobs)]. Qed.
End stable.

Section observers.
Context `{W : World} {H : Type}.
Implicit Types (e : Engine H).

(** The calls already made, and whether there is a notifier. *)
Definition calls_of e : list (string * list string) * bool := (cancel_calls e, has_notifier e).

Lemma calls_of_set_bus v e : calls_of (set_bus v e) = calls_of e.
Proof. by destruct e. Qed.
Lemma calls_of_set_queue v e : calls_of (set_queue v e) = calls_of e.
Proof. by destruct e. Qed.
Lemma calls_of_next_tick e : calls_of (next_tick e) = calls_of e.
Proof. by destruct e. Qed.
Lemma calls_of_set_workflows v e : calls_of (set_workflows v e) = calls_of e.
Proof. by destruct e. Qed.

Lemma calls_of_stable : stable calls_of.
Proof.
  split.
  - intros e r s. unfold UpdateTaskStatus. repeat case_match; try done. simpl. unfold publish_event, mod_task.
    by rewrite calls_of_next_tick, calls_of_set_bus, calls_of_set_workflows.
  - intros e w s. unfold UpdateWorkflowStatus. repeat case_match; try done. simpl.
    unfold publish_event, mod_workflow.
    by rewrite calls_of_next_tick, calls_of_set_bus, calls_of_set_workflows.
  - apply calls_of_next_tick.
  - intros e r. unfold pushJob. case_match; [apply calls_of_set_queue|done].
Qed.

(** A field of one task that a status change keeps. *)
Lemma task_field_stable {B} (f : Task → B) r :
  (∀ s t, f (set_task_status s t) = f t) → stable (λ e : Engine H, f <$> get_task e r).
Proof.
  intros Hf. split.
  - intros e r' s. rewrite get_task_UpdateTaskStatus. case_decide; [|done].
    destruct (get_task e r) as [t|]; simpl; [|done]. case_match; [by rewrite Hf|done].
  - intros e w s. by rewrite get_task_UpdateWorkflowStatus.
  - intros e. by rewrite (get_task_ext _ _ _ (workflows_next_tick e)).
  - intros e r'. by rewrite (get_task_ext _ _ _ (workflows_pushJob e r')).
Qed.

Lemma task_result_stable r : stable (λ e : Engine H, task_result <$> get_task e r).
Proof. apply task_field_stable. by intros s []. Qed.

Lemma AssignedTo_stable r : stable (λ e : Engine H, AssignedTo <$> get_task e r).
Proof. apply task_field_stable. by intros s []. Qed.
End observers.
