(* ===== verification/EngineProps.v ===== *)
(** * The engine implements the workflow specification

    Every request the engine serves is a sequence of [spec_step]s on the
    workflows it touches and leaves every workflow in a state that satisfies
    [spec_inv].  [engine_step] collects the requests, so that an execution of
    the engine is a path of it. *)

From stdpp Require Import base gmap strings list relations.
From Stdlib Require Import ZArith Lia.
From S2P Require Import Prelude Status Domain Dag NewWorkflow EventBus Jobs GoFloat Engine WorkflowSpec EngineBase.

(** ** Refinement *)

Record wf_refines (wf wf' : Workflow) : Prop := {
  ref_frozen : frozen_wf wf' = frozen_wf wf;
  ref_steps : rtc (spec_step (graph_of wf)) (task_statuses wf) (task_statuses wf');
  ref_status : rtc workflow_step (wf_status wf) (wf_status wf');
}.

#[export] Instance wf_refines_preorder : PreOrder wf_refines.
Proof.
  split; [by intros wf; split|]. intros a b c [Hf1 Hs1 Hw1] [Hf2 Hs2 Hw2]. split; [by rewrite Hf2| |by etrans].
  rewrite (graph_of_frozen _ _ Hf1) in Hs2. by etrans.
Qed.

Definition wf_inv (wf : Workflow) : Prop :=
  wf_wellformed wf ∧ spec_inv (graph_of wf) (task_statuses wf) (wf_status wf).

Section props.
Context `{W : World} {H : Type}.
Implicit Types (e : Engine H) (w k : string).

(** Every workflow that was there is still there, refined; nothing appears. *)
Definition engine_refines e e' : Prop :=
  ∀ w, option_Forall2 wf_refines (workflows e !! w) (workflows e' !! w).

#[export] Instance engine_refines_preorder : PreOrder engine_refines.
Proof.
  split; [intros e w; by apply reflexivity|]. intros a b c Hab Hbc w.
  by transitivity (workflows b !! w).
Qed.

Definition engine_inv e : Prop :=
  ∀ w wf, workflows e !! w = Some wf → wf_ID wf = w ∧ wf_inv wf.

(** A request served in a good state. *)
Definition handled e e' : Prop := engine_inv e' ∧ engine_refines e e'.

Lemma handled_refl e : engine_inv e → handled e e.
Proof. done. Qed.

Lemma handled_trans e1 e2 e3 : handled e1 e2 → handled e2 e3 → handled e1 e3.
Proof. intros [_ H1] [Hi H2]. split; [done|by etrans]. Qed.

Lemma handled_same e e' : workflows e' = workflows e → engine_inv e → handled e e'.
Proof.
  intros Heq Hi. split.
  - intros w wf. rewrite Heq. apply Hi.
  - intros w. by rewrite Heq.
Qed.

(** A loop of handled iterations. *)
Lemma handled_foldl {B} (f : Engine H → B → Engine H) (l : list B) e :
  (∀ e b, engine_inv e → handled e (f e b)) → engine_inv e → handled e (foldl f e l).
Proof.
  intros Hf. revert e. induction l as [|b l IH]; intros e Hi; simpl; [done|].
  pose proof (Hf e b Hi) as [Hi' ?]. eapply handled_trans; [by split|]. by apply IH.
Qed.

Lemma at_state_handled e w wf e' σ ω :
  engine_inv e → workflows e !! w = Some wf → at_state e w wf e' σ ω →
  rtc (spec_step (graph_of wf)) (task_statuses wf) σ → rtc workflow_step (wf_status wf) ω →
  spec_inv (graph_of wf) σ ω → handled e e'.
Proof.
  intros Hi Hw (wf' & Hw' & Hf & <- & <-) Hs Hws Hinv. destruct (Hi _ _ Hw) as [Hid [Hok _]]. split.
  - intros v u. rewrite Hw', lookup_insert. case_decide as Hv; [|apply Hi]. intros [= <-]. subst v.
    split; [by rewrite (frozen_wf_ID _ _ Hf)|]. split; [by eapply wellformed_frozen|].
    by rewrite (graph_of_frozen _ _ Hf).
  - intros v. rewrite Hw', lookup_insert. case_decide; [|done]. subst. rewrite Hw. by constructor.
Qed.

(** What the invariant gives for one stored workflow. *)
Lemma engine_inv_wf e w wf :
  engine_inv e → workflows e !! w = Some wf →
  wf_ID wf = w ∧ wf_wellformed wf ∧ spec_inv (graph_of wf) (task_statuses wf) (wf_status wf) ∧
  at_state e w wf e (task_statuses wf) (wf_status wf).
Proof. intros Hi Hw. destruct (Hi _ _ Hw) as [? [? ?]]. split_and!; [done..|by apply at_state_start]. Qed.

Lemma get_task_inv e r t :
  engine_inv e → get_task e r = Some t →
  ∃ wf, workflows e !! ref_wf r = Some wf ∧ Tasks wf !! ref_task r = Some t ∧
    task_statuses wf !! ref_task r = Some (task_status t).
Proof.
  intros Hi. unfold get_task, tasks_of. destruct (workflows e !! ref_wf r) as [wf|] eqn:Hw; simpl; [|done].
  intros Ht. exists wf. split_and!; [done..|]. unfold task_statuses. by rewrite lookup_fmap, Ht.
Qed.

(** ** Moving one task to an active status *)

Lemma try_move_active_handled e w wf e' k s' :
  engine_inv e → workflows e !! w = Some wf → active s' →
  at_state e w wf e' (try_move s' (task_statuses wf) k) (wf_status wf) →
  (∀ s, task_statuses wf !! k = Some s → known s → taskStatusesGraph s s' = true →
    spec_step (graph_of wf) (task_statuses wf) (<[k := s']> (task_statuses wf)) ∧ ¬ finished s) →
  handled e e'.
Proof.
  intros Hi Hw Ha Hat Hstep. destruct (engine_inv_wf _ _ _ Hi Hw) as (_ & _ & Hinv & _).
  eapply (at_state_handled e w wf); [done|done|exact Hat|..].
  all: unfold try_move; destruct (task_statuses wf !! k) as [s|] eqn:Hk; [|done].
  all: destruct (taskStatusesGraph s s') eqn:Hg; [|done].
  all: destruct (Hstep s eq_refl) as [Hs Hf]; [by apply Hinv in Hk|done|].
  - by apply rtc_once.
  - done.
  - by eapply move_active_inv.
Qed.

(** Assigning [AssignedTo] through a task pointer. *)
Lemma mod_assigned_at_state e w wf e' σ ω k v :
  wf_wellformed wf → at_state e w wf e' σ ω →
  at_state e w wf (mod_task {| ref_wf := w; ref_task := k |} (set_AssignedTo v) e') σ ω.
Proof.
  intros Hok Hat. destruct (get_task e' {| ref_wf := w; ref_task := k |}) as [t|] eqn:Ht.
  - pose proof (mod_task_at_state e w wf Hok e' σ ω k (set_AssignedTo v) t Hat Ht (frozen_assigned _ _)) as Hm.
    rewrite status_set_assigned, insert_id in Hm; [done|].
    destruct Hat as (wf' & Hw' & _ & <- & _). rewrite (get_task_Some _ _ wf') in Ht by (by rewrite Hw', lookup_insert_eq).
    unfold task_statuses. by rewrite lookup_fmap, Ht.
  - eapply at_state_same; [|exact Hat]. destruct Hat as (wf' & Hw' & _).
    assert (workflows e' !! w = Some wf') as Hl by (by rewrite Hw', lookup_insert_eq).
    unfold mod_task. rewrite workflows_set_workflows. simpl. rewrite (alter_alt_Some _ _ _ _ Hl).
    rewrite (get_task_Some _ _ _ _ Hl) in Ht.
    enough (alter (set_AssignedTo v) k (Tasks wf') = Tasks wf') as ->; [by rewrite set_Tasks_id, insert_id|].
    apply map_eq. intros x. rewrite lookup_alter. case_decide; [|done]. subst. by rewrite Ht.
Qed.

Lemma mod_task_None e r f : workflows e !! ref_wf r = None → workflows (mod_task r f e) = workflows e.
Proof.
  intros Hr. unfold mod_task. rewrite workflows_set_workflows. apply map_eq. intros x.
  rewrite lookup_alter. case_decide; [|done]. subst. by rewrite Hr.
Qed.

Lemma OnTaskDispatched_at_state e w wf k workerID :
  engine_inv e → workflows e !! w = Some wf →
  at_state e w wf (OnTaskDispatched e {| ref_wf := w; ref_task := k |} workerID)
    (try_move TaskDispatched (task_statuses wf) k) (wf_status wf).
Proof.
  intros Hi Hw. destruct (engine_inv_wf _ _ _ Hi Hw) as (_ & Hok & _ & Hat).
  unfold OnTaskDispatched. apply UpdateTaskStatus_move; [done|]. by apply mod_assigned_at_state.
Qed.

Lemma OnTaskDispatched_handled e r workerID : engine_inv e → handled e (OnTaskDispatched e r workerID).
Proof.
  intros Hi. destruct r as [w k]. destruct (workflows e !! w) as [wf|] eqn:Hw.
  - destruct (engine_inv_wf _ _ _ Hi Hw) as (_ & Hok & Hinv & _).
    eapply (try_move_active_handled e w wf _ k TaskDispatched); [done|done|by right; left| |].
    + by apply OnTaskDispatched_at_state.
    + intros s Hk Hkn Hg. split; [|destruct s; try done; by_status].
      apply spec_dispatch. rewrite Hk. destruct s; try done; by_status.
  - apply handled_same; [|done]. unfold OnTaskDispatched, UpdateTaskStatus, get_task, tasks_of. simpl.
    rewrite mod_task_None, Hw by done. simpl. rewrite lookup_empty. by apply mod_task_None.
Qed.

Lemma reassignTask_handled workerID w e k : engine_inv e → handled e (reassignTask workerID w e k).
Proof.
  intros Hi. unfold reassignTask. destruct (get_task e _) as [t|] eqn:Ht; [|by apply handled_refl].
  destruct (get_task_inv _ _ _ Hi Ht) as (wf & Hw & Htk & Hsk). simpl in *.
  case_decide; [by apply handled_refl|].
  destruct (is_active (Task_GetStatus t)) eqn:Hact; [|by apply handled_refl].
  apply is_active_spec in Hact. destruct (engine_inv_wf _ _ _ Hi Hw) as (_ & Hok & Hinv & Hat).
  eapply (try_move_active_handled e w wf _ k TaskReady); [done|done|by left| |].
  - pose proof (mod_assigned_at_state _ _ _ _ _ _ k "" Hok Hat) as Hat1.
    pose proof (UpdateTaskStatus_move _ _ _ Hok _ _ _ k TaskReady Hat1) as Hat2.
    destruct (UpdateTaskStatus _ _ _) as [[|] e2]; [|done].
    eapply at_state_same; [apply workflows_pushJob|done].
  - intros s Hk _ _. unfold Task_GetStatus in Hact. simplify_eq. split; [by eapply spec_requeue|by_status].
Qed.

Lemma ReassignDeadWorkerTasks_handled e workerID :
  engine_inv e → handled e (ReassignDeadWorkerTasks e workerID).
Proof.
  intros Hi. pose proof (handled_same e (next_tick e) (workflows_next_tick e) Hi) as Ht.
  unfold ReassignDeadWorkerTasks. eapply handled_trans; [exact Ht|].
  apply handled_foldl; [|by apply Ht]. intros e1 w Hi1.
  pose proof (handled_same e1 (next_tick e1) (workflows_next_tick e1) Hi1) as Ht1.
  unfold reassignWorkflow. eapply handled_trans; [exact Ht1|].
  apply handled_foldl; [|by apply Ht1]. intros e2 k. apply reassignTask_handled.
Qed.

(** ** Reports *)

Lemma mark_status_same wf σ ω : status_pre σ ω → mark_status wf σ ω = ω.
Proof.
  intros Hpre. unfold mark_status. case_decide as Hd; [|done]. destruct Hd as [-> (k & s & Hk & _)].
  simpl in Hpre. subst. by apply lookup_empty_Some in Hk.
Qed.

(** Rescheduling and finalizing after some consistent steps. *)
Lemma settle_at_state e w wf e1 σ1 :
  engine_inv e → workflows e !! w = Some wf → at_state e w wf e1 σ1 (wf_status wf) →
  consistent (graph_of wf) σ1 → rtc (spec_step (graph_of wf)) (task_statuses wf) σ1 →
  at_state e w wf (finalizeWorkflowIfDone (markReadyTasks e1 w) w) (mark_ready (graph_of wf) σ1)
    (finalize (mark_ready (graph_of wf) σ1) (wf_status wf)).
Proof.
  intros Hi Hw Hat Hc Hr. destruct (engine_inv_wf _ _ _ Hi Hw) as (_ & Hok & [_ _ Ho] & _).
  pose proof (markReadyTasks_spec e w wf Hok e1 σ1 _ Hat (con_known _ _ Hc)) as Hat1.
  rewrite mark_status_same in Hat1 by (by eapply status_ok_steps).
  by apply (finalize_spec e w wf Hok) in Hat1.
Qed.

Lemma settle_handled e w wf e1 σ1 :
  engine_inv e → workflows e !! w = Some wf → at_state e w wf e1 σ1 (wf_status wf) →
  consistent (graph_of wf) σ1 → rtc (spec_step (graph_of wf)) (task_statuses wf) σ1 →
  handled e (finalizeWorkflowIfDone (markReadyTasks e1 w) w).
Proof.
  intros Hi Hw Hat Hc Hr. destruct (engine_inv_wf _ _ _ Hi Hw) as (_ & _ & [_ _ Ho] & _).
  eapply (at_state_handled e w wf); [done|done|by apply settle_at_state|..].
  - etrans; [done|apply mark_ready_steps].
  - apply finalize_step.
  - by eapply mark_finalize_inv.
Qed.

Lemma mod_result_at_state e w wf e' σ ω k s v :
  wf_wellformed wf → at_state e w wf e' σ ω → σ !! k = Some s →
  at_state e w wf (mod_task {| ref_wf := w; ref_task := k |} (Task_SetResult v) e') σ ω.
Proof.
  intros Hok Hat Hk. destruct (at_state_task _ _ _ Hok _ _ _ _ _ Hat Hk) as (t & Ht & Hst & _).
  pose proof (mod_task_at_state e w wf Hok e' σ ω k _ t Hat Ht (frozen_result v _)) as Hm.
  rewrite status_set_result, Hst, insert_id in Hm; done.
Qed.

(** A failure report that the table accepts, with its cascade. *)
Lemma failure_at_state e w wf k e1 v s :
  engine_inv e → workflows e !! w = Some wf → task_statuses wf !! k = Some s →
  taskStatusesGraph s TaskFailed = true →
  at_state e w wf e1 (<[k := TaskFailed]> (task_statuses wf)) (wf_status wf) →
  ∃ σ1, at_state e w wf (cancelDownstream (mod_task {| ref_wf := w; ref_task := k |} (Task_SetResult v) e1) w k).2
          σ1 (wf_status wf) ∧
    consistent (graph_of wf) σ1 ∧ rtc (spec_step (graph_of wf)) (task_statuses wf) σ1 ∧
    cascade_done (graph_of wf) k (<[k := TaskFailed]> (task_statuses wf)) σ1.
Proof.
  intros Hi Hw Hk Hg Hat. destruct (engine_inv_wf _ _ _ Hi Hw) as (_ & Hok & [Hcon _ _] & _).
  destruct (report_step _ _ k s TaskFailed Hcon Hk Hg) as [Hf Hstep]; [by right; right|].
  eapply (mod_result_at_state _ _ _ _ _ _ k _ v) in Hat; [|done|by rewrite lookup_insert_eq].
  destruct (cancelDownstream_spec e w wf Hok _ _ k _ TaskFailed Hat) as (e2 & σ2 & -> & Hat2 & Hc2 & Hd & Hr2).
  - by eapply spec_step_safe, Hcon.
  - by eapply spec_step_known, Hcon.
  - eapply move_cascaded_but; [done..|]. by apply cascaded_nil, Hcon.
  - by rewrite lookup_insert_eq.
  - by left.
  - exists σ2. split_and!; [done|done|by eapply rtc_l|done].
Qed.

(** The result a report stores, if the table accepts it. *)
Definition stores_result (s : TaskStatus) : bool :=
  match s with TaskSucceeded | TaskFailed => true | _ => false end.

Lemma get_result_mod_result e r v t :
  get_task e r = Some t → task_result <$> get_task (mod_task r (Task_SetResult v) e) r = Some v.
Proof. intros Ht. rewrite get_task_mod_task, decide_True, Ht by done. simpl. f_equal. by destruct t. Qed.

(** What [OnTaskResponse] does before rescheduling. *)
Definition report (e : Engine H) (w k : string) (t : Task) (result : TaskResult) : Engine H :=
  let r := {| ref_wf := w; ref_task := k |} in
  match res_Status result with
  | TaskFailed | TaskSucceeded =>
      let '(ok, e) := UpdateTaskStatus e r (res_Status result) in
      if ok then
        let e := mod_task r (Task_SetResult (Some result)) e in
        if decide (res_Status result = TaskFailed) then (cancelDownstream e w (task_ID t)).2 else e
      else e
  | TaskRunning => (UpdateTaskStatus e r TaskRunning).2
  | _ => e
  end.

Lemma OnTaskResponse_report e w k wf t result :
  workflows e !! w = Some wf → Tasks wf !! k = Some t →
  OnTaskResponse e w k result = (None, finalizeWorkflowIfDone (markReadyTasks (report e w k t result) w) w).
Proof. intros Hw Ht. unfold OnTaskResponse. by rewrite Hw, Ht. Qed.

Record report_spec (e : Engine H) (w k : string) (wf : Workflow) (result : TaskResult) (e1 : Engine H)
    (σ1 : statuses) : Prop := {
  rs_state : at_state e w wf e1 σ1 (wf_status wf);
  rs_consistent : consistent (graph_of wf) σ1;
  rs_steps : rtc (spec_step (graph_of wf)) (task_statuses wf) σ1;
  rs_reported : reported (graph_of wf) (task_statuses wf) k (res_Status result) σ1;
  rs_result : task_result <$> get_task e1 {| ref_wf := w; ref_task := k |} =
    if stores_result (res_Status result) && accepts (task_statuses wf) k (res_Status result)
    then Some (Some result) else task_result <$> get_task e {| ref_wf := w; ref_task := k |};
}.

Lemma UpdateTaskStatus_rejected e r t s :
  get_task e r = Some t → taskStatusesGraph (task_status t) s = false → UpdateTaskStatus e r s = (false, e).
Proof.
  intros Ht Hg. unfold UpdateTaskStatus, Task_UpdateStatus, TaskStatus_CanTransitTo. rewrite Ht.
  case_decide; [done|]. by rewrite Hg.
Qed.

Lemma UpdateTaskStatus_accepted e w wf k t s :
  engine_inv e → workflows e !! w = Some wf → Tasks wf !! k = Some t →
  taskStatusesGraph (task_status t) s = true →
  let r := {| ref_wf := w; ref_task := k |} in
  ∃ e1, UpdateTaskStatus e r s = (true, e1) ∧
    at_state e w wf e1 (<[k := s]> (task_statuses wf)) (wf_status wf) ∧
    get_task e1 r = Some (set_task_status s t).
Proof.
  intros Hi Hw Ht Hg r. destruct (engine_inv_wf _ _ _ Hi Hw) as (_ & Hok & _ & Hat).
  assert (task_statuses wf !! k = Some (task_status t)) as Hk by (unfold task_statuses; by rewrite lookup_fmap, Ht).
  pose proof (UpdateTaskStatus_spec e w wf Hok e _ _ k _ s Hat Hk) as Hu.
  pose proof (get_task_UpdateTaskStatus e r r s) as Hget. fold r in Hu. rewrite Hg in Hu.
  destruct (UpdateTaskStatus e r s) as [ok e1]. destruct Hu as [-> Hu]. exists e1. split_and!; [done..|].
  simpl in Hget. rewrite decide_True in Hget by done. unfold r in *. rewrite (get_task_Some _ _ _ _ Hw), Ht in Hget.
  simpl in Hget. by rewrite Hg in Hget.
Qed.

Section report.
Context (e : Engine H) (w k : string) (wf : Workflow) (t : Task) (result : TaskResult).
Context (Hi : engine_inv e) (Hw : workflows e !! w = Some wf) (Ht : Tasks wf !! k = Some t).

#[local] Abbreviation s := (res_Status result).
#[local] Abbreviation spec := (report_spec e w k wf result (report e w k t result)).

Lemma report_status : task_statuses wf !! k = Some (task_status t).
Proof. unfold task_statuses. by rewrite lookup_fmap, Ht. Qed.

Lemma report_accepts : accepts (task_statuses wf) k s = taskStatusesGraph (task_status t) s.
Proof. unfold accepts. by rewrite report_status. Qed.

Lemma report_ignored :
  taskStatusesGraph (task_status t) s = false ∨ s ∉ [TaskRunning; TaskSucceeded; TaskFailed] →
  spec (task_statuses wf).
Proof.
  intros Hign. destruct (engine_inv_wf _ _ _ Hi Hw) as (_ & Hok & [Hcon _ _] & Hat).
  assert (report e w k t result = e) as Hrep.
  { unfold report. destruct s eqn:Hs; try done; destruct Hign as [Hg|Hn]; try set_solver.
    all: erewrite UpdateTaskStatus_rejected; [done|by erewrite get_task_Some|done]. }
  rewrite Hrep. split; [done..| |].
  - unfold reported. rewrite report_accepts. destruct (taskStatusesGraph _ _); [|done].
    destruct Hign as [?|Hn]; [done|]. destruct s; try done; set_solver.
  - rewrite report_accepts. destruct (taskStatusesGraph _ _); [|by rewrite andb_false_r].
    destruct Hign as [?|Hn]; [done|]. destruct s; try done; set_solver.
Qed.

Lemma report_good :
  taskStatusesGraph (task_status t) s = true → s = TaskRunning ∨ s = TaskSucceeded →
  spec (<[k := s]> (task_statuses wf)).
Proof.
  intros Hg Hs. destruct (engine_inv_wf _ _ _ Hi Hw) as (_ & Hok & [Hcon _ _] & Hat).
  destruct (good_report_consistent _ _ k _ s Hcon report_status Hg Hs) as [Hc Hstep].
  destruct (UpdateTaskStatus_accepted e w wf k t s Hi Hw Ht Hg) as (e1 & Hu & Hat1 & Hget).
  unfold report. split; [| done|by apply rtc_once| |].
  - destruct Hs as [Hs|Hs]; rewrite Hs in Hu, Hat1 |- *; rewrite Hu; simpl; [done|].
    eapply mod_result_at_state; [done|exact Hat1|by rewrite lookup_insert_eq].
  - unfold reported. rewrite report_accepts, Hg. by destruct Hs as [-> | ->].
  - rewrite report_accepts, Hg. destruct Hs as [Hs|Hs]; rewrite Hs in Hu, Hget |- *; rewrite Hu; simpl.
    + rewrite Hget, (get_task_Some _ _ _ _ Hw), Ht. simpl. f_equal. by destruct t.
    + by eapply get_result_mod_result.
Qed.

Lemma report_failed :
  taskStatusesGraph (task_status t) s = true → s = TaskFailed → ∃ σ1, spec σ1.
Proof.
  intros Hg Hs. destruct (engine_inv_wf _ _ _ Hi Hw) as (_ & Hok & _ & _).
  destruct (UpdateTaskStatus_accepted e w wf k t s Hi Hw Ht Hg) as (e1 & Hu & Hat1 & Hget).
  pose proof Hg as Hg'. rewrite Hs in Hg', Hat1.
  destruct (failure_at_state e w wf k e1 (Some result) _ Hi Hw report_status Hg' Hat1) as (σ1 & Hat2 & Hc & Hr & Hd).
  exists σ1. unfold report. destruct (wfok_closed _ Hok _ _ Ht) as [-> _]. rewrite Hs in Hu |- *. rewrite Hu. simpl.
  split; [done..| |].
  - unfold reported. by rewrite report_accepts, Hg, Hs.
  - rewrite report_accepts, Hg, Hs. simpl.
    rewrite (stable_cancelDownstream _ (task_result_stable _)). by eapply get_result_mod_result.
Qed.

Lemma report_correct : ∃ σ1, spec σ1.
Proof.
  destruct (taskStatusesGraph (task_status t) s) eqn:Hg; [|eexists; apply report_ignored; by left].
  destruct (decide (s ∈ [TaskRunning; TaskSucceeded; TaskFailed])) as [Hs|Hs];
    [|eexists; apply report_ignored; by right].
  destruct (decide (s = TaskFailed)) as [Hf|Hf]; [by apply report_failed|].
  eexists. apply report_good; [done|]. set_solver.
Qed.
End report.

Lemma OnTaskResponse_handled e w k result : engine_inv e → handled e (OnTaskResponse e w k result).2.
Proof.
  intros Hi. destruct (workflows e !! w) as [wf|] eqn:Hw; [destruct (Tasks wf !! k) as [t|] eqn:Ht|].
  - rewrite (OnTaskResponse_report _ _ _ _ _ _ Hw Ht).
    destruct (report_correct e w k wf t result Hi Hw Ht) as (σ1 & [Hat Hc Hr _ _]).
    by eapply settle_handled.
  - unfold OnTaskResponse. rewrite Hw, Ht. by apply handled_refl.
  - unfold OnTaskResponse. rewrite Hw. by apply handled_refl.
Qed.

(** ** Cancellation *)

(** Cancelling one unfinished task and everything below it. *)
Lemma cancel_at_state e w wf k s :
  engine_inv e → workflows e !! w = Some wf → task_statuses wf !! k = Some s → ¬ finished s →
  ∃ e2 σ2, cancelDownstream (UpdateTaskStatus e {| ref_wf := w; ref_task := k |} TaskCancelled).2 w k = ([], e2) ∧
    at_state e w wf e2 σ2 (wf_status wf) ∧ consistent (graph_of wf) σ2 ∧
    rtc (spec_step (graph_of wf)) (task_statuses wf) σ2 ∧ eager (graph_of wf) σ2 ∧
    cascade_done (graph_of wf) k (<[k := TaskCancelled]> (task_statuses wf)) σ2.
Proof.
  intros Hi Hw Hk Hf. destruct (engine_inv_wf _ _ _ Hi Hw) as (_ & Hok & [Hcon He Ho] & Hat).
  pose proof (con_known _ _ Hcon _ _ Hk) as Hkn.
  pose proof (UpdateTaskStatus_move e w wf Hok e _ _ k TaskCancelled Hat) as Hu.
  rewrite (try_move_Some _ _ _ _ Hk) in Hu.
  assert (taskStatusesGraph s TaskCancelled = true) as Hg by (destruct s; try done; by_status).
  rewrite Hg in Hu. pose proof (spec_cancel (graph_of wf) _ k s Hk Hf) as Hstep.
  destruct (cancelDownstream_spec e w wf Hok _ _ k _ TaskCancelled Hu) as (e2 & σ2 & -> & Hat2 & Hc2 & Hd & Hr2).
  - by eapply spec_step_safe, Hcon.
  - by eapply spec_step_known, Hcon.
  - eapply move_cascaded_but; [done..|]. by apply cascaded_nil, Hcon.
  - by rewrite lookup_insert_eq.
  - by right.
  - exists e2, σ2. split_and!; [done..|by eapply rtc_l| |done].
    eapply cascade_done_eager; [|done]. by apply move_eager.
Qed.

Lemma findTask_spec e taskID :
  match (findTask e taskID).1 with
  | Some r => ref_task r = taskID ∧ is_Some (get_task e r)
  | None => ∀ w wf, workflows e !! w = Some wf → Tasks wf !! taskID = None
  end.
Proof.
  unfold findTask. simpl.
  match goal with |- context [head ?x] => set (l := x) end.
  assert (∀ r, r ∈ l → ref_task r = taskID ∧ is_Some (get_task e r)) as Hl.
  { intros r (w & _ & (wf & Hw & Hr)%bind_Some)%list_elem_of_omap. case_decide as Hd; [|done].
    injection Hr as <-. split; [done|]. by rewrite (get_task_Some _ _ _ _ Hw). }
  assert (l = [] → ∀ w wf, workflows e !! w = Some wf → Tasks wf !! taskID = None) as Hnil.
  { intros Hnil w wf Hw. apply eq_None_not_Some. intros Ht.
    assert ({| ref_wf := w; ref_task := taskID |} ∈ l) as Hin; [|rewrite Hnil in Hin; by apply elem_of_nil in Hin].
    apply list_elem_of_omap. exists w. rewrite elem_of_range_keys, Hw. split; [by eauto|]. simpl.
    by rewrite decide_True. }
  destruct l as [|r l]; simpl; [by apply Hnil|]. apply Hl. left.
Qed.

Lemma findTask_same e taskID : workflows (findTask e taskID).2 = workflows e.
Proof. apply workflows_next_tick. Qed.

Lemma CancelTask_handled e taskID : engine_inv e → handled e (CancelTask e taskID).2.
Proof.
  intros Hi. unfold CancelTask. pose proof (handled_same _ _ (findTask_same e taskID) Hi) as Hsame.
  destruct (findTask e taskID) as [found e1]. simpl in *.
  eapply handled_trans; [exact Hsame|]. destruct Hsame as [Hi1 _]. clear e Hi.
  destruct (r ← found; task ← get_task e1 r; Some (r, task)) as [[r t]|] eqn:Hfound; [|by apply handled_refl].
  destruct (Task_IsFinished t) eqn:Hf; [by apply handled_refl|].
  apply bind_Some in Hfound as (r' & _ & (t' & Ht & Heq)%bind_Some). simplify_eq.
  destruct (get_task_inv _ _ _ Hi1 Ht) as (wf & Hw & Htk & Hk). destruct r as [w k]. simpl in *.
  apply Task_IsFinished_false in Hf.
  destruct (engine_inv_wf _ _ _ Hi1 Hw) as (_ & Hok & [_ _ Ho] & _).
  destruct (wfok_closed _ Hok _ _ Htk) as [-> _].
  destruct (cancel_at_state e1 w wf k _ Hi1 Hw Hk Hf) as (e2 & σ2 & -> & Hat & Hc & Hr & He & _).
  simpl. apply (finalize_spec e1 w wf Hok) in Hat.
  eapply (at_state_handled e1 w wf); [done|done| |done|apply finalize_step|].
  - eapply at_state_same; [apply workflows_notify|exact Hat].
  - split; [done..|]. by eapply finalize_ok, status_ok_steps.
Qed.

(** The state [CancelWorkflow] leaves, and what it tells the workers. *)
Lemma CancelWorkflow_at_state e w wf :
  engine_inv e → workflows e !! w = Some wf →
  ∃ e1, CancelWorkflow e w = (None, notifyWorkersOfCancellation e1
      (range_keys (tick e) (Tasks wf) ≫= running_ref e w)) ∧
    at_state e w wf e1 (cancel_all (task_statuses wf)) (cancel_status (wf_status wf)) ∧
    calls_of e1 = calls_of e.
Proof.
  intros Hi Hw. unfold CancelWorkflow. rewrite Hw.
  destruct (engine_inv_wf _ _ _ Hi Hw) as (_ & Hok & Hinv & Hat). pose proof Hinv as [Hcon _ Ho].
  set (ks := range_keys (tick e) (Tasks wf)).
  pose proof (at_state_same _ _ _ _ _ _ _ (workflows_next_tick e) Hat) as Hat0.
  pose proof (cancelOnes_move e w wf Hok ks [] _ _ _ Hat0) as Hat1.
  rewrite try_moves_cancel in Hat1.
  2:{ by apply Hcon. }
  2:{ intros k Hk. apply elem_of_range_keys. unfold task_statuses in Hk. by rewrite lookup_fmap, fmap_is_Some in Hk. }
  pose proof (cancelOnes_running w ks [] (next_tick e) (NoDup_range_keys _ _)) as Hrun.
  pose proof (stable_cancelOnes _ calls_of_stable w ks [] (next_tick e)) as Hcalls.
  destruct (foldl _ _ _) as [running e1]. simpl in *. subst running.
  apply (UpdateWorkflowStatus_spec e w wf Hok _ _ _ WorkflowCancelled) in Hat1.
  assert ((if workflowStatusesGraph (wf_status wf) WorkflowCancelled then WorkflowCancelled else wf_status wf)
    = cancel_status (wf_status wf)) as Hws by (by destruct (wf_status wf)).
  rewrite Hws in Hat1. eexists. split; [|split; [exact Hat1|]].
  - f_equal. f_equal. apply Forall_bind_ext, Forall_forall. intros k _. unfold running_ref.
    by rewrite (get_task_ext e) by apply workflows_next_tick.
  - by rewrite (stable_workflow _ calls_of_stable), Hcalls, calls_of_next_tick.
Qed.

Lemma CancelWorkflow_handled e w : engine_inv e → handled e (CancelWorkflow e w).2.
Proof.
  intros Hi. destruct (workflows e !! w) as [wf|] eqn:Hw.
  - destruct (CancelWorkflow_at_state e w wf Hi Hw) as (e1 & -> & Hat & _).
    destruct (engine_inv_wf _ _ _ Hi Hw) as (_ & Hok & Hinv & _).
    eapply (at_state_handled e w wf); [done|done| | |apply cancel_status_step|by apply cancel_all_inv].
    + eapply at_state_same; [apply workflows_notify|exact Hat].
    + apply cancel_all_steps. by apply Hinv.
  - unfold CancelWorkflow. rewrite Hw. by apply handled_refl.
Qed.

(** ** Submission *)

(** A workflow as [NewWorkflow] builds it, under an identifier not in use. *)
Record submittable e (wf : Workflow) : Prop := {
  sub_fresh : workflows e !! wf_ID wf = None;
  sub_wellformed : wf_wellformed wf;
  sub_status : wf_status wf = WorkflowPending;
  sub_pending k t : Tasks wf !! k = Some t → task_status t = TaskPending;
}.

Lemma assignIDs_status tasks n t : t ∈ (assignIDs tasks n).1 → ∃ t0, t0 ∈ tasks ∧ task_status t = task_status t0.
Proof.
  revert n. induction tasks as [|x tasks IH]; intros n; simpl; [by intros ?%elem_of_nil|].
  destruct (ensureID x n) as [x' n'] eqn:Hx. specialize (IH n'). destruct (assignIDs tasks n') as [l n2]. simpl in *.
  intros [->|Ht]%elem_of_cons; [|destruct (IH Ht) as (t0 & ? & ?); exists t0; split; [by right|done]].
  exists x. split; [left|]. unfold ensureID in Hx. case_decide; simplify_eq; [by destruct x|done].
Qed.

(** What [NewWorkflow] accepts can be submitted. *)
Lemma NewWorkflow_submittable e tenantID name tasks n wf n' :
  NewWorkflow tenantID name tasks n = Ret (wf, n') → (∀ t, t ∈ tasks → task_status t = TaskPending) →
  workflows e !! wf_ID wf = None → submittable e wf.
Proof.
  intros Hr Hp Hfresh. pose proof (NewWorkflow_correct tenantID name tasks n) as Hc. rewrite Hr in Hc.
  destruct Hc as (_ & Hok & Hst & _ & Hall). split; [done..|].
  intros k t' Hk. destruct (Hall k t' Hk) as (t & Ht & _ & _ & -> & _).
  destruct (assignIDs_status tasks n t Ht) as (t0 & ? & ->). by apply Hp.
Qed.

Lemma pending_consistent G σ : (∀ k s, σ !! k = Some s → s = TaskPending) → consistent G σ.
Proof.
  intros Hp. split.
  - intros k d s Hk%Hp Hst _. by_status.
  - intros k s Hk%Hp. by_status.
  - intros k d s _ _ (sd & Hd%Hp & Hb). by_status.
Qed.

Lemma submitted_inv wf :
  wf_wellformed wf → (∀ k s, task_statuses wf !! k = Some s → s = TaskPending) →
  spec_inv (graph_of wf) (mark_ready (graph_of wf) (task_statuses wf))
    (mark_status wf (task_statuses wf) WorkflowPending).
Proof.
  intros Hok Hp. set (G := graph_of wf). set (σ := task_statuses wf) in *.
  pose proof (mark_ready_consistent G σ (pending_consistent _ _ Hp)) as Hc.
  pose proof (mark_ready_eager G σ) as He. split; [done..|].
  unfold mark_status. case_decide as Hd; simpl.
  - destruct Hd as [_ (k & s & Hk & Hr)]. eapply (unfinished_not_all _ k TaskReady); [|by_status].
    rewrite lookup_mark_ready, Hk. simpl. by rewrite decide_True.
  - apply map_eq. intros k. rewrite lookup_empty. apply eq_None_not_Some. intros [s Hk]. destruct Hd.
    split; [done|].
    assert (graph_ok G (mark_ready G σ)) as Hg.
    { destruct (wellformed_graph_ok _ Hok) as [Hdom Hcl Hac]. split; [|done..].
      intros x. by rewrite lookup_mark_ready, fmap_is_Some. }
    destruct (unfinished_active G (mark_ready G σ) k s Hg Hc He Hk) as (x & sx & _ & Hx & Ha).
    { intros Hf. rewrite lookup_mark_ready in Hk. destruct (σ !! k) as [sk|] eqn:Hsk; [|done].
      apply Hp in Hsk. simpl in Hk. case_decide; by_status. }
    rewrite lookup_mark_ready in Hx. destruct (σ !! x) as [s0|] eqn:Hs0; [|done]. simpl in Hx.
    case_decide as Hr; [by exists x, s0|]. apply Hp in Hs0. by_status.
Qed.

Lemma submitted_statuses e wf :
  submittable e wf → ∀ k s, task_statuses wf !! k = Some s → s = TaskPending.
Proof.
  intros [_ _ _ Hp] k s. unfold task_statuses. rewrite lookup_fmap, fmap_Some. intros (t & Ht & ->). by eapply Hp.
Qed.

Lemma SubmitWorkflow_at e wf :
  submittable e wf →
  ∃ wf', workflows (SubmitWorkflow e wf).2 = <[wf_ID wf := wf']> (workflows e) ∧ frozen_wf wf' = frozen_wf wf ∧
    task_statuses wf' = mark_ready (graph_of wf) (task_statuses wf) ∧
    wf_status wf' = mark_status wf (task_statuses wf) WorkflowPending.
Proof.
  intros Hsub. pose proof (submitted_statuses _ _ Hsub) as Hps. pose proof Hsub as [_ Hok Hst _].
  unfold SubmitWorkflow. cbn [snd].
  set (e1 := set_workflows _ e). assert (workflows e1 = <[wf_ID wf := wf]> (workflows e)) as He1.
  { apply workflows_set_workflows. }
  assert (workflows e1 !! wf_ID wf = Some wf) as Hw by (by rewrite He1, lookup_insert_eq).
  pose proof (at_state_start e1 _ wf Hw) as Hat.
  apply (markReadyTasks_spec e1 _ wf Hok) in Hat; [|by intros k s ->%Hps].
  rewrite Hst in Hat. destruct Hat as (wf' & Hw' & Hf & Hs & Ho).
  exists wf'. split_and!; [|done..]. by rewrite Hw', He1, insert_insert_eq.
Qed.

Lemma SubmitWorkflow_spec e wf :
  engine_inv e → submittable e wf →
  let e' := (SubmitWorkflow e wf).2 in
  engine_inv e' ∧ (∀ w, w ≠ wf_ID wf → workflows e' !! w = workflows e !! w).
Proof.
  intros Hi Hsub e'. destruct (SubmitWorkflow_at e wf Hsub) as (wf' & Hw' & Hf & Hs & Ho). fold e' in Hw'.
  pose proof (submitted_inv wf (sub_wellformed _ _ Hsub) (submitted_statuses _ _ Hsub)) as Hinv.
  rewrite Hw'. split.
  - intros v u. rewrite Hw', lookup_insert. case_decide as Hv; [|apply Hi].
    intros [= <-]. split; [by rewrite (frozen_wf_ID _ _ Hf)|].
    split; [eapply wellformed_frozen; [done|apply Hsub]|]. by rewrite (graph_of_frozen _ _ Hf), Hs, Ho.
  - intros v Hv. by rewrite lookup_insert_ne.
Qed.

(** ** Executions of the engine *)

(** A step is a request or anything that leaves the workflows alone: the
    scheduler taking or returning jobs, the goroutines of the event bus. *)
Inductive engine_step : relation (Engine H) :=
  | step_submit e wf : submittable e wf → engine_step e (SubmitWorkflow e wf).2
  | step_response e w k result : engine_step e (OnTaskResponse e w k result).2
  | step_dispatched e r workerID : engine_step e (OnTaskDispatched e r workerID)
  | step_cancel_workflow e w : engine_step e (CancelWorkflow e w).2
  | step_cancel_task e k : engine_step e (CancelTask e k).2
  | step_reassign e workerID : engine_step e (ReassignDeadWorkerTasks e workerID)
  | step_other e e' : workflows e' = workflows e → engine_step e e'.

(** Every stored workflow stays, and moves along the specification. *)
Definition stored_refines e e' : Prop :=
  ∀ w wf, workflows e !! w = Some wf → ∃ wf', workflows e' !! w = Some wf' ∧ wf_refines wf wf'.

Lemma engine_refines_stored e e' : engine_refines e e' → stored_refines e e'.
Proof. intros Hr w wf Hw. specialize (Hr w). rewrite Hw in Hr. inversion Hr as [? wf' Href|]; subst. eauto. Qed.

#[export] Instance stored_refines_preorder : PreOrder stored_refines.
Proof.
  split; [intros e w wf Hw; exists wf; by split|]. intros a b c Hab Hbc w wf Hw.
  destruct (Hab w wf Hw) as (wf1 & Hw1 & H1). destruct (Hbc w wf1 Hw1) as (wf2 & Hw2 & H2).
  exists wf2. split; [done|]. by etrans.
Qed.

Lemma engine_step_handled e e' :
  engine_inv e → engine_step e e' → engine_inv e' ∧ stored_refines e e'.
Proof.
  intros Hi Hstep.
  assert (handled e e' → engine_inv e' ∧ stored_refines e e') as Hh.
  { intros [? ?]. split; [done|by apply engine_refines_stored]. }
  destruct Hstep as [e wf Hsub|e w k result|e r workerID|e w|e k|e workerID|e e' Heq].
  - destruct (SubmitWorkflow_spec e wf Hi Hsub) as (Hi' & Hoth). split; [done|].
    intros w wf0 Hw. exists wf0. split; [|done]. rewrite Hoth; [done|]. intros ->.
    rewrite (sub_fresh _ _ Hsub) in Hw. done.
  - by apply Hh, OnTaskResponse_handled.
  - by apply Hh, OnTaskDispatched_handled.
  - by apply Hh, CancelWorkflow_handled.
  - by apply Hh, CancelTask_handled.
  - by apply Hh, ReassignDeadWorkerTasks_handled.
  - by apply Hh, handled_same.
Qed.

Lemma engine_steps_handled e e' :
  engine_inv e → rtc engine_step e e' → engine_inv e' ∧ stored_refines e e'.
Proof.
  intros Hi Hsteps. eapply (rtc_invariant _ (λ x, engine_inv x ∧ stored_refines e x)); [by split| |exact Hsteps].
  intros a b [Ha Hea] Hab. destruct (engine_step_handled _ _ Ha Hab). split; [done|by etrans].
Qed.

Lemma engine_inv_start bus notifier : engine_inv (NewWorkflowEngine bus notifier).
Proof. intros w wf Hw. simpl in Hw. by rewrite lookup_empty in Hw. Qed.

(** The engines reachable from a new one. *)
Definition reachable e : Prop := ∃ bus notifier, rtc engine_step (NewWorkflowEngine bus notifier) e.

Lemma reachable_inv e : reachable e → engine_inv e.
Proof.
  intros (bus & notifier & Hr). eapply (rtc_invariant _ engine_inv); [apply engine_inv_start| |exact Hr].
  intros a b Hi Hstep. by apply (engine_step_handled a b).
Qed.
(** ** Tasks of a good engine *)

Lemma task_statuses_Some (wf : Workflow) k s :
  task_statuses wf !! k = Some s ↔ ∃ t, Tasks wf !! k = Some t ∧ task_status t = s.
Proof. unfold task_statuses. rewrite lookup_fmap, fmap_Some. naive_solver. Qed.

(** A task of a good engine, seen in its workflow. *)
Lemma get_task_workflow e r t :
  engine_inv e → get_task e r = Some t →
  ∃ wf, workflows e !! ref_wf r = Some wf ∧ Tasks wf !! ref_task r = Some t ∧ wf_wellformed wf ∧
    spec_inv (graph_of wf) (task_statuses wf) (wf_status wf) ∧
    task_statuses wf !! ref_task r = Some (task_status t).
Proof.
  intros Hi Ht. destruct (get_task_inv _ _ _ Hi Ht) as (wf & Hw & Htk & Hk).
  destruct (engine_inv_wf _ _ _ Hi Hw) as (_ & ? & ? & _). eauto 10.
Qed.

Lemma dep_of_task wf k t d : Tasks wf !! k = Some t → dep (graph_of wf) k d ↔ d ∈ DependsOn t.
Proof. intros Ht. rewrite <-depends_dep. unfold depends. rewrite Ht. naive_solver. Qed.

(** Later engines have the task, with its fixed fields, and its status if it
    was finished. *)
Definition keeps e e' : Prop :=
  ∀ r t, get_task e r = Some t →
    ∃ t', get_task e' r = Some t' ∧ frozen t' = frozen t ∧ (finished (task_status t) → task_status t' = task_status t).

Lemma engine_steps_keep e e' : engine_inv e → rtc engine_step e e' → keeps e e'.
Proof.
  intros Hi Hsteps r t Ht. destruct (get_task_inv _ _ _ Hi Ht) as (wf & Hw & Htk & Hk).
  destruct (engine_steps_handled e e' Hi Hsteps) as [_ Href].
  destruct (Href _ _ Hw) as (wf' & Hw' & [Hfr Hs _]).
  destruct (frozen_lookup wf wf' (ref_task r) t Hfr Htk) as (t' & Ht' & Hft). exists t'.
  destruct r as [w k]. rewrite (get_task_Some _ _ _ _ Hw'). split_and!; [done..|]. intros Hf.
  pose proof (spec_steps_finished _ _ _ _ _ Hs Hk Hf) as Hk'.
  apply task_statuses_Some in Hk' as (t2 & Ht2 & <-). simpl in *. congruence.
Qed.

(** A task's dependencies, tasks of the same workflow, have all succeeded. *)
Definition sibling (r : TaskRef) (d : string) : TaskRef := {| ref_wf := ref_wf r; ref_task := d |}.

Definition deps_done e r (t : Task) : Prop :=
  ∀ d, d ∈ DependsOn t → ∃ td, get_task e (sibling r d) = Some td ∧ task_status td = TaskSucceeded.

Lemma started_deps_done e r t :
  engine_inv e → get_task e r = Some t → started (task_status t) → deps_done e r t.
Proof.
  intros Hi Ht Hs d Hd. destruct (get_task_workflow _ _ _ Hi Ht) as (wf & Hw & Htk & _ & [[Hsafe _ _] _ _] & Hk).
  apply dep_of_task with (d := d) in Htk. unfold sibling. rewrite (get_task_Some _ _ _ _ Hw).
  apply task_statuses_Some. eapply Hsafe; [done..|]. by apply Htk.
Qed.

Lemma deps_done_keeps e e' r t t' :
  keeps e e' → DependsOn t' = DependsOn t → deps_done e r t → deps_done e' r t'.
Proof.
  intros Hk Hdep Hd d. rewrite Hdep. intros (td & Htd & Hs)%Hd.
  destruct (Hk _ _ Htd) as (td' & Htd' & _ & Hst). exists td'. split; [done|]. rewrite Hst; [done|by rewrite Hs; left].
Qed.

(** Every unfinished task waits for an active one. *)
Lemma unfinished_depends_active e r t :
  engine_inv e → get_task e r = Some t → ¬ finished (task_status t) →
  ∃ k' t', rtc (depends (tasks_of e (ref_wf r))) (ref_task r) k' ∧
    get_task e {| ref_wf := ref_wf r; ref_task := k' |} = Some t' ∧ active (task_status t').
Proof.
  intros Hi Ht Hf.
  destruct (get_task_workflow _ _ _ Hi Ht) as (wf & Hw & Htk & Hok & [Hc He _] & Hk).
  destruct (unfinished_active _ _ _ _ (wellformed_graph_ok _ Hok) Hc He Hk Hf) as (k' & s' & Hrtc & Hk' & Ha).
  apply task_statuses_Some in Hk' as (t' & Ht' & <-). exists k', t'.
  rewrite (get_task_Some _ _ _ _ Hw), (tasks_of_Some _ _ _ Hw). split_and!; [|done..].
  clear -Hrtc. induction Hrtc as [|x y z Hxy _ IH]; [done|]. eapply rtc_l; [by apply depends_dep|done].
Qed.

(** ** A submitted workflow *)

(** Among pending tasks, only those without dependencies are ready. *)
Lemma pending_ready_now wf k t :
  (∀ k s, task_statuses wf !! k = Some s → s = TaskPending) →
  task_statuses wf !! k = Some TaskPending → Tasks wf !! k = Some t →
  ready_now (graph_of wf) (task_statuses wf) k ↔ DependsOn t = [].
Proof.
  intros Hp Hk Ht. split.
  - intros [_ Hd]. destruct (DependsOn t) as [|d l] eqn:Hl; [done|].
    assert (dep (graph_of wf) k d) as Hdep by (apply (dep_of_task wf k t d Ht); rewrite Hl; left).
    by specialize (Hp _ _ (Hd d Hdep)).
  - intros Hnil. split; [done|]. intros d Hd. apply (dep_of_task wf k t d Ht) in Hd.
    rewrite Hnil in Hd. by apply elem_of_nil in Hd.
Qed.

Lemma SubmitWorkflow_stored e wf :
  submittable e wf →
  let '(id, e') := SubmitWorkflow e wf in
  id = wf_ID wf ∧ ∃ wf', workflows e' = <[wf_ID wf := wf']> (workflows e) ∧ frozen_wf wf' = frozen_wf wf ∧
    (∀ k t, Tasks wf' !! k = Some t → task_status t = if decide (DependsOn t = []) then TaskReady else TaskPending) ∧
    wf_status wf' = if decide (Tasks wf = ∅) then WorkflowPending else WorkflowRunning.
Proof.
  intros Hsub. pose proof (SubmitWorkflow_at e wf Hsub) as (wf' & Hw' & Hf & Hs & Ho).
  pose proof (submitted_statuses _ _ Hsub) as Hp. pose proof (sub_wellformed _ _ Hsub) as Hok.
  destruct (SubmitWorkflow e wf) as [id e'] eqn:He. split; [unfold SubmitWorkflow in He; congruence|].
  exists wf'. split_and!; [done..| |].
  - intros k t' Ht'. destruct (frozen_lookup wf' wf k t') as (t & Ht & Hft); [done..|].
    apply frozen_inj_fields in Hft as (_ & _ & <- & _).
    assert (task_statuses wf' !! k = Some (task_status t')) as Hk by (apply task_statuses_Some; eauto).
    assert (task_statuses wf !! k = Some TaskPending) as Hk0.
    { apply task_statuses_Some. exists t. split; [done|]. by eapply Hsub. }
    rewrite Hs, lookup_mark_ready, Hk0 in Hk. injection Hk as <-.
    rewrite (decide_ext _ _ _ _ (pending_ready_now wf k t Hp Hk0 Ht)). done.
  - rewrite Ho. unfold mark_status.
    pose proof (submitted_inv wf Hok Hp) as [_ _ Hst]. unfold mark_status in Hst.
    case_decide as Hd.
    + destruct Hd as [_ (k & s & Hk & _)]. rewrite decide_False; [done|]. intros Hnil.
      unfold task_statuses in Hk. by rewrite Hnil, fmap_empty, lookup_empty in Hk.
    + simpl in Hst. rewrite decide_True; [done|]. apply map_eq. intros k. rewrite lookup_empty.
      assert (mark_ready (graph_of wf) (task_statuses wf) !! k = None) as Hk by (by rewrite Hst, lookup_empty).
      rewrite lookup_mark_ready, fmap_None in Hk. unfold task_statuses in Hk. by rewrite lookup_fmap, fmap_None in Hk.
Qed.
End props.
