(* ===== verification/EngineQueue.v ===== *)
(** * The engine and the ready queue

    What the engine's methods put into the scheduler's queue: a task that
    becomes READY is queued exactly once, every queued job carries its task's
    own request, and nothing already queued is removed or reordered.  [grows]
    states this for one call; it composes, so that the loops follow from their
    bodies. *)

From stdpp Require Import base gmap strings list relations.
From Stdlib Require Import ZArith Lia.
From S2P Require Import Prelude Status Domain Dag NewWorkflow EventBus Jobs GoFloat Engine WorkflowSpec EngineBase EngineProps.

Section queue.
Context `{W : World} {H : Type}.
Implicit Types (e : Engine H) (r : TaskRef) (w k : string) (q js : list (Job TaskRef)).

(** The task pointers captured by the jobs' callbacks. *)
Definition targets q : list TaskRef := omap OnDispatched q.

Lemma targets_app q q' : targets (q ++ q') = targets q ++ targets q'.
Proof. apply omap_app. Qed.

(** A job made by [pushJob] for a task the engine has. *)
Definition job_ok e (j : Job TaskRef) : Prop := ∃ r t, get_task e r = Some t ∧ j = job_of r t.

Lemma job_of_frozen r t t' : frozen t' = frozen t → job_of r t' = job_of r t.
Proof. intros Hf. apply frozen_inj_fields in Hf as (Hi & Hw & _ & Hs & Ht). unfold job_of. by rewrite Hi, Hw, Hs, Ht. Qed.

(** How many of the jobs are for the task [r]. *)
Definition jobs_for r q : nat := length (filter (λ x, x = r) (targets q)).

Lemma jobs_for_app r q q' : jobs_for r (q ++ q') = jobs_for r q + jobs_for r q'.
Proof. unfold jobs_for. by rewrite targets_app, filter_app, length_app. Qed.

Lemma jobs_for_job r r' t : jobs_for r [job_of r' t] = if decide (r' = r) then 1 else 0.
Proof. unfold jobs_for. simpl. by rewrite filter_cons; case_decide. Qed.

(** Whether a task is before, at or past the point where it waits in the
    queue; an executing task can come back to it. *)
Definition status_phase s : nat :=
  match s with
  | TaskPending | TaskDispatched | TaskRunning | TaskRetrying => 0
  | TaskReady => 1
  | _ => 2
  end.

Definition phase e r : nat := default 0 (status_phase <$> (task_status <$> get_task e r)).

(** The jobs pushed for one task between two of its phases. *)
Definition pushes (p p' n : nat) : Prop :=
  p ≤ p' ∧ n ≤ 1 ∧ (p ≠ 0 → n = 0) ∧ (p' = 0 → n = 0) ∧ (p = 0 → p' = 1 → n = 1).

Lemma pushes_trans p p1 p2 n m : pushes p p1 n → pushes p1 p2 m → pushes p p2 (n + m).
Proof. unfold pushes. destruct p as [|[|?]], p1 as [|[|?]], p2 as [|[|?]]; lia. Qed.

Record grows e e' : Prop := {
  gr_tasks r : is_Some (workflows e !! ref_wf r) →
    is_Some (workflows e' !! ref_wf r) ∧ frozen <$> get_task e' r = frozen <$> get_task e r;
  gr_queue : ∃ js, queue e' = queue e ++ js ∧ (∀ j, j ∈ js → job_ok e' j) ∧
    ∀ r, pushes (phase e r) (phase e' r) (jobs_for r js);
}.

Lemma get_task_has_workflow e r t : get_task e r = Some t → is_Some (workflows e !! ref_wf r).
Proof.
  unfold get_task, tasks_of. destruct (workflows e !! ref_wf r); [by eauto|]. simpl. by rewrite lookup_empty.
Qed.

Lemma grows_task e e' r t :
  grows e e' → get_task e r = Some t → ∃ t', get_task e' r = Some t' ∧ frozen t' = frozen t.
Proof.
  intros [Ht _] Hr. destruct (Ht r (get_task_has_workflow _ _ _ Hr)) as [_ Hf].
  rewrite Hr in Hf. simpl in Hf. by apply fmap_Some in Hf as (t' & ? & ?); eauto.
Qed.

Lemma job_ok_grows e e' j : grows e e' → job_ok e j → job_ok e' j.
Proof.
  intros Hg (r & t & Hr & ->). destruct (grows_task _ _ _ _ Hg Hr) as (t' & Hr' & Hf). exists r, t'.
  split; [done|]. symmetry. by apply job_of_frozen.
Qed.

(** A step that queues nothing. *)
Lemma grows_silent e e' :
  (∀ r, is_Some (workflows e !! ref_wf r) →
    is_Some (workflows e' !! ref_wf r) ∧ frozen <$> get_task e' r = frozen <$> get_task e r) →
  queue e' = queue e → (∀ r, pushes (phase e r) (phase e' r) 0) → grows e e'.
Proof.
  intros Ht Hq Hp. split; [done|]. exists []. rewrite app_nil_r. split; [done|].
  split; [by intros j ?%elem_of_nil|done].
Qed.

Lemma pushes_refl p : pushes p p 0.
Proof. unfold pushes. lia. Qed.

#[export] Instance grows_preorder : PreOrder grows.
Proof.
  split.
  - intros e. apply grows_silent; [done..|]. intros r. apply pushes_refl.
  - intros a b c Hab Hbc. pose proof Hab as [Ht1 (js1 & Hq1 & Hj1 & Hp1)].
    pose proof Hbc as [Ht2 (js2 & Hq2 & Hj2 & Hp2)]. split.
    + intros r Hr. destruct (Ht1 r Hr) as [Hr1 Hf1]. destruct (Ht2 r Hr1) as [Hr2 Hf2]. split; [done|congruence].
    + exists (js1 ++ js2). rewrite Hq2, Hq1, app_assoc. split; [done|]. split.
      * intros j [Hj|Hj]%elem_of_app; [|by apply Hj2]. eapply job_ok_grows; [exact Hbc|by apply Hj1].
      * intros r. rewrite jobs_for_app. by eapply pushes_trans.
Qed.

(** ** Primitive operations *)

Lemma grows_same e e' : workflows e' = workflows e → queue e' = queue e → grows e e'.
Proof.
  intros Hw Hq. assert (∀ r, get_task e' r = get_task e r) as Hget by (intros r; by apply get_task_ext).
  apply grows_silent; [|done|].
  - intros r Hr. by rewrite Hw, Hget.
  - intros r. unfold phase. rewrite Hget. apply pushes_refl.
Qed.

Lemma queue_set_workflows v e : queue (set_workflows v e) = queue e.
Proof. by destruct e. Qed.
Lemma queue_next_tick e : queue (next_tick e) = queue e.
Proof. by destruct e. Qed.
Lemma queue_publish ev e : queue (publish_event ev e) = queue e.
Proof. by destruct e. Qed.
Lemma queue_set_queue v e : queue (set_queue v e) = v.
Proof. by destruct e. Qed.
Lemma queue_mod_task r f e : queue (mod_task r f e) = queue e.
Proof. apply queue_set_workflows. Qed.

Lemma queue_UpdateTaskStatus e r s : queue (UpdateTaskStatus e r s).2 = queue e.
Proof.
  unfold UpdateTaskStatus. repeat case_match; try done. simpl. rewrite queue_publish. apply queue_set_workflows.
Qed.

Lemma queue_UpdateWorkflowStatus e w s : queue (UpdateWorkflowStatus e w s).2 = queue e.
Proof.
  unfold UpdateWorkflowStatus. repeat case_match; try done. simpl. rewrite queue_publish. apply queue_set_workflows.
Qed.

Lemma workflows_mod_task_some r f e w : is_Some (workflows e !! w) → is_Some (workflows (mod_task r f e) !! w).
Proof.
  unfold mod_task. rewrite workflows_set_workflows, lookup_alter. case_decide; [|done]. subst. by rewrite fmap_is_Some.
Qed.

Lemma UpdateTaskStatus_workflow e r s w :
  is_Some (workflows e !! w) → is_Some (workflows (UpdateTaskStatus e r s).2 !! w).
Proof.
  unfold UpdateTaskStatus. repeat case_match; try done. simpl. rewrite workflows_publish. apply workflows_mod_task_some.
Qed.

Lemma UpdateWorkflowStatus_workflow e w s w' :
  is_Some (workflows e !! w') → is_Some (workflows (UpdateWorkflowStatus e w s).2 !! w').
Proof.
  unfold UpdateWorkflowStatus. repeat case_match; try done. simpl.
  rewrite workflows_publish. unfold mod_workflow. rewrite workflows_set_workflows, lookup_alter.
  case_decide; [|done]. subst. by rewrite fmap_is_Some.
Qed.

Lemma grows_tick e : grows e (next_tick e).
Proof. apply grows_same; [apply workflows_next_tick|apply queue_next_tick]. Qed.

Lemma UpdateTaskStatus_frozen e r s r' :
  frozen <$> get_task (UpdateTaskStatus e r s).2 r' = frozen <$> get_task e r'.
Proof.
  rewrite get_task_UpdateTaskStatus. case_decide; [|done]. destruct (get_task e r') as [t|]; [|done]. simpl.
  f_equal. destruct (taskStatusesGraph (task_status t) s); [apply frozen_status|done].
Qed.

Lemma phase_UpdateTaskStatus e r s r' :
  phase (UpdateTaskStatus e r s).2 r' =
  match get_task e r' with
  | Some t => if decide (r = r') then status_phase (if taskStatusesGraph (task_status t) s then s else task_status t)
              else phase e r'
  | None => 0
  end.
Proof.
  unfold phase. rewrite get_task_UpdateTaskStatus. case_decide; destruct (get_task e r') as [t|]; simpl; try done.
  destruct (taskStatusesGraph (task_status t) s); [by rewrite status_set_status|done].
Qed.

(** A status update that neither makes a task ready nor dispatches it. *)
Definition quiet (s : TaskStatus) : bool :=
  match s with TaskReady | TaskDispatched | TaskRetrying => false | _ => true end.

Lemma grows_update e r s : quiet s = true → grows e (UpdateTaskStatus e r s).2.
Proof.
  intros Hs. apply grows_silent; [|apply queue_UpdateTaskStatus|].
  - intros r' Hr. split; [by apply UpdateTaskStatus_workflow|apply UpdateTaskStatus_frozen].
  - intros r'. rewrite phase_UpdateTaskStatus. unfold phase. destruct (get_task e r') as [t|]; [|apply pushes_refl].
    case_decide; [|apply pushes_refl]. simpl. unfold pushes.
    destruct s; try done; destruct (task_status t); simpl; lia.
Qed.

(** An assignment to a field that is not part of the job. *)
Lemma grows_field e r f :
  (∀ t, frozen (f t) = frozen t) → (∀ t, task_status (f t) = task_status t) → grows e (mod_task r f e).
Proof.
  intros Hf Hs. apply grows_silent; [|apply queue_mod_task|].
  - intros r' Hr. split; [by apply workflows_mod_task_some|]. rewrite get_task_mod_task.
    case_decide; [|done]. destruct (get_task e r'); [|done]. simpl. by rewrite Hf.
  - intros r'. unfold phase. rewrite get_task_mod_task. case_decide; [|apply pushes_refl].
    destruct (get_task e r'); simpl; [|apply pushes_refl]. rewrite Hs. apply pushes_refl.
Qed.

Lemma grows_workflow_status e w s : grows e (UpdateWorkflowStatus e w s).2.
Proof.
  apply grows_silent; [|apply queue_UpdateWorkflowStatus|].
  - intros r Hr. split; [by apply UpdateWorkflowStatus_workflow|]. by rewrite get_task_UpdateWorkflowStatus.
  - intros r. unfold phase. rewrite get_task_UpdateWorkflowStatus. apply pushes_refl.
Qed.

(** An accepted update to READY followed by [pushJob] of the same task. *)
Lemma grows_ready e r t :
  get_task e r = Some t → taskStatusesGraph (task_status t) TaskReady = true →
  grows e (pushJob (UpdateTaskStatus e r TaskReady).2 r).
Proof.
  intros Ht Hg. set (e1 := (UpdateTaskStatus e r TaskReady).2).
  pose proof (get_task_UpdateTaskStatus e r r TaskReady) as Hr. fold e1 in Hr.
  rewrite decide_True, Ht in Hr by done. simpl in Hr. rewrite Hg in Hr.
  assert (∀ r', get_task (pushJob e1 r) r' = get_task e1 r') as Hpush.
  { intros r'. apply get_task_ext, workflows_pushJob. }
  split.
  - intros r' Hr'. rewrite workflows_pushJob, Hpush. split; [by apply UpdateTaskStatus_workflow|].
    apply UpdateTaskStatus_frozen.
  - eexists. split_and!.
    + unfold pushJob. rewrite Hr, queue_set_queue. unfold Push, e1. by rewrite queue_UpdateTaskStatus.
    + intros j ->%list_elem_of_singleton. exists r. rewrite Hpush. eauto.
    + intros r'. rewrite jobs_for_job. unfold phase at 2. rewrite Hpush. fold (phase e1 r'). unfold e1.
      rewrite phase_UpdateTaskStatus. unfold phase. case_decide as Heq; [subst r'; rewrite Ht; simpl|].
      * rewrite Hg. unfold pushes. destruct (task_status t); simpl in *; done || lia.
      * destruct (get_task e r'); simpl; apply pushes_refl.
Qed.

Lemma grows_foldl {A B} (eng : A → Engine H) (f : A → B → A) l a :
  (∀ a b, grows (eng a) (eng (f a b))) → grows (eng a) (eng (foldl f a l)).
Proof.
  intros Hf. apply (foldl_inv (λ x, grows (eng a) (eng x))); [done|]. intros x b _ Hx. by etrans.
Qed.

(** ** The methods *)

(** [markReady] of distinct pending tasks. *)
Lemma grows_markReady e w ks :
  NoDup ks →
  (∀ k, k ∈ ks → ∃ t, get_task e {| ref_wf := w; ref_task := k |} = Some t ∧ task_status t = TaskPending) →
  grows e (foldl (markReady w) e ks).
Proof.
  revert e. induction ks as [|k ks IH]; intros e Hnd Hp; [done|]. apply NoDup_cons in Hnd as [Hk Hnd]. simpl.
  destruct (Hp k) as (t & Ht & Hs); [left|]. unfold markReady at 2. rewrite Ht.
  etrans; [eapply grows_ready; [exact Ht|by rewrite Hs]|]. apply IH; [done|]. intros k' Hk'.
  destruct (Hp k') as (t' & Ht' & Hs'); [by right|]. exists t'. split; [|done].
  erewrite get_task_ext by apply workflows_pushJob. rewrite get_task_UpdateTaskStatus, decide_False by congruence. done.
Qed.

(** The keys a loop over a map selects are distinct. *)
Lemma NoDup_omap_id (f : string → option string) ks :
  (∀ k k', f k = Some k' → k' = k) → NoDup ks → NoDup (omap f ks).
Proof.
  intros Hf. induction 1 as [|k ks Hk _ IH]; simpl; [constructor|]. destruct (f k) as [k'|] eqn:Hx; [|done].
  apply Hf in Hx as ->. constructor; [|done]. rewrite list_elem_of_omap. by intros (x & Hx & ->%Hf).
Qed.

(** [markReadyTasks] marks distinct pending tasks, one after the other. *)
Lemma markReadyTasks_loop e0 w wf0 e σ ω :
  wf_wellformed wf0 → at_state e0 w wf0 e σ ω → all_known σ →
  ∃ e2 ks, markReadyTasks e w = foldl (markReady w) e2 ks ∧
    (∀ R, stepwise R → R e e2) ∧ grows e e2 ∧ queue e2 = queue e ∧ NoDup ks ∧
    ∀ k, k ∈ ks → ∃ t, get_task e2 {| ref_wf := w; ref_task := k |} = Some t ∧ task_status t = TaskPending.
Proof.
  intros Hok Hat Hkn. unfold markReadyTasks.
  pose proof Hat as (wf & Hw & _ & _ & _ & [Hc _ _] & _)%(at_state_lookup _ _ _ Hok). rewrite Hw.
  pose proof (λ k, recomputeReadyTasks_spec _ _ _ Hok e σ ω wf k Hat Hw Hkn) as Hready.
  assert (NoDup (recomputeReadyTasks e wf).1) as Hnd.
  { apply NoDup_omap_id; [|apply NoDup_range_keys]. intros k k' (t & Ht & Hx)%bind_Some.
    case_match; [|done]. injection Hx as <-. by apply Hc in Ht as [-> _]. }
  destruct (recomputeReadyTasks e wf) as [ks e1] eqn:Hrec. simpl in Hready, Hnd.
  assert (e1 = next_tick e) as -> by (unfold recomputeReadyTasks in Hrec; congruence).
  match goal with |- context [foldl _ ?x _] => set (e2 := x) end.
  assert ((∀ R, stepwise R → R e e2) ∧ grows e e2 ∧ queue e2 = queue e ∧ ∀ r, get_task e2 r = get_task e r)
    as (HR & Hg & Hq & Hget).
  { unfold e2. destruct (_ && _); split_and!.
    - intros R HR. pose proof (stepwise_preorder _ HR). etrans; [apply (stepwise_tick _ HR)|apply (stepwise_workflow _ HR)].
    - etrans; [apply grows_tick|apply grows_workflow_status].
    - by rewrite queue_UpdateWorkflowStatus, queue_next_tick.
    - intros r. rewrite get_task_UpdateWorkflowStatus. apply get_task_ext, workflows_next_tick.
    - intros R HR. apply (stepwise_tick _ HR).
    - apply grows_tick.
    - apply queue_next_tick.
    - intros r. apply get_task_ext, workflows_next_tick. }
  exists e2, ks. split_and!; [done..|]. intros k Hk. rewrite Hget.
  apply Hready in Hk as [Hs _]. destruct (at_state_task _ _ _ Hok _ _ _ _ _ Hat Hs) as (t & Ht & Hst & _). eauto.
Qed.

Lemma grows_markReadyTasks e0 w wf0 e σ ω :
  wf_wellformed wf0 → at_state e0 w wf0 e σ ω → all_known σ → grows e (markReadyTasks e w).
Proof.
  intros Hok Hat Hkn. destruct (markReadyTasks_loop _ _ _ _ _ _ Hok Hat Hkn) as (e2 & ks & -> & _ & Hg & _ & Hnd & Hp).
  etrans; [exact Hg|by apply grows_markReady].
Qed.

Lemma grows_finalize e w : grows e (finalizeWorkflowIfDone e w).
Proof. unfold finalizeWorkflowIfDone. repeat case_match; try done; apply grows_workflow_status. Qed.

Lemma grows_cancelVisit w id acc k : grows acc.2 (cancelVisit w id acc k).2.
Proof.
  destruct acc as [[running q] e]. unfold cancelVisit. case_match; [|done]. case_match; [done|].
  case_decide; [|done]. pose proof (grows_update e {| ref_wf := w; ref_task := k |} TaskCancelled) as Hu.
  destruct (UpdateTaskStatus _ _ _). by apply Hu.
Qed.

Lemma grows_cancelLoop fuel w (q : list string) running e : grows e (cancelLoop fuel w q running e).2.
Proof.
  revert q running e. induction fuel as [|fuel IH]; intros [|id q] running e; simpl; try done.
  etrans; [apply grows_tick|].
  pose proof (grows_foldl snd (cancelVisit w id) (range_keys (tick e) (tasks_of e w)) (running, q, next_tick e)
    (grows_cancelVisit w id)) as Hf.
  destruct (foldl _ _ _) as [[running' q'] e']. simpl in Hf. etrans; [exact Hf|apply IH].
Qed.

Lemma grows_cancelDownstream e w root : grows e (cancelDownstream e w root).2.
Proof.
  unfold cancelDownstream. pose proof (grows_cancelLoop (S (size (tasks_of e w))) w [root] [] e) as Hc.
  by destruct (cancelLoop _ _ _ _ _) as [[running q] e'].
Qed.

Lemma grows_notify e refs : grows e (notifyWorkersOfCancellation e refs).
Proof.
  apply grows_same; [apply workflows_notify|]. unfold notifyWorkersOfCancellation. case_match; [done|by destruct e].
Qed.

Lemma grows_report e w k t result : grows e (report e w k t result).
Proof.
  unfold report. set (r := {| ref_wf := w; ref_task := k |}).
  assert (∀ s v, quiet s = true → let '(ok, e1) := UpdateTaskStatus e r s in
    grows e e1 ∧ grows e (mod_task r (Task_SetResult v) e1)) as Hu.
  { intros s v Hs. pose proof (grows_update e r s Hs) as Hg. destruct (UpdateTaskStatus e r s) as [ok e1].
    split; [done|]. etrans; [exact Hg|]. apply grows_field; [apply frozen_result|apply status_set_result]. }
  destruct (res_Status result); try done; [by apply grows_update| |].
  - specialize (Hu TaskSucceeded (Some result) ltac:(done)).
    destruct (UpdateTaskStatus e r TaskSucceeded) as [[|] e1]; by destruct Hu.
  - specialize (Hu TaskFailed (Some result) ltac:(done)).
    destruct (UpdateTaskStatus e r TaskFailed) as [[|] e1]; destruct Hu as [? Hu]; [|done].
    etrans; [exact Hu|apply grows_cancelDownstream].
Qed.

Lemma grows_OnTaskResponse e w k result : engine_inv e → grows e (OnTaskResponse e w k result).2.
Proof.
  intros Hi. destruct (workflows e !! w) as [wf|] eqn:Hw; [destruct (Tasks wf !! k) as [t|] eqn:Ht|].
  - rewrite (OnTaskResponse_report _ _ _ _ _ _ Hw Ht).
    destruct (report_correct e w k wf t result Hi Hw Ht) as (σ1 & [Hat Hc _ _ _]). simpl.
    etrans; [|apply grows_finalize]. etrans; [apply grows_report|].
    destruct (engine_inv_wf _ _ _ Hi Hw) as (_ & Hok & _). eapply grows_markReadyTasks; [done..|apply Hc].
  - unfold OnTaskResponse. by rewrite Hw, Ht.
  - unfold OnTaskResponse. by rewrite Hw.
Qed.

(** [OnTaskDispatched] pushes nothing and takes a ready task out of the queue's
    care. *)
Lemma OnTaskDispatched_effect e r workerID :
  let e' := OnTaskDispatched e r workerID in
  queue e' = queue e ∧
  (∀ r', is_Some (workflows e !! ref_wf r') →
    is_Some (workflows e' !! ref_wf r') ∧ frozen <$> get_task e' r' = frozen <$> get_task e r') ∧
  ∀ r', phase e' r' = if decide (r = r') then if decide (phase e r = 1) then 0 else phase e r else phase e r'.
Proof.
  unfold OnTaskDispatched. set (e1 := mod_task r _ e). cbn zeta.
  pose proof (grows_field e r (set_AssignedTo workerID) (frozen_assigned workerID) (status_set_assigned workerID))
    as [Ht _]. fold e1 in Ht. split_and!.
  - rewrite queue_UpdateTaskStatus. apply queue_mod_task.
  - intros r' Hr'. destruct (Ht r' Hr') as [? ?]. rewrite UpdateTaskStatus_frozen.
    split; [by apply UpdateTaskStatus_workflow|done].
  - intros r'. rewrite phase_UpdateTaskStatus. unfold e1, phase. rewrite !get_task_mod_task.
    destruct (decide (r = r')) as [<-|]; destruct (get_task e _) as [t|]; simpl; [|done..].
    rewrite status_set_assigned. by destruct (task_status t).
Qed.

Lemma grows_CancelWorkflow e w : grows e (CancelWorkflow e w).2.
Proof.
  unfold CancelWorkflow. destruct (workflows e !! w) as [wf|]; [|done].
  pose proof (grows_foldl snd (cancelOne w) (range_keys (tick e) (Tasks wf)) ([], next_tick e)) as Hf.
  destruct (foldl _ _ _) as [running e1]. simpl in Hf |- *. etrans; [|apply grows_notify].
  etrans; [|apply grows_workflow_status]. etrans; [apply grows_tick|apply Hf].
  intros [run e2] k. unfold cancelOne. case_match; [|done]. case_match; [done|]. by apply grows_update.
Qed.

Lemma grows_CancelTask e k : grows e (CancelTask e k).2.
Proof.
  unfold CancelTask. unfold findTask. simpl. etrans; [apply grows_tick|].
  match goal with |- context [r ← ?x; _] => destruct x as [r|] end; [|done]. simpl.
  destruct (get_task (next_tick e) r) as [t|]; [|done]. simpl. destruct (Task_IsFinished t); [done|].
  pose proof (grows_cancelDownstream (UpdateTaskStatus (next_tick e) r TaskCancelled).2 (ref_wf r) (task_ID t)) as Hc.
  destruct (cancelDownstream _ _ _) as [downstream e1]. simpl in *. etrans; [|apply grows_notify].
  etrans; [|apply grows_finalize]. etrans; [|exact Hc]. by apply grows_update.
Qed.

Lemma grows_reassignTask workerID w e k : grows e (reassignTask workerID w e k).
Proof.
  unfold reassignTask. set (r := {| ref_wf := w; ref_task := k |}).
  destruct (get_task e r) as [t|] eqn:Ht; [|done]. case_decide; [done|]. destruct (is_active _); [|done].
  etrans; [apply (grows_field e r (set_AssignedTo "")); [apply frozen_assigned|apply status_set_assigned]|].
  set (e1 := mod_task _ _ e).
  assert (get_task e1 r = Some (set_AssignedTo "" t)) as Ht1.
  { unfold e1. by rewrite get_task_mod_task, decide_True, Ht. }
  destruct (taskStatusesGraph (task_status (set_AssignedTo "" t)) TaskReady) eqn:Hg.
  - pose proof (grows_ready e1 r _ Ht1 Hg) as Hg1.
    destruct (UpdateTaskStatus e1 r TaskReady) as [[|] e2] eqn:Hu; [done|]. simpl in Hg1.
    unfold UpdateTaskStatus, Task_UpdateStatus, TaskStatus_CanTransitTo in Hu. rewrite Ht1, Hg in Hu.
    case_decide as Heq; [|done]. rewrite Heq in Hg. done.
  - by rewrite (UpdateTaskStatus_rejected _ _ _ _ Ht1 Hg).
Qed.

Lemma grows_ReassignDeadWorkerTasks e workerID : grows e (ReassignDeadWorkerTasks e workerID).
Proof.
  unfold ReassignDeadWorkerTasks. etrans; [apply grows_tick|]. apply (grows_foldl id). intros e1 w.
  unfold reassignWorkflow, id. etrans; [apply grows_tick|]. apply (grows_foldl id). intros e2 k.
  apply grows_reassignTask.
Qed.

Lemma grows_SubmitWorkflow e wf : submittable e wf → grows e (SubmitWorkflow e wf).2.
Proof.
  intros Hsub. pose proof Hsub as [Hfresh Hok _ Hp]. unfold SubmitWorkflow. cbn [snd].
  set (e1 := set_workflows _ e).
  assert (workflows e1 !! wf_ID wf = Some wf) as Hw1 by (unfold e1; by rewrite workflows_set_workflows, lookup_insert_eq).
  etrans; [|eapply grows_markReadyTasks; [done|by apply at_state_start|by intros k s ->%(submitted_statuses _ _ Hsub)]].
  assert (∀ r, get_task e1 r = if decide (ref_wf r = wf_ID wf) then Tasks wf !! ref_task r else get_task e r) as Hget.
  { intros r. unfold get_task, tasks_of, e1. rewrite workflows_set_workflows, lookup_insert.
    case_decide as Hw; [|by rewrite decide_False by congruence]. by rewrite decide_True. }
  assert (∀ r, ref_wf r = wf_ID wf → get_task e r = None) as Hnone.
  { intros r Hr. unfold get_task, tasks_of. by rewrite Hr, Hfresh. }
  apply grows_silent; [|by unfold e1; rewrite queue_set_workflows|].
  - intros r Hr. rewrite Hget. unfold e1. rewrite workflows_set_workflows, lookup_insert.
    case_decide as Heq; [|by rewrite decide_False by congruence]. rewrite <-Heq, Hfresh in Hr. by destruct Hr.
  - intros r. unfold phase. rewrite Hget. case_decide as Hr; [|apply pushes_refl]. rewrite Hnone by done. simpl.
    destruct (Tasks wf !! ref_task r) as [t|] eqn:Ht; simpl; [|apply pushes_refl].
    rewrite (Hp _ _ Ht). apply pushes_refl.
Qed.

(** ** The exact effect of a reassignment *)

(** A task executing on the dead worker, and what happens to it. *)
Definition lost (workerID : string) (t : Task) : Prop := AssignedTo t = workerID ∧ executing (task_status t).

#[export] Instance lost_dec workerID t : Decision (lost workerID t).
Proof. unfold lost. apply _. Defined.

Definition reassigned (workerID : string) (t : Task) : Task :=
  if decide (lost workerID t) then set_task_status TaskReady (set_AssignedTo "" t) else t.

Lemma reassigned_not_lost workerID t : ¬ lost workerID (reassigned workerID t).
Proof.
  unfold reassigned. case_decide; [|done]. intros [_ Hx]. rewrite status_set_status in Hx. by_status.
Qed.

Lemma reassigned_id workerID t : ¬ lost workerID t → reassigned workerID t = t.
Proof. intros Hl. unfold reassigned. by rewrite decide_False. Qed.

Lemma workflows_wf_status_mod_task e r f w :
  wf_status <$> workflows (mod_task r f e) !! w = wf_status <$> workflows e !! w.
Proof.
  unfold mod_task. rewrite workflows_set_workflows, lookup_alter. case_decide; [|done]. subst.
  destruct (workflows e !! ref_wf r); simpl; [|done]. by autorewrite with orc.
Qed.

(** One iteration, for a task that is lost and for one that is not. *)
Lemma reassignTask_lost workerID e w k t :
  let r := {| ref_wf := w; ref_task := k |} in
  get_task e r = Some t → lost workerID t →
  let e' := reassignTask workerID w e k in
  (∀ r', get_task e' r' = if decide (r = r') then Some (reassigned workerID t) else get_task e r') ∧
  queue e' = queue e ++ [job_of r t] ∧
  (∀ v, wf_status <$> workflows e' !! v = wf_status <$> workflows e !! v).
Proof.
  intros r Ht [Ha Hx]. unfold reassignTask. fold r. rewrite Ht, decide_False by tauto.
  assert (is_active (Task_GetStatus t) = true) as -> by by apply is_active_spec. set (e1 := mod_task r (set_AssignedTo "") e).
  assert (get_task e1 r = Some (set_AssignedTo "" t)) as Ht1 by (unfold e1; by rewrite get_task_mod_task, decide_True, Ht).
  set (t' := reassigned workerID t).
  assert (t' = set_task_status TaskReady (set_AssignedTo "" t)) as Ht'.
  { unfold t', reassigned. by rewrite decide_True. }
  assert (UpdateTaskStatus e1 r TaskReady = (true, publish_event (TaskStatusChangedEvent (task_WorkflowID t')
    (task_ID t') (Task_GetStatus t')) (mod_task r (λ _, t') e1))) as Hu.
  { unfold UpdateTaskStatus. rewrite Ht1. unfold Task_UpdateStatus, TaskStatus_CanTransitTo.
    rewrite status_set_assigned. rewrite Ht'. by destruct Hx as [-> | ->]. }
  rewrite Hu. set (e2 := publish_event _ _).
  assert (∀ r', get_task e2 r' = if decide (r = r') then Some t' else get_task e r') as Hget.
  { intros r'. unfold e2. erewrite get_task_ext by apply workflows_publish. rewrite get_task_mod_task.
    unfold e1. rewrite get_task_mod_task. case_decide; [|done]. subst r'. by rewrite Ht. }
  unfold pushJob. rewrite (Hget r), decide_True by done. split_and!.
  - intros r'. erewrite get_task_ext by apply workflows_set_queue. apply Hget.
  - rewrite queue_set_queue. unfold Push, e2. rewrite queue_publish. f_equal.
    { unfold e1, mod_task. by rewrite !queue_set_workflows. }
    f_equal. apply job_of_frozen. by rewrite Ht', frozen_status, frozen_assigned.
  - intros v. rewrite workflows_set_queue. unfold e2. rewrite workflows_publish.
    unfold e1. by rewrite !workflows_wf_status_mod_task.
Qed.

Lemma reassignTask_kept workerID e w k :
  (∀ t, get_task e {| ref_wf := w; ref_task := k |} = Some t → ¬ lost workerID t) →
  reassignTask workerID w e k = e.
Proof.
  intros Hk. unfold reassignTask. destruct (get_task e _) as [t|]; [|done]. specialize (Hk t eq_refl).
  case_decide as Ha; [done|]. destruct (is_active (Task_GetStatus t)) eqn:Hx; [|done]. destruct Hk.
  split; [|by apply is_active_spec]. destruct (decide (AssignedTo t = workerID)); tauto.
Qed.

(** The state after the tasks in [V] were visited. *)
Record reassigned_upto (workerID : string) e (V : TaskRef → Prop) e' : Prop := {
  ru_in r : V r → get_task e' r = reassigned workerID <$> get_task e r;
  ru_out r : ¬ V r → get_task e' r = get_task e r;
  ru_dec r : V r ∨ ¬ V r;
  ru_status v : wf_status <$> workflows e' !! v = wf_status <$> workflows e !! v;
  ru_queue : ∃ js, queue e' = queue e ++ js ∧ NoDup (targets js) ∧ (∀ j, j ∈ js → job_ok e j) ∧
    ∀ r, r ∈ targets js ↔ V r ∧ ∃ t, get_task e r = Some t ∧ lost workerID t;
}.

Lemma reassigned_upto_start workerID e : reassigned_upto workerID e (λ _, False) e.
Proof.
  split; [by intros r []|done|intros r; right; by intros []|done|]. exists []. rewrite app_nil_r. split; [done|].
  split; [constructor|]. split; [by intros j ?%elem_of_nil|]. intros r.
  split; [by intros ?%elem_of_nil|by intros [[] _]].
Qed.

Lemma reassigned_upto_same workerID e V V' e1 e2 :
  workflows e2 = workflows e1 → queue e2 = queue e1 → (∀ r, V' r ↔ V r) →
  reassigned_upto workerID e V e1 → reassigned_upto workerID e V' e2.
Proof.
  intros Hw Hq HV [Hin Hout Hdec Hst Hqu].
  assert (∀ r, get_task e2 r = get_task e1 r) as Hget by (intros r; by apply get_task_ext).
  split.
  - intros r Hr. rewrite Hget. by apply Hin, HV.
  - intros r Hr. rewrite Hget. apply Hout. by rewrite <-HV.
  - intros r. rewrite HV. apply Hdec.
  - intros v. by rewrite Hw.
  - rewrite Hq. by setoid_rewrite HV.
Qed.

Lemma reassigned_upto_step workerID e V e1 w k :
  reassigned_upto workerID e V e1 →
  reassigned_upto workerID e (λ r, V r ∨ r = {| ref_wf := w; ref_task := k |}) (reassignTask workerID w e1 k).
Proof.
  intros Hru. set (r0 := {| ref_wf := w; ref_task := k |}).
  assert ((∃ t, get_task e1 r0 = Some t ∧ lost workerID t) ∨
    ∀ t, get_task e1 r0 = Some t → ¬ lost workerID t) as [(t & Ht & Hl)|Hno].
  { destruct (get_task e1 r0) as [t|]; [|by right]. destruct (decide (lost workerID t)); [by left; eauto|].
    right. by intros t' [= <-]. }
  - pose proof Hru as [Hin Hout Hdec Hst (js & Hq & Hnd & Hok & Htg)].
    destruct (reassignTask_lost workerID e1 w k t Ht Hl) as (Hget & Hqueue & Hst'). fold r0 in Hget, Hqueue.
    assert (¬ V r0) as HV.
    { intros HV. rewrite (Hin r0 HV) in Ht. apply fmap_Some in Ht as (t0 & _ & ->).
      by apply (reassigned_not_lost workerID t0). }
    pose proof Ht as Ht0. rewrite (Hout r0 HV) in Ht0. split.
    + intros r Hr. rewrite Hget. case_decide as Heq; [subst r; by rewrite Ht0|].
      destruct Hr as [Hr|Hr]; [by apply Hin|by subst].
    + intros r Hr. rewrite Hget, decide_False; [|intros <-; tauto]. apply Hout. tauto.
    + intros r. destruct (Hdec r); [by auto|]. destruct (decide (r = r0)); [by auto|]. right. tauto.
    + intros v. by rewrite Hst'.
    + exists (js ++ [job_of r0 t]). rewrite Hqueue, Hq, app_assoc, targets_app. simpl. split; [done|]. split_and!.
      * apply NoDup_app. split; [done|]. split; [|apply NoDup_singleton].
        intros r Hr ->%list_elem_of_singleton. apply Htg in Hr. tauto.
      * intros j [Hj|Hj]%elem_of_app; [by apply Hok|]. apply list_elem_of_singleton in Hj. exists r0, t. done.
      * intros r. rewrite elem_of_app, Htg, list_elem_of_singleton. split.
        -- intros [[Hr ?]| ->]; [by auto|]. split; [by right|]. eauto.
        -- intros [[Hr|Hr] ?]; auto.
  - rewrite (reassignTask_kept workerID e1 w k Hno). fold r0 in Hno.
    pose proof Hru as [Hin Hout Hdec Hst (js & Hq & Hnd & Hok & Htg)].
    assert (V r0 ∨ ¬ V r0 ∧ ∀ t, get_task e r0 = Some t → ¬ lost workerID t) as Hr0.
    { destruct (Hdec r0) as [|HV]; [by left|right]. split; [done|]. by rewrite <-(Hout r0 HV). }
    assert (∀ r, V r ∨ r = r0 → get_task e1 r = reassigned workerID <$> get_task e r) as Hin'.
    { intros r [Hr|Hr]; [by apply Hin|]. subst r. destruct Hr0 as [Hr|[Hr Hnl]]; [by apply Hin|].
      rewrite (Hout r0 Hr). destruct (get_task e r0) as [t|]; simpl; [|done]. by rewrite reassigned_id by by apply Hnl. }
    split; [done| | |done|].
    + intros r Hr. apply Hout. tauto.
    + intros r. destruct (Hdec r); [by auto|]. destruct (decide (r = r0)); [by auto|]. right. tauto.
    + exists js. split_and!; [done..|]. intros r. rewrite Htg. split; [intros [? ?]; by auto|].
      intros [[Hr| ->] (t & Ht & Hl)]; [by eauto|]. destruct Hr0 as [Hr|[_ Hnl]]; [by eauto|].
      by destruct (Hnl t Ht).
Qed.

Lemma reassigned_upto_workflow workerID e V e1 w :
  reassigned_upto workerID e V e1 →
  reassigned_upto workerID e (λ r, V r ∨ ref_wf r = w ∧ ref_task r ∈ range_keys (tick e1) (tasks_of e1 w))
    (reassignWorkflow workerID e1 w).
Proof.
  intros Hru. unfold reassignWorkflow. set (ks := range_keys _ _).
  apply (foldl_prefix_inv (λ done e2,
    reassigned_upto workerID e (λ r, V r ∨ ref_wf r = w ∧ ref_task r ∈ done) e2)).
  - eapply reassigned_upto_same; [apply workflows_next_tick|apply queue_next_tick| |exact Hru].
    intros r. rewrite elem_of_nil. tauto.
  - intros done k rest e2 _ Hru2. eapply reassigned_upto_same; [done..| |by apply reassigned_upto_step].
    intros [v x]. simpl. rewrite elem_of_app, list_elem_of_singleton.
    split; [intros [?|[-> [?| ->]]]; auto|intros [[?|[-> ?]]|[= -> ->]]; auto].
Qed.

Lemma reassigned_upto_dom workerID e V e1 r :
  reassigned_upto workerID e V e1 → is_Some (get_task e1 r) ↔ is_Some (get_task e r).
Proof.
  intros [Hin Hout Hdec _ _]. destruct (Hdec r) as [Hr|Hr]; [|by rewrite (Hout r Hr)].
  by rewrite (Hin r Hr), fmap_is_Some.
Qed.

Lemma ReassignDeadWorkerTasks_upto workerID e :
  reassigned_upto workerID e (λ r, is_Some (get_task e r)) (ReassignDeadWorkerTasks e workerID).
Proof.
  unfold ReassignDeadWorkerTasks. set (ws := range_keys _ _).
  assert (reassigned_upto workerID e (λ r, is_Some (get_task e r) ∧ ref_wf r ∈ ws)
    (foldl (reassignWorkflow workerID) (next_tick e) ws)) as Hru.
  { apply (foldl_prefix_inv (λ done e2,
      reassigned_upto workerID e (λ r, is_Some (get_task e r) ∧ ref_wf r ∈ done) e2)).
    - eapply reassigned_upto_same; [apply workflows_next_tick|apply queue_next_tick| |apply reassigned_upto_start].
      intros r. rewrite elem_of_nil. tauto.
    - intros done w rest e2 _ Hru2.
      eapply reassigned_upto_same; [done..| |exact (reassigned_upto_workflow workerID e _ e2 w Hru2)].
      intros r. rewrite elem_of_app, list_elem_of_singleton, elem_of_range_keys.
      pose proof (reassigned_upto_dom _ _ _ _ r Hru2) as Hdom. unfold get_task in Hdom at 1.
      split; [|intros [?|[<- ?]]; tauto]. intros [? [?|Hw]]; [by auto|]. right. rewrite <-Hw. tauto. }
  eapply reassigned_upto_same; [done..| |exact Hru].
  intros r. split; [|by intros [? _]]. intros Hr. split; [done|]. unfold ws. rewrite elem_of_range_keys.
  unfold get_task, tasks_of in Hr. destruct (workflows e !! ref_wf r); [by eauto|].
  simpl in Hr. rewrite lookup_empty in Hr. by destruct Hr.
Qed.
Lemma ReassignDeadWorkerTasks_get workerID e r :
  get_task (ReassignDeadWorkerTasks e workerID) r = reassigned workerID <$> get_task e r.
Proof.
  destruct (ReassignDeadWorkerTasks_upto workerID e) as [Hin Hout _ _ _]. destruct (get_task e r) as [t|] eqn:Ht.
  - rewrite Hin by (by rewrite Ht). by rewrite Ht.
  - rewrite Hout by (rewrite Ht; by intros [? ?]). done.
Qed.
End queue.
