(* ===== verification/EngineCauses.v ===== *)
(** * What makes a task succeed, and what makes it be queued

    The two facts about the engine's methods that an end-to-end argument needs:
    a task becomes SUCCEEDED only by a report of its success
    ([succeeds_from], [OnTaskResponse_success]), and every job a method pushes
    is for a task that is READY when the method returns ([pushes_ready]). *)

From stdpp Require Import base gmap strings list relations.
From Stdlib Require Import ZArith Lia.
From S2P Require Import Prelude Status Domain Dag NewWorkflow EventBus Jobs Engine WorkflowSpec EngineBase EngineProps EngineQueue.

Section causes.
Context `{W : World} {H : Type}.
Implicit Types (e : Engine H) (r : TaskRef) (w k : string).

(** ** Success *)

(** Whatever has succeeded afterwards had succeeded before, with its result. *)
Definition succeeds_from e e' : Prop :=
  ∀ r t', get_task e' r = Some t' → task_status t' = TaskSucceeded →
    ∃ t, get_task e r = Some t ∧ task_status t = TaskSucceeded ∧ task_result t = task_result t'.

#[export] Instance succeeds_from_preorder : PreOrder succeeds_from.
Proof.
  split; [by intros e r t; eauto|]. intros a b c Hab Hbc r t Ht Hs.
  destruct (Hbc r t Ht Hs) as (t1 & Ht1 & Hs1 & <-). eauto.
Qed.

Lemma succeeds_from_same e e' : workflows e' = workflows e → succeeds_from e e'.
Proof. intros Hw r t. rewrite (get_task_ext e e' r Hw). eauto. Qed.

(** An assignment through the pointer of one task. *)
Lemma succeeds_from_mod e r f :
  (∀ t, get_task e r = Some t → task_status (f t) = TaskSucceeded →
    task_status t = TaskSucceeded ∧ task_result t = task_result (f t)) →
  succeeds_from e (mod_task r f e).
Proof.
  intros Hf r' t'. rewrite get_task_mod_task. case_decide; [|eauto]. subst r'.
  destruct (get_task e r) as [t|]; simpl; [|done]. intros [= <-] Hs. specialize (Hf t eq_refl Hs). naive_solver.
Qed.

Lemma succeeds_from_update e r s : s ≠ TaskSucceeded → succeeds_from e (UpdateTaskStatus e r s).2.
Proof.
  intros Hne r' t'. rewrite get_task_UpdateTaskStatus. case_decide; [|eauto]. subst r'.
  destruct (get_task e r) as [t|]; simpl; [|done]. intros [= <-].
  destruct (taskStatusesGraph (task_status t) s); [by rewrite status_set_status|eauto].
Qed.

Lemma succeeds_from_stepwise : stepwise succeeds_from.
Proof.
  split; [apply _|intros e r; by apply succeeds_from_update| |].
  - intros e w s r t. rewrite get_task_UpdateWorkflowStatus. eauto.
  - intros e. apply succeeds_from_same, workflows_next_tick.
Qed.

Lemma succeeds_from_markReadyTasks e w : succeeds_from e (markReadyTasks e w).
Proof.
  apply (stepwise_markReadyTasks _ succeeds_from_stepwise); intros e1 r.
  - apply succeeds_from_same, workflows_pushJob.
  - by apply succeeds_from_update.
Qed.

Lemma succeeds_from_notify e refs : succeeds_from e (notifyWorkersOfCancellation e refs).
Proof. apply succeeds_from_same, workflows_notify. Qed.

Lemma succeeds_from_CancelWorkflow e w : succeeds_from e (CancelWorkflow e w).2.
Proof. apply (stepwise_CancelWorkflow _ succeeds_from_stepwise), succeeds_from_notify. Qed.

Lemma succeeds_from_CancelTask e k : succeeds_from e (CancelTask e k).2.
Proof. apply (stepwise_CancelTask _ succeeds_from_stepwise), succeeds_from_notify. Qed.

Lemma succeeds_from_OnTaskDispatched e r workerID : succeeds_from e (OnTaskDispatched e r workerID).
Proof.
  etrans; [|by apply succeeds_from_update]. apply succeeds_from_mod. intros t _.
  rewrite status_set_assigned. by destruct t.
Qed.

Lemma succeeds_from_Reassign e workerID : succeeds_from e (ReassignDeadWorkerTasks e workerID).
Proof.
  destruct (ReassignDeadWorkerTasks_upto workerID e) as [Hin Hout Hdec _ _]. intros r t'.
  destruct (Hdec r) as [Hr|Hr]; [|by rewrite (Hout r Hr); eauto]. rewrite (Hin r Hr).
  destruct Hr as [t Ht]. rewrite Ht. simpl. intros [= <-]. unfold reassigned. case_decide; [by rewrite status_set_status|eauto].
Qed.

Lemma succeeds_from_SubmitWorkflow e wf : submittable e wf → succeeds_from e (SubmitWorkflow e wf).2.
Proof.
  intros [Hfresh _ _ Hp]. unfold SubmitWorkflow. cbn [snd]. etrans; [|apply succeeds_from_markReadyTasks].
  intros r t'. unfold get_task, tasks_of. rewrite workflows_set_workflows, lookup_insert. case_decide as Hr; [|eauto].
  simpl. intros Ht%Hp. by rewrite Ht.
Qed.

(** The status after an accepted update. *)
Lemma UpdateTaskStatus_true e r s e1 :
  UpdateTaskStatus e r s = (true, e1) → ∃ t, get_task e1 r = Some t ∧ task_status t = s.
Proof.
  intros Hu. pose proof (get_task_UpdateTaskStatus e r r s) as Hget. rewrite Hu, decide_True in Hget by done. simpl in Hget.
  destruct (get_task e r) as [t|] eqn:Ht; [|unfold UpdateTaskStatus in Hu; by rewrite Ht in Hu].
  destruct (taskStatusesGraph (task_status t) s) eqn:Hg; [|by rewrite (UpdateTaskStatus_rejected _ _ _ _ Ht Hg) in Hu].
  simpl in Hget. rewrite Hg in Hget. eexists. split; [exact Hget|apply status_set_status].
Qed.

(** A report changes the set of successes only by the success it reports. *)
Lemma OnTaskResponse_success e w k result r t' :
  let e' := (OnTaskResponse e w k result).2 in
  get_task e' r = Some t' → task_status t' = TaskSucceeded →
  (∃ t, get_task e r = Some t ∧ task_status t = TaskSucceeded ∧ task_result t = task_result t') ∨
  r = {| ref_wf := w; ref_task := k |} ∧ is_Some (get_task e r) ∧ res_Status result = TaskSucceeded ∧
    task_result t' = Some result.
Proof.
  intros e'. unfold e'. destruct (workflows e !! w) as [wf|] eqn:Hw; [destruct (Tasks wf !! k) as [t|] eqn:Ht|].
  2-3: unfold OnTaskResponse; rewrite Hw, ?Ht; by eauto.
  rewrite (OnTaskResponse_report _ _ _ _ _ _ Hw Ht). simpl. intros Ht' Hs.
  assert (succeeds_from (report e w k t result) (finalizeWorkflowIfDone (markReadyTasks (report e w k t result) w) w)) as Hend.
  { etrans; [apply succeeds_from_markReadyTasks|apply (stepwise_finalize _ succeeds_from_stepwise)]. }
  destruct (Hend r t' Ht' Hs) as (t1 & Ht1 & Hs1 & <-). clear Hend Ht' Hs. revert Ht1 Hs1.
  set (rk := {| ref_wf := w; ref_task := k |}). unfold report. fold rk.
  destruct (res_Status result) eqn:Hres; try by eauto.
  - intros Ht1 Hs1. left. by eapply (succeeds_from_update e rk TaskRunning).
  - pose proof (get_task_UpdateTaskStatus e rk r TaskSucceeded) as Hget.
    destruct (UpdateTaskStatus e rk TaskSucceeded) as [ok e1] eqn:Hu. simpl in Hget. destruct ok.
    + rewrite decide_False by done. rewrite get_task_mod_task. case_decide as Hr; [|rewrite Hget; by eauto].
      subst r. intros (t2 & _ & ->)%fmap_Some _. right. unfold rk. rewrite (get_task_Some _ _ _ _ Hw), Ht. by destruct t2.
    + unfold UpdateTaskStatus in Hu. repeat case_match; simplify_eq; eauto.
  - pose proof (succeeds_from_update e rk TaskFailed ltac:(done)) as Hf.
    destruct (UpdateTaskStatus e rk TaskFailed) as [ok e1] eqn:Hu. simpl in Hf. intros Ht1 Hs1. left. destruct ok; [|eauto].
    rewrite decide_True in Ht1 by done.
    destruct (stepwise_cancelDownstream _ succeeds_from_stepwise _ _ _ _ _ Ht1 Hs1) as (t2 & Ht2 & Hs2 & <-).
    destruct (UpdateTaskStatus_true _ _ _ _ Hu) as (t3 & Ht3 & Hs3).
    apply Hf; [|done]. rewrite get_task_mod_task in Ht2. case_decide; [|done]. subst r. rewrite Ht3 in Ht2.
    injection Ht2 as <-. rewrite status_set_result in Hs2. congruence.
Qed.

(** ** Jobs *)

(** The jobs pushed, each for a task that is READY afterwards. *)
Definition pushes_ready e e' : Prop :=
  ∃ js, queue e' = queue e ++ js ∧
    ∀ j, j ∈ js → ∃ r t, get_task e' r = Some t ∧ task_status t = TaskReady ∧ j = job_of r t.

Definition ready_stays e e' : Prop :=
  ∀ r t, get_task e r = Some t → task_status t = TaskReady →
    ∃ t', get_task e' r = Some t' ∧ task_status t' = TaskReady ∧ frozen t' = frozen t.

Lemma pushes_ready_same e e' : queue e' = queue e → pushes_ready e e'.
Proof. intros Hq. exists []. rewrite app_nil_r. split; [done|]. by intros j ?%elem_of_nil. Qed.

Lemma pushes_ready_trans e1 e2 e3 : pushes_ready e1 e2 → pushes_ready e2 e3 → ready_stays e2 e3 → pushes_ready e1 e3.
Proof.
  intros (js & Hq & Hjs) (js' & Hq' & Hjs') Hstay. exists (js ++ js'). rewrite Hq', Hq, app_assoc. split; [done|].
  intros j [(r & t & Ht & Hs & ->)%Hjs|Hj]%elem_of_app; [|by apply Hjs'].
  destruct (Hstay r t Ht Hs) as (t' & Ht' & Hs' & Hf). exists r, t'. split_and!; [done..|]. symmetry. by apply job_of_frozen.
Qed.

Lemma ready_stays_get_task e e' : (∀ r, get_task e' r = get_task e r) → ready_stays e e'.
Proof. intros Hget r t Ht. rewrite Hget. eauto. Qed.

Lemma ready_stays_update e r : ready_stays e (UpdateTaskStatus e r TaskReady).2.
Proof.
  intros r' t Ht Hs. rewrite get_task_UpdateTaskStatus, Ht. case_decide; [|eauto]. simpl. rewrite Hs. simpl. eauto.
Qed.

(** One accepted READY followed by [pushJob]. *)
Lemma pushes_ready_job e r t :
  get_task e r = Some t → task_status t = TaskPending →
  pushes_ready e (pushJob (UpdateTaskStatus e r TaskReady).2 r) ∧ ready_stays e (pushJob (UpdateTaskStatus e r TaskReady).2 r).
Proof.
  intros Ht Hs. pose proof (get_task_UpdateTaskStatus e r r TaskReady) as Hget.
  rewrite decide_True, Ht in Hget by done. simpl in Hget. rewrite Hs in Hget. simpl in Hget.
  assert (∀ r', get_task (pushJob (UpdateTaskStatus e r TaskReady).2 r) r' = get_task (UpdateTaskStatus e r TaskReady).2 r') as Hpush.
  { intros r'. apply get_task_ext, workflows_pushJob. }
  split.
  - eexists. split.
    + unfold pushJob. rewrite Hget, queue_set_queue. unfold Push. by rewrite queue_UpdateTaskStatus.
    + intros j ->%list_elem_of_singleton. exists r, (set_task_status TaskReady t). rewrite Hpush.
      split_and!; [done|apply status_set_status|done].
  - intros r' t' Ht' Hs'. rewrite Hpush. by apply (ready_stays_update e r r').
Qed.

Lemma pushes_ready_markReady e w ks :
  NoDup ks →
  (∀ k, k ∈ ks → ∃ t, get_task e {| ref_wf := w; ref_task := k |} = Some t ∧ task_status t = TaskPending) →
  pushes_ready e (foldl (markReady w) e ks) ∧ ready_stays e (foldl (markReady w) e ks).
Proof.
  revert e. induction ks as [|k ks IH]; intros e Hnd Hp; simpl.
  { split; [by apply pushes_ready_same|by apply ready_stays_get_task]. }
  apply NoDup_cons in Hnd as [Hk Hnd]. destruct (Hp k) as (t & Ht & Hs); [left|].
  unfold markReady at 2 4. rewrite Ht. destruct (pushes_ready_job e _ t Ht Hs) as [Hpush Hstay].
  destruct (IH (pushJob (UpdateTaskStatus e {| ref_wf := w; ref_task := k |} TaskReady).2 {| ref_wf := w; ref_task := k |}) Hnd)
    as [Hpush' Hstay'].
  { intros k' Hk'. destruct (Hp k') as (t' & Ht' & Hs'); [by right|]. exists t'. split; [|done].
    erewrite get_task_ext by apply workflows_pushJob. rewrite get_task_UpdateTaskStatus, decide_False by congruence. done. }
  split; [by eapply pushes_ready_trans|]. intros r t1 Ht1 Hs1.
  destruct (Hstay r t1 Ht1 Hs1) as (t2 & Ht2 & Hs2 & <-). by apply Hstay'.
Qed.

Lemma pushes_ready_markReadyTasks e0 w wf0 e σ ω :
  wf_wellformed wf0 → at_state e0 w wf0 e σ ω → all_known σ → pushes_ready e (markReadyTasks e w).
Proof.
  intros Hok Hat Hkn. destruct (markReadyTasks_loop _ _ _ _ _ _ Hok Hat Hkn) as (e2 & ks & -> & _ & _ & Hq & Hnd & Hp).
  destruct (pushes_ready_markReady e2 w ks Hnd Hp) as [(js & Hq' & Hjs) _]. exists js. by rewrite Hq', Hq.
Qed.

(** Status updates and cancellations push nothing. *)
Lemma queue_stepwise : stepwise (λ e e', queue e' = queue e).
Proof.
  split; [split; [done|congruence]| | |].
  - intros e r. apply queue_UpdateTaskStatus.
  - apply queue_UpdateWorkflowStatus.
  - apply queue_next_tick.
Qed.

Lemma queue_notify e refs : queue (notifyWorkersOfCancellation e refs) = queue e.
Proof. unfold notifyWorkersOfCancellation. case_match; [done|by destruct e]. Qed.

Lemma queue_report e w k t result : queue (report e w k t result) = queue e.
Proof.
  unfold report. set (r := {| ref_wf := w; ref_task := k |}). pose proof (queue_UpdateTaskStatus e r) as Hu.
  destruct (res_Status result); try done.
  - specialize (Hu TaskSucceeded). destruct (UpdateTaskStatus e r TaskSucceeded) as [[] e1]; [|done].
    rewrite decide_False by done. by rewrite queue_mod_task.
  - specialize (Hu TaskFailed). destruct (UpdateTaskStatus e r TaskFailed) as [[] e1]; [|done].
    rewrite decide_True by done. rewrite (stepwise_cancelDownstream _ queue_stepwise). by rewrite queue_mod_task.
Qed.

Lemma pushes_ready_OnTaskResponse e w k result : engine_inv e → pushes_ready e (OnTaskResponse e w k result).2.
Proof.
  intros Hi. destruct (workflows e !! w) as [wf|] eqn:Hw; [destruct (Tasks wf !! k) as [t|] eqn:Ht|].
  2-3: unfold OnTaskResponse; rewrite Hw, ?Ht; by apply pushes_ready_same.
  rewrite (OnTaskResponse_report _ _ _ _ _ _ Hw Ht). simpl.
  destruct (report_correct e w k wf t result Hi Hw Ht) as (σ1 & [Hat Hc _ _ _]).
  destruct (engine_inv_wf _ _ _ Hi Hw) as (_ & Hok & _).
  eapply pushes_ready_trans; [|apply pushes_ready_same, (stepwise_finalize _ queue_stepwise)|].
  - destruct (pushes_ready_markReadyTasks _ _ _ _ _ _ Hok Hat (con_known _ _ Hc)) as (js & Hq & Hjs).
    exists js. by rewrite Hq, queue_report.
  - apply ready_stays_get_task. intros r. unfold finalizeWorkflowIfDone. repeat case_match; try done; apply get_task_UpdateWorkflowStatus.
Qed.

Lemma pushes_ready_SubmitWorkflow e wf : submittable e wf → pushes_ready e (SubmitWorkflow e wf).2.
Proof.
  intros Hsub. unfold SubmitWorkflow. cbn [snd]. set (e1 := set_workflows _ e).
  assert (workflows e1 !! wf_ID wf = Some wf) as Hw1 by (unfold e1; by rewrite workflows_set_workflows, lookup_insert_eq).
  destruct (pushes_ready_markReadyTasks e1 (wf_ID wf) wf e1 (task_statuses wf) (wf_status wf)) as (js & Hq & Hjs).
  - by eapply sub_wellformed.
  - by apply at_state_start.
  - by intros k s ->%(submitted_statuses _ _ Hsub).
  - exists js. rewrite Hq. unfold e1. by rewrite queue_set_workflows.
Qed.

Lemma pushes_ready_Cancel e k :
  pushes_ready e (CancelTask e k).2 ∧ pushes_ready e (CancelWorkflow e k).2.
Proof.
  split; apply pushes_ready_same.
  - exact (stepwise_CancelTask _ queue_stepwise e k queue_notify).
  - exact (stepwise_CancelWorkflow _ queue_stepwise e k queue_notify).
Qed.

Lemma pushes_ready_Reassign e workerID : pushes_ready e (ReassignDeadWorkerTasks e workerID).
Proof.
  destruct (ReassignDeadWorkerTasks_upto workerID e) as [Hin _ _ _ (js & Hq & _ & Hok & Htg)].
  exists js. split; [done|]. intros j Hj. destruct (Hok j Hj) as (r & t & Ht & ->).
  destruct (proj1 (Htg r)) as [Hr (t0 & Ht0 & Hl)].
  { unfold targets. apply list_elem_of_omap. by exists (job_of r t). }
  rewrite Ht in Ht0. injection Ht0 as <-. exists r, (reassigned workerID t). split; [by rewrite (Hin r Hr), Ht|].
  unfold reassigned. rewrite decide_True by done. split; [apply status_set_status|].
  symmetry. apply job_of_frozen. by rewrite frozen_status, frozen_assigned.
Qed.
End causes.
