(* ===== verification/EngineHistory.v ===== *)
(** * What the engine tells the bus

    Every status change is published, and nothing else is: the events a method
    publishes about a task are the statuses the task goes through, in order
    ([emits]).  Every method is a sequence of assignments and updates
    ([engine_write]); the relation composes, so it holds of the methods as it
    holds of those, and in it the statuses of a task only move [forward] unless
    a dead worker's tasks are reassigned. *)

From stdpp Require Import base gmap strings list relations.
From Stdlib Require Import ZArith Lia.
From S2P Require Import Prelude Status Domain Dag NewWorkflow EventBus Jobs GoFloat Engine WorkflowSpec.
From S2P Require Import EngineBase EngineProps EngineQueue EngineCauses.

(** ** The moves of a task *)

(** The engine uses the table except that it never retries a task itself. *)
Definition engine_move (s s' : TaskStatus) : Prop := task_step s s' ∧ s' ≠ TaskRetrying.

(** The moves other than a return to the ready queue. *)
Definition forward (s s' : TaskStatus) : Prop := engine_move s s' ∧ (s' = TaskReady → s = TaskPending).

Lemma forward_move s s' : forward s s' → engine_move s s'.
Proof. by intros []. Qed.

Lemma forward_target s s' : task_step s s' → s' ≠ TaskRetrying → s' ≠ TaskReady → forward s s'.
Proof. by repeat split. Qed.

Lemma finished_no_move s s' : finished s → ¬ engine_move s s'.
Proof. intros Hf [Hs Hr]. apply task_step_graph in Hs. destruct Hf as [->|[->| ->]]; destruct s'; try done. Qed.

Lemma workflow_terminal_stuck s s' : WorkflowStatus_IsTerminated s = true → ¬ workflow_step s s'.
Proof. rewrite workflow_step_graph. by destruct s, s'. Qed.

Section history.
Context `{W : World} {H : Type}.
Implicit Types (e : Engine H) (r : TaskRef) (w k : string) (evs pub : list event).

(** ** Statuses and news *)

(** What is said of the task [r], and of the workflow [w]. *)
Definition task_news r evs : list TaskStatus :=
  omap (λ ev, match ev with
              | TaskStatusChangedEvent w k s _ => if decide (r = {| ref_wf := w; ref_task := k |}) then Some s else None
              | _ => None
              end) evs.

Definition workflow_news w evs : list WorkflowStatus :=
  omap (λ ev, match ev with
              | WorkflowStatusChangedEvent w' s _ => if decide (w = w') then Some s else None
              | _ => None
              end) evs.

(** The current statuses; what is not stored yet has not started. *)
Definition task_at e r : TaskStatus := default TaskPending (task_status <$> get_task e r).
Definition workflow_at e w : WorkflowStatus := default WorkflowPending (wf_status <$> workflows e !! w).

Lemma task_news_app r evs evs' : task_news r (evs ++ evs') = task_news r evs ++ task_news r evs'.
Proof. apply omap_app. Qed.

Lemma workflow_news_app w evs evs' : workflow_news w (evs ++ evs') = workflow_news w evs ++ workflow_news w evs'.
Proof. apply omap_app. Qed.

Lemma task_at_Some e r t : get_task e r = Some t → task_at e r = task_status t.
Proof. unfold task_at. by intros ->. Qed.

Lemma task_at_ext e e' r : get_task e' r = get_task e r → task_at e' r = task_at e r.
Proof. unfold task_at. by intros ->. Qed.

(** Objects are stored under their own identifiers, which the events carry. *)
Definition keyed e : Prop :=
  (∀ w wf, workflows e !! w = Some wf → wf_ID wf = w) ∧
  ∀ r t, get_task e r = Some t → task_WorkflowID t = ref_wf r ∧ task_ID t = ref_task r.

Lemma engine_inv_keyed e : engine_inv e → keyed e.
Proof.
  intros Hi. split; [by intros w wf Hw; apply Hi in Hw as [? _]|]. intros r t Ht.
  destruct (get_task_workflow _ _ _ Hi Ht) as (wf & Hw & Htk & [Hc _ Ho] & _).
  apply Hi in Hw as [Hid _]. rewrite <-Hid. split; [by eapply Ho|by apply Hc in Htk as [? _]].
Qed.

Definition publish_all evs (b : Bus event H) : Bus event H := foldl (λ b ev, Publish ev b) b evs.

(** ** Steps and what they publish *)

Section edge.
Context (edge : relation TaskStatus).

Definition emits e e' : Prop :=
  keyed e → keyed e' ∧ ∃ evs, eventBus e' = publish_all evs (eventBus e) ∧
    (∀ r, path edge (task_at e r) (task_news r evs) (task_at e' r)) ∧
    (∀ w, path workflow_step (workflow_at e w) (workflow_news w evs) (workflow_at e' w)).

#[export] Instance emits_preorder : PreOrder emits.
Proof.
  split.
  - intros e He. split; [done|]. exists []. split_and!; [done|..]; intros; apply path_nil.
  - intros a b c Hab Hbc [Hb (evs & Hbus & Ht & Hw)]%Hab. destruct (Hbc Hb) as [Hc (evs' & Hbus' & Ht' & Hw')].
    split; [done|]. exists (evs ++ evs'). split_and!.
    + unfold publish_all. by rewrite foldl_app, Hbus', Hbus.
    + intros r. rewrite task_news_app. by eapply path_app.
    + intros w. rewrite workflow_news_app. by eapply path_app.
Qed.

(** Steps that publish nothing and keep every status. *)
Lemma emits_silent e e' :
  eventBus e' = eventBus e → (keyed e → keyed e') → (keyed e → ∀ r, task_at e' r = task_at e r) →
  (∀ w, workflow_at e' w = workflow_at e w) → emits e e'.
Proof.
  intros Hb Hk Ht Hw He. split; [by apply Hk|]. exists []. split_and!; [done|..].
  - intros r. rewrite Ht by done. apply path_nil.
  - intros w. rewrite Hw. apply path_nil.
Qed.

Lemma emits_same e e' : workflows e' = workflows e → eventBus e' = eventBus e → emits e e'.
Proof.
  intros Hw Hb. assert (∀ r, get_task e' r = get_task e r) as Hget by (intros r; by apply get_task_ext).
  apply emits_silent; [done|..].
  - unfold keyed. rewrite Hw. by setoid_rewrite Hget.
  - intros _ r. by apply task_at_ext.
  - intros w. unfold workflow_at. by rewrite Hw.
Qed.

(** An assignment to another field of a task. *)
Lemma emits_field e r f :
  (∀ t, frozen (f t) = frozen t) → (∀ t, task_status (f t) = task_status t) → emits e (mod_task r f e).
Proof.
  intros Hf Hs. assert (∀ r', get_task (mod_task r f e) r' = if decide (r = r') then f <$> get_task e r' else get_task e r')
    as Hget by (intros; apply get_task_mod_task).
  apply emits_silent; [by destruct e|..].
  - intros [Hw Ht]. split.
    + intros w wf. unfold mod_task. rewrite workflows_set_workflows, lookup_alter. case_decide; [|apply Hw].
      intros (wf0 & Hw0%Hw & ->)%fmap_Some. destruct wf0. simpl in *. congruence.
    + intros r' t'. rewrite Hget. case_decide; [|apply Ht]. intros (t & Htt & ->)%fmap_Some.
      specialize (Ht _ _ Htt). specialize (Hf t). apply frozen_inj_fields in Hf as (-> & -> & _). done.
  - intros _ r'. unfold task_at. rewrite Hget. case_decide; [|done]. destruct (get_task e r') as [t|]; simpl; [|done].
    by rewrite Hs.
  - intros w. unfold workflow_at. by rewrite workflows_wf_status_mod_task.
Qed.

(** A status update: the event it publishes, if any, is the task's new status. *)
Lemma emits_update e r s :
  (∀ t, get_task e r = Some t → task_step (task_status t) s → edge (task_status t) s) →
  emits e (UpdateTaskStatus e r s).2.
Proof.
  intros Hedge. unfold UpdateTaskStatus. destruct (get_task e r) as [t|] eqn:Ht; [|done]. unfold Task_UpdateStatus.
  destruct (TaskStatus_CanTransitTo (task_status t) s) eqn:Hcan; [done|]. cbn [snd]. intros He.
  pose proof He as [Hw Hkt].
  assert (∀ r', get_task (mod_task r (λ _, set_task_status s t) e) r' =
    if decide (r = r') then Some (set_task_status s t) else get_task e r') as Hget.
  { intros r'. rewrite get_task_mod_task. case_decide; [|done]. subst r'. by rewrite Ht. }
  destruct (Hkt _ _ Ht) as [Hid1 Hid2]. assert (frozen (set_task_status s t) = frozen t) as (Hi & Hwi & _)%frozen_inj_fields
    by apply frozen_status. rewrite Hi, Hwi, Hid1, Hid2. unfold Task_GetStatus. rewrite status_set_status.
  set (ev := TaskStatusChangedEvent _ _ _). set (e1 := mod_task _ _ _).
  assert (∀ r', get_task (publish_event ev e1) r' = get_task e1 r') as Hpub.
  { intros r'. apply get_task_ext, workflows_publish. }
  split; [split|].
  - intros w wf. rewrite workflows_publish. unfold e1, mod_task. rewrite workflows_set_workflows, lookup_alter.
    case_decide; [|apply Hw]. intros (wf0 & Hw0%Hw & ->)%fmap_Some. destruct wf0. simpl in *. congruence.
  - intros r' t'. rewrite Hpub. unfold e1. rewrite Hget. case_decide; [|apply Hkt]. subst r'. intros [= <-]. by rewrite Hi, Hwi.
  - exists [ev (Unix (clk (tick e1)))]. split_and!.
    + by destruct e.
    + intros r'. rewrite (task_at_ext e1 (publish_event ev e1)) by apply Hpub. unfold task_at, e1. rewrite Hget. unfold ev, task_news. simpl.
      destruct r as [w k]. simpl. destruct (decide (r' = _)) as [->|Hne].
      * rewrite decide_True by done. rewrite Ht. simpl. rewrite status_set_status. apply path_once. by apply Hedge.
      * rewrite decide_False by congruence. apply path_nil.
    + intros w. unfold workflow_at. rewrite workflows_publish. unfold e1. rewrite workflows_wf_status_mod_task. apply path_nil.
Qed.

Lemma emits_workflow e w s : emits e (UpdateWorkflowStatus e w s).2.
Proof.
  pose proof (get_task_UpdateWorkflowStatus e w s) as Hget. revert Hget.
  unfold UpdateWorkflowStatus. destruct (workflows e !! w) as [wf|] eqn:Hwf; [|done]. unfold Workflow_UpdateStatus.
  destruct (WorkflowStatus_CanTransitTo (wf_status wf) s) eqn:Hcan; [done|]. cbn [snd]. intros Hget He.
  pose proof He as [Hw Hkt]. assert (wf_ID (set_wf_status s wf) = w) as Hid by (rewrite <-(Hw _ _ Hwf); by destruct wf).
  rewrite Hid in *. unfold Workflow_GetStatus in *. rewrite wf_status_set_wf_status in *.
  set (ev := WorkflowStatusChangedEvent _ _) in *. set (e1 := mod_workflow _ _ _) in *.
  assert (workflows (publish_event ev e1) = <[w := set_wf_status s wf]> (workflows e)) as Hws.
  { rewrite workflows_publish. unfold e1. by rewrite (mod_workflow_workflows _ _ _ _ Hwf). }
  split; [split|].
  - intros w' wf'. rewrite Hws, lookup_insert. case_decide; [|apply Hw]. subst w'. by intros [= <-].
  - intros r t. rewrite Hget. apply Hkt.
  - exists [ev (Unix (clk (tick e1)))]. split_and!; [by destruct e| |].
    + intros r. rewrite (task_at_ext e (publish_event ev e1)) by apply Hget. apply path_nil.
    + intros w'. unfold workflow_at. rewrite Hws, lookup_insert. unfold workflow_news, ev. simpl.
      destruct (decide (w' = w)) as [->|Hne]; [|rewrite decide_False by congruence; apply path_nil].
      rewrite decide_True, Hwf by done. simpl. rewrite wf_status_set_wf_status. by apply path_once.
Qed.

(** ** The methods as sequences of assignments

    A method holds the engine's mutex, but a reader that does not take it sees
    the states between two assignments.  Every call of the engine is a sequence
    of [engine_write]s, the status updates along [edge]. *)
Inductive engine_write : relation (Engine H) :=
  | write_status e r s :
      (∀ t, get_task e r = Some t → task_step (task_status t) s → edge (task_status t) s) →
      engine_write e (UpdateTaskStatus e r s).2
  | write_workflow e w s : engine_write e (UpdateWorkflowStatus e w s).2
  | write_field e r f :
      (∀ t, frozen (f t) = frozen t) → (∀ t, task_status (f t) = task_status t) → engine_write e (mod_task r f e)
  | write_new e wf : submittable e wf → engine_write e (set_workflows (<[wf_ID wf := wf]> (workflows e)) e)
  | write_other e e' : workflows e' = workflows e → eventBus e' = eventBus e → engine_write e e'.

Definition writes : relation (Engine H) := rtc engine_write.

#[export] Instance writes_preorder : PreOrder writes.
Proof. unfold writes. apply _. Qed.

Lemma writes_once e e' : engine_write e e' → writes e e'.
Proof. apply rtc_once. Qed.

Lemma emits_new e wf : submittable e wf → emits e (set_workflows (<[wf_ID wf := wf]> (workflows e)) e).
Proof.
  intros [Hfresh Hok Hst Hp]. set (e1 := set_workflows _ e).
  assert (workflows e1 = <[wf_ID wf := wf]> (workflows e)) as Hw1 by apply workflows_set_workflows.
  assert (∀ r, get_task e1 r = if decide (ref_wf r = wf_ID wf) then Tasks wf !! ref_task r else get_task e r) as Hget.
  { intros r. unfold get_task, tasks_of. rewrite Hw1, lookup_insert.
    case_decide as Hw; [|by rewrite decide_False by congruence]. by rewrite decide_True. }
  apply emits_silent; [by destruct e|..].
  - intros [Hw Hkt]. split.
    + intros w wf'. rewrite Hw1, lookup_insert. case_decide; [|apply Hw]. subst w. by intros [= <-].
    + intros r t. rewrite Hget. case_decide as Hr; [|apply Hkt]. intros Ht. rewrite Hr.
      split; [by eapply Hok|]. by apply (wfok_closed _ Hok) in Ht as [? _].
  - intros _ r. unfold task_at. rewrite Hget. case_decide as Hr; [|done].
    assert (get_task e r = None) as -> by (unfold get_task, tasks_of; by rewrite Hr, Hfresh). simpl.
    destruct (Tasks wf !! ref_task r) as [t|] eqn:Ht; [|done]. simpl. by eapply Hp.
  - intros w. unfold workflow_at. rewrite Hw1, lookup_insert. case_decide; [|done]. subst w. by rewrite Hfresh.
Qed.

Lemma emits_writes e e' : writes e e' → emits e e'.
Proof.
  induction 1 as [|e1 e2 e3 Hw _ IH]; [done|]. etrans; [|exact IH].
  destruct Hw; [by apply emits_update|apply emits_workflow|by apply emits_field|by apply emits_new|by apply emits_same].
Qed.

Context (Hfwd : ∀ s s', forward s s' → edge s s').

(** Updates to these statuses are always forward. *)
Lemma writes_forward e r s : s ≠ TaskRetrying → s ≠ TaskReady → writes e (UpdateTaskStatus e r s).2.
Proof. intros H1 H2. apply writes_once, write_status. intros t _ Hs. by apply Hfwd, forward_target. Qed.

Lemma writes_field e r f :
  (∀ t, frozen (f t) = frozen t) → (∀ t, task_status (f t) = task_status t) → writes e (mod_task r f e).
Proof. intros H1 H2. by apply writes_once, write_field. Qed.

Lemma writes_other e e' : workflows e' = workflows e → eventBus e' = eventBus e → writes e e'.
Proof. intros H1 H2. by apply writes_once, write_other. Qed.

Lemma writes_stepwise : stepwise writes.
Proof.
  split; [apply _|intros e r; by apply writes_forward|intros; apply writes_once, write_workflow|].
  intros e. by apply writes_other; destruct e.
Qed.

Lemma writes_pushJob e r : writes e (pushJob e r).
Proof. apply writes_other; [apply workflows_pushJob|]. unfold pushJob. case_match; [by destruct e|done]. Qed.

Lemma writes_notify e refs : writes e (notifyWorkersOfCancellation e refs).
Proof.
  apply writes_other; [apply workflows_notify|]. unfold notifyWorkersOfCancellation. case_match; [done|by destruct e].
Qed.

(** [markReady] of distinct pending tasks. *)
Lemma writes_markReady e w ks :
  NoDup ks →
  (∀ k, k ∈ ks → ∃ t, get_task e {| ref_wf := w; ref_task := k |} = Some t ∧ task_status t = TaskPending) →
  writes e (foldl (markReady w) e ks).
Proof.
  revert e. induction ks as [|k ks IH]; intros e Hnd Hp; [done|]. apply NoDup_cons in Hnd as [Hk Hnd]. simpl.
  destruct (Hp k) as (t & Ht & Hs); [left|]. unfold markReady at 2. rewrite Ht.
  etrans; [|apply IH; [done|]].
  - etrans; [|apply writes_pushJob]. apply writes_once, write_status. intros t' Ht' Hst. rewrite Ht in Ht'. injection Ht' as <-.
    apply Hfwd. repeat split; [done|discriminate|done].
  - intros k' Hk'. destruct (Hp k') as (t' & Ht' & Hs'); [by right|]. exists t'. split; [|done].
    erewrite get_task_ext by apply workflows_pushJob. by rewrite get_task_UpdateTaskStatus, decide_False by congruence.
Qed.

Lemma writes_markReadyTasks e0 w wf0 e σ ω :
  wf_wellformed wf0 → at_state e0 w wf0 e σ ω → all_known σ → writes e (markReadyTasks e w).
Proof.
  intros Hok Hat Hkn. destruct (markReadyTasks_loop _ _ _ _ _ _ Hok Hat Hkn) as (e2 & ks & -> & HR & _ & _ & Hnd & Hp).
  etrans; [apply HR, writes_stepwise|by apply writes_markReady].
Qed.

Lemma writes_report e w k t result : writes e (report e w k t result).
Proof.
  unfold report. set (r := {| ref_wf := w; ref_task := k |}).
  assert (∀ s v, s ≠ TaskRetrying → s ≠ TaskReady → let '(ok, e1) := UpdateTaskStatus e r s in
    writes e e1 ∧ writes e (mod_task r (Task_SetResult v) e1)) as Hu.
  { intros s v Hs1 Hs2. pose proof (writes_forward e r s Hs1 Hs2) as Hg. destruct (UpdateTaskStatus e r s) as [ok e1].
    split; [done|]. etrans; [exact Hg|]. apply writes_field; [apply frozen_result|apply status_set_result]. }
  destruct (res_Status result); try done; [by apply writes_forward| |].
  - specialize (Hu TaskSucceeded (Some result) ltac:(done) ltac:(done)).
    destruct (UpdateTaskStatus e r TaskSucceeded) as [[|] e1]; by destruct Hu.
  - specialize (Hu TaskFailed (Some result) ltac:(done) ltac:(done)).
    destruct (UpdateTaskStatus e r TaskFailed) as [[|] e1]; destruct Hu as [? Hu]; [|done].
    etrans; [exact Hu|apply (stepwise_cancelDownstream _ writes_stepwise)].
Qed.

Lemma writes_OnTaskResponse e w k result : engine_inv e → writes e (OnTaskResponse e w k result).2.
Proof.
  intros Hi. destruct (workflows e !! w) as [wf|] eqn:Hw; [destruct (Tasks wf !! k) as [t|] eqn:Ht|].
  2-3: unfold OnTaskResponse; by rewrite Hw, ?Ht.
  rewrite (OnTaskResponse_report _ _ _ _ _ _ Hw Ht).
  destruct (report_correct e w k wf t result Hi Hw Ht) as (σ1 & [Hat Hc _ _ _]). simpl.
  etrans; [|apply (stepwise_finalize _ writes_stepwise)]. etrans; [apply writes_report|].
  destruct (engine_inv_wf _ _ _ Hi Hw) as (_ & Hok & _). eapply writes_markReadyTasks; [done..|apply Hc].
Qed.

Lemma writes_OnTaskDispatched e r workerID : writes e (OnTaskDispatched e r workerID).
Proof.
  unfold OnTaskDispatched. etrans; [|by apply writes_forward].
  apply writes_field; [apply frozen_assigned|apply status_set_assigned].
Qed.

Lemma writes_CancelWorkflow e w : writes e (CancelWorkflow e w).2.
Proof. apply (stepwise_CancelWorkflow _ writes_stepwise), writes_notify. Qed.

Lemma writes_CancelTask e k : writes e (CancelTask e k).2.
Proof. apply (stepwise_CancelTask _ writes_stepwise), writes_notify. Qed.

Lemma writes_SubmitWorkflow e wf : submittable e wf → writes e (SubmitWorkflow e wf).2.
Proof.
  intros Hsub. pose proof Hsub as [_ Hok _ _]. unfold SubmitWorkflow. cbn [snd].
  etrans; [apply writes_once; by apply write_new|]. eapply writes_markReadyTasks; [done|apply at_state_start|].
  - by rewrite workflows_set_workflows, lookup_insert_eq.
  - by intros k s ->%(submitted_statuses _ _ Hsub).
Qed.
End edge.

(** A dead worker's tasks go back: the one move that is not forward. *)
Lemma writes_reassignTask workerID w e k : writes engine_move e (reassignTask workerID w e k).
Proof.
  unfold reassignTask. set (r := {| ref_wf := w; ref_task := k |}).
  destruct (get_task e r) as [t|]; [|done]. case_decide; [done|]. destruct (is_active _); [|done].
  pose proof (writes_field engine_move e r (set_AssignedTo "") (frozen_assigned _) (status_set_assigned _)) as H1.
  pose proof (write_status engine_move (mod_task r (set_AssignedTo "") e) r TaskReady) as Hu.
  destruct (UpdateTaskStatus _ _ _) as [ok e1]. etrans; [exact H1|]. etrans; [apply writes_once, Hu; by repeat split|].
  destruct ok; [apply writes_pushJob|done].
Qed.

Lemma writes_ReassignDeadWorkerTasks e workerID : writes engine_move e (ReassignDeadWorkerTasks e workerID).
Proof.
  pose proof (writes_stepwise engine_move forward_move) as Hst. pose proof (stepwise_tick _ Hst) as Htick.
  unfold ReassignDeadWorkerTasks. etrans; [apply Htick|]. apply (stepwise_foldl _ Hst id). intros e1 w.
  unfold reassignWorkflow, id. etrans; [apply Htick|]. apply (stepwise_foldl _ Hst id). intros e2 k.
  apply writes_reassignTask.
Qed.

(** ** What the methods publish *)

Section emits.
Context (edge : relation TaskStatus) (Hfwd : ∀ s s', forward s s' → edge s s').

Lemma emits_OnTaskResponse e w k result : engine_inv e → emits edge e (OnTaskResponse e w k result).2.
Proof. intros Hi. by apply emits_writes, writes_OnTaskResponse. Qed.
Lemma emits_OnTaskDispatched e r workerID : emits edge e (OnTaskDispatched e r workerID).
Proof. by apply emits_writes, writes_OnTaskDispatched. Qed.
Lemma emits_CancelWorkflow e w : emits edge e (CancelWorkflow e w).2.
Proof. by apply emits_writes, writes_CancelWorkflow. Qed.
Lemma emits_CancelTask e k : emits edge e (CancelTask e k).2.
Proof. by apply emits_writes, writes_CancelTask. Qed.
Lemma emits_SubmitWorkflow e wf : submittable e wf → emits edge e (SubmitWorkflow e wf).2.
Proof. intros Hsub. by apply emits_writes, writes_SubmitWorkflow. Qed.
End emits.

Lemma emits_ReassignDeadWorkerTasks e workerID : emits engine_move e (ReassignDeadWorkerTasks e workerID).
Proof. apply emits_writes, writes_ReassignDeadWorkerTasks. Qed.
End history.
