(* ===== verification/EngineProgress.v ===== *)
(** * Progress of a workflow

    A measure of what is left to do on a workflow ([work]), which every call of
    the engine but a reassignment lowers when it changes a status at all, and
    from it: no state is a dead end ([workflow_can_finish]). *)

From stdpp Require Import base gmap strings list relations.
From Stdlib Require Import ZArith Lia.
From S2P Require Import Prelude Status Domain Dag NewWorkflow EventBus Jobs Engine WorkflowSpec.
From S2P Require Import EngineBase EngineProps EngineQueue EngineCauses EngineHistory.

(** ** The measure *)

(** A bound on the forward moves a task has left. *)
Definition task_rank (s : TaskStatus) : nat :=
  match s with
  | TaskRetrying => 5 | TaskPending => 4 | TaskReady => 3 | TaskDispatched => 2 | TaskRunning => 1 | _ => 0
  end.

Lemma forward_rank s s' : forward s s' → task_rank s' < task_rank s.
Proof.
  intros [[Hs Hr] Hp]. apply task_step_graph in Hs. destruct s, s'; try done; simpl; try lia; by specialize (Hp eq_refl).
Qed.

Lemma path_rank s l s' : path forward s l s' → length l + task_rank s' ≤ task_rank s.
Proof. induction 1 as [|x y l z Hxy _ IH]; [done|]. apply forward_rank in Hxy. simpl. lia. Qed.

Definition work (σ : statuses) : nat := map_fold (λ _ s n, task_rank s + n) 0 σ.

Lemma work_insert σ k s : σ !! k = None → work (<[k := s]> σ) = task_rank s + work σ.
Proof. intros Hk. unfold work. rewrite map_fold_insert_L; [done| |done]. intros. lia. Qed.

Lemma work_delete σ k s : σ !! k = Some s → work σ = task_rank s + work (delete k σ).
Proof. intros Hk. rewrite <-(insert_delete_id σ k s Hk) at 1. apply work_insert, lookup_delete_eq. Qed.

(** Statuses of the same tasks, related one by one. *)
Definition each_task (R : relation TaskStatus) (σ σ' : statuses) : Prop := ∀ k, option_Forall2 R (σ !! k) (σ' !! k).

Lemma each_task_insert R σ k s σ' :
  σ !! k = None → each_task R (<[k := s]> σ) σ' → ∃ s', σ' !! k = Some s' ∧ R s s' ∧ each_task R σ (delete k σ').
Proof.
  intros Hk He. pose proof (He k) as Hek. rewrite lookup_insert_eq in Hek. inversion Hek as [? s' Hs Heq|]; subst.
  exists s'. split_and!; [done..|]. intros x. specialize (He x). destruct (decide (k = x)) as [->|Hne].
  - rewrite lookup_delete_eq, Hk. constructor.
  - by rewrite lookup_insert_ne in He by done; rewrite lookup_delete_ne.
Qed.

Lemma each_task_empty R σ' : each_task R ∅ σ' → σ' = ∅.
Proof. intros He. apply map_eq. intros k. specialize (He k). rewrite lookup_empty in *. by inversion He. Qed.

Lemma work_le c σ σ' :
  each_task (λ s s', task_rank s' ≤ task_rank s + c) σ σ' → work σ' ≤ work σ + c * size σ.
Proof.
  revert σ'. induction σ as [|k s σ Hk IH] using map_ind; intros σ' He.
  - apply each_task_empty in He as ->. lia.
  - apply each_task_insert in He as (s' & Hk' & Hs & He); [|done]. rewrite (work_delete _ _ _ Hk'), work_insert by done.
    rewrite map_size_insert_None by done. specialize (IH _ He). lia.
Qed.

Lemma work_lt σ σ' :
  each_task (λ s s', s' = s ∨ task_rank s' < task_rank s) σ σ' → σ' = σ ∨ work σ' < work σ.
Proof.
  revert σ'. induction σ as [|k s σ Hk IH] using map_ind; intros σ' He.
  - apply each_task_empty in He as ->. by left.
  - apply each_task_insert in He as (s' & Hk' & Hs & He); [|done]. specialize (IH _ He).
    rewrite (work_delete _ _ _ Hk'), work_insert by done. destruct IH as [IH|IH]; [|right; destruct Hs as [->|]; lia].
    destruct Hs as [->|Hs]; [left|right; rewrite IH; lia]. rewrite <-IH. symmetry. by apply insert_delete_id.
Qed.

Lemma work_bound σ : all_known σ → work σ ≤ 4 * size σ.
Proof.
  induction σ as [|k s σ Hk IH] using map_ind; intros Hkn; [done|].
  rewrite work_insert, map_size_insert_None by done. assert (known s) as [Hs _] by (apply (Hkn k), lookup_insert_eq).
  assert (task_rank s ≤ 4) by (destruct s; simpl; lia || done).
  enough (work σ ≤ 4 * size σ) by lia. apply IH. intros x sx Hx. apply (Hkn x). rewrite lookup_insert_ne; [done|].
  intros ->. congruence.
Qed.

(** Nothing is left exactly when every task is finished. *)
Lemma work_zero σ : all_known σ → work σ = 0 ↔ all_finished σ.
Proof.
  induction σ as [|k s σ Hk IH] using map_ind; intros Hkn; [done|].
  assert (known s) as Hs by (apply (Hkn k), lookup_insert_eq).
  assert (all_known σ) as Hkn'.
  { intros x sx Hx. apply (Hkn x). rewrite lookup_insert_ne; [done|]. intros ->. congruence. }
  rewrite work_insert by done. split.
  - intros Hz x sx. rewrite lookup_insert. case_decide; [intros [= <-]|apply IH; [done|lia]].
    destruct s; simpl in Hz; try lia; by_status.
  - intros Hf. assert (finished s) as Hfs by (apply (Hf k), lookup_insert_eq).
    assert (work σ = 0) as ->; [|by destruct Hfs as [->|[->| ->]]]. apply IH; [done|]. intros x sx Hx. apply (Hf x).
    rewrite lookup_insert_ne; [done|]. intros ->. congruence.
Qed.

Section progress.
Context `{W : World} {H : Type}.
Implicit Types (e : Engine H) (r : TaskRef) (w k : string).

Lemma task_at_status e w wf k s :
  workflows e !! w = Some wf → task_statuses wf !! k = Some s → task_at e {| ref_wf := w; ref_task := k |} = s.
Proof.
  intros Hw (t & Ht & <-)%task_statuses_Some. apply task_at_Some. by rewrite (get_task_Some _ _ _ _ Hw).
Qed.

(** Statuses related through the news of a task. *)
Lemma emits_each_task (edge R : relation TaskStatus) e e' w wf wf' :
  keyed e → emits edge e e' → workflows e !! w = Some wf → workflows e' !! w = Some wf' → wf_refines wf wf' →
  (∀ s l s', path edge s l s' → R s s') → each_task R (task_statuses wf) (task_statuses wf').
Proof.
  intros Hk He Hw Hw' [_ Hs _] HR k. destruct (He Hk) as (_ & evs & _ & Ht & _).
  specialize (Ht {| ref_wf := w; ref_task := k |}). pose proof (spec_steps_dom _ _ _ Hs) as Hdom.
  destruct (task_statuses wf !! k) as [s|] eqn:Hsk, (task_statuses wf' !! k) as [s'|] eqn:Hsk'.
  - rewrite (task_at_status e w wf k s Hw Hsk), (task_at_status e' w wf' k s' Hw' Hsk') in Ht. constructor. by eapply HR.
  - apply elem_of_dom_2 in Hsk. apply not_elem_of_dom in Hsk'. by rewrite Hdom in Hsk'.
  - apply elem_of_dom_2 in Hsk'. apply not_elem_of_dom in Hsk. by rewrite Hdom in Hsk'.
  - constructor.
Qed.

(** A call that only moves forward leaves less to do, or every status alone. *)
Lemma forward_work e e' w wf wf' :
  engine_inv e → emits forward e e' → workflows e !! w = Some wf → workflows e' !! w = Some wf' → wf_refines wf wf' →
  task_statuses wf' = task_statuses wf ∨ work (task_statuses wf') < work (task_statuses wf).
Proof.
  intros Hi He Hw Hw' Hr. apply work_lt. eapply emits_each_task; [by apply engine_inv_keyed|exact He|exact Hw|exact Hw'|done|].
  intros s l s' Hp. destruct Hp as [s|s s1 l s' Hs Hp]; [by left|right]. apply forward_rank in Hs. apply path_rank in Hp. lia.
Qed.

(** A reassignment can only give back two moves per task. *)
Lemma reassign_work e workerID w wf wf' :
  engine_inv e → workflows e !! w = Some wf → workflows (ReassignDeadWorkerTasks e workerID) !! w = Some wf' →
  wf_refines wf wf' → work (task_statuses wf') ≤ work (task_statuses wf) + 2 * size (Tasks wf).
Proof.
  intros Hi Hw Hw' [_ Hs _]. rewrite <-(map_size_fmap task_status (Tasks wf)). apply work_le. intros k.
  pose proof (spec_steps_dom _ _ _ Hs) as Hdom.
  pose proof (ReassignDeadWorkerTasks_get workerID e {| ref_wf := w; ref_task := k |}) as Hget.
  rewrite (get_task_Some _ _ _ _ Hw), (get_task_Some _ _ _ _ Hw') in Hget. unfold task_statuses. rewrite !lookup_fmap, Hget.
  destruct (Tasks wf !! k) as [t|]; simpl; constructor. unfold reassigned. case_decide as Hl; [|lia].
  rewrite status_set_status. simpl. destruct Hl as [_ [-> | ->]]; simpl; lia.
Qed.
(** ** No dead ends *)

(** A worker takes a task of [w], or reports its success. *)
Inductive works w : relation (Engine H) :=
  | works_dispatched e k workerID : works w e (OnTaskDispatched e {| ref_wf := w; ref_task := k |} workerID)
  | works_success e k result : res_Status result = TaskSucceeded → works w e (OnTaskResponse e w k result).2.

Lemma works_engine_step w e e' : works w e e' → engine_step e e'.
Proof. destruct 1; constructor. Qed.

Lemma works_forward w e e' : engine_inv e → works w e e' → emits forward e e'.
Proof.
  intros Hi Hw. destruct Hw as [e1 k workerID|e1 k result _].
  - exact (emits_OnTaskDispatched forward (λ _ _ Hs, Hs) e1 _ workerID).
  - exact (emits_OnTaskResponse forward (λ _ _ Hs, Hs) e1 w k result Hi).
Qed.

Definition no_bad (σ : statuses) : Prop := ∀ k s, σ !! k = Some s → ¬ bad s.

Lemma no_bad_insert σ k s : no_bad σ → ¬ bad s → no_bad (<[k := s]> σ).
Proof. intros Hn Hs x sx. rewrite lookup_insert. case_decide; [by intros [= <-]|apply Hn]. Qed.

Lemma no_bad_mark_ready G σ : no_bad σ → no_bad (mark_ready G σ).
Proof.
  intros Hn k s. rewrite lookup_mark_ready. intros (s0 & Hk & ->)%fmap_Some. case_decide; [by_status|by eapply Hn].
Qed.

(** What one call does to the statuses: the task it is about moves. *)
Lemma works_statuses e w wf k s :
  engine_inv e → workflows e !! w = Some wf → task_statuses wf !! k = Some s → active s →
  ∃ e' wf', works w e e' ∧ workflows e' !! w = Some wf' ∧ task_statuses wf' ≠ task_statuses wf ∧
    (no_bad (task_statuses wf) → no_bad (task_statuses wf')).
Proof.
  intros Hi Hw Hk Ha. destruct (engine_inv_wf _ _ _ Hi Hw) as (_ & Hok & _ & _).
  destruct (decide (s = TaskReady)) as [->|Hnr].
  - destruct (OnTaskDispatched_at_state e w wf k "worker" Hi Hw) as (wf' & Hw' & _ & Hs & _).
    eexists _, wf'. split; [apply works_dispatched|]. rewrite Hw', lookup_insert_eq, Hs. split; [done|].
    unfold try_move. rewrite Hk. simpl. split; [|intros; apply no_bad_insert; [done|by_status]].
    intros Heq. apply (f_equal (lookup k)) in Heq. rewrite lookup_insert_eq, Hk in Heq. done.
  - set (result := {| res_Status := TaskSucceeded; ExitCode := 0; Stdout := ""; Stderr := ""; res_Error := ""; Duration := 0 |}).
    pose proof Hk as Ht. apply task_statuses_Some in Ht as (t & Ht & Hst).
    destruct (report_correct e w k wf t result Hi Hw Ht) as (σ1 & [Hat Hc Hr Hrep _]).
    destruct (settle_at_state e w wf _ σ1 Hi Hw Hat Hc Hr) as (wf' & Hw' & _ & Hs & _).
    eexists _, wf'. split; [by apply (works_success w e k result)|]. rewrite (OnTaskResponse_report _ _ _ _ _ _ Hw Ht). simpl.
    rewrite Hw', lookup_insert_eq, Hs. split; [done|].
    assert (σ1 = <[k := TaskSucceeded]> (task_statuses wf)) as ->.
    { unfold reported, accepts in Hrep. rewrite Hk in Hrep. simpl in Hrep. destruct Ha as [->|[->| ->]]; done. }
    split; [|intros; apply no_bad_mark_ready, no_bad_insert; [done|by_status]].
    intros Heq. apply (f_equal (lookup k)) in Heq. rewrite Hk in Heq.
    assert (mark_ready (graph_of wf) (<[k:=TaskSucceeded]> (task_statuses wf)) !! k = Some TaskSucceeded) as Hk'.
    { apply mark_ready_succeeded, lookup_insert_eq. }
    rewrite Hk' in Heq. by_status.
Qed.

Lemma works_once e w wf :
  engine_inv e → workflows e !! w = Some wf → ¬ all_finished (task_statuses wf) →
  ∃ e' wf', works w e e' ∧ engine_inv e' ∧ workflows e' !! w = Some wf' ∧
    work (task_statuses wf') < work (task_statuses wf) ∧ (no_bad (task_statuses wf) → no_bad (task_statuses wf')).
Proof.
  intros Hi Hw (k & s & Hk & Hf)%not_all_finished. destruct (engine_inv_wf _ _ _ Hi Hw) as (_ & Hok & [Hc He _] & _).
  destruct (unfinished_active _ _ _ _ (wellformed_graph_ok _ Hok) Hc He Hk Hf) as (k' & s' & _ & Hk' & Ha).
  destruct (works_statuses e w wf k' s' Hi Hw Hk' Ha) as (e' & wf' & Hworks & Hw' & Hne & Hnb).
  destruct (engine_step_handled e e' Hi (works_engine_step _ _ _ Hworks)) as [Hi' Href].
  destruct (Href w wf Hw) as (wf2 & Hw2 & Hr). rewrite Hw' in Hw2. injection Hw2 as <-. exists e', wf'. split_and!; try done.
  by destruct (forward_work e e' w wf wf' Hi (works_forward _ _ _ Hi Hworks) Hw Hw' Hr).
Qed.

Lemma works_finish e w wf :
  engine_inv e → workflows e !! w = Some wf →
  ∃ e' wf', rtc (works w) e e' ∧ engine_inv e' ∧ workflows e' !! w = Some wf' ∧ all_finished (task_statuses wf') ∧
    (no_bad (task_statuses wf) → no_bad (task_statuses wf')).
Proof.
  revert e wf. assert (∀ n e wf, work (task_statuses wf) < n → engine_inv e → workflows e !! w = Some wf →
    ∃ e' wf', rtc (works w) e e' ∧ engine_inv e' ∧ workflows e' !! w = Some wf' ∧ all_finished (task_statuses wf') ∧
      (no_bad (task_statuses wf) → no_bad (task_statuses wf'))) as Hn; [|intros e wf; by apply (Hn (S (work (task_statuses wf)))); lia].
  induction n as [|n IH]; [lia|]. intros e wf Hlt Hi Hw.
  destruct (decide (all_finished (task_statuses wf))) as [Hf|Hf]; [by exists e, wf|].
  destruct (works_once e w wf Hi Hw Hf) as (e1 & wf1 & Hs & Hi1 & Hw1 & Hlt1 & Hnb1).
  destruct (IH e1 wf1) as (e' & wf' & Hr & Hi' & Hw' & Hf' & Hnb'); [lia|done..|]. exists e', wf'.
  split_and!; try done; [by eapply rtc_l|auto].
Qed.

(** C8. No dead ends: from every reachable state, every stored workflow can be
    finished by dispatching its tasks and reporting their success; if no task
    has failed or been cancelled so far, it then ends with every task SUCCEEDED,
    and is itself SUCCEEDED unless it has no tasks. *)
Theorem workflow_can_finish e w wf :
  reachable e → workflows e !! w = Some wf →
  ∃ e' wf', rtc (works w) e e' ∧ workflows e' !! w = Some wf' ∧
    (∀ k t, Tasks wf' !! k = Some t → finished (task_status t)) ∧
    (Tasks wf ≠ ∅ → WorkflowStatus_IsTerminated (wf_status wf') = true) ∧
    ((∀ k t, Tasks wf !! k = Some t → ¬ bad (task_status t)) → Tasks wf ≠ ∅ → wf_status wf' = WorkflowSucceeded).
Proof.
  intros Hi%reachable_inv Hw. destruct (works_finish e w wf Hi Hw) as (e' & wf' & Hr & Hi' & Hw' & Hf & Hnb).
  exists e', wf'. assert (Tasks wf ≠ ∅ → task_statuses wf' ≠ ∅) as Hne.
  { intros Hne Hnil. assert (rtc engine_step e e') as Hsteps.
    { clear -Hr. induction Hr as [|a b c Hab _ IH]; [done|]. eapply rtc_l; [by eapply works_engine_step|done]. }
    destruct (engine_steps_handled e e' Hi Hsteps) as [_ Href]. destruct (Href w wf Hw) as (wf2 & Hw2 & [_ Hs _]).
    rewrite Hw' in Hw2. injection Hw2 as <-. apply spec_steps_dom in Hs. rewrite Hnil, dom_empty_L in Hs.
    symmetry in Hs. apply dom_empty_inv_L, fmap_empty_iff in Hs. done. }
  destruct (engine_inv_wf _ _ _ Hi' Hw') as (_ & _ & [_ _ Ho] & _). split_and!; [done|done|..].
  - intros k t Ht. apply (Hf k), task_statuses_Some. eauto.
  - intros He%Hne. by destruct (wf_status wf').
  - intros Hgood He%Hne. assert (no_bad (task_statuses wf')) as Hnb'.
    { apply Hnb. intros k s (t & Ht & <-)%task_statuses_Some. by eapply Hgood. }
    destruct (wf_status wf'); [done|done|done|exfalso..].
    + destruct Ho as [_ [k Hk]]. apply (Hnb' k _ Hk). by left.
    + destruct Ho as [_ [?|[k Hk]]]; [done|]. apply (Hnb' k _ Hk). by right.
Qed.
End progress.
