(* ===== verification/EngineTheorems.v ===== *)
(** * What the engine guarantees

    The properties of [engine.go] a user relies on: safety and progress of the
    schedule, the meaning of the workflow statuses, and the exact effect of
    each request. *)

From stdpp Require Import base gmap strings list relations.
From Stdlib Require Import ZArith Lia.
From S2P Require Import Prelude Status Domain Dag NewWorkflow EventBus Jobs GoFloat Engine WorkflowSpec EngineBase EngineProps EngineQueue EngineProgress.

(** ** The engine of the examples *)

Section demo.

Definition demo_graph : list Task :=
  [plain_task "a" "fetch" []; plain_task "b" "build" ["fetch"]; plain_task "c" "test" ["build"];
   plain_task "d" "lint" ["fetch"]].

#[local] Instance engine_world : World := world_of shuffle_rev ["u0"; "u1"; "u2"; "u3"; "u4"].

Definition demo_bus : Bus event () :=
  match NewBus 0 with Ret b => b | _ => {| subs := ∅; next_sub := 0; subscribers := []; ch := []; bus_cap := 0;
    inflight := None; dispatching := true; running := ∅; stopped := false; done_closed := false |} end.

Definition demo_wf : Workflow :=
  match NewWorkflow "admin" "pipeline" demo_graph 0 with
  | Ret (wf, _) => wf
  | _ => {| wf_ID := ""; TenantID := ""; wf_Name := ""; Tasks := ∅; wf_status := WorkflowPending;
            wf_CreatedAt := 0; wf_UpdatedAt := 0 |}
  end.

Definition demo_id : string := wf_ID demo_wf.
Definition demo_start : Engine () := NewWorkflowEngine demo_bus true.
Definition demo_ref (k : string) : TaskRef := {| ref_wf := demo_id; ref_task := k |}.
Definition demo_result (s : TaskStatus) : TaskResult :=
  {| res_Status := s; ExitCode := 0; Stdout := "out"; Stderr := ""; res_Error := ""; Duration := 0 |}.

(** Submitted; then [a] dispatched and done; then [b] dispatched as well. *)
Definition demo1 : Engine () := (SubmitWorkflow demo_start demo_wf).2.
Definition demo2 : Engine () :=
  (OnTaskResponse (OnTaskDispatched demo1 (demo_ref "a") "w1") demo_id "a" (demo_result TaskSucceeded)).2.
Definition demo3 : Engine () := OnTaskDispatched demo2 (demo_ref "b") "w1".
End demo.


(** ** Properties of every reachable engine *)

Section theorems.
Context `{W : World} {H : Type}.
Implicit Types (e : Engine H) (r : TaskRef) (w k d : string).

(** The task [d] of the workflow of [r]. *)
Lemma finished_iff t : Task_IsFinished t = true ↔ finished (task_status t).
Proof. apply Task_IsFinished_spec. Qed.

(** C3. Dependency safety: in every state the engine can reach, whatever the
    requests and reports and their order, a task that is ready, dispatched,
    running, succeeded or failed has had all its dependencies succeed. *)
Theorem dependencies_respected e r t d :
  reachable e → get_task e r = Some t → started (task_status t) → d ∈ DependsOn t →
  ∃ td, get_task e (sibling r d) = Some td ∧ task_status td = TaskSucceeded.
Proof.
  intros Hr%reachable_inv Ht Hs Hd. by apply (started_deps_done e r t).
Qed.

(** Progress: a workflow never stalls.  In every reachable state each
    unfinished task is, or transitively depends on, a task that is ready,
    dispatched or running, so some job, dispatch or report is outstanding for
    it. *)
Theorem unfinished_task_waits_for_active e r t :
  reachable e → get_task e r = Some t → ¬ finished (task_status t) →
  ∃ k' t', rtc (depends (tasks_of e (ref_wf r))) (ref_task r) k' ∧
    get_task e (sibling r k') = Some t' ∧ active (task_status t').
Proof.
  intros Hr Ht Hf. apply reachable_inv in Hr.
  by eapply unfinished_depends_active.
Qed.

(** C12. What a workflow's status means, in every reachable state: PENDING only
    without tasks; RUNNING exactly while some task is unfinished; SUCCEEDED
    only if all tasks succeeded; FAILED and CANCELLED only when all tasks are
    finished and some task failed or was cancelled (or there are none). *)
Theorem workflow_status_meaning e w wf :
  reachable e → workflows e !! w = Some wf →
  let has s := ∃ k t, Tasks wf !! k = Some t ∧ task_status t = s in
  let all_done := ∀ k t, Tasks wf !! k = Some t → finished (task_status t) in
  (wf_status wf = WorkflowPending → Tasks wf = ∅) ∧
  (wf_status wf = WorkflowRunning ↔ ∃ k t, Tasks wf !! k = Some t ∧ ¬ finished (task_status t)) ∧
  (wf_status wf = WorkflowSucceeded → ∀ k t, Tasks wf !! k = Some t → task_status t = TaskSucceeded) ∧
  (wf_status wf = WorkflowFailed → all_done ∧ has TaskFailed) ∧
  (wf_status wf = WorkflowCancelled → all_done ∧ (Tasks wf = ∅ ∨ has TaskCancelled)).
Proof.
  intros Hr Hw. apply reachable_inv in Hr. destruct (engine_inv_wf _ _ _ Hr Hw) as (_ & _ & [_ _ Ho] & _).
  assert (task_statuses wf = ∅ ↔ Tasks wf = ∅) as Hempty by apply fmap_empty_iff.
  assert (∀ k t, Tasks wf !! k = Some t → task_statuses wf !! k = Some (task_status t)) as Hst.
  { intros k t Ht. apply task_statuses_Some. eauto. }
  assert (∀ s, some_task (task_statuses wf) s ↔ ∃ k t, Tasks wf !! k = Some t ∧ task_status t = s) as Hsome.
  { intros s. unfold some_task. by setoid_rewrite task_statuses_Some. }
  assert (all_finished (task_statuses wf) → ∀ k t, Tasks wf !! k = Some t → finished (task_status t)) as Hall.
  { intros Ha k t Ht. by eapply Ha, Hst. }
  split_and!.
  - intros Hs. rewrite Hs in Ho. by apply Hempty.
  - split; [|intros (k & t & Ht & Hf); by eapply unfinished_running; [|by apply Hst|]].
    intros Hs. rewrite Hs in Ho. apply not_all_finished in Ho as (k & s & (t & Ht & <-)%task_statuses_Some & Hf). eauto.
  - intros Hs k t Ht. rewrite Hs in Ho. by eapply Ho, Hst.
  - intros Hs. rewrite Hs in Ho. destruct Ho as [Ha Hf]. split; [by apply Hall|by apply Hsome].
  - intros Hs. rewrite Hs in Ho. destruct Ho as [Ha Hf]. split; [by apply Hall|].
    destruct Hf; [left; by apply Hempty|right; by apply Hsome].
Qed.

(** C13. Refinement: from a reachable state, every execution of the engine
    moves each stored workflow only along the specification: its tasks'
    statuses by specification steps on its own dependency graph, its status
    along the workflow table, and nothing else of it changes but assignments
    and results.  In particular no stored workflow ever disappears. *)
Theorem engine_refines_spec e e' w wf :
  reachable e → rtc engine_step e e' → workflows e !! w = Some wf →
  ∃ wf', workflows e' !! w = Some wf' ∧ frozen_wf wf' = frozen_wf wf ∧
    rtc (spec_step (graph_of wf)) (task_statuses wf) (task_statuses wf') ∧
    rtc workflow_step (wf_status wf) (wf_status wf').
Proof.
  intros Hr%reachable_inv Hsteps Hw. destruct (engine_steps_handled e e' Hr Hsteps) as [_ Href].
  destruct (Href _ _ Hw) as (wf' & Hw' & [Hf Hs Hws]). eauto 10.
Qed.

(** What a batch of cancellation calls is for the tasks [refs]. *)
Definition notified (notifier : bool) (refs : list RunningTaskRef) (calls : list (string * list string)) : Prop :=
  if notifier then
    NoDup calls.*1 ∧ ∀ worker ids, (worker, ids) ∈ calls ↔ ids = ids_of worker refs ∧ ids ≠ []
  else calls = [].

Lemma notify_notified e refs :
  ∃ calls, cancel_calls (notifyWorkersOfCancellation e refs) = cancel_calls e ++ calls ∧
    notified (has_notifier e) refs calls.
Proof.
  unfold notified. destruct (has_notifier e) eqn:Hn; [by apply notify_calls|].
  exists []. unfold notifyWorkersOfCancellation. by rewrite Hn, orb_true_r, app_nil_r.
Qed.

(** C16. Cancelling a workflow that exists: no error; every unfinished task
    becomes CANCELLED and every finished one keeps its status, whatever the
    graph; a pending or running workflow becomes CANCELLED, a terminal one
    stays; nothing else of the engine's workflows changes; and each worker
    that was executing tasks of the workflow gets exactly one CancelTasks
    call, for exactly those tasks.  An unknown workflow is an error. *)
Theorem CancelWorkflow_correct e w :
  reachable e →
  match workflows e !! w with
  | None => CancelWorkflow e w = (Some (WorkflowNotFound w), e)
  | Some wf =>
      ∃ e' wf' calls refs,
        CancelWorkflow e w = (None, e') ∧ workflows e' = <[w := wf']> (workflows e) ∧
        frozen_wf wf' = frozen_wf wf ∧ task_statuses wf' = cancel_all (task_statuses wf) ∧
        wf_status wf' = cancel_status (wf_status wf) ∧
        cancel_calls e' = cancel_calls e ++ calls ∧ notified (has_notifier e) refs calls ∧
        refs ≡ₚ (keys (Tasks wf) ≫= running_ref e w)
  end.
Proof.
  intros Hi%reachable_inv. destruct (workflows e !! w) as [wf|] eqn:Hw; [|unfold CancelWorkflow; by rewrite Hw].
  destruct (CancelWorkflow_at_state e w wf Hi Hw) as (e1 & -> & (wf' & Hw' & Hf & Hs & Ho) & Hcalls).
  set (refs := _ ≫= _). destruct (notify_notified e1 refs) as (calls & Hc & Hn).
  injection Hcalls as Hc1 Hn1. rewrite Hn1 in Hn. rewrite Hc1 in Hc.
  exists (notifyWorkersOfCancellation e1 refs), wf', calls, refs.
  split_and!; [done|by rewrite workflows_notify|done..|].
  unfold refs, range_keys. by rewrite shuffle_perm.
Qed.

(** The calls of [CancelTask] for an unfinished task [k] of workflow [w]. *)
Lemma CancelTask_unfinished e w wf k t :
  engine_inv e → workflows e !! w = Some wf → Tasks wf !! k = Some t → ¬ finished (task_status t) →
  let r := {| ref_wf := w; ref_task := k |} in
  let running := if is_active (Task_GetStatus t)
                 then [{| TaskID := task_ID t; WorkerID := AssignedTo t |}] else [] in
  let '(downstream, e1) := cancelDownstream (UpdateTaskStatus e r TaskCancelled).2 w (task_ID t) in
  let e2 := finalizeWorkflowIfDone e1 w in
  downstream = [] ∧ running = running_ref e w k ∧ calls_of e2 = calls_of e ∧
  ∃ σ', at_state e w wf e2 σ' (finalize σ' (wf_status wf)) ∧
    cascade_done (graph_of wf) k (<[k := TaskCancelled]> (task_statuses wf)) σ'.
Proof.
  intros Hi Hw Ht Hf r running. destruct (engine_inv_wf _ _ _ Hi Hw) as (_ & Hok & [_ _ Ho] & _).
  destruct (wfok_closed _ Hok _ _ Ht) as [-> _].
  assert (task_statuses wf !! k = Some (task_status t)) as Hk by (apply task_statuses_Some; eauto).
  pose proof (stable_cancelDownstream _ calls_of_stable (UpdateTaskStatus e r TaskCancelled).2 w k) as Hc.
  destruct (cancel_at_state e w wf k _ Hi Hw Hk Hf) as (e1 & σ' & Heq & Hat & _ & _ & _ & Hd).
  fold r in Heq. rewrite Heq in *. simpl in Hc. split; [done|]. split; [|split].
  - unfold running, running_ref. rewrite (get_task_Some _ _ _ _ Hw), Ht. unfold Task_GetStatus.
    destruct (is_active (task_status t)) eqn:Ha; [by rewrite decide_True by by apply is_active_spec|].
    rewrite decide_False; [done|]. rewrite <-is_active_spec. congruence.
  - by rewrite (stable_finalize _ calls_of_stable), Hc, (stable_task _ calls_of_stable).
  - exists σ'. split; [by apply finalize_spec|done].
Qed.

(** [CancelTask], from any state that satisfies the invariant. *)
Lemma CancelTask_effect e k :
  engine_inv e →
  let '(err, e') := CancelTask e k in
  ((∀ w wf, workflows e !! w = Some wf → Tasks wf !! k = None) ∧ err = Some (TaskNotFound k) ∧
    workflows e' = workflows e) ∨
  ∃ w wf t, workflows e !! w = Some wf ∧ Tasks wf !! k = Some t ∧
    if decide (finished (task_status t))
    then err = Some (TaskAlreadyTerminal k (task_status t)) ∧ workflows e' = workflows e
    else err = None ∧ ∃ wf' calls,
      workflows e' = <[w := wf']> (workflows e) ∧ frozen_wf wf' = frozen_wf wf ∧
      cascade_done (graph_of wf) k (<[k := TaskCancelled]> (task_statuses wf)) (task_statuses wf') ∧
      wf_status wf' = finalize (task_statuses wf') (wf_status wf) ∧
      cancel_calls e' = cancel_calls e ++ calls ∧ notified (has_notifier e) (running_ref e w k) calls.
Proof.
  intros Hi. unfold CancelTask. pose proof (findTask_spec e k) as Hfind.
  pose proof (findTask_same e k) as Hsame. assert (calls_of (findTask e k).2 = calls_of e) as Hcalls0.
  { apply calls_of_next_tick. }
  destruct (findTask e k) as [[r|] e1]; simpl in *; [|by left].
  destruct Hfind as [<- [t Ht]]. pose proof Ht as Ht1. rewrite <-(get_task_ext _ _ _ Hsame) in Ht1. rewrite Ht1.
  simpl. destruct (get_task_inv _ _ _ Hi Ht) as (wf & Hw & Htk & _). destruct r as [w k]. simpl in *.
  destruct (handled_same _ _ Hsame Hi) as [Hi1 _]. pose proof Hw as Hw1. rewrite <-Hsame in Hw1.
  destruct (Task_IsFinished t) eqn:Hf.
  { right. exists w, wf, t. split; [done|]. split; [done|].
    by rewrite decide_True by by apply Task_IsFinished_spec. }
  apply Task_IsFinished_false in Hf.
  pose proof (CancelTask_unfinished e1 w wf k t Hi1 Hw1 Htk Hf) as Hu. simpl in Hu.
  destruct (cancelDownstream _ _ _) as [downstream e2].
  destruct Hu as (-> & -> & Hcalls & σ' & (wf' & Hw' & Hfr & <- & Ho) & Hd).
  right. exists w, wf, t. split; [done|]. split; [done|]. rewrite decide_False by done. split; [done|].
  rewrite app_nil_r. destruct (notify_notified (finalizeWorkflowIfDone e2 w) (running_ref e1 w k)) as (calls & Hc & Hn).
  rewrite Hcalls0 in Hcalls. injection Hcalls as Hc1 Hn1. rewrite Hn1 in Hn. rewrite Hc1 in Hc.
  exists wf', calls. rewrite workflows_notify, Hw', Hsame. split_and!; try done.
  unfold running_ref in *. by rewrite (get_task_ext e e1) in Hn.
Qed.

(** C15. Cancelling a task.  If no workflow has it, an error; if the task found
    is finished, an error that names its status; either way no workflow
    changes.  Otherwise the task and every unfinished task below it in its
    workflow become CANCELLED, every other task keeps its status, the
    workflow is finalized from its tasks, no other workflow changes, and only
    the worker executing that very task, if any, is notified. *)
Theorem CancelTask_correct e k :
  reachable e →
  let '(err, e') := CancelTask e k in
  ((∀ w wf, workflows e !! w = Some wf → Tasks wf !! k = None) ∧ err = Some (TaskNotFound k) ∧
    workflows e' = workflows e) ∨
  ∃ w wf t, workflows e !! w = Some wf ∧ Tasks wf !! k = Some t ∧
    if decide (finished (task_status t))
    then err = Some (TaskAlreadyTerminal k (task_status t)) ∧ workflows e' = workflows e
    else err = None ∧ ∃ wf' calls,
      workflows e' = <[w := wf']> (workflows e) ∧ frozen_wf wf' = frozen_wf wf ∧
      cascade_done (graph_of wf) k (<[k := TaskCancelled]> (task_statuses wf)) (task_statuses wf') ∧
      wf_status wf' = finalize (task_statuses wf') (wf_status wf) ∧
      cancel_calls e' = cancel_calls e ++ calls ∧ notified (has_notifier e) (running_ref e w k) calls.
Proof. intros Hi%reachable_inv. by apply CancelTask_effect. Qed.

(** [OnTaskResponse], from any state that satisfies the invariant. *)
Lemma OnTaskResponse_effect e w k result :
  engine_inv e →
  let '(err, e') := OnTaskResponse e w k result in
  match workflows e !! w with
  | None => err = Some (WorkflowNotFound w) ∧ e' = e
  | Some wf =>
      match Tasks wf !! k with
      | None => err = Some (TaskNotFound k) ∧ e' = e
      | Some t =>
          err = None ∧ ∃ wf' t' σ1,
            workflows e' = <[w := wf']> (workflows e) ∧ frozen_wf wf' = frozen_wf wf ∧
            reported (graph_of wf) (task_statuses wf) k (res_Status result) σ1 ∧
            task_statuses wf' = mark_ready (graph_of wf) σ1 ∧
            wf_status wf' = finalize (task_statuses wf') (wf_status wf) ∧
            Tasks wf' !! k = Some t' ∧
            task_result t' = if stores_result (res_Status result) && accepts (task_statuses wf) k (res_Status result)
                             then Some result else task_result t
      end
  end.
Proof.
  intros Hi. destruct (workflows e !! w) as [wf|] eqn:Hw; [destruct (Tasks wf !! k) as [t|] eqn:Ht|].
  2-3: unfold OnTaskResponse; by rewrite Hw, ?Ht.
  rewrite (OnTaskResponse_report _ _ _ _ _ _ Hw Ht). split; [done|].
  destruct (engine_inv_wf _ _ _ Hi Hw) as (_ & Hok & [_ _ Ho] & _).
  destruct (report_correct e w k wf t result Hi Hw Ht) as (σ1 & [Hat Hc Hr Hrep Hres]).
  destruct (settle_at_state e w wf _ σ1 Hi Hw Hat Hc Hr) as (wf' & Hw' & Hf & Hs & Hst).
  destruct (frozen_lookup wf wf' k t Hf Ht) as (t' & Ht' & _).
  exists wf', t', σ1. rewrite Hs. split_and!; [done..|].
  rewrite <-(stable_markReadyTasks _ (task_result_stable _) _ w), <-(stable_finalize _ (task_result_stable _) _ w) in Hres.
  rewrite (get_task_Some _ _ wf') in Hres by (by rewrite Hw', lookup_insert_eq).
  rewrite Ht', (get_task_Some _ _ _ _ Hw), Ht in Hres. simpl in Hres. case_match; by injection Hres.
Qed.

(** C14. A worker's report.  Unknown workflows and tasks are errors that change
    nothing.  Otherwise the report takes effect exactly when the transition
    table accepts it from the task's current status (a failure then cancels
    all unfinished tasks below it, and only those), its result is stored for
    a success or failure that took effect, all tasks whose dependencies have
    now succeeded become ready, the workflow is finalized from its tasks, and
    no other workflow changes. *)
Theorem OnTaskResponse_correct e w k result :
  reachable e →
  let '(err, e') := OnTaskResponse e w k result in
  match workflows e !! w with
  | None => err = Some (WorkflowNotFound w) ∧ e' = e
  | Some wf =>
      match Tasks wf !! k with
      | None => err = Some (TaskNotFound k) ∧ e' = e
      | Some t =>
          err = None ∧ ∃ wf' t' σ1,
            workflows e' = <[w := wf']> (workflows e) ∧ frozen_wf wf' = frozen_wf wf ∧
            reported (graph_of wf) (task_statuses wf) k (res_Status result) σ1 ∧
            task_statuses wf' = mark_ready (graph_of wf) σ1 ∧
            wf_status wf' = finalize (task_statuses wf') (wf_status wf) ∧
            Tasks wf' !! k = Some t' ∧
            task_result t' = if stores_result (res_Status result) && accepts (task_statuses wf) k (res_Status result)
                             then Some result else task_result t
      end
  end.
Proof. intros Hi%reachable_inv. by apply OnTaskResponse_effect. Qed.

(** C17. Reassigning a dead worker's tasks.  Exactly the tasks assigned to the
    worker that were dispatched or running become READY with no assignment,
    each gets exactly one new job, with its own request, appended to the
    queue; every other task, and every workflow's status, is unchanged. *)
Theorem ReassignDeadWorkerTasks_correct e workerID :
  let e' := ReassignDeadWorkerTasks e workerID in
  (∀ r, get_task e' r = reassigned workerID <$> get_task e r) ∧
  (∀ w, wf_status <$> workflows e' !! w = wf_status <$> workflows e !! w) ∧
  ∃ js, queue e' = queue e ++ js ∧ NoDup (targets js) ∧ (∀ j, j ∈ js → job_ok e j) ∧
    ∀ r, r ∈ targets js ↔ ∃ t, get_task e r = Some t ∧ lost workerID t.
Proof.
  destruct (ReassignDeadWorkerTasks_upto workerID e) as [_ _ _ Hst (js & Hq & Hnd & Hok & Htg)].
  split; [|split; [done|]].
  - intros r. apply ReassignDeadWorkerTasks_get.
  - exists js. split_and!; [done..|]. intros r. rewrite Htg.
    split; [by intros [_ ?]|intros (t & Ht & Hl); rewrite Ht; eauto].
Qed.

(** A finished task is finished for good: whatever happens later, no
    request, report, reassignment or cancellation changes its status. *)
Theorem finished_tasks_stay e e' r t :
  reachable e → rtc engine_step e e' → get_task e r = Some t → finished (task_status t) →
  ∃ t', get_task e' r = Some t' ∧ task_status t' = task_status t ∧ frozen t' = frozen t.
Proof.
  intros Hr%reachable_inv Hsteps Ht Hf.
  destruct (engine_steps_keep e e' Hr Hsteps r t Ht) as (t' & Ht' & Hft & Hst). eauto.
Qed.

(** C18. Submitting a new workflow: it is stored under its ID with exactly the
    tasks without dependencies READY and all others PENDING, it is RUNNING
    unless it has no tasks at all, in which case it stays PENDING, and no
    other workflow changes. *)
Theorem SubmitWorkflow_correct e wf :
  submittable e wf →
  let '(id, e') := SubmitWorkflow e wf in
  id = wf_ID wf ∧ ∃ wf', workflows e' = <[wf_ID wf := wf']> (workflows e) ∧ frozen_wf wf' = frozen_wf wf ∧
    (∀ k t, Tasks wf' !! k = Some t → task_status t = if decide (DependsOn t = []) then TaskReady else TaskPending) ∧
    wf_status wf' = if decide (Tasks wf = ∅) then WorkflowPending else WorkflowRunning.
Proof.
  apply SubmitWorkflow_stored.
Qed.
End theorems.

(** ** The theorems on an execution *)

Section witnesses.
#[local] Existing Instance engine_world.

Lemma demo_new : ∃ n', NewWorkflow "admin" "pipeline" demo_graph 0 = Ret (demo_wf, n').
Proof. eexists. vm_compute. reflexivity. Qed.

Lemma demo_submittable : submittable demo_start demo_wf.
Proof.
  destruct demo_new as [n' Hn]. eapply NewWorkflow_submittable; [exact Hn| |reflexivity].
  intros t Ht. unfold demo_graph in Ht. rewrite !elem_of_cons, elem_of_nil in Ht.
  by destruct Ht as [->|[->|[->|[->|[]]]]].
Qed.

Lemma demo1_reachable : reachable demo1.
Proof. exists demo_bus, true. apply rtc_once. apply step_submit, demo_submittable. Qed.

Lemma demo12_steps : rtc engine_step demo1 demo2.
Proof.
  eapply rtc_l; [exact (step_dispatched demo1 (demo_ref "a") "w1")|].
  apply rtc_once. exact (step_response _ demo_id "a" (demo_result TaskSucceeded)).
Qed.

Lemma demo3_steps : rtc engine_step demo1 demo3.
Proof. etrans; [exact demo12_steps|]. apply rtc_once. exact (step_dispatched demo2 (demo_ref "b") "w1"). Qed.

Lemma reachable_steps e e' : reachable e → rtc engine_step e e' → @reachable engine_world () e'.
Proof. intros (b & n & Hr) Hs. exists b, n. by etrans. Qed.

Lemma demo2_reachable : reachable demo2.
Proof. exact (reachable_steps _ _ demo1_reachable demo12_steps). Qed.

Lemma demo3_reachable : reachable demo3.
Proof. exact (reachable_steps _ _ demo1_reachable demo3_steps). Qed.

Lemma demo2_steps : rtc engine_step demo2 (CancelWorkflow demo3 demo_id).2.
Proof.
  eapply (rtc_l _ _ demo3); [exact (step_dispatched demo2 (demo_ref "b") "w1")|].
  apply rtc_once. exact (step_cancel_workflow demo3 demo_id).
Qed.

(** The workflow in [demo3]. *)
Definition demo_wf3 : Workflow := default demo_wf (workflows demo3 !! demo_id).

Lemma demo_wf3_eq : workflows demo3 !! demo_id = Some demo_wf3.
Proof. vm_compute. reflexivity. Qed.

#[local] Opaque demo_wf demo_start demo1 demo2 demo3 demo_wf3.

Definition status_of (e : Engine ()) (k : string) : option TaskStatus := task_status <$> get_task e (demo_ref k).

Lemma dependencies_respected_witness :
  status_of demo3 "b" = Some TaskDispatched ∧
  ∃ td, get_task demo3 (demo_ref "a") = Some td ∧ task_status td = TaskSucceeded.
Proof.
  split; [vm_compute; reflexivity|].
  destruct (get_task demo3 (demo_ref "b")) as [t|] eqn:Ht; [|vm_compute in Ht; discriminate].
  apply (dependencies_respected demo3 (demo_ref "b") t "a" demo3_reachable Ht);
    vm_compute in Ht; injection Ht as <-; [by right; left|left].
Defined.

Lemma unfinished_task_waits_for_active_witness :
  status_of demo3 "c" = Some TaskPending ∧
  ∃ k' t', rtc (depends (tasks_of demo3 demo_id)) "c" k' ∧
    get_task demo3 (demo_ref k') = Some t' ∧ active (task_status t').
Proof.
  split; [vm_compute; reflexivity|].
  destruct (get_task demo3 (demo_ref "c")) as [t|] eqn:Ht; [|vm_compute in Ht; discriminate].
  apply (unfinished_task_waits_for_active demo3 (demo_ref "c") t demo3_reachable Ht).
  vm_compute in Ht. injection Ht as <-. intros [?|[?|?]]; discriminate.
Defined.

Lemma workflow_status_meaning_witness :
  wf_status demo_wf3 = WorkflowRunning ∧ ∃ k t, Tasks demo_wf3 !! k = Some t ∧ ¬ finished (task_status t).
Proof.
  assert (wf_status demo_wf3 = WorkflowRunning) as Hs by (vm_compute; reflexivity).
  split; [exact Hs|]. by apply (workflow_status_meaning demo3 demo_id demo_wf3 demo3_reachable demo_wf3_eq).
Defined.

Lemma engine_refines_spec_witness :
  ∃ wf wf', workflows demo1 !! demo_id = Some wf ∧ workflows demo3 !! demo_id = Some wf' ∧
    rtc (spec_step (graph_of wf)) (task_statuses wf) (task_statuses wf').
Proof.
  destruct (workflows demo1 !! demo_id) as [wf|] eqn:Hw; [|vm_compute in Hw; discriminate].
  destruct (engine_refines_spec demo1 demo3 demo_id wf demo1_reachable demo3_steps Hw) as (wf' & Hw' & _ & Hs & _).
  exists wf, wf'. split_and!; [reflexivity|exact Hw'|exact Hs].
Defined.

Lemma workflow_can_finish_witness :
  ∃ e' wf', rtc (works demo_id) demo3 e' ∧ workflows e' !! demo_id = Some wf' ∧ wf_status wf' = WorkflowSucceeded.
Proof.
  destruct (workflow_can_finish demo3 demo_id demo_wf3 demo3_reachable demo_wf3_eq) as (e' & wf' & Hr & Hw' & _ & _ & Hs).
  exists e', wf'. split; [exact Hr|]. split; [exact Hw'|]. apply Hs.
  - assert (map_Forall (λ _ t, ¬ bad (task_status t)) (Tasks demo_wf3)) as Hb; [|exact Hb].
    refine (bool_decide_eq_true_1 (map_Forall (λ _ t, ¬ bad (task_status t)) (Tasks demo_wf3)) _). vm_compute. reflexivity.
  - intros Hnil. apply (f_equal size) in Hnil. vm_compute in Hnil. discriminate Hnil.
Defined.

Lemma CancelWorkflow_correct_witness :
  let e' := (CancelWorkflow demo3 demo_id).2 in
  map (status_of e') ["a"; "b"; "c"; "d"] =
    [Some TaskSucceeded; Some TaskCancelled; Some TaskCancelled; Some TaskCancelled] ∧
  cancel_calls e' = [("w1", ["b"])] ∧
  ∃ wf', workflows e' = <[demo_id := wf']> (workflows demo3) ∧ wf_status wf' = cancel_status (wf_status demo_wf3).
Proof.
  split; [vm_compute; reflexivity|]. split; [vm_compute; reflexivity|].
  pose proof (CancelWorkflow_correct demo3 demo_id demo3_reachable) as Hc. rewrite demo_wf3_eq in Hc.
  destruct Hc as (e' & wf' & calls & refs & He & Hw' & _ & _ & Hs & _). rewrite He. exists wf'.
  split; [exact Hw'|exact Hs].
Defined.

Lemma CancelTask_correct_witness :
  map (status_of (CancelTask demo3 "b").2) ["a"; "b"; "c"; "d"] =
    [Some TaskSucceeded; Some TaskCancelled; Some TaskCancelled; Some TaskReady] ∧
  ∃ w wf, workflows demo3 !! w = Some wf ∧ is_Some (Tasks wf !! "b").
Proof.
  split; [vm_compute; reflexivity|].
  assert ((CancelTask demo3 "b").1 = None) as Herr by (vm_compute; reflexivity).
  pose proof (CancelTask_correct demo3 "b" demo3_reachable) as Hc.
  destruct (CancelTask demo3 "b") as [err e']. simpl in Herr. subst err.
  destruct Hc as [(_ & Hno & _)|(w & wf & t & Hw & Ht & _)]; [discriminate Hno|].
  exists w, wf. split; [exact Hw|]. rewrite Ht. by eexists.
Defined.

Lemma OnTaskResponse_correct_witness :
  map (status_of (OnTaskResponse demo3 demo_id "b" (demo_result TaskFailed)).2) ["a"; "b"; "c"; "d"] =
    [Some TaskSucceeded; Some TaskFailed; Some TaskCancelled; Some TaskReady] ∧
  (OnTaskResponse demo3 demo_id "b" (demo_result TaskFailed)).1 = None.
Proof.
  split; [vm_compute; reflexivity|].
  pose proof (OnTaskResponse_correct demo3 demo_id "b" (demo_result TaskFailed) demo3_reachable) as Hc.
  rewrite demo_wf3_eq in Hc. assert (is_Some (Tasks demo_wf3 !! "b")) as [t Ht] by (vm_compute; by eexists).
  rewrite Ht in Hc. destruct (OnTaskResponse demo3 demo_id "b" (demo_result TaskFailed)) as [err e'].
  destruct Hc as [Herr _]. exact Herr.
Defined.

Lemma finished_tasks_stay_witness :
  let e := demo2 in let e' := (CancelWorkflow demo3 demo_id).2 in
  ∃ t t', get_task e (demo_ref "a") = Some t ∧ get_task e' (demo_ref "a") = Some t' ∧
    task_status t' = task_status t.
Proof.
  destruct (get_task demo2 (demo_ref "a")) as [t|] eqn:Ht; [|vm_compute in Ht; discriminate].
  destruct (finished_tasks_stay demo2 _ (demo_ref "a") t demo2_reachable demo2_steps Ht)
    as (t' & Ht' & Hst & _); [|exists t, t'; split_and!; [exact Ht|exact Ht'|exact Hst]].
  vm_compute in Ht. injection Ht as <-. by left.
Defined.

Lemma SubmitWorkflow_correct_witness :
  let '(id, e') := SubmitWorkflow demo_start demo_wf in
  id = wf_ID demo_wf ∧ map (status_of e') ["a"; "b"; "c"; "d"] =
    [Some TaskReady; Some TaskPending; Some TaskPending; Some TaskPending].
Proof.
  pose proof (SubmitWorkflow_correct demo_start demo_wf demo_submittable) as Hs.
  destruct (SubmitWorkflow demo_start demo_wf) as [id e'] eqn:He. destruct Hs as [Hid _]. split; [exact Hid|].
  vm_compute in He. injection He as _ <-. vm_compute. reflexivity.
Defined.
End witnesses.
