(* ===== verification/EngineStays.v ===== *)
(** * What an executing task depends on

    Two facts about the engine's methods: a task is DISPATCHED or RUNNING only
    after [OnTaskDispatched] was called for it ([executes_from]), and a
    DISPATCHED task stays DISPATCHED unless a report for it arrives, it or its
    workflow is cancelled, or its worker's tasks are reassigned
    ([OnTaskResponse_dispatched] and the lemmas after it): reports about other
    tasks, failures included, and cancellations of other tasks do not reach
    it, since everything it depends on has already succeeded. *)

From stdpp Require Import base gmap strings list relations.
From Stdlib Require Import ZArith Lia.
From S2P Require Import Prelude Status Domain Dag NewWorkflow EventBus Jobs Engine WorkflowSpec EngineBase EngineProps EngineQueue.
From S2P Require Import EngineCauses EngineHistory EngineProgress EngineTheorems.

(** ** The graph *)

Section spec.
Context (G : gmap string (list string)).

(** Everything a started task transitively depends on has succeeded. *)
Lemma started_below σ root k s :
  consistent G σ → below G root k → σ !! k = Some s → started s → σ !! root = Some TaskSucceeded.
Proof.
  intros Hc Hb. revert s. unfold below in Hb. induction Hb as [k d Hd|k d root Hd _ IH]; intros s Hk Hs.
  - by eapply (con_safe _ _ Hc).
  - apply (IH TaskSucceeded); [|by_status]. by eapply (con_safe _ _ Hc).
Qed.
End spec.

Section engine.
Context `{W : World} {H : Type}.
Implicit Types (e : Engine H) (r : TaskRef) (w k : string).

(** ** Where executing tasks come from *)

(** Whatever executes afterwards executed before. *)
Definition executes_from e e' : Prop :=
  ∀ r t', get_task e' r = Some t' → executing (task_status t') →
    ∃ t, get_task e r = Some t ∧ executing (task_status t).

#[export] Instance executes_from_preorder : PreOrder executes_from.
Proof.
  split; [by intros e r t; eauto|]. intros a b c Hab Hbc r t Ht Hs. destruct (Hbc r t Ht Hs) as (t1 & ? & ?). eauto.
Qed.

Lemma executes_from_same e e' : workflows e' = workflows e → executes_from e e'.
Proof. intros Hw r t. rewrite (get_task_ext e e' r Hw). eauto. Qed.

Lemma executes_from_mod e r f : (∀ t, task_status (f t) = task_status t) → executes_from e (mod_task r f e).
Proof.
  intros Hf r' t'. rewrite get_task_mod_task. case_decide; [|eauto]. subst r'.
  destruct (get_task e r) as [t|]; simpl; [|done]. intros [= <-]. rewrite Hf. eauto.
Qed.

Lemma executes_from_update e r s : ¬ executing s → executes_from e (UpdateTaskStatus e r s).2.
Proof.
  intros Hne r' t'. rewrite get_task_UpdateTaskStatus. case_decide; [|eauto]. subst r'.
  destruct (get_task e r) as [t|]; simpl; [|done]. intros [= <-].
  destruct (taskStatusesGraph (task_status t) s); [by rewrite status_set_status|eauto].
Qed.

(** RUNNING is accepted from DISPATCHED only, RETRYING being unused. *)
Lemma executes_from_running e r t :
  get_task e r = Some t → known (task_status t) → executes_from e (UpdateTaskStatus e r TaskRunning).2.
Proof.
  intros Ht [Hk _] r' t'. rewrite get_task_UpdateTaskStatus. case_decide; [|eauto]. subst r'. rewrite Ht. simpl.
  intros [= <-]. destruct (taskStatusesGraph (task_status t) TaskRunning) eqn:Hg; [|eauto]. intros _.
  exists t. split; [done|]. left. by destruct (task_status t).
Qed.

Lemma executes_from_stepwise : stepwise executes_from.
Proof.
  split; [apply _|intros e r; apply executes_from_update; by_status| |].
  - intros e w s r t. rewrite get_task_UpdateWorkflowStatus. eauto.
  - intros e. apply executes_from_same, workflows_next_tick.
Qed.

Lemma executes_from_markReadyTasks e w : executes_from e (markReadyTasks e w).
Proof.
  apply (stepwise_markReadyTasks _ executes_from_stepwise); intros e1 r.
  - apply executes_from_same, workflows_pushJob.
  - apply executes_from_update. by_status.
Qed.

Lemma executes_from_notify e refs : executes_from e (notifyWorkersOfCancellation e refs).
Proof. apply executes_from_same, workflows_notify. Qed.

Lemma executes_from_CancelWorkflow e w : executes_from e (CancelWorkflow e w).2.
Proof. apply (stepwise_CancelWorkflow _ executes_from_stepwise), executes_from_notify. Qed.

Lemma executes_from_CancelTask e k : executes_from e (CancelTask e k).2.
Proof. apply (stepwise_CancelTask _ executes_from_stepwise), executes_from_notify. Qed.

Lemma executes_from_Reassign e workerID : executes_from e (ReassignDeadWorkerTasks e workerID).
Proof.
  intros r t'. rewrite ReassignDeadWorkerTasks_get. destruct (get_task e r) as [t|]; simpl; [|done].
  intros [= <-]. unfold reassigned. case_decide; [|eauto]. rewrite status_set_status. by_status.
Qed.

Lemma executes_from_SubmitWorkflow e wf : submittable e wf → executes_from e (SubmitWorkflow e wf).2.
Proof.
  intros [Hfresh _ _ Hp]. unfold SubmitWorkflow. cbn [snd]. etrans; [|apply executes_from_markReadyTasks].
  intros r t'. unfold get_task, tasks_of. rewrite workflows_set_workflows, lookup_insert. case_decide as Hr; [|eauto].
  simpl. intros Ht%Hp. rewrite Ht. by_status.
Qed.

Lemma executes_from_OnTaskResponse e w k result : engine_inv e → executes_from e (OnTaskResponse e w k result).2.
Proof.
  intros Hi. destruct (workflows e !! w) as [wf|] eqn:Hw; [destruct (Tasks wf !! k) as [t|] eqn:Ht|].
  2-3: unfold OnTaskResponse; by rewrite Hw, ?Ht.
  rewrite (OnTaskResponse_report _ _ _ _ _ _ Hw Ht). simpl.
  etrans; [|etrans; [apply executes_from_markReadyTasks|apply (stepwise_finalize _ executes_from_stepwise)]].
  unfold report. set (r := {| ref_wf := w; ref_task := k |}).
  assert (get_task e r = Some t) as Hr by (unfold r; by rewrite (get_task_Some _ _ _ _ Hw)).
  assert (∀ e1 v, executes_from e1 (mod_task r (Task_SetResult v) e1)) as Hset.
  { intros e1 v. apply executes_from_mod. intros t1. by destruct t1. }
  destruct (res_Status result) eqn:Hres; try done.
  - eapply executes_from_running; [exact Hr|]. destruct (engine_inv_wf _ _ _ Hi Hw) as (_ & _ & [Hcon _ _] & _).
    apply (con_known _ _ Hcon k). apply task_statuses_Some. eauto.
  - pose proof (executes_from_update e r TaskSucceeded ltac:(by_status)) as Hu.
    destruct (UpdateTaskStatus e r TaskSucceeded) as [[] e1]; [|done]. rewrite decide_False by done.
    etrans; [exact Hu|apply Hset].
  - pose proof (executes_from_update e r TaskFailed ltac:(by_status)) as Hu.
    destruct (UpdateTaskStatus e r TaskFailed) as [[] e1]; [|done]. rewrite decide_True by done.
    etrans; [exact Hu|]. etrans; [apply Hset|apply (stepwise_cancelDownstream _ executes_from_stepwise)].
Qed.

(** A dispatch, of this task only. *)
Lemma executes_from_OnTaskDispatched e r workerID r' t' :
  get_task (OnTaskDispatched e r workerID) r' = Some t' → executing (task_status t') →
  r' = r ∨ ∃ t, get_task e r' = Some t ∧ executing (task_status t).
Proof.
  unfold OnTaskDispatched. rewrite get_task_UpdateTaskStatus, get_task_mod_task. case_decide; [by left|].
  right. eauto.
Qed.

(** ** What leaves a DISPATCHED task alone *)

Lemma dispatched_status e r :
  task_at e r = TaskDispatched → ∃ wf, workflows e !! ref_wf r = Some wf ∧ task_statuses wf !! ref_task r = Some TaskDispatched.
Proof.
  unfold task_at, get_task, tasks_of. destruct (workflows e !! ref_wf r) as [wf|]; simpl; [|by rewrite lookup_empty].
  intros Hs. exists wf. split; [done|]. apply task_statuses_Some. destruct (Tasks wf !! ref_task r) as [t|]; simpl in Hs; [|done]. eauto.
Qed.

Lemma status_at e r wf s : workflows e !! ref_wf r = Some wf → task_statuses wf !! ref_task r = Some s → task_at e r = s.
Proof. destruct r as [w k]. apply task_at_status. Qed.

Lemma task_at_other e e' w wf' r : workflows e' = <[w := wf']> (workflows e) → ref_wf r ≠ w → task_at e' r = task_at e r.
Proof. intros Hw Hne. apply task_at_ext. unfold get_task, tasks_of. by rewrite Hw, lookup_insert_ne. Qed.

(** A cascade from a task that had not finished. *)
Lemma cascade_spares wf k s v k' σ :
  consistent (graph_of wf) (task_statuses wf) → task_statuses wf !! k = Some s → ¬ finished s → k' ≠ k →
  task_statuses wf !! k' = Some TaskDispatched →
  cascade_done (graph_of wf) k (<[k := v]> (task_statuses wf)) σ → σ !! k' = Some TaskDispatched.
Proof.
  intros Hc Hk Hf Hne Hk' [_ Hfr]. destruct (Hfr k') as [->|(_ & Hb & _)]; [by rewrite lookup_insert_ne|].
  pose proof (started_below _ _ k k' _ Hc Hb Hk' ltac:(by_status)) as Hs. rewrite Hk in Hs. injection Hs as ->. by_status.
Qed.

Lemma accepts_unfinished wf k s : accepts (task_statuses wf) k s = true → known s →
  ∃ s0, task_statuses wf !! k = Some s0 ∧ ¬ finished s0.
Proof.
  unfold accepts. destruct (task_statuses wf !! k) as [s0|]; [|done]. simpl. intros Hg [Hr _]. exists s0. split; [done|].
  destruct s0; try by_status; by destruct s.
Qed.

Lemma OnTaskResponse_dispatched e w k result r :
  engine_inv e → r ≠ {| ref_wf := w; ref_task := k |} → task_at e r = TaskDispatched →
  task_at (OnTaskResponse e w k result).2 r = TaskDispatched.
Proof.
  intros Hi Hne Hr. pose proof (OnTaskResponse_effect e w k result Hi) as He.
  destruct (OnTaskResponse e w k result) as [err e']. simpl.
  destruct (workflows e !! w) as [wf|] eqn:Hw; [destruct (Tasks wf !! k) as [t|] eqn:Ht|].
  2-3: by destruct He as [_ ->].
  destruct He as (_ & wf' & t' & σ1 & Hw' & _ & Hrep & Hs & _).
  destruct (decide (ref_wf r = w)) as [Hrw|]; [|by rewrite (task_at_other _ _ _ _ _ Hw')].
  destruct (dispatched_status e r Hr) as (wf0 & Hw0 & Hk). rewrite Hrw, Hw in Hw0. injection Hw0 as <-.
  assert (ref_task r ≠ k) as Hrk by (destruct r; simpl in *; congruence).
  destruct (engine_inv_wf _ _ _ Hi Hw) as (_ & _ & [Hcon _ _] & _).
  eapply status_at; [by rewrite Hw', Hrw, lookup_insert_eq|]. rewrite Hs. apply mark_ready_ne; [done|].
  assert (σ1 !! ref_task r = Some TaskDispatched) as H1; [|split; [done|]; intros [? _]; congruence].
  unfold reported in Hrep. destruct (accepts _ _ _) eqn:Ha; [|by subst].
  destruct (res_Status result) eqn:Hres; subst; try done; try (by rewrite lookup_insert_ne).
  destruct (accepts_unfinished _ _ _ Ha) as (s0 & Hk0 & Hf0); [by split|]. by eapply cascade_spares.
Qed.

Lemma CancelTask_dispatched e k r :
  engine_inv e → k ≠ ref_task r → task_at e r = TaskDispatched → task_at (CancelTask e k).2 r = TaskDispatched.
Proof.
  intros Hi Hne Hr. pose proof (CancelTask_effect e k Hi) as He. destruct (CancelTask e k) as [err e']. simpl.
  assert (workflows e' = workflows e → task_at e' r = TaskDispatched) as Hsame.
  { intros Hw. rewrite <-Hr. by apply task_at_ext, get_task_ext. }
  destruct He as [(_ & _ & Hw)|(w & wf & t & Hw & Ht & He)]; [by apply Hsame|].
  destruct (decide (finished (task_status t))) as [|Hf]; [by apply Hsame, He|].
  destruct He as (_ & wf' & calls & Hw' & _ & Hd & _).
  destruct (decide (ref_wf r = w)) as [Hrw|]; [|by rewrite (task_at_other _ _ _ _ _ Hw')].
  destruct (dispatched_status e r Hr) as (wf0 & Hw0 & Hk). rewrite Hrw, Hw in Hw0. injection Hw0 as <-.
  destruct (engine_inv_wf _ _ _ Hi Hw) as (_ & _ & [Hcon _ _] & _).
  eapply status_at; [by rewrite Hw', Hrw, lookup_insert_eq|].
  eapply (cascade_spares wf k); [done|apply task_statuses_Some; eauto|done|done|done|exact Hd].
Qed.

Lemma CancelWorkflow_dispatched e w r :
  engine_inv e → w ≠ ref_wf r → task_at (CancelWorkflow e w).2 r = task_at e r.
Proof.
  intros Hi Hne. destruct (workflows e !! w) as [wf|] eqn:Hw; [|unfold CancelWorkflow; by rewrite Hw].
  destruct (CancelWorkflow_at_state e w wf Hi Hw) as (e1 & -> & (wf' & Hw' & _) & _). simpl.
  eapply task_at_other; [|by apply not_eq_sym]. by rewrite workflows_notify.
Qed.

Lemma SubmitWorkflow_dispatched e wf r :
  submittable e wf → task_at e r = TaskDispatched → task_at (SubmitWorkflow e wf).2 r = TaskDispatched.
Proof.
  intros Hsub Hr. destruct (SubmitWorkflow_at e wf Hsub) as (wf' & Hw' & _).
  destruct (dispatched_status e r Hr) as (wf0 & Hw0 & _). rewrite (task_at_other _ _ _ _ _ Hw'); [done|].
  intros Heq. pose proof (sub_fresh _ _ Hsub) as Hf. rewrite <-Heq in Hf. congruence.
Qed.

Lemma OnTaskDispatched_dispatched e r r' workerID :
  task_at e r = TaskDispatched → task_at (OnTaskDispatched e r' workerID) r = TaskDispatched.
Proof.
  unfold task_at, OnTaskDispatched. rewrite get_task_UpdateTaskStatus, get_task_mod_task.
  destruct (get_task e r) as [t|]; [|by case_decide]. simpl. intros Ht. destruct t. simpl in Ht. subst.
  by case_decide.
Qed.

(** The callback for a READY task. *)
Lemma OnTaskDispatched_ready e r workerID t :
  get_task e r = Some t → task_status t = TaskReady →
  get_task (OnTaskDispatched e r workerID) r = Some (set_task_status TaskDispatched (set_AssignedTo workerID t)).
Proof.
  intros Ht Hs. unfold OnTaskDispatched. rewrite get_task_UpdateTaskStatus, get_task_mod_task, !decide_True, Ht by done.
  simpl. by rewrite status_set_assigned, Hs.
Qed.

(** A report for a READY task changes no workflow and is no error. *)
Lemma OnTaskResponse_ready e r t result :
  engine_inv e → get_task e r = Some t → task_status t = TaskReady →
  let '(err, e') := OnTaskResponse e (ref_wf r) (ref_task r) result in
  err = None ∧ workflows e' = workflows e ∧ queue e' = queue e.
Proof.
  intros Hi Ht Hs. destruct (get_task_inv _ _ _ Hi Ht) as (wf & Hw & Htk & _). destruct r as [w k]. simpl in *.
  rewrite (OnTaskResponse_report _ _ _ _ _ _ Hw Htk). split; [done|].
  assert (report e w k t result = e) as ->.
  { unfold report. destruct (res_Status result) eqn:Hres; try done;
      by rewrite (UpdateTaskStatus_rejected _ _ _ _ Ht) by (by rewrite Hs). }
  destruct (engine_inv_wf _ _ _ Hi Hw) as (_ & Hok & [Hcon Hea _] & Hat).
  assert (markReadyTasks e w = next_tick e) as ->.
  { unfold markReadyTasks. rewrite Hw.
    pose proof (λ k, recomputeReadyTasks_spec e w wf Hok e _ _ wf k Hat Hw (con_known _ _ Hcon)) as Hrec.
    destruct (recomputeReadyTasks e wf) as [ks e1] eqn:Hr. unfold recomputeReadyTasks in Hr. injection Hr as Hks <-.
    destruct ks as [|k' ks]; [done|]. exfalso. apply (Hea k'), Hrec. left. }
  assert (finalizeWorkflowIfDone (next_tick e) w = next_tick e) as ->.
  { unfold finalizeWorkflowIfDone. rewrite workflows_next_tick, Hw. destruct (AllTasksFinished wf) eqn:Hall;
      [|by rewrite orb_true_r]. apply AllTasksFinished_statuses in Hall.
    assert (finished TaskReady) by (apply (Hall k), task_statuses_Some; eauto). by_status. }
  split; [apply workflows_next_tick|]. by destruct e.
Qed.
End engine.
