(* ===== verification/Server.v ===== *)
(** * The gRPC handlers of the control plane

    [server/grpc_orchestration_server.go], [server/grpc_cluster_server.go] and
    the conversions of [events/*.go]: requests are translated to calls of the
    engine and the registry, errors to status codes, and
    [StreamWorkflowEvents] forwards events of the bus to one client.  The wire
    messages are records with the fields the handlers read or fill. *)

From stdpp Require Import base gmap strings list relations.
From Stdlib Require Import ZArith Lia.
From S2P Require Import Prelude Status Domain Dag NewWorkflow EventBus Jobs RetryQueue Registry Engine EngineBase EngineProps.

(** ** Messages *)

Record TaskDefinition := {
  td_Name : string; td_DependsOn : list string; td_Type : string; td_Payload : string;
  td_MaxRetries : Z;            (* int32 *)
  td_RetryBackoffSeconds : Z;   (* int64 *)
  td_TimeoutSeconds : Z;        (* int64 *)
}.
Record SubmitWorkflowRequest := { sr_Name : string; sr_Tasks : list TaskDefinition }.
Record TaskStatusInfo := {
  ti_Id : string; ti_Name : string; ti_Status : string; ti_AssignedTo : string; ti_Attempt : Z; ti_Error : string;
}.
Record WorkflowStatusResponse := {
  ws_WorkflowId : string; ws_Name : string; ws_Status : string; ws_Tasks : list TaskStatusInfo;
}.
Record WorkflowEvent := { we_WorkflowId : string; we_TaskId : string; we_Status : string; we_Timestamp : Z }.
Record RegisterRequest := {
  rr_WorkerId : string; rr_Address : string; rr_Labels : gmap string string; rr_Capabilities : list string;
  rr_Capacity : Z;              (* int32 *)
}.
Record ResultRequest := {
  rq_WorkflowId : string; rq_TaskId : string; rq_Status : Z; rq_ExitCode : Z; rq_Stdout : string;
  rq_Stderr : string; rq_Error : string; rq_Duration : Z;
}.

(** The status code carried by the returned error, with its cause. *)
Inductive rpc_error :=
  | InvalidArgument (cause : workflow_error)
  | NotFound (cause : engine_error)
  | Internal                               (* the stream could not be written *)
  | EngineFailed (cause : engine_error).   (* without a status: code Unknown *)

(** ** OrchestratorAPI *)

(** [time.Duration(s) * time.Second] *)
Definition seconds (s : Z) : Z := wrap64 (s * Second).

Definition task_of_definition (d : TaskDefinition) : Task := {|
  task_ID := ""; task_WorkflowID := ""; task_Name := td_Name d; DependsOn := td_DependsOn d;
  Spec := {| Type_ := td_Type d; Payload := td_Payload d |};
  MaxRetries := td_MaxRetries d; RetryBackoff := seconds (td_RetryBackoffSeconds d);
  Timeout := seconds (td_TimeoutSeconds d);
  task_status := TaskPending; AssignedTo := ""; Attempt := 0; task_result := None;
  task_CreatedAt := 0; task_UpdatedAt := 0;
|}.

Section handlers.
Context `{W : World} {H : Type}.
Implicit Types (e : Engine H).

(** The workflow's identifier, the engine and the tick after the call. *)
Definition SubmitWorkflow_rpc (request : SubmitWorkflowRequest) (n : nat) e
    : outcome rpc_error (string * Engine H * nat) :=
  match NewWorkflow "admin" (sr_Name request) (task_of_definition <$> sr_Tasks request) n with
  | Ret (wf, n') => let '(id, e) := SubmitWorkflow e wf in Ret (id, e, n')
  | Err err => Err (InvalidArgument err)
  | Panic => Panic
  end.

Definition TaskStatusInfo_of (task : Task) : TaskStatusInfo := {|
  ti_Id := task_ID task; ti_Name := task_Name task; ti_Status := TaskStatus_String (Task_GetStatus task);
  ti_AssignedTo := AssignedTo task; ti_Attempt := wrap32 (Attempt task);
  ti_Error := match Task_GetResult task with Some res => res_Error res | None => "" end;
|}.

(** [n] is the tick of the loop over [workflow.Tasks]. *)
Definition GetWorkflow_rpc (workflowID : string) (n : nat) e : rpc_error + WorkflowStatusResponse :=
  match GetWorkflow e workflowID with
  | inl err => inl (NotFound err)
  | inr workflow => inr {|
      ws_WorkflowId := wf_ID workflow; ws_Name := wf_Name workflow;
      ws_Status := WorkflowStatus_String (Workflow_GetStatus workflow);
      ws_Tasks := omap (λ k, TaskStatusInfo_of <$> Tasks workflow !! k) (range_keys n (Tasks workflow));
    |}
  end.

Definition not_found (r : option engine_error * Engine H) : option rpc_error * Engine H :=
  (NotFound <$> r.1, r.2).

Definition CancelWorkflow_rpc (workflowID : string) e : option rpc_error * Engine H :=
  not_found (CancelWorkflow e workflowID).

Definition CancelTask_rpc (taskID : string) e : option rpc_error * Engine H := not_found (CancelTask e taskID).

(** ** ClusterService *)

Definition node_of_request (r : RegisterRequest) : WorkerNode := {|
  node_ID := rr_WorkerId r; Address := rr_Address r; Labels := rr_Labels r; Capabilities := rr_Capabilities r;
  Capacity := rr_Capacity r; RunningTasks := 0; LastHeartbeat := 0; node_status := WorkerAlive;
|}.

(** [Register] never fails, so the response is always [Accepted]. *)
Definition Register_rpc {HK} (request : RegisterRequest) (now : Z) (r : WorkerRegistry HK)
    : outcome () (WorkerRegistry HK) := Register (node_of_request request) now r.

Definition Heartbeat_rpc {HK} (workerID : string) (runningTasks now : Z) (r : WorkerRegistry HK)
    : option registry_error * WorkerRegistry HK := Heartbeat workerID runningTasks now r.

Definition result_of_request (r : ResultRequest) : TaskResult := {|
  res_Status := FromProtoTaskStatus (rq_Status r); res_Error := rq_Error r; ExitCode := rq_ExitCode r;
  Stdout := rq_Stdout r; Stderr := rq_Stderr r; Duration := rq_Duration r;
|}.

Definition ReportResult_rpc (request : ResultRequest) e : option rpc_error * Engine H :=
  let '(err, e) := OnTaskResponse e (rq_WorkflowId request) (rq_TaskId request) (result_of_request request) in
  (EngineFailed <$> err, e).
End handlers.

(** ** The event stream *)

Definition WorkflowStatusChangedEvent_ToProto (wfID : string) (status : WorkflowStatus) (ts : Z) : WorkflowEvent :=
  {| we_WorkflowId := wfID; we_TaskId := ""; we_Status := WorkflowStatus_String status; we_Timestamp := ts |}.

Definition TaskStatusChangedEvent_ToProto (wfID taskID : string) (status : TaskStatus) (ts : Z) : WorkflowEvent :=
  {| we_WorkflowId := wfID; we_TaskId := taskID; we_Status := TaskStatus_String status; we_Timestamp := ts |}.

(** The interface method. *)
Definition ToProto (ev : event) : WorkflowEvent :=
  match ev with
  | WorkflowStatusChangedEvent wfID status ts => WorkflowStatusChangedEvent_ToProto wfID status ts
  | TaskStatusChangedEvent wfID taskID status ts => TaskStatusChangedEvent_ToProto wfID taskID status ts
  end.

Definition snapshotToEvent (wf : Workflow) (now : Z) : WorkflowEvent :=
  {| we_WorkflowId := wf_ID wf; we_TaskId := ""; we_Status := WorkflowStatus_String (Workflow_GetStatus wf);
     we_Timestamp := Unix now |}.

(** What [sendWorkflowEvent] sends, and whether the stream is over. *)
Definition sendWorkflowEvent (wfID : string) (ev : event) : list WorkflowEvent * bool :=
  match ev with
  | WorkflowStatusChangedEvent w status _ =>
      if WorkflowStatus_IsTerminated status then ([], true)
      else if decide (w ≠ wfID) then ([], false)
      else ([ToProto ev], false)
  | TaskStatusChangedEvent _ _ _ _ => ([ToProto ev], false)
  end.

Definition stream_cap : nat := 64.

Inductive stream_pc :=
  | StreamSubscribing          (* snapshot sent, not yet subscribed *)
  | StreamLoop
  | StreamClosed.

(** One call of [StreamWorkflowEvents] after its checks: the channel [out],
    whether the client is gone, and what was passed to [stream.Send]. *)
Record Stream := {
  st_wfID : string;
  st_out : list event;
  st_cancelled : bool;
  st_sent : list WorkflowEvent;
  st_pc : stream_pc;
}.

(** The checks and the snapshot, whose [Send] may fail; [None] is a stream that
    ends at once.  The handler holds a pointer to the workflow and not the
    engine's mutex: the status is read once for the check and again for the
    snapshot, when the engine may have moved on to [e']. *)
Definition StreamWorkflowEvents {H} (wfID : string) (now : Z) (sendOK : bool) (e e' : Engine H)
    : rpc_error + option Stream :=
  match GetWorkflow e wfID with
  | inl err => inl (NotFound err)
  | inr wf =>
      if Workflow_IsFinished wf then inr None
      else let wf := default wf (workflows e' !! wfID) in
      if negb sendOK then inl Internal
      else inr (Some {| st_wfID := wfID; st_out := []; st_cancelled := false;
                        st_sent := [snapshotToEvent wf now]; st_pc := StreamSubscribing |})
  end.

Inductive stream_label :=
  | StSubscribed (ok : bool)     (* [Subscribe] returned *)
  | StHandle (ev : event) (drop : bool)   (* the bus calls the handler; [drop]: it took the [Done] case *)
  | StCancel                     (* the client goes away *)
  | StReceive                    (* the loop takes an event *)
  | StDone.                      (* the loop sees [Done] *)

Definition stream_next (l : stream_label) (s : Stream) : option Stream :=
  let 'Build_Stream wfID out cancelled sent pc := s in
  match l, pc with
  | StSubscribed ok, StreamSubscribing =>
      Some (Build_Stream wfID out cancelled sent (if ok then StreamLoop else StreamClosed))
  | StHandle ev drop, (StreamLoop | StreamClosed) =>
      if drop then if cancelled then Some s else None
      else Some (Build_Stream wfID (try_send stream_cap ev out) cancelled sent pc)
  | StCancel, _ => Some (Build_Stream wfID out true sent pc)
  | StReceive, StreamLoop =>
      match out with
      | [] => None
      | ev :: out =>
          let '(msgs, over) := sendWorkflowEvent wfID ev in
          Some (Build_Stream wfID out cancelled (sent ++ msgs) (if over then StreamClosed else StreamLoop))
      end
  | StDone, StreamLoop => if cancelled then Some (Build_Stream wfID out cancelled sent StreamClosed) else None
  | _, _ => None
  end.

Inductive stream_run (s0 : Stream) : list stream_label → Stream → Prop :=
  | stream_run_nil : stream_run s0 [] s0
  | stream_run_snoc tr s l s' : stream_run s0 tr s → stream_next l s = Some s' → stream_run s0 (tr ++ [l]) s'.

(** The events the bus passed to the handler, in order. *)
Definition handled_events (tr : list stream_label) : list event :=
  omap (λ l, match l with StHandle ev _ => Some ev | _ => None end) tr.

(** ** Submission *)

Section submit.
Context `{W : World} {H : Type}.
Implicit Types (e : Engine H) (d : TaskDefinition) (defs : list TaskDefinition).

(** What a client has to respect: distinct task names, dependencies that name
    tasks of the request, and no cycle among them. *)
Definition def_edge defs (x y : string) : Prop := ∃ d, d ∈ defs ∧ td_Name d = x ∧ y ∈ td_DependsOn d.

Record definitions_valid defs : Prop := {
  dv_names : NoDup (td_Name <$> defs);
  dv_deps d x : d ∈ defs → x ∈ td_DependsOn d → x ∈ td_Name <$> defs;
  dv_acyclic x : ¬ tc (def_edge defs) x x;
}.

(** Generated identifiers are distinct and not empty. *)
Definition uuids_distinct : Prop := ∀ i j, uuid i = uuid j → i = j.

Definition with_ids defs (n : nat) : list Task :=
  zip_with (λ i d, set_task_ID (uuid i) (task_of_definition d)) (seq n (length defs)) defs.

Lemma assignIDs_definitions defs n : (assignIDs (task_of_definition <$> defs) n).1 = with_ids defs n.
Proof.
  unfold with_ids. revert n. induction defs as [|d defs IH]; intros n; [done|].
  rewrite fmap_cons, assignIDs_cons. simpl. f_equal. apply IH.
Qed.

Lemma with_ids_elem defs n t :
  t ∈ with_ids defs n ↔ ∃ i d, defs !! i = Some d ∧ t = set_task_ID (uuid (n + i)) (task_of_definition d).
Proof.
  unfold with_ids. rewrite list_elem_of_lookup. setoid_rewrite lookup_zip_with_Some. split.
  - intros (i & x & d & -> & [-> _]%lookup_seq & Hd). eauto.
  - intros (i & d & Hd & ->). exists i, (n + i), d. split_and!; [done| |done].
    apply lookup_seq. split; [done|]. by eapply lookup_lt_Some.
Qed.

Lemma with_ids_field {B} (f : Task → B) (g : TaskDefinition → B) defs n :
  (∀ i d, f (set_task_ID (uuid i) (task_of_definition d)) = g d) → f <$> with_ids defs n = g <$> defs.
Proof.
  intros Hf. unfold with_ids. revert n. induction defs as [|d defs IH]; intros n; simpl; [done|].
  f_equal; [apply Hf|apply IH].
Qed.

Lemma with_ids_IDs defs n : task_ID <$> with_ids defs n = uuid <$> seq n (length defs).
Proof. unfold with_ids. revert n. induction defs as [|d defs IH]; intros n; simpl; [done|]. by rewrite IH. Qed.

Lemma with_ids_edge defs n x y : name_edge (with_ids defs n) x y ↔ def_edge defs x y.
Proof.
  unfold name_edge, def_edge. setoid_rewrite with_ids_elem. split.
  - intros (t & (i & d & Hd & ->) & Hx & Hy). exists d. split; [by eapply list_elem_of_lookup_2|done].
  - intros (d & [i Hd]%list_elem_of_lookup & Hx & Hy). exists (set_task_ID (uuid (n + i)) (task_of_definition d)).
    split; [by exists i, d|done].
Qed.

Lemma request_ok_definitions defs n :
  uuids_distinct → request_ok (with_ids defs n) ↔ definitions_valid defs.
Proof.
  intros Huuid. assert (task_Name <$> with_ids defs n = td_Name <$> defs) as Hnames by by apply with_ids_field.
  assert (∀ x y, tc (name_edge (with_ids defs n)) x y ↔ tc (def_edge defs) x y) as Htc.
  { intros x y. split; apply (tc_congruence id); intros; by apply (with_ids_edge defs n). }
  split; [intros [HN _ HI Ha]|intros [HN HI Ha]]; split.
  - by rewrite <-Hnames.
  - intros d x [i Hi]%list_elem_of_lookup Hx. rewrite <-Hnames.
    apply (HI (set_task_ID (uuid (n + i)) (task_of_definition d))); [|done]. apply with_ids_elem. eauto.
  - intros x. rewrite <-Htc. apply Ha.
  - by rewrite Hnames.
  - rewrite with_ids_IDs. apply NoDup_fmap_2_strong; [|apply NoDup_seq]. intros i j _ _. apply Huuid.
  - intros t x (i & d & Hi & ->)%with_ids_elem Hx. rewrite Hnames. eapply HI; [by eapply list_elem_of_lookup_2|done].
  - intros x. rewrite Htc. apply Ha.
Qed.
(** One task as the client sees it. *)
Definition shown (infos : list TaskStatusInfo) (name status : string) : Prop :=
  ∃ info, info ∈ infos ∧ ti_Name info = name ∧ ti_Status info = status.

Lemma GetWorkflow_infos (wf : Workflow) m info :
  info ∈ omap (λ k, TaskStatusInfo_of <$> Tasks wf !! k) (range_keys m (Tasks wf)) ↔
  ∃ k t, Tasks wf !! k = Some t ∧ info = TaskStatusInfo_of t.
Proof.
  rewrite list_elem_of_omap. split.
  - intros (k & _ & (t & Ht & ->)%fmap_Some). eauto.
  - intros (k & t & Ht & ->). exists k. rewrite elem_of_range_keys, Ht. by eauto.
Qed.

Lemma GetWorkflow_ids (wf : Workflow) m :
  closed (Tasks wf) →
  ti_Id <$> omap (λ k, TaskStatusInfo_of <$> Tasks wf !! k) (range_keys m (Tasks wf)) = range_keys m (Tasks wf).
Proof.
  intros Hc. assert (∀ k, k ∈ range_keys m (Tasks wf) → is_Some (Tasks wf !! k)) as Hall by (intros k; apply elem_of_range_keys).
  revert Hall. generalize (range_keys m (Tasks wf)) as ks. induction ks as [|k ks IH]; intros Hall; [done|]. simpl.
  destruct (Hall k) as [t Ht]; [left|]. rewrite Ht. simpl. f_equal; [by apply Hc in Ht as [? _]|].
  apply IH. intros x Hx. apply Hall. by right.
Qed.

(** The tasks of a new workflow, from the definitions it was built from. *)
Lemma new_tasks_shown defs n (wf wf' : Workflow) :
  new_workflow_spec (with_ids defs n) (Ret (wf, 0)) → frozen_wf wf' = frozen_wf wf →
  (∀ k t, Tasks wf' !! k = Some t → task_status t = if decide (DependsOn t = []) then TaskReady else TaskPending) →
  ∀ name status, (∃ k t, Tasks wf' !! k = Some t ∧ task_Name t = name ∧ TaskStatus_String (task_status t) = status) ↔
    ∃ d, d ∈ defs ∧ td_Name d = name ∧ status = if decide (td_DependsOn d = []) then "READY" else "PENDING".
Proof.
  intros (_ & _ & _ & Hto & Hfrom) Hf Hst name status.
  assert (∀ i d t t', built_from (with_ids defs n) (wf_ID wf) (set_task_ID (uuid (n + i)) (task_of_definition d)) t' →
    frozen t = frozen t' → ∀ k, Tasks wf' !! k = Some t →
    task_Name t = td_Name d ∧ TaskStatus_String (task_status t) = if decide (td_DependsOn d = []) then "READY" else "PENDING")
    as Hshow.
  { intros i d t t' (_ & Hn & _ & _ & Hd%Forall2_length & _) Hft k Hk. rewrite (Hst k t Hk).
    pose proof (frozen_inj_fields _ _ Hft) as (_ & _ & -> & _).
    assert (task_Name t = task_Name t') as -> by (destruct t, t'; unfold frozen in Hft; simpl in *; congruence).
    split; [by destruct d|]. assert (DependsOn t' = [] ↔ td_DependsOn d = []) as Hiff.
    { destruct d; simpl in *. rewrite <-!length_zero_iff_nil. lia. }
    destruct (decide (DependsOn t' = [])), (decide (td_DependsOn d = [])); tauto || done. }
  split.
  - intros (k & t & Hk & <- & <-). destruct (frozen_lookup wf' wf k t) as (t' & Hk' & Hft); [done..|].
    destruct (Hfrom k t' Hk') as (t0 & (i & d & Hd & ->)%with_ids_elem & Hb).
    destruct (Hshow i d t t' Hb (eq_sym Hft) k Hk) as [Hn Hs]. exists d. split; [by eapply list_elem_of_lookup_2|done].
  - intros (d & [i Hd]%list_elem_of_lookup & <- & ->).
    destruct (Hto (set_task_ID (uuid (n + i)) (task_of_definition d))) as (t' & Hk' & Hb); [apply with_ids_elem; eauto|].
    destruct (frozen_lookup wf wf' _ t' Hf Hk') as (t & Hk & Hft).
    destruct (Hshow i d t t' Hb Hft _ Hk) as [Hn Hs]. eauto.
Qed.

(** C20. Submitting over the API.  With distinct generated identifiers, a
    request is accepted exactly when its task names are distinct, its
    dependencies name its tasks and have no cycle; otherwise the error is
    InvalidArgument; the handler never panics.  An accepted workflow is new,
    leaves the others alone, and is shown by GetWorkflow under the returned
    identifier: RUNNING unless it is empty, each requested task once, READY if
    it has no dependencies and PENDING otherwise, and nothing else. *)
Theorem SubmitWorkflow_rpc_correct request n e :
  uuids_distinct → (∀ m, n ≤ m → workflows e !! uuid m = None) →
  match SubmitWorkflow_rpc request n e with
  | Panic => False
  | Err err => (∃ cause, err = InvalidArgument cause) ∧ ¬ definitions_valid (sr_Tasks request)
  | Ret (id, e', _) =>
      definitions_valid (sr_Tasks request) ∧ workflows e !! id = None ∧
      (∀ w, w ≠ id → workflows e' !! w = workflows e !! w) ∧
      ∀ m, ∃ resp, GetWorkflow_rpc id m e' = inr resp ∧ ws_WorkflowId resp = id ∧ ws_Name resp = sr_Name request ∧
        ws_Status resp = (if decide (sr_Tasks request = []) then "PENDING" else "RUNNING") ∧
        NoDup (ti_Id <$> ws_Tasks resp) ∧
        ∀ name status, shown (ws_Tasks resp) name status ↔ ∃ d, d ∈ sr_Tasks request ∧ td_Name d = name ∧
          status = if decide (td_DependsOn d = []) then "READY" else "PENDING"
  end.
Proof.
  intros Huuid Hfresh. unfold SubmitWorkflow_rpc. set (defs := sr_Tasks request).
  pose proof (NewWorkflow_correct "admin" (sr_Name request) (task_of_definition <$> defs) n) as Hc.
  pose proof (NewWorkflow_accepts "admin" (sr_Name request) (task_of_definition <$> defs) n) as Hacc.
  rewrite assignIDs_definitions, request_ok_definitions in Hacc by done.
  rewrite assignIDs_definitions in Hc. destruct (NewWorkflow _ _ _ _) as [[wf n']|err|] eqn:Hnew; [|split; [by eauto|]|done].
  2:{ intros Hv%Hacc. by destruct Hv as (? & ? & ?). }
  destruct (NewWorkflow_ID _ _ _ _ _ _ Hnew) as (Hname & m0 & Hm0 & Hid).
  assert (submittable e wf) as Hsub.
  { eapply NewWorkflow_submittable; [exact Hnew| |rewrite Hid; by apply Hfresh].
    intros t (d & -> & _)%list_elem_of_fmap. by destruct d. }
  pose proof (SubmitWorkflow_stored e wf Hsub) as Hst. destruct (SubmitWorkflow e wf) as [id e'].
  destruct Hst as (-> & wf' & Hw' & Hf & Hts & Ho).
  split; [apply Hacc; eauto|]. split; [rewrite Hid; by apply Hfresh|].
  split; [intros w Hw; by rewrite Hw', lookup_insert_ne|]. intros m.
  unfold GetWorkflow_rpc, GetWorkflow. rewrite Hw', lookup_insert_eq. eexists. split; [done|]. simpl.
  assert (wf_wellformed wf') as Hok by (eapply wellformed_frozen; [done|apply Hc]).
  split; [by eapply frozen_wf_ID|]. split; [by rewrite (frozen_wf_Name _ _ Hf)|]. split.
  { unfold Workflow_GetStatus. rewrite Ho. destruct Hc as (_ & _ & _ & Hto & Hfrom). destruct defs as [|d ds].
    - rewrite decide_True; [done|]. apply map_eq. intros k. rewrite lookup_empty. apply eq_None_not_Some. intros [t Ht].
      destruct (Hfrom k t Ht) as (t0 & (i & d & Hd & _)%with_ids_elem & _). done.
    - rewrite decide_False; [done|]. intros Hnil.
      destruct (Hto (set_task_ID (uuid (n + 0)) (task_of_definition d))) as (t' & Hk & _); [apply with_ids_elem; by exists 0, d|].
      by rewrite Hnil, lookup_empty in Hk. }
  split; [rewrite GetWorkflow_ids; [apply NoDup_range_keys|apply Hok]|].
  intros name status. rewrite <-(new_tasks_shown defs n wf wf' Hc Hf Hts name status). unfold shown.
  setoid_rewrite GetWorkflow_infos. split.
  - intros (info & (k & t & Ht & ->) & Hn & Hs). by exists k, t.
  - intros (k & t & Ht & Hn & Hs). exists (TaskStatusInfo_of t). split; [by exists k, t|done].
Qed.
End submit.

(** ** The stream *)

Section stream.
Implicit Types (s : Stream) (tr : list stream_label).

(** What the client has been sent for the events [evs]. *)
Definition streamed (wfID : string) (evs : list event) : list WorkflowEvent :=
  evs ≫= λ ev, (sendWorkflowEvent wfID ev).1.

Definition ends_stream (wfID : string) (ev : event) : Prop := (sendWorkflowEvent wfID ev).2 = true.

(** Everything sent and pending comes from the handled events, in order. *)
Definition stream_ok (wfID : string) (snapshot : WorkflowEvent) tr s : Prop :=
  st_wfID s = wfID ∧ length (st_out s) ≤ stream_cap ∧
  ∃ evs, st_sent s = snapshot :: streamed wfID evs ∧ evs ++ st_out s `sublist_of` handled_events tr ∧
    (st_pc s ≠ StreamClosed → Forall (λ ev, ¬ ends_stream wfID ev) evs).

Lemma handled_events_snoc tr l :
  handled_events (tr ++ [l]) = handled_events tr ++ (match l with StHandle ev _ => [ev] | _ => [] end).
Proof. unfold handled_events. rewrite omap_app. by destruct l. Qed.

Lemma sublist_drop_new {A} (l k k' : list A) : l `sublist_of` k → l `sublist_of` k ++ k'.
Proof. intros Hl. by apply sublist_inserts_r. Qed.

Lemma stream_step_ok wfID snapshot tr s l s' :
  stream_ok wfID snapshot tr s → stream_next l s = Some s' → stream_ok wfID snapshot (tr ++ [l]) s'.
Proof.
  destruct s as [w out cancelled sent pc]. intros (Hw & Hlen & evs & Hsent & Hsub & Hend) Hn. simpl in *. subst w sent.
  unfold stream_ok. rewrite handled_events_snoc. destruct l as [ok|ev drop| | |]; simpl in Hn.
  - destruct pc; simplify_eq. simpl. split_and!; [done..|]. exists evs. rewrite app_nil_r.
    split_and!; [done..|]. intros _. by apply Hend.
  - assert (s' = Build_Stream wfID (if drop then out else try_send stream_cap ev out) cancelled
      (snapshot :: streamed wfID evs) pc) as ->.
    { by destruct pc, drop; simplify_eq; [destruct cancelled; simplify_eq|..|destruct cancelled; simplify_eq|]. }
    simpl. split; [done|]. split; [destruct drop; [done|by apply try_send_length]|]. exists evs.
    split; [done|]. split; [|done]. destruct drop; [by apply sublist_drop_new|]. unfold try_send.
    case_decide; [|by apply sublist_drop_new]. rewrite app_assoc. by apply sublist_app.
  - simplify_eq. simpl. split_and!; [done..|]. exists evs. by rewrite app_nil_r.
  - destruct pc; try done. destruct out as [|ev out]; [done|].
    destruct (sendWorkflowEvent wfID ev) as [msgs over] eqn:Hs. simplify_eq. simpl in *.
    split; [done|]. split; [lia|]. exists (evs ++ [ev]). rewrite app_nil_r, <-app_assoc. split.
    { unfold streamed. rewrite bind_app. simpl. by rewrite Hs, app_nil_r. }
    split; [done|]. destruct over; [done|]. intros _. apply Forall_app. split; [by apply Hend|].
    constructor; [|constructor]. unfold ends_stream. by rewrite Hs.
  - destruct pc; try done. destruct cancelled; simplify_eq. simpl. split_and!; [done..|]. exists evs. by rewrite app_nil_r.
Qed.

Lemma stream_run_ok {H} (e e' : Engine H) wfID now sendOK s0 tr s :
  StreamWorkflowEvents wfID now sendOK e e' = inr (Some s0) → stream_run s0 tr s →
  ∃ wf wf' evs, workflows e !! wfID = Some wf ∧ Workflow_IsFinished wf = false ∧
    wf' = default wf (workflows e' !! wfID) ∧ st_sent s = snapshotToEvent wf' now :: streamed wfID evs ∧
    evs ++ st_out s `sublist_of` handled_events tr ∧ length (st_out s) ≤ 64 ∧
    (st_pc s ≠ StreamClosed → Forall (λ ev, ¬ ends_stream wfID ev) evs).
Proof.
  unfold StreamWorkflowEvents, GetWorkflow. destruct (workflows e !! wfID) as [wf|]; [|done].
  destruct (Workflow_IsFinished wf) eqn:Hf; [done|]. destruct sendOK; [|done]. intros [= <-] Hrun. set (wf' := default wf (workflows e' !! wfID)) in *.
  exists wf, wf'. assert (stream_ok wfID (snapshotToEvent wf' now) tr s) as (_ & Hlen & evs & Hs & Hsub & Hend).
  { induction Hrun as [|tr s l s' _ IH Hn]; [|by eapply stream_step_ok].
    split_and!; [done|simpl; unfold stream_cap; lia|]. exists []. split_and!; [done..|]. constructor. }
  exists evs. split_and!; done.
Qed.

(** What a streaming client sees: first the snapshot, then a subsequence,
    in order and without repetition, of the events the bus passed to its
    handler; the buffer stays within 64 events, and as long as the stream is
    open no event that ends it was received. *)
Theorem stream_forwards_events {H} (e e' : Engine H) wfID now sendOK s0 tr s :
  StreamWorkflowEvents wfID now sendOK e e' = inr (Some s0) → stream_run s0 tr s →
  ∃ wf wf' evs, workflows e !! wfID = Some wf ∧ Workflow_IsFinished wf = false ∧
    wf' = default wf (workflows e' !! wfID) ∧ st_sent s = snapshotToEvent wf' now :: streamed wfID evs ∧
    evs ++ st_out s `sublist_of` handled_events tr ∧ length (st_out s) ≤ 64 ∧
    (st_pc s ≠ StreamClosed → Forall (λ ev, ¬ ends_stream wfID ev) evs).
Proof. apply stream_run_ok. Qed.

(** Runs the labels, when all are enabled. *)
Definition stream_exec (s0 : Stream) tr : option Stream :=
  foldl (λ (s : option Stream) l, s ← s; stream_next l s) (Some s0) tr.

Lemma stream_exec_run s0 tr s : stream_exec s0 tr = Some s → stream_run s0 tr s.
Proof.
  revert s. induction tr as [|l tr IH] using rev_ind; intros s; [intros [= <-]; constructor|].
  unfold stream_exec. rewrite foldl_app. simpl. fold (stream_exec s0 tr). intros (s1 & Hs1 & Hn)%bind_Some.
  econstructor; eauto.
Qed.
End stream.

(** ** Executions *)

Section demo.
#[local] Instance server_world : World := world_of shuffle_id ["u0"; "u1"; "u2"; "u3"; "u4"].

Definition demo_request : SubmitWorkflowRequest := {|
  sr_Name := "pipeline";
  sr_Tasks := [{| td_Name := "build"; td_DependsOn := ["fetch"]; td_Type := "shell"; td_Payload := "{}";
                  td_MaxRetries := 0; td_RetryBackoffSeconds := 0; td_TimeoutSeconds := 5 |};
               {| td_Name := "fetch"; td_DependsOn := []; td_Type := "shell"; td_Payload := "{}";
                  td_MaxRetries := 0; td_RetryBackoffSeconds := 0; td_TimeoutSeconds := 5 |}];
|}.

Definition server_bus : Bus event () :=
  match NewBus 0 with Ret b => b | _ => {| subs := ∅; next_sub := 0; subscribers := []; ch := []; bus_cap := 0;
    inflight := None; dispatching := true; EventBus.running := ∅; stopped := false; done_closed := false |} end.

Definition server_start : Engine () := NewWorkflowEngine server_bus true.

Definition server_engine : Engine () :=
  match SubmitWorkflow_rpc demo_request 0 server_start with Ret (_, e, _) => e | _ => server_start end.
Definition server_id : string :=
  match SubmitWorkflow_rpc demo_request 0 server_start with Ret (id, _, _) => id | _ => "" end.

(** The stream of this workflow, subscribed. *)
Definition demo_stream : Stream :=
  match StreamWorkflowEvents server_id 0 true server_engine server_engine with
  | inr (Some s) => s
  | _ => {| st_wfID := ""; st_out := []; st_cancelled := false; st_sent := []; st_pc := StreamClosed |}
  end.

Definition demo_stream_labels : list stream_label :=
  [StSubscribed true; StHandle (TaskStatusChangedEvent server_id "u1" TaskDispatched 7) false; StReceive].

Definition demo_streamed : Stream := default demo_stream (stream_exec demo_stream demo_stream_labels).

Lemma demo_streamed_run : stream_run demo_stream demo_stream_labels demo_streamed.
Proof. apply stream_exec_run. vm_compute. reflexivity. Qed.

Lemma stream_forwards_events_witness :
  st_pc demo_streamed = StreamLoop ∧
  ∃ wf evs, st_sent demo_streamed = snapshotToEvent wf 0 :: streamed server_id evs.
Proof.
  split; [vm_compute; reflexivity|].
  destruct (stream_forwards_events server_engine server_engine server_id 0 true demo_stream demo_stream_labels demo_streamed)
    as (_ & wf & evs & _ & _ & _ & Hs & _); [vm_compute; reflexivity|exact demo_streamed_run|].
  exists wf, evs. exact Hs.
Defined.

(** A stream is not confined to its workflow: task events of any workflow are
    forwarded, and the end of any workflow ends the stream, without the
    client being told the final status of its own. *)
Theorem stream_mixes_workflows :
  ∃ s, stream_run demo_stream
    [StSubscribed true; StHandle (TaskStatusChangedEvent "other" "t" TaskRunning 7) false; StReceive;
     StHandle (WorkflowStatusChangedEvent "other" WorkflowSucceeded 8) false; StReceive] s ∧
    server_id ≠ "other" ∧ st_pc s = StreamClosed ∧
    (we_WorkflowId <$> st_sent s) = [server_id; "other"] ∧ (we_Status <$> st_sent s) = ["RUNNING"; "RUNNING"].
Proof.
  eexists. split; [apply stream_exec_run; vm_compute; reflexivity|]. vm_compute. split_and!; [discriminate|reflexivity..].
Qed.
End demo.

(** A world whose generated identifiers are all distinct. *)
Section demo_uuid.
Fixpoint tally (n : nat) : string := match n with O => "u" | S n => "u" +:+ tally n end.

Lemma tally_length n : String.length (tally n) = S n.
Proof. induction n as [|n IH]; [done|]. change (S (String.length (tally n)) = S (S n)). by f_equal. Qed.

#[local] Instance tally_world : World := {| rng _ := shuffle_id; clk n := Z.of_nat n; uuid := tally |}.

Lemma SubmitWorkflow_rpc_correct_witness :
  ∃ id e' n', SubmitWorkflow_rpc demo_request 0 server_start = Ret (id, e', n') ∧
    definitions_valid (sr_Tasks demo_request).
Proof.
  pose proof (SubmitWorkflow_rpc_correct demo_request 0 server_start) as Hs.
  destruct (SubmitWorkflow_rpc demo_request 0 server_start) as [[[id e'] n']|err|] eqn:Hr;
    [|vm_compute in Hr; discriminate Hr..].
  exists id, e', n'. split; [done|]. apply Hs.
  - intros i j Heq. apply (f_equal String.length) in Heq. simpl in Heq. rewrite !tally_length in Heq. lia.
  - intros m _. apply lookup_empty.
Defined.
End demo_uuid.
