(* ===== verification/Polling.v ===== *)
(** * Readers without the mutex

    [GetWorkflow] of [server/grpc_orchestration_server.go] gets a pointer to
    the workflow under the engine's read lock, releases it and then reads the
    workflow's tasks one field after the other, while the engine goes on.  The
    handler is a state machine with one step per field it reads ([poll_next]);
    between two of them the engine makes any number of assignments
    ([engine_write]), also in the middle of a call, since a reader does not
    take the mutex.  Each single read is of the value last assigned. *)

From stdpp Require Import base gmap strings list relations.
From Stdlib Require Import ZArith Lia.
From S2P Require Import Prelude Status Domain Dag NewWorkflow EventBus Jobs GoFloat Engine WorkflowSpec.
From S2P Require Import EngineBase EngineProps EngineCauses EngineHistory EngineTheorems Registry Server.

(** ** The handler *)

(** [todo]: the keys the loop has not visited yet.  Of the current task [k],
    the fields that have been read. *)
Inductive poll_pc :=
  | PollStart
  | PollRange (todo : list string)
  | PollAssignedTo (k : string) (todo : list string) (status : string)
  | PollAttempt (k : string) (todo : list string) (status assignedTo : string)
  | PollResult (k : string) (todo : list string) (status assignedTo : string) (attempt : Z)
  | PollDone (r : rpc_error + WorkflowStatusResponse).

(** One call of the handler; [po_tasks] is the slice [tasks]. *)
Record Poll := {
  po_ID : string;
  po_tasks : list TaskStatusInfo;
  po_pc : poll_pc;
}.

Definition poll_start (workflowID : string) : Poll :=
  {| po_ID := workflowID; po_tasks := []; po_pc := PollStart |}.

Section poll.
Context `{W : World} {H : Type}.
Implicit Types (e : Engine H) (p : Poll) (w k : string) (r : TaskRef).

(** The next read; [n] is the tick of the loop over [workflow.Tasks].  [None]
    when the handler has returned, or on a nil pointer. *)
Definition poll_next (n : nat) e p : option Poll :=
  let 'Build_Poll w infos pc := p in
  let task k := get_task e {| ref_wf := w; ref_task := k |} in
  match pc with
  | PollStart =>
      match GetWorkflow e w with
      | inl err => Some (Build_Poll w infos (PollDone (inl (NotFound err))))
      | inr workflow => Some (Build_Poll w infos (PollRange (range_keys n (Tasks workflow))))
      end
  | PollRange (k :: todo) =>
      t ← task k; Some (Build_Poll w infos (PollAssignedTo k todo (TaskStatus_String (Task_GetStatus t))))
  | PollAssignedTo k todo status => t ← task k; Some (Build_Poll w infos (PollAttempt k todo status (AssignedTo t)))
  | PollAttempt k todo status assignedTo =>
      t ← task k; Some (Build_Poll w infos (PollResult k todo status assignedTo (wrap32 (Attempt t))))
  | PollResult k todo status assignedTo attempt =>
      t ← task k;
      let taskResp := {|
        ti_Id := task_ID t; ti_Name := task_Name t; ti_Status := status; ti_AssignedTo := assignedTo;
        ti_Attempt := attempt; ti_Error := match Task_GetResult t with Some res => res_Error res | None => "" end |} in
      Some (Build_Poll w (infos ++ [taskResp]) (PollRange todo))
  | PollRange [] =>
      workflow ← workflows e !! w;
      Some (Build_Poll w infos (PollDone (inr {|
        ws_WorkflowId := wf_ID workflow; ws_Name := wf_Name workflow;
        ws_Status := WorkflowStatus_String (Workflow_GetStatus workflow); ws_Tasks := infos |})))
  | PollDone _ => None
  end.

(** The handler beside the engine. *)
Inductive poll_step (n : nat) : relation (Engine H * Poll) :=
  | poll_reads e p p' : poll_next n e p = Some p' → poll_step n (e, p) (e, p')
  | poll_write e e' p : engine_write engine_move e e' → poll_step n (e, p) (e', p)
  | poll_other e e' p : workflows e' = workflows e → poll_step n (e, p) (e', p).

(** Runs the reads in the given states of the engine. *)
Fixpoint poll_exec (n : nat) (es : list (Engine H)) p : option Poll :=
  match es with
  | [] => Some p
  | e :: es => p ← poll_next n e p; poll_exec n es p
  end.

(** ** What assignments keep *)

Definition keeps e e' : Prop :=
  ∀ w wf, workflows e !! w = Some wf → ∃ wf', workflows e' !! w = Some wf' ∧ frozen_wf wf' = frozen_wf wf.

#[export] Instance keeps_preorder : PreOrder keeps.
Proof.
  split; [intros e w wf Hw; eauto|]. intros a b c Hab Hbc w wf Hw. destruct (Hab w wf Hw) as (wf1 & H1 & Hf1).
  destruct (Hbc w wf1 H1) as (wf2 & H2 & Hf2). exists wf2. split; [done|congruence].
Qed.

Lemma keeps_same e e' : workflows e' = workflows e → keeps e e'.
Proof. intros Heq w wf Hw. rewrite Heq. eauto. Qed.

Lemma keeps_mod_task e r f : (∀ t, get_task e r = Some t → frozen (f t) = frozen t) → keeps e (mod_task r f e).
Proof.
  intros Hf w wf Hw. unfold mod_task. rewrite workflows_set_workflows, lookup_alter. case_decide as Heq; [|by eauto].
  subst w. rewrite Hw. eexists. split; [done|]. destruct (Tasks wf !! ref_task r) as [t|] eqn:Ht.
  - rewrite (alter_alt_Some _ _ _ _ Ht). apply (frozen_wf_put _ _ t); [done|]. apply Hf.
    unfold get_task, tasks_of. by rewrite Hw.
  - assert (alter f (ref_task r) (Tasks wf) = Tasks wf) as ->; [|by destruct wf].
    apply map_eq. intros k. rewrite lookup_alter. case_decide; [|done]. subst k. by rewrite Ht.
Qed.

Lemma keeps_write edge e e' : engine_write edge e e' → keeps e e'.
Proof.
  intros [e1 r s _|e1 w s|e1 r f Hf _|e1 wf [Hfresh _ _ _]|e1 e2 Hw _].
  - unfold UpdateTaskStatus. destruct (get_task e1 r) as [t|] eqn:Ht; [|done]. unfold Task_UpdateStatus.
    destruct (TaskStatus_CanTransitTo _ _); [done|]. simpl.
    etrans; [|apply keeps_same, workflows_publish]. apply keeps_mod_task. intros t'. rewrite Ht. intros [= <-].
    apply frozen_status.
  - unfold UpdateWorkflowStatus. destruct (workflows e1 !! w) as [wf|] eqn:Hw; [|done]. unfold Workflow_UpdateStatus.
    destruct (WorkflowStatus_CanTransitTo _ _); [done|]. simpl.
    etrans; [|apply keeps_same, workflows_publish]. intros w' wf'. rewrite (mod_workflow_workflows _ _ _ _ Hw), lookup_insert.
    case_decide; [|by eauto]. subst w'. rewrite Hw. intros [= <-]. eexists. split; [done|apply frozen_wf_status].
  - by apply keeps_mod_task.
  - intros w' wf' Hw'. rewrite workflows_set_workflows, lookup_insert_ne by congruence. eauto.
  - by apply keeps_same.
Qed.

(** [e'] is [e] or comes later in the same history. *)
Definition later e e' : Prop :=
  keeps e e' ∧ (keyed e → keyed e' ∧ (∀ r, rtc engine_move (task_at e r) (task_at e' r)) ∧
    ∀ w, rtc workflow_step (workflow_at e w) (workflow_at e' w)).

#[export] Instance later_preorder : PreOrder later.
Proof.
  split; [intros e; split; [done|]; intros Hk; split; [done|]; by split|]. intros a b c [Hk1 H1] [Hk2 H2]. split; [by etrans|].
  intros (Hb & Ht1 & Hw1)%H1. destruct (H2 Hb) as (Hc & Ht2 & Hw2). split; [done|].
  split; [intros r; etrans; [apply Ht1|apply Ht2]|intros w; etrans; [apply Hw1|apply Hw2]].
Qed.

Lemma later_write e e' : engine_write engine_move e e' → later e e'.
Proof.
  intros Hw. split; [by eapply keeps_write|]. intros Hk.
  destruct (emits_writes engine_move e e' (writes_once _ _ _ Hw) Hk) as (Hk' & evs & _ & Ht & Hws).
  split; [done|]. split; intros ?; eapply path_rtc; [apply Ht|apply Hws].
Qed.

Lemma later_same e e' : workflows e' = workflows e → later e e'.
Proof.
  intros Hw. split; [by apply keeps_same|]. assert (∀ r, get_task e' r = get_task e r) as Hget by (intros r; by apply get_task_ext).
  intros Hk. split; [|split].
  - unfold keyed. rewrite Hw. by setoid_rewrite Hget.
  - intros r. by rewrite (task_at_ext e e').
  - intros w. unfold workflow_at. by rewrite Hw.
Qed.

(** The steps of the engine are such sequences, whatever the handler does. *)
Lemma poll_writes n e e' p : writes engine_move e e' → rtc (poll_step n) (e, p) (e', p).
Proof. induction 1 as [|e1 e2 e3 Hw _ IH]; [done|]. eapply rtc_l; [by apply poll_write|done]. Qed.

Lemma poll_engine_step n e e' p : engine_inv e → engine_step e e' → rtc (poll_step n) (e, p) (e', p).
Proof.
  pose proof forward_move as Hf. intros Hi Hs.
  destruct Hs as [e wf Hsub|e w k result|e r workerID|e w|e k|e workerID|e e' Heq];
    [apply poll_writes..|by apply rtc_once, poll_other].
  - exact (writes_SubmitWorkflow engine_move Hf e wf Hsub).
  - exact (writes_OnTaskResponse engine_move Hf e w k result Hi).
  - exact (writes_OnTaskDispatched engine_move Hf e r workerID).
  - exact (writes_CancelWorkflow engine_move Hf e w).
  - exact (writes_CancelTask engine_move Hf e k).
  - exact (writes_ReassignDeadWorkerTasks e workerID).
Qed.

Lemma poll_exec_steps n m e p p' : poll_exec n (replicate m e) p = Some p' → rtc (poll_step n) (e, p) (e, p').
Proof.
  revert p. induction m as [|m IH]; intros p; [by intros [= <-]|]. simpl. intros (p1 & Hn & Hx)%bind_Some.
  eapply rtc_l; [by apply poll_reads|by apply IH].
Qed.

Lemma later_task e e' r t : later e e' → get_task e r = Some t → ∃ t', get_task e' r = Some t' ∧ frozen t' = frozen t.
Proof.
  intros [Hk _]. unfold get_task, tasks_of. destruct (workflows e !! ref_wf r) as [wf|] eqn:Hw; [|done].
  destruct (Hk _ _ Hw) as (wf' & -> & Hf). simpl. intros Ht. apply (frozen_lookup wf wf' (ref_task r) t Hf) in Ht as (t' & -> & Hft).
  eauto.
Qed.

(** ** What the handler has seen *)

Definition task_ref w k : TaskRef := {| ref_wf := w; ref_task := k |}.

(** [str] names a status the task had between [e0] and [e]. *)
Definition status_seen e0 e r (str : string) : Prop :=
  is_Some (get_task e r) ∧
  ∃ st, str = TaskStatus_String st ∧ rtc engine_move (task_at e0 r) st ∧ rtc engine_move st (task_at e r).

Definition info_seen e0 e w (info : TaskStatusInfo) : Prop :=
  status_seen e0 e (task_ref w (ti_Id info)) (ti_Status info) ∧
  ∀ t, get_task e (task_ref w (ti_Id info)) = Some t → ti_Name info = task_Name t.

(** [ks] lists the tasks of the workflow. *)
Definition covers e w (ks : list string) : Prop :=
  is_Some (workflows e !! w) ∧ NoDup ks ∧ ∀ k, k ∈ ks ↔ is_Some (get_task e (task_ref w k)).

Definition response_seen e0 e w (resp : WorkflowStatusResponse) : Prop :=
  ws_WorkflowId resp = w ∧ (∀ wf, workflows e !! w = Some wf → ws_Name resp = wf_Name wf) ∧
  (∃ st, ws_Status resp = WorkflowStatus_String st ∧
    rtc workflow_step (workflow_at e0 w) st ∧ rtc workflow_step st (workflow_at e w)) ∧
  covers e w (ti_Id <$> ws_Tasks resp) ∧ Forall (info_seen e0 e w) (ws_Tasks resp).

Lemma status_seen_later e0 e e' r str : keyed e → later e e' → status_seen e0 e r str → status_seen e0 e' r str.
Proof.
  intros Hk Hl [[t Ht] (st & -> & H0 & H1)]. destruct (later_task _ _ _ _ Hl Ht) as (t' & Ht' & _).
  split; [by eexists|]. exists st. split; [done|]. split; [exact H0|]. etrans; [exact H1|].
  exact (proj1 (proj2 (proj2 Hl Hk)) r).
Qed.

Lemma frozen_Name t t' : frozen t' = frozen t → task_Name t' = task_Name t.
Proof. by destruct t, t'; intros [= ?]; simplify_eq/=. Qed.

Lemma info_seen_later e0 e e' w info : keyed e → later e e' → info_seen e0 e w info → info_seen e0 e' w info.
Proof.
  intros Hk Hl [Hs Hn]. split; [by eapply status_seen_later|]. intros t' Ht'.
  destruct Hs as [[t Ht] _]. destruct (later_task _ _ _ _ Hl Ht) as (t1 & Ht1 & Hf). simplify_eq.
  by rewrite (Hn t Ht), (frozen_Name _ _ Hf).
Qed.

Lemma covers_later e e' w ks : later e e' → covers e w ks → covers e' w ks.
Proof.
  intros [Hk _] ([wf Hw] & Hnd & Hks). destruct (Hk w wf Hw) as (wf' & Hw' & Hf). split; [by eexists|]. split; [done|].
  intros k. rewrite Hks. unfold get_task, tasks_of. simpl. rewrite Hw, Hw'. simpl.
  assert (frozen <$> Tasks wf' !! k = frozen <$> Tasks wf !! k) as Heq.
  { by rewrite <-!lookup_fmap, <-!frozen_wf_Tasks, Hf. }
  by rewrite <-(fmap_is_Some frozen (Tasks wf' !! k)), Heq, fmap_is_Some.
Qed.

Lemma response_seen_later e0 e e' w resp :
  keyed e → later e e' → response_seen e0 e w resp → response_seen e0 e' w resp.
Proof.
  intros Hk Hl (Hid & Hn & (st & Hst & H0 & H1) & Hc & Hi). split; [exact Hid|]. split; [|split; [|split]].
  - destruct Hc as [[wf Hw] _]. destruct Hl as [Hkeep _]. destruct (Hkeep w wf Hw) as (wf' & Hw' & Hf).
    rewrite Hw'. intros wf1 [= <-]. by rewrite (Hn wf Hw), (frozen_wf_Name _ _ Hf).
  - exists st. split; [exact Hst|]. split; [exact H0|]. etrans; [exact H1|]. exact (proj2 (proj2 (proj2 Hl Hk)) w).
  - by eapply covers_later.
  - eapply Forall_impl; [exact Hi|]. intros info. by apply info_seen_later.
Qed.

(** What holds between two steps of the handler. *)
Definition poll_ok e0 e p : Prop :=
  let w := po_ID p in
  let visited rest := covers e w ((ti_Id <$> po_tasks p) ++ rest) ∧ Forall (info_seen e0 e w) (po_tasks p) in
  match po_pc p with
  | PollStart => po_tasks p = []
  | PollRange todo => visited todo
  | PollAssignedTo k todo status | PollAttempt k todo status _ | PollResult k todo status _ _ =>
      visited (k :: todo) ∧ status_seen e0 e (task_ref w k) status
  | PollDone (inl err) => err = NotFound (WorkflowNotFound w) ∧ workflows e0 !! w = None
  | PollDone (inr resp) => response_seen e0 e w resp
  end.

Lemma poll_ok_later e0 e e' p : keyed e → later e e' → poll_ok e0 e p → poll_ok e0 e' p.
Proof.
  intros Hk Hl. assert (∀ rest, covers e (po_ID p) ((ti_Id <$> po_tasks p) ++ rest) ∧ Forall (info_seen e0 e (po_ID p)) (po_tasks p) →
    covers e' (po_ID p) ((ti_Id <$> po_tasks p) ++ rest) ∧ Forall (info_seen e0 e' (po_ID p)) (po_tasks p)) as Hv.
  { intros rest [Hc Hi]. split; [by eapply covers_later|]. eapply Forall_impl; [exact Hi|]. intros info. by apply info_seen_later. }
  unfold poll_ok. destruct (po_pc p) as [|todo|k todo st|k todo st a|k todo st a n|[err|resp]]; [done|by apply Hv| | | |done|].
  1-3: intros [H1 H2]; split; [by apply Hv|by eapply status_seen_later].
  by apply response_seen_later.
Qed.

(** The reads left once the workflow was found. *)
Definition reads_left p : nat :=
  match po_pc p with
  | PollStart | PollDone _ => 0
  | PollRange todo => 1 + 4 * length todo
  | PollAssignedTo _ todo _ => 4 + 4 * length todo
  | PollAttempt _ todo _ _ => 3 + 4 * length todo
  | PollResult _ todo _ _ _ => 2 + 4 * length todo
  end.

Lemma status_seen_now e0 e r t :
  keyed e0 → later e0 e → get_task e r = Some t → status_seen e0 e r (TaskStatus_String (Task_GetStatus t)).
Proof.
  intros Hk [_ Hl] Ht. destruct (Hl Hk) as (_ & Hm & _). split; [by eexists|]. exists (task_at e r).
  rewrite (task_at_Some _ _ _ Ht). split; [done|]. split; [|done]. rewrite <-(task_at_Some _ _ _ Ht). apply Hm.
Qed.

(** A pointer to a task of the loop is not nil. *)
Lemma covers_task e w l k todo : covers e w (l ++ k :: todo) → ∃ t, get_task e (task_ref w k) = Some t.
Proof. intros (_ & _ & Hks). apply Hks. apply elem_of_app. right. left. Qed.

(** The handler is never stuck before it returns, and every step keeps what it
    has seen true. *)
Lemma poll_next_ok n e0 e p :
  keyed e0 → later e0 e → poll_ok e0 e p →
  (∃ res, po_pc p = PollDone res) ∨
  ∃ p', poll_next n e p = Some p' ∧ poll_ok e0 e p' ∧ po_ID p' = po_ID p ∧
    (po_pc p = PollStart ∨ reads_left p' < reads_left p).
Proof.
  intros Hk0 Hl Hp. pose proof (proj1 (proj2 Hl Hk0)) as Hk. destruct p as [w infos pc]. unfold poll_ok in Hp. cbn [po_pc po_ID po_tasks] in Hp.
  destruct pc as [|[|k todo]|k todo st|k todo st a|k todo st a m|r]; [right..|left; by eexists].
  - subst infos. simpl. unfold GetWorkflow. destruct (workflows e !! w) as [wf|] eqn:Hw; eexists; (split; [reflexivity|]).
    + split; [|by auto]. unfold poll_ok. simpl. split; [|by constructor]. split; [by eexists|]. split; [apply NoDup_range_keys|].
      intros k. rewrite elem_of_range_keys. unfold get_task, tasks_of. simpl. by rewrite Hw.
    + split; [|by auto]. unfold poll_ok. simpl. split; [done|]. destruct (workflows e0 !! w) as [wf0|] eqn:Hw0; [|done].
      destruct (proj1 Hl w wf0 Hw0) as (wf' & Hw' & _). congruence.
  - destruct Hp as [Hc Hi]. rewrite app_nil_r in Hc. pose proof Hc as ([wf Hw] & _). simpl. rewrite Hw. simpl.
    eexists. split; [reflexivity|]. split; [|by auto]. unfold poll_ok. simpl. unfold response_seen. simpl.
    split; [by apply Hk|]. split; [intros wf'; rewrite Hw; by intros [= <-]|]. split; [|by split].
    exists (workflow_at e w). unfold Workflow_GetStatus. pose proof (proj2 (proj2 (proj2 Hl Hk0)) w) as Hm. unfold workflow_at at 1. rewrite Hw. done.
  - destruct Hp as [Hc Hi]. destruct (covers_task _ _ _ _ _ Hc) as [t Ht]. simpl. unfold task_ref in Ht. rewrite Ht. simpl.
    eexists. split; [reflexivity|]. split; [|split; [done|right; unfold reads_left; simpl; lia]]. unfold poll_ok. simpl.
    split; [by split|]. by apply status_seen_now.
  - destruct Hp as [[Hc Hi] Hs]. destruct (covers_task _ _ _ _ _ Hc) as [t Ht]. simpl. unfold task_ref in Ht. rewrite Ht. simpl.
    eexists. split; [reflexivity|]. split; [done|split; [done|right; unfold reads_left; simpl; lia]].
  - destruct Hp as [[Hc Hi] Hs]. destruct (covers_task _ _ _ _ _ Hc) as [t Ht]. simpl. unfold task_ref in Ht. rewrite Ht. simpl.
    eexists. split; [reflexivity|]. split; [done|split; [done|right; unfold reads_left; simpl; lia]].
  - destruct Hp as [[Hc Hi] Hs]. destruct (covers_task _ _ _ _ _ Hc) as [t Ht]. simpl. pose proof Ht as Ht'. unfold task_ref in Ht'. rewrite Ht'. simpl.
    eexists. split; [reflexivity|]. split; [|split; [done|right; unfold reads_left; simpl; lia]]. unfold poll_ok. simpl.
    destruct (proj2 Hk _ _ Ht) as [_ Hid]. rewrite fmap_app. simpl. rewrite Hid, <-app_assoc. split; [done|].
    apply Forall_app. split; [done|]. constructor; [|constructor]. unfold info_seen. simpl.
    split; [done|]. intros t'. rewrite Ht. by intros [= <-].
Qed.

Lemma poll_run_ok n e0 w e p :
  keyed e0 → rtc (poll_step n) (e0, poll_start w) (e, p) → later e0 e ∧ poll_ok e0 e p ∧ po_ID p = w.
Proof.
  intros Hk Hr.
  refine (rtc_invariant _ (λ x, later e0 x.1 ∧ poll_ok e0 x.1 x.2 ∧ po_ID x.2 = w) _ _ _ _ Hr); [by split|].
  intros x y (Hl & Hp & Hid) Hs. pose proof (proj1 (proj2 Hl Hk)) as Hk1.
  destruct Hs as [e1 p1 p' Hn|e1 e2 p1 Hw|e1 e2 p1 Hw]; simpl in *.
  - destruct (poll_next_ok n e0 e1 p1 Hk Hl Hp) as [[res Hd]|(p2 & Hn' & Hp' & Hid' & _)].
    + destruct p1 as [w1 infos pc]. simpl in Hd. by subst pc.
    + rewrite Hn in Hn'. injection Hn' as <-. split; [done|]. split; [done|congruence].
  - apply later_write in Hw. split; [by etrans|]. split; [by eapply poll_ok_later|done].
  - apply later_same in Hw. split; [by etrans|]. split; [by eapply poll_ok_later|done].
Qed.

Lemma poll_exec_app n es es' p : poll_exec n (es ++ es') p = p ← poll_exec n es p; poll_exec n es' p.
Proof. revert p. induction es as [|e es IH]; intros p; [done|]. simpl. destruct (poll_next n e p); [apply IH|done]. Qed.

(** Alone with the engine, the handler answers with the workflow as it is. *)
Lemma poll_tasks_alone n e w wf todo infos :
  workflows e !! w = Some wf → (∀ k, k ∈ todo → is_Some (Tasks wf !! k)) →
  ∃ m, poll_exec n (replicate m e) (Build_Poll w infos (PollRange todo)) =
    Some (Build_Poll w (infos ++ omap (λ k, TaskStatusInfo_of <$> Tasks wf !! k) todo) (PollRange [])).
Proof.
  intros Hw. revert infos. induction todo as [|k todo IH]; intros infos Htodo; [exists 0; simpl; by rewrite app_nil_r|].
  destruct (Htodo k) as [t Ht]; [left|].
  assert (get_task e {| ref_wf := w; ref_task := k |} = Some t) as Hget by (unfold get_task, tasks_of; simpl; by rewrite Hw).
  destruct (IH (infos ++ [TaskStatusInfo_of t])) as [m Hm]; [intros k' Hk'; apply Htodo; by right|].
  exists (4 + m). rewrite replicate_add, poll_exec_app.
  assert (poll_exec n (replicate 4 e) (Build_Poll w infos (PollRange (k :: todo))) =
    Some (Build_Poll w (infos ++ [TaskStatusInfo_of t]) (PollRange todo))) as ->.
  { simpl. rewrite Hget. simpl. rewrite Hget. simpl. rewrite Hget. simpl. by rewrite Hget. }
  simpl. rewrite Hm, Ht. simpl. by rewrite <-app_assoc.
Qed.

(** Without assignments in between it answers as [GetWorkflow_rpc] does. *)
Theorem poll_alone n e w :
  ∃ m p, poll_exec n (replicate m e) (poll_start w) = Some p ∧ po_pc p = PollDone (GetWorkflow_rpc w n e).
Proof.
  unfold GetWorkflow_rpc, GetWorkflow. destruct (workflows e !! w) as [wf|] eqn:Hw.
  - destruct (poll_tasks_alone n e w wf (range_keys n (Tasks wf)) [] Hw) as [m Hm].
    { intros k. by rewrite elem_of_range_keys. }
    exists (1 + (m + 1)). eexists. rewrite !replicate_add, !poll_exec_app. simpl. unfold GetWorkflow. rewrite Hw. simpl.
    rewrite poll_exec_app, Hm. simpl. rewrite Hw. simpl. by split.
  - exists 1. eexists. simpl. unfold GetWorkflow. rewrite Hw. done.
Qed.

(** ** What a client learns *)

Lemma rtc_stuck {A} (R : relation A) x y : rtc R x y → (∀ z, ¬ R x z) → y = x.
Proof. intros [|a b c Hab _] Hs; [done|]. by destruct (Hs b). Qed.

Lemma info_seen_meaning e0 e w wf info :
  engine_inv e → workflows e !! w = Some wf → info_seen e0 e w info →
  ∃ t st, Tasks wf !! ti_Id info = Some t ∧ ti_Name info = task_Name t ∧ ti_Status info = TaskStatus_String st ∧
    rtc engine_move (task_at e0 (task_ref w (ti_Id info))) st ∧ rtc engine_move st (task_status t) ∧
    (finished st → task_status t = st ∧
      (st ≠ TaskCancelled → ∀ d, d ∈ DependsOn t → ∃ td, Tasks wf !! d = Some td ∧ task_status td = TaskSucceeded)).
Proof.
  intros Hi Hw [[[t Ht] (st & Hst & H0 & H1)] Hn]. rewrite (task_at_Some _ _ _ Ht) in H1.
  assert (∀ d, get_task e (task_ref w d) = Tasks wf !! d) as Hget by (intros d; unfold get_task, tasks_of; simpl; by rewrite Hw).
  exists t, st. rewrite <-Hget. split; [done|]. split; [by apply Hn|]. split; [done|]. split; [done|]. split; [done|].
  intros Hf. assert (task_status t = st) as Heq by (eapply rtc_stuck; [exact H1|intros st'; by apply finished_no_move]).
  split; [done|]. intros Hc d Hd.
  assert (started (task_status t)) as Hs by (rewrite Heq; destruct Hf as [->|[->| ->]]; by_status).
  destruct (started_deps_done e _ t Hi Ht Hs d Hd) as (td & Htd & Hsd). exists td. split; [|done]. by rewrite <-Hget.
Qed.

(** C11. What polling a workflow shows, while the engine goes on between any
    two reads of the handler, even in the middle of a call: NOT_FOUND only if
    the workflow was not stored when the request came; otherwise every task
    exactly once, under its name, each with a status it had at some moment of
    the call; a final status is the task's for good, and dependencies of a task
    shown SUCCEEDED or FAILED have succeeded.  The workflow's status is one it
    had during the call, and a terminal one is final and all tasks are then
    finished, whatever status the same response shows for them. *)
Theorem polled_workflow n e0 w e p res :
  reachable e0 → rtc (poll_step n) (e0, poll_start w) (e, p) → po_pc p = PollDone res → reachable e →
  match res with
  | inl err => err = NotFound (WorkflowNotFound w) ∧ workflows e0 !! w = None
  | inr resp =>
      ∃ wf, workflows e !! w = Some wf ∧ ws_WorkflowId resp = w ∧ ws_Name resp = wf_Name wf ∧
        NoDup (ti_Id <$> ws_Tasks resp) ∧ (∀ k, k ∈ ti_Id <$> ws_Tasks resp ↔ is_Some (Tasks wf !! k)) ∧
        (∀ info, info ∈ ws_Tasks resp → ∃ t st, Tasks wf !! ti_Id info = Some t ∧ ti_Name info = task_Name t ∧
          ti_Status info = TaskStatus_String st ∧
          rtc engine_move (task_at e0 (task_ref w (ti_Id info))) st ∧ rtc engine_move st (task_status t) ∧
          (finished st → task_status t = st ∧
            (st ≠ TaskCancelled → ∀ d, d ∈ DependsOn t →
              ∃ td, Tasks wf !! d = Some td ∧ task_status td = TaskSucceeded))) ∧
        ∃ st, ws_Status resp = WorkflowStatus_String st ∧
          rtc workflow_step (workflow_at e0 w) st ∧ rtc workflow_step st (wf_status wf) ∧
          (WorkflowStatus_IsTerminated st = true →
            wf_status wf = st ∧ ∀ k t, Tasks wf !! k = Some t → finished (task_status t))
  end.
Proof.
  intros Hi0%reachable_inv Hr Hd Hi%reachable_inv.
  destruct (poll_run_ok n e0 w e p (engine_inv_keyed _ Hi0) Hr) as (_ & Hok & Hid).
  unfold poll_ok in Hok. rewrite Hd, Hid in Hok. destruct res as [err|resp]; [done|].
  destruct Hok as (Hrid & Hn & (st & Hst & H0 & H1) & ([wf Hw] & Hnd & Hks) & Hinfos).
  assert (∀ k, get_task e (task_ref w k) = Tasks wf !! k) as Hget by (intros k; unfold get_task, tasks_of; simpl; by rewrite Hw).
  exists wf. split; [done|]. split; [done|]. split; [by apply Hn|]. split; [done|].
  split; [intros k; by rewrite Hks, Hget|]. split.
  - intros info Hin. apply (info_seen_meaning e0 e w wf info Hi Hw). by eapply Forall_forall in Hinfos.
  - exists st. assert (workflow_at e w = wf_status wf) as Heq by (unfold workflow_at; by rewrite Hw). rewrite Heq in H1.
    split; [done|]. split; [done|]. split; [done|]. intros Ht.
    assert (wf_status wf = st) as Hs by (eapply rtc_stuck; [exact H1|intros st'; by apply workflow_terminal_stuck]).
    split; [done|]. intros k t Hk. destruct (engine_inv_wf _ _ _ Hi Hw) as (_ & _ & [_ _ Ho] & _).
    rewrite Hs in Ho. apply (status_terminal_finished _ _ Ho Ht k). by apply task_statuses_Some; eauto.
Qed.

(** The handler returns: it is never stuck on a nil pointer, and once it has
    found the workflow each of its reads leaves fewer to do, whatever the
    engine does in between. *)
Theorem poll_returns n e0 w e p :
  reachable e0 → rtc (poll_step n) (e0, poll_start w) (e, p) →
  (∃ res, po_pc p = PollDone res) ∨
  ∃ p', poll_next n e p = Some p' ∧ (po_pc p = PollStart ∨ reads_left p' < reads_left p).
Proof.
  intros Hi%reachable_inv%engine_inv_keyed Hr. destruct (poll_run_ok n e0 w e p Hi Hr) as (Hl & Hok & _).
  destruct (poll_next_ok n e0 e p Hi Hl Hok) as [Hd|(p' & Hn & _ & _ & Hlt)]; [by left|right]. by exists p'.
Qed.
End poll.

(** ** Executions *)

Section demo.
#[local] Existing Instance engine_world.

(** The client asks for the workflow of [demo3]; [CancelWorkflow] comes before
    the handler's last read. *)
Definition demo_cancelled : Engine () := (CancelWorkflow demo3 demo_id).2.
Definition demo_polling : Poll := default (poll_start "") (poll_exec 0 (replicate 17 demo3) (poll_start demo_id)).
Definition demo_polled : Poll := default (poll_start "") (poll_next 0 demo_cancelled demo_polling).
Definition response_of (p : Poll) : WorkflowStatusResponse :=
  match po_pc p with
  | PollDone (inr resp) => resp
  | _ => {| ws_WorkflowId := ""; ws_Name := ""; ws_Status := ""; ws_Tasks := [] |}
  end.

(** The statuses in a response, by the names of the tasks. *)
Definition statuses_in (resp : WorkflowStatusResponse) : list (string * string) :=
  (λ info, (ti_Name info, ti_Status info)) <$> ws_Tasks resp.

Definition errors_in (resp : WorkflowStatusResponse) : list (string * string) :=
  (λ info, (ti_Name info, ti_Error info)) <$> ws_Tasks resp.

Lemma demo_polled_run : rtc (poll_step 0) (demo3, poll_start demo_id) (demo_cancelled, demo_polled).
Proof.
  etrans; [apply (poll_exec_steps 0 17 _ _ demo_polling); vm_compute; reflexivity|].
  etrans; [apply (poll_engine_step 0 demo3 demo_cancelled _ (reachable_inv _ demo3_reachable) (step_cancel_workflow demo3 demo_id))|].
  apply rtc_once, poll_reads. vm_compute. reflexivity.
Qed.

Lemma demo_polled_done : po_pc demo_polled = PollDone (inr (response_of demo_polled)).
Proof. vm_compute. reflexivity. Qed.

Lemma demo_cancelled_reachable : reachable demo_cancelled.
Proof. apply (reachable_steps demo2); [exact demo2_reachable|exact demo2_steps]. Qed.

(** One response shows a cancelled workflow with tasks that have not finished. *)
Theorem torn_response :
  rtc (poll_step 0) (demo3, poll_start demo_id) (demo_cancelled, demo_polled) ∧
  ws_Status (response_of demo_polled) = "CANCELLED" ∧
  statuses_in (response_of demo_polled) =
    [("lint", "READY"); ("build", "DISPATCHED"); ("fetch", "SUCCEEDED"); ("test", "PENDING")].
Proof. split; [exact demo_polled_run|]. vm_compute. by split. Qed.

Lemma polled_workflow_witness :
  ws_Status (response_of demo_polled) = "CANCELLED" ∧
  ∃ wf st, workflows demo_cancelled !! demo_id = Some wf ∧ ws_Status (response_of demo_polled) = WorkflowStatus_String st ∧
    rtc workflow_step st (wf_status wf).
Proof.
  split; [vm_compute; reflexivity|].
  destruct (polled_workflow 0 demo3 demo_id demo_cancelled demo_polled _ demo3_reachable demo_polled_run demo_polled_done
    demo_cancelled_reachable) as (wf & Hw & _ & _ & _ & _ & _ & st & Hst & _ & Hs & _).
  exists wf, st. split; [exact Hw|]. split; [exact Hst|exact Hs].
Defined.

(** [OnTaskResponse] assigns the status before the result: read in between, a
    task has failed without an error. *)
Definition demo_error : TaskResult :=
  {| res_Status := TaskFailed; ExitCode := 1; Stdout := ""; Stderr := ""; res_Error := "exit status 1"; Duration := 0 |}.
Definition demo_failed : Engine () := (UpdateTaskStatus demo3 (demo_ref "b") TaskFailed).2.
Definition demo_failed_result : Engine () := mod_task (demo_ref "b") (Task_SetResult (Some demo_error)) demo_failed.
Definition poll_in (e : Engine ()) : WorkflowStatusResponse :=
  response_of (default (poll_start "") (poll_exec 0 (replicate 18 e) (poll_start demo_id))).

Theorem failed_without_error :
  ("build", "FAILED") ∈ statuses_in (poll_in demo_failed) ∧ ("build", "") ∈ errors_in (poll_in demo_failed) ∧
  ("build", "FAILED") ∈ statuses_in (poll_in demo_failed_result) ∧
  ("build", "exit status 1") ∈ errors_in (poll_in demo_failed_result).
Proof.
  assert (statuses_in (poll_in demo_failed) = [("lint", "READY"); ("build", "FAILED"); ("fetch", "SUCCEEDED"); ("test", "PENDING")])
    as -> by (vm_compute; reflexivity).
  assert (errors_in (poll_in demo_failed) = [("lint", ""); ("build", ""); ("fetch", ""); ("test", "")])
    as -> by (vm_compute; reflexivity).
  assert (statuses_in (poll_in demo_failed_result) =
    [("lint", "READY"); ("build", "FAILED"); ("fetch", "SUCCEEDED"); ("test", "PENDING")]) as -> by (vm_compute; reflexivity).
  assert (errors_in (poll_in demo_failed_result) = [("lint", ""); ("build", "exit status 1"); ("fetch", ""); ("test", "")])
    as -> by (vm_compute; reflexivity).
  rewrite !elem_of_cons. tauto.
Qed.

(** The check of [StreamWorkflowEvents] passes in [demo3]; the snapshot it
    sends already shows the workflow CANCELLED, and the stream stays open. *)
Theorem snapshot_after_the_end :
  StreamWorkflowEvents demo_id 0 true demo3 demo_cancelled =
    inr (Some {| st_wfID := demo_id; st_out := []; st_cancelled := false; st_pc := StreamSubscribing;
                 st_sent := [{| we_WorkflowId := demo_id; we_TaskId := ""; we_Status := "CANCELLED"; we_Timestamp := 0 |}] |}).
Proof. vm_compute. reflexivity. Qed.
End demo.
