(* ===== verification/System.v ===== *)
(** * The control plane

    [cmd/control-plane/main.go] connects the parts: the scheduler's goroutine
    ([Scheduler.Run], [assignOnce] and [commitAssignment]), the registry's
    dead man's switch with the death hook [main] installs, and the handlers of
    the two gRPC services.  They share the engine (one mutex), the ready queue
    (its own), the registry (its own) and the worker client (its own), so an
    execution is an interleaving of their critical sections.  [sys_next] is one
    such section or one step between two sections; a step that would have to
    wait for a mutex is not enabled.

    The engine calls [Push] on the ready queue while it holds its own mutex,
    and the scheduler's [PopBatch] may come between two such calls; the label
    [LPop] therefore says how much of the queue was there when it was popped. *)

From stdpp Require Import base gmap strings list relations.
From Stdlib Require Import ZArith Lia.
From S2P Require Import Prelude Status Domain Dag EventBus GoFloat Jobs RetryQueue Registry Scheduler Client.
From S2P Require Import Engine WorkflowSpec EngineBase EngineProps EngineQueue.

(** The hook [main] passes to [OnWorkerDead]: [CloseConn], then
    [ReassignDeadWorkerTasks]. *)
Inductive death_hook := CloseAndReassign.

(** Where [checkHeartbeat] is: between its reads and [updateWorkerStatus];
    inside [updateWorkerStatus], holding the registry's mutex, with a hook's
    first or second call to make and the hooks after it; or returned, before
    [RunLoop] has renewed or cancelled the trigger. *)
Inductive probe_pc :=
  | ProbeNone
  | ProbeVerdict (workerID : string) (status : WorkerStatus) (again : bool)
  | ProbeClose (workerID : string) (again : bool) (hooks : list death_hook)
  | ProbeReassign (workerID : string) (again : bool) (hooks : list death_hook)
  | ProbeReturn (workerID : string) (again : bool).

Section system.
Context `{W : World} `{LS : LargeSort} {H Conn : Type} (NewClient : string → option Conn).

(** Where the scheduler's goroutine is, with the snapshot of the workers and
    the jobs of the batch still to do. *)
Inductive sched_pc :=
  | SchedIdle                                    (* the select of [Run] *)
  | SchedPopped (jobs : list (Job TaskRef))      (* batch taken, no snapshot yet *)
  | SchedLoop (ws : list WorkerNode) (jobs : list (Job TaskRef))
  | SchedDispatch (ws : list WorkerNode) (jobs : list (Job TaskRef)) (job : Job TaskRef) (workerID : string)
  | SchedDial (ws : list WorkerNode) (jobs : list (Job TaskRef)) (job : Job TaskRef) (workerID : string)
      (* in [getOrDial], holding the client's mutex, no connection cached *)
  | SchedRPC (ws : list WorkerNode) (jobs : list (Job TaskRef)) (job : Job TaskRef) (workerID : string) (conn : Conn)
  | SchedCallback (ws : list WorkerNode) (jobs : list (Job TaskRef)) (job : Job TaskRef) (workerID : string)
      (* the RPC returned a response *)
  | SchedIncrement (ws : list WorkerNode) (jobs : list (Job TaskRef)) (workerID : string)
  | SchedRequeue (ws : list WorkerNode) (jobs : list (Job TaskRef)) (job : Job TaskRef).

Record System := {
  eng : Engine H;
  reg : WorkerRegistry death_hook;
  registering : list string;          (* [Register] calls before their [Push] *)
  conns : Conns Conn;
  sched : sched_pc;
  probing : probe_pc;
  delivered : list (Conn * option DispatchRequest);  (* dispatch requests that reached a worker *)
}.

Definition set_eng v (s : System) : System :=
  let 'Build_System _ r g c p b d := s in Build_System v r g c p b d.
Definition set_reg v (s : System) : System :=
  let 'Build_System e _ g c p b d := s in Build_System e v g c p b d.
Definition set_registering v (s : System) : System :=
  let 'Build_System e r _ c p b d := s in Build_System e r v c p b d.
Definition set_conns v (s : System) : System :=
  let 'Build_System e r g _ p b d := s in Build_System e r g v p b d.
Definition set_sched v (s : System) : System :=
  let 'Build_System e r g c _ b d := s in Build_System e r g c v b d.
Definition set_probing v (s : System) : System :=
  let 'Build_System e r g c p _ d := s in Build_System e r g c p v d.
Definition set_delivered v (s : System) : System :=
  let 'Build_System e r g c p b _ := s in Build_System e r g c p b v.

(** [main]: the registry with its one hook, the bus of the given capacity. *)
Definition sys_start (bus : Bus event H) : System := {|
  eng := NewWorkflowEngine bus true;
  reg := OnWorkerDead CloseAndReassign NewWorkerRegistry;
  registering := []; conns := NewWorkerClient; sched := SchedIdle; probing := ProbeNone; delivered := [];
|}.

(** The mutexes held across steps: the registry's while a death hook runs, the
    client's while the scheduler dials. *)
Definition registry_locked (s : System) : bool :=
  match probing s with ProbeClose _ _ _ | ProbeReassign _ _ _ => true | _ => false end.

Definition client_locked (s : System) : bool :=
  match sched s with SchedDial _ _ _ _ => true | _ => false end.

(** ** The scheduler's goroutine *)

Inductive sched_label :=
  | LPop (visible : nat)                           (* a tick: [PopBatch] *)
  | LSched                                         (* the next step of the pass *)
  | LReply (arrived : bool) (resp : option bool).
      (* the RPC returns: did it reach the worker; response ([Accepted]) or
         error.  A step of the environment: [Dispatch] sets no deadline, so in
         some executions it never comes. *)

Definition sched_next (l : sched_label) (s : System) : option (outcome () System) :=
  match l, sched s with
  | LPop visible, SchedIdle =>
      Some ('(batch, rest) ← PopBatch 50 (take visible (queue (eng s)));
            let s := set_eng (set_queue (rest ++ drop visible (queue (eng s))) (eng s)) s in
            Ret (set_sched (match batch with [] => SchedIdle | _ => SchedPopped batch end) s))
  | LSched, SchedPopped jobs =>
      if registry_locked s then None
      else let '(ws, r) := AliveWorkers (reg s) in Some (Ret (set_sched (SchedLoop ws jobs) (set_reg r s)))
  | LSched, SchedLoop _ [] => Some (Ret (set_sched SchedIdle s))
  | LSched, SchedLoop ws (job :: jobs) =>
      match selectWorker ws (DispatchRequest_GetType (Request job)) with
      | inl _ => Some (Ret (set_sched (SchedRequeue ws jobs job) s))
      | inr workerID => Some (Ret (set_sched (SchedDispatch ws jobs job workerID) s))
      end
  | LSched, SchedDispatch ws jobs job workerID =>
      match getOrDial_cached workerID (conns s) with
      | Some conn => Some (Ret (set_sched (SchedRPC ws jobs job workerID conn) s))
      | None => Some (Ret (set_sched (SchedDial ws jobs job workerID) s))
      end
  | LSched, SchedDial ws jobs job workerID =>
      if registry_locked s then None
      else match getOrDial_dial NewClient workerID (AddressOf workerID (reg s)) (conns s) with
           | (Some conn, cs) => Some (Ret (set_sched (SchedRPC ws jobs job workerID conn) (set_conns cs s)))
           | (None, cs) => Some (Ret (set_sched (SchedRequeue ws jobs job) (set_conns cs s)))
           end
  | LReply arrived resp, SchedRPC ws jobs job workerID conn =>
      let s := if arrived then set_delivered (delivered s ++ [(conn, Request job)]) s else s in
      match resp with
      | Some _ => if arrived then Some (Ret (set_sched (SchedCallback ws jobs job workerID) s)) else None
      | None => Some (Ret (set_sched (SchedRequeue ws jobs job) s))
      end
  | LSched, SchedCallback ws jobs job workerID =>
      match OnDispatched job with
      | None => Some (Ret (set_sched (SchedRequeue ws jobs job) s))
      | Some r => Some (Ret (set_sched (SchedIncrement ws jobs workerID)
                                (set_eng (OnTaskDispatched (eng s) r workerID) s)))
      end
  | LSched, SchedIncrement ws jobs workerID =>
      if registry_locked s then None
      else Some (Ret (set_sched (SchedLoop ws jobs) (set_reg (IncrementRunning workerID (reg s)) s)))
  | LSched, SchedRequeue ws jobs job =>
      Some (Ret (set_sched (SchedLoop ws jobs) (set_eng (set_queue (Jobs.Push job (queue (eng s))) (eng s)) s)))
  | _, _ => None
  end.

(** ** The registry's goroutine *)

(** [q] with the iteration of [RunLoop] advanced. *)
Definition with_queue (o : outcome () (RetryQueue string)) (s : System) : outcome () System :=
  q ← o; Ret (set_reg (set_retryQueue q (reg s)) s).

(** [RunLoop] acts on what the probe returned. *)
Definition probe_done (again : bool) (now : Z) (s : System) : outcome () System :=
  let s := set_probing ProbeNone s in
  let q := retryQueue (reg s) in
  match loop q with
  | RqDoing trigger t => with_queue (Ret (loop_done again now trigger t q)) s
  | _ => Ret s
  end.

(** The hooks still to run, or the return of [checkHeartbeat]. *)
Definition run_hooks (workerID : string) (again : bool) (hooks : list death_hook) (s : System) : System :=
  set_probing (match hooks with
               | [] => ProbeReturn workerID again
               | CloseAndReassign :: hooks => ProbeClose workerID again hooks
               end) s.

Definition probe_next (now : Z) (s : System) : option (outcome () System) :=
  let q := retryQueue (reg s) in
  match probing s with
  | ProbeClose workerID again hooks =>
      if client_locked s then None
      else Some (Ret (set_probing (ProbeReassign workerID again hooks) (set_conns (CloseConn workerID (conns s)) s)))
  | ProbeReassign workerID again hooks =>
      Some (Ret (run_hooks workerID again hooks (set_eng (ReassignDeadWorkerTasks (eng s) workerID) s)))
  | ProbeVerdict workerID status again =>
      let '(hooks, r) := updateWorkerStatus workerID status (reg s) in
      Some (Ret (run_hooks workerID again hooks (set_reg r s)))
  | ProbeReturn _ again => Some (probe_done again now s)
  | ProbeNone =>
      match loop q with
      | RqSelect => Some (with_queue (Ret (loop_select q)) s)
      | RqTake => Some (with_queue (loop_take q) s)
      | RqTaken trigger t => Some (with_queue (Ret (loop_check now trigger t q)) s)
      | RqDoing trigger t =>
          Some (Ret (set_probing match checkVerdict (tr_do trigger) now (reg s) with
                                 | None => ProbeReturn (tr_do trigger) false
                                 | Some (status, again) => ProbeVerdict (tr_do trigger) status again
                                 end s))
      | RqPut trigger t => Some (with_queue (loop_put trigger t q) s)
      | RqReturned => None
      end
  end.

(** ** The handlers and the bus *)

Inductive sys_label :=
  | LSubmit (wf : Workflow)
  | LResponse (workflowID taskID : string) (result : TaskResult)
  | LCancelWorkflow (workflowID : string)
  | LCancelTask (taskID : string)
  | LRegister (w : WorkerNode) (now : Z)
  | LRegisterPush (i : nat) (now : Z)
  | LHeartbeat (workerID : string) (runningTasks now : Z)
  | LNotify (workerID : string)                   (* a CancelTasks goroutine in [getOrDial] *)
  | LBus (l : bus_label event H)                  (* subscriptions and the bus's goroutines *)
  | LScheduler (l : sched_label)
  | LProbe (now : Z).

(** Only the engine publishes, in its own methods.  A call of the engine is one
    step, so the bus's goroutines do not move between two of its [Publish]es. *)
Definition is_publish (l : bus_label event H) : bool := match l with LPublish _ => true | _ => false end.

Definition sys_next (l : sys_label) (s : System) : option (outcome () System) :=
  match l with
  | LSubmit wf => Some (Ret (set_eng (SubmitWorkflow (eng s) wf).2 s))
  | LResponse w k result => Some (Ret (set_eng (OnTaskResponse (eng s) w k result).2 s))
  | LCancelWorkflow w => Some (Ret (set_eng (CancelWorkflow (eng s) w).2 s))
  | LCancelTask k => Some (Ret (set_eng (CancelTask (eng s) k).2 s))
  | LRegister w now =>
      if registry_locked s then None
      else Some (Ret (set_registering (registering s ++ [node_ID w]) (set_reg (register_store w now (reg s)) s)))
  | LRegisterPush i now =>
      match registering s !! i with
      | None => None
      | Some workerID =>
          Some (r ← register_push workerID now (reg s);
                Ret (set_registering (delete i (registering s)) (set_reg r s)))
      end
  | LHeartbeat workerID runningTasks now =>
      if registry_locked s then None
      else Some (Ret (set_reg (Heartbeat workerID runningTasks now (reg s)).2 s))
  | LNotify workerID =>
      if client_locked s || bool_decide (getOrDial_cached workerID (conns s) = None) && registry_locked s then None
      else Some (Ret (set_conns (getOrDial NewClient (λ id, AddressOf id (reg s)) workerID (conns s)).2 s))
  | LBus l =>
      if is_publish l then None else b ← bus_next l (eventBus (eng s)); Some (Ret (set_eng (set_bus b (eng s)) s))
  | LScheduler l => sched_next l s
  | LProbe now => probe_next now s
  end.

(** A submitted workflow comes from [NewWorkflow] and has a fresh ID. *)
Definition label_ok (l : sys_label) (s : System) : Prop :=
  match l with LSubmit wf => submittable (eng s) wf | _ => True end.

Definition sys_step (s s' : System) : Prop := ∃ l, label_ok l s ∧ sys_next l s = Some (Ret s').

Definition sys_reachable (s : System) : Prop := ∃ bus, rtc sys_step (sys_start bus) s.
(** ** Every ready task has exactly one job *)

Implicit Types (e : Engine H) (s : System) (r : TaskRef).

(** The jobs the scheduler's goroutine holds. *)
Definition sched_jobs (pc : sched_pc) : list (Job TaskRef) :=
  match pc with
  | SchedIdle => []
  | SchedPopped jobs | SchedLoop _ jobs | SchedIncrement _ jobs _ => jobs
  | SchedDispatch _ jobs job _ | SchedDial _ jobs job _ | SchedRPC _ jobs job _ _
  | SchedCallback _ jobs job _ | SchedRequeue _ jobs job => job :: jobs
  end.

Definition outstanding (s : System) : list (Job TaskRef) := queue (eng s) ++ sched_jobs (sched s).

(** The number of jobs of a task in each of its phases. *)
Definition held (p n : nat) : Prop := (p = 0 → n = 0) ∧ (p = 1 → n = 1) ∧ n ≤ 1.

Record sys_inv (s : System) : Prop := {
  si_engine : engine_inv (eng s);
  si_jobs j : j ∈ outstanding s → job_ok (eng s) j;
  si_held r : held (phase (eng s) r) (jobs_for r (outstanding s));
  si_delivered c req : (c, req) ∈ delivered s → ∃ j, job_ok (eng s) j ∧ Request j = req;
}.

#[export] Instance jobs_for_proper r : Proper ((≡ₚ) ==> (=)) (jobs_for r).
Proof. intros q q' Hq. unfold jobs_for, targets. by rewrite Hq. Qed.

Lemma held_pushes p p' n m : held p n → pushes p p' m → held p' (n + m).
Proof. unfold held, pushes. destruct p as [|[|?]], p' as [|[|?]]; lia. Qed.

(** A call of the engine. *)
Lemma sys_inv_grows s e' : sys_inv s → grows (eng s) e' → engine_inv e' → sys_inv (set_eng e' s).
Proof.
  destruct s as [e rg g c p b d]. intros [Hi Hj Hh Hd] Hg Hi'. unfold outstanding in *. simpl in *.
  pose proof Hg as [_ (js & Hq & Hjs & Hp)]. split; unfold outstanding; simpl; [done|..].
  - rewrite Hq, <-app_assoc. intros j. rewrite !elem_of_app. intros [Hin|[Hin|Hin]]; [|by apply Hjs|];
      (eapply job_ok_grows; [exact Hg|]); apply Hj; rewrite elem_of_app; auto.
  - intros r. rewrite Hq, <-app_assoc, (Permutation_app_comm js), app_assoc, jobs_for_app.
    eapply held_pushes; [apply Hh|apply Hp].
  - intros conn req Hin. destruct (Hd conn req Hin) as (j & Hok & Hr). exists j.
    split; [by eapply job_ok_grows|done].
Qed.

Lemma job_ok_ext e e' j : workflows e' = workflows e → job_ok e j → job_ok e' j.
Proof. intros Hw (r & t & Hr & Hj). exists r, t. by rewrite (get_task_ext e e'). Qed.

Lemma phase_ext e e' r : workflows e' = workflows e → phase e' r = phase e r.
Proof. intros Hw. unfold phase. by rewrite (get_task_ext e e'). Qed.

(** A step that moves jobs between the queue and the scheduler. *)
Lemma sys_inv_move s s' :
  workflows (eng s') = workflows (eng s) → outstanding s' ≡ₚ outstanding s →
  (∀ c req, (c, req) ∈ delivered s' → (c, req) ∈ delivered s ∨ ∃ j, j ∈ outstanding s ∧ Request j = req) →
  sys_inv s → sys_inv s'.
Proof.
  intros Hw Ho Hdel [Hi Hj Hh Hd]. split.
  - intros w wf. rewrite Hw. apply Hi.
  - intros j. rewrite Ho. intros Hin. eapply job_ok_ext; [exact Hw|by apply Hj].
  - intros r. by rewrite (phase_ext (eng s)), Ho.
  - intros c req Hin. destruct (Hdel c req Hin) as [Hin'|(j & Hin' & Hr)].
    + destruct (Hd c req Hin') as (j & Hok & Hr). exists j. split; [by eapply job_ok_ext|done].
    + exists j. split; [eapply job_ok_ext; [exact Hw|by apply Hj]|done].
Qed.

(** The callback, run for the job in hand. *)
Lemma sys_inv_dispatched s ws jobs job r workerID :
  sys_inv s → sched s = SchedCallback ws jobs job workerID → OnDispatched job = Some r →
  sys_inv (set_sched (SchedIncrement ws jobs workerID) (set_eng (OnTaskDispatched (eng s) r workerID) s)).
Proof.
  destruct s as [e rg g c p b d]. simpl. intros [Hi Hj Hh Hd] -> Hcb. unfold outstanding in *. simpl in *.
  assert (job_ok e job) as (r' & t & Hr & ->) by (apply Hj; rewrite elem_of_app; right; left).
  injection Hcb as ->. destruct (OnTaskDispatched_effect e r workerID) as (Hq & Ht & Hph).
  assert (∀ j, job_ok e j → job_ok (OnTaskDispatched e r workerID) j) as Hok.
  { intros j (r' & t' & Hr' & ->). destruct (Ht r') as [_ Hf]; [by eapply get_task_has_workflow|].
    rewrite Hr' in Hf. apply fmap_Some in Hf as (t2 & ? & Hf). exists r', t2. split; [done|].
    symmetry. by apply job_of_frozen. }
  assert (∀ r', jobs_for r' (queue e ++ job_of r t :: jobs) =
    jobs_for r' (queue e ++ jobs) + if decide (r = r') then 1 else 0) as Hn.
  { intros r'. rewrite <-Permutation_middle. change (job_of r t :: ?l) with ([job_of r t] ++ l).
    rewrite jobs_for_app, jobs_for_job. lia. }
  split; unfold outstanding; simpl.
  - by apply OnTaskDispatched_handled.
  - rewrite Hq. intros j Hin. apply Hok, Hj. rewrite elem_of_app in *. destruct Hin; [by left|right; by right].
  - intros r'. rewrite Hq. specialize (Hh r'). rewrite Hn in Hh. rewrite Hph. unfold held in *.
    destruct (decide (r = r')) as [<-|]; [|by rewrite Nat.add_0_r in Hh].
    destruct (decide (phase e r = 1)); lia.
  - intros conn req Hin. destruct (Hd conn req Hin) as (j & ? & ?). eauto.
Qed.
(** ** Steps of the registry's goroutine *)

(** What they leave alone unless a hook reassigns tasks. *)
Definition same_work s s' : Prop := eng s' = eng s ∧ sched s' = sched s ∧ delivered s' = delivered s.

Lemma with_queue_same o s s' : with_queue o s = Ret s' → same_work s s'.
Proof. unfold with_queue. destruct o; [|done..]. destruct s. by intros [= <-]. Qed.

Lemma probe_done_same again now s s' : probe_done again now s = Ret s' → same_work s s'.
Proof.
  unfold probe_done. destruct s as [e rg g c p b d]; simpl. by case_match; intros [= <-].
Qed.

Lemma run_hooks_same workerID again hooks s : same_work s (run_hooks workerID again hooks s).
Proof. unfold run_hooks. by destruct s. Qed.

(** The hook is about to reassign. *)
Definition reassigning s : bool := match probing s with ProbeReassign _ _ _ => true | _ => false end.

Lemma probe_next_work now s s' :
  probe_next now s = Some (Ret s') →
  same_work s s' ∨
  ∃ workerID, reassigning s = true ∧ same_work (set_eng (ReassignDeadWorkerTasks (eng s) workerID) s) s'.
Proof.
  unfold probe_next. destruct s as [e rg g c p b d]; simpl.
  destruct b as [|workerID status again|workerID again hooks|workerID again hooks|workerID again].
  - intros Hn. left. destruct (loop (retryQueue rg)) as [| |trigger t|trigger t|trigger t|]; [..|done];
      (injection Hn as Hn; by subst || by apply with_queue_same in Hn).
  - destruct (updateWorkerStatus workerID status rg) as [hooks r]. intros [= <-]. by left.
  - case_match; [done|]. intros [= <-]. by left.
  - intros [= <-]. right. by exists workerID.
  - intros [= Hn]. left. by apply probe_done_same in Hn.
Qed.

Lemma sys_inv_same s s' : same_work s s' → sys_inv s → sys_inv s'.
Proof.
  intros (He & Hs & Hd). apply sys_inv_move; [by rewrite He|unfold outstanding; by rewrite He, Hs|].
  rewrite Hd. by left.
Qed.

(** A finished pop splits the queue. *)
Lemma pop_outstanding visible (q : list (Job TaskRef)) :
  ∃ batch rest, PopBatch 50 (take visible q) = Ret (batch, rest) ∧ rest ++ drop visible q ++ batch ≡ₚ q.
Proof.
  destruct (PopBatch_spec 50 (take visible q)) as (batch & rest & Hp & Hq & _); [done|].
  exists batch, rest. split; [done|]. rewrite <-(take_drop visible q) at 2.
  rewrite Hq, <-app_assoc, (Permutation_app_comm batch), <-app_assoc. done.
Qed.

Lemma sched_next_inv l s s' : sched_next l s = Some (Ret s') → sys_inv s → sys_inv s'.
Proof.
  intros Hn Hi. destruct s as [e rg g c p b d].
  destruct l as [visible| |arrived resp], p as [|jobs|ws jobs|ws jobs job id|ws jobs job id|
    ws jobs job id conn|ws jobs job id|ws jobs id|ws jobs job]; unfold sched_next in Hn;
    cbn [sched eng reg conns delivered set_sched set_eng set_reg set_conns set_delivered] in Hn; try discriminate Hn.
  - destruct (pop_outstanding visible (queue e)) as (batch & rest & Hp & Hq). rewrite Hp in Hn. simpl in Hn.
    injection Hn as <-. revert Hi. apply sys_inv_move; [by destruct e| |by left].
    unfold outstanding. simpl. rewrite queue_set_queue, app_nil_r, <-app_assoc. etrans; [|exact Hq]. by destruct batch.
  - case_match; [done|]. destruct (AliveWorkers rg) as [ws r]. injection Hn as <-.
    revert Hi. apply sys_inv_move; [done..|by left].
  - destruct jobs as [|job jobs]; [|destruct (selectWorker _ _)]; injection Hn as <-;
      (revert Hi; apply sys_inv_move; [done..|by left]).
  - destruct (getOrDial_cached id c); injection Hn as <-; (revert Hi; apply sys_inv_move; [done..|by left]).
  - case_match; [done|]. destruct (getOrDial_dial NewClient id (AddressOf id rg) c) as [[conn|] cs];
      injection Hn as <-; (revert Hi; apply sys_inv_move; [done..|by left]).
  - destruct (OnDispatched job) as [r|] eqn:Hcb; injection Hn as <-.
    + exact (sys_inv_dispatched _ ws jobs job r id Hi eq_refl Hcb).
    + revert Hi. apply sys_inv_move; [done..|by left].
  - case_match; [done|]. injection Hn as <-. revert Hi. apply sys_inv_move; [done..|by left].
  - injection Hn as <-. revert Hi. apply sys_inv_move; [by destruct e| |by left].
    unfold outstanding. simpl. rewrite queue_set_queue. unfold Jobs.Push. by rewrite <-app_assoc.
  - assert (∀ cr req, (cr, req) ∈ d ++ [(conn, Request job)] → (cr, req) ∈ d ∨
      ∃ j, j ∈ queue e ++ job :: jobs ∧ Request j = req) as Hdel.
    { intros cr req [?|Hin]%elem_of_app; [by left|right]. apply list_elem_of_singleton in Hin as [= -> ->].
      exists job. split; [|done]. rewrite elem_of_app. right. left. }
    destruct resp, arrived; simplify_eq/=; (revert Hi; apply sys_inv_move; [done..|]); (exact Hdel || by left).
Qed.

(** The calls of the two services. *)
Lemma sys_next_inv l s s' : label_ok l s → sys_next l s = Some (Ret s') → sys_inv s → sys_inv s'.
Proof.
  intros Hok Hn Hi. pose proof (si_engine _ Hi) as Hei.
  destruct l as [wf|w k result|w|k|n now|i now|id n now|id|l|l|now]; cbn [sys_next] in Hn.
  - injection Hn as <-. apply sys_inv_grows; [done|by apply grows_SubmitWorkflow|by apply SubmitWorkflow_spec].
  - injection Hn as <-. apply sys_inv_grows; [done|by apply grows_OnTaskResponse|by apply OnTaskResponse_handled].
  - injection Hn as <-. apply sys_inv_grows; [done|by apply grows_CancelWorkflow|by apply CancelWorkflow_handled].
  - injection Hn as <-. apply sys_inv_grows; [done|by apply grows_CancelTask|by apply CancelTask_handled].
  - case_match; [done|]. injection Hn as <-. revert Hi. apply sys_inv_same. by destruct s.
  - destruct (registering s !! i) as [id|]; [|done]. destruct (register_push id now (reg s)); [|done..].
    simpl in Hn. injection Hn as <-. revert Hi. apply sys_inv_same. by destruct s.
  - case_match; [done|]. injection Hn as <-. revert Hi. apply sys_inv_same. by destruct s.
  - case_match; [done|]. injection Hn as <-. revert Hi. apply sys_inv_same. by destruct s.
  - destruct (is_publish l); [done|]. destruct (bus_next l (eventBus (eng s))) as [b|]; [|done]. injection Hn as <-. revert Hi.
    apply sys_inv_move; destruct s as [[] ? ? ? ? ? ?]; [done..|by left].
  - by eapply sched_next_inv.
  - destruct (probe_next_work now s s' Hn) as [Hsame|(workerID & _ & Hsame)]; [by eapply sys_inv_same|].
    eapply sys_inv_same; [exact Hsame|]. apply sys_inv_grows; [done|apply grows_ReassignDeadWorkerTasks|].
    by apply ReassignDeadWorkerTasks_handled.
Qed.

Lemma sys_inv_start bus : sys_inv (sys_start bus).
Proof.
  split; simpl; [apply engine_inv_start|by intros j ?%elem_of_nil| |by intros c req ?%elem_of_nil].
  intros r. unfold phase, get_task, tasks_of. simpl. rewrite lookup_empty. unfold held, jobs_for. simpl.
  split_and!; [done|by intros [=]|lia].
Qed.

Lemma sys_reachable_inv s : sys_reachable s → sys_inv s.
Proof.
  intros [bus Hr]. eapply (rtc_invariant _ sys_inv); [apply sys_inv_start| |exact Hr].
  intros x y Hx (l & Hok & Hn). by eapply sys_next_inv.
Qed.
(** ** The engine inside the system *)

Lemma same_work_engine s s' : same_work s s' → rtc engine_step (eng s) (eng s').
Proof. by intros [-> _]. Qed.

Lemma other_engine_step e e' : workflows e' = workflows e → rtc engine_step e e'.
Proof. intros Hw. by apply rtc_once, step_other. Qed.

Lemma sched_next_engine l s s' : sched_next l s = Some (Ret s') → rtc engine_step (eng s) (eng s').
Proof.
  intros Hn. destruct s as [e rg g c p b d].
  destruct l as [visible| |arrived resp], p as [|jobs|ws jobs|ws jobs job id|ws jobs job id|
    ws jobs job id conn|ws jobs job id|ws jobs id|ws jobs job]; unfold sched_next in Hn;
    cbn [sched eng reg conns delivered set_sched set_eng set_reg set_conns set_delivered] in Hn; try discriminate Hn.
  - destruct (pop_outstanding visible (queue e)) as (batch & rest & Hp & _). rewrite Hp in Hn. simpl in Hn.
    injection Hn as <-. apply other_engine_step. by destruct e.
  - case_match; [done|]. destruct (AliveWorkers rg) as [ws r]. by injection Hn as <-.
  - destruct jobs as [|job jobs]; [|destruct (selectWorker _ _)]; by injection Hn as <-.
  - destruct (getOrDial_cached id c); by injection Hn as <-.
  - case_match; [done|]. destruct (getOrDial_dial NewClient id (AddressOf id rg) c) as [[conn|] cs]; by injection Hn as <-.
  - destruct (OnDispatched job) as [r|] eqn:Hcb; injection Hn as <-; [|done]. apply rtc_once, step_dispatched.
  - case_match; [done|]. by injection Hn as <-.
  - injection Hn as <-. apply other_engine_step. by destruct e.
  - by destruct resp, arrived; simplify_eq/=.
Qed.

Lemma sys_next_engine l s s' :
  label_ok l s → sys_next l s = Some (Ret s') → rtc engine_step (eng s) (eng s').
Proof.
  intros Hok Hn. destruct l as [wf|w k result|w|k|n now|i now|id n now|id|l|l|now]; cbn [sys_next] in Hn.
  1-4: injection Hn as <-; apply rtc_once; destruct s; constructor; done.
  - case_match; [done|]. injection Hn as <-. by destruct s.
  - destruct (registering s !! i) as [id|]; [|done]. destruct (register_push id now (reg s)); [|done..].
    simpl in Hn. injection Hn as <-. by destruct s.
  - case_match; [done|]. injection Hn as <-. by destruct s.
  - case_match; [done|]. injection Hn as <-. by destruct s.
  - destruct (is_publish l); [done|]. destruct (bus_next l (eventBus (eng s))) as [b|]; [|done]. injection Hn as <-.
    apply other_engine_step. by destruct s as [[] ? ? ? ? ? ?].
  - by eapply sched_next_engine.
  - destruct (probe_next_work now s s' Hn) as [Hsame|(workerID & _ & Hsame)]; [by apply same_work_engine|].
    apply same_work_engine in Hsame. etrans; [|exact Hsame]. destruct s. apply rtc_once, step_reassign.
Qed.

Lemma sys_reachable_engine s : sys_reachable s → reachable (eng s).
Proof.
  intros [bus Hr]. exists bus, true. change (NewWorkflowEngine bus true) with (eng (sys_start bus)).
  induction Hr as [|x y z (l & Hok & Hn) _ IH]; [done|]. etrans; [by eapply sys_next_engine|done].
Qed.

(** The system refines the engine: whatever the interleaving of the
    handlers, the scheduler, the registry and the bus, the engine inside the
    system only makes steps of the engine on its own, so every property of
    reachable engines holds of it, and every stored workflow moves along the
    specification. *)
Theorem system_refines_engine s s' :
  sys_reachable s → rtc sys_step s s' →
  reachable (eng s') ∧ rtc engine_step (eng s) (eng s') ∧ stored_refines (eng s) (eng s').
Proof.
  intros Hr Hs. assert (rtc engine_step (eng s) (eng s')) as He.
  { clear Hr. induction Hs as [|x y z (l & Hok & Hn) _ IH]; [done|]. etrans; [by eapply sys_next_engine|done]. }
  split_and!; [|done|].
  - apply sys_reachable_engine in Hr as (bus & n & Hr). exists bus, n. by etrans.
  - apply engine_steps_handled; [|done]. by apply sys_reachable_inv.
Qed.

Lemma outstanding_job s r t :
  sys_inv s → get_task (eng s) r = Some t → jobs_for r (outstanding s) ≠ 0 → job_of r t ∈ outstanding s.
Proof.
  intros Hi Ht Hn. unfold jobs_for in Hn.
  destruct (filter (λ x, x = r) (targets (outstanding s))) as [|r' l] eqn:Hf; [done|].
  assert (r' ∈ filter (λ x, x = r) (targets (outstanding s))) as Hin by (rewrite Hf; left).
  apply list_elem_of_filter in Hin as [-> Hin]. apply list_elem_of_omap in Hin as (j & Hj & Hcb).
  destruct (si_jobs _ Hi j Hj) as (r' & t' & Hr' & ->). injection Hcb as ->. by rewrite Ht in Hr'; injection Hr' as ->.
Qed.

(** C4. Exactly one job per ready task: in every state of the system a READY
    task has one job, its own, in the ready queue or in the scheduler's hands;
    a PENDING, DISPATCHED or RUNNING task has none; and no task ever has two,
    so no task is dispatched twice at a time. *)
Theorem ready_task_has_one_job s r t :
  sys_reachable s → get_task (eng s) r = Some t →
  let n := jobs_for r (outstanding s) in
  (task_status t = TaskReady → n = 1 ∧ job_of r t ∈ outstanding s) ∧
  (task_status t = TaskPending ∨ executing (task_status t) → n = 0) ∧
  n ≤ 1.
Proof.
  intros Hr%sys_reachable_inv Ht n. pose proof (si_held _ Hr r) as (H0 & H1 & Hle).
  unfold phase in H0, H1. rewrite Ht in H0, H1. simpl in H0, H1. split_and!; [|..|done].
  - intros Hs. rewrite Hs in H1. specialize (H1 eq_refl). split; [done|]. apply outstanding_job; [done..|]. by rewrite H1.
  - intros Hs. apply H0. by destruct Hs as [-> |[-> | ->]].
Qed.

(** What reaches a worker: every request delivered to any worker carries
    the identifiers, the type, the payload and the timeout of a stored task. *)
Theorem delivered_requests_are_tasks s conn req :
  sys_reachable s → (conn, req) ∈ delivered s →
  ∃ r t, get_task (eng s) r = Some t ∧ req = Some {|
    dr_WorkflowId := task_WorkflowID t; dr_TaskId := task_ID t; dr_Type := Type_ (Spec t);
    dr_Payload := Payload (Spec t); dr_TimeoutSeconds := f64_to_int64 (Duration_Seconds (Timeout t)) |}.
Proof.
  intros Hr%sys_reachable_inv Hin. destruct (si_delivered _ Hr _ _ Hin) as (j & (r & t & Ht & ->) & <-). eauto.
Qed.
(** ** No step panics *)

Definition sys_tracked s : Prop := tracked (retryQueue (reg s)).

Definition tracked_system (o : outcome () System) : Prop := match o with Ret s => sys_tracked s | _ => False end.

Lemma with_queue_tracked l q s o :
  tracked q → rq_next l q = Some o → (∀ i, l ≠ RStopStep i) → tracked_system (with_queue o s).
Proof.
  intros Ht Hn Hl. destruct (rq_next_tracked l q o Hn Ht) as [Hr|[_ [i ?]]]; [|by destruct (Hl i)].
  unfold with_queue. destruct o as [q'|[]|]; [|done..].
  unfold sys_tracked. simpl. destruct s as [e [] g c p b d]. done.
Qed.

Lemma probe_done_tracked again now s : sys_tracked s → tracked_system (probe_done again now s).
Proof.
  intros Ht. unfold probe_done. set (s1 := set_probing ProbeNone s).
  assert (sys_tracked s1) as Ht1 by by destruct s. destruct (loop (retryQueue (reg s1))) as [| |t0 t|t0 t|t0 t|] eqn:Hl;
    try exact Ht1. refine (with_queue_tracked (RDo again now) _ s1 (Ret _) Ht1 _ ltac:(done)). unfold rq_next. by rewrite Hl.
Qed.

Lemma updateWorkerStatus_queue workerID status (r : WorkerRegistry death_hook) :
  retryQueue (updateWorkerStatus workerID status r).2 = retryQueue r.
Proof. unfold updateWorkerStatus. destruct r as [ws q h k]. simpl. by destruct (ws !! workerID), status. Qed.

Lemma probe_next_tracked now s o : probe_next now s = Some o → sys_tracked s → tracked_system o.
Proof.
  intros Hn Ht. unfold probe_next in Hn.
  destruct (probing s) as [|workerID status again|workerID again hooks|workerID again hooks|workerID again].
  - destruct (loop (retryQueue (reg s))) as [| |t0 t|t0 t|t0 t|] eqn:Hl; [..|done].
    + injection Hn as <-. refine (with_queue_tracked RSelect _ s (Ret _) Ht _ ltac:(done)). unfold rq_next. by rewrite Hl.
    + injection Hn as <-. refine (with_queue_tracked RTake _ s _ Ht _ ltac:(done)). unfold rq_next. by rewrite Hl.
    + injection Hn as <-. refine (with_queue_tracked (RCheck now) _ s (Ret _) Ht _ ltac:(done)). unfold rq_next. by rewrite Hl.
    + injection Hn as <-. by destruct s.
    + injection Hn as <-. refine (with_queue_tracked RPut _ s _ Ht _ ltac:(done)). unfold rq_next. by rewrite Hl.
  - pose proof (updateWorkerStatus_queue workerID status (reg s)) as Hq.
    destruct (updateWorkerStatus workerID status (reg s)) as [hooks r]. injection Hn as <-.
    destruct s. unfold run_hooks. simpl in *. unfold sys_tracked. simpl. by rewrite Hq.
  - case_match; [done|]. injection Hn as <-. by destruct s.
  - injection Hn as <-. by destruct s.
  - injection Hn as <-. by apply probe_done_tracked.
Qed.

Lemma sched_next_tracked l s o : sched_next l s = Some o → sys_tracked s → tracked_system o.
Proof.
  intros Hn Ht. destruct s as [e [ws0 q h k] g c p b d]. unfold sys_tracked in Ht. simpl in Ht.
  destruct l as [visible| |arrived resp], p as [|jobs|ws jobs|ws jobs job id|ws jobs job id|
    ws jobs job id conn|ws jobs job id|ws jobs id|ws jobs job]; unfold sched_next in Hn;
    cbn [sched eng reg conns delivered set_sched set_eng set_reg set_conns set_delivered] in Hn; try discriminate Hn.
  - destruct (pop_outstanding visible (queue e)) as (batch & rest & Hp & _). rewrite Hp in Hn. by injection Hn as <-.
  - case_match; [done|]. by injection Hn as <-.
  - destruct jobs as [|job jobs]; [|destruct (selectWorker _ _)]; by injection Hn as <-.
  - destruct (getOrDial_cached id c); by injection Hn as <-.
  - case_match; [done|]. destruct (getOrDial_dial _ _ _ c) as [[conn|] cs]; by injection Hn as <-.
  - destruct (OnDispatched job); by injection Hn as <-.
  - case_match; [done|]. injection Hn as <-. unfold IncrementRunning. simpl. by destruct (ws0 !! id).
  - by injection Hn as <-.
  - by destruct resp, arrived; simplify_eq/=.
Qed.

Lemma register_store_queue w now (r : WorkerRegistry death_hook) : retryQueue (register_store w now r) = retryQueue r.
Proof. unfold register_store. destruct r as [ws q h k]. simpl. by destruct (ws !! node_ID w). Qed.

Lemma Heartbeat_queue id n now (r : WorkerRegistry death_hook) : retryQueue (Heartbeat id n now r).2 = retryQueue r.
Proof. unfold Heartbeat. destruct r as [ws q h k]. simpl. by destruct (ws !! id). Qed.

Lemma sys_next_tracked l s o : sys_next l s = Some o → sys_tracked s → tracked_system o.
Proof.
  intros Hn Ht. destruct l as [wf|w k result|w|k|n now|i now|id n now|id|l|l|now]; cbn [sys_next] in Hn.
  1-4: injection Hn as <-; by destruct s.
  - case_match; [done|]. injection Hn as <-. destruct s. unfold sys_tracked in *. simpl in *. unfold sys_tracked. simpl.
    by rewrite register_store_queue.
  - destruct (registering s !! i) as [id|]; [|done]. injection Hn as <-. unfold register_push.
    destruct (rq_next_tracked (RPush (heartbeat_trigger id) now) _ _ eq_refl Ht) as [Hr|[_ [? ?]]]; [|done].
    destruct (Push _ now _) as [q|[]|]; [|done..]. unfold tracked_system, sys_tracked. simpl. by destruct s as [? [] ? ? ? ? ?].
  - case_match; [done|]. injection Hn as <-. destruct s. unfold sys_tracked in *. simpl in *. unfold sys_tracked. simpl.
    by rewrite Heartbeat_queue.
  - case_match; [done|]. injection Hn as <-. by destruct s.
  - destruct (is_publish l); [done|]. destruct (bus_next l (eventBus (eng s))) as [b|]; [|done]. injection Hn as <-. by destruct s.
  - by eapply sched_next_tracked.
  - by eapply probe_next_tracked.
Qed.

(** Where the code could panic and the model says so, popping a batch and the
    retry queue's linked list, it does not. *)
Lemma sys_next_ret s l o : sys_reachable s → sys_next l s = Some o → ∃ s', o = Ret s'.
Proof.
  intros [bus Hr] Hn. assert (sys_tracked s) as Ht.
  { refine (rtc_invariant _ sys_tracked (sys_start bus) s tracked_new _ Hr).
    intros x y Hx (l' & _ & Hl'). exact (sys_next_tracked _ _ _ Hl' Hx). }
  pose proof (sys_next_tracked l s o Hn Ht) as Ho. destruct o as [s'|[]|]; [eauto|done..].
Qed.

(** ** A scheduling pass terminates *)

(** An execution of the given steps. *)
Fixpoint sys_exec (tr : list (sys_label)) s : option System :=
  match tr with
  | [] => Some s
  | l :: tr => match sys_next l s with Some (Ret s') => sys_exec tr s' | _ => None end
  end.

(** A bound on the steps left until the pass is over. *)
Definition pass_left (pc : sched_pc) : nat :=
  match pc with
  | SchedIdle => 0
  | SchedPopped jobs => 2 + 7 * length jobs
  | SchedLoop _ jobs => 1 + 7 * length jobs
  | SchedDispatch _ jobs _ _ => 7 + 7 * length jobs
  | SchedDial _ jobs _ _ => 6 + 7 * length jobs
  | SchedRPC _ jobs _ _ _ => 5 + 7 * length jobs
  | SchedCallback _ jobs _ _ => 4 + 7 * length jobs
  | SchedIncrement _ jobs _ | SchedRequeue _ jobs _ => 2 + 7 * length jobs
  end.

Definition is_pop (l : sys_label) : bool := match l with LScheduler (LPop _) => true | _ => false end.
Definition is_sched (l : sys_label) : bool := match l with LScheduler _ => true | _ => false end.

Lemma sched_next_pass l s s' :
  sched_next l s = Some (Ret s') →
  if is_pop (LScheduler l) then pass_left (sched s') ≤ 352 else S (pass_left (sched s')) ≤ pass_left (sched s).
Proof.
  intros Hn. destruct s as [e rg g c p b d].
  destruct l as [visible| |arrived resp], p as [|jobs|ws jobs|ws jobs job id|ws jobs job id|
    ws jobs job id conn|ws jobs job id|ws jobs id|ws jobs job]; unfold sched_next in Hn;
    cbn [sched eng reg conns delivered set_sched set_eng set_reg set_conns set_delivered] in Hn; try discriminate Hn;
    cbn [is_pop].
  - destruct (PopBatch_spec 50 (take visible (queue e))) as (batch & rest & Hp & _ & Hlen); [done|].
    rewrite Hp in Hn. injection Hn as <-. cbn [sched set_sched set_eng]. destruct batch as [|j batch]; [simpl; lia|].
    unfold pass_left. lia.
  - case_match; [done|]. destruct (AliveWorkers rg) as [ws r]. injection Hn as <-. simpl. lia.
  - destruct jobs as [|job jobs]; [|destruct (selectWorker _ _)]; injection Hn as <-; simpl; lia.
  - destruct (getOrDial_cached id c); injection Hn as <-; simpl; lia.
  - case_match; [done|]. destruct (getOrDial_dial _ _ _ c) as [[conn|] cs]; injection Hn as <-; simpl; lia.
  - destruct (OnDispatched job); injection Hn as <-; simpl; lia.
  - case_match; [done|]. injection Hn as <-. simpl. lia.
  - injection Hn as <-. simpl. lia.
  - destruct resp, arrived; simplify_eq/=; lia.
Qed.

(** A step that is not one of the scheduler's leaves it where it is and sends
    nothing. *)
Lemma sys_next_sched l s s' : sys_next l s = Some (Ret s') → is_sched l = false → sched s' = sched s ∧ delivered s' = delivered s.
Proof.
  intros Hn Hl. destruct l as [wf|w k result|w|k|n now|i now|id n now|id|l|l|now]; cbn [sys_next] in Hn; [..|done|].
  1-4: injection Hn as <-; by destruct s.
  - case_match; [done|]. injection Hn as <-. by destruct s.
  - destruct (registering s !! i) as [id|]; [|done]. destruct (register_push id now (reg s)); [|done..].
    injection Hn as <-. by destruct s.
  - case_match; [done|]. injection Hn as <-. by destruct s.
  - case_match; [done|]. injection Hn as <-. by destruct s.
  - destruct (is_publish l); [done|]. destruct (bus_next l (eventBus (eng s))) as [b|]; [|done]. injection Hn as <-. by destruct s.
  - destruct (probe_next_work now s s' Hn) as [(_ & -> & ->)|(workerID & _ & _ & -> & ->)]; [done|by destruct s].
Qed.

Lemma sys_next_pass l s s' :
  sys_next l s = Some (Ret s') →
  if is_pop l then pass_left (sched s') ≤ 352
  else (if is_sched l then 1 else 0) + pass_left (sched s') ≤ pass_left (sched s).
Proof.
  intros Hn. destruct (is_sched l) eqn:Hl.
  - destruct l as [| | | | | | | | |l|]; try done. exact (sched_next_pass _ _ _ Hn).
  - rewrite (proj1 (sys_next_sched l s s' Hn Hl)). destruct l; done || (simpl; lia).
Qed.

Lemma pass_bounded s : sys_reachable s → pass_left (sched s) ≤ 352.
Proof.
  intros [bus Hr]. eapply (rtc_invariant _ (λ s, pass_left (sched s) ≤ 352)); [|clear Hr|exact Hr].
  - simpl. lia.
  - intros x y Hx (l & _ & Hn). pose proof (sys_next_pass l x y Hn). destruct (is_pop l); lia.
Qed.

(** Where the scheduler waits for somebody else: for the worker's answer, and
    for the registry's mutex. *)
Definition awaiting_reply s : Prop := match sched s with SchedRPC _ _ _ _ _ => True | _ => False end.

Definition awaiting_registry s : Prop :=
  registry_locked s = true ∧
  match sched s with SchedPopped _ | SchedDial _ _ _ _ | SchedIncrement _ _ _ => True | _ => False end.

Lemma pass_progress s :
  sched s = SchedIdle ∨ awaiting_reply s ∨ awaiting_registry s ∨
  ∃ s', sys_next (LScheduler LSched) s = Some (Ret s').
Proof.
  destruct s as [e rg g c p b d]. unfold sys_next, sched_next, awaiting_reply, awaiting_registry.
  destruct p as [|jobs|ws jobs|ws jobs job id|ws jobs job id|ws jobs job id conn|ws jobs job id|ws jobs id|ws jobs job];
    cbn [sched eng reg conns delivered]; try (by left); try (by right; left); right; right;
    destruct (registry_locked _); try (by left); right.
  - destruct (AliveWorkers rg). eauto.
  - destruct jobs; [|destruct (selectWorker _ _)]; eauto.
  - destruct jobs; [|destruct (selectWorker _ _)]; eauto.
  - destruct (getOrDial_cached id c); eauto.
  - destruct (getOrDial_cached id c); eauto.
  - destruct (getOrDial_dial _ _ _ c) as [[conn|] cs]; eauto.
  - destruct (OnDispatched job); eauto.
  - destruct (OnDispatched job); eauto.
  - eauto.
  - eauto.
  - eauto.
Qed.

Definition is_reply (l : sys_label) : bool := match l with LScheduler (LReply _ _) => true | _ => false end.

(** Without an answer the scheduler waits, whatever the others do. *)
Lemma unanswered_blocks s tr s' :
  awaiting_reply s → sys_exec tr s = Some s' → forallb (negb ∘ is_reply) tr = true → sched s' = sched s.
Proof.
  revert s. induction tr as [|l tr IH]; intros s Ha; simpl; [by intros [= ->]|].
  destruct (sys_next l s) as [[s1|[]|]|] eqn:Hn; [|done..]. intros Hx [Hl Hr]%andb_true_iff.
  assert (sched s1 = sched s) as Hs.
  { destruct (is_sched l) eqn:Hsl; [|exact (proj1 (sys_next_sched _ _ _ Hn Hsl))]. destruct l as [| | | | | | | | |l|]; try done.
    unfold awaiting_reply in Ha. cbn [sys_next] in Hn. unfold sched_next in Hn. by destruct (sched s), l. }
  rewrite <-Hs. apply IH; [|done..]. unfold awaiting_reply. by rewrite Hs.
Qed.


(** Runs that start with a submission are executions of the system. *)
Definition is_submit (l : sys_label) : bool := match l with LSubmit _ => true | _ => false end.

Lemma sys_exec_steps s tr s' :
  forallb (negb ∘ is_submit) tr = true → sys_exec tr s = Some s' → rtc sys_step s s'.
Proof.
  revert s. induction tr as [|l tr IH]; intros s; simpl; [by intros _ [= <-]|].
  intros [Hl Htr]%andb_true_iff. destruct (sys_next l s) as [[s1|[]|]|] eqn:Hn; [|done..].
  intros Hx. eapply rtc_l; [|by apply IH]. exists l. split; [by destruct l|done].
Qed.

Lemma sys_reachable_steps s s' : sys_reachable s → rtc sys_step s s' → sys_reachable s'.
Proof. intros [bus Hr] Hs. exists bus. by etrans. Qed.

Lemma sys_submit_reachable bus wf :
  submittable (NewWorkflowEngine bus true) wf →
  sys_reachable (set_eng (SubmitWorkflow (NewWorkflowEngine bus true) wf).2 (sys_start bus)).
Proof. intros Hw. exists bus. apply rtc_once. exists (LSubmit wf). done. Qed.
(** ** Lock inversion *)

(** The scheduler dials holding the client's mutex and needs the registry's;
    a death hook holds the registry's and needs the client's. *)
Definition deadlocked s : Prop :=
  match sched s, probing s with SchedDial _ _ _ _, ProbeClose _ _ _ => True | _, _ => False end.

Lemma deadlocked_blocked s :
  deadlocked s →
  (∀ l, sys_next (LScheduler l) s = None) ∧ (∀ now, sys_next (LProbe now) s = None) ∧
  (∀ w now, sys_next (LRegister w now) s = None) ∧ (∀ id n now, sys_next (LHeartbeat id n now) s = None).
Proof.
  destruct s as [e rg g c p b d]. unfold deadlocked. simpl.
  destruct p; try done. destruct b; try done. intros _. split_and!; try done. by intros [].
Qed.

Lemma deadlocked_step s s' :
  deadlocked s → sys_step s s' → sched s' = sched s ∧ probing s' = probing s.
Proof.
  intros Hd (l & _ & Hn). destruct (deadlocked_blocked s Hd) as (Hsch & Hpr & Hreg & Hhb).
  destruct l as [wf|w k result|w|k|n now|i now|id n now|id|l|l|now];
    rewrite ?Hsch, ?Hpr, ?Hreg, ?Hhb in Hn; try done; cbn [sys_next] in Hn.
  1-4: injection Hn as <-; by destruct s.
  - destruct (registering s !! i) as [id|]; [|done]. destruct (register_push id now (reg s)); [|done..].
    injection Hn as <-. by destruct s.
  - case_match; [done|]. injection Hn as <-. by destruct s.
  - destruct (is_publish l); [done|]. destruct (bus_next l (eventBus (eng s))) as [b|]; [|done]. injection Hn as <-. by destruct s.
Qed.

Lemma deadlocked_forever s s' :
  deadlocked s → rtc sys_step s s' → deadlocked s' ∧ sched s' = sched s ∧ probing s' = probing s.
Proof.
  intros Hd Hr. eapply (rtc_invariant _ (λ x, deadlocked x ∧ sched x = sched s ∧ probing x = probing s));
    [by split| |exact Hr].
  intros x y (Hx & Hs & Hp) Hxy. destruct (deadlocked_step x y Hx Hxy) as [Hs' Hp'].
  split_and!; [|congruence..]. unfold deadlocked. by rewrite Hs', Hp'.
Qed.
End system.

Arguments System H Conn : clear implicits.
Arguments sched_pc Conn : clear implicits.
Arguments sys_label H : clear implicits.
