(* ===== verification/SystemCauses.v ===== *)
(** * Where the system's jobs and successes come from

    What the steps of [System] can cause: a job is outstanding only for a task
    whose dependencies have all succeeded ([jobs_sound]), and a task becomes
    SUCCEEDED only in the step that handles a report of its success
    ([sys_next_success]). *)

From stdpp Require Import base gmap strings list relations.
From Stdlib Require Import ZArith Lia.
From S2P Require Import Prelude Status Domain Dag EventBus GoFloat Jobs RetryQueue Registry Scheduler Client.
From S2P Require Import Engine WorkflowSpec EngineBase EngineProps EngineQueue EngineCauses System.

Section causes.
Context `{W : World} `{LS : LargeSort} {H Conn : Type} (NewClient : string → option Conn).
Implicit Types (e : Engine H) (s : System H Conn) (r : TaskRef).

(** ** What one step does to the engine and to the jobs *)

(** Only these calls, or a step that leaves the workflows alone. *)
Inductive engine_effect e : sys_label H → Engine H → Prop :=
  | effect_submit wf : submittable e wf → engine_effect e (LSubmit wf) (SubmitWorkflow e wf).2
  | effect_response w k result : engine_effect e (LResponse w k result) (OnTaskResponse e w k result).2
  | effect_cancel_workflow w : engine_effect e (LCancelWorkflow w) (CancelWorkflow e w).2
  | effect_cancel_task k : engine_effect e (LCancelTask k) (CancelTask e k).2
  | effect_dispatched l r workerID : engine_effect e (LScheduler l) (OnTaskDispatched e r workerID)
  | effect_reassign now workerID : engine_effect e (LProbe now) (ReassignDeadWorkerTasks e workerID)
  | effect_bus l e' :
      workflows e' = workflows e → is_publish l = false → bus_next l (eventBus e) = Some (eventBus e') →
      engine_effect e (LBus l) e'
  | effect_other l e' :
      workflows e' = workflows e → eventBus e' = eventBus e → match l with LResponse _ _ _ => False | _ => True end →
      engine_effect e l e'.

Definition keeps_jobs s s' : Prop := ∀ j, j ∈ outstanding s' → j ∈ outstanding s.

Lemma sched_next_effect l s s' :
  sched_next NewClient l s = Some (Ret s') → engine_effect (eng s) (LScheduler l) (eng s') ∧ keeps_jobs s s'.
Proof.
  intros Hn. destruct s as [e rg g c p b d]. unfold keeps_jobs, outstanding.
  destruct l as [visible| |arrived resp], p as [|jobs|ws jobs|ws jobs job id|ws jobs job id|
    ws jobs job id conn|ws jobs job id|ws jobs id|ws jobs job]; unfold sched_next in Hn;
    cbn [sched eng reg conns delivered set_sched set_eng set_reg set_conns set_delivered] in Hn; try discriminate Hn.
  - destruct (pop_outstanding visible (queue e)) as (batch & rest & Hp & Hq). rewrite Hp in Hn. simpl in Hn.
    injection Hn as <-. cbn [eng sched set_eng set_sched]. rewrite queue_set_queue. split.
    + by apply effect_other; destruct e.
    + intros j Hj. apply elem_of_app. left. rewrite <-Hq, !elem_of_app. rewrite !elem_of_app in Hj. destruct batch; simpl in Hj; tauto.
  - case_match; [done|]. destruct (AliveWorkers rg) as [ws r]. injection Hn as <-. by split; [apply effect_other|].
  - destruct jobs as [|job jobs]; [|destruct (selectWorker _ _)]; injection Hn as <-; by split; [apply effect_other|].
  - destruct (getOrDial_cached id c); injection Hn as <-; by split; [apply effect_other|].
  - case_match; [done|]. destruct (getOrDial_dial NewClient id (AddressOf id rg) c) as [[conn|] cs]; injection Hn as <-;
      by split; [apply effect_other|].
  - destruct (OnDispatched job) as [r|] eqn:Hcb; injection Hn as <-; [|by split; [apply effect_other|]].
    split; [apply effect_dispatched|]. simpl. destruct (OnTaskDispatched_effect e r id) as (-> & _).
    intros j. rewrite !elem_of_app. intros [?|?]; [by left|right; by right].
  - case_match; [done|]. injection Hn as <-. by split; [apply effect_other|].
  - injection Hn as <-. cbn [eng sched set_eng set_sched]. rewrite queue_set_queue. split; [by apply effect_other; destruct e|].
    intros j. unfold Jobs.Push. simpl. rewrite !elem_of_app, !elem_of_cons, elem_of_nil. tauto.
  - destruct resp, arrived; simplify_eq/=; by split; [apply effect_other|].
Qed.

Lemma same_work_effect l s s' :
  match l with LResponse _ _ _ => False | _ => True end → same_work s s' → engine_effect (eng s) l (eng s') ∧ keeps_jobs s s'.
Proof.
  intros Hl (He & Hs & _). rewrite He. split; [by apply effect_other|]. unfold keeps_jobs, outstanding. by rewrite He, Hs.
Qed.

(** The jobs outstanding after a step were outstanding before, or are for
    tasks that are READY. *)
Definition jobs_from s s' : Prop :=
  ∀ j, j ∈ outstanding s' →
    j ∈ outstanding s ∨ ∃ r t, get_task (eng s') r = Some t ∧ task_status t = TaskReady ∧ j = job_of r t.

Lemma jobs_from_pushes s s' : sched s' = sched s → pushes_ready (eng s) (eng s') → jobs_from s s'.
Proof.
  intros Hs (js & Hq & Hjs) j. unfold outstanding. rewrite Hs, Hq, !elem_of_app.
  intros [[?|Hj]|?]; [by left; left|right; by apply Hjs|by left; right].
Qed.

Lemma jobs_from_keeps s s' : keeps_jobs s s' → jobs_from s s'.
Proof. intros Hk j Hj. left. by apply Hk. Qed.

Lemma sys_next_effect l s s' :
  label_ok l s → engine_inv (eng s) → sys_next NewClient l s = Some (Ret s') →
  engine_effect (eng s) l (eng s') ∧ jobs_from s s'.
Proof.
  intros Hok Hi Hn. assert (∀ l', match l' with LResponse _ _ _ => False | _ => True end → same_work s s' →
    engine_effect (eng s) l' (eng s') ∧ jobs_from s s') as Hsame.
  { intros l' Hl Hsw. destruct (same_work_effect l' s s' Hl Hsw). auto using jobs_from_keeps. }
  destruct l as [wf|w k result|w|k|n now|i now|id n now|id|l|l|now]; cbn [sys_next] in Hn.
  1-4: injection Hn as <-; destruct s; (split; [by constructor|apply jobs_from_pushes; [done|]]).
  - by apply pushes_ready_SubmitWorkflow.
  - by apply pushes_ready_OnTaskResponse.
  - apply pushes_ready_Cancel.
  - apply pushes_ready_Cancel.
  - case_match; [done|]. injection Hn as <-. apply Hsame; [done|by destruct s].
  - destruct (registering s !! i) as [id|]; [|done]. destruct (register_push id now (reg s)); [|done..].
    injection Hn as <-. apply Hsame; [done|by destruct s].
  - case_match; [done|]. injection Hn as <-. apply Hsame; [done|by destruct s].
  - case_match; [done|]. injection Hn as <-. apply Hsame; [done|by destruct s].
  - destruct (is_publish l) eqn:Hl; [done|]. destruct (bus_next l (eventBus (eng s))) as [b|] eqn:Hb; [|done].
    injection Hn as <-. destruct s as [[] ? ? ? ? ? ?]. split; [by apply effect_bus|by intros j ?; left].
  - destruct (sched_next_effect l s s' Hn) as [? ?]. auto using jobs_from_keeps.
  - destruct (probe_next_work now s s' Hn) as [|(workerID & _ & He & Hs & _)]; [by apply Hsame|].
    destruct s. simpl in *. split; [rewrite He; constructor|].
    apply jobs_from_pushes; [done|]. rewrite He. apply pushes_ready_Reassign.
Qed.

(** ** Successes *)

Lemma sys_next_success l s s' r t' :
  label_ok l s → engine_inv (eng s) → sys_next NewClient l s = Some (Ret s') → get_task (eng s') r = Some t' → task_status t' = TaskSucceeded →
  (∃ t, get_task (eng s) r = Some t ∧ task_status t = TaskSucceeded ∧ task_result t = task_result t') ∨
  ∃ result t, l = LResponse (ref_wf r) (ref_task r) result ∧ get_task (eng s) r = Some t ∧
    res_Status result = TaskSucceeded ∧ task_result t' = Some result.
Proof.
  intros Hok Hi Hn. destruct (sys_next_effect l s s' Hok Hi Hn) as [Heff _].
  revert Heff. generalize (eng s'). intros e' Heff. destruct Heff as [wf Hsub|w k result|w|k|l r' id|now id|l e' Hw _ _|l e' Hw _ _]; intros Ht Hs.
  - left. by eapply succeeds_from_SubmitWorkflow.
  - destruct (OnTaskResponse_success _ _ _ _ _ _ Ht Hs) as [?|(-> & [t Hr] & Hres & Htr)]; [by left|right; eauto 6].
  - left. by eapply succeeds_from_CancelWorkflow.
  - left. by eapply succeeds_from_CancelTask.
  - left. by eapply succeeds_from_OnTaskDispatched.
  - left. by eapply succeeds_from_Reassign.
  - left. by apply (succeeds_from_same _ _ Hw).
  - left. by apply (succeeds_from_same _ _ Hw).
Qed.

(** ** Jobs *)

(** A job of a stored task whose dependencies have succeeded. *)
Definition sound_job e (j : Job TaskRef) : Prop :=
  ∃ r t, get_task e r = Some t ∧ j = job_of r t ∧ deps_done e r t.

Lemma sound_job_keeps e e' j : keeps e e' → sound_job e j → sound_job e' j.
Proof.
  intros Hk (r & t & Ht & -> & Hd). destruct (Hk r t Ht) as (t' & Ht' & Hf & _). exists r, t'. split_and!; [done| |].
  - symmetry. by apply job_of_frozen.
  - eapply deps_done_keeps; [done| |done]. by apply frozen_inj_fields in Hf as (_ & _ & -> & _).
Qed.

Lemma sys_next_keeps l s s' :
  label_ok l s → sys_inv s → sys_next NewClient l s = Some (Ret s') → keeps (eng s) (eng s').
Proof. intros Hok Hi Hn. apply engine_steps_keep; [apply Hi|]. by eapply sys_next_engine. Qed.

Definition jobs_sound s : Prop := ∀ j, j ∈ outstanding s → sound_job (eng s) j.

Lemma jobs_sound_start bus : jobs_sound (sys_start bus).
Proof. by intros j ?%elem_of_nil. Qed.

Lemma jobs_sound_next l s s' :
  label_ok l s → sys_inv s → sys_next NewClient l s = Some (Ret s') → jobs_sound s → jobs_sound s'.
Proof.
  intros Hok Hi Hn Hs j Hj. pose proof (sys_next_keeps l s s' Hok Hi Hn) as Hk.
  destruct (sys_next_effect l s s' Hok (si_engine _ Hi) Hn) as [_ Hfrom].
  destruct (Hfrom j Hj) as [Hj'|(r & t & Ht & Hst & ->)]; [by eapply sound_job_keeps; [|apply Hs]|].
  exists r, t. split_and!; [done..|]. apply started_deps_done; [|done|by rewrite Hst; left].
  by apply (sys_next_inv NewClient l s s' Hok Hn Hi).
Qed.
End causes.
