(* ===== verification/SystemEvents.v ===== *)
(** * What the observers of a running control plane see

    The events on the bus tell the history of every task and workflow
    ([told]): whatever the interleaving, they are its status changes, in
    order.  With the ordered delivery of the bus and of the streams, what a
    subscriber or a streaming client has seen of a task is a part of its
    path through the automaton up to its current status. *)

From stdpp Require Import base gmap strings list relations.
From Stdlib Require Import ZArith Lia.
From S2P Require Import Prelude Status Domain Dag NewWorkflow EventBus GoFloat Jobs RetryQueue Registry Scheduler Client.
From S2P Require Import Engine WorkflowSpec EngineBase EngineProps EngineQueue EngineCauses EngineHistory Server.
From S2P Require Import System SystemCauses.

(** ** The history of the engine on the bus *)

Section told.
Context `{W : World} {H : Type}.
Implicit Types (e : Engine H) (r : TaskRef) (w : string) (evs pub : list event) (b : Bus event H).

(** The events [pub] were published so far. *)
Record told pub e : Prop := {
  told_keyed : keyed e;
  told_registered : registered_ok (eventBus e);
  told_ordered : ordered pub (eventBus e);
  told_tasks r : path engine_move TaskPending (task_news r pub) (task_at e r);
  told_workflows w : path workflow_step WorkflowPending (workflow_news w pub) (workflow_at e w);
}.

Lemma told_start c b notifier : NewBus c = Ret b → told [] (NewWorkflowEngine b notifier).
Proof.
  intros Hb. split; simpl.
  - split; [intros w wf; simpl; by rewrite lookup_empty|].
    intros r t. unfold get_task, tasks_of. simpl. by rewrite !lookup_empty.
  - by eapply registered_ok_new.
  - by eapply ordered_new.
  - intros r. unfold task_at, get_task, tasks_of. simpl. rewrite !lookup_empty. apply path_nil.
  - intros w. unfold workflow_at. simpl. rewrite lookup_empty. apply path_nil.
Qed.

Lemma publish_all_ordered evs pub b :
  registered_ok b → ordered pub b →
  registered_ok (publish_all evs b) ∧ ordered (pub ++ evs) (publish_all evs b).
Proof.
  unfold publish_all. revert pub b. induction evs as [|ev evs IH]; intros pub b Hr Ho; simpl; [by rewrite app_nil_r|].
  rewrite (cons_middle ev), app_assoc. apply IH.
  - exact (bus_next_registered (LPublish ev) b _ Hr eq_refl).
  - exact (bus_next_ordered (LPublish ev) b _ pub Hr Ho eq_refl).
Qed.

Lemma told_emits pub e e' : emits engine_move e e' → told pub e → ∃ evs, told (pub ++ evs) e'.
Proof.
  intros He [Hk Hr Ho Ht Hw]. destruct (He Hk) as (Hk' & evs & Hb & Ht' & Hw'). exists evs.
  destruct (publish_all_ordered evs pub (eventBus e) Hr Ho) as [Hr' Ho']. split; rewrite ?Hb; [done..| |].
  - intros r. rewrite task_news_app. by eapply path_app.
  - intros w. rewrite workflow_news_app. by eapply path_app.
Qed.

(** A step of the bus publishes nothing. *)
Lemma told_bus l pub e e' :
  workflows e' = workflows e → is_publish l = false → bus_next l (eventBus e) = Some (eventBus e') →
  told pub e → told pub e'.
Proof.
  intros Hw Hl Hb [Hk Hr Ho Ht Hws].
  assert (∀ r, get_task e' r = get_task e r) as Hget by (intros r; by apply get_task_ext). split.
  - unfold keyed. rewrite Hw. by setoid_rewrite Hget.
  - by eapply bus_next_registered.
  - pose proof (bus_next_ordered l _ _ pub Hr Ho Hb) as Ho'. assert (published [l] = []) as Hp by by destruct l.
    by rewrite Hp, app_nil_r in Ho'.
  - intros r. by rewrite (task_at_ext e e').
  - intros w. unfold workflow_at. rewrite Hw. apply Hws.
Qed.

(** What is published is enough for a bound on what any subscriber has seen. *)
Lemma told_calls pub e p sub : told pub e → subs (eventBus e) !! p = Some sub → calls sub `sublist_of` pub.
Proof.
  intros [_ _ (D & HD & Hq) _ _] Hp. etrans; [|exact HD]. apply sublist_inserts_r. etrans; [|by eapply Hq].
  by apply sublist_inserts_r.
Qed.
(** A part of the path of a task, and of a workflow, up to now. *)
Definition seen_of_task e r (l : list TaskStatus) : Prop :=
  ∃ l', path engine_move TaskPending l' (task_at e r) ∧ l `sublist_of` l'.

Definition seen_of_workflow e w (l : list WorkflowStatus) : Prop :=
  ∃ l', path workflow_step WorkflowPending l' (workflow_at e w) ∧ l `sublist_of` l'.

(** A final status that was seen is the task's status. *)
Lemma seen_finished e r l st : seen_of_task e r l → st ∈ l → finished st → task_at e r = st.
Proof.
  intros (l' & Hp & Hl) Hin Hf. eapply path_stuck; [exact Hp|by eapply elem_of_sublist|].
  intros st'. by apply finished_no_move.
Qed.

Lemma seen_terminal e w l st :
  seen_of_workflow e w l → st ∈ l → WorkflowStatus_IsTerminated st = true → workflow_at e w = st.
Proof.
  intros (l' & Hp & Hl) Hin Hf. eapply path_stuck; [exact Hp|by eapply elem_of_sublist|].
  intros st'. by apply workflow_terminal_stuck.
Qed.

Lemma told_seen pub e evs :
  told pub e → evs `sublist_of` pub →
  (∀ r, seen_of_task e r (task_news r evs)) ∧ ∀ w, seen_of_workflow e w (workflow_news w evs).
Proof.
  intros [_ _ _ Ht Hw] Hs. split.
  - intros r. exists (task_news r pub). split; [apply Ht|]. by apply sublist_omap.
  - intros w. exists (workflow_news w pub). split; [apply Hw|]. by apply sublist_omap.
Qed.
End told.

(** ** In the system *)

Section system.
Context `{W : World} `{LS : LargeSort} {H Conn : Type} (NewClient : string → option Conn).
Implicit Types (s : System H Conn) (r : TaskRef) (w : string).

(** Every call the system makes emits what it does. *)
Lemma engine_effect_told l pub (e e' : Engine H) :
  engine_inv e → engine_effect e l e' → told pub e → ∃ evs, told (pub ++ evs) e'.
Proof.
  intros Hi Heff Ht. pose proof forward_move as Hf.
  destruct Heff as [wf Hsub|w k result|w|k|l r id|now id|l e' Hw Hl Hb|l e' Hw Hb _].
  - eapply told_emits; [|done]. by apply emits_SubmitWorkflow.
  - eapply told_emits; [|done]. by apply emits_OnTaskResponse.
  - eapply told_emits; [|done]. by apply emits_CancelWorkflow.
  - eapply told_emits; [|done]. by apply emits_CancelTask.
  - eapply told_emits; [|done]. by apply emits_OnTaskDispatched.
  - eapply told_emits; [|done]. by apply emits_ReassignDeadWorkerTasks.
  - exists []. rewrite app_nil_r. by eapply told_bus.
  - eapply told_emits; [|done]. by apply emits_same.
Qed.

Lemma system_told c bus s :
  NewBus c = Ret bus → rtc (sys_step NewClient) (sys_start bus) s → ∃ pub, told pub (eng s).
Proof.
  intros Hb Hr. eapply (rtc_invariant _ (λ s, sys_inv s ∧ ∃ pub, told pub (eng s))); [| |exact Hr].
  - split; [apply sys_inv_start|]. exists []. by eapply told_start.
  - intros x y [Hi [pub Ht]] (l & Hok & Hn). split; [by eapply sys_next_inv|].
    destruct (sys_next_effect NewClient l x y Hok (si_engine _ Hi) Hn) as [Heff _].
    destruct (engine_effect_told l pub _ _ (si_engine _ Hi) Heff Ht) as [evs Ht']. by eexists.
Qed.

Lemma system_seen c bus s p sub :
  NewBus c = Ret bus → rtc (sys_step NewClient) (sys_start bus) s → subs (eventBus (eng s)) !! p = Some sub →
  (∀ r, seen_of_task (eng s) r (task_news r (calls sub))) ∧
  ∀ w, seen_of_workflow (eng s) w (workflow_news w (calls sub)).
Proof.
  intros Hb Hr Hp. destruct (system_told c bus s Hb Hr) as [pub Ht]. eapply told_seen; [done|]. by eapply told_calls.
Qed.

(** C9. What a subscriber sees: in every state of the control plane,
    whatever the interleaving of its goroutines and whatever events were
    dropped at full buffers, the statuses of a task that a subscriber's handler
    was called with are a subsequence of a path of the task automaton from
    PENDING to the task's current status, and likewise for workflows; a final
    status, once seen, is the current one. *)
Theorem observed_statuses_follow_automaton c bus s p sub :
  NewBus c = Ret bus → rtc (sys_step NewClient) (sys_start bus) s → subs (eventBus (eng s)) !! p = Some sub →
  (∀ r, seen_of_task (eng s) r (task_news r (calls sub)) ∧
    ∀ st, st ∈ task_news r (calls sub) → finished st → task_at (eng s) r = st) ∧
  ∀ w, seen_of_workflow (eng s) w (workflow_news w (calls sub)) ∧
    ∀ st, st ∈ workflow_news w (calls sub) → WorkflowStatus_IsTerminated st = true → workflow_at (eng s) w = st.
Proof.
  intros Hb Hr Hp. destruct (system_seen c bus s p sub Hb Hr Hp) as [Ht Hw].
  split; [intros r|intros w]; (split; [done|intros st]); [by eapply seen_finished|by eapply seen_terminal].
Qed.

(** The statuses of one task among the messages of a stream. *)
Definition sent_of_task r (msgs : list WorkflowEvent) : list string :=
  omap (λ m, if decide (we_WorkflowId m = ref_wf r ∧ we_TaskId m = ref_task r) then Some (we_Status m) else None) msgs.

Lemma sent_of_task_streamed r wfID evs :
  ref_task r ≠ "" → sent_of_task r (streamed wfID evs) = TaskStatus_String <$> task_news r evs.
Proof.
  intros Hr. unfold streamed. induction evs as [|ev evs IH]; [done|]. cbn [mbind list_bind]. unfold sent_of_task in *.
  rewrite omap_app, IH. destruct ev as [v k st ts|v st ts]; simpl.
  - destruct r as [w0 k0]; simpl in *. destruct (decide (v = w0 ∧ k = k0)) as [[-> ->]|Hne]; [by rewrite decide_True|].
    by rewrite decide_False by (intros [=]; naive_solver).
  - destruct (WorkflowStatus_IsTerminated st); [done|]. case_decide; [done|]. simpl. by rewrite decide_False by naive_solver.
Qed.

(** C10. What a streaming client sees of a task: a client streams a workflow
    while the bus calls the handler of its subscription; in every state of the
    control plane, the statuses the client was sent for any task are the names
    of a subsequence of the task's path through the automaton, in order. *)
Theorem streamed_statuses_follow_automaton c bus s p sub e0 e1 wfID now (s0 st : Stream) tr r :
  NewBus c = Ret bus → rtc (sys_step NewClient) (sys_start bus) s → subs (eventBus (eng s)) !! p = Some sub →
  StreamWorkflowEvents wfID now true (e0 : Engine H) e1 = inr (Some s0) → stream_run s0 tr st → handled_events tr = calls sub →
  ref_task r ≠ "" →
  ∃ l, seen_of_task (eng s) r l ∧ sent_of_task r (st_sent st) = TaskStatus_String <$> l.
Proof.
  intros Hb Hr Hp Hs0 Hrun Hh Hne. destruct (system_told c bus s Hb Hr) as [pub Ht].
  destruct (stream_run_ok e0 e1 wfID now true s0 tr st Hs0 Hrun) as (wf & wf' & evs & _ & _ & _ & Hsent & Hsub & _).
  exists (task_news r evs). split.
  - apply (told_seen pub (eng s) evs Ht). etrans; [|by eapply told_calls]. rewrite <-Hh. etrans; [|exact Hsub].
    by apply sublist_inserts_r.
  - rewrite Hsent, <-(sent_of_task_streamed r wfID evs Hne). unfold sent_of_task at 1. simpl.
    rewrite decide_False; [done|]. unfold snapshotToEvent. simpl. by intros [_ ?].
Qed.
End system.
