(* ===== verification/SystemProgress.v ===== *)
(** * How long a workflow can take

    The measure of [EngineProgress.v] on executions of the control plane:
    every step that changes a status of a workflow brings it closer to its
    end, except the reassignments of a dead worker's tasks, so the number of
    such steps is bounded by the number of tasks and of reassignments. *)

From stdpp Require Import base gmap strings list relations.
From Stdlib Require Import ZArith Lia.
From S2P Require Import Prelude Status Domain Dag NewWorkflow EventBus GoFloat Jobs RetryQueue Registry Scheduler Client.
From S2P Require Import Engine WorkflowSpec EngineBase EngineProps EngineQueue EngineCauses EngineHistory EngineProgress.
From S2P Require Import System SystemCauses.

Section progress.
Context `{W : World} `{LS : LargeSort} {H Conn : Type} (NewClient : string → option Conn).
Implicit Types (s : System H Conn) (w : string) (tr : list (sys_label H)).

(** ** Counting the steps of an execution *)

(** The statuses of the workflow's tasks changed. *)
Definition changed w s s' : nat :=
  if decide (task_statuses <$> workflows (eng s') !! w = task_statuses <$> workflows (eng s) !! w) then 0 else 1.

(** A death hook reassigned tasks. *)
Definition reassigned_by (l : sys_label H) s : nat :=
  match l with LProbe _ => if reassigning s then 1 else 0 | _ => 0 end.

(** A dispatch request reached a worker but its response was lost. *)
Definition reply_lost (l : sys_label H) : nat :=
  match l with LScheduler (LReply true None) => 1 | _ => 0 end.

(** The sum of [f] over the steps of an execution. *)
Fixpoint count (f : sys_label H → System H Conn → System H Conn → nat) tr s : nat :=
  match tr with
  | [] => 0
  | l :: tr => match sys_next NewClient l s with Some (Ret s') => f l s s' + count f tr s' | _ => 0 end
  end.

Definition status_changes w : list (sys_label H) → System H Conn → nat := count (λ _ s s', changed w s s').
Definition reassignments : list (sys_label H) → System H Conn → nat := count (λ l s _, reassigned_by l s).
Definition lost_replies : list (sys_label H) → System H Conn → nat := count (λ l _ _, reply_lost l).

(** Every workflow submitted on the way is a new one. *)
Fixpoint labels_ok tr s : Prop :=
  match tr with
  | [] => True
  | l :: tr => label_ok l s ∧ match sys_next NewClient l s with Some (Ret s') => labels_ok tr s' | _ => True end
  end.

Lemma labels_ok_no_submit tr s : forallb (negb ∘ is_submit) tr = true → labels_ok tr s.
Proof.
  revert s. induction tr as [|l tr IH]; intros s; simpl; [done|]. intros [Hl Htr]%andb_true_iff.
  split; [by destruct l|]. destruct (sys_next NewClient l s) as [[s1|[]|]|]; auto.
Qed.

(** An invariant that counts: each step may add [f] of it. *)
Lemma count_inv f (I : nat → System H Conn → Prop) :
  (∀ n l s s', label_ok l s → sys_inv s → sys_next NewClient l s = Some (Ret s') → I n s → I (n + f l s s') s') →
  ∀ tr n s s', labels_ok tr s → sys_inv s → I n s → sys_exec NewClient tr s = Some s' → I (n + count f tr s) s'.
Proof.
  intros Hstep. induction tr as [|l tr IH]; intros n s s' Hok Hi HI Hx; simpl in *.
  - injection Hx as <-. by rewrite Nat.add_0_r.
  - destruct Hok as [Hl Hok]. destruct (sys_next NewClient l s) as [[s1|[]|]|] eqn:Hn; [|done..].
    rewrite Nat.add_assoc. apply (IH _ s1); [done|by eapply sys_next_inv|by apply (Hstep n l s)|done].
Qed.

Lemma count_add f g tr s : count (λ l s s', f l s s' + g l s s') tr s = count f tr s + count g tr s.
Proof.
  revert s. induction tr as [|l tr IH]; intros s; simpl; [done|].
  destruct (sys_next NewClient l s) as [[s1|[]|]|]; [|done..]. rewrite IH. lia.
Qed.

(** ** One step *)

(** All calls but a reassignment only move forward. *)
Lemma engine_effect_forward l (e e' : Engine H) :
  engine_inv e → engine_effect e l e' → match l with LProbe _ => false | _ => true end = true →
  workflows e' = workflows e ∨ emits forward e e'.
Proof.
  intros Hi Heff Hl. destruct Heff as [wf Hsub|w k result|w|k|l r id|now id|l e' Hw _ _|l e' Hw _ _].
  - right. exact (emits_SubmitWorkflow forward (λ _ _ Hs, Hs) e wf Hsub).
  - right. exact (emits_OnTaskResponse forward (λ _ _ Hs, Hs) e w k result Hi).
  - right. exact (emits_CancelWorkflow forward (λ _ _ Hs, Hs) e w).
  - right. exact (emits_CancelTask forward (λ _ _ Hs, Hs) e k).
  - right. exact (emits_OnTaskDispatched forward (λ _ _ Hs, Hs) e r id).
  - done.
  - by left.
  - by left.
Qed.

Lemma changed_le w s s' : changed w s s' ≤ 1.
Proof. unfold changed. case_decide; lia. Qed.

Lemma changed_same w s s' : workflows (eng s') = workflows (eng s) → changed w s s' = 0.
Proof. intros Hw. unfold changed. by rewrite Hw, decide_True. Qed.

Definition left_to_do w s : nat := default 0 (work <$> (task_statuses <$> workflows (eng s) !! w)).

Lemma sys_step_work l s s' w wf :
  label_ok l s → sys_inv s → sys_next NewClient l s = Some (Ret s') → workflows (eng s) !! w = Some wf →
  ∃ wf', workflows (eng s') !! w = Some wf' ∧ frozen_wf wf' = frozen_wf wf ∧
    changed w s s' + work (task_statuses wf') ≤ work (task_statuses wf) + (2 * size (Tasks wf) + 1) * reassigned_by l s.
Proof.
  intros Hok Hi Hn Hw. pose proof (si_engine _ Hi) as Hei.
  destruct (engine_steps_handled _ _ Hei (sys_next_engine NewClient l s s' Hok Hn)) as [_ Href].
  destruct (Href w wf Hw) as (wf' & Hw' & Hr). exists wf'. split_and!; [done|apply Hr|].
  assert (workflows (eng s') = workflows (eng s) → changed w s s' + work (task_statuses wf') ≤ work (task_statuses wf)) as Hsame.
  { intros Heq. rewrite changed_same by done. rewrite Heq, Hw in Hw'. injection Hw' as <-. done. }
  destruct (match l with LProbe _ => false | _ => true end) eqn:Hl.
  - destruct (sys_next_effect NewClient l s s' Hok Hei Hn) as [Heff _].
    destruct (engine_effect_forward l _ _ Hei Heff Hl) as [Heq|He]; [specialize (Hsame Heq); lia|].
    destruct (forward_work _ _ w wf wf' Hei He Hw Hw' Hr) as [Heq|Hlt]; [|pose proof (changed_le w s s'); lia].
    unfold changed. rewrite Hw, Hw'. simpl. rewrite Heq, decide_True by done. lia.
  - destruct l as [| | | | | | | | | |now]; try discriminate Hl. simpl in Hn |- *.
    destruct (probe_next_work now s s' Hn) as [(Heq & _)|(workerID & -> & Heq & _)]; [rewrite Heq in Hsame; specialize (Hsame eq_refl); lia|].
    assert (eng s' = ReassignDeadWorkerTasks (eng s) workerID) as Heng by (rewrite Heq; by destruct s).
    rewrite Heng in Hw'. pose proof (reassign_work (eng s) workerID w wf wf' Hei Hw Hw' Hr). pose proof (changed_le w s s'). lia.
Qed.

(** ** Executions *)

(** C7. Termination: in every execution of the control plane from a
    reachable state, for every stored workflow of [n] tasks, at most [4 * n]
    steps change the statuses of its tasks, and [2 * n + 1] more for every
    reassignment of a dead worker's tasks; what is left to do counts down to
    zero, which it reaches exactly when all tasks are finished. *)
Theorem status_changes_bounded s tr s' w wf :
  sys_reachable NewClient s → labels_ok tr s → sys_exec NewClient tr s = Some s' → workflows (eng s) !! w = Some wf →
  let n := size (Tasks wf) in
  status_changes w tr s + left_to_do w s' ≤ 4 * n + (2 * n + 1) * reassignments tr s ∧
  ∃ wf', workflows (eng s') !! w = Some wf' ∧
    (left_to_do w s' = 0 ↔ ∀ k t, Tasks wf' !! k = Some t → finished (task_status t)).
Proof.
  intros Hr%sys_reachable_inv Hok Hx Hw n.
  assert (work (task_statuses wf) ≤ 4 * n) as H0.
  { destruct (engine_inv_wf _ _ _ (si_engine _ Hr) Hw) as (_ & _ & [Hc _ _] & _).
    unfold n. rewrite <-(map_size_fmap task_status (Tasks wf)). apply work_bound, Hc. }
  assert (status_changes w tr s + left_to_do w s' ≤ work (task_statuses wf) + (2 * n + 1) * reassignments tr s ∧
    sys_inv s' ∧ ∃ wf', workflows (eng s') !! w = Some wf') as (Hle & Hi' & wf' & Hw').
  { clear H0. unfold n, status_changes, reassignments. clear n. revert s wf Hr Hok Hx Hw. induction tr as [|l tr IH]; intros s wf Hi Hok Hx Hw; simpl in *.
    - injection Hx as <-. unfold left_to_do. rewrite Hw. simpl. split; [lia|eauto].
    - destruct Hok as [Hl Hok]. destruct (sys_next NewClient l s) as [[s1|[]|]|] eqn:Hn; [|done..].
      destruct (sys_step_work l s s1 w wf Hl Hi Hn Hw) as (wf1 & Hw1 & Hf & Hstep).
      destruct (IH s1 wf1) as (Hle & Hi' & Hw'); [by eapply sys_next_inv|done..|]. split; [|done].
      assert (size (Tasks wf1) = size (Tasks wf)) as Hsz.
      { rewrite <-(map_size_fmap frozen (Tasks wf)), <-(map_size_fmap frozen (Tasks wf1)), <-!frozen_wf_Tasks. by rewrite Hf. }
      rewrite Hsz in Hle. lia. }
  split; [lia|]. exists wf'. split; [done|]. destruct (engine_inv_wf _ _ _ (si_engine _ Hi') Hw') as (_ & _ & [Hc _ _] & _).
  unfold left_to_do. rewrite Hw'. simpl. rewrite (work_zero _ (con_known _ _ Hc)). unfold all_finished.
  setoid_rewrite task_statuses_Some. split; [intros Hf k t Ht; eauto|intros Hf k st (t & Ht & <-); eauto].
Qed.
End progress.
