(* ===== verification/SystemDelivery.v ===== *)
(** * How often a task is sent to a worker

    A task's request reaches a worker once, and once more for each response
    that was lost on the way back and for each reassignment of a dead worker's
    tasks: nothing else duplicates it. *)

From stdpp Require Import base gmap strings list relations.
From Stdlib Require Import ZArith Lia.
From S2P Require Import Prelude Status Domain Dag NewWorkflow EventBus GoFloat Jobs RetryQueue Registry Scheduler Client.
From S2P Require Import Engine WorkflowSpec EngineBase EngineProps EngineQueue EngineCauses EngineHistory EngineProgress.
From S2P Require Import System SystemCauses SystemProgress.

(** ** What the engine queues *)

Section engine.
Context `{W : World} {H : Type}.
Implicit Types (e : Engine H) (r : TaskRef) (js : list (Job TaskRef)).

(** PENDING is never entered. *)
Lemma path_pending s l : path engine_move s l TaskPending → s = TaskPending.
Proof.
  intros Hp. remember TaskPending as s' eqn:Hs'. induction Hp as [|x y l z [Hxy _] _ IH]; [done|].
  specialize (IH Hs'). subst. apply task_step_graph in Hxy. by destruct x.
Qed.

Lemma forward_ready s l : path forward s l TaskReady → s = TaskPending ∨ s = TaskReady.
Proof.
  intros Hp. remember TaskReady as s' eqn:Hs'. induction Hp as [|x y l z [[Hxy _] Hr] _ IH]; [by right|].
  specialize (IH Hs'). subst. destruct IH as [->| ->]; [|left; by apply Hr]. apply task_step_graph in Hxy. by destruct x.
Qed.

Lemma phase_task_at e r : phase e r = status_phase (task_at e r).
Proof. unfold phase, task_at. by destruct (get_task e r). Qed.

Lemma jobs_for_elem r js : jobs_for r js ≠ 0 → ∃ j, j ∈ js ∧ OnDispatched j = Some r.
Proof.
  unfold jobs_for. intros Hn. destruct (filter (λ x, x = r) (targets js)) as [|r' l] eqn:Hf; [done|].
  assert (r' ∈ filter (λ x, x = r) (targets js)) as Hin by (rewrite Hf; left).
  apply list_elem_of_filter in Hin as [-> Hin]. by apply list_elem_of_omap in Hin.
Qed.

(** The jobs [js] a call adds to the queue: at most one for a task, which is
    READY then and was [from] one of these statuses. *)
Definition queues (from : TaskStatus → Prop) e e' : Prop :=
  ∃ js, queue e' = queue e ++ js ∧
    ∀ r, jobs_for r js ≤ 1 ∧ (jobs_for r js ≠ 0 → from (task_at e r) ∧ task_at e' r = TaskReady).

Lemma pushes_ready_task_at e e' js r :
  pushes_ready e e' → queue e' = queue e ++ js → jobs_for r js ≠ 0 → task_at e' r = TaskReady.
Proof.
  intros (js' & Hq' & Hjs) Hq (j & Hj & Hr)%jobs_for_elem. rewrite Hq in Hq'. apply app_inv_head in Hq' as ->.
  destruct (Hjs j Hj) as (r' & t & Ht & Hs & ->). injection Hr as ->. by rewrite (task_at_Some _ _ _ Ht).
Qed.

(** A call that moves forward queues only tasks that were PENDING. *)
Lemma forward_queues e e' :
  keyed e → emits forward e e' → grows e e' → pushes_ready e e' → queues (λ s, s = TaskPending) e e'.
Proof.
  intros Hk He [_ (js & Hq & _ & Hp)] Hpr. exists js. split; [done|]. intros r. destruct (Hp r) as (_ & H1 & Hp0 & _).
  split; [done|]. intros Hn. pose proof (pushes_ready_task_at _ _ _ r Hpr Hq Hn) as Hr. split; [|done].
  destruct (He Hk) as (_ & evs & _ & Ht & _). specialize (Ht r). rewrite Hr in Ht.
  apply forward_ready in Ht as [Ht|Ht]; [done|exfalso]. apply Hn, Hp0. by rewrite phase_task_at, Ht.
Qed.

Lemma reassign_queues e workerID : queues (λ s, s ≠ TaskPending) e (ReassignDeadWorkerTasks e workerID).
Proof.
  destruct (grows_ReassignDeadWorkerTasks e workerID) as [_ (js & Hq & Hjs & Hp)]. exists js. split; [done|]. intros r.
  destruct (Hp r) as (_ & H1 & _). split; [done|]. intros Hn.
  pose proof (pushes_ready_task_at _ _ _ r (pushes_ready_Reassign e workerID) Hq Hn) as Hr. split; [|done].
  intros Hpend. pose proof (ReassignDeadWorkerTasks_get workerID e r) as Hget. unfold task_at in Hr, Hpend. rewrite Hget in Hr.
  destruct (get_task e r) as [t|]; [|done]. simpl in Hr, Hpend. unfold reassigned in Hr. case_decide as Hl; [|congruence].
  destruct Hl as [_ [Hl|Hl]]; congruence.
Qed.
End engine.

(** ** Deliveries *)

Section system.
Context `{W : World} `{LS : LargeSort} {H Conn : Type} (NewClient : string → option Conn).
Implicit Types (s : System H Conn) (r : TaskRef) (j : Job TaskRef).

(** The request is for the task [r]. *)
Definition request_for r (req : option DispatchRequest) : Prop :=
  (λ d, (dr_WorkflowId d, dr_TaskId d)) <$> req = Some (ref_wf r, ref_task r).

#[export] Instance request_for_dec r req : Decision (request_for r req).
Proof. unfold request_for. apply _. Defined.

Definition deliveries r s : nat := length (filter (λ cr, request_for r cr.2) (delivered s)).

(** The jobs that were not delivered yet, or whose delivery has to be repeated. *)
Definition undelivered s : list (Job TaskRef) :=
  queue (eng s) ++ match sched s with SchedCallback _ jobs _ _ => jobs | pc => sched_jobs pc end.

(** How often the task was delivered or may still be. *)
Definition sends r s : nat := deliveries r s + jobs_for r (undelivered s).

Lemma jobs_for_cons r j js : jobs_for r (j :: js) = jobs_for r [j] + jobs_for r js.
Proof. exact (jobs_for_app r [j] js). Qed.

Lemma request_for_job (e : Engine H) r j :
  engine_inv e → job_ok e j → jobs_for r [j] = if decide (request_for r (Request j)) then 1 else 0.
Proof.
  intros Hi (r' & t & Ht & ->). rewrite jobs_for_job. destruct (engine_inv_keyed e Hi) as [_ Hk].
  destruct (Hk r' t Ht) as [Hw Hid]. destruct r as [w k], r' as [w' k']. simpl in *.
  unfold request_for. simpl. rewrite Hw, Hid. apply decide_ext. split; [by intros [= -> ->]|congruence].
Qed.

(** A step of the scheduler sends nothing twice, unless a response is lost. *)
Lemma sched_next_sends l s s' r :
  sys_inv s → sched_next NewClient l s = Some (Ret s') →
  ∃ n, sends r s' = sends r s + n ∧ n ≤ reply_lost (LScheduler l : sys_label H) ∧ (n ≠ 0 → sends r s ≠ 0).
Proof.
  intros Hi Hn. pose proof (si_engine _ Hi) as Hei. pose proof (si_jobs _ Hi) as Hjobs.
  destruct s as [e rg g c p b d]. unfold sends, undelivered, deliveries, outstanding in *.
  destruct l as [visible| |arrived resp], p as [|jobs|ws jobs|ws jobs job id|ws jobs job id|
    ws jobs job id conn|ws jobs job id|ws jobs id|ws jobs job]; unfold sched_next in Hn;
    cbn [sched eng reg conns delivered set_sched set_eng set_reg set_conns set_delivered sched_jobs] in *; try discriminate Hn.
  - exists 0. destruct (pop_outstanding visible (queue e)) as (batch & rest & Hp & Hq). rewrite Hp in Hn. simpl in Hn.
    injection Hn as <-. cbn [sched eng delivered set_sched set_eng]. rewrite queue_set_queue, app_nil_r.
    enough (jobs_for r ((rest ++ drop visible (queue e)) ++ batch) = jobs_for r (queue e)) as Heq.
    { split; [|done]. rewrite Nat.add_0_r. f_equal. rewrite <-Heq. by destruct batch. }
    by rewrite <-app_assoc, Hq.
  - case_match; [done|]. destruct (AliveWorkers rg) as [ws r']. injection Hn as <-. exists 0. simpl. lia.
  - destruct jobs as [|job jobs]; [|destruct (selectWorker _ _)]; injection Hn as <-; exists 0; simpl; lia.
  - destruct (getOrDial_cached id c); injection Hn as <-; exists 0; simpl; lia.
  - case_match; [done|]. destruct (getOrDial_dial NewClient id (AddressOf id rg) c) as [[conn|] cs]; injection Hn as <-;
      exists 0; simpl; lia.
  - assert (job_ok e job) as (r' & t & _ & ->) by (apply Hjobs; rewrite elem_of_app; right; left).
    simpl in Hn. injection Hn as <-. exists 0. cbn [sched eng delivered set_sched set_eng sched_jobs].
    destruct (OnTaskDispatched_effect e r' id) as (-> & _). simpl. lia.
  - case_match; [done|]. injection Hn as <-. exists 0. simpl. lia.
  - injection Hn as <-. exists 0. cbn [sched eng delivered set_sched set_eng sched_jobs].
    rewrite queue_set_queue. unfold Jobs.Push. rewrite !jobs_for_app, (jobs_for_cons r job jobs). simpl. lia.
  - assert (job_ok e job) as Hjob by (apply Hjobs; rewrite elem_of_app; right; left).
    pose proof (request_for_job e r job Hei Hjob) as Hreq.
    assert (length (filter (λ cr, request_for r cr.2) (d ++ [(conn, Request job)])) =
      length (filter (λ cr, request_for r cr.2) d) + jobs_for r [job]) as Hdel.
    { rewrite filter_app, length_app, Hreq, filter_cons, filter_nil. simpl. by case_decide. }
    destruct resp, arrived; simplify_eq/=; rewrite ?Hdel, ?jobs_for_app, ?(jobs_for_cons r job jobs).
    + exists 0. lia.
    + exists (jobs_for r [job]). rewrite Hreq. case_decide; lia.
    + exists 0. lia.
Qed.

(** ** The invariant *)

Definition sent_ok (n : nat) s : Prop :=
  ∀ r, sends r s ≤ 1 + n ∧ (task_at (eng s) r = TaskPending → sends r s = 0).

(** A call of the engine. *)
Lemma sent_ok_queues n (m : nat) from s s' :
  delivered s' = delivered s → sched s' = sched s → queues from (eng s) (eng s') →
  (∀ r, task_at (eng s') r = TaskPending → task_at (eng s) r = TaskPending) →
  (m = 0 → ∀ st, from st → st = TaskPending) → sent_ok n s → sent_ok (n + m) s'.
Proof.
  intros Hd Hs (js & Hq & Hjs) Hpend Hm Hok r. destruct (Hok r) as [Hle Hz]. destruct (Hjs r) as [H1 Hn].
  assert (sends r s' = sends r s + jobs_for r js) as ->.
  { unfold sends, deliveries, undelivered. rewrite Hd, Hs, Hq, !jobs_for_app. lia. }
  split.
  - destruct (decide (jobs_for r js = 0)) as [->|Hne]; [lia|]. destruct (Hn Hne) as [Hf _].
    destruct m as [|m]; [|lia]. rewrite (Hz (Hm eq_refl _ Hf)). lia.
  - intros Hp. rewrite (Hz (Hpend r Hp)). destruct (decide (jobs_for r js = 0)) as [|Hne]; [done|].
    destruct (Hn Hne) as [_ Hr]. congruence.
Qed.

Lemma sent_ok_same n m s s' : same_work s s' → sent_ok n s → sent_ok (n + m) s'.
Proof.
  intros (He & Hs & Hd) Hok r. destruct (Hok r) as [Hle Hz]. unfold sends, deliveries, undelivered in *.
  rewrite He, Hs, Hd. split; [lia|done].
Qed.

Lemma emits_pending (e e' : Engine H) r :
  keyed e → emits engine_move e e' → task_at e' r = TaskPending → task_at e r = TaskPending.
Proof.
  intros Hk He Hp. destruct (He Hk) as (_ & evs & _ & Ht & _). specialize (Ht r). rewrite Hp in Ht.
  by apply path_pending in Ht.
Qed.

Lemma emits_forward_move (e e' : Engine H) : emits forward e e' → emits engine_move e e'.
Proof.
  intros He Hk. destruct (He Hk) as (Hk' & evs & Hb & Ht & Hw). split; [done|]. exists evs. split_and!; [done| |done].
  intros r. eapply path_mono; [|apply Ht]. apply forward_move.
Qed.

(** A call that moves forward. *)
Lemma sent_ok_forward n m s (e' : Engine H) :
  engine_inv (eng s) → emits forward (eng s) e' → grows (eng s) e' → pushes_ready (eng s) e' →
  sent_ok n s → sent_ok (n + m) (set_eng e' s).
Proof.
  intros Hi%engine_inv_keyed He Hg Hp Hok. assert (eng (set_eng e' s) = e') as Heng by by destruct s.
  eapply (sent_ok_queues n m (λ st, st = TaskPending) s); [by destruct s|by destruct s|..]; rewrite ?Heng.
  - by apply forward_queues.
  - intros r. apply emits_pending; [done|]. by apply emits_forward_move.
  - done.
  - done.
Qed.

(** What a step may add to the bound. *)
Definition resend (l : sys_label H) s : nat := reply_lost l + reassigned_by l s.

Lemma sent_ok_next n l s s' :
  label_ok l s → sys_inv s → sys_next NewClient l s = Some (Ret s') → sent_ok n s → sent_ok (n + resend l s) s'.
Proof.
  intros Hl Hi Hn Hok. pose proof (si_engine _ Hi) as Hei. pose proof (λ (x y : TaskStatus) (Hxy : forward x y), Hxy) as Hf.
  destruct l as [wf|w k result|w|k|nd now|i now|id m now|id|bl|sl|now]; unfold resend; cbn [sys_next] in Hn.
  - injection Hn as <-. apply sent_ok_forward; [done|exact (emits_SubmitWorkflow forward Hf _ wf Hl)|by apply grows_SubmitWorkflow|
      by apply pushes_ready_SubmitWorkflow|done].
  - injection Hn as <-. apply sent_ok_forward; [done|exact (emits_OnTaskResponse forward Hf _ w k result Hei)|by apply grows_OnTaskResponse|
      by apply pushes_ready_OnTaskResponse|done].
  - injection Hn as <-. apply sent_ok_forward; [done|exact (emits_CancelWorkflow forward Hf _ w)|by apply grows_CancelWorkflow|
      apply pushes_ready_Cancel|done].
  - injection Hn as <-. apply sent_ok_forward; [done|exact (emits_CancelTask forward Hf _ k)|by apply grows_CancelTask|
      apply pushes_ready_Cancel|done].
  - case_match; [done|]. injection Hn as <-. eapply sent_ok_same; [|done]. by destruct s.
  - destruct (registering s !! i) as [id|]; [|done]. destruct (register_push id now (reg s)); [|done..].
    simpl in Hn. injection Hn as <-. eapply sent_ok_same; [|done]. by destruct s.
  - case_match; [done|]. injection Hn as <-. eapply sent_ok_same; [|done]. by destruct s.
  - case_match; [done|]. injection Hn as <-. eapply sent_ok_same; [|done]. by destruct s.
  - destruct (is_publish bl); [done|]. destruct (bus_next bl (eventBus (eng s))) as [b|]; [|done]. injection Hn as <-.
    intros r. destruct (Hok r) as [Hle Hz]. destruct s as [[] ? ? ? ? ? ?]. simpl in *. rewrite Nat.add_0_r. by split.
  - intros r. destruct (Hok r) as [Hle Hz]. destruct (sched_next_sends sl s s' r Hi Hn) as (x & Hx & Hxl & Hxn).
    rewrite Hx. cbn [reassigned_by]. rewrite Nat.add_0_r.
    split; [lia|]. intros Hp. assert (task_at (eng s) r = TaskPending) as Hps.
    { destruct (sys_next_effect NewClient (LScheduler sl) s s' Hl Hei Hn) as [Heff _].
      destruct (engine_effect_forward _ _ _ Hei Heff eq_refl) as [Hw|He].
      - rewrite <-Hp. symmetry. by apply task_at_ext, get_task_ext.
      - eapply emits_pending; [by apply engine_inv_keyed|by apply emits_forward_move|done]. }
    specialize (Hz Hps). destruct x; [lia|]. by destruct Hxn.
  - destruct (probe_next_work now s s' Hn) as [Hsame|(workerID & Hre & Hsame)]; [by eapply sent_ok_same|].
    simpl. rewrite Hre. rewrite <-(Nat.add_0_r (n + 1)). eapply sent_ok_same; [exact Hsame|].
    assert (∀ e', eng (set_eng e' s) = e') as Heng by by destruct s.
    eapply (sent_ok_queues n 1 (λ st, st ≠ TaskPending) s); [by destruct s|by destruct s|..]; rewrite ?Heng; [| |done|done].
    + apply reassign_queues.
    + intros r. apply emits_pending; [by apply engine_inv_keyed|apply emits_ReassignDeadWorkerTasks].
Qed.

Lemma sent_ok_start bus : sent_ok 0 (sys_start bus).
Proof. intros r. unfold sends, deliveries, undelivered, jobs_for. simpl. split; [lia|done]. Qed.

(** C6. At most one delivery: in every execution of the control plane from
    its start, the request of a task reaches workers at most once, plus once
    for each response that was lost after its request had arrived and for each
    reassignment of a dead worker's tasks; a PENDING task was never sent. *)
Theorem deliveries_bounded bus tr s r :
  labels_ok NewClient tr (sys_start bus) → sys_exec NewClient tr (sys_start bus) = Some s →
  deliveries r s ≤ 1 + lost_replies NewClient tr (sys_start bus) + reassignments NewClient tr (sys_start bus) ∧
  (task_at (eng s) r = TaskPending → deliveries r s = 0).
Proof.
  intros Hok Hx. pose proof (count_inv NewClient (λ l s _, resend l s) sent_ok (λ n l s s', sent_ok_next n l s s')
    tr 0 _ s Hok (sys_inv_start bus) (sent_ok_start bus) Hx r) as [Hle Hz].
  unfold resend in Hle. rewrite count_add in Hle. unfold sends in Hle, Hz. unfold lost_replies, reassignments.
  split; [lia|]. intros Hp. specialize (Hz Hp). lia.
Qed.
End system.
