(* ===== verification/SystemWork.v ===== *)
(** * What unfinished tasks wait for

    A task that is DISPATCHED or RUNNING was sent to a worker ([work_inv]), so
    an unfinished task always waits for a job of the control plane or for the
    report of a worker ([unfinished_task_has_work]).  Nothing makes that report
    come: a report that arrives before the scheduler's callback is lost for
    good ([early_report_is_lost]). *)

From stdpp Require Import base gmap strings list relations.
From Stdlib Require Import ZArith Lia.
From S2P Require Import Prelude Status Domain Dag NewWorkflow EventBus GoFloat Jobs RetryQueue Registry Scheduler Client.
From S2P Require Import Engine WorkflowSpec EngineBase EngineProps EngineQueue EngineCauses EngineHistory EngineStays.
From S2P Require Import System SystemCauses SystemProgress.

Section work.
Context `{W : World} `{LS : LargeSort} {H Conn : Type} (NewClient : string → option Conn).
Implicit Types (e : Engine H) (s : System H Conn) (r : TaskRef).

(** ** Executing tasks were sent *)

(** The job's request has reached a worker. *)
Definition sent (j : Job TaskRef) s : Prop := ∃ conn, (conn, Request j) ∈ delivered s.

Record work_inv s : Prop := {
  wi_callback ws jobs job id : sched s = SchedCallback ws jobs job id → sent job s;
  wi_executing r t : get_task (eng s) r = Some t → executing (task_status t) → sent (job_of r t) s;
}.

Lemma job_of_request_keeps e e' r t t' :
  keeps e e' → get_task e r = Some t → get_task e' r = Some t' → job_of r t' = job_of r t.
Proof.
  intros Hk Ht Ht'. destruct (Hk r t Ht) as (t1 & Ht1 & Hf & _). rewrite Ht' in Ht1. injection Ht1 as <-.
  by apply job_of_frozen.
Qed.

(** A step after which no task executes that did not before. *)
Lemma work_inv_from s s' :
  keeps (eng s) (eng s') → executes_from (eng s) (eng s') → (∀ j, sent j s → sent j s') →
  (∀ ws jobs job id, sched s' = SchedCallback ws jobs job id → sent job s') → work_inv s → work_inv s'.
Proof.
  intros Hk Hx Hd Hs [_ Hw]. split; [done|]. intros r t' Ht' He. destruct (Hx r t' Ht' He) as (t & Ht & Het).
  rewrite (job_of_request_keeps _ _ _ _ _ Hk Ht Ht'). by eapply Hd, Hw.
Qed.

Lemma sched_next_work l s s' :
  sys_inv s → sched_next NewClient l s = Some (Ret s') → keeps (eng s) (eng s') → work_inv s → work_inv s'.
Proof.
  intros Hinv Hn Hk Hw. pose proof (si_jobs _ Hinv) as Hjobs.
  destruct s as [e rg g c p b d]. unfold outstanding in Hjobs. simpl in Hk, Hjobs.
  destruct l as [visible| |arrived resp], p as [|jobs|ws jobs|ws jobs job id|ws jobs job id|
    ws jobs job id conn|ws jobs job id|ws jobs id|ws jobs job]; unfold sched_next in Hn;
    cbn [sched eng reg conns delivered set_sched set_eng set_reg set_conns set_delivered] in Hn; try discriminate Hn.
  - destruct (pop_outstanding visible (queue e)) as (batch & rest & Hp & _). rewrite Hp in Hn. simpl in Hn. injection Hn as <-.
    revert Hw. apply work_inv_from; [exact Hk|apply executes_from_same; by destruct e|done|by destruct batch].
  - case_match; [done|]. destruct (AliveWorkers rg) as [ws r]. injection Hn as <-.
    by revert Hw; apply work_inv_from.
  - destruct jobs as [|job jobs]; [|destruct (selectWorker _ _)]; injection Hn as <-;
      by revert Hw; apply work_inv_from.
  - destruct (getOrDial_cached id c); injection Hn as <-; by revert Hw; apply work_inv_from.
  - case_match; [done|]. destruct (getOrDial_dial NewClient id (AddressOf id rg) c) as [[conn|] cs]; injection Hn as <-;
      by revert Hw; apply work_inv_from.
  - destruct (OnDispatched job) as [r|] eqn:Hcb; injection Hn as <-.
    2:{ by revert Hw; apply work_inv_from. }
    split; [done|]. simpl. intros r' t' Ht' He.
    assert (job_ok e job) as (r0 & t & Ht & ->) by (apply Hjobs; rewrite elem_of_app; right; left). injection Hcb as ->.
    destruct (executes_from_OnTaskDispatched _ _ _ _ _ Ht' He) as [->|(t1 & Ht1 & He1)].
    + rewrite (job_of_request_keeps _ _ _ _ _ Hk Ht Ht'). destruct (wi_callback _ Hw _ _ _ _ eq_refl) as [conn Hc]. by exists conn.
    + rewrite (job_of_request_keeps _ _ _ _ _ Hk Ht1 Ht'). destruct (wi_executing _ Hw _ _ Ht1 He1) as [conn Hc]. by exists conn.
  - case_match; [done|]. injection Hn as <-. by revert Hw; apply work_inv_from.
  - injection Hn as <-. revert Hw. apply work_inv_from; [exact Hk|apply executes_from_same; by destruct e|done|done].
  - assert (∀ j, sent j {| eng := e; reg := rg; registering := g; conns := c; sched := SchedRPC ws jobs job id conn;
      probing := b; delivered := d |} → ∃ cn, (cn, Request j) ∈ d ++ [(conn, Request job)]) as Hd.
    { intros j [cn Hc]. exists cn. apply elem_of_app. by left. }
    destruct resp as [resp|], arrived; simplify_eq/=; revert Hw; apply work_inv_from; try exact Hk; try done.
    simpl. intros ? ? ? ? [= <- <- <- <-]. exists conn. simpl. apply elem_of_app. right. left.
Qed.

Lemma work_inv_next l s s' :
  label_ok l s → sys_inv s → sys_next NewClient l s = Some (Ret s') → work_inv s → work_inv s'.
Proof.
  intros Hok Hinv Hn Hw. pose proof (sys_next_keeps NewClient l s s' Hok Hinv Hn) as Hk.
  pose proof (si_engine _ Hinv) as Hi. destruct (is_sched l) eqn:Hl.
  - destruct l as [| | | | | | | | |l|]; try done. by eapply sched_next_work.
  - destruct (sys_next_sched NewClient l s s' Hn Hl) as [Hs Hd].
    assert (∀ j, sent j s → sent j s') as Hsent by (intros j; unfold sent; by rewrite Hd).
    apply (work_inv_from s s'); [exact Hk| |exact Hsent| |exact Hw].
    + destruct (sys_next_effect NewClient l s s' Hok Hi Hn) as [Heff _]. clear Hn Hk Hs Hd Hsent.
      destruct Heff as [wf Hsub|w k result|w|k|l r id|now id|l e' Hwf _ _|l e' Hwf _ _]; try done.
      * by apply executes_from_SubmitWorkflow.
      * by apply executes_from_OnTaskResponse.
      * apply executes_from_CancelWorkflow.
      * apply executes_from_CancelTask.
      * apply executes_from_Reassign.
      * by apply executes_from_same.
      * by apply executes_from_same.
    + rewrite Hs. intros ws jobs job id Hcb. by eapply Hsent, wi_callback.
Qed.

Lemma work_inv_start bus : work_inv (sys_start bus).
Proof. split; [done|]. intros r t. unfold get_task, tasks_of. simpl. by rewrite lookup_empty. Qed.

Lemma sys_reachable_work s : sys_reachable NewClient s → work_inv s.
Proof.
  intros [bus Hr]. enough (sys_inv s ∧ work_inv s) by tauto.
  eapply (rtc_invariant _ (λ s, sys_inv s ∧ work_inv s)); [| |exact Hr].
  - split; [apply sys_inv_start|apply work_inv_start].
  - intros x y [Hx Hwx] (l & Hok & Hn). split; [by eapply sys_next_inv|by eapply work_inv_next].
Qed.

(** C5. What an unfinished task waits for: in every state of the system, every
    unfinished task is, or transitively depends on, a task of its workflow
    that is either READY, with exactly one job, its own, in the ready queue or
    in the scheduler's hands; or DISPATCHED or RUNNING, without a job, after
    its request was delivered to a worker.  In the second case it is the
    worker's turn: whether it ever reports is not claimed. *)
Theorem unfinished_task_has_work s r t :
  sys_reachable NewClient s → get_task (eng s) r = Some t → ¬ finished (task_status t) →
  ∃ k' t', rtc (depends (tasks_of (eng s) (ref_wf r))) (ref_task r) k' ∧
    let r' := {| ref_wf := ref_wf r; ref_task := k' |} in
    get_task (eng s) r' = Some t' ∧
    (task_status t' = TaskReady ∧ jobs_for r' (outstanding s) = 1 ∧ job_of r' t' ∈ outstanding s ∨
     executing (task_status t') ∧ jobs_for r' (outstanding s) = 0 ∧
       ∃ conn, (conn, Request (job_of r' t')) ∈ delivered s).
Proof.
  intros Hr Ht Hf. pose proof (sys_reachable_inv NewClient s Hr) as Hi.
  destruct (unfinished_depends_active (eng s) r t (si_engine _ Hi) Ht Hf) as (k' & t' & Hrtc & Ht' & Ha).
  exists k', t'. cbn zeta. split; [exact Hrtc|]. split; [exact Ht'|].
  pose proof (si_held _ Hi {| ref_wf := ref_wf r; ref_task := k' |}) as (H0 & H1 & _).
  unfold phase in H0, H1. rewrite Ht' in H0, H1. simpl in H0, H1. destruct Ha as [Hs|Hx]; [left|right].
  - rewrite Hs in H1. specialize (H1 eq_refl). split; [exact Hs|]. split; [exact H1|].
    apply outstanding_job; [done..|]. by rewrite H1.
  - split; [exact Hx|]. split; [apply H0; by destruct Hx as [-> | ->]|].
    by apply (wi_executing _ (sys_reachable_work s Hr)).
Qed.

(** ** A report that comes too early *)

(** The steps that may change the status of a DISPATCHED task [r]: a report for
    it, its own or its workflow's cancellation, and a reassignment of a dead
    worker's tasks. *)
Definition disturbs r (l : sys_label H) s : Prop :=
  match l with
  | LResponse w k _ => w = ref_wf r ∧ k = ref_task r
  | LCancelWorkflow w => w = ref_wf r
  | LCancelTask k => k = ref_task r
  | LProbe _ => reassigning s = true
  | _ => False
  end.

Fixpoint undisturbed r (tr : list (sys_label H)) s : Prop :=
  match tr with
  | [] => True
  | l :: tr =>
      ¬ disturbs r l s ∧ match sys_next NewClient l s with Some (Ret s') => undisturbed r tr s' | _ => True end
  end.

Lemma dispatched_next r l s s' :
  label_ok l s → sys_inv s → sys_next NewClient l s = Some (Ret s') → ¬ disturbs r l s →
  task_at (eng s) r = TaskDispatched → task_at (eng s') r = TaskDispatched.
Proof.
  intros Hok Hinv Hn Hd Hr. pose proof (si_engine _ Hinv) as Hi.
  destruct (sys_next_effect NewClient l s s' Hok Hi Hn) as [Heff _].
  assert (∀ now, l = LProbe now → workflows (eng s') = workflows (eng s)) as Hprobe.
  { intros now ->. destruct (probe_next_work now s s' Hn) as [(-> & _)|(id & ? & _)]; [done|]. by destruct Hd. }
  revert Heff Hprobe. generalize (eng s') as e'. intros e' Heff Hprobe.
  assert (workflows e' = workflows (eng s) → task_at e' r = TaskDispatched) as Hsame.
  { intros Hw. rewrite <-Hr. by apply task_at_ext, get_task_ext. }
  destruct Heff as [wf Hsub|w k result|w|k|l r' id|now id|l e' Hw _ _|l e' Hw _ _]; simpl in Hd.
  - by apply SubmitWorkflow_dispatched.
  - apply OnTaskResponse_dispatched; [done| |done]. intros ->. by apply Hd.
  - by rewrite CancelWorkflow_dispatched.
  - apply CancelTask_dispatched; [done| |done]. intros ->. by apply Hd.
  - by apply OnTaskDispatched_dispatched.
  - by eapply Hsame, Hprobe.
  - by apply Hsame.
  - by apply Hsame.
Qed.

Lemma dispatched_stays r tr s s' :
  labels_ok NewClient tr s → sys_inv s → undisturbed r tr s → sys_exec NewClient tr s = Some s' →
  task_at (eng s) r = TaskDispatched → sys_inv s' ∧ task_at (eng s') r = TaskDispatched.
Proof.
  revert s. induction tr as [|l tr IH]; intros s; simpl; [by intros _ ? _ [= <-]|].
  destruct (sys_next NewClient l s) as [[s1|[]|]|] eqn:Hn; [|done..]. intros [Hl Hls] Hi [Hd Hu] Hx Hr.
  apply (IH s1); [done|by eapply sys_next_inv|done|done|]. by eapply dispatched_next.
Qed.

(** C40. A worker's report that overtakes the scheduler's callback is lost.  Any
    report for a task that is still READY is answered without an error and
    changes neither a workflow nor the ready queue.  When the scheduler then
    runs the callback of the task's job, the task becomes DISPATCHED, assigned
    to the worker that has already reported, with the result it had before and
    without a job; and so it stays, DISPATCHED and without a job, in every
    execution in which nobody reports on it again, cancels it or its workflow,
    and no dead worker's tasks are reassigned. *)
Theorem early_report_is_lost s r t result :
  sys_reachable NewClient s → get_task (eng s) r = Some t → task_status t = TaskReady →
  (let '(err, e') := OnTaskResponse (eng s) (ref_wf r) (ref_task r) result in
   err = None ∧ workflows e' = workflows (eng s) ∧ queue e' = queue (eng s)) ∧
  ∀ ws jobs job workerID, sched s = SchedCallback ws jobs job workerID → OnDispatched job = Some r →
  ∃ s1 s2, sys_next NewClient (LResponse (ref_wf r) (ref_task r) result) s = Some (Ret s1) ∧
    sys_next NewClient (LScheduler LSched) s1 = Some (Ret s2) ∧
    get_task (eng s2) r = Some (set_task_status TaskDispatched (set_AssignedTo workerID t)) ∧
    ∀ tr s3, labels_ok NewClient tr s2 → undisturbed r tr s2 → sys_exec NewClient tr s2 = Some s3 →
      task_at (eng s3) r = TaskDispatched ∧ jobs_for r (outstanding s3) = 0.
Proof.
  intros Hr%sys_reachable_inv Ht Hs. pose proof (OnTaskResponse_ready _ _ _ result (si_engine _ Hr) Ht Hs) as He.
  split; [exact He|]. intros ws jobs job workerID Hsch Hcb.
  set (e1 := (OnTaskResponse (eng s) (ref_wf r) (ref_task r) result).2). set (s1 := set_eng e1 s).
  assert (sys_next NewClient (LResponse (ref_wf r) (ref_task r) result) s = Some (Ret s1)) as Hn1 by done.
  pose proof (sys_next_inv NewClient (LResponse (ref_wf r) (ref_task r) result) s s1 I Hn1 Hr) as Hr1.
  assert (sched s1 = SchedCallback ws jobs job workerID) as Hsch1 by by destruct s.
  set (s2 := set_sched (SchedIncrement ws jobs workerID) (set_eng (OnTaskDispatched (eng s1) r workerID) s1)).
  assert (sys_next NewClient (LScheduler LSched) s1 = Some (Ret s2)) as Hn2.
  { cbn [sys_next]. unfold sched_next. by rewrite Hsch1, Hcb. }
  pose proof (sys_next_inv NewClient (LScheduler LSched) s1 s2 I Hn2 Hr1) as Hr2.
  exists s1, s2. split; [exact Hn1|]. split; [exact Hn2|].
  assert (get_task (eng s2) r = Some (set_task_status TaskDispatched (set_AssignedTo workerID t))) as Ht2.
  { assert (eng s2 = OnTaskDispatched e1 r workerID) as -> by (unfold s2, s1; by destruct s).
    apply OnTaskDispatched_ready; [|done]. unfold e1.
    destruct (OnTaskResponse (eng s) (ref_wf r) (ref_task r) result) as [err e']. destruct He as (_ & Hw & _).
    by rewrite (get_task_ext _ _ _ Hw). }
  split; [exact Ht2|]. intros tr s3 Hl Hu Hx.
  destruct (dispatched_stays r tr s2 s3 Hl Hr2 Hu Hx) as [Hr3 Hd].
  { rewrite (task_at_Some _ _ _ Ht2). apply status_set_status. }
  split; [exact Hd|]. apply (si_held _ Hr3 r). unfold task_at in Hd. unfold phase.
  destruct (get_task (eng s3) r) as [t3|]; simpl in *; by rewrite ?Hd.
Qed.
End work.
