(* ===== verification/Monitoring.v ===== *)
(** * Which workers are monitored

    The dead man's switch inside the control plane, with every step of
    [checkHeartbeat] and [RunLoop] interleaved with registrations, heartbeats
    and the scheduler.  A worker is watched while its trigger is active and no
    probe is about to cancel it ([watched]); it stops being watched only by a
    probe that finds it DEAD, or SUSPECT with a stale heartbeat
    ([watched_until_silent]).  A worker whose trigger is gone keeps its status
    until it registers again ([unwatched_forever]): the executions at the end
    of [SystemRuns.v] reach such states with the worker ALIVE. *)

From stdpp Require Import base gmap strings list relations.
From Stdlib Require Import ZArith Lia.
From S2P Require Import Prelude Status Domain Dag EventBus GoFloat Jobs LinkedList RetryQueue Registry Scheduler Client.
From S2P Require Import Engine System.

Section monitoring.
Context `{W : World} `{LS : LargeSort} {H Conn : Type} (NewClient : string → option Conn).
Implicit Types (s : System H Conn) (id : string) (q : RetryQueue string).

(** ** The retry queue as the registry uses it *)

(** A trigger made by [Register] probes the worker it is keyed by. *)
Definition own (trigger : RetryTrigger string) : Prop := tr_do trigger = tr_key trigger.

(** Every trigger, queued or in hand, is of that kind, and nobody has told the
    loop to stop. *)
Definition probes_ok q : Prop :=
  (∃ l, represents (rq_list q) l ∧ Forall own (in_hand q ++ l)) ∧
  stop_closed q = false ∧ stop_queue q = [] ∧ loop q ≠ RqReturned.

Lemma enqueue_probes trigger q q' l :
  enqueue trigger q = Ret q' → represents (rq_list q) l → Forall own (in_hand q ++ l) → own trigger →
  stop_closed q = false → stop_queue q = [] → loop q ≠ RqReturned → probes_ok q' ∧ active q' = active q ∧ loop q' = loop q.
Proof.
  unfold enqueue. intros He Hl Hown Ht Hc Hw Hlp. destruct (ll_push_spec (rq_list q) l trigger Hl) as (l' & Hp & Hl').
  rewrite Hp in He. injection He as <-. destruct q as [l0 a st w c p]. simpl in *. split; [|done].
  split; [|done]. exists (l ++ [trigger]). split; [done|]. unfold in_hand in *. simpl in *.
  rewrite app_assoc, Forall_app. by split; [|constructor].
Qed.

Lemma Push_probes id now q q' :
  Push (heartbeat_trigger id) now q = Ret q' → probes_ok q →
  probes_ok q' ∧ loop q' = loop q ∧
  ∀ key, is_Some (active q' !! key) ↔ is_Some (active q !! key) ∨ key = id.
Proof.
  unfold Push. intros Hp ((l & Hl & Hown) & Hc & Hw & Hlp). simpl in Hp. case_decide as Ha.
  { injection Hp as <-. split; [split; [by exists l|done]|]. split; [done|]. intros key.
    split; [by left|by intros [?| ->]]. }
  apply (enqueue_probes _ _ _ l) in Hp as (Hok & Ha' & Hlp'); [|by destruct q|by destruct q|done|by destruct q..].
  split; [done|]. split; [rewrite Hlp'; by destruct q|]. intros key. rewrite Ha'. destruct q as [l0 a st w c p]. simpl.
  rewrite lookup_insert. case_decide; [subst; naive_solver|naive_solver].
Qed.

Lemma select_probes q : probes_ok q → loop q = RqSelect →
  probes_ok (loop_select q) ∧ active (loop_select q) = active q ∧ in_hand (loop_select q) = [] .
Proof.
  intros ((l & Hl & Hown) & Hc & Hw & Hlp) Hs. unfold loop_select, receive_stop. rewrite Hc, Hw.
  destruct q as [l0 a st w c p]. simpl in *. subst. split; [|done]. split; [by exists l|done].
Qed.

Lemma take_probes q q' : probes_ok q → loop q = RqTake → loop_take q = Ret q' →
  probes_ok q' ∧ active q' = active q ∧ ∀ trigger, trigger ∈ in_hand q' → is_Some (active q !! tr_key trigger).
Proof.
  intros ((l & Hl & Hown) & Hc & Hw & Hlp) Hs. unfold loop_take, dequeue. destruct q as [l0 a st w c p]. simpl in *. subst.
  unfold in_hand in Hown. simpl in Hown. pose proof (ll_pop_spec l0 l Hl) as Hpop. destruct l as [|x l].
  - rewrite Hpop. simpl. intros [= <-]. split; [|split; [done|by intros trigger ?%elem_of_nil]]. split; [by exists []|done].
  - destruct Hpop as (l1 & -> & Hl1). simpl. intros [= <-]. apply Forall_cons in Hown as [Hx Hown].
    destruct (a !! tr_key x) as [t|] eqn:Ha; simpl.
    + split; [|split; [done|]]; [split; [|done]; exists l; split; [done|by constructor]|].
      unfold in_hand. simpl. intros trigger ->%list_elem_of_singleton. by exists t.
    + split; [|split; [done|by intros trigger ?%elem_of_nil]]. split; [by exists l|done].
Qed.

Lemma put_probes trigger t q q' : probes_ok q → loop q = RqPut trigger t → loop_put trigger t q = Ret q' →
  probes_ok q' ∧ in_hand q' = [] ∧ ∀ key, is_Some (active q' !! key) ↔ is_Some (active q !! key).
Proof.
  intros ((l & Hl & Hown) & Hc & Hw & Hlp) Hs. unfold loop_put. destruct q as [l0 a st w c p]. simpl in *. subst.
  unfold in_hand in Hown. simpl in Hown. apply Forall_cons in Hown as [Hx Hown]. case_decide as Ha.
  - intros Hp. apply (enqueue_probes _ _ _ l) in Hp as (Hok & Ha' & Hlp'); [|done..].
    split; [done|]. unfold in_hand. rewrite Hlp'. split; [done|]. intros key. rewrite Ha'. simpl.
    rewrite lookup_insert. case_decide; [subst; naive_solver|done].
  - intros [= <-]. split; [|done]. split; [by exists l|done].
Qed.

Lemma check_probes now trigger t q : probes_ok q → loop q = RqTaken trigger t →
  probes_ok (loop_check now trigger t q) ∧ active (loop_check now trigger t q) = active q ∧
  in_hand (loop_check now trigger t q) = [trigger].
Proof.
  intros ((l & Hl & Hown) & Hc & Hw & Hlp) Hs. unfold loop_check. destruct q as [l0 a st w c p]. simpl in *. subst.
  unfold probes_ok, in_hand in *. simpl in *. case_decide; (split; [|done]); (split; [by exists l|done]).
Qed.

Lemma done_probes again now trigger t q : probes_ok q → loop q = RqDoing trigger t →
  let q' := loop_done again now trigger t q in
  probes_ok q' ∧ in_hand q' = [trigger] ∧
  ∀ key, is_Some (active q' !! key) ↔ is_Some (active q !! key) ∧ (key = tr_key trigger → again = true).
Proof.
  intros ((l & Hl & Hown) & Hc & Hw & Hlp) Hs. unfold loop_done. destruct q as [l0 a st w c p]. simpl in *. subst.
  unfold probes_ok, in_hand in *. destruct again; simpl in *; (split; [split; [by exists l|done]|split; [done|]]).
  - naive_solver.
  - intros key. rewrite lookup_delete. case_decide; [|naive_solver]. subst. split; [by intros [? ?]|].
    intros [_ Hk]. by specialize (Hk eq_refl).
Qed.

(** ** The registry inside the system *)

(** The worker whose probe is under way. *)
Definition probed s : option string :=
  match probing s with
  | ProbeNone => None
  | ProbeVerdict id _ _ | ProbeClose id _ _ | ProbeReassign id _ _ | ProbeReturn id _ => Some id
  end.

Record mon_inv s : Prop := {
  mi_probes : probes_ok (retryQueue (reg s));
  mi_active id : is_Some (active (retryQueue (reg s)) !! id) → is_Some (workers (reg s) !! id);
  mi_registering id : id ∈ registering s → is_Some (workers (reg s) !! id);
  mi_probed id : probed s = Some id → ∃ trigger t, loop (retryQueue (reg s)) = RqDoing trigger t ∧ tr_key trigger = id;
}.

(** A worker's entry afterwards: it is kept, with its status or ALIVE. *)
Definition keeps_workers (r r' : WorkerRegistry death_hook) : Prop :=
  ∀ id n, workers r !! id = Some n →
    ∃ n', workers r' !! id = Some n' ∧ (node_status n' = node_status n ∨ node_status n' = WorkerAlive).

Definition same_monitor s s' : Prop :=
  retryQueue (reg s') = retryQueue (reg s) ∧ probing s' = probing s ∧ registering s' = registering s ∧
  keeps_workers (reg s) (reg s').

Lemma keeps_workers_refl r : keeps_workers r r.
Proof. intros id n Hn. eauto. Qed.

Lemma keeps_workers_insert (r r' : WorkerRegistry death_hook) id n :
  workers r' = <[id := n]> (workers r) → (∀ n0, workers r !! id = Some n0 → node_status n = node_status n0 ∨ node_status n = WorkerAlive) →
  keeps_workers r r'.
Proof. intros Hw Hn id' n' Hid. rewrite Hw, lookup_insert. case_decide; [subst|]; eauto. Qed.

Lemma keeps_IncrementRunning id (r : WorkerRegistry death_hook) :
  keeps_workers r (IncrementRunning id r) ∧ retryQueue (IncrementRunning id r) = retryQueue r.
Proof.
  unfold IncrementRunning. destruct (workers r !! id) as [n|] eqn:Hn; [|split; [apply keeps_workers_refl|done]].
  split; [|by destruct r]. eapply (keeps_workers_insert _ _ id); [by rewrite workers_set_workers|].
  intros n0. rewrite Hn. intros [= <-]. left. by destruct n.
Qed.

Lemma keeps_Heartbeat id k now (r : WorkerRegistry death_hook) : keeps_workers r (Heartbeat id k now r).2.
Proof.
  unfold Heartbeat. destruct (workers r !! id) as [n|] eqn:Hn; [|apply keeps_workers_refl]. cbn [snd].
  eapply (keeps_workers_insert _ _ id); [by rewrite workers_set_workers|]. intros n0 _. right. by destruct n.
Qed.

Lemma keeps_register_store w now (r : WorkerRegistry death_hook) :
  keeps_workers r (register_store w now r) ∧ is_Some (workers (register_store w now r) !! node_ID w).
Proof.
  unfold register_store. destruct (workers r !! node_ID w) as [n|] eqn:Hn; rewrite workers_set_workers, lookup_insert_eq;
    (split; [|done]); (eapply keeps_workers_insert; [by rewrite workers_set_workers|]); intros n0; rewrite Hn; [|done].
  intros _. right. by destruct n.
Qed.

Lemma keeps_workers_known r r' id : keeps_workers r r' → is_Some (workers r !! id) → is_Some (workers r' !! id).
Proof. intros Hk [n Hn]. destruct (Hk id n Hn) as (n' & ? & _). by exists n'. Qed.

(** The steps of everybody else. *)
Definition is_registration (l : sys_label H) : bool :=
  match l with LRegister _ _ | LRegisterPush _ _ | LProbe _ => true | _ => false end.

Lemma sched_next_monitor l s s' : sched_next NewClient l s = Some (Ret s') → same_monitor s s'.
Proof.
  intros Hn. unfold same_monitor. destruct s as [e rg g c p b d].
  destruct l as [visible| |arrived resp], p as [|jobs|ws jobs|ws jobs job id|ws jobs job id|
    ws jobs job id conn|ws jobs job id|ws jobs id|ws jobs job]; unfold sched_next in Hn;
    cbn [sched eng reg conns delivered set_sched set_eng set_reg set_conns set_delivered] in Hn; try discriminate Hn.
  - destruct (pop_outstanding visible (queue e)) as (batch & rest & Hp & _). rewrite Hp in Hn. simpl in Hn. injection Hn as <-.
    simpl. auto using keeps_workers_refl.
  - case_match; [done|]. injection Hn as <-. simpl. split_and!; try done; [by destruct rg|].
    intros id n Hid. destruct rg. eauto.
  - destruct jobs as [|job jobs]; [|destruct (selectWorker _ _)]; injection Hn as <-; simpl; auto using keeps_workers_refl.
  - destruct (getOrDial_cached id c); injection Hn as <-; simpl; auto using keeps_workers_refl.
  - case_match; [done|]. destruct (getOrDial_dial NewClient id (AddressOf id rg) c) as [[conn|] cs]; injection Hn as <-;
      simpl; auto using keeps_workers_refl.
  - destruct (OnDispatched job) as [r|]; injection Hn as <-; simpl; auto using keeps_workers_refl.
  - case_match; [done|]. injection Hn as <-. simpl. destruct (keeps_IncrementRunning id rg). auto.
  - injection Hn as <-. simpl. auto using keeps_workers_refl.
  - destruct resp, arrived; simplify_eq/=; auto using keeps_workers_refl.
Qed.

Lemma other_monitor l s s' : sys_next NewClient l s = Some (Ret s') → is_registration l = false → same_monitor s s'.
Proof.
  intros Hn Hl. destruct l as [wf|w k result|w|k|n now|i now|id n now|id|l|l|now]; cbn [sys_next] in Hn; try done.
  1-4: injection Hn as <-; unfold same_monitor; destruct s; auto using keeps_workers_refl.
  - case_match; [done|]. injection Hn as <-. unfold same_monitor. destruct s. simpl. split_and!; try done; [|apply keeps_Heartbeat].
    apply Heartbeat_queue.
  - case_match; [done|]. injection Hn as <-. unfold same_monitor. destruct s. auto using keeps_workers_refl.
  - destruct (is_publish l); [done|]. destruct (bus_next l (eventBus (eng s))) as [b|]; [|done]. injection Hn as <-.
    unfold same_monitor. destruct s. auto using keeps_workers_refl.
  - by eapply sched_next_monitor.
Qed.

Lemma mon_inv_same s s' : same_monitor s s' → mon_inv s → mon_inv s'.
Proof.
  intros (Hq & Hp & Hr & Hk) [Hpr Ha Hg Hd]. split.
  - by rewrite Hq.
  - intros id. rewrite Hq. intros Hid. by eapply keeps_workers_known, Ha.
  - intros id. rewrite Hr. intros Hid. by eapply keeps_workers_known, Hg.
  - intros id. unfold probed in *. rewrite Hp, Hq. apply Hd.
Qed.

Lemma register_monitor w now s s' :
  sys_next NewClient (LRegister w now) s = Some (Ret s') →
  retryQueue (reg s') = retryQueue (reg s) ∧ probing s' = probing s ∧ registering s' = registering s ++ [node_ID w] ∧
  keeps_workers (reg s) (reg s') ∧ is_Some (workers (reg s') !! node_ID w).
Proof.
  cbn [sys_next]. case_match; [done|]. intros [= <-]. destruct s. simpl.
  destruct (keeps_register_store w now reg). split_and!; try done. apply register_store_queue.
Qed.

(** The push at the end of [Register]. *)
Lemma push_monitor i now s s' id :
  sys_next NewClient (LRegisterPush i now) s = Some (Ret s') → registering s !! i = Some id →
  probes_ok (retryQueue (reg s)) →
  probing s' = probing s ∧ registering s' = delete i (registering s) ∧ workers (reg s') = workers (reg s) ∧
  probes_ok (retryQueue (reg s')) ∧ loop (retryQueue (reg s')) = loop (retryQueue (reg s)) ∧
  ∀ key, is_Some (active (retryQueue (reg s')) !! key) ↔ is_Some (active (retryQueue (reg s)) !! key) ∨ key = id.
Proof.
  cbn [sys_next]. intros Hn Hi Hok. rewrite Hi in Hn. injection Hn as Hn. unfold register_push in Hn.
  destruct (Push _ now _) as [q|[]|] eqn:Hp; [|done..]. injection Hn as <-.
  destruct (Push_probes _ _ _ _ Hp Hok) as (Hok' & Hl & Ha). destruct s as [e [] g c p b d]. by split_and!.
Qed.

(** ** The probes *)

(** A probe that will cancel the worker's trigger is under way. *)
Definition giving_up id s : Prop :=
  match probing s with
  | ProbeVerdict id' _ false | ProbeClose id' false _ | ProbeReassign id' false _ | ProbeReturn id' false => id' = id
  | _ => False
  end.

#[export] Instance giving_up_dec id s : Decision (giving_up id s).
Proof. unfold giving_up. destruct (probing s) as [|? ? []|? []|? []|? []]; apply _. Defined.

(** The probe of the worker that gives up on it, made now. *)
Definition gives_up now id s : Prop :=
  probing s = ProbeNone ∧ (∃ trigger t, loop (retryQueue (reg s)) = RqDoing trigger t ∧ tr_key trigger = id) ∧
  (checkVerdict id now (reg s) = None ∨ ∃ status, checkVerdict id now (reg s) = Some (status, false)).

(** What a step of the registry's goroutine can do. *)
Record probe_effect now s s' : Prop := {
  pe_probes : probes_ok (retryQueue (reg s'));
  pe_registering : registering s' = registering s;
  pe_active id : is_Some (active (retryQueue (reg s')) !! id) ↔
    is_Some (active (retryQueue (reg s)) !! id) ∧ probing s ≠ ProbeReturn id false;
  pe_workers id n : workers (reg s) !! id = Some n →
    ∃ n', workers (reg s') !! id = Some n' ∧ (node_status n' = node_status n ∨ probed s = Some id);
  pe_hand trigger : trigger ∈ in_hand (retryQueue (reg s')) →
    trigger ∈ in_hand (retryQueue (reg s)) ∨ is_Some (active (retryQueue (reg s)) !! tr_key trigger);
  pe_probed id : probed s' = Some id → ∃ trigger t, loop (retryQueue (reg s')) = RqDoing trigger t ∧ tr_key trigger = id;
  pe_giving_up id : giving_up id s' → giving_up id s ∨ gives_up now id s;
}.

(** The queue moves, between two probes. *)
Lemma queue_effect now s q' s' :
  probing s = ProbeNone → s' = set_reg (set_retryQueue q' (reg s)) s → probes_ok q' →
  (∀ id, is_Some (active q' !! id) ↔ is_Some (active (retryQueue (reg s)) !! id)) →
  (∀ trigger, trigger ∈ in_hand q' →
    trigger ∈ in_hand (retryQueue (reg s)) ∨ is_Some (active (retryQueue (reg s)) !! tr_key trigger)) →
  probe_effect now s s'.
Proof.
  intros Hp -> Hok Ha Hh. destruct s as [e [ws q hs k] g c p b d]. simpl in *. subst. split; simpl; try done.
  - intros id. rewrite Ha. naive_solver.
  - eauto.
Qed.

(** The probe moves on and the queue does not. *)
Lemma step_effect now s s' id again :
  mon_inv s → probed s = Some id →
  retryQueue (reg s') = retryQueue (reg s) → registering s' = registering s →
  (probing s ≠ ProbeReturn id false) →
  (∀ id' n, workers (reg s) !! id' = Some n →
    ∃ n', workers (reg s') !! id' = Some n' ∧ (node_status n' = node_status n ∨ id' = id)) →
  (∀ id', giving_up id' s ↔ id' = id ∧ again = false) →
  probing s' = ProbeReturn id again ∨
    (∃ hooks, probing s' = ProbeClose id again hooks ∨ probing s' = ProbeReassign id again hooks) →
  probe_effect now s s'.
Proof.
  intros Hi Hp Hq Hr Hne Hw Hgu Hb'. split; rewrite ?Hq; [apply Hi|done| | |by left| |].
  - intros id'. split; [|by intros [? _]]. intros Ha. split; [done|]. intros Heq. apply Hne.
    unfold probed in Hp. rewrite Heq in *. simpl in Hp. by injection Hp as ->.
  - intros id' n Hn. destruct (Hw id' n Hn) as (n' & Hn' & Hs). exists n'. split; [done|].
    destruct Hs as [?| ->]; [by left|by right].
  - intros id' Hid. assert (id' = id) as ->.
    { unfold probed in Hid. destruct Hb' as [Hb|(hooks & [Hb|Hb])]; rewrite Hb in Hid; by injection Hid. }
    by apply (mi_probed _ Hi).
  - intros id' Hg. left. apply Hgu. unfold giving_up in Hg.
    destruct Hb' as [Hb|(hooks & [Hb|Hb])]; rewrite Hb in Hg; by destruct again.
Qed.

(** An iteration of [RunLoop] outside a probe; the start of one. *)
Lemma loop_step_effect now s s' :
  probing s = ProbeNone → probe_next now s = Some (Ret s') → mon_inv s → probe_effect now s s'.
Proof.
  intros Hp Hn Hi. unfold probe_next in Hn. rewrite Hp in Hn. pose proof (mi_probes _ Hi) as Hok.
  destruct (loop (retryQueue (reg s))) as [| |trigger t|trigger t|trigger t|] eqn:Hl; [..|done].
  - injection Hn as Hn. destruct (select_probes _ Hok Hl) as (Hok' & Ha & Hh).
    eapply (queue_effect _ _ (loop_select (retryQueue (reg s)))); [done|done|done|by rewrite Ha|].
    rewrite Hh. by intros trigger ?%elem_of_nil.
  - unfold with_queue in Hn. destruct (loop_take (retryQueue (reg s))) as [q'|[]|] eqn:Hq; [|done..]. injection Hn as <-.
    destruct (take_probes _ _ Hok Hl Hq) as (Hok' & Ha & Hh).
    eapply queue_effect; [done|done|done|by rewrite Ha|by right; apply Hh].
  - injection Hn as <-. destruct (check_probes now trigger t _ Hok Hl) as (Hok' & Ha & Hh).
    eapply queue_effect; [done|done|done|by rewrite Ha|]. rewrite Hh. intros x Hx. left. unfold in_hand. by rewrite Hl.
  - injection Hn as <-. assert (tr_do trigger = tr_key trigger) as Hown.
    { destruct Hok as ((l & _ & Hown) & _). unfold in_hand in Hown. rewrite Hl in Hown. by apply Forall_cons in Hown as [? _]. }
    rewrite Hown. set (b' := match checkVerdict _ _ _ with Some _ => _ | None => _ end).
    assert (∀ id, probed (set_probing b' s) = Some id → id = tr_key trigger) as Hb.
    { intros id. unfold probed, b'. destruct s. simpl. destruct (checkVerdict _ _ _) as [[? ?]|]; congruence. }
    split; [destruct s..]; simpl in *; try done.
    + naive_solver.
    + eauto.
    + by left.
    + intros id Hid. apply Hb in Hid as ->. eauto.
    + intros id Hg. right. unfold gives_up. simpl. split; [done|]. unfold giving_up, b' in Hg. simpl in Hg.
      destruct (checkVerdict (tr_key trigger) now reg) as [[status again]|] eqn:Hv; [destruct again; [done|]|]; subst id;
        (split; [eauto|]); rewrite Hv; eauto.
  - unfold with_queue in Hn. destruct (loop_put trigger t (retryQueue (reg s))) as [q'|[]|] eqn:Hq; [|done..].
    injection Hn as <-. destruct (put_probes _ _ _ _ Hok Hl Hq) as (Hok' & Hh & Ha).
    eapply queue_effect; [done|done|done|exact Ha|]. rewrite Hh. by intros x ?%elem_of_nil.
Qed.

(** What a probe returned is acted on. *)
Lemma return_step_effect now s s' id again :
  probing s = ProbeReturn id again → probe_done again now s = Ret s' → mon_inv s → probe_effect now s s'.
Proof.
  intros Hp Hn Hi. pose proof (mi_probes _ Hi) as Hok.
  assert (probed s = Some id) as Hpr by (unfold probed; by rewrite Hp).
  destruct (mi_probed _ Hi id Hpr) as (trigger & t & Hl & Hk). unfold probe_done in Hn.
  assert (retryQueue (reg (set_probing ProbeNone s)) = retryQueue (reg s)) as Hq by by destruct s.
  rewrite Hq, Hl in Hn. injection Hn as <-.
  destruct (done_probes again now trigger t _ Hok Hl) as (Hok' & Hh & Ha).
  destruct s as [e [ws q hs k] g c p b d]. simpl in *. subst. split; simpl; try done.
  - intros id. rewrite Ha. split; intros [? Hx]; (split; [done|]).
    + intros [= <- ->]. by specialize (Hx eq_refl).
    + intros ->. destruct again; [done|]. by destruct Hx.
  - eauto.
  - rewrite Hh. intros x Hx. left. unfold in_hand. by rewrite Hl.
Qed.

Lemma probe_next_effect now s s' : probe_next now s = Some (Ret s') → mon_inv s → probe_effect now s s'.
Proof.
  intros Hn Hi. destruct (probing s) as [|id status again|id again hooks|id again hooks|id again] eqn:Hp;
    [by apply loop_step_effect|unfold probe_next in Hn; rewrite Hp in Hn..].
  - pose proof (updateWorkerStatus_spec id status (reg s)) as Hu.
    destruct (updateWorkerStatus id status (reg s)) as [hooks r]. injection Hn as <-. destruct Hu as (Hws & Hrq & _).
    eapply (step_effect _ _ _ id again); unfold run_hooks; [done|unfold probed; by rewrite Hp|by destruct s..| | | |].
    + congruence.
    + intros id' n Hid. destruct s as [e rg g c p b d]. simpl in *. rewrite Hws, lookup_alter. case_decide; [subst|by eauto].
      rewrite Hid. simpl. eauto.
    + intros id'. unfold giving_up. rewrite Hp. destruct again; naive_solver.
    + destruct hooks as [|[] hooks]; [left|right; exists hooks; left]; by destruct s.
  - case_match; [done|]. injection Hn as <-.
    eapply (step_effect _ _ _ id again); [done|unfold probed; by rewrite Hp|by destruct s..| | | |].
    + congruence.
    + intros id' n Hid. destruct s. simpl. eauto.
    + intros id'. unfold giving_up. rewrite Hp. destruct again; naive_solver.
    + right. exists hooks. right. by destruct s.
  - injection Hn as <-. unfold run_hooks.
    eapply (step_effect _ _ _ id again); [done|unfold probed; by rewrite Hp|by destruct s..| | | |].
    + congruence.
    + intros id' n Hid. destruct s. simpl. eauto.
    + intros id'. unfold giving_up. rewrite Hp. destruct again; naive_solver.
    + destruct hooks as [|[] hooks]; [left|right; exists hooks; left]; by destruct s.
  - injection Hn as Hn. by eapply return_step_effect.
Qed.

(** ** The invariant *)

Lemma mon_inv_start bus : mon_inv (sys_start bus).
Proof.
  split; simpl; [|by intros id [? ?]|by intros id ?%elem_of_nil|done].
  split; [|done]. exists []. split; [apply represents_empty|constructor].
Qed.

Lemma mon_inv_next l s s' : sys_next NewClient l s = Some (Ret s') → mon_inv s → mon_inv s'.
Proof.
  intros Hn Hi. pose proof Hi as [Hpr Ha Hg Hd]. destruct (is_registration l) eqn:Hl.
  2:{ eapply mon_inv_same; [by eapply other_monitor|done]. }
  destruct l as [| | | |w now|i now| | | | |now]; try done.
  - destruct (register_monitor w now s s' Hn) as (Hq & Hp & Hr & Hk & Hw). split.
    + by rewrite Hq.
    + intros id. rewrite Hq. intros Hid. by eapply keeps_workers_known, Ha.
    + intros id. rewrite Hr, elem_of_app, list_elem_of_singleton. intros [Hid| ->]; [|done]. by eapply keeps_workers_known, Hg.
    + intros id. unfold probed in *. rewrite Hp, Hq. apply Hd.
  - destruct (registering s !! i) as [id|] eqn:Hid; [|cbn [sys_next] in Hn; by rewrite Hid in Hn].
    destruct (push_monitor i now s s' id Hn Hid Hpr) as (Hp & Hr & Hw & Hok & Hlp & Hact).
    assert (id ∈ registering s) as Hin by by eapply list_elem_of_lookup_2. split; [done|..]; rewrite ?Hw.
    + intros key [Hkey| ->]%Hact; [by apply Ha|by apply Hg].
    + intros key. rewrite Hr. intros Hkey. apply Hg. eapply elem_of_submseteq; [exact Hkey|]. apply submseteq_delete.
    + intros key. unfold probed in *. rewrite Hp, Hlp. apply Hd.
  - destruct (probe_next_effect now s s' Hn Hi) as [Hok Hr Hact Hw _ Hpd _].
    assert (∀ id, is_Some (workers (reg s) !! id) → is_Some (workers (reg s') !! id)) as Hkn.
    { intros id [n Hid]. destruct (Hw id n Hid) as (n' & ? & _). by exists n'. }
    split; [done|..|done].
    + intros id [Hid _]%Hact. by apply Hkn, Ha.
    + intros id. rewrite Hr. intros Hid. by apply Hkn, Hg.
Qed.

Lemma sys_reachable_mon s : sys_reachable NewClient s → mon_inv s ∧ sys_tracked s.
Proof.
  intros [bus Hr]. eapply (rtc_invariant _ (λ s, mon_inv s ∧ sys_tracked s)); [| |exact Hr].
  - split; [apply mon_inv_start|exact tracked_new].
  - intros x y [Hx Ht] (l & _ & Hn). split; [by eapply mon_inv_next|exact (sys_next_tracked NewClient l x _ Hn Ht)].
Qed.

(** ** Watched workers *)

(** The worker's trigger is active, and no probe is about to cancel it. *)
Definition watched id s : Prop := is_Some (active (retryQueue (reg s)) !! id) ∧ ¬ giving_up id s.

Lemma giving_up_same id s s' : probing s' = probing s → giving_up id s' → giving_up id s.
Proof. unfold giving_up. by intros ->. Qed.

Lemma watched_next id l s s' :
  sys_next NewClient l s = Some (Ret s') → mon_inv s → watched id s →
  watched id s' ∨ ∃ now, l = LProbe now ∧ gives_up now id s.
Proof.
  intros Hn Hi [Ha Hg]. destruct (is_registration l) eqn:Hl.
  2:{ destruct (other_monitor l s s' Hn Hl) as (Hq & Hp & _). left. split; [by rewrite Hq|].
      intros H'. by apply Hg, (giving_up_same id s s'). }
  destruct l as [| | | |w now|i now| | | | |now]; try done.
  - destruct (register_monitor w now s s' Hn) as (Hq & Hp & _). left. split; [by rewrite Hq|].
    intros H'. by apply Hg, (giving_up_same id s s').
  - destruct (registering s !! i) as [id'|] eqn:Hid; [|cbn [sys_next] in Hn; by rewrite Hid in Hn].
    destruct (push_monitor i now s s' id' Hn Hid (mi_probes _ Hi)) as (Hp & _ & _ & _ & _ & Hact). left.
    split; [apply Hact; by left|]. intros H'. by apply Hg, (giving_up_same id s s').
  - destruct (probe_next_effect now s s' Hn Hi) as [_ _ Hact _ _ _ Hgu].
    assert (is_Some (active (retryQueue (reg s')) !! id)) as Ha'.
    { apply Hact. split; [done|]. intros Hp. apply Hg. unfold giving_up. by rewrite Hp. }
    destruct (decide (giving_up id s')) as [Hg'|]; [|by left]. destruct (Hgu id Hg') as [?|?]; [done|right; eauto].
Qed.

(** C35. The dead man's switch lets go of silent workers only: in every
    execution from a reachable state in which a worker is watched, it is still
    watched at the end, its trigger, which probes this worker, is in the queue
    or in [RunLoop]'s hands, and the registry's goroutine has not stopped
    (unless it waits for the client's mutex, its next step is enabled); or on
    the way a probe found the worker DEAD, or SUSPECT with a heartbeat older
    than the grace period, and gave up on it.  A registration that completes
    leaves its worker watched, unless such a probe is under way at that
    moment; if it is, the worker is left unwatched. *)
Theorem watched_until_silent s tr s' id :
  sys_reachable NewClient s → sys_exec NewClient tr s = Some s' →
  (watched id s →
    (watched id s' ∧
      (∃ l trigger, represents (rq_list (retryQueue (reg s'))) l ∧ trigger ∈ in_hand (retryQueue (reg s')) ++ l ∧
         tr_key trigger = id ∧ tr_do trigger = id) ∧
      (client_locked s' = true ∨ ∀ now, is_Some (probe_next now s'))) ∨
    ∃ tr1 now tr2 s1 n, tr = tr1 ++ LProbe now :: tr2 ∧ sys_exec NewClient tr1 s = Some s1 ∧ gives_up now id s1 ∧
      workers (reg s1) !! id = Some n ∧
      (node_status n = WorkerDead ∨
       node_status n = WorkerSuspect ∧ (now - LastHeartbeat n > heartbeatGracePeriod)%Z)) ∧
  (∀ i now, tr = [LRegisterPush i now] → registering s !! i = Some id → watched id s' ↔ ¬ giving_up id s).
Proof.
  intros [Hi Ht]%sys_reachable_mon Hx. split.
  2:{ intros i now -> Hid. cbn [sys_exec] in Hx. destruct (sys_next _ _ s) as [[s1|[]|]|] eqn:Hn; [|done..].
      injection Hx as ->. destruct (push_monitor i now s s' id Hn Hid (mi_probes _ Hi)) as (Hp & _ & _ & _ & _ & Hact).
      unfold watched, giving_up. rewrite Hp, Hact. split; [by intros [_ ?]|]. intros ?. split; [by right|done]. }
  revert s Hi Ht Hx. induction tr as [|l tr IH]; intros s Hi Ht Hx Hw; cbn [sys_exec] in Hx.
  - injection Hx as <-. left. split; [done|]. pose proof (mi_probes _ Hi) as ((l & Hl & Hown) & Hc & Hq & Hlp). split.
    + destruct Ht as (l' & Hl' & Hkeys). pose proof (represents_inj _ _ _ Hl Hl') as <-.
      destruct Hw as [Ha _]. pose proof (Hkeys id Ha) as Hin. apply list_elem_of_fmap in Hin as (trigger & Hkey & Hin).
      exists l, trigger. split; [done|]. split; [done|]. split; [done|]. rewrite Hkey.
      by eapply (proj1 (Forall_forall _ _)) in Hown; [exact Hown|].
    + destruct (client_locked s) eqn:Hcl; [by left|right]. intros now. unfold probe_next. rewrite Hcl.
      destruct (probing s) as [|id' st again|id' again hooks|id' again hooks|id' again]; try done.
      * by destruct (loop (retryQueue (reg s))).
      * by destruct (updateWorkerStatus id' st (reg s)).
  - destruct (sys_next NewClient l s) as [[s1|[]|]|] eqn:Hn; [|done..].
    destruct (watched_next id l s s1 Hn Hi Hw) as [Hw1|(now & -> & Hg)].
    + pose proof (mon_inv_next l s s1 Hn Hi) as Hi1. pose proof (sys_next_tracked NewClient l s _ Hn Ht) as Ht1.
      destruct (IH s1 Hi1 Ht1 Hx Hw1) as [?|(tr1 & now & tr2 & s2 & n & -> & Hx2 & Hrest)]; [by left|right].
      exists (l :: tr1), now, tr2, s2, n. cbn [sys_exec]. rewrite Hn. done.
    + right. destruct (mi_active _ Hi id (proj1 Hw)) as [n Hid]. exists [], now, tr, s, n. split; [done|].
      split; [done|]. split; [done|]. split; [done|]. destruct Hg as (_ & _ & [Hv|(st & Hv)]).
      * apply checkVerdict_none in Hv as [?|(n' & Hn' & ?)]; [congruence|]. left. congruence.
      * apply checkVerdict_gives_up in Hv as (n' & Hn' & _ & ? & ?). rewrite Hid in Hn'. injection Hn' as <-. by right.
Qed.

(** ** Unwatched workers *)

(** Nothing in the registry probes the worker or is about to. *)
Record unwatched id s : Prop := {
  uw_active : active (retryQueue (reg s)) !! id = None;
  uw_registering : id ∉ registering s;
  uw_hand trigger : trigger ∈ in_hand (retryQueue (reg s)) → tr_key trigger ≠ id;
}.

Definition registers id (l : sys_label H) : bool :=
  match l with LRegister w _ => bool_decide (node_ID w = id) | _ => false end.

Lemma unwatched_same id s s' :
  retryQueue (reg s') = retryQueue (reg s) → (id ∈ registering s' → id ∈ registering s) → unwatched id s → unwatched id s'.
Proof. intros Hq Hr []. split; rewrite ?Hq; auto. Qed.

Lemma unwatched_next id l s s' n :
  sys_next NewClient l s = Some (Ret s') → registers id l = false → mon_inv s → unwatched id s →
  workers (reg s) !! id = Some n → node_status n = WorkerAlive →
  unwatched id s' ∧ ∃ n', workers (reg s') !! id = Some n' ∧ node_status n' = WorkerAlive.
Proof.
  intros Hn Hreg Hi Hu Hw Hs. assert (∀ r', keeps_workers (reg s) r' →
    ∃ n', workers r' !! id = Some n' ∧ node_status n' = WorkerAlive) as Hkeep.
  { intros r' Hk. destruct (Hk id n Hw) as (n' & Hn' & [Hs'|Hs']); exists n'; (split; [done|congruence]). }
  destruct (is_registration l) eqn:Hl.
  2:{ destruct (other_monitor l s s' Hn Hl) as (Hq & _ & Hr & Hk). split; [|by apply Hkeep].
      eapply unwatched_same; [done|by rewrite Hr|done]. }
  destruct l as [| | | |w now|i now| | | | |now]; try done.
  - destruct (register_monitor w now s s' Hn) as (Hq & _ & Hr & Hk & _). split; [|by apply Hkeep].
    eapply unwatched_same; [done| |done]. rewrite Hr, elem_of_app, list_elem_of_singleton. intros [?|Heq]; [done|].
    simpl in Hreg. apply bool_decide_eq_false in Hreg. congruence.
  - destruct (registering s !! i) as [id'|] eqn:Hid; [|cbn [sys_next] in Hn; by rewrite Hid in Hn].
    destruct (push_monitor i now s s' id' Hn Hid (mi_probes _ Hi)) as (_ & Hr & Hws & _ & Hlp & Hact).
    destruct Hu as [Ha Hnr Hh]. split; [|rewrite Hws; eauto]. split.
    + apply eq_None_not_Some. intros [[? ?]|Heq]%Hact; [congruence|]. apply Hnr. subst id'. by eapply list_elem_of_lookup_2.
    + rewrite Hr. intros Hin. apply Hnr. eapply elem_of_submseteq; [exact Hin|]. apply submseteq_delete.
    + unfold in_hand in *. by rewrite Hlp.
  - destruct (probe_next_effect now s s' Hn Hi) as [_ Hr Hact Hws Hhand _ _]. destruct Hu as [Ha Hnr Hh]. split.
    + split.
      * apply eq_None_not_Some. intros [[? ?] _]%Hact. congruence.
      * by rewrite Hr.
      * intros trigger [Hin|[t Ht]]%Hhand; [by apply Hh|]. intros Hk. rewrite Hk in Ht. congruence.
    + destruct (Hws id n Hw) as (n' & Hn' & [Hs'|Hp]); [exists n'; split; [done|congruence]|].
      destruct (mi_probed _ Hi id Hp) as (trigger & t & Hlp & Hk). exfalso. eapply Hh; [|exact Hk].
      unfold in_hand. rewrite Hlp. by left.
Qed.

(** An ALIVE worker that nothing watches stays ALIVE in every execution,
    however silent it is, until it registers again. *)
Lemma unwatched_forever id s tr s' n :
  mon_inv s → unwatched id s → workers (reg s) !! id = Some n → node_status n = WorkerAlive →
  sys_exec NewClient tr s = Some s' → forallb (negb ∘ registers id) tr = true →
  node_status <$> workers (reg s') !! id = Some WorkerAlive ∧ active (retryQueue (reg s')) !! id = None.
Proof.
  revert s n. induction tr as [|l tr IH]; intros s n Hi Hu Hw Hs; cbn [sys_exec].
  - intros [= <-] _. rewrite Hw. simpl. split; [by rewrite Hs|apply Hu].
  - destruct (sys_next NewClient l s) as [[s1|[]|]|] eqn:Hn; [|done..]. intros Hx [Hl%negb_true_iff Htr]%andb_true_iff.
    destruct (unwatched_next id l s s1 n Hn Hl Hi Hu Hw Hs) as (Hu1 & n1 & Hw1 & Hs1).
    by eapply (IH s1 n1); [eapply mon_inv_next|..].
Qed.
End monitoring.
