(* ===== verification/SystemRuns.v ===== *)
(** * Executions of the control plane

    Concrete interleavings, each a run of [sys_next] from [main]'s initial
    state: they show that the hypotheses of the theorems of [System.v] are met,
    and what the program does when its parts meet in an unfortunate order. *)

From stdpp Require Import base gmap strings list relations.
From Stdlib Require Import ZArith Lia.
From S2P Require Import Prelude Status Domain Dag NewWorkflow EventBus GoFloat Jobs RetryQueue Registry Scheduler Client.
From S2P Require Import Engine WorkflowSpec EngineBase EngineProps EngineQueue EngineHistory EngineProgress Server System.
From S2P Require Import SystemEvents SystemProgress SystemDelivery SystemWork Monitoring.

(** ** The setting: a workflow of two independent tasks, submitted *)

Section runs.
#[local] Instance runs_world : World := world_of shuffle_id ["u0"; "u1"; "u2"; "u3"; "u4"].

Definition shell_task (id name : string) : Task :=
  {| task_ID := id; task_WorkflowID := ""; task_Name := name; DependsOn := [];
     Spec := {| Type_ := "shell"; Payload := "{}" |}; MaxRetries := 0; RetryBackoff := 0; Timeout := 0;
     task_status := TaskPending; AssignedTo := ""; Attempt := 0; task_result := None;
     task_CreatedAt := 0; task_UpdatedAt := 0 |}.

Definition run_tasks : list Task := [shell_task "a" "fetch"; shell_task "b" "lint"].

Definition run_wf : Workflow :=
  match NewWorkflow "admin" "pipeline" run_tasks 0 with
  | Ret (wf, _) => wf
  | _ => {| wf_ID := ""; TenantID := ""; wf_Name := ""; Tasks := ∅; wf_status := WorkflowPending;
            wf_CreatedAt := 0; wf_UpdatedAt := 0 |}
  end.

Definition run_bus : Bus event () :=
  match NewBus 0 with Ret b => b | _ => {| subs := ∅; next_sub := 0; subscribers := []; ch := []; bus_cap := 0;
    inflight := None; dispatching := true; EventBus.running := ∅; stopped := false; done_closed := false |} end.

Definition run_start : System () string :=
  set_eng (SubmitWorkflow (NewWorkflowEngine run_bus true) run_wf).2 (sys_start run_bus).

Lemma run_submittable : submittable (NewWorkflowEngine run_bus true) run_wf.
Proof.
  assert (∃ n', NewWorkflow "admin" "pipeline" run_tasks 0 = Ret (run_wf, n')) as [n' Hn].
  { eexists. vm_compute. reflexivity. }
  eapply NewWorkflow_submittable; [exact Hn| |reflexivity].
  intros t Ht. unfold run_tasks in Ht. rewrite !elem_of_cons, elem_of_nil in Ht. by destruct Ht as [->|[->|[]]].
Qed.

#[local] Abbreviation reachable_state := (sys_reachable (H := ()) (Some : string → option string)).

(** The state after the steps [tr]. *)
Definition run (tr : list (sys_label ())) : System () string := default run_start (sys_exec Some tr run_start).

Lemma run_steps tr :
  forallb (negb ∘ is_submit) tr = true → is_Some (sys_exec Some tr run_start) →
  rtc (sys_step Some) run_start (run tr).
Proof. intros Htr [s Hs]. unfold run. rewrite Hs. simpl. by apply sys_exec_steps with (tr := tr). Qed.

Lemma run_start_reachable : reachable_state run_start.
Proof. apply sys_submit_reachable, run_submittable. Qed.

Lemma run_reachable tr :
  forallb (negb ∘ is_submit) tr = true → is_Some (sys_exec Some tr run_start) → reachable_state (run tr).
Proof. intros Htr Hs. eapply sys_reachable_steps; [apply run_start_reachable|by apply run_steps]. Qed.

#[local] Ltac by_run := apply run_reachable; [reflexivity|vm_compute; eexists; reflexivity].

Definition run_ref (k : string) : TaskRef := {| ref_wf := wf_ID run_wf; ref_task := k |}.
Definition status_of (s : System () string) (k : string) : option TaskStatus :=
  task_status <$> get_task (eng s) (run_ref k).
Definition worker_status (s : System () string) (id : string) : option WorkerStatus :=
  node_status <$> workers (reg s) !! id.
Definition report_of (st : TaskStatus) : TaskResult :=
  {| res_Status := st; ExitCode := 0; Stdout := "out"; Stderr := ""; res_Error := ""; Duration := 0 |}.

(** Labels: a registration at time 0; the scheduler's next step; a successful
    dispatch; one step of the registry's goroutine [n] seconds later. *)
Definition join (id : string) : list (sys_label ()) := [LRegister (node id 4 0) 0; LRegisterPush 0 0].
Definition tick_ : sys_label () := LScheduler (LPop 50).
Definition step_ : sys_label () := LScheduler LSched.
Definition accept : sys_label () := LScheduler (LReply true (Some true)).
Definition probe_at (n : Z) : sys_label () := LProbe (n * Second).

(** From the tick to the RPC of the first job; and from the callback on. *)
Definition to_rpc : list (sys_label ()) := [tick_; step_; step_; step_; step_].
Definition finish : list (sys_label ()) := [step_; step_].

(** The registry's steps for one probe that makes a silent worker SUSPECT
    (select, take, check, read, update, return, put back), and until the next
    one has declared it DEAD and is about to run the death hook. *)
Definition suspect : list (sys_label ()) := repeat (probe_at 20) 7.
Definition declare_dead : list (sys_label ()) := suspect ++ repeat (probe_at 40) 5.

(** ** The theorems on executions *)

Lemma system_refines_engine_witness :
  reachable (eng (run (join "w1" ++ to_rpc))) ∧
  stored_refines (eng run_start) (eng (run (join "w1" ++ to_rpc))).
Proof.
  destruct (system_refines_engine (Some : string → option string) run_start (run (join "w1" ++ to_rpc)))
    as (Hr & _ & Hs).
  - exact run_start_reachable.
  - apply run_steps; [reflexivity|vm_compute; eexists; reflexivity].
  - split; [exact Hr|exact Hs].
Defined.
(** One job in the queue, one in the scheduler's hands. *)
Definition half_way : System () string := run (join "w1" ++ to_rpc).

Lemma half_way_reachable : reachable_state half_way.
Proof. unfold half_way. by_run. Qed.

Lemma ready_task_has_one_job_witness :
  ∃ t, get_task (eng half_way) (run_ref "a") = Some t ∧ task_status t = TaskReady ∧
    jobs_for (run_ref "a") (outstanding half_way) = 1.
Proof.
  destruct (get_task (eng half_way) (run_ref "a")) as [t|] eqn:Ht; [|exfalso; vm_compute in Ht; discriminate Ht].
  assert (task_status t = TaskReady) as Hs.
  { assert (status_of half_way "a" = Some TaskReady) as Hs by (vm_compute; reflexivity).
    unfold status_of in Hs. rewrite Ht in Hs. by injection Hs. }
  exists t. split; [done|]. split; [done|].
  destruct (ready_task_has_one_job Some half_way (run_ref "a") t half_way_reachable Ht) as (Hn & _). by apply Hn.
Defined.

Definition one_done : System () string := run (join "w1" ++ to_rpc ++ [accept] ++ finish).

Lemma one_done_reachable : reachable_state one_done.
Proof. unfold one_done. by_run. Qed.

(** Task [a] was sent: the theorem finds its request among those delivered. *)
Lemma unfinished_task_has_work_witness :
  ∃ t k' t', get_task (eng one_done) (run_ref "a") = Some t ∧ task_status t = TaskDispatched ∧
    let r' := {| ref_wf := wf_ID run_wf; ref_task := k' |} in get_task (eng one_done) r' = Some t' ∧
    (task_status t' = TaskReady ∧ jobs_for r' (outstanding one_done) = 1 ∧ job_of r' t' ∈ outstanding one_done ∨
     executing (task_status t') ∧ jobs_for r' (outstanding one_done) = 0 ∧
       ∃ conn, (conn, Request (job_of r' t')) ∈ delivered one_done).
Proof.
  destruct (get_task (eng one_done) (run_ref "a")) as [t|] eqn:Ht; [|exfalso; vm_compute in Ht; discriminate Ht].
  assert (task_status t = TaskDispatched) as Hs.
  { assert (status_of one_done "a" = Some TaskDispatched) as Hs by (vm_compute; reflexivity).
    unfold status_of in Hs. rewrite Ht in Hs. by injection Hs. }
  assert (¬ finished (task_status t)) as Hf by (rewrite Hs; by intros [?|[?|?]]).
  destruct (unfinished_task_has_work Some one_done (run_ref "a") t one_done_reachable Ht Hf) as (k' & t' & _ & Hw).
  exists t, k', t'. split; [done|]. split; [exact Hs|exact Hw].
Defined.

Lemma delivered_requests_are_tasks_witness :
  ∃ conn req r t, (conn, req) ∈ delivered one_done ∧ get_task (eng one_done) r = Some t ∧
    DispatchRequest_GetType req = Type_ (Spec t).
Proof.
  assert (∃ req, delivered one_done = [("w1", req)]) as [req Hreq] by (eexists; vm_compute; reflexivity).
  destruct (delivered_requests_are_tasks Some one_done "w1" req one_done_reachable) as (r & t & Ht & Hq).
  - rewrite Hreq. left.
  - exists "w1", req, r, t. split; [rewrite Hreq; left|]. split; [exact Ht|]. by rewrite Hq.
Defined.

(** The scheduler is in the middle of a pass, waiting for nobody. *)
Definition own_step (s : System () string) : bool :=
  match sched s with SchedIdle | SchedRPC _ _ _ _ _ => false | _ => true end.

Lemma own_step_spec s : own_step s = true → sched s ≠ SchedIdle ∧ ¬ awaiting_reply s.
Proof. unfold own_step, awaiting_reply. destruct (sched s); try done; by split; [discriminate|intros []]. Qed.


(** A worker that keeps its connection open and its heartbeats coming, but does
    not answer, stops the scheduler: the other job of the batch, and every
    later one, waits. *)
Theorem unanswered_dispatch_stops_scheduler tr s :
  sys_exec Some tr half_way = Some s → forallb (negb ∘ is_reply) tr = true →
  sched s = sched half_way ∧ sched s ≠ SchedIdle.
Proof.
  intros Hx Htr. assert (awaiting_reply half_way) as Ha by (vm_compute; exact I).
  assert (pass_left (sched half_way) ≠ 0) as Hp by (vm_compute; discriminate).
  rewrite (unanswered_blocks Some half_way tr s Ha Hx Htr). split; [reflexivity|]. intros Hs. rewrite Hs in Hp. exact (Hp eq_refl).
Qed.

(** *** What is observed *)

Definition bus_ (l : bus_label event ()) : sys_label () := LBus l.
Definition relay_ : list (sys_label ()) := [bus_ LTake; bus_ LFan; bus_ (LHandle 0)].

(** A subscriber joins, a task is dispatched, and four events are delivered. *)
Definition observed_labels : list (sys_label ()) :=
  [bus_ (LSubscribe "client" ())] ++ join "w1" ++ to_rpc ++ [accept] ++ finish ++ relay_ ++ relay_ ++ relay_ ++ relay_.
Definition observed : System () string := run observed_labels.

Lemma observed_steps : rtc (sys_step Some) (sys_start run_bus) observed.
Proof.
  eapply (rtc_l _ _ run_start); [exists (LSubmit run_wf); split; [exact run_submittable|reflexivity]|].
  apply run_steps; [reflexivity|vm_compute; eexists; reflexivity].
Qed.

Definition observer : Subscriber event () := default (NewSubscriber "" ()) (subs (eventBus (eng observed)) !! 0).

Lemma observer_eq : subs (eventBus (eng observed)) !! 0 = Some observer.
Proof. vm_compute. reflexivity. Qed.

Lemma observed_statuses_follow_automaton_witness :
  task_news (run_ref "a") (calls observer) = [TaskReady; TaskDispatched] ∧
  seen_of_task (eng observed) (run_ref "a") [TaskReady; TaskDispatched].
Proof.
  assert (task_news (run_ref "a") (calls observer) = [TaskReady; TaskDispatched]) as Hn by (vm_compute; reflexivity).
  split; [exact Hn|]. rewrite <-Hn.
  destruct (observed_statuses_follow_automaton (Some : string → option string) 0 run_bus observed 0 observer
    eq_refl observed_steps observer_eq) as [Ht _]. exact (proj1 (Ht (run_ref "a"))).
Defined.

(** A stream of the workflow whose handler is that subscriber's. *)
Definition observed_stream : Stream :=
  match StreamWorkflowEvents (wf_ID run_wf) 0 true (eng run_start) (eng run_start) with
  | inr (Some s) => s
  | _ => {| st_wfID := ""; st_out := []; st_cancelled := false; st_sent := []; st_pc := StreamClosed |}
  end.
Definition observed_stream_labels : list stream_label :=
  [StSubscribed true] ++ ((λ ev, StHandle ev false) <$> calls observer) ++ [StReceive; StReceive; StReceive; StReceive].
Definition observed_streamed : Stream := default observed_stream (stream_exec observed_stream observed_stream_labels).

Lemma streamed_statuses_follow_automaton_witness :
  sent_of_task (run_ref "a") (st_sent observed_streamed) = ["READY"; "DISPATCHED"] ∧
  ∃ l, seen_of_task (eng observed) (run_ref "a") l ∧ ["READY"; "DISPATCHED"] = TaskStatus_String <$> l.
Proof.
  assert (sent_of_task (run_ref "a") (st_sent observed_streamed) = ["READY"; "DISPATCHED"]) as Hs by (vm_compute; reflexivity).
  split; [exact Hs|]. rewrite <-Hs.
  apply (streamed_statuses_follow_automaton (Some : string → option string) 0 run_bus observed 0 observer (eng run_start) (eng run_start)
    (wf_ID run_wf) 0 observed_stream observed_streamed observed_stream_labels).
  - reflexivity.
  - exact observed_steps.
  - exact observer_eq.
  - vm_compute. reflexivity.
  - apply stream_exec_run. vm_compute. reflexivity.
  - vm_compute. reflexivity.
  - discriminate.
Defined.

(** *** Termination and delivery *)

(** The worker takes a task and dies; the task is reassigned. *)
Definition reassigned_labels : list (sys_label ()) :=
  join "w1" ++ to_rpc ++ [accept] ++ finish ++ declare_dead ++ [probe_at 40; probe_at 40].

Lemma status_changes_bounded_witness :
  let s' := run reassigned_labels in
  status_changes Some (wf_ID run_wf) reassigned_labels run_start = 2 ∧
  reassignments Some reassigned_labels run_start = 1 ∧
  2 + left_to_do (wf_ID run_wf) s' ≤ 4 * 2 + (2 * 2 + 1) * 1.
Proof.
  assert (status_changes Some (wf_ID run_wf) reassigned_labels run_start = 2) as Hc by (vm_compute; reflexivity).
  assert (reassignments Some reassigned_labels run_start = 1) as Hr by (vm_compute; reflexivity).
  split; [exact Hc|]. split; [exact Hr|]. rewrite <-Hc, <-Hr at 1.
  destruct (workflows (eng run_start) !! wf_ID run_wf) as [wf|] eqn:Hw; [|exfalso; vm_compute in Hw; discriminate Hw].
  assert (size (Tasks wf) = 2) as Hsz by (vm_compute in Hw; injection Hw as <-; vm_compute; reflexivity).
  destruct (status_changes_bounded Some run_start reassigned_labels (run reassigned_labels) (wf_ID run_wf) wf) as [Hle _].
  - exact run_start_reachable.
  - apply labels_ok_no_submit. reflexivity.
  - vm_compute. reflexivity.
  - exact Hw.
  - rewrite Hsz, Hr in Hle. rewrite Hr. exact Hle.
Defined.

(** The response to the dispatch of [a] is lost: the job goes back to the queue
    and is sent again. *)
Definition lost_reply : sys_label () := LScheduler (LReply true None).
Definition resent_labels : list (sys_label ()) :=
  join "w1" ++ to_rpc ++ [lost_reply; step_; step_; step_; accept] ++ finish ++
    [step_; tick_; step_; step_; step_; accept] ++ finish.

(** A task may be sent twice, so workers have to tell: the bound is met. *)
Theorem lost_reply_sends_twice :
  ∃ s, reachable_state s ∧ lost_replies Some resent_labels run_start = 1 ∧ reassignments Some resent_labels run_start = 0 ∧
    deliveries (run_ref "a") s = 2 ∧ deliveries (run_ref "b") s = 1 ∧ status_of s "a" = Some TaskDispatched.
Proof. exists (run resent_labels). split; [by_run|]. vm_compute. split_and!; reflexivity. Qed.

Lemma deliveries_bounded_witness :
  let tr := LSubmit run_wf :: resent_labels in
  ∃ s, sys_exec Some tr (sys_start run_bus) = Some s ∧ deliveries (run_ref "a") s = 2 ∧ 2 ≤ 1 + 1 + 0.
Proof.
  exists (run resent_labels).
  assert (sys_exec Some (LSubmit run_wf :: resent_labels) (sys_start run_bus) = Some (run resent_labels)) as Hx
    by (vm_compute; reflexivity).
  assert (deliveries (run_ref "a") (run resent_labels) = 2) as Hd by (vm_compute; reflexivity).
  split; [exact Hx|]. split; [exact Hd|].
  destruct (deliveries_bounded Some run_bus (LSubmit run_wf :: resent_labels) (run resent_labels) (run_ref "a"))
    as [Hle _]; [split; [exact run_submittable|by apply labels_ok_no_submit]|exact Hx|].
  rewrite Hd in Hle. exact Hle.
Defined.

(** ** Unfortunate orders *)

(** A task's report in, and the state its loss leads to: task [a] is DISPATCHED
    without a job or a result, and stays so while its workflow's other task is
    dispatched and succeeds. *)
Definition answered : System () string := run (join "w1" ++ to_rpc ++ [accept]).

Lemma answered_reachable : reachable_state answered.
Proof. unfold answered. by_run. Qed.

Definition later : list (sys_label ()) :=
  [step_; step_; step_; accept] ++ finish ++ [LResponse (wf_ID run_wf) "b" (report_of TaskSucceeded)].

Definition lost_labels : list (sys_label ()) :=
  join "w1" ++ to_rpc ++ [accept; LResponse (wf_ID run_wf) "a" (report_of TaskSucceeded); step_].
Definition lost_report : System () string := run lost_labels.
Definition later_on : System () string := run (lost_labels ++ later).

(** No label of the list can disturb task [a]. *)
Definition calm (l : sys_label ()) : bool :=
  match l with
  | LResponse _ k _ | LCancelTask k => negb (bool_decide (k = "a"))
  | LCancelWorkflow _ | LProbe _ => false
  | _ => true
  end.

Lemma undisturbed_labels r tr s :
  ref_task r = "a" → forallb calm tr = true → undisturbed (Some : string → option string) r tr s.
Proof.
  intros Hr. revert s. induction tr as [|l tr IH]; intros s; simpl; [done|]. intros [Hl Htr]%andb_true_iff. split.
  - unfold disturbs. rewrite Hr. unfold calm in Hl.
    destruct l; try discriminate Hl; try (by intros []); apply negb_true_iff, bool_decide_eq_false in Hl; [by intros [_ ?]|done].
  - destruct (sys_next Some l s) as [[s1|[]|]|]; auto.
Qed.

Lemma early_report_is_lost_witness :
  ∃ s2 s3, sys_exec Some (LResponse (wf_ID run_wf) "a" (report_of TaskSucceeded) :: [step_]) answered = Some s2 ∧
    sys_exec Some later s2 = Some s3 ∧ status_of s3 "b" = Some TaskSucceeded ∧
    task_at (eng s3) (run_ref "a") = TaskDispatched ∧ jobs_for (run_ref "a") (outstanding s3) = 0 ∧
    (task_result <$> get_task (eng s3) (run_ref "a")) = Some None.
Proof.
  destruct (get_task (eng answered) (run_ref "a")) as [t|] eqn:Ht; [|exfalso; vm_compute in Ht; discriminate Ht].
  assert (task_status t = TaskReady) as Hs.
  { assert (status_of answered "a" = Some TaskReady) as Hs by (vm_compute; reflexivity).
    unfold status_of in Hs. rewrite Ht in Hs. by injection Hs. }
  destruct (early_report_is_lost Some answered (run_ref "a") t (report_of TaskSucceeded) answered_reachable Ht Hs) as [_ Hlost].
  assert (∃ ws jobs job, sched answered = SchedCallback ws jobs job "w1" ∧ OnDispatched job = Some (run_ref "a"))
    as (ws & jobs & job & Hsch & Hcb) by (do 3 eexists; split; [vm_compute; reflexivity|reflexivity]).
  destruct (Hlost ws jobs job "w1" Hsch Hcb) as (s1 & s2 & Hn1 & Hn2 & _ & Hstay).
  assert (sys_exec Some (LResponse (wf_ID run_wf) "a" (report_of TaskSucceeded) :: [step_]) answered = Some s2) as Hx.
  { assert (sys_next Some (LResponse (wf_ID run_wf) "a" (report_of TaskSucceeded)) answered = Some (Ret s1)) as Hn1'
      by exact Hn1.
    cbn [sys_exec]. rewrite Hn1'. unfold step_. rewrite Hn2. reflexivity. }
  assert (sys_exec Some (LResponse (wf_ID run_wf) "a" (report_of TaskSucceeded) :: [step_]) answered = Some lost_report) as Hx'
    by (vm_compute; reflexivity).
  assert (s2 = lost_report) as Heq by exact (f_equal (default s2) (eq_trans (eq_sym Hx) Hx')). subst s2.
  exists lost_report, later_on. split; [exact Hx|].
  assert (sys_exec Some later lost_report = Some later_on) as Hl by (vm_compute; reflexivity).
  split; [exact Hl|]. split; [vm_compute; reflexivity|].
  destruct (Hstay later later_on) as [Hd Hj]; [apply labels_ok_no_submit; reflexivity| |exact Hl|].
  - apply undisturbed_labels; reflexivity.
  - split; [exact Hd|]. split; [exact Hj|]. vm_compute. reflexivity.
Defined.

(** A cancelled task is executed all the same: cancelling a READY task does
    not withdraw its job, so the scheduler later sends it to a worker, which
    is never told about the cancellation. *)
Theorem cancelled_task_is_dispatched :
  ∃ s s' req, reachable_state s ∧ status_of s "a" = Some TaskCancelled ∧ delivered s = [] ∧
    sys_exec Some (to_rpc ++ [accept] ++ finish) s = Some s' ∧
    delivered s' = [("w1", Some req)] ∧ dr_TaskId req = "a" ∧
    status_of s' "a" = Some TaskCancelled ∧ cancel_calls (eng s') = [].
Proof.
  exists (run (join "w1" ++ [LCancelTask "a"])), (run (join "w1" ++ [LCancelTask "a"] ++ to_rpc ++ [accept] ++ finish)).
  eexists. split; [by_run|]. vm_compute. split_and!; reflexivity.
Qed.

(** A task dispatched to a dying worker is stranded.  If the worker is
    declared dead between its response and the scheduler's callback, the
    reassignment does not see the task, and the callback then assigns it to
    the dead worker: it is DISPATCHED, without a job, on a worker that is
    never probed again. *)
Theorem late_callback_strands_task :
  ∃ s, reachable_state s ∧ worker_status s "w1" = Some WorkerDead ∧
    RetryQueue.active (retryQueue (reg s)) !! "w1" = None ∧
    status_of s "a" = Some TaskDispatched ∧ (AssignedTo <$> get_task (eng s) (run_ref "a")) = Some "w1" ∧
    jobs_for (run_ref "a") (outstanding s) = 0.
Proof.
  exists (run (join "w1" ++ to_rpc ++ [accept] ++ declare_dead ++ repeat (probe_at 40) 4 ++ finish)).
  split; [by_run|]. vm_compute. split_and!; reflexivity.
Qed.
(** C38. The scheduler and the registry can deadlock.  The scheduler resolves an
    address holding the client's mutex while a worker is declared dead, whose
    hook closes a connection holding the registry's mutex: from then on,
    whatever happens, neither goroutine ever moves, no job is dispatched, and
    every registration and heartbeat blocks. *)
Theorem scheduler_registry_deadlock :
  ∃ s, reachable_state s ∧ ∀ s', rtc (sys_step Some) s s' →
    sched s' = sched s ∧ sched s' ≠ SchedIdle ∧ probing s' = probing s ∧
    (∀ l, sys_next Some (LScheduler l) s' = None) ∧ (∀ now, sys_next Some (LProbe now) s' = None) ∧
    (∀ w now, sys_next Some (LRegister w now) s' = None) ∧
    (∀ id n now, sys_next Some (LHeartbeat id n now) s' = None).
Proof.
  exists (run (join "w1" ++ [tick_; step_; step_; step_] ++ declare_dead)). split; [by_run|].
  set (s := run _). assert (deadlocked s) as Hd by (vm_compute; exact I). intros s' Hr.
  destruct (deadlocked_forever Some s s' Hd Hr) as (Hd' & Hs & Hp).
  destruct (deadlocked_blocked Some s' Hd') as (H1 & H2 & H3 & H4). split_and!; [done| |done..].
  intros Hidle. unfold deadlocked in Hd'. by rewrite Hidle in Hd'.
Qed.

(** One pass may overload a worker: the snapshot the choice is made from is
    taken once per pass, so the increments made after each assignment do not
    influence the choices for the other jobs of the same pass.  Both jobs go
    to [w1] although [w2] is idle and has the same capacity. *)
Theorem batch_goes_to_one_worker :
  ∃ s, reachable_state s ∧ (fst <$> delivered s) = ["w1"; "w1"] ∧ sched s = SchedIdle ∧
    (RunningTasks <$> workers (reg s) !! "w1") = Some 2%Z ∧ (RunningTasks <$> workers (reg s) !! "w2") = Some 0%Z.
Proof.
  exists (run (join "w1" ++ join "w2" ++ to_rpc ++ [accept] ++ finish ++ [step_; step_; accept] ++ finish ++ [step_])).
  split; [by_run|]. vm_compute. split_and!; reflexivity.
Qed.

(** A refused dispatch counts as a dispatch: the response's [Accepted] is not
    looked at. *)
Theorem refused_dispatch_is_committed :
  ∃ s, reachable_state s ∧
    sys_exec Some ([LScheduler (LReply true (Some false))] ++ finish) half_way = Some s ∧
    status_of s "a" = Some TaskDispatched ∧ jobs_for (run_ref "a") (outstanding s) = 0.
Proof.
  exists (run (join "w1" ++ to_rpc ++ [LScheduler (LReply true (Some false))] ++ finish)).
  split; [by_run|]. vm_compute. split_and!; reflexivity.
Qed.

Definition moved (id addr : string) : WorkerNode :=
  {| node_ID := id; Address := addr; Labels := ∅; Capabilities := ["shell"]; Capacity := 4;
     RunningTasks := 0; LastHeartbeat := 0; node_status := WorkerAlive |}.

(** A restarted worker is not reached: it registers again under its ID with a
    new address, but the connection to the old address is kept and the next
    job goes there. *)
Theorem restarted_worker_keeps_old_connection :
  ∃ s, reachable_state s ∧ AddressOf "w1" (reg s) = "new" ∧ (fst <$> delivered s) = ["w1"; "w1"].
Proof.
  exists (run (join "w1" ++ to_rpc ++ [accept] ++ finish ++
    [LRegister (moved "w1" "new") (5 * Second); LRegisterPush 0 (5 * Second)] ++ [step_; step_; accept])).
  split; [by_run|]. vm_compute. split_and!; reflexivity.
Qed.

(** A heartbeat that arrives between the reads of [checkHeartbeat] and
    [updateWorkerStatus] is overridden: the worker is declared dead although
    its last heartbeat is fresh. *)
Theorem fresh_worker_declared_dead :
  ∃ s, reachable_state s ∧ worker_status s "w1" = Some WorkerDead ∧
    (LastHeartbeat <$> workers (reg s) !! "w1") = Some (40 * Second)%Z.
Proof.
  exists (run (join "w1" ++ suspect ++ repeat (probe_at 40) 4 ++ [LHeartbeat "w1" 0 (40 * Second); probe_at 40])).
  split; [by_run|]. vm_compute. split_and!; reflexivity.
Qed.

(** *** Live workers that nobody watches *)

(** A worker that sends a heartbeat while its trigger goes round. *)
Definition quiet : list (sys_label ()) := LHeartbeat "w1" 0 (10 * Second) :: repeat (probe_at 10) 5.
Definition watched_before : System () string := run [LRegister (node "w1" 4 0) 0].
Definition watched_start : System () string := run (join "w1").
Definition watched_end : System () string := run (join "w1" ++ quiet).

(** It is ALIVE all the time. *)
Definition alive_after (k : nat) : bool :=
  match sys_exec Some (take k quiet) watched_start with
  | Some s => bool_decide (worker_status s "w1" = Some WorkerAlive)
  | None => true
  end.

Lemma quiet_alive k : alive_after k = true.
Proof.
  destruct (decide (k < 7)) as [Hk|Hk].
  - do 7 (destruct k as [|k]; [vm_compute; reflexivity|]). lia.
  - unfold alive_after. rewrite take_ge by (simpl; lia). vm_compute. reflexivity.
Qed.

Lemma watched_until_silent_witness :
  watched "w1" watched_start ∧ watched "w1" watched_end ∧
  (watched "w1" watched_start ↔ ¬ giving_up "w1" watched_before).
Proof.
  assert (reachable_state watched_start) as Hr by (unfold watched_start; by_run).
  assert (reachable_state watched_before) as Hr0 by (unfold watched_before; by_run).
  assert (sys_exec Some quiet watched_start = Some watched_end) as Hx by (vm_compute; reflexivity).
  assert (sys_exec Some [LRegisterPush 0 0] watched_before = Some watched_start) as Hx0 by (vm_compute; reflexivity).
  assert (watched "w1" watched_start) as Hw by (split; [vm_compute; by eexists|vm_compute; tauto]).
  split; [exact Hw|].
  destruct (watched_until_silent Some watched_start quiet watched_end "w1" Hr Hx) as [Hwatch _].
  destruct (watched_until_silent Some watched_before [LRegisterPush 0 0] watched_start "w1" Hr0 Hx0) as [_ Hpush].
  split; [|apply (Hpush 0 0%Z); [reflexivity|vm_compute; reflexivity]].
  destruct (Hwatch Hw) as [[Hw' _]|(tr1 & now & tr2 & s1 & n & Htr & Hx1 & _ & Hn & Hs)]; [exact Hw'|exfalso].
  pose proof (quiet_alive (length tr1)) as Hal. unfold alive_after in Hal. rewrite Htr, take_app_length, Hx1 in Hal.
  apply bool_decide_eq_true in Hal. unfold worker_status in Hal. rewrite Hn in Hal. simpl in Hal. injection Hal as Hal.
  rewrite Hal in Hs. destruct Hs as [Hs|[Hs _]]; discriminate Hs.
Defined.

(** The worker has been declared dead, the hook has run, and [RunLoop] is about
    to cancel its trigger. *)
Definition dying : list (sys_label ()) := join "w1" ++ declare_dead ++ repeat (probe_at 40) 2.

(** The two runs below end with an ALIVE worker that nothing watches. *)
Lemma never_probed_again (tr0 tr : list (sys_label ())) s :
  forallb (negb ∘ is_submit) tr0 = true → is_Some (sys_exec Some tr0 run_start) →
  worker_status (run tr0) "w1" = Some WorkerAlive → RetryQueue.active (retryQueue (reg (run tr0))) !! "w1" = None →
  registering (run tr0) = [] → in_hand (retryQueue (reg (run tr0))) = [] →
  sys_exec Some tr (run tr0) = Some s → forallb (negb ∘ registers "w1") tr = true →
  worker_status s "w1" = Some WorkerAlive ∧ RetryQueue.active (retryQueue (reg s)) !! "w1" = None.
Proof.
  intros Hsub Hx0 Hst Ha Hr Hh Hx Htr. pose proof (run_reachable tr0 Hsub Hx0) as Hreach.
  destruct (sys_reachable_mon Some _ Hreach) as [Hi _]. unfold worker_status in Hst.
  destruct (workers (reg (run tr0)) !! "w1") as [n|] eqn:Hn; [|done]. simpl in Hst. injection Hst as Hst.
  refine (unwatched_forever Some "w1" _ tr s n Hi _ Hn Hst Hx Htr).
  split; [exact Ha|rewrite Hr; by intros ?%elem_of_nil|rewrite Hh; by intros ? ?%elem_of_nil].
Qed.


(** So is a worker revived by a heartbeat that comes after it was declared dead. *)
Theorem revived_worker_is_never_probed :
  ∃ s, reachable_state s ∧ worker_status s "w1" = Some WorkerAlive ∧
    ∀ tr s', sys_exec Some tr s = Some s' → forallb (negb ∘ registers "w1") tr = true →
      worker_status s' "w1" = Some WorkerAlive ∧ RetryQueue.active (retryQueue (reg s')) !! "w1" = None.
Proof.
  set (tr0 := dying ++ [probe_at 41; probe_at 41; LHeartbeat "w1" 0 (42 * Second)]).
  exists (run tr0). split; [unfold tr0; by_run|]. split; [vm_compute; reflexivity|].
  intros tr s' Hx Htr. apply (never_probed_again tr0 tr); try exact Hx; try exact Htr; try (vm_compute; reflexivity).
  vm_compute. by eexists.
Qed.
End runs.
