(* ===== verification/GoHeap.v ===== *)
(** * Go's [container/heap]

    The priority queue of [pkg/worker_pool] is a [heap.Interface] handed to
    the procedures of the Go library.  [heap_Interface] is that interface, and
    [heap_up], [heap_down], [heap_Init], [heap_Push], [heap_Pop] and
    [heap_Fix] are the library's procedures on it, index computations included.
    [heap_Laws] states what the library documents of an implementation; from
    it alone the procedures are shown to terminate within their fuel, not to
    panic, to permute the elements and to restore the heap order. *)

From stdpp Require Import base list.
From Stdlib Require Import ZArith ZifyNat Lia.
From S2P Require Import Prelude.

#[local] Ltac Zify.zify_post_hook ::= Z.div_mod_to_equations.

(** ** The interface and the procedures *)

Class heap_Interface (H X : Type) := {
  heap_len : H → Z;
  heap_less : Z → Z → H → outcome () bool;
  heap_swap : Z → Z → H → outcome () H;
  heap_push : X → H → outcome () H;
  heap_pop : H → outcome () (X * H);
}.

Section procedures.
Context `{heap_Interface H X}.
Implicit Types (h : H) (x : X) (i j n : Z).

(** Go's division truncates: the parent of 0 is 0, and of -1 it is -1. *)
Fixpoint heap_up_loop (fuel : nat) j h : outcome () H :=
  match fuel with
  | O => Panic
  | S fuel =>
      let i := Z.quot (j - 1) 2 in
      if decide (i = j) then Ret h
      else
        less ← heap_less j i h;
        if less : bool then h ← heap_swap i j h; heap_up_loop fuel i h else Ret h
  end.

Definition heap_up j h : outcome () H := heap_up_loop (S (Z.to_nat j)) j h.

(** The smaller child of [i], if it has a child below [n]. *)
Definition heap_child i n h : outcome () (option Z) :=
  let j1 := (2 * i + 1)%Z in
  if decide (n ≤ j1 ∨ j1 < 0)%Z then Ret None
  else
    let j2 := (j1 + 1)%Z in
    if decide (j2 < n)%Z
    then less ← heap_less j2 j1 h; Ret (Some (if less : bool then j2 else j1))
    else Ret (Some j1).

Fixpoint heap_down_loop (fuel : nat) i n h : outcome () (Z * H) :=
  match fuel with
  | O => Panic
  | S fuel =>
      child ← heap_child i n h;
      match child with
      | None => Ret (i, h)
      | Some j =>
          less ← heap_less j i h;
          if less : bool then h ← heap_swap i j h; heap_down_loop fuel j n h else Ret (i, h)
      end
  end.

(** Whether the element moved, and the heap. *)
Definition heap_down i0 n h : outcome () (bool * H) :=
  '(i, h) ← heap_down_loop (S (Z.to_nat n)) i0 n h;
  Ret (bool_decide (i0 < i)%Z, h).

(** [heap_down] for [i - 1], ..., [0]. *)
Fixpoint heap_Init_loop (i : nat) n h : outcome () H :=
  match i with
  | O => Ret h
  | S i => '(_, h) ← heap_down (Z.of_nat i) n h; heap_Init_loop i n h
  end.

Definition heap_Init h : outcome () H := heap_Init_loop (Z.to_nat (Z.quot (heap_len h) 2)) (heap_len h) h.

Definition heap_Push x h : outcome () H :=
  h ← heap_push x h; heap_up (heap_len h - 1) h.

Definition heap_Pop h : outcome () (X * H) :=
  let n := (heap_len h - 1)%Z in
  h ← heap_swap 0 n h;
  '(_, h) ← heap_down 0 n h;
  heap_pop h.

Definition heap_Fix i h : outcome () H :=
  '(moved, h) ← heap_down i (heap_len h) h;
  if moved : bool then Ret h else heap_up i h.
End procedures.

(** ** Exchanging two elements of a list *)
Section exchange.
Context {E : Type}.
Implicit Types (l : list E) (i j k : nat).

Definition exchange i j l : list E :=
  match l !! i, l !! j with
  | Some x, Some y => <[j := x]> (<[i := y]> l)
  | _, _ => l
  end.

Lemma exchange_Permutation i j l : exchange i j l ≡ₚ l.
Proof. unfold exchange. repeat case_match; try done. by apply Permutation_insert_swap. Qed.

Lemma exchange_length i j l : length (exchange i j l) = length l.
Proof. by rewrite exchange_Permutation. Qed.

Lemma exchange_lookup i j k l :
  i < length l → j < length l →
  exchange i j l !! k = if decide (k = j) then l !! i else if decide (k = i) then l !! j else l !! k.
Proof.
  intros Hi Hj. unfold exchange.
  destruct (lookup_lt_is_Some_2 l i Hi) as [x Hx], (lookup_lt_is_Some_2 l j Hj) as [y Hy].
  rewrite Hx, Hy. case_decide; [subst; rewrite list_lookup_insert_eq; [done|by rewrite length_insert]|].
  rewrite list_lookup_insert_ne by done.
  case_decide; [subst; by rewrite list_lookup_insert_eq|by rewrite list_lookup_insert_ne].
Qed.
End exchange.

(** ** The heap order *)

Definition parent (c : nat) : nat := (c - 1) / 2.

Lemma parent_quot (j : nat) : Z.quot (Z.of_nat j - 1) 2 = Z.of_nat (parent j).
Proof. unfold parent. destruct j; [done|]. rewrite Z.quot_div_nonneg, Nat2Z.inj_div by lia. f_equal. lia. Qed.

Lemma parent_lt (j : nat) : 0 < j → parent j < j.
Proof. unfold parent. lia. Qed.

Lemma parent_inv (c i : nat) : 0 < c → parent c = i ↔ c = 2 * i + 1 ∨ c = 2 * i + 2.
Proof. unfold parent. lia. Qed.

(** The orders are stated on the keys [κ] of the positions [< n]. *)
Section order.
Implicit Types (κ : nat → Z) (lo n i j c : nat).

(** Each node from [lo] on is at most its children. *)
Definition ordered lo n κ : Prop := ∀ c, 0 < c < n → lo ≤ parent c → (κ (parent c) ≤ κ c)%Z.

(** The order, except that the element at [j] may be too small. *)
Definition up_ok n j κ : Prop :=
  (∀ c, 0 < c < n → c ≠ j → (κ (parent c) ≤ κ c)%Z) ∧
  (∀ c, 0 < j → 0 < c < n → parent c = j → (κ (parent j) ≤ κ c)%Z).

(** The order, except that the element at [i] may be too large (or too small). *)
Definition down_ok lo n i κ : Prop :=
  (∀ c, 0 < c < n → lo ≤ parent c → parent c ≠ i → c ≠ i → (κ (parent c) ≤ κ c)%Z) ∧
  (∀ c, 0 < i → lo ≤ parent i → 0 < c < n → parent c = i → (κ (parent i) ≤ κ c)%Z).

Definition exch i j κ : nat → Z := λ k, if decide (k = j) then κ i else if decide (k = i) then κ j else κ k.

#[local] Ltac heap_cases :=
  repeat match goal with
  | H : context [parent ?c] |- _ => is_var c; let p := fresh "p" in set (p := parent c) in *; clearbody p
  end;
  go_cases; repeat match goal with H : ?x = ?x → _ |- _ => specialize (H eq_refl) end; simplify_eq; lia.

Lemma up_ok_ordered n j κ : up_ok n j κ → (0 < j < n → (κ (parent j) ≤ κ j)%Z) → ordered 0 n κ.
Proof. intros [H1 _] Hj c Hc _. destruct (decide (c = j)) as [->|]; [by apply Hj|by apply H1]. Qed.

Lemma up_ok_swap n j κ :
  0 < j < n → (κ j < κ (parent j))%Z → up_ok n j κ → up_ok n (parent j) (exch (parent j) j κ).
Proof.
  intros Hj Hlt [H1 H2]. pose proof (parent_lt j). unfold up_ok, exch. split.
  - intros c Hc Hcp. pose proof (H1 c Hc). pose proof (H2 c). pose proof (parent_lt c).
    pose proof (λ E : c = j, f_equal parent E). clear H1 H2. heap_cases.
  - intros c Hp Hc Hcp. pose proof (H1 c Hc). pose proof (H1 (parent j)).
    pose proof (parent_lt (parent j)). pose proof (parent_lt c). clear H1 H2. heap_cases.
Qed.

Lemma down_ok_swap lo n i j κ :
  0 < j < n → parent j = i → lo ≤ i → (∀ c, 0 < c < n → parent c = i → (κ j ≤ κ c)%Z) → (κ j < κ i)%Z →
  down_ok lo n i κ → down_ok lo n j (exch i j κ) ∧ (exch i j κ (parent j) ≤ exch i j κ j)%Z.
Proof.
  intros Hj Hp Hlo Hmin Hlt [H1 H2]. pose proof (parent_lt j). unfold down_ok, exch. split; [split|].
  - intros c Hc Hcp Hcj Hc'. pose proof (H1 c Hc Hcp). pose proof (H2 j). pose proof (Hmin c Hc).
    pose proof (parent_lt c). pose proof (parent_lt i).
    pose proof (λ E : c = i, f_equal parent E). clear H1 H2 Hmin. heap_cases.
  - intros c _ _ Hc Hcp. pose proof (H1 c Hc). pose proof (parent_lt c). clear H1 H2 Hmin. heap_cases.
  - clear H1 H2 Hmin. heap_cases.
Qed.

Lemma down_ok_ordered lo n i κ :
  down_ok lo n i κ → (∀ c, 0 < c < n → parent c = i → (κ i ≤ κ c)%Z) →
  ∀ c, 0 < c < n → lo ≤ parent c → c ≠ i → (κ (parent c) ≤ κ c)%Z.
Proof. intros [H1 _] Hi c Hc Hlo Hci. destruct (decide (parent c = i)) as [<-|Hn]; [by apply Hi|by apply H1]. Qed.

(** The root of an ordered heap is a minimum. *)
Lemma ordered_root n κ c : ordered 0 n κ → c < n → (κ 0%nat ≤ κ c)%Z.
Proof.
  intros Ho. induction c as [c IH] using lt_wf_ind. intros Hc.
  destruct (decide (c = 0)) as [->|]; [lia|]. pose proof (parent_lt c).
  pose proof (IH (parent c)). pose proof (Ho c). lia.
Qed.
End order.

(** ** What the library asks of an implementation

    [heap_elems] are the elements, [heap_key] what [Less] compares, [heap_ref]
    the value [Push] and [Pop] pass, [heap_wf] the states in which the methods
    may be called, [heap_fresh x e] that [x] may be pushed and becomes [e], and
    [heap_frame] what the methods leave alone. *)
Class heap_Laws (H X E : Type) `{heap_Interface H X} := {
  heap_wf : H → Prop;
  heap_elems : H → list E;
  heap_key : E → Z;
  heap_ref : E → X;
  heap_fresh : X → E → H → Prop;
  heap_frame : relation H;
  heap_frame_preorder :: PreOrder heap_frame;
  heap_len_law h : heap_wf h → heap_len h = Z.of_nat (length (heap_elems h));
  heap_less_law h i j x y :
    heap_wf h → heap_elems h !! i = Some x → heap_elems h !! j = Some y →
    heap_less (Z.of_nat i) (Z.of_nat j) h = Ret (bool_decide (heap_key x < heap_key y)%Z);
  heap_swap_law h i j :
    heap_wf h → i < length (heap_elems h) → j < length (heap_elems h) →
    ∃ h', heap_swap (Z.of_nat i) (Z.of_nat j) h = Ret h' ∧ heap_wf h' ∧ heap_frame h h' ∧
      heap_elems h' = exchange i j (heap_elems h);
  heap_push_law h x e :
    heap_wf h → heap_fresh x e h →
    ∃ h', heap_push x h = Ret h' ∧ heap_wf h' ∧ heap_frame h h' ∧ heap_elems h' = heap_elems h ++ [e];
  heap_pop_law h l e :
    heap_wf h → heap_elems h = l ++ [e] →
    ∃ h', heap_pop h = Ret (heap_ref e, h') ∧ heap_wf h' ∧ heap_frame h h' ∧ heap_elems h' = l;
}.

Section laws.
Context `{I : heap_Interface H X, Laws : !heap_Laws H X E}.
Implicit Types (h : H) (x : X) (e : E) (l : list E) (i j n : nat).

(** The keys by position. *)
Definition keys_at l (k : nat) : Z := from_option heap_key 0%Z (l !! k).

Definition heap_ordered l : Prop := ordered 0 (length l) (keys_at l).

Lemma keys_at_exchange i j l k :
  i < length l → j < length l → keys_at (exchange i j l) k = exch i j (keys_at l) k.
Proof.
  intros Hi Hj. unfold keys_at, exch. rewrite exchange_lookup by done. by repeat case_decide.
Qed.

Lemma keys_at_lookup l k e : l !! k = Some e → keys_at l k = heap_key e.
Proof. unfold keys_at. by intros ->. Qed.

(** The keys only matter up to extensional equality. *)
Lemma up_ok_ext n j κ κ' : (∀ k, κ k = κ' k) → up_ok n j κ → up_ok n j κ'.
Proof. intros Hk [H1 H2]. split; intros c; rewrite <-!Hk; auto. Qed.

Lemma down_ok_ext lo n i κ κ' : (∀ k, κ k = κ' k) → down_ok lo n i κ → down_ok lo n i κ'.
Proof. intros Hk [H1 H2]. split; intros c; rewrite <-!Hk; auto. Qed.

Lemma ordered_ext lo n κ κ' : (∀ k, k < n → κ k = κ' k) → ordered lo n κ → ordered lo n κ'.
Proof.
  intros Hk Ho c Hc Hlo. pose proof (parent_lt c). rewrite <-!Hk by lia. by apply Ho.
Qed.

Lemma heap_less_keys h i j :
  heap_wf h → i < length (heap_elems h) → j < length (heap_elems h) →
  heap_less (Z.of_nat i) (Z.of_nat j) h =
    Ret (bool_decide (keys_at (heap_elems h) i < keys_at (heap_elems h) j)%Z).
Proof.
  intros Hwf [x Hx]%lookup_lt_is_Some_2 [y Hy]%lookup_lt_is_Some_2.
  by rewrite (heap_less_law h i j x y), (keys_at_lookup _ _ _ Hx), (keys_at_lookup _ _ _ Hy).
Qed.

(** What every procedure preserves: the result is well formed and holds the
    same elements. *)
Definition rearranged h h' : Prop := heap_wf h' ∧ heap_elems h' ≡ₚ heap_elems h ∧ heap_frame h h'.

Lemma rearranged_refl h : heap_wf h → rearranged h h.
Proof. intros Hwf. unfold rearranged. by split_and!. Qed.

Lemma rearranged_length h h' : rearranged h h' → length (heap_elems h') = length (heap_elems h).
Proof. intros (_ & Hp & _). by apply Permutation_length. Qed.

Lemma rearranged_trans h h' h'' : rearranged h h' → rearranged h' h'' → rearranged h h''.
Proof. intros (_ & Hp & Hf) (? & Hp' & Hf'). unfold rearranged. split_and!; [done|by etrans|by etrans]. Qed.

Lemma heap_swap_rearranges h i j :
  heap_wf h → i < length (heap_elems h) → j < length (heap_elems h) →
  ∃ h', heap_swap (Z.of_nat i) (Z.of_nat j) h = Ret h' ∧ rearranged h h' ∧
    heap_elems h' = exchange i j (heap_elems h).
Proof.
  intros Hwf Hi Hj. destruct (heap_swap_law h i j Hwf Hi Hj) as (h' & ? & ? & ? & He).
  exists h'. unfold rearranged. split_and!; [done|done| |done|done]. rewrite He. apply exchange_Permutation.
Qed.

Lemma heap_up_loop_spec fuel h j :
  heap_wf h → j < fuel → j < length (heap_elems h) →
  up_ok (length (heap_elems h)) j (keys_at (heap_elems h)) →
  ∃ h', heap_up_loop fuel (Z.of_nat j) h = Ret h' ∧ rearranged h h' ∧ heap_ordered (heap_elems h').
Proof.
  revert h j. induction fuel as [|fuel IH]; intros h j Hwf Hf Hj Hup; [lia|]. simpl.
  rewrite parent_quot. case_decide as Hpj.
  { exists h. split_and!; [done|by apply rearranged_refl|]. eapply up_ok_ordered; [done|].
    intros. pose proof (parent_lt j). lia. }
  assert (0 < j) as Hj0 by (destruct j; [done|lia]). pose proof (parent_lt j Hj0).
  rewrite heap_less_keys by (done || lia). simpl. case_bool_decide as Hless.
  - destruct (heap_swap_rearranges h (parent j) j) as (h1 & -> & Hr & He); [done|lia..|]. simpl.
    pose proof (rearranged_length _ _ Hr) as Hlen.
    destruct (IH h1 (parent j)) as (h' & -> & Hr' & Ho); [apply Hr|lia..| |].
    + rewrite Hlen, He. eapply up_ok_ext; [|by apply up_ok_swap; [lia|..]].
      intros k. rewrite keys_at_exchange by lia. done.
    + exists h'. split_and!; [done| |done]. by eapply rearranged_trans.
  - exists h. split_and!; [done|by apply rearranged_refl|]. eapply up_ok_ordered; [done|]. lia.
Qed.

Lemma heap_up_spec h j :
  heap_wf h → j < length (heap_elems h) → up_ok (length (heap_elems h)) j (keys_at (heap_elems h)) →
  ∃ h', heap_up (Z.of_nat j) h = Ret h' ∧ rearranged h h' ∧ heap_ordered (heap_elems h').
Proof. intros. apply heap_up_loop_spec; [done|lia|done..]. Qed.

(** [heap.Push]: the heap with one element more. *)
Lemma heap_Push_spec h x e :
  heap_wf h → heap_ordered (heap_elems h) → heap_fresh x e h →
  ∃ h', heap_Push x h = Ret h' ∧ heap_wf h' ∧ heap_frame h h' ∧ heap_elems h' ≡ₚ e :: heap_elems h ∧
    heap_ordered (heap_elems h').
Proof.
  intros Hwf Ho Hx. destruct (heap_push_law h x e Hwf Hx) as (h1 & Hpush & Hwf' & Hf & He).
  unfold heap_Push. rewrite Hpush. cbn [mbind outcome_bind]. rewrite heap_len_law by done.
  assert (length (heap_elems h1) = S (length (heap_elems h))) as Hlen
    by (rewrite He, length_app; simpl; lia).
  replace (Z.of_nat (length (heap_elems h1)) - 1)%Z with (Z.of_nat (length (heap_elems h))) by lia.
  destruct (heap_up_spec h1 (length (heap_elems h))) as (h' & -> & (Hwf'' & Hp & Hf') & Ho'); [done|lia| |].
  - rewrite Hlen, He. split; intros c; intros; pose proof (parent_lt c).
    + unfold keys_at. rewrite !lookup_app_l by lia. apply Ho; lia.
    + lia.
  - exists h'. split_and!; [done|done|by etrans| |done]. rewrite Hp, He. by rewrite Permutation_app_comm.
Qed.

(** The child chosen by [down]: none, or a smallest one. *)
Definition is_child l n i (c : option Z) : Prop :=
  match c with
  | None => ∀ c, 0 < c < n → parent c ≠ i
  | Some z => ∃ j, z = Z.of_nat j ∧ 0 < j < n ∧ parent j = i ∧
      ∀ c, 0 < c < n → parent c = i → (keys_at l j ≤ keys_at l c)%Z
  end.

Lemma heap_child_spec h i n :
  heap_wf h → n ≤ length (heap_elems h) →
  ∃ c, heap_child (Z.of_nat i) (Z.of_nat n) h = Ret c ∧ is_child (heap_elems h) n i c.
Proof.
  intros Hwf Hn. unfold heap_child. case_decide as Hj1.
  { exists None. split; [done|]. intros c Hc Hp. apply parent_inv in Hp; lia. }
  assert (Z.of_nat (2 * i + 1) = 2 * Z.of_nat i + 1)%Z as <- by lia.
  case_decide as Hj2.
  - replace (Z.of_nat (2 * i + 1) + 1)%Z with (Z.of_nat (2 * i + 2)) in * by lia.
    rewrite heap_less_keys by (done || lia). cbn [mbind outcome_bind]. eexists. split; [done|].
    assert (∀ j, j = 2 * i + 1 ∨ j = 2 * i + 2 → parent j = i) as Hpar by (unfold parent; lia).
    case_bool_decide; [exists (2 * i + 2)|exists (2 * i + 1)].
    all: split_and!; [done|lia|lia|apply Hpar; lia|].
    all: intros c Hc Hp; apply parent_inv in Hp as [->| ->]; lia.
  - exists (Some (Z.of_nat (2 * i + 1))). split; [done|]. exists (2 * i + 1).
    split_and!; [done|lia|lia|unfold parent; lia|].
    intros c Hc Hp. apply parent_inv in Hp as [->| ->]; lia.
Qed.

(** One run of [down] from [i0]: nothing happens and only the edge above [i0]
    may be out of order, or the element moves and all edges are in order. *)
Definition down_result lo n (i0 i : nat) h h' : Prop :=
  i0 ≤ i ∧ (i = i0 → h' = h) ∧
  (∀ c, 0 < c < n → lo ≤ parent c → (c ≠ i0 ∨ i0 < i) →
     (keys_at (heap_elems h') (parent c) ≤ keys_at (heap_elems h') c)%Z) ∧
  (∀ k, n ≤ k → heap_elems h' !! k = heap_elems h !! k).

Lemma heap_down_loop_spec fuel h lo n i :
  heap_wf h → n ≤ length (heap_elems h) → n < fuel + i → lo ≤ i → i < n ∨ fuel ≠ 0 →
  down_ok lo n i (keys_at (heap_elems h)) →
  ∃ i' h', heap_down_loop fuel (Z.of_nat i) (Z.of_nat n) h = Ret (Z.of_nat i', h') ∧ rearranged h h' ∧
    down_result lo n i i' h h' ∧
    ((0 < i → lo ≤ parent i → (keys_at (heap_elems h) (parent i) ≤ keys_at (heap_elems h) i)%Z) →
     ordered lo n (keys_at (heap_elems h'))).
Proof.
  revert h i. induction fuel as [|fuel IH]; intros h i Hwf Hn Hf Hlo Hi Hdown; [lia|]. simpl.
  destruct (heap_child_spec h i n Hwf Hn) as (c & -> & Hc). simpl.
  assert (∀ κ, (∀ c, 0 < c < n → parent c = i → (κ i ≤ κ c)%Z) → down_ok lo n i κ →
    (0 < i → lo ≤ parent i → (κ (parent i) ≤ κ i)%Z) → ordered lo n κ) as Hstop.
  { intros κ Hk Hd Hup c' Hc' Hlo'. destruct (decide (c' = i)) as [->|]; [by apply Hup; lia|].
    by apply (down_ok_ordered lo n i). }
  assert ((∀ c, 0 < c < n → parent c = i → (keys_at (heap_elems h) i ≤ keys_at (heap_elems h) c)%Z) →
    rearranged h h ∧ down_result lo n i i h h ∧
    ((0 < i → lo ≤ parent i → (keys_at (heap_elems h) (parent i) ≤ keys_at (heap_elems h) i)%Z) →
     ordered lo n (keys_at (heap_elems h)))) as Hdone.
  { intros Hmin. split_and!; [by apply rearranged_refl| |by apply Hstop]. split_and!; [lia|done| |done].
    intros c' Hc' Hlo' [Hne|]; [|lia]. by apply (down_ok_ordered lo n i). }
  destruct c as [z|]; [|exists i, h; split; [done|]; apply Hdone; intros c' Hc' Hp; by destruct (Hc c' Hc')].
  destruct Hc as (j & -> & Hj & Hp & Hmin). pose proof (parent_lt j).
  rewrite heap_less_keys by (done || lia). simpl. case_bool_decide as Hless.
  2:{ exists i, h. split; [done|]. apply Hdone. intros c' Hc' Hp'. specialize (Hmin c' Hc' Hp'). lia. }
  destruct (heap_swap_rearranges h i j) as (h1 & -> & Hr & He); [done|lia..|]. simpl.
  pose proof (rearranged_length _ _ Hr) as Hlen.
  destruct (down_ok_swap lo n i j (keys_at (heap_elems h))) as [Hd1 Hedge]; [done..|].
  assert (∀ k, exch i j (keys_at (heap_elems h)) k = keys_at (heap_elems h1) k) as Hk.
  { intros k. rewrite He, keys_at_exchange by lia. done. }
  destruct (IH h1 j) as (i' & h' & -> & Hr' & (Hle & _ & _ & Htail) & Hord); [apply Hr|lia..| |].
  { by eapply down_ok_ext. }
  rewrite <-!Hk in Hord. specialize (Hord (λ _ _, Hedge)).
  exists i', h'. split_and!; [done|by eapply rearranged_trans| |done].
  split_and!; [lia|lia| |].
  - intros c' Hc' Hlo' _. by apply Hord.
  - intros k Hk'. rewrite Htail, He, exchange_lookup by lia. by rewrite !decide_False by lia.
Qed.

Lemma heap_down_spec h lo n i :
  heap_wf h → n ≤ length (heap_elems h) → lo ≤ i → down_ok lo n i (keys_at (heap_elems h)) →
  ∃ moved h', heap_down (Z.of_nat i) (Z.of_nat n) h = Ret (moved, h') ∧ rearranged h h' ∧
    (moved = false → h' = h) ∧
    (∀ c, 0 < c < n → lo ≤ parent c → c ≠ i ∨ moved = true →
       (keys_at (heap_elems h') (parent c) ≤ keys_at (heap_elems h') c)%Z) ∧
    (∀ k, n ≤ k → heap_elems h' !! k = heap_elems h !! k).
Proof.
  intros Hwf Hn Hlo Hd. unfold heap_down. rewrite Nat2Z.id.
  destruct (heap_down_loop_spec (S n) h lo n i) as (i' & h' & -> & Hr & (Hle & Heq & Hedges & Htail) & _);
    [done|done|lia|done|by right|done|].
  simpl. exists (bool_decide (Z.of_nat i < Z.of_nat i')%Z), h'. split_and!; [done|done| | |done].
  - intros Hb%bool_decide_eq_false. apply Heq. lia.
  - intros c Hc Hp [Hne|Hb%bool_decide_eq_true]; apply Hedges; auto. right. lia.
Qed.

(** [heap.Fix] with an in-range index, after the key at [i] changed. *)
Lemma heap_Fix_spec h i :
  heap_wf h → i < length (heap_elems h) → down_ok 0 (length (heap_elems h)) i (keys_at (heap_elems h)) →
  ∃ h', heap_Fix (Z.of_nat i) h = Ret h' ∧ rearranged h h' ∧ heap_ordered (heap_elems h').
Proof.
  intros Hwf Hi Hd. unfold heap_Fix. rewrite heap_len_law by done.
  destruct (heap_down_spec h 0 (length (heap_elems h)) i) as (moved & h1 & -> & Hr & Hsame & Hedges & _);
    [done|done|lia|done|]. simpl.
  pose proof (rearranged_length _ _ Hr) as Hlen. destruct moved.
  - exists h1. split_and!; [done|done|]. unfold heap_ordered. rewrite Hlen. intros c Hc Hp. apply Hedges; auto.
  - specialize (Hsame eq_refl) as ->. apply heap_up_spec; [done|done|]. split.
    + intros c Hc Hne. apply Hedges; auto with lia.
    + intros c Hi0 Hc Hp. destruct Hd as [_ Hd]. apply Hd; auto with lia.
Qed.

(** [heap.Pop] of a heap that is not empty returns a minimum. *)
Lemma heap_Pop_spec h :
  heap_wf h → heap_ordered (heap_elems h) → heap_elems h ≠ [] →
  ∃ e h', heap_Pop h = Ret (heap_ref e, h') ∧ heap_wf h' ∧ heap_frame h h' ∧ heap_elems h !! 0 = Some e ∧
    heap_elems h ≡ₚ e :: heap_elems h' ∧ heap_ordered (heap_elems h').
Proof.
  intros Hwf Ho Hne. unfold heap_Pop. rewrite heap_len_law by done.
  destruct (heap_elems h) as [|e0 l0] eqn:Hl0; [done|]. rewrite <-Hl0 in *.
  assert (length (heap_elems h) = S (length l0)) as Hlen by by rewrite Hl0.
  set (n := length l0) in *. replace (Z.of_nat (length (heap_elems h)) - 1)%Z with (Z.of_nat n) by lia.
  destruct (heap_swap_rearranges h 0 n) as (h1 & Hsw & Hr1 & He1); [done|lia..|].
  change (Z.of_nat 0) with 0%Z in Hsw. rewrite Hsw. simpl.
  pose proof (rearranged_length _ _ Hr1) as Hlen1.
  destruct (heap_down_spec h1 0 n 0) as (moved & h2 & Hd & Hr2 & Hsame & Hedges & Htail); [apply Hr1|lia|lia| |].
  { split; [|lia]. intros c Hc _ Hp Hc0. rewrite He1, !keys_at_exchange by lia. pose proof (parent_lt c).
    unfold exch. rewrite !decide_False by lia. apply Ho; lia. }
  change (Z.of_nat 0) with 0%Z in Hd. rewrite Hd. simpl.
  pose proof (rearranged_length _ _ Hr2) as Hlen2.
  assert (heap_elems h2 !! n = Some e0) as Hn.
  { rewrite Htail by lia. rewrite He1, exchange_lookup, decide_True by lia. by rewrite Hl0. }
  assert (heap_elems h2 = take n (heap_elems h2) ++ [e0]) as Hsplit.
  { rewrite <-(take_drop n (heap_elems h2)) at 1. f_equal.
    rewrite (drop_S _ e0) by done. by rewrite drop_ge by lia. }
  destruct (heap_pop_law h2 (take n (heap_elems h2)) e0) as (h3 & -> & Hwf3 & Hf3 & He3); [apply Hr2|done|].
  exists e0, h3. split_and!; [done..| |by rewrite Hl0| |].
  - etrans; [apply Hr1|]. etrans; [apply Hr2|done].
  - rewrite He3. etrans; [symmetry; apply Hr1|]. etrans; [symmetry; apply Hr2|]. rewrite Hsplit at 1.
    by rewrite Permutation_app_comm.
  - unfold heap_ordered. rewrite He3. assert (length (take n (heap_elems h2)) = n) as -> by (rewrite length_take; lia).
    apply (ordered_ext 0 n (keys_at (heap_elems h2))).
    { intros k Hk. unfold keys_at. by rewrite lookup_take_lt. }
    intros c Hc Hp. apply Hedges; auto with lia.
Qed.

(** The first element of an ordered heap is a minimum. *)
Lemma heap_ordered_min l e e' : heap_ordered l → l !! 0 = Some e → e' ∈ l → (heap_key e ≤ heap_key e')%Z.
Proof.
  intros Ho He [k Hk]%list_elem_of_lookup. apply lookup_lt_Some in Hk as Hlt.
  pose proof (ordered_root _ _ k Ho Hlt) as Hr. by rewrite (keys_at_lookup _ _ _ He), (keys_at_lookup _ _ _ Hk) in Hr.
Qed.

(** [heap.Init] orders any elements. *)
Lemma heap_Init_loop_spec h i n :
  heap_wf h → n = length (heap_elems h) → i ≤ n → ordered i n (keys_at (heap_elems h)) →
  ∃ h', heap_Init_loop i (Z.of_nat n) h = Ret h' ∧ rearranged h h' ∧ ordered 0 n (keys_at (heap_elems h')).
Proof.
  revert h. induction i as [|i IH]; intros h Hwf Hn Hi Ho; simpl.
  { exists h. split_and!; [done|by apply rearranged_refl|done]. }
  destruct (heap_down_spec h i n i) as (moved & h1 & -> & Hr & Hsame & Hedges & _); [done|lia|done| |].
  { split; [|intros c ?; pose proof (parent_lt i); lia]. intros c Hc Hlo Hne Hci. apply Ho; lia. }
  simpl. pose proof (rearranged_length _ _ Hr) as Hlen.
  destruct (IH h1) as (h' & -> & Hr' & Ho'); [apply Hr|lia|lia| |].
  { intros c Hc Hlo. apply Hedges; [done|done|]. left. pose proof (parent_lt c). lia. }
  exists h'. split_and!; [done|by eapply rearranged_trans|done].
Qed.

Lemma heap_Init_spec h :
  heap_wf h → ∃ h', heap_Init h = Ret h' ∧ rearranged h h' ∧ heap_ordered (heap_elems h').
Proof.
  intros Hwf. unfold heap_Init. rewrite heap_len_law by done.
  rewrite Z.quot_div_nonneg, <-(Nat2Z.inj_div _ 2), Nat2Z.id by lia.
  destruct (heap_Init_loop_spec h (length (heap_elems h) / 2) (length (heap_elems h))) as (h' & -> & Hr & Ho);
    [done|done|lia| |].
  { intros c Hc Hlo. unfold parent in Hlo. lia. }
  exists h'. split_and!; [done|done|]. unfold heap_ordered. by rewrite (rearranged_length _ _ Hr).
Qed.

(** [heap.Fix] leaves an ordered heap alone, and tolerates the index -1 of an
    element that left the heap. *)
Lemma heap_Fix_id h (i : Z) :
  heap_wf h → heap_ordered (heap_elems h) →
  (- 1 ≤ i < Z.of_nat (length (heap_elems h)) ∨ i = 0)%Z → heap_Fix i h = Ret h.
Proof.
  intros Hwf Ho Hi.
  assert (i = (-1)%Z ∨ (i = 0%Z ∧ heap_elems h = []) ∨ ∃ k, i = Z.of_nat k ∧ k < length (heap_elems h)) as Hcases.
  { destruct (decide (i = (-1)%Z)); [auto|]. right. destruct (heap_elems h) as [|e l] eqn:He.
    - left. simpl in Hi. split; [lia|done].
    - right. exists (Z.to_nat i). simpl in *. lia. }
  unfold heap_Fix. rewrite heap_len_law by done. destruct Hcases as [->|[[-> He]|(k & -> & Hk)]].
  - unfold heap_down. simpl. unfold heap_child. simpl. by case_decide; [|lia].
  - rewrite He. done.
  - assert (∃ moved, heap_down (Z.of_nat k) (Z.of_nat (length (heap_elems h))) h = Ret (moved, h) ∧ moved = false)
      as (moved & -> & ->).
    { unfold heap_down. rewrite Nat2Z.id. simpl.
      destruct (heap_child_spec h k (length (heap_elems h)) Hwf) as (c & -> & Hc); [done|]. simpl.
      exists false. destruct c as [z|].
      - destruct Hc as (j & -> & Hj & Hp & _). rewrite heap_less_keys by (done || lia). simpl.
        rewrite bool_decide_eq_false_2; [|specialize (Ho j Hj); rewrite Hp in Ho; lia].
        simpl. rewrite bool_decide_eq_false_2 by lia. done.
      - simpl. rewrite bool_decide_eq_false_2 by lia. done. }
    simpl. unfold heap_up. rewrite Nat2Z.id. simpl. rewrite parent_quot. case_decide as Hp; [done|].
    assert (0 < k) as Hk0 by (destruct k; [done|lia]). pose proof (parent_lt k Hk0).
    rewrite heap_less_keys by (done || lia). simpl. rewrite bool_decide_eq_false_2; [done|].
    specialize (Ho k). lia.
Qed.
End laws.
