(* ===== verification/PriorityQueue.v ===== *)
(** * The priority queue of the worker pool

    [pkg/worker_pool/priority_queue.go]: the jobs that wait for a retry, in a
    binary heap by the time they wait for.  The slice holds pointers, and each
    object knows its position ([index]); [mem] are the objects.  The type is a
    [heap_Interface], and [PriorityQueue_laws] proves what [container/heap]
    asks of one; the properties below then follow from [GoHeap]. *)

From stdpp Require Import base gmap list sorting.
From Stdlib Require Import ZArith Lia.
From S2P Require Import Prelude GoHeap.

Definition two64_wrap (z : Z) : Z := (z mod two64)%Z.   (* uint64 *)

Section priority_queue.
Context {T : Type}.

(** [Job] of [worker_pool.go]; [T] is the interface [Task]. *)
Record Job := { job_task : T; job_waitToTime : Z }.

Record ItemPQ := { Value : Job; index : Z; waitToTime : Z }.

Definition set_index (i : Z) (it : ItemPQ) : ItemPQ :=
  {| Value := Value it; index := i; waitToTime := waitToTime it |}.
Definition set_Value (v : Job) (it : ItemPQ) : ItemPQ :=
  {| Value := v; index := index it; waitToTime := waitToTime it |}.

Record PriorityQueue := { mem : gmap nat ItemPQ; items : list nat; seq : Z }.
Implicit Types (q : PriorityQueue) (p : nat) (it : ItemPQ) (j : Job).

(** A value of type [any]: a pointer to an item, or something else. *)
Inductive any := AItem (p : nat) | AOther.

Definition Len q : Z := Z.of_nat (length (items q)).

(** [pq.items[i]], which panics out of range, and the object behind it. *)
Definition at_index (i : Z) q : outcome () nat :=
  if decide (0 ≤ i)%Z then match items q !! Z.to_nat i with Some p => Ret p | None => Panic end else Panic.

Definition deref p q : outcome () ItemPQ := match mem q !! p with Some it => Ret it | None => Panic end.

Definition Less (i j : Z) q : outcome () bool :=
  p ← at_index i q; it ← deref p q;
  p' ← at_index j q; it' ← deref p' q;
  Ret (bool_decide (waitToTime it < waitToTime it')%Z).

Definition mod_item (f : ItemPQ → ItemPQ) p q : PriorityQueue :=
  {| mem := alter f p (mem q); items := items q; seq := seq q |}.
Definition set_items v q : PriorityQueue := {| mem := mem q; items := v; seq := seq q |}.

(** An assignment to a field through a pointer, which panics if it is nil. *)
Definition store (f : ItemPQ → ItemPQ) p q : outcome () PriorityQueue := _ ← deref p q; Ret (mod_item f p q).

Definition Swap (i j : Z) q : outcome () PriorityQueue :=
  x ← at_index i q; y ← at_index j q;
  let q := set_items (<[Z.to_nat j := x]> (<[Z.to_nat i := y]> (items q))) q in
  q ← store (set_index i) y q; store (set_index j) x q.

Definition Push (x : any) q : outcome () PriorityQueue :=
  match x with
  | AOther => Ret q
  | AItem p => q ← store (set_index (Len q)) p q; Ret (set_items (items q ++ [p]) q)
  end.

Definition Pop q : outcome () (any * PriorityQueue) :=
  let n := Len q in
  p ← at_index (n - 1) q;
  q ← store (set_index (-1)) p q;
  Ret (AItem p, set_items (take (Z.to_nat (n - 1)) (items q)) q).

#[export] Instance PriorityQueue_heap : heap_Interface PriorityQueue any := {
  heap_len := Len; heap_less := Less; heap_swap := Swap; heap_push := Push; heap_pop := Pop;
}.

Definition NewPriorityQueue : outcome () PriorityQueue :=
  heap_Init {| mem := ∅; items := []; seq := 0 |}.

(** [nil] or a pointer. *)
Definition Top q : outcome () (option nat) :=
  match items q with [] => Ret None | _ => p ← at_index 0 q; Ret (Some p) end.

Definition Update p (value : Job) q : outcome () PriorityQueue :=
  q ← store (set_Value value) p q;
  it ← deref p q; heap_Fix (index it) q.

Definition Enqueue p q : outcome () PriorityQueue :=
  heap_Push (AItem p) {| mem := mem q; items := items q; seq := two64_wrap (seq q + 1) |}.

Definition Dequeue q : outcome () (option Job * PriorityQueue) :=
  match items q with
  | [] => Ret (None, q)
  | _ =>
      '(x, q) ← heap_Pop q;
      match x with
      | AItem p => it ← deref p q; Ret (Some (Value it), q)
      | AOther => Panic
      end
  end.

Definition Peek q : outcome () (option Job) :=
  match items q with
  | [] => Ret None
  | _ => p ← at_index 0 q; it ← deref p q; Ret (Some (Value it))
  end.

Definition Size q : Z := Len q.

(** The composite literal [&ItemPQ{Value: value, waitToTime: t}]. *)
Definition new_item (value : Job) (t : Z) q : nat * PriorityQueue :=
  let p := fresh (dom (mem q)) in
  (p, {| mem := <[p := {| Value := value; index := 0; waitToTime := t |}]> (mem q);
         items := items q; seq := seq q |}).

(** ** The laws of [container/heap] *)

(** The objects in the queue know their positions, and all others that they
    are not in it. *)
Record pq_wf q : Prop := {
  pq_nodup : NoDup (items q);
  pq_index i p : items q !! i = Some p → ∃ it, mem q !! p = Some it ∧ index it = Z.of_nat i;
  pq_out p it : p ∉ items q → mem q !! p = Some it → index it = (-1)%Z ∨ index it = 0%Z;
}.

(** An element: a pointer with the value and the time of its object. *)
Definition payload (it : ItemPQ) : Job * Z := (Value it, waitToTime it).
Definition element q p : nat * option (Job * Z) := (p, payload <$> mem q !! p).
Definition elements q : list (nat * option (Job * Z)) := element q <$> items q.
Definition element_time (e : nat * option (Job * Z)) : Z := from_option snd 0%Z e.2.

Lemma at_index_nat (i : nat) q : at_index (Z.of_nat i) q = match items q !! i with Some p => Ret p | None => Panic end.
Proof. unfold at_index. by rewrite decide_True, Nat2Z.id by lia. Qed.

Lemma at_index_Some (i : nat) q p : items q !! i = Some p → at_index (Z.of_nat i) q = Ret p.
Proof. rewrite at_index_nat. by intros ->. Qed.

Lemma elements_length q : length (elements q) = length (items q).
Proof. unfold elements. by rewrite length_fmap. Qed.

Lemma elements_lookup q i e :
  elements q !! i = Some e → ∃ p, items q !! i = Some p ∧ e = element q p.
Proof. unfold elements. rewrite list_lookup_fmap_Some. intros (p & ? & ?). eauto. Qed.

(** Only the index fields changed. *)
Definition same_payload q q' : Prop := ∀ p, payload <$> mem q' !! p = payload <$> mem q !! p.

#[export] Instance same_payload_preorder : PreOrder same_payload.
Proof. split; [by intros q p|intros q1 q2 q3 H12 H23 p; by rewrite H23]. Qed.

Lemma elements_same_payload q q' : same_payload q q' → elements q' = element q <$> items q'.
Proof. intros Hs. unfold elements, element. apply list_fmap_ext. intros i p _. by rewrite Hs. Qed.

Lemma mod_item_index_payload i p q : same_payload q (mod_item (set_index i) p q).
Proof.
  intros p'. unfold mod_item. simpl. destruct (decide (p' = p)) as [->|]; [|by rewrite lookup_alter_ne].
  rewrite lookup_alter_eq. by destruct (mem q !! p).
Qed.

Lemma store_ret f p q : is_Some (mem q !! p) → store f p q = Ret (mod_item f p q).
Proof. intros [it Hit]. unfold store, deref. by rewrite Hit. Qed.

Lemma mod_item_is_Some f p q p' : is_Some (mem q !! p') → is_Some (mem (mod_item f p q) !! p').
Proof. intros Hp. unfold mod_item. simpl. by apply lookup_alter_is_Some. Qed.

Lemma Less_law q (i j : nat) x y :
  pq_wf q → elements q !! i = Some x → elements q !! j = Some y →
  Less (Z.of_nat i) (Z.of_nat j) q = Ret (bool_decide (element_time x < element_time y)%Z).
Proof.
  intros Hwf (p & Hp & ->)%elements_lookup (p' & Hp' & ->)%elements_lookup.
  destruct (pq_index q Hwf i p Hp) as (it & Hit & _), (pq_index q Hwf j p' Hp') as (it' & Hit' & _).
  unfold Less, deref. rewrite (at_index_Some i q p), (at_index_Some j q p') by done. simpl.
  rewrite Hit, Hit'. simpl. unfold element_time. simpl. by rewrite Hit, Hit'.
Qed.

Lemma Swap_law q (i j : nat) :
  pq_wf q → i < length (elements q) → j < length (elements q) →
  ∃ q', Swap (Z.of_nat i) (Z.of_nat j) q = Ret q' ∧ pq_wf q' ∧ same_payload q q' ∧ elements q' = exchange i j (elements q).
Proof.
  intros Hwf Hi Hj. rewrite elements_length in Hi, Hj.
  destruct (lookup_lt_is_Some_2 _ _ Hi) as [x Hx], (lookup_lt_is_Some_2 _ _ Hj) as [y Hy].
  destruct (pq_index q Hwf i x Hx) as (itx & Hitx & _), (pq_index q Hwf j y Hy) as (ity & Hity & _).
  unfold Swap. rewrite (at_index_Some i q x), (at_index_Some j q y) by done. cbn [mbind outcome_bind]. rewrite !Nat2Z.id.
  rewrite store_ret by (by exists ity). cbn [mbind outcome_bind].
  rewrite store_ret by (apply mod_item_is_Some; by exists itx).
  eexists. split; [done|]. set (q' := mod_item _ x _).
  assert (items q' = exchange i j (items q)) as Hitems by (unfold exchange; by rewrite Hx, Hy).
  assert (same_payload q q') as Hpay.
  { intros p. unfold q'. rewrite mod_item_index_payload, mod_item_index_payload. done. }
  assert (∀ p, p ≠ x → p ≠ y → mem q' !! p = mem q !! p) as Hother.
  { intros p ??. unfold q'. simpl. by rewrite !lookup_alter_ne. }
  split_and!; [split| done |].
  - rewrite Hitems, exchange_Permutation. apply Hwf.
  - intros k p. rewrite Hitems, exchange_lookup by done. intros Hp.
    assert (x = y → i = j) as Hij by (intros ->; by eapply NoDup_lookup; [apply Hwf|..]).
    destruct (pq_index q Hwf i x Hx) as (ix & Hix & _), (pq_index q Hwf j y Hy) as (iy & Hiy & _).
    unfold q'. simpl. case_decide as Hkj; [|case_decide as Hki].
    + subst k. rewrite Hx in Hp. injection Hp as <-. rewrite lookup_alter_eq.
      destruct (decide (x = y)) as [<-|]; [rewrite lookup_alter_eq|rewrite lookup_alter_ne by done]; rewrite Hix; eauto.
    + subst k. rewrite Hy in Hp. injection Hp as <-.
      rewrite lookup_alter_ne by naive_solver. rewrite lookup_alter_eq, Hiy. eauto.
    + assert (p ≠ x ∧ p ≠ y) as [??].
      { split; intros ->; [apply Hki|apply Hkj]; eapply NoDup_lookup; try done; apply Hwf. }
      rewrite !lookup_alter_ne by done. by apply pq_index.
  - intros p it. rewrite Hitems, exchange_Permutation. intros Hp.
    rewrite Hother by (intros ->; by apply Hp; eapply list_elem_of_lookup_2). by apply pq_out.
  - rewrite (elements_same_payload q q' Hpay), Hitems. unfold elements, exchange.
    rewrite !list_lookup_fmap, Hx, Hy. simpl. by rewrite !list_fmap_insert.
Qed.

(** A pointer to an object outside the queue. *)
Definition outside p (e : nat * option (Job * Z)) q : Prop :=
  p ∉ items q ∧ is_Some (mem q !! p) ∧ e = element q p.

Lemma Push_law q p e :
  pq_wf q → outside p e q →
  ∃ q', Push (AItem p) q = Ret q' ∧ pq_wf q' ∧ same_payload q q' ∧ elements q' = elements q ++ [e].
Proof.
  intros Hwf (Hout & [it Hit] & ->). unfold Push. rewrite store_ret by (by exists it). cbn [mbind outcome_bind].
  eexists. split; [done|]. simpl. split_and!; [split; simpl|apply mod_item_index_payload|].
  - apply NoDup_app. split_and!; [apply Hwf| |apply NoDup_singleton].
    intros p' Hp' ->%list_elem_of_singleton. done.
  - intros k p'. rewrite lookup_app_Some, list_lookup_singleton_Some. intros [Hk|(Hk & Hk0 & <-)].
    + rewrite lookup_alter_ne; [by apply pq_index|]. intros <-. by apply Hout; eapply list_elem_of_lookup_2.
    + rewrite lookup_alter_eq, Hit. eexists. split; [done|]. unfold Len. simpl. lia.
  - intros p' it' Hp'. rewrite lookup_alter_ne by set_solver. apply pq_out; set_solver.
  - erewrite elements_same_payload by apply mod_item_index_payload. simpl. by rewrite fmap_app.
Qed.

Lemma Pop_law q l e :
  pq_wf q → elements q = l ++ [e] →
  ∃ q', Pop q = Ret (AItem e.1, q') ∧ pq_wf q' ∧ same_payload q q' ∧ elements q' = l.
Proof.
  intros Hwf He.
  assert (∃ ps, items q = ps ++ [e.1] ∧ element q <$> ps = l ∧ e = element q e.1) as (ps & Hps & <- & Hee).
  { unfold elements in He. apply fmap_app_inv in He as (ps & ps' & -> & He' & Hps).
    symmetry in He'. apply fmap_cons_inv in He' as (p & ps'' & -> & Hnil & ->).
    symmetry in Hnil. apply fmap_nil_inv in Hnil as ->. by exists ps. }
  unfold Pop. set (p := e.1) in *. assert (Len q = Z.of_nat (length ps) + 1)%Z as Hlen.
  { unfold Len. rewrite Hps, length_app. simpl. lia. }
  replace (Len q - 1)%Z with (Z.of_nat (length ps)) by lia.
  assert (items q !! length ps = Some p) as Hp by (rewrite Hps, lookup_app_r, Nat.sub_diag by lia; done).
  destruct (pq_index q Hwf _ _ Hp) as (itp & Hitp & _). rewrite (at_index_Some _ _ _ Hp), Nat2Z.id. cbn [mbind outcome_bind].
  rewrite store_ret by (by exists itp). cbn [mbind outcome_bind]. eexists. split; [done|].
  assert (p ∉ ps ∧ NoDup ps) as [Hnp Hnd].
  { pose proof (pq_nodup q Hwf) as Hnd. rewrite Hps in Hnd. apply NoDup_app in Hnd as (? & Hd & _).
    split; [|done]. intros Hin. apply (Hd p Hin). left. }
  assert (take (length ps) (items q) = ps) as Htake by by rewrite Hps, take_app_length.
  split_and!; [split; simpl; rewrite Htake|apply mod_item_index_payload|].
  - done.
  - intros k p' Hk. rewrite lookup_alter_ne by (intros <-; by apply Hnp; eapply list_elem_of_lookup_2).
    apply pq_index; [done|]. rewrite Hps. by apply lookup_app_l_Some.
  - intros p' it Hp'. destruct (decide (p' = p)) as [->|].
    + rewrite lookup_alter_eq. destruct (mem q !! p); intros; simplify_eq/=. by left.
    + rewrite lookup_alter_ne by done. apply pq_out; [done|]. rewrite Hps. set_solver.
  - erewrite elements_same_payload by apply mod_item_index_payload. simpl. by rewrite Htake.
Qed.

Lemma Len_law q : pq_wf q → Len q = Z.of_nat (length (elements q)).
Proof. intros _. unfold Len. by rewrite elements_length. Qed.

Definition pushable (x : any) (e : nat * option (Job * Z)) q : Prop :=
  match x with AItem p => outside p e q | AOther => False end.

Lemma Push_any_law q x e :
  pq_wf q → pushable x e q →
  ∃ q', Push x q = Ret q' ∧ pq_wf q' ∧ same_payload q q' ∧ elements q' = elements q ++ [e].
Proof. destruct x as [p|]; [apply Push_law|done]. Qed.

#[export] Instance PriorityQueue_laws : heap_Laws PriorityQueue any (nat * option (Job * Z)) := {
  heap_wf := pq_wf; heap_elems := elements; heap_key := element_time; heap_ref e := AItem e.1;
  heap_fresh := pushable; heap_frame := same_payload; heap_frame_preorder := same_payload_preorder;
  heap_len_law := Len_law; heap_less_law := Less_law; heap_swap_law := Swap_law;
  heap_push_law := Push_any_law; heap_pop_law := Pop_law;
}.

(** ** The operations *)

(** Between operations the heap is ordered. *)
Definition pq_inv q : Prop := pq_wf q ∧ heap_ordered (elements q).

(** The values in the queue, each with the time it waits for. *)
Definition contents q : list (Job * Z) := omap (λ p, payload <$> mem q !! p) (items q).

Lemma contents_elements q : contents q = omap snd (elements q).
Proof.
  unfold contents, elements. induction (items q) as [|p ps IH]; [done|].
  rewrite fmap_cons. csimpl. by destruct (mem q !! p); simpl; rewrite IH.
Qed.

Lemma contents_length q : pq_wf q → length (contents q) = length (items q).
Proof.
  intros Hwf. unfold contents.
  assert (∀ p, p ∈ items q → is_Some (mem q !! p)) as Hall.
  { intros p [i Hp]%list_elem_of_lookup. destruct (pq_index q Hwf i p Hp) as (it & -> & _). eauto. }
  revert Hall. induction (items q) as [|p ps IH]; intros Hall; [done|]. csimpl.
  destruct (Hall p) as [it Hit]; [left|]. rewrite Hit. simpl. f_equal. apply IH. intros. apply Hall. by right.
Qed.

Lemma NewPriorityQueue_inv : ∃ q, NewPriorityQueue = Ret q ∧ pq_inv q ∧ contents q = [] ∧ mem q = ∅.
Proof.
  exists {| mem := ∅; items := []; seq := 0 |}. split_and!; [done| |done|done].
  split; [|intros c Hc; simpl in Hc; lia]. split; simpl; [constructor|done|done].
Qed.

Lemma contents_Permutation q q' : elements q' ≡ₚ elements q → contents q' ≡ₚ contents q.
Proof. intros Hp. by rewrite !contents_elements, Hp. Qed.

Lemma Enqueue_spec q p it :
  pq_inv q → p ∉ items q → mem q !! p = Some it →
  ∃ q', Enqueue p q = Ret q' ∧ pq_inv q' ∧ contents q' ≡ₚ payload it :: contents q ∧ same_payload q q'.
Proof.
  intros [Hwf Ho] Hp Hit. set (q1 := {| mem := mem q; items := items q; seq := two64_wrap (seq q + 1) |}).
  assert (heap_wf q1) as Hwf1 by (destruct Hwf; by split).
  destruct (heap_Push_spec q1 (AItem p) (element q1 p)) as (q' & Hq' & Hwf' & Hf & He & Ho'); [done..| |].
  { split_and!; [done|by exists it|done]. }
  exists q'. split_and!; [done|by split| |done]. rewrite !contents_elements. simpl in He. rewrite He. csimpl. unfold q1. by rewrite Hit.
Qed.

(** An element with the least time, if there is one. *)
Lemma Dequeue_spec q :
  pq_inv q →
  ∃ r q', Dequeue q = Ret (r, q') ∧ pq_inv q' ∧
    match r with
    | None => contents q = [] ∧ q' = q
    | Some j => ∃ t, contents q ≡ₚ (j, t) :: contents q' ∧ ∀ x, x ∈ contents q → (t ≤ x.2)%Z
    end.
Proof.
  intros [Hwf Ho]. unfold Dequeue. destruct (items q) as [|p0 ps] eqn:Hps.
  { exists None, q. split_and!; [done|by split|unfold contents; by rewrite Hps|done]. }
  destruct (heap_Pop_spec (Laws := PriorityQueue_laws) q Hwf Ho) as (e & q' & HP & Hwf' & Hf & He & Hp & Ho').
  { simpl. intros Hnil%(f_equal length). by rewrite elements_length, Hps in Hnil. }
  simpl in *. rewrite HP. simpl.
  apply elements_lookup in He as He0. destruct He0 as (p & Hp0 & ->). simpl in *.
  destruct (pq_index q Hwf 0 p Hp0) as (it & Hit & _).
  assert (∃ it', mem q' !! p = Some it' ∧ payload it' = payload it) as (it' & Hit' & Hpay).
  { specialize (Hf p). rewrite Hit in Hf. apply fmap_Some in Hf as (it' & ? & ?). eauto. }
  unfold deref. rewrite Hit'. simpl. exists (Some (Value it')), q'. split_and!; [done|by split|].
  injection Hpay as Hv Ht. exists (waitToTime it). split.
  - rewrite !contents_elements, Hp. csimpl. by rewrite Hit, Hv.
  - intros x. rewrite contents_elements, list_elem_of_omap. intros (e' & He' & Hx).
    pose proof (heap_ordered_min (Laws := PriorityQueue_laws) _ _ _ Ho He He') as Hmin. simpl in Hmin.
    unfold element_time in Hmin. rewrite Hx in Hmin. simpl in Hmin. by rewrite Hit in Hmin.
Qed.

Lemma items_contents_nil q : pq_wf q → items q = [] ↔ contents q = [].
Proof. intros Hwf. by rewrite <-!length_zero_iff_nil, contents_length. Qed.

(** [Top] and [Peek] see an element with the least time. *)
Lemma Top_spec q :
  pq_inv q →
  (Top q = Ret None ∧ Peek q = Ret None ∧ contents q = []) ∨
  ∃ p it, Top q = Ret (Some p) ∧ mem q !! p = Some it ∧ Peek q = Ret (Some (Value it)) ∧ payload it ∈ contents q ∧
    ∀ x, x ∈ contents q → (waitToTime it ≤ x.2)%Z.
Proof.
  intros [Hwf Ho]. unfold Top, Peek. destruct (items q) as [|p ps] eqn:Hps.
  { left. split_and!; [done|done|by apply items_contents_nil]. }
  right. assert (items q !! 0 = Some p) as Hp0 by by rewrite Hps.
  destruct (pq_index q Hwf 0 p Hp0) as (it & Hit & _). exists p, it.
  change 0%Z with (Z.of_nat 0). rewrite (at_index_Some 0 q p) by done. unfold deref. simpl. rewrite Hit. simpl.
  assert (elements q !! 0 = Some (element q p)) as He by (unfold elements; by rewrite Hps).
  split_and!; [done..| |].
  - rewrite contents_elements, list_elem_of_omap. exists (element q p).
    split; [by eapply list_elem_of_lookup_2|]. simpl. by rewrite Hit.
  - intros x. rewrite contents_elements, list_elem_of_omap. intros (e' & He' & Hx).
    pose proof (heap_ordered_min (Laws := PriorityQueue_laws) _ _ _ Ho He He') as Hmin. simpl in Hmin.
    unfold element_time in Hmin. rewrite Hx in Hmin. simpl in Hmin. by rewrite Hit in Hmin.
Qed.

Lemma element_time_ext q q' p :
  waitToTime <$> mem q' !! p = waitToTime <$> mem q !! p → element_time (element q' p) = element_time (element q p).
Proof.
  unfold element_time, element, payload. simpl. by destruct (mem q' !! p), (mem q !! p); simpl; intros; simplify_eq.
Qed.

(** [Update] only changes the value: the times, and so the order, stay. *)
Lemma Update_spec q p (v : Job) it :
  pq_inv q → mem q !! p = Some it →
  Update p v q = Ret (mod_item (set_Value v) p q) ∧ pq_inv (mod_item (set_Value v) p q).
Proof.
  intros [Hwf Ho] Hit. set (q' := mod_item (set_Value v) p q).
  assert (∀ p', index <$> mem q' !! p' = index <$> mem q !! p' ∧ waitToTime <$> mem q' !! p' = waitToTime <$> mem q !! p')
    as Hsame.
  { intros p'. unfold q'. simpl. destruct (decide (p' = p)) as [->|]; [|by rewrite lookup_alter_ne].
    by rewrite lookup_alter_eq, Hit. }
  assert (pq_wf q') as Hwf'.
  { split; [apply Hwf| |].
    - intros i p' Hp'. destruct (pq_index q Hwf i p' Hp') as (it' & Hit' & <-). destruct (Hsame p') as [Hi _].
      rewrite Hit' in Hi. apply fmap_Some in Hi as (it'' & ? & ?). eauto.
    - intros p' it' Hp' Hit'. destruct (Hsame p') as [Hi _]. rewrite Hit' in Hi. symmetry in Hi.
      apply fmap_Some in Hi as (it'' & Hit'' & ->). by apply (pq_out q Hwf p'). }
  assert (∀ k, keys_at (elements q') k = keys_at (elements q) k) as Hkeys.
  { intros k. unfold keys_at, elements. rewrite !list_lookup_fmap. change (items q') with (items q).
    destruct (items q !! k) as [p'|]; [|done]. apply element_time_ext, Hsame. }
  assert (heap_ordered (elements q')) as Ho'.
  { unfold heap_ordered. rewrite elements_length. unfold heap_ordered in Ho. rewrite elements_length in Ho.
    eapply ordered_ext; [|done]. intros k _. by rewrite Hkeys. }
  split; [|by split]. unfold Update. rewrite store_ret by (by exists it). fold q'. cbn [mbind outcome_bind]. unfold deref.
  assert (mem q' !! p = Some (set_Value v it)) as -> by (unfold q'; simpl; by rewrite lookup_alter_eq, Hit).
  simpl. apply heap_Fix_id; [done|done|]. simpl. rewrite elements_length.
  destruct (decide (p ∈ items q)) as [[i Hi]%list_elem_of_lookup|Hout].
  - destruct (pq_index q Hwf i p Hi) as (it' & ? & Hidx). simplify_eq. rewrite Hidx. left.
    apply lookup_lt_Some in Hi. simpl. lia.
  - destruct (pq_out q Hwf p it Hout Hit) as [->| ->]; [left; simpl; lia|by right].
Qed.

Lemma new_item_fresh (v : Job) t q : mem q !! (new_item v t q).1 = None.
Proof. apply not_elem_of_dom. apply is_fresh. Qed.

Lemma new_item_spec (v : Job) t q :
  pq_inv q →
  pq_inv (new_item v t q).2 ∧ contents (new_item v t q).2 = contents q ∧ (new_item v t q).1 ∉ items (new_item v t q).2 ∧
  mem (new_item v t q).2 !! (new_item v t q).1 = Some {| Value := v; index := 0; waitToTime := t |}.
Proof.
  intros [Hwf Ho]. pose proof (new_item_fresh v t q) as Hf. unfold new_item in *. simpl in *.
  set (p := fresh (dom (mem q))) in *. set (q' := {| mem := _; items := _; seq := _ |}).
  assert (p ∉ items q) as Hout.
  { intros [i Hi]%list_elem_of_lookup. destruct (pq_index q Hwf i p Hi) as (it & Hit & _). congruence. }
  assert (∀ p', p' ∈ items q → mem q' !! p' = mem q !! p') as Hsame.
  { intros p' Hp'. unfold q'. simpl. rewrite lookup_insert_ne; [done|]. by intros <-. }
  assert (elements q' = elements q) as He.
  { unfold elements, element. apply list_fmap_ext. intros i p' Hp'. rewrite Hsame; [done|].
    by eapply list_elem_of_lookup_2. }
  split_and!; [split; [split|]| |done|by rewrite lookup_insert_eq].
  - apply Hwf.
  - intros i p' Hp'. simpl in Hp'. rewrite Hsame by (by eapply list_elem_of_lookup_2). by apply pq_index.
  - intros p' it Hp'. unfold q'. simpl. destruct (decide (p' = p)) as [->|].
    + rewrite lookup_insert_eq. intros [= <-]. by right.
    + rewrite lookup_insert_ne by done. by apply pq_out.
  - by rewrite He.
  - by rewrite !contents_elements, He.
Qed.

(** ** Sequences of calls *)

(** [OEnqueue] builds its item as [moveToRetry] does; [OTop] reads the time of
    the item as [retryLoop] does; [OUpdate] takes any pointer the program
    has, to an item in the queue or one that left it. *)
Inductive pq_op :=
  | OEnqueue (v : Job) (t : Z)
  | ODequeue
  | OPeek
  | OTop
  | OSize
  | OUpdate (p : nat) (v : Job).

Inductive pq_obs :=
  | SawNothing
  | GotJob (v : option Job)
  | SawJob (v : option Job)
  | SawTime (t : option Z)
  | SawSize (n : Z).

Definition pq_call (op : pq_op) q : outcome () (pq_obs * PriorityQueue) :=
  match op with
  | OEnqueue v t => let '(p, q) := new_item v t q in q ← Enqueue p q; Ret (SawNothing, q)
  | ODequeue => '(v, q) ← Dequeue q; Ret (GotJob v, q)
  | OPeek => v ← Peek q; Ret (SawJob v, q)
  | OTop =>
      p ← Top q;
      match p with
      | None => Ret (SawTime None, q)
      | Some p => it ← deref p q; Ret (SawTime (Some (waitToTime it)), q)
      end
  | OSize => Ret (SawSize (Size q), q)
  | OUpdate p v => if decide (is_Some (mem q !! p)) then q ← Update p v q; Ret (SawNothing, q) else Ret (SawNothing, q)
  end.

Fixpoint pq_calls (ops : list pq_op) q : outcome () (list pq_obs * PriorityQueue) :=
  match ops with
  | [] => Ret ([], q)
  | op :: ops => '(o, q) ← pq_call op q; '(out, q) ← pq_calls ops q; Ret (o :: out, q)
  end.

Definition pq_run (ops : list pq_op) : outcome () (list pq_obs * PriorityQueue) :=
  q ← NewPriorityQueue; pq_calls ops q.

Lemma pq_call_inv op q : pq_inv q → ∃ o q', pq_call op q = Ret (o, q') ∧ pq_inv q'.
Proof.
  intros Hinv. destruct op as [v t| | | | |p v]; cbn [pq_call].
  - destruct (new_item_spec v t q Hinv) as (Hinv' & _ & Hout & Hit). destruct (new_item v t q) as [p q1].
    destruct (Enqueue_spec q1 p _ Hinv' Hout Hit) as (q' & -> & ? & _). simpl. eauto.
  - destruct (Dequeue_spec q Hinv) as (r & q' & -> & ? & _). simpl. eauto.
  - destruct (Top_spec q Hinv) as [(_ & -> & _)|(p & it & _ & _ & -> & _)]; simpl; eauto.
  - destruct (Top_spec q Hinv) as [(-> & _)|(p & it & -> & Hit & _)]; simpl; [eauto|].
    unfold deref. rewrite Hit. simpl. eauto.
  - eauto.
  - case_decide as Hp; [|eauto]. destruct Hp as [it Hit].
    destruct (Update_spec q p v it Hinv Hit) as [-> ?]. simpl. eauto.
Qed.

(** C29. After any calls of the queue's methods, [Update] on items that already
    left the queue included, no call has panicked and the queue is well formed:
    its pointers are distinct, every item in it knows its position, every
    other item has the index -1 (or 0, never enqueued), and the slice is in
    heap order. *)
Theorem priority_queue_wellformed ops :
  ∃ out q, pq_run ops = Ret (out, q) ∧ pq_wf q ∧
    ∀ c p p' it it', 0 < c → items q !! ((c - 1) / 2) = Some p → items q !! c = Some p' →
      mem q !! p = Some it → mem q !! p' = Some it' → (waitToTime it ≤ waitToTime it')%Z.
Proof.
  unfold pq_run. destruct NewPriorityQueue_inv as (q0 & -> & Hinv & _). cbn [mbind outcome_bind].
  assert (∃ out q, pq_calls ops q0 = Ret (out, q) ∧ pq_inv q) as (out & q & -> & [Hwf Ho]).
  { revert q0 Hinv. induction ops as [|op ops IH]; intros q Hinv; simpl; [eauto|].
    destruct (pq_call_inv op q Hinv) as (o & q1 & -> & Hinv1). simpl.
    destruct (IH q1 Hinv1) as (out & q' & -> & ?). simpl. eauto. }
  exists out, q. split_and!; [done|done|]. intros c p p' it it' Hc Hp Hp' Hit Hit'.
  apply lookup_lt_Some in Hp' as Hlt. specialize (Ho c). rewrite elements_length in Ho.
  unfold keys_at, parent, elements in Ho. rewrite !list_lookup_fmap, Hp, Hp' in Ho. simpl in Ho.
  unfold element_time in Ho. simpl in Ho. rewrite Hit, Hit' in Ho. apply Ho; lia.
Qed.

(** ** Equivalence with a sorted list *)

(** The calls of the pool: items wait for the time of their job. *)
Inductive retry_op := REnqueue (v : Job) | RDequeue | RPeek | RTop | RSize.

Definition retry_call (op : retry_op) : pq_op :=
  match op with
  | REnqueue v => OEnqueue v (job_waitToTime v)
  | RDequeue => ODequeue
  | RPeek => OPeek
  | RTop => OTop
  | RSize => OSize
  end.

(** The reference: the times in the queue, sorted. *)
Fixpoint insert_time (t : Z) (l : list Z) : list Z :=
  match l with
  | [] => [t]
  | x :: l' => if decide (t ≤ x)%Z then t :: l else x :: insert_time t l'
  end.

Inductive ref_obs := RefNothing | RefTime (t : option Z) | RefSize (n : Z).

Definition ref_call (op : retry_op) (l : list Z) : ref_obs * list Z :=
  match op with
  | REnqueue v => (RefNothing, insert_time (job_waitToTime v) l)
  | RDequeue => (RefTime (head l), tail l)
  | RPeek | RTop => (RefTime (head l), l)
  | RSize => (RefSize (Z.of_nat (length l)), l)
  end.

Fixpoint ref_calls (ops : list retry_op) (l : list Z) : list ref_obs :=
  match ops with
  | [] => []
  | op :: ops => (ref_call op l).1 :: ref_calls ops (ref_call op l).2
  end.

Definition abstract_obs (o : pq_obs) : ref_obs :=
  match o with
  | SawNothing => RefNothing
  | GotJob v | SawJob v => RefTime (job_waitToTime <$> v)
  | SawTime t => RefTime t
  | SawSize n => RefSize n
  end.

Definition enqueued (ops : list retry_op) : list Job :=
  omap (λ op, match op with REnqueue v => Some v | _ => None end) ops.
Definition dequeued (out : list pq_obs) : list Job :=
  omap (λ o, match o with GotJob v => v | _ => None end) out.

Definition ref_rel q (l : list Z) : Prop :=
  pq_inv q ∧ (contents q).*2 ≡ₚ l ∧ StronglySorted Z.le l ∧ ∀ x, x ∈ contents q → x.2 = job_waitToTime x.1.

Lemma insert_time_Permutation t l : insert_time t l ≡ₚ t :: l.
Proof.
  induction l as [|x l IH]; [done|]. simpl. case_decide; [done|]. rewrite IH. constructor.
Qed.

Lemma insert_time_sorted t l : StronglySorted Z.le l → StronglySorted Z.le (insert_time t l).
Proof.
  induction 1 as [|x l Hl IH Hx]; simpl; [repeat constructor|]. case_decide.
  - constructor; [by constructor|]. constructor; [done|]. eapply Forall_impl; [done|]. simpl. lia.
  - constructor; [done|]. rewrite insert_time_Permutation. constructor; [lia|done].
Qed.

Lemma sorted_min l t r :
  StronglySorted Z.le l → l ≡ₚ t :: r → (∀ x, x ∈ r → (t ≤ x)%Z) → ∃ l', l = t :: l' ∧ l' ≡ₚ r ∧ StronglySorted Z.le l'.
Proof.
  intros Hs Hp Hmin. destruct Hs as [|t' l' Hl' Ht']; [by apply Permutation_nil_cons in Hp|].
  assert (t' = t) as ->.
  { assert (t ∈ t' :: l') as Ht by (rewrite Hp; left). assert (t' ∈ t :: r) as Hin by (rewrite <-Hp; left).
    rewrite Forall_forall in Ht'. apply elem_of_cons in Ht as [|Ht]; [done|].
    apply elem_of_cons in Hin as [|Hin]; [done|]. specialize (Hmin _ Hin). specialize (Ht' _ Ht). lia. }
  exists l'. split_and!; [done|by apply Permutation_cons_inv in Hp|done].
Qed.

(** One call: the same answer, and the jobs are conserved. *)
Lemma ref_call_simulates op q l :
  ref_rel q l →
  ∃ o q', pq_call (retry_call op) q = Ret (o, q') ∧ ref_rel q' (ref_call op l).2 ∧
    abstract_obs o = (ref_call op l).1 ∧
    dequeued [o] ++ (contents q').*1 ≡ₚ enqueued [op] ++ (contents q).*1.
Proof.
  intros (Hinv & Hp & Hs & Ht).
  assert (∀ t x, (∀ y, y ∈ contents q → (t ≤ y.2)%Z) → x ∈ contents q → x.2 = t → head l = Some t) as Hhead.
  { intros t x Hmin [r Hr]%elem_of_Permutation Hx.
    destruct (sorted_min l t r.*2) as (l' & -> & _); [done| | |done].
    - rewrite <-Hp, Hr. simpl. by rewrite Hx.
    - intros y (z & -> & Hz)%list_elem_of_fmap. apply Hmin. rewrite Hr. by right. }
  assert (contents q = [] → head l = None) as Hnone.
  { intros Hnil. rewrite Hnil in Hp. by apply Permutation_nil_l in Hp as <-. }
  destruct op as [v| | | |]; cbn [retry_call pq_call ref_call fst snd].
  - destruct (new_item_spec v (job_waitToTime v) q Hinv) as (Hinv' & Hc & Hout & Hit).
    destruct (new_item v (job_waitToTime v) q) as [p q1]. simpl in *.
    destruct (Enqueue_spec q1 p _ Hinv' Hout Hit) as (q' & -> & Hi & Hc' & _). simpl.
    eexists _, _. split; [done|]. rewrite Hc in Hc'. unfold payload in Hc'. simpl in Hc'.
    split_and!; [split_and!; [done| |by apply insert_time_sorted|]|done|by rewrite Hc'].
    + by rewrite insert_time_Permutation, Hc', <-Hp.
    + intros x. rewrite Hc'. intros [->|Hx]%elem_of_cons; [done|auto].
  - destruct (Dequeue_spec q Hinv) as (r & q' & -> & Hi & Hr). simpl. eexists _, _. split; [done|].
    destruct r as [v|]; simpl.
    + destruct Hr as (t & Hc & Hmin). rewrite Hc in Hp. simpl in Hp.
      assert (t = job_waitToTime v) as -> by (apply (Ht (v, t)); rewrite Hc; left).
      destruct (sorted_min l (job_waitToTime v) (contents q').*2) as (l' & -> & Hp' & Hs'); [done|by symmetry| |].
      { intros y (z & -> & Hz)%list_elem_of_fmap. apply Hmin. rewrite Hc. by right. }
      split_and!; [split_and!; [done|done|done|]|done|].
      * intros x Hx. apply Ht. rewrite Hc. by right.
      * by rewrite Hc.
    + destruct Hr as [Hc ->]. rewrite Hc in Hp. apply Permutation_nil_l in Hp as <-.
      split_and!; [split_and!; [done|by rewrite Hc|done|done]|done|done].
  - destruct (Top_spec q Hinv) as [(_ & -> & Hc)|(p & it & _ & _ & -> & Hin & Hmin)]; simpl;
      eexists _, _; (split; [done|]); split_and!; try done; [by rewrite Hnone|].
    simpl. rewrite (Hhead _ _ Hmin Hin eq_refl). f_equal. f_equal. symmetry. by apply (Ht (payload it)).
  - destruct (Top_spec q Hinv) as [(-> & _ & Hc)|(p & it & -> & Hit & _ & Hin & Hmin)]; simpl.
    { eexists _, _. split; [done|]. split_and!; try done. by rewrite Hnone. }
    unfold deref. rewrite Hit. simpl. eexists _, _. split; [done|]. split_and!; try done.
    simpl. by rewrite (Hhead _ _ Hmin Hin eq_refl).
  - eexists _, _. split; [done|]. split_and!; try done. simpl. unfold Size, Len.
    rewrite <-contents_length by apply Hinv. by rewrite <-Hp, length_fmap.
Qed.

(** C28. The queue is equivalent to a sorted list of times: every sequence of
    calls gives the answers of the list (the times of the jobs returned, the
    sizes), and each job enqueued is either in the queue or was dequeued once. *)
Theorem queue_equals_sorted_list ops :
  ∃ out q, pq_run (retry_call <$> ops) = Ret (out, q) ∧
    abstract_obs <$> out = ref_calls ops [] ∧ dequeued out ++ (contents q).*1 ≡ₚ enqueued ops.
Proof.
  unfold pq_run. destruct NewPriorityQueue_inv as (q0 & -> & Hinv & Hc & _). simpl.
  assert (ref_rel q0 []) as Hrel.
  { split_and!; [done|by rewrite Hc|constructor|]. rewrite Hc. by intros x ?%elem_of_nil. }
  replace (enqueued ops) with (enqueued ops ++ (contents q0).*1) by (rewrite Hc; apply app_nil_r).
  clear Hinv Hc. revert q0 Hrel. generalize (@nil Z) as l.
  induction ops as [|op ops IH]; intros l q Hrel; [by exists [], q|].
  rewrite fmap_cons. cbn [pq_calls ref_calls].
  destruct (ref_call_simulates op q l Hrel) as (o & q1 & -> & Hrel1 & Ho & Hp1). cbn [mbind outcome_bind].
  destruct (IH _ q1 Hrel1) as (out & q' & -> & Hout & Hp). cbn [mbind outcome_bind].
  exists (o :: out), q'. split_and!; [done|by rewrite fmap_cons, Ho, Hout|].
  change (dequeued (o :: out)) with (omap (λ o, match o with GotJob v => v | _ => None end) ([o] ++ out)).
  change (enqueued (op :: ops)) with (omap (λ op, match op with REnqueue v => Some v | _ => None end) ([op] ++ ops)).
  rewrite !omap_app. fold (dequeued [o]) (dequeued out) (enqueued [op]) (enqueued ops).
  rewrite <-app_assoc, Hp, (Permutation_app_swap_app (dequeued [o])), Hp1. by rewrite Permutation_app_swap_app, app_assoc.
Qed.
End priority_queue.
Arguments Job T : clear implicits.
Arguments ItemPQ T : clear implicits.
Arguments PriorityQueue T : clear implicits.
