(* ===== verification/WorkerPool.v ===== *)
(** * The worker pool

    [pkg/worker_pool/worker_pool.go]: workers that take jobs from a buffered
    channel, [jobsLoop], which feeds the channel from the linked queue, and
    [retryLoop], which moves jobs from the priority queue to the linked queue
    when they are due.  Each goroutine is a state machine whose steps are the
    atomic operations of the code: one channel operation, one call of a queue's
    method (under its lock), one atomic access or one reading of the clock.
    The interface [Task] is a type [T] with its [GetWaitDuration]; the verdict
    of [Do] is part of the label of the step in which it returns. *)

From stdpp Require Import base gmap list.
From Stdlib Require Import ZArith Lia.
From S2P Require Import Prelude LinkedList GoHeap PriorityQueue.

Class Task (T : Type) := GetWaitDuration : T → Z.

Section worker_pool.
Context `{Task T}.
Implicit Types (task : T) (job : Job T).

(** [worker]: at the [select]; with a job received but not yet counted; in
    [Do]; [Do] returned ([err]: with an error), [OnDone] to be called; about to
    read the clock and about to enqueue in [moveToRetry]; about to decrement
    [busyCount]; returned. *)
Inductive worker_pc :=
  | WSelect
  | WReceived (job : Job T)
  | WDo (job : Job T)
  | WOnDone (job : Job T) (err : bool)
  | WRetry (job : Job T)
  | WEnqueue (job : Job T)
  | WRelease
  | WReturned.

Inductive jobs_pc := JNone | JSelect | JSend (job : Job T) | JReturned.

(** [retryLoop]: at the outer [select]; at the head of the inner loop; with the
    item [Top] returned; about to dequeue; about to queue the job; returned. *)
Inductive retry_pc := RNone | RSelect | RTop | RCheck (p : nat) | RDequeue | RQueue (job : Job T) | RReturned.

(** A call of [Stop]: about to look at each of the four counters; about to
    close each channel; in [wg.Wait]; returned. *)
Inductive stop_pc := SJobsQ | SRetryQ | SChan | SBusy | SCloseStop | SCloseJobs | SWait | SReturned.

Record WorkerPool := {
  workerCount : Z;
  capacity : Z;
  jobsQ : linked (Job T);
  retryQ : PriorityQueue T;
  jobChan : list (Job T);
  chan_closed : bool;
  stop_closed : bool;
  busyCount : Z;                 (* atomic.Int32 *)
  workers : list worker_pc;      (* counted by [wg] *)
  jobs_loop : jobs_pc;
  retry_loop : retry_pc;
  stop_calls : list stop_pc;     (* the calls of [Stop], in the order they were made *)
  ctx_done : bool;
  now : Z;                       (* the clock, UnixNano *)
}.
Implicit Types (wp : WorkerPool) (i : nat).

Definition set_jobsQ v wp : WorkerPool :=
  let 'Build_WorkerPool n c jq rq ch cc sc b w j r s x t := wp in Build_WorkerPool n c v rq ch cc sc b w j r s x t.
Definition set_retryQ v wp : WorkerPool :=
  let 'Build_WorkerPool n c jq rq ch cc sc b w j r s x t := wp in Build_WorkerPool n c jq v ch cc sc b w j r s x t.
Definition set_jobChan v wp : WorkerPool :=
  let 'Build_WorkerPool n c jq rq ch cc sc b w j r s x t := wp in Build_WorkerPool n c jq rq v cc sc b w j r s x t.
Definition set_chan_closed v wp : WorkerPool :=
  let 'Build_WorkerPool n c jq rq ch cc sc b w j r s x t := wp in Build_WorkerPool n c jq rq ch v sc b w j r s x t.
Definition set_stop_closed v wp : WorkerPool :=
  let 'Build_WorkerPool n c jq rq ch cc sc b w j r s x t := wp in Build_WorkerPool n c jq rq ch cc v b w j r s x t.
Definition set_busyCount v wp : WorkerPool :=
  let 'Build_WorkerPool n c jq rq ch cc sc b w j r s x t := wp in Build_WorkerPool n c jq rq ch cc sc v w j r s x t.
Definition set_workers v wp : WorkerPool :=
  let 'Build_WorkerPool n c jq rq ch cc sc b w j r s x t := wp in Build_WorkerPool n c jq rq ch cc sc b v j r s x t.
Definition set_jobs_loop v wp : WorkerPool :=
  let 'Build_WorkerPool n c jq rq ch cc sc b w j r s x t := wp in Build_WorkerPool n c jq rq ch cc sc b w v r s x t.
Definition set_retry_loop v wp : WorkerPool :=
  let 'Build_WorkerPool n c jq rq ch cc sc b w j r s x t := wp in Build_WorkerPool n c jq rq ch cc sc b w j v s x t.
Definition set_stop_calls v wp : WorkerPool :=
  let 'Build_WorkerPool n c jq rq ch cc sc b w j r s x t := wp in Build_WorkerPool n c jq rq ch cc sc b w j r v x t.
Definition set_ctx_done v wp : WorkerPool :=
  let 'Build_WorkerPool n c jq rq ch cc sc b w j r s x t := wp in Build_WorkerPool n c jq rq ch cc sc b w j r s v t.
Definition set_now v wp : WorkerPool :=
  let 'Build_WorkerPool n c jq rq ch cc sc b w j r s x t := wp in Build_WorkerPool n c jq rq ch cc sc b w j r s x v.
Definition set_stop i (pc : stop_pc) wp : WorkerPool := set_stop_calls (<[i := pc]> (stop_calls wp)) wp.
Definition set_worker i (v : worker_pc) wp : WorkerPool := set_workers (<[i := v]> (workers wp)) wp.

(** ** Construction *)

(** The options set these two fields; [make] panics on a negative capacity. *)
Definition WithWorkerCount (count : Z) (opts : Z * Z) : Z * Z := (count, opts.2).
Definition WithCapacity (capacity : Z) (opts : Z * Z) : Z * Z := (opts.1, capacity).

Definition NewWorkerPool (opts : list (Z * Z → Z * Z)) (t0 : Z) : outcome () WorkerPool :=
  let '(workerCount, capacity) := foldl (λ o opt, opt o) (0, 0)%Z opts in
  let workerCount := if decide (workerCount = 0)%Z then 5%Z else workerCount in
  let capacity := if decide (capacity = 0)%Z then 128%Z else capacity in
  if decide (capacity < 0)%Z then Panic
  else Ret {|
    workerCount := workerCount; capacity := capacity; jobsQ := ll_empty;
    retryQ := {| mem := ∅; items := []; seq := 0 |};
    jobChan := []; chan_closed := false; stop_closed := false; busyCount := 0; workers := [];
    jobs_loop := JNone; retry_loop := RNone; stop_calls := []; ctx_done := false; now := t0;
  |}.

(** [for range wp.workerCount] starts nothing for a negative count.  [Start] is
    called once. *)
Definition Start wp : WorkerPool :=
  set_workers (workers wp ++ replicate (Z.to_nat (workerCount wp)) WSelect)
    (set_jobs_loop JSelect (set_retry_loop RSelect wp)).

(** ** Submission *)

Definition room wp : bool := bool_decide (Z.of_nat (length (jobChan wp)) < capacity wp)%Z.

(** A send on the channel: it panics if the channel is closed, and is not
    enabled while the channel is full. *)
Definition send job wp : option (outcome () WorkerPool) :=
  if chan_closed wp then Some Panic
  else if room wp then Some (Ret (set_jobChan (jobChan wp ++ [job]) wp))
  else None.

Definition Submit task wp : option (outcome () WorkerPool) := send {| job_task := task; job_waitToTime := 0 |} wp.

Definition TrySubmit task wp : outcome () (bool * WorkerPool) :=
  match send {| job_task := task; job_waitToTime := 0 |} wp with
  | Some r => wp ← r; Ret (true, wp)
  | None => Ret (false, wp)
  end.

Definition BusyCount wp : Z := busyCount wp.

(** ** The goroutines *)

(** [moveToRetry], after the clock was read. *)
Definition retry_job job wp : Job T :=
  {| job_task := job_task job; job_waitToTime := wrap64 (now wp + GetWaitDuration (job_task job)) |}.

Definition moveToRetry job wp : outcome () WorkerPool :=
  let '(p, q) := new_item job (job_waitToTime job) (retryQ wp) in
  q ← Enqueue p q; Ret (set_retryQ q wp).

Inductive pool_label :=
  | LStart
  | LTick (d : Z)                (* time passes *)
  | LCancelCtx
  | LSubmit (task : T)
  | LTrySubmit (task : T) (ok : bool)
  | LReceive (i : nat)
  | LCtx (i : nat)               (* the worker takes the [ctx.Done] case *)
  | LBusy (i : nat)
  | LDo (i : nat) (err : bool)   (* [Do] returns *)
  | LOnDone (i : nat)
  | LClock (i : nat)
  | LRetry (i : nat)
  | LRelease (i : nat)
  | LJobs                        (* a step of [jobsLoop] *)
  | LRetryLoop                   (* a step of [retryLoop] *)
  | LStop                        (* [Stop] is called *)
  | LStopStep (i : nat).         (* a step of the [i]-th call *)

Definition stopping wp : bool := ctx_done wp || stop_closed wp.

Definition worker_next (l : pool_label) wp : option (outcome () WorkerPool) :=
  match l with
  | LReceive i =>
      match workers wp !! i, jobChan wp with
      | Some WSelect, job :: rest => Some (Ret (set_worker i (WReceived job) (set_jobChan rest wp)))
      | Some WSelect, [] => if chan_closed wp then Some (Ret (set_worker i WReturned wp)) else None
      | _, _ => None
      end
  | LCtx i =>
      match workers wp !! i with
      | Some WSelect => if ctx_done wp then Some (Ret (set_worker i WReturned wp)) else None
      | _ => None
      end
  | LBusy i =>
      match workers wp !! i with
      | Some (WReceived job) =>
          Some (Ret (set_worker i (WDo job) (set_busyCount (wrap32 (busyCount wp + 1)) wp)))
      | _ => None
      end
  | LDo i err =>
      match workers wp !! i with
      | Some (WDo job) => Some (Ret (set_worker i (WOnDone job err) wp))
      | _ => None
      end
  | LOnDone i =>
      match workers wp !! i with
      | Some (WOnDone job err) => Some (Ret (set_worker i (if err then WRetry job else WRelease) wp))
      | _ => None
      end
  | LClock i =>
      match workers wp !! i with
      | Some (WRetry job) => Some (Ret (set_worker i (WEnqueue (retry_job job wp)) wp))
      | _ => None
      end
  | LRetry i =>
      match workers wp !! i with
      | Some (WEnqueue job) => Some (wp ← moveToRetry job wp; Ret (set_worker i WRelease wp))
      | _ => None
      end
  | LRelease i =>
      match workers wp !! i with
      | Some WRelease => Some (Ret (set_worker i WSelect (set_busyCount (wrap32 (busyCount wp - 1)) wp)))
      | _ => None
      end
  | _ => None
  end.

(** [Dequeue] of an empty queue is followed by a sleep. *)
Definition jobsLoop wp : option (outcome () WorkerPool) :=
  match jobs_loop wp with
  | JSelect =>
      if stopping wp then Some (Ret (set_jobs_loop JReturned wp))
      else Some ('(job, q) ← ll_pop (jobsQ wp);
                 Ret (set_jobs_loop (match job with Some job => JSend job | None => JSelect end) (set_jobsQ q wp)))
  | JSend job => fmap (λ r, wp ← r; Ret (set_jobs_loop JSelect wp)) (send job wp)
  | JNone | JReturned => None
  end.

(** Leaving the inner loop is followed by a sleep. *)
Definition retryLoop wp : option (outcome () WorkerPool) :=
  match retry_loop wp with
  | RSelect => Some (Ret (set_retry_loop (if stopping wp then RReturned else RTop) wp))
  | RTop =>
      Some (item ← Top (retryQ wp);
            Ret (set_retry_loop (match item with None => RSelect | Some p => RCheck p end) wp))
  | RCheck p =>
      Some (it ← deref p (retryQ wp);
            Ret (set_retry_loop (if decide (waitToTime it > now wp)%Z then RSelect else RDequeue) wp))
  | RDequeue =>
      Some ('(job, q) ← Dequeue (retryQ wp);
            Ret (set_retry_loop (match job with None => RSelect | Some job => RQueue job end) (set_retryQ q wp)))
  | RQueue job => Some (q ← ll_push job (jobsQ wp); Ret (set_retry_loop RTop (set_jobsQ q wp)))
  | RNone | RReturned => None
  end.

(** A counter that is not zero sends [Stop] to sleep and back to the first. *)
Definition stop_check i (zero : bool) (next : stop_pc) wp : WorkerPool :=
  set_stop i (if zero then next else SJobsQ) wp.

(** Closing a closed channel panics. *)
Definition Stop i wp : option (outcome () WorkerPool) :=
  pc ← stop_calls wp !! i;
  match pc with
  | SJobsQ => Some (Ret (stop_check i (bool_decide (ll_len (jobsQ wp) = 0%Z)) SRetryQ wp))
  | SRetryQ => Some (Ret (stop_check i (bool_decide (Size (retryQ wp) = 0%Z)) SChan wp))
  | SChan => Some (Ret (stop_check i (bool_decide (jobChan wp = [])) SBusy wp))
  | SBusy => Some (Ret (stop_check i (bool_decide (busyCount wp = 0%Z)) SCloseStop wp))
  | SCloseStop => Some (if stop_closed wp then Panic else Ret (set_stop i SCloseJobs (set_stop_closed true wp)))
  | SCloseJobs => Some (if chan_closed wp then Panic else Ret (set_stop i SWait (set_chan_closed true wp)))
  | SWait => if forallb (λ w, match w with WReturned => true | _ => false end) (workers wp)
             then Some (Ret (set_stop i SReturned wp)) else None
  | SReturned => None
  end.

(** One atomic step; [None] when it is not enabled. *)
Definition pool_next (l : pool_label) wp : option (outcome () WorkerPool) :=
  match l with
  | LStart => match jobs_loop wp, retry_loop wp with JNone, RNone => Some (Ret (Start wp)) | _, _ => None end
  | LTick d => if decide (0 ≤ d)%Z then Some (Ret (set_now (now wp + d)%Z wp)) else None
  | LCancelCtx => Some (Ret (set_ctx_done true wp))
  | LSubmit task => Submit task wp
  | LTrySubmit task ok =>
      match TrySubmit task wp with
      | Ret (ok', wp') => if bool_decide (ok = ok') then Some (Ret wp') else None
      | Err _ | Panic => Some Panic
      end
  | LJobs => jobsLoop wp
  | LRetryLoop => retryLoop wp
  | LStop => Some (Ret (set_stop_calls (stop_calls wp ++ [SJobsQ]) wp))
  | LStopStep i => Stop i wp
  | _ => worker_next l wp
  end.

(** The task whose last execution ends in a step: its [Do] returned nil. *)
Definition finishes (l : pool_label) wp : list T :=
  match l with
  | LOnDone i => match workers wp !! i with Some (WOnDone job false) => [job_task job] | _ => [] end
  | _ => []
  end.

(** The task a step accepts. *)
Definition accepts (l : pool_label) : list T :=
  match l with LSubmit task | LTrySubmit task true => [task] | _ => [] end.

(** Executions from [wp0]: the tasks accepted and finished, and the outcome. *)
Inductive pool_run wp0 : list T → list T → outcome () WorkerPool → Prop :=
  | pool_run_nil : pool_run wp0 [] [] (Ret wp0)
  | pool_run_snoc sub fin wp l r :
      pool_run wp0 sub fin (Ret wp) → pool_next l wp = Some r →
      pool_run wp0 (sub ++ accepts l) (fin ++ finishes l wp) r.
End worker_pool.
Arguments WorkerPool T : clear implicits.
