(* ===== verification/PoolProps.v ===== *)
(** * What the worker pool guarantees

    The invariant of [WorkerPool], preserved by every step of every goroutine,
    and the guarantees that follow: no job is lost or duplicated, the counter
    and the channel stay within their bounds, no job is executed before the
    time it waits for, and nothing panics but a send on the channel that [Stop]
    has closed and a second [Stop]. *)

From stdpp Require Import base gmap list.
From Stdlib Require Import ZArith Lia.
From AAC_tactics Require Import AAC.
From AAC_tactics Require Instances.
From S2P Require Import Prelude LinkedList GoHeap PriorityQueue WorkerPool.

Import Instances.Lists.

(** Permutations of concatenations by associativity and commutativity. *)
#[local] Instance Permutation_lift A : AAC_lift (@Permutation A) (@Permutation A) := {}.

Lemma cons_app_single {A} (x : A) l : x :: l = [x] ++ l.
Proof. done. Qed.

Ltac perm_solve :=
  repeat match goal with
  | |- context [?x :: ?l] => lazymatch l with [] => fail | _ => rewrite (cons_app_single x l) end
  end;
  aac_reflexivity.

Lemma Permutation_cancel {A} (a a' x y f : list A) : a' ++ x ≡ₚ a ++ y → x ≡ₚ y ++ f → a' ++ f ≡ₚ a.
Proof.
  intros H1 H2. apply (Permutation_app_inv_r y). rewrite <-H1, H2. perm_solve.
Qed.

(** A summary that is a sum over the elements of a list. *)
Lemma concat_insert {A B} (f : A → list B) ws i w :
  ws !! i = Some w →
  ∃ R, concat (f <$> ws) ≡ₚ f w ++ R ∧ ∀ w', concat (f <$> <[i := w']> ws) ≡ₚ f w' ++ R.
Proof.
  intros Hi. exists (concat (f <$> take i ws) ++ concat (f <$> drop (S i) ws)). split.
  - rewrite <-(take_drop_middle ws i w Hi) at 1. rewrite fmap_app, fmap_cons, concat_app. simpl. perm_solve.
  - intros w'. rewrite insert_take_drop by (by eapply lookup_lt_Some).
    rewrite fmap_app, fmap_cons, concat_app. simpl. perm_solve.
Qed.

Section pool.
Context `{HT : Task T}.
Implicit Types (ws : list (worker_pc (T := T))) (wp : WorkerPool T) (job : Job T) (w : worker_pc (T := T)) (l : list (Job T)).

(** ** Where jobs are *)

(** A worker's job, and whether it may be executed at once. *)
Definition held w : list (Job T) :=
  match w with
  | WReceived job | WDo job | WOnDone job _ | WRetry job | WEnqueue job => [job]
  | WSelect | WRelease | WReturned => []
  end.

Definition ready w : list (Job T) := match w with WEnqueue _ => [] | _ => held w end.

Definition jobs_held (pc : jobs_pc) : list (Job T) := match pc with JSend job => [job] | _ => [] end.
Definition retry_held (pc : retry_pc) : list (Job T) := match pc with RQueue job => [job] | _ => [] end.

(** [l] are the jobs of the linked queue. *)
Definition all_jobs wp l : list (Job T) :=
  jobChan wp ++ concat (held <$> workers wp) ++ (contents (retryQ wp)).*1 ++
    retry_held (retry_loop wp) ++ l ++ jobs_held (jobs_loop wp).

(** All but those waiting for a retry. *)
Definition ready_jobs wp l : list (Job T) :=
  jobChan wp ++ concat (ready <$> workers wp) ++ retry_held (retry_loop wp) ++ l ++ jobs_held (jobs_loop wp).

(** A worker between the two updates of [busyCount]. *)
Definition busy w : bool := match w with WSelect | WReceived _ | WReturned => false | _ => true end.
Definition busy_workers wp : nat := length (filter busy (workers wp)).

(** A call of [Stop] that has closed [stopChan], and one that has closed both
    channels. *)
Definition past (pc : stop_pc) : bool := match pc with SCloseJobs | SWait | SReturned => true | _ => false end.
Definition closer (pc : stop_pc) : Prop := pc = SWait ∨ pc = SReturned.

(** At most one call closes the channels. *)
Definition stops_ok (calls : list stop_pc) (stop_closed chan_closed : bool) : Prop :=
  length (filter past calls) = (if stop_closed then 1 else 0) ∧
  (chan_closed = true → ∃ j pc, calls !! j = Some pc ∧ closer pc).

Record pool_inv wp l : Prop := {
  pi_queue : represents (jobsQ wp) l;
  pi_retry : pq_inv (retryQ wp);
  pi_times x : x ∈ contents (retryQ wp) → x.2 = job_waitToTime x.1;
  pi_item : match retry_loop wp with
            | RCheck p => ∃ it, mem (retryQ wp) !! p = Some it ∧ payload it ∈ contents (retryQ wp)
            | RDequeue => ∃ x, x ∈ contents (retryQ wp) ∧ (x.2 ≤ now wp)%Z
            | _ => True
            end;
  pi_due job : job ∈ ready_jobs wp l → (job_waitToTime job ≤ now wp)%Z;
  pi_clock : (0 ≤ now wp)%Z;
  pi_cap : (Z.of_nat (length (jobChan wp)) ≤ capacity wp)%Z;
  pi_busy : busyCount wp = wrap32 (Z.of_nat (busy_workers wp));
  pi_stops : stops_ok (stop_calls wp) (stop_closed wp) (chan_closed wp);
}.

Lemma busy_workers_concat ws :
  length (filter busy ws) = length (concat ((λ w, if busy w then [()] else []) <$> ws)).
Proof.
  induction ws as [|w ws IH]; [done|]. rewrite filter_cons, fmap_cons. simpl. rewrite length_app, <-IH.
  by destruct (busy w).
Qed.

(** The effect of one worker's step on the three summaries. *)
Lemma worker_update ws i w :
  ws !! i = Some w →
  ∃ H R n, concat (held <$> ws) ≡ₚ held w ++ H ∧ concat (ready <$> ws) ≡ₚ ready w ++ R ∧
    length (filter busy ws) = (if busy w then 1 else 0) + n ∧
    ∀ w', concat (held <$> <[i := w']> ws) ≡ₚ held w' ++ H ∧ concat (ready <$> <[i := w']> ws) ≡ₚ ready w' ++ R ∧
      length (filter busy (<[i := w']> ws)) = (if busy w' then 1 else 0) + n.
Proof.
  intros Hi. destruct (concat_insert held ws i w Hi) as (H & HH & HH').
  destruct (concat_insert ready ws i w Hi) as (R & HR & HR').
  destruct (concat_insert (λ w, if busy w then [()] else []) ws i w Hi) as (N & HN & HN').
  assert (∀ w, length ((if busy w then [()] else []) ++ N) = (if busy w then 1 else 0) + length N) as Hlen
    by (intros w'; by destruct (busy w')).
  exists H, R, (length N). split_and!; [done|done| |].
  - by rewrite busy_workers_concat, HN, Hlen.
  - intros w'. split_and!; [done|done|]. by rewrite busy_workers_concat, HN', Hlen.
Qed.

(** ** The invariant is preserved *)

Lemma wrap32_add z d : wrap32 (wrap32 z + d) = wrap32 (z + d).
Proof.
  unfold wrap32. f_equal.
  replace ((z + two31) mod two32 - two31 + d + two31)%Z with ((z + two31) mod two32 + d)%Z by lia.
  rewrite Z.add_mod_idemp_l by done. f_equal. lia.
Qed.

Definition one (b : bool) : Z := if b then 1 else 0.

(** A step of worker [i] that may also take jobs from the channel and adjust
    the counter. *)
Lemma set_worker_inv wp l i w w' b chan :
  pool_inv wp l → workers wp !! i = Some w →
  (∀ job, job ∈ chan ++ ready w' → job ∈ jobChan wp ++ ready w) →
  length chan ≤ length (jobChan wp) →
  b = wrap32 (busyCount wp + (one (busy w') - one (busy w))) →
  pool_inv (set_worker i w' (set_busyCount b (set_jobChan chan wp))) l ∧
  all_jobs (set_worker i w' (set_busyCount b (set_jobChan chan wp))) l ++ held w ++ jobChan wp ≡ₚ
    all_jobs wp l ++ held w' ++ chan.
Proof.
  intros [Hq Hr Ht Hitem Hdue Hclk Hcap Hb Hcl] Hi Hready Hlen ->.
  destruct (worker_update (workers wp) i w Hi) as (HH & R & n & Hheld & Hrdy & Hn & Hnew).
  destruct (Hnew w') as (Hheld' & Hrdy' & Hn'). clear Hnew. destruct wp. unfold set_worker, all_jobs, ready_jobs, busy_workers in *.
  simpl in *. split; [split; simpl; try done|].
  - intros job. unfold ready_jobs. simpl. rewrite Hrdy'. intros Hin. apply Hdue. rewrite Hrdy.
    specialize (Hready job). rewrite !elem_of_app in *. tauto.
  - lia.
  - unfold busy_workers. simpl. rewrite Hb, wrap32_add, Hn'. f_equal. rewrite Hn. unfold one.
    destruct (busy w), (busy w'); lia.
  - rewrite Hheld', Hheld. perm_solve.
Qed.

(** What one step guarantees: the invariant, and that the jobs change only by
    the task accepted and the task finished. *)
Definition step_ok (lab : pool_label (T := T)) wp l (r : outcome () (WorkerPool T)) : Prop :=
  ∃ wp' l', r = Ret wp' ∧ pool_inv wp' l' ∧
    (job_task <$> all_jobs wp' l') ++ finishes lab wp ≡ₚ (job_task <$> all_jobs wp l) ++ accepts lab.

Lemma set_worker_eta i w wp :
  set_worker i w wp = set_worker i w (set_busyCount (busyCount wp) (set_jobChan (jobChan wp) wp)).
Proof. by destruct wp. Qed.

(** [moveToRetry] puts one job into the priority queue and moves no other. *)
Lemma moveToRetry_spec job wp :
  pq_inv (retryQ wp) →
  ∃ q, moveToRetry job wp = Ret (set_retryQ q wp) ∧ pq_inv q ∧
    contents q ≡ₚ (job, job_waitToTime job) :: contents (retryQ wp) ∧
    ∀ p it, mem (retryQ wp) !! p = Some it → ∃ it', mem q !! p = Some it' ∧ payload it' = payload it.
Proof.
  intros Hinv. unfold moveToRetry.
  destruct (new_item_spec job (job_waitToTime job) (retryQ wp) Hinv) as (Hinv' & Hc & Hout & Hit).
  pose proof (new_item_fresh job (job_waitToTime job) (retryQ wp)) as Hfresh.
  assert (∀ p it, mem (retryQ wp) !! p = Some it →
    mem (new_item job (job_waitToTime job) (retryQ wp)).2 !! p = Some it) as Hold.
  { intros p it Hp. simpl. rewrite lookup_insert_ne; [done|]. intros <-. simpl in Hfresh. congruence. }
  destruct (new_item job (job_waitToTime job) (retryQ wp)) as [p q1]. simpl in *.
  destruct (Enqueue_spec q1 p _ Hinv' Hout Hit) as (q & -> & Hq & Hc' & Hsame). simpl.
  exists q. split_and!; [done|done|by rewrite Hc', Hc|].
  intros p' it Hp'%Hold. specialize (Hsame p'). rewrite Hp' in Hsame.
  apply fmap_Some in Hsame as (it' & ? & ?). eauto.
Qed.

(** Adding a job to the priority queue. *)
Lemma set_retryQ_inv wp l q job :
  pool_inv wp l → pq_inv q → contents q ≡ₚ (job, job_waitToTime job) :: contents (retryQ wp) →
  (∀ p it, mem (retryQ wp) !! p = Some it → ∃ it', mem q !! p = Some it' ∧ payload it' = payload it) →
  pool_inv (set_retryQ q wp) l ∧ all_jobs (set_retryQ q wp) l ≡ₚ job :: all_jobs wp l.
Proof.
  intros [Hq Hr Ht Hitem Hdue Hclk Hcap Hb Hcl] Hinv Hc Hmem. destruct wp as [n c jq rq ch cc sc b w j rl s cd t]. unfold all_jobs, ready_jobs in *. simpl in *.
  split; [split; simpl; try done|].
  - intros x. rewrite Hc. intros [->|Hx]%elem_of_cons; [done|auto].
  - destruct rl; try done.
    + destruct Hitem as (it & Hit & Hin). destruct (Hmem _ _ Hit) as (it' & ? & Hpay). exists it'.
      split; [done|]. rewrite Hpay, Hc. by right.
    + destruct Hitem as (x & Hx & ?). exists x. rewrite Hc. split; [by right|done].
  - rewrite Hc, fmap_cons. cbn [fst]. perm_solve.
Qed.

(** A goroutine that moves between two program points without touching the
    priority queue. *)
Lemma worker_moves_ok lab wp l i w w' b chan :
  pool_inv wp l → workers wp !! i = Some w →
  (∀ job, job ∈ chan ++ ready w' → job ∈ jobChan wp ++ ready w) → length chan ≤ length (jobChan wp) →
  b = wrap32 (busyCount wp + (one (busy w') - one (busy w))) →
  job_task <$> held w ++ jobChan wp ≡ₚ (job_task <$> held w' ++ chan) ++ finishes lab wp → accepts lab = [] →
  step_ok lab wp l (Ret (set_worker i w' (set_busyCount b (set_jobChan chan wp)))).
Proof.
  intros Hinv Hi Hready Hlen Hb Hheld Hacc.
  destruct (set_worker_inv wp l i w w' b chan) as [Hinv' Hall]; [done..|].
  eexists _, l. split_and!; [done|done|]. rewrite Hacc, app_nil_r.
  apply (fmap_Permutation job_task) in Hall. rewrite !fmap_app in Hall.
  eapply Permutation_cancel; [exact Hall|]. by rewrite <-!fmap_app.
Qed.

Lemma busyCount_wrapped wp l : pool_inv wp l → busyCount wp = wrap32 (busyCount wp).
Proof. intros Hinv. rewrite (pi_busy _ _ Hinv). rewrite <-(Z.add_0_r (wrap32 _)) at 2. by rewrite wrap32_add, Z.add_0_r. Qed.

(** A goroutine that puts its job into the priority queue. *)
Lemma worker_retries_ok lab wp l i job :
  pool_inv wp l → workers wp !! i = Some (WEnqueue job) → finishes lab wp = [] → accepts lab = [] →
  step_ok lab wp l (moveToRetry job wp ≫= λ wp, Ret (set_worker i WRelease wp)).
Proof.
  intros Hinv Hi Hf Hacc. pose proof (busyCount_wrapped wp l Hinv) as Hwrap. destruct (moveToRetry_spec job wp (pi_retry _ _ Hinv)) as (q & -> & Hq & Hc & Hmem).
  destruct (set_retryQ_inv wp l q job Hinv Hq Hc Hmem) as [Hinv1 Hall1]. cbn [mbind outcome_bind].
  destruct (set_worker_inv (set_retryQ q wp) l i (WEnqueue job) WRelease (busyCount wp) (jobChan wp)) as [Hinv2 Hall2];
    [done|by destruct wp|by destruct wp|by destruct wp|by destruct wp; rewrite Z.add_0_r|].
  exists (set_worker i WRelease (set_busyCount (busyCount wp) (set_jobChan (jobChan wp) (set_retryQ q wp)))), l.
  split_and!; [by destruct wp|done|]. rewrite Hf, Hacc, !app_nil_r.
  rewrite Hall1 in Hall2. simpl in Hall2. replace (jobChan (set_retryQ q wp)) with (jobChan wp) in Hall2 by by destruct wp.
  apply fmap_Permutation. apply (Permutation_app_inv_r (job :: jobChan wp)). rewrite Hall2. perm_solve.
Qed.

Lemma worker_step_ok lab wp l r :
  pool_inv wp l → worker_next lab wp = Some r → step_ok lab wp l r.
Proof.
  intros Hinv Hnext.
  assert (∀ i w w' b chan, workers wp !! i = Some w →
    (∀ job, job ∈ chan ++ ready w' → job ∈ jobChan wp ++ ready w) → length chan ≤ length (jobChan wp) →
    b = wrap32 (busyCount wp + (one (busy w') - one (busy w))) →
    job_task <$> held w ++ jobChan wp ≡ₚ (job_task <$> held w' ++ chan) ++ finishes lab wp → accepts lab = [] →
    r = Ret (set_worker i w' (set_busyCount b (set_jobChan chan wp))) → step_ok lab wp l r) as Hstep
    by (intros; subst r; by eapply worker_moves_ok).
  pose proof (busyCount_wrapped wp l Hinv) as Hwrap.
  pose proof (pi_busy _ _ Hinv) as Hbusy.
  destruct lab; simpl in Hnext; try done;
    destruct (workers wp !! i) as [w|] eqn:Hi; try done; destruct w; try done.
  - destruct (jobChan wp) as [|job chan] eqn:Hch.
    + destruct (chan_closed wp); [|done]. injection Hnext as <-.
      apply (Hstep i WSelect WReturned (busyCount wp) []); try done; [by rewrite Z.add_0_r|].
      rewrite <-Hch. by destruct wp.
    + injection Hnext as <-. apply (Hstep i WSelect (WReceived job) (busyCount wp) chan); simpl; try done.
      * intros x. set_solver.
      * lia.
      * by rewrite Z.add_0_r.
      * by rewrite app_nil_r.
      * by destruct wp.
  - destruct (ctx_done wp); [|done]. injection Hnext as <-.
    apply (Hstep i WSelect WReturned (busyCount wp) (jobChan wp)); simpl; try done;
      [by rewrite Z.add_0_r|by rewrite app_nil_r|by destruct wp].
  - injection Hnext as <-. apply (Hstep i (WReceived job) (WDo job) (wrap32 (busyCount wp + 1)) (jobChan wp)); simpl; try done;
      [by rewrite app_nil_r|by destruct wp].
  - injection Hnext as <-. apply (Hstep i (WDo job) (WOnDone job err) (busyCount wp) (jobChan wp)); simpl; try done;
      [by rewrite Z.add_0_r|by rewrite app_nil_r|by destruct wp].
  - injection Hnext as <-. apply (Hstep i (WOnDone job err) (if err then WRetry job else WRelease) (busyCount wp) (jobChan wp));
      simpl; try done; [by destruct err; set_solver|by destruct err; rewrite Z.add_0_r| |by destruct wp].
    rewrite Hi. destruct err; simpl; [by rewrite app_nil_r|]. by rewrite <-Permutation_cons_append.
  - injection Hnext as <-.
    apply (Hstep i (WRetry job) (WEnqueue (retry_job job wp)) (busyCount wp) (jobChan wp)); simpl; try done;
      [set_solver|by rewrite Z.add_0_r|by rewrite app_nil_r|by destruct wp].
  - injection Hnext as <-. by apply worker_retries_ok.
  - injection Hnext as <-.
    apply (Hstep i WRelease WSelect (wrap32 (busyCount wp - 1)) (jobChan wp)); simpl; try done; [by rewrite app_nil_r|by destruct wp].
Qed.

(** The steps of the two loops. *)
Lemma send_ok job wp l :
  pool_inv wp l → (job_waitToTime job ≤ now wp)%Z → chan_closed wp = false →
  match send job wp with
  | None => (Z.of_nat (length (jobChan wp)) = capacity wp)%Z
  | Some r => ∃ wp', r = Ret wp' ∧ pool_inv wp' l ∧ all_jobs wp' l ≡ₚ job :: all_jobs wp l ∧
      wp' = set_jobChan (jobChan wp ++ [job]) wp
  end.
Proof.
  intros [Hq Hr Ht Hitem Hdue Hclk Hcap Hb Hcl] Hjob Hopen. unfold send, room. rewrite Hopen. case_bool_decide as Hroom; [|lia].
  eexists. split; [done|]. destruct wp. unfold all_jobs, ready_jobs in *. simpl in *.
  split_and!; [split; simpl; try done| |done].
  - intros x. unfold ready_jobs. simpl. specialize (Hdue x). set_solver.
  - rewrite length_app. simpl. lia.
  - perm_solve.
Qed.

(** A step of a loop that moves jobs between its hands and the linked queue. *)
Lemma loops_step_ok lab wp l jq l' j r wp' :
  pool_inv wp l → represents jq l' → wp' = set_jobsQ jq (set_jobs_loop j (set_retry_loop r wp)) →
  retry_held r ++ l' ++ jobs_held j ≡ₚ retry_held (retry_loop wp) ++ l ++ jobs_held (jobs_loop wp) →
  match r with
  | RCheck p => ∃ it, mem (retryQ wp) !! p = Some it ∧ payload it ∈ contents (retryQ wp)
  | RDequeue => ∃ x, x ∈ contents (retryQ wp) ∧ (x.2 ≤ now wp)%Z
  | _ => True
  end →
  finishes lab wp = [] → accepts lab = [] → step_ok lab wp l (Ret wp').
Proof.
  intros [Hq Hr Ht Hitem Hdue Hclk Hcap Hb Hcl] Hq' -> Hjobs Hitem' Hf Ha. eexists _, l'. split; [done|].
  rewrite Hf, Ha, !app_nil_r. destruct wp. unfold all_jobs, ready_jobs, busy_workers in *. simpl in *.
  split; [split; simpl; try done|].
  - intros job. unfold ready_jobs. simpl. rewrite Hjobs. apply Hdue.
  - apply fmap_Permutation. by rewrite Hjobs.
Qed.

(** [Submit] and [TrySubmit] of a new job. *)
Lemma submit_ok job wp l r :
  pool_inv wp l → (job_waitToTime job ≤ now wp)%Z → send job wp = Some r →
  (r = Panic ∧ chan_closed wp = true) ∨ ∃ wp', r = Ret wp' ∧ pool_inv wp' l ∧ all_jobs wp' l ≡ₚ job :: all_jobs wp l.
Proof.
  intros Hinv Hjob Hs. destruct (chan_closed wp) eqn:Hc.
  - left. unfold send in Hs. rewrite Hc in Hs. by simplify_eq.
  - right. pose proof (send_ok job wp l Hinv Hjob Hc) as Hok. rewrite Hs in Hok.
    destruct Hok as (wp' & ? & ? & ? & _). eauto.
Qed.

(** The panics of the pool: a send on the closed channel, and a call of [Stop]
    that closes [stopChan] a second time. *)
Definition sends (lab : pool_label (T := T)) wp : Prop :=
  match lab with
  | LSubmit _ | LTrySubmit _ _ => True
  | LJobs => ∃ job, jobs_loop wp = JSend job
  | _ => False
  end.

Definition may_panic (lab : pool_label (T := T)) wp : Prop :=
  sends lab wp ∧ chan_closed wp = true ∨
  ∃ i, lab = LStopStep i ∧ stop_calls wp !! i = Some SCloseStop ∧ stop_closed wp = true.

Lemma jobsLoop_ok wp l r :
  pool_inv wp l → jobsLoop wp = Some r → (r = Panic ∧ may_panic LJobs wp) ∨ step_ok LJobs wp l r.
Proof.
  intros Hinv. pose proof (pi_queue _ _ Hinv) as Hq. pose proof (pi_due _ _ Hinv) as Hdue.  pose proof (pi_item _ _ Hinv) as Hitem.
  unfold jobsLoop. destruct (jobs_loop wp) as [| |job|] eqn:Hpc; [done| | |done].
  - intros Hs. right. destruct (stopping wp).
    { injection Hs as <-. apply (loops_step_ok _ wp l (jobsQ wp) l JReturned (retry_loop wp)); try done; [by destruct wp|].
      by rewrite Hpc. }
    injection Hs as <-. pose proof (ll_pop_spec (jobsQ wp) l Hq) as Hpop. destruct l as [|job l].
    + rewrite Hpop. simpl. apply (loops_step_ok _ wp [] (jobsQ wp) [] JSelect (retry_loop wp)); try done; [by destruct wp|].
      by rewrite Hpc.
    + destruct Hpop as (q & -> & Hq'). simpl.
      apply (loops_step_ok _ wp (job :: l) q l (JSend job) (retry_loop wp)); try done; [by destruct wp|].
      rewrite Hpc. simpl. perm_solve.
  - intros Hs. destruct (chan_closed wp) eqn:Hopen.
    { unfold send in Hs. rewrite Hopen in Hs. simpl in Hs. injection Hs as <-. left. split; [done|]. left. split; [|done]. simpl. rewrite Hpc. eauto. }
    right. pose proof (send_ok job wp l Hinv) as Hsend.
    destruct (send job wp) as [r'|]; [|done]. simpl in Hs. injection Hs as <-.
    destruct Hsend as (wp1 & -> & Hinv1 & Hall & Hwp1); [|done|].
    { apply Hdue. unfold ready_jobs. rewrite Hpc. simpl. set_solver. }
    simpl. subst wp1. exists (set_jobs_loop JSelect (set_jobChan (jobChan wp ++ [job]) wp)), l.
    destruct Hinv1 as [? ? ? ? Hdue1 ? ? ? ?]. split; [done|]. simpl. rewrite !app_nil_r.
    destruct wp. unfold all_jobs, ready_jobs in *. simpl in *. subst. split; [split; simpl; try done|].
    + intros x. unfold ready_jobs. simpl. intros Hx. apply Hdue1. simpl. rewrite !elem_of_app, ?elem_of_nil in *. tauto.
    + apply fmap_Permutation. simpl. perm_solve.
Qed.

Lemma retryLoop_ok wp l r : pool_inv wp l → retryLoop wp = Some r → step_ok LRetryLoop wp l r.
Proof.
  intros Hinv. pose proof Hinv as [Hq Hr Ht Hitem Hdue Hclk Hcap Hb Hcl].
  unfold retryLoop. destruct (retry_loop wp) as [| | |p| |job|] eqn:Hpc; [done| | | | | |done]; intros [= <-].
  - apply (loops_step_ok _ wp l (jobsQ wp) l (jobs_loop wp) (if stopping wp then RReturned else RTop)); try done;
      [by destruct wp|rewrite Hpc|]; by destruct (stopping wp).
  - destruct (Top_spec (retryQ wp) Hr) as [(-> & _)|(p & it & -> & Hit & _ & Hin & _)]; simpl.
    + apply (loops_step_ok _ wp l (jobsQ wp) l (jobs_loop wp) RSelect); try done; [by destruct wp|by rewrite Hpc].
    + apply (loops_step_ok _ wp l (jobsQ wp) l (jobs_loop wp) (RCheck p)); try done;
        [by destruct wp|by rewrite Hpc|by exists it].
  - destruct Hitem as (it & Hit & Hin). unfold deref. rewrite Hit. simpl.
    apply (loops_step_ok _ wp l (jobsQ wp) l (jobs_loop wp) (if decide (waitToTime it > now wp)%Z then RSelect else RDequeue));
      try done; [by destruct wp|rewrite Hpc; by case_decide|].
    case_decide; [done|]. exists (payload it). split; [done|]. simpl. lia.
  - destruct (Dequeue_spec (retryQ wp) Hr) as (v & q & -> & Hr' & Hv). simpl. destruct v as [job|].
    + destruct Hv as (t & Hc & Hmin). destruct Hitem as (x & Hx & Hxn). specialize (Hmin x Hx).
      assert (t = job_waitToTime job) as -> by (apply (Ht (job, t)); rewrite Hc; left).
      eexists _, l. split; [done|]. simpl. rewrite !app_nil_r. destruct wp as [n c jq rq ch cc sc b w j rl s cd tm].
      unfold all_jobs, ready_jobs in *. simpl in *. subst. split; [split; simpl; try done|].
      * intros y Hy. apply Ht. rewrite Hc. by right.
      * intros job'. unfold ready_jobs. simpl. intros Hj.
        assert (job' = job ∨ job' ∈ ch ++ concat (ready <$> w) ++ l ++ jobs_held j) as [->|Hj']
          by set_solver; [lia|by apply Hdue].
      * apply fmap_Permutation. rewrite Hc, fmap_cons. cbn [fst retry_held]. perm_solve.
    + destruct Hv as [Hc ->].
      apply (loops_step_ok _ wp l (jobsQ wp) l (jobs_loop wp) RSelect); try done; [by destruct wp|by rewrite Hpc].
  - destruct (ll_push_spec (jobsQ wp) l job Hq) as (q & -> & Hq'). simpl.
    apply (loops_step_ok _ wp l q (l ++ [job]) (jobs_loop wp) RTop); try done; [by destruct wp|].
    rewrite Hpc. simpl. perm_solve.
Qed.

(** Counting the elements that satisfy [p] when one is replaced. *)
Lemma filter_insert {A} (p : A → bool) xs i x :
  xs !! i = Some x → ∃ n, length (filter p xs) = (if p x then 1 else 0) + n ∧
    ∀ y, length (filter p (<[i := y]> xs)) = (if p y then 1 else 0) + n.
Proof.
  intros Hi. exists (length (filter p (take i xs)) + length (filter p (drop (S i) xs))).
  assert (∀ y, length (filter p (take i xs ++ y :: drop (S i) xs)) =
    (if p y then 1 else 0) + (length (filter p (take i xs)) + length (filter p (drop (S i) xs)))) as Hlen.
  { intros y. rewrite filter_app, length_app, filter_cons. destruct (p y); simpl; lia. }
  split; [by rewrite <-Hlen, take_drop_middle|]. intros y. rewrite insert_take_drop by by eapply lookup_lt_Some.
  apply Hlen.
Qed.

(** Another call than one that has passed its first [close] has closed the
    channel the call is about to close. *)
Lemma stops_ok_past calls sc cc j pc : stops_ok calls sc cc → calls !! j = Some pc → past pc = true → sc = true.
Proof.
  intros [Hn _] Hj Hp. destruct (filter_insert past calls j pc Hj) as (n & Hlen & _). rewrite Hn, Hp in Hlen.
  by destruct sc.
Qed.

(** A call that moves on, and what it closes. *)
Lemma stops_ok_insert calls sc cc i pc pc' sc' cc' :
  stops_ok calls sc cc → calls !! i = Some pc →
  (sc' = sc ∧ past pc' = past pc ∨ sc = false ∧ sc' = true ∧ past pc = false ∧ past pc' = true) →
  (cc' = true → closer pc' ∨ cc = true) → (closer pc → closer pc') →
  stops_ok (<[i := pc']> calls) sc' cc'.
Proof.
  intros [Hn Hc] Hi Hs Hcc Hcl. destruct (filter_insert past calls i pc Hi) as (n & Hlen & Hlen').
  assert (i < length calls) as Hlt by by eapply lookup_lt_Some. split.
  - rewrite Hlen'. destruct Hs as [[-> ->]|(-> & -> & Hp & ->)]; [congruence|]. rewrite Hp in Hlen. lia.
  - intros [Hpc|H1]%Hcc; [exists i, pc'; by rewrite list_lookup_insert_eq|].
    destruct (Hc H1) as (j & pcj & Hj & Hcj). destruct (decide (i = j)) as [->|].
    + exists j, pc'. rewrite list_lookup_insert_eq by done. split; [done|]. apply Hcl. congruence.
    + exists j, pcj. by rewrite list_lookup_insert_ne.
Qed.

Lemma Stop_ok i wp l r :
  pool_inv wp l → Stop i wp = Some r → (r = Panic ∧ may_panic (LStopStep i) wp) ∨ step_ok (LStopStep i) wp l r.
Proof.
  intros [Hq Hr Ht Hitem Hdue Hclk Hcap Hb Hst] Hs. unfold Stop in Hs.
  destruct (stop_calls wp !! i) as [pc|] eqn:Hi; [|done]. cbn [mbind option_bind] in Hs.
  assert (∀ pc' sc' cc', stops_ok (<[i := pc']> (stop_calls wp)) sc' cc' →
    step_ok (LStopStep i) wp l (Ret (set_stop i pc' (set_stop_closed sc' (set_chan_closed cc' wp))))) as Hstep.
  { intros pc' sc' cc' Hok. eexists _, l. split; [done|]. destruct wp. by split_and!. }
  assert (∀ pc', past pc' = past pc → (closer pc → closer pc') →
    step_ok (LStopStep i) wp l (Ret (set_stop i pc' wp))) as Hpc.
  { intros pc' Hp Hcl. specialize (Hstep pc' (stop_closed wp) (chan_closed wp)).
    replace (set_stop_closed _ _) with wp in Hstep by by destruct wp. apply Hstep.
    eapply stops_ok_insert; [exact Hst|exact Hi|by left|by right|done]. }
  destruct pc; simplify_eq.
  1-4: right; apply Hpc; [by destruct (bool_decide _)|by intros [|]].
  - destruct (stop_closed wp) eqn:Hsc; [left; split; [done|]; right; by exists i|right].
    specialize (Hstep SCloseJobs true (chan_closed wp)). replace (set_chan_closed (chan_closed wp) wp) with wp in Hstep by by destruct wp.
    apply Hstep. eapply stops_ok_insert; [exact Hst|exact Hi|by right|by right|by intros [|]].
  - destruct (chan_closed wp) eqn:Hcc.
    + exfalso. destruct Hst as [Hn Hc]. destruct (Hc eq_refl) as (j & pc & Hj & Hcl).
      destruct (filter_insert past _ i _ Hi) as (n & Hlen & Hlen'). specialize (Hlen' SJobsQ). simpl in Hlen, Hlen'.
      destruct (filter_insert past (<[i := SJobsQ]> (stop_calls wp)) j pc) as (m & Hm & _).
      { rewrite list_lookup_insert_ne; [done|]. intros ->. rewrite Hj in Hi. injection Hi as ->. by destruct Hcl. }
      assert (past pc = true) as Hp by by destruct Hcl as [-> | ->]. rewrite Hp in Hm. destruct (stop_closed wp); lia.
    + right. specialize (Hstep SWait (stop_closed wp) true).
      replace (set_stop_closed (stop_closed wp) (set_chan_closed true wp)) with (set_chan_closed true wp) in Hstep by by destruct wp.
      apply Hstep. eapply stops_ok_insert; [exact Hst|exact Hi|by left|by left; left|by intros [|]].
  - destruct (forallb _ _); [|done]. simplify_eq. right. apply Hpc; [done|by right].
Qed.

(** One step of anything: it keeps the invariant, or it is one of the panics. *)
Lemma pool_next_ok lab wp l r :
  pool_inv wp l → pool_next lab wp = Some r → (r = Panic ∧ may_panic lab wp) ∨ step_ok lab wp l r.
Proof.
  intros Hinv Hs. pose proof Hinv as [Hq Hr Ht Hitem Hdue Hclk Hcap Hb Hcl].
  destruct lab; simpl in Hs; try (right; by apply worker_step_ok).
  - right. destruct (jobs_loop wp) eqn:Hj, (retry_loop wp) eqn:Hrl; try done. injection Hs as <-.
    eexists _, l. split; [done|]. destruct wp as [n c jq rq ch cc sc b w j rl s cd tm].
    unfold all_jobs, ready_jobs, busy_workers in *. simpl in *. subst.
    assert (∀ m, concat (held <$> w ++ replicate m WSelect) = concat (held <$> w)) as Hheld.
    { intros m. rewrite fmap_app, concat_app, fmap_replicate. simpl. induction m; simpl; [apply app_nil_r|done]. }
    assert (∀ m, concat (ready <$> w ++ replicate m WSelect) = concat (ready <$> w)) as Hready.
    { intros m. rewrite fmap_app, concat_app, fmap_replicate. simpl. induction m; simpl; [apply app_nil_r|done]. }
    split; [split; simpl; try done|].
    + unfold ready_jobs. simpl. rewrite Hready. done.
    + unfold busy_workers. simpl. rewrite filter_app.
      replace (filter busy (replicate (Z.to_nat n) WSelect)) with (@nil (worker_pc (T := T))); [by rewrite app_nil_r|].
      by induction (Z.to_nat n).
    + by rewrite Hheld.
  - right. case_decide; [|done]. injection Hs as <-. eexists _, l. split; [done|]. destruct wp as [n c jq rq ch cc sc b w j rl s cd tm].
    unfold all_jobs, ready_jobs in *. simpl in *. split; [split; simpl; try done|done].
    + destruct rl; try done. destruct Hitem as (x & ? & ?). exists x. split; [done|lia].
    + intros job Hj. specialize (Hdue job Hj). lia.
    + lia.
  - right. injection Hs as <-. eexists _, l. split; [done|]. destruct wp. by split_and!.
  - destruct (submit_ok {| job_task := task; job_waitToTime := 0 |} wp l r Hinv Hclk Hs) as [[-> Hc]|(wp' & -> & Hinv' & Hall)];
      [left; split; [done|by left]|]. right. exists wp', l. split_and!; [done|done|]. rewrite app_nil_r. simpl.
    by rewrite Hall, fmap_cons, Permutation_app_comm.
  - unfold TrySubmit in Hs. destruct (send _ wp) as [r'|] eqn:Hsend.
    + destruct (submit_ok {| job_task := task; job_waitToTime := 0 |} wp l r' Hinv Hclk Hsend)
        as [[-> Hc]|(wp' & -> & Hinv' & Hall)]; simpl in Hs; [injection Hs as <-; left; split; [done|by left]|].
      case_bool_decide; simplify_eq. right. exists wp', l. split_and!; [done|done|]. rewrite app_nil_r. simpl.
      by rewrite Hall, fmap_cons, Permutation_app_comm.
    + case_bool_decide; simplify_eq. right. exists wp, l. by split_and!.
  - by apply jobsLoop_ok.
  - right. by apply retryLoop_ok.
  - right. injection Hs as <-. eexists _, l. split; [done|]. destruct wp as [n c jq rq ch cc sc b w j rl st cd tm].
    unfold all_jobs, ready_jobs in *. simpl in *. split; [|done]. split; simpl; try done. destruct Hcl as [Hn Hc]. split.
    + rewrite filter_app, length_app. simpl. by rewrite Nat.add_0_r.
    + intros H1. destruct (Hc H1) as (k & pc & Hk & Hpc). exists k, pc. split; [by apply lookup_app_l_Some|done].
  - by apply Stop_ok.
Qed.

(** ** Executions *)

Lemma NewWorkerPool_inv opts t0 wp : (0 ≤ t0)%Z → NewWorkerPool opts t0 = Ret wp → pool_inv wp [] ∧ all_jobs wp [] = [].
Proof.
  intros Ht0. unfold NewWorkerPool. destruct (foldl _ _ opts) as [n c]. case_decide as Hc; [done|]. intros [= <-].
  assert (pq_inv (T := T) {| mem := ∅; items := []; seq := 0 |}) as Hpq
    by (split; [split; simpl; [constructor|done|done]|intros k Hk; simpl in Hk; lia]).
  split; [|done]. split; simpl; try done; try lia; [apply represents_empty|..].
  - by intros x ?%elem_of_nil.
  - intros job. unfold ready_jobs. simpl. by intros ?%elem_of_nil.
Qed.

Lemma pool_run_inv opts t0 wp0 sub fin r :
  (0 ≤ t0)%Z → NewWorkerPool opts t0 = Ret wp0 → pool_run wp0 sub fin r →
  match r with
  | Ret wp => ∃ l, pool_inv wp l ∧ sub ≡ₚ fin ++ (job_task <$> all_jobs wp l)
  | _ => True
  end.
Proof.
  intros Ht0 Hnew. destruct (NewWorkerPool_inv opts t0 wp0 Ht0 Hnew) as [Hinv0 Hall0].
  induction 1 as [|sub fin wp lab r _ (l & Hinv & Hp) Hnext]; [exists []; by rewrite Hall0|].
  destruct (pool_next_ok lab wp l r Hinv Hnext) as [[-> _]|(wp' & l' & -> & Hinv' & Hall)]; [done|].
  exists l'. split; [done|]. rewrite Hp, <-!app_assoc, <-Hall. perm_solve.
Qed.

(** The configuration never changes, and there are as many workers as were
    configured once the pool is started. *)
Definition staffed wp : Prop :=
  workers wp = [] ∧ jobs_loop wp = JNone ∨ length (workers wp) = Z.to_nat (workerCount wp) ∧ jobs_loop wp ≠ JNone.

Lemma Stop_staffed i wp wp' :
  Stop i wp = Some (Ret wp') →
  workers wp' = workers wp ∧ jobs_loop wp' = jobs_loop wp ∧ workerCount wp' = workerCount wp ∧ capacity wp' = capacity wp.
Proof.
  unfold Stop, stop_check, set_stop. destruct (stop_calls wp !! i) as [pc|]; [|done]. cbn [mbind option_bind].
  destruct wp. destruct pc; simpl; repeat case_match; by intros [= <-].
Qed.

Lemma pool_next_staffed lab wp wp' :
  pool_next lab wp = Some (Ret wp') → staffed wp →
  staffed wp' ∧ workerCount wp' = workerCount wp ∧ capacity wp' = capacity wp.
Proof.
  unfold staffed. intros Hs Hst. destruct (match lab with LStopStep i => Some i | _ => None end) as [i|] eqn:Hl.
  { destruct lab; simplify_eq. by apply Stop_staffed in Hs as (-> & -> & -> & ->). }
  destruct wp as [n c jq rq ch cc sc b w j rl s cd tm].
  destruct lab; try discriminate Hl; unfold pool_next, worker_next, jobsLoop, retryLoop, Submit, TrySubmit, send,
    moveToRetry, set_worker, fmap, option_fmap, option_map, mbind, outcome_bind in Hs; simpl in Hs;
    go_cases; rewrite ?length_insert; try done; try naive_solver.
  destruct Hst as [[-> _]|[_ ?]]; [|done]. simpl. rewrite length_replicate. auto.
Qed.

Lemma pool_run_staffed opts t0 wp0 sub fin r :
  NewWorkerPool opts t0 = Ret wp0 → pool_run wp0 sub fin r →
  match r with
  | Ret wp => staffed wp ∧ workerCount wp = workerCount wp0 ∧ capacity wp = capacity wp0
  | _ => True
  end.
Proof.
  intros Hnew Hrun. assert (staffed wp0) as H0.
  { unfold NewWorkerPool in Hnew. destruct (foldl _ _ opts). case_decide; [done|]. injection Hnew as <-. by left. }
  induction Hrun as [|sub fin wp lab r _ IH Hnext]; [done|]. destruct IH as (Hst & Hn & Hc).
  destruct r as [wp'| |]; [|done..]. destruct (pool_next_staffed lab wp wp' Hnext Hst) as (? & -> & ->). done.
Qed.

(** Only [Stop] moves [Stop]. *)
Definition is_stop (lab : pool_label (T := T)) : bool := match lab with LStop | LStopStep _ => true | _ => false end.

Lemma pool_next_stop_calls lab wp wp' :
  is_stop lab = false → pool_next lab wp = Some (Ret wp') → stop_calls wp' = stop_calls wp.
Proof.
  intros Hl Hs. destruct wp as [n c jq rq ch cc sc b w j rl s cd tm].
  destruct lab; try done; unfold pool_next, worker_next, jobsLoop, retryLoop, Submit, TrySubmit, send,
    moveToRetry, set_worker, fmap, option_fmap, option_map, mbind, outcome_bind in Hs; simpl in Hs; by go_cases.
Qed.

(** Without a call of [Stop] nothing panics. *)
Lemma unstopped_never_panics lab wp l : pool_inv wp l → stop_calls wp = [] → ¬ may_panic lab wp.
Proof.
  intros Hinv Hs. destruct (pi_stops _ _ Hinv) as [Hn Hc]. rewrite Hs in Hn, Hc.
  intros [[_ Hcc]|(i & -> & Hi & _)]; [destruct (Hc Hcc) as (j & pc & Hj & _)|rewrite Hs in Hi]; by rewrite lookup_nil in *.
Qed.

(** C24. In every interleaving of the workers, the loops, the submitters, the
    clock, a cancellation and [Stop], a task that was accepted either has had
    an execution that returned nil (once per acceptance), or its job is in
    exactly one place: the channel, a worker's hands, the priority queue, the
    linked queue or the hands of a loop. *)
Theorem jobs_conserved opts t0 wp0 sub fin wp :
  (0 ≤ t0)%Z → NewWorkerPool opts t0 = Ret wp0 → pool_run wp0 sub fin (Ret wp) →
  ∃ l, represents (jobsQ wp) l ∧
    sub ≡ₚ fin ++ (job_task <$> jobChan wp ++ concat (held <$> workers wp) ++ (contents (retryQ wp)).*1 ++
                     retry_held (retry_loop wp) ++ l ++ jobs_held (jobs_loop wp)).
Proof.
  intros Ht0 Hnew Hrun. destruct (pool_run_inv _ _ _ _ _ _ Ht0 Hnew Hrun) as (l & Hinv & Hp).
  exists l. split; [apply Hinv|done].
Qed.

(** C25. No job is executed before the time it waits for: whatever the order of
    the clock readings, of [Top] and [Dequeue] and of the jobs other workers
    put into the priority queue in between, a job in a worker's hands waits for
    a time that has passed, unless the worker is about to put it into the
    priority queue again; so is every job on its way to a worker. *)
Theorem retry_never_early opts t0 wp0 sub fin wp :
  (0 ≤ t0)%Z → NewWorkerPool opts t0 = Ret wp0 → pool_run wp0 sub fin (Ret wp) →
  (∀ i job, workers wp !! i = Some (WReceived job) ∨ workers wp !! i = Some (WDo job) →
    (job_waitToTime job ≤ now wp)%Z) ∧
  (∀ job, job ∈ jobChan wp ++ retry_held (retry_loop wp) ++ jobs_held (jobs_loop wp) → (job_waitToTime job ≤ now wp)%Z).
Proof.
  intros Ht0 Hnew Hrun. destruct (pool_run_inv _ _ _ _ _ _ Ht0 Hnew Hrun) as (l & Hinv & _).
  pose proof (pi_due _ _ Hinv) as Hdue. split.
  - intros i job Hi. apply Hdue. unfold ready_jobs. rewrite !elem_of_app. right. left.
    apply list_elem_of_In, in_concat. exists [job]. rewrite <-!list_elem_of_In. split; [|left].
    apply list_elem_of_fmap. destruct Hi as [Hi|Hi]; eexists; (split; [|by eapply list_elem_of_lookup_2]); done.
  - intros job Hj. apply Hdue. unfold ready_jobs. rewrite !elem_of_app in *. tauto.
Qed.

(** C30. The counter the heartbeat reports is exact and bounded: it is the
    number of workers between its increment and its decrement, so at most the
    configured number of workers, provided that fits an int32; the channel
    never holds more jobs than its capacity. *)
Theorem BusyCount_bounds opts t0 wp0 sub fin wp :
  (0 ≤ t0)%Z → NewWorkerPool opts t0 = Ret wp0 → pool_run wp0 sub fin (Ret wp) → int32_ok (workerCount wp0) →
  BusyCount wp = Z.of_nat (length (filter busy (workers wp))) ∧
  (0 ≤ BusyCount wp ≤ Z.max 0 (workerCount wp0))%Z ∧
  (0 ≤ Z.of_nat (length (jobChan wp)) ≤ capacity wp0)%Z.
Proof.
  intros Ht0 Hnew Hrun Hok. destruct (pool_run_inv _ _ _ _ _ _ Ht0 Hnew Hrun) as (l & Hinv & _).
  destruct (pool_run_staffed _ _ _ _ _ _ Hnew Hrun) as (Hst & Hn & Hc).
  assert (Z.of_nat (length (workers wp)) ≤ Z.max 0 (workerCount wp0))%Z as Hlen.
  { rewrite <-Hn. destruct Hst as [[-> _]|[-> _]]; simpl; lia. }
  pose proof (length_filter busy (workers wp)) as Hf. unfold int32_ok, two31 in Hok.
  pose proof (pi_busy _ _ Hinv) as Hb. unfold busy_workers in Hb.
  rewrite wrap32_id in Hb by (unfold int32_ok, two31; lia). unfold BusyCount. rewrite Hb.
  pose proof (pi_cap _ _ Hinv). lia.
Qed.

(** C36. The panics of the pool.  A step panics only if it is a send on the job
    channel, by [Submit], by [TrySubmit] or by [jobsLoop] for the job in its
    hands, after a call of [Stop] has closed it; or a call of [Stop] that closes
    [stopChan] after another call of [Stop] has closed it.  In particular no
    step dereferences nil or leaves the bounds of the priority queue, and
    without a call of [Stop] nothing panics. *)
Theorem pool_panics_only_after_stop opts t0 wp0 sub fin wp lab :
  (0 ≤ t0)%Z → NewWorkerPool opts t0 = Ret wp0 → pool_run wp0 sub fin (Ret wp) →
  pool_next lab wp = Some Panic →
  (sends lab wp ∧ chan_closed wp = true ∧ ∃ j pc, stop_calls wp !! j = Some pc ∧ closer pc) ∨
  (∃ i j pc, lab = LStopStep i ∧ stop_calls wp !! i = Some SCloseStop ∧ stop_closed wp = true ∧
     stop_calls wp !! j = Some pc ∧ past pc = true ∧ i ≠ j).
Proof.
  intros Ht0 Hnew Hrun Hnext. destruct (pool_run_inv _ _ _ _ _ _ Ht0 Hnew Hrun) as (l & Hinv & _).
  destruct (pool_next_ok lab wp l Panic Hinv Hnext) as [[_ Hp]|(wp' & l' & ? & _)]; [|done].
  destruct (pi_stops _ _ Hinv) as [Hn Hc]. destruct Hp as [[Hs Hcc]|(i & -> & Hi & Hsc)]; [left|right].
  - split; [done|]. split; [done|]. by apply Hc.
  - rewrite Hsc in Hn. destruct (filter past (stop_calls wp)) as [|pc rest] eqn:Hf; [done|].
    assert (pc ∈ filter past (stop_calls wp)) as Hin by (rewrite Hf; left).
    apply list_elem_of_filter in Hin as [Hpc [j Hj]%list_elem_of_lookup]. exists i, j, pc. split_and!; try done.
    + by apply Is_true_true.
    + intros ->. rewrite Hi in Hj. by injection Hj as <-.
Qed.
End pool.
