(* ===== verification/PoolRuns.v ===== *)
(** * Executions of the worker pool

    A pool with one worker, a channel of one job and tasks (strings) that wait
    two seconds for a retry: instances of the theorems of [PoolProps], and the
    orders of events in which [Stop] loses a job or makes the program panic. *)

From stdpp Require Import base gmap strings list.
From Stdlib Require Import ZArith Lia.
From S2P Require Import Prelude LinkedList GoHeap PriorityQueue WorkerPool PoolProps.

Section exec.
Context `{HT : Task T}.
Implicit Types (wp : WorkerPool T).

(** Running a list of labels. *)
Fixpoint pool_exec (tr : list (pool_label (T := T))) (sub fin : list T) wp
    : option (list T * list T * outcome () (WorkerPool T)) :=
  match tr with
  | [] => Some (sub, fin, Ret wp)
  | lab :: tr =>
      match pool_next lab wp with
      | None => None
      | Some (Ret wp') => pool_exec tr (sub ++ accepts lab) (fin ++ finishes lab wp) wp'
      | Some r => match tr with [] => Some (sub ++ accepts lab, fin ++ finishes lab wp, r) | _ => None end
      end
  end.

Lemma pool_exec_run wp0 tr sub fin wp sub' fin' r :
  pool_run wp0 sub fin (Ret wp) → pool_exec tr sub fin wp = Some (sub', fin', r) → pool_run wp0 sub' fin' r.
Proof.
  revert sub fin wp. induction tr as [|lab tr IH]; intros sub fin wp Hrun Hex; simpl in Hex; [by simplify_eq|].
  destruct (pool_next lab wp) as [[wp'|[]|]|] eqn:Hn; [|destruct tr; [|done]..|done].
  - eapply IH; [|exact Hex]. by econstructor.
  - simplify_eq. by econstructor.
  - simplify_eq. by econstructor.
Qed.
End exec.

#[local] Instance two_seconds : Task string := λ _, (2 * Second)%Z.

Definition small_opts : list (Z * Z → Z * Z) := [WithWorkerCount 1; WithCapacity 1].

Definition small_pool : WorkerPool string :=
  match NewWorkerPool small_opts 0 with
  | Ret wp => wp
  | _ => {| workerCount := 0; capacity := 0; jobsQ := ll_empty; retryQ := {| mem := ∅; items := []; seq := 0 |};
            jobChan := []; chan_closed := false; stop_closed := false; busyCount := 0; workers := [];
            jobs_loop := JNone; retry_loop := RNone; stop_calls := []; ctx_done := false; now := 0 |}
  end.

Definition pool_end (tr : list (pool_label (T := string))) : outcome () (WorkerPool string) :=
  match pool_exec tr [] [] small_pool with Some (_, _, r) => r | None => Panic end.

(** One execution of the worker's task, which fails, up to the retry queue. *)
Definition failing_try : list (pool_label (T := string)) :=
  [LReceive 0; LBusy 0; LDo 0 true; LOnDone 0; LClock 0; LRetry 0; LRelease 0].

(** Two tasks are accepted and the third refused; the first succeeds, the
    second fails and waits. *)
Definition busy_trace : list (pool_label (T := string)) :=
  [LStart; LTrySubmit "a" true; LReceive 0; LTrySubmit "b" true; LTrySubmit "c" false;
   LBusy 0; LDo 0 false; LOnDone 0; LRelease 0] ++ failing_try.

(** The failed task comes back after two seconds and is being executed. *)
Definition retry_trace : list (pool_label (T := string)) :=
  busy_trace ++ [LRetryLoop; LRetryLoop; LRetryLoop] ++   (* not due yet *)
  [LTick (2 * Second); LRetryLoop; LRetryLoop; LRetryLoop; LRetryLoop; LRetryLoop; LJobs; LJobs; LReceive 0; LBusy 0].

Definition after_retry : WorkerPool string := match pool_end retry_trace with Ret wp => wp | _ => small_pool end.

Lemma after_retry_run : pool_run small_pool ["a"; "b"] ["a"] (Ret after_retry).
Proof. apply (pool_exec_run small_pool retry_trace [] [] small_pool); [constructor|vm_compute; reflexivity]. Qed.

Lemma jobs_conserved_witness :
  ∃ l, represents (jobsQ after_retry) l ∧
    ["a"; "b"] ≡ₚ ["a"] ++ (job_task <$> jobChan after_retry ++ concat (held <$> workers after_retry) ++
      (contents (retryQ after_retry)).*1 ++ retry_held (retry_loop after_retry) ++ l ++ jobs_held (jobs_loop after_retry)).
Proof. apply (jobs_conserved small_opts 0 small_pool); [lia|reflexivity|apply after_retry_run]. Defined.

Lemma retry_never_early_witness :
  (2 * Second ≤ now after_retry)%Z ∧ workers after_retry !! 0 = Some (WDo {| job_task := "b"; job_waitToTime := 2 * Second |}).
Proof.
  assert (workers after_retry !! 0 = Some (WDo {| job_task := "b"; job_waitToTime := 2 * Second |})) as Hw
    by (vm_compute; reflexivity).
  split; [|exact Hw].
  exact (proj1 (retry_never_early small_opts 0 small_pool ["a"; "b"] ["a"] after_retry
    (Z.le_refl 0) eq_refl after_retry_run) 0 _ (or_intror Hw)).
Defined.

Lemma BusyCount_bounds_witness : BusyCount after_retry = 1%Z ∧ (0 ≤ BusyCount after_retry ≤ Z.max 0 1)%Z.
Proof.
  split; [reflexivity|].
  apply (BusyCount_bounds small_opts 0 small_pool ["a"; "b"] ["a"] after_retry);
    [lia|reflexivity|apply after_retry_run|unfold int32_ok, two31; simpl; lia].
Defined.

(** ** [Stop] *)

(** The failed task [a] is due and in the hands of [retryLoop] while [Stop]
    finds all four counters at zero. *)
Definition stop_checks : list (pool_label (T := string)) := LStop :: repeat (LStopStep 0) 6.

Definition due_trace : list (pool_label (T := string)) :=
  [LStart; LTrySubmit "a" true] ++ failing_try ++
  [LTick (2 * Second); LRetryLoop; LRetryLoop; LRetryLoop; LRetryLoop].

Definition lost_trace : list (pool_label (T := string)) :=
  due_trace ++ stop_checks ++ [LReceive 0; LStopStep 0; LRetryLoop; LRetryLoop; LRetryLoop; LJobs].

Definition panic_trace : list (pool_label (T := string)) :=
  due_trace ++ [LRetryLoop; LJobs] ++ stop_checks ++ [LJobs].

(** The pool before [jobsLoop]'s last step. *)
Definition closing_trace : list (pool_label (T := string)) := due_trace ++ [LRetryLoop; LJobs] ++ stop_checks.
Definition closing_pool : WorkerPool string := match pool_end closing_trace with Ret wp => wp | _ => small_pool end.

Lemma pool_panics_only_after_stop_witness :
  pool_next LJobs closing_pool = Some Panic ∧ chan_closed closing_pool = true.
Proof.
  assert (pool_next LJobs closing_pool = Some Panic) as Hp by (vm_compute; reflexivity).
  split; [exact Hp|].
  assert (pool_run small_pool ["a"] [] (Ret closing_pool)) as Hrun.
  { apply (pool_exec_run small_pool closing_trace [] [] small_pool); [constructor|vm_compute; reflexivity]. }
  destruct (pool_panics_only_after_stop small_opts 0 small_pool ["a"] [] closing_pool LJobs (Z.le_refl 0) eq_refl Hrun Hp)
    as [(_ & Hc & _)|(i & _ & _ & Hi & _)]; [exact Hc|discriminate Hi].
Defined.

(** A second call of [Stop] panics. *)
Definition stop_twice : list (pool_label (T := string)) := stop_checks ++ LStop :: repeat (LStopStep 1) 5.

Theorem second_stop_panics : pool_run small_pool [] [] Panic.
Proof. apply (pool_exec_run small_pool stop_twice [] [] small_pool); [constructor|vm_compute; reflexivity]. Qed.

Definition lost_pool : WorkerPool string := match pool_end lost_trace with Ret wp => wp | _ => small_pool end.

(** [Stop] does not keep its promise that no job waiting for a retry is
    lost: its four checks are not atomic and do not see the jobs in the hands
    of the loops.  In one execution [Stop] returns, every goroutine has
    returned and an accepted task that never succeeded lies in the linked
    queue; in another, [jobsLoop] sends on the channel [Stop] has closed, and
    the program panics. *)
Theorem stop_loses_jobs_or_panics :
  (pool_run small_pool ["a"] [] (Ret lost_pool) ∧ stop_calls lost_pool = [SReturned] ∧ workers lost_pool = [WReturned] ∧
   jobs_loop lost_pool = JReturned ∧ retry_loop lost_pool = RReturned ∧ ll_len (jobsQ lost_pool) = 1%Z) ∧
  pool_run small_pool ["a"] [] Panic.
Proof.
  split; [split_and!|].
  - apply (pool_exec_run small_pool lost_trace [] [] small_pool); [constructor|vm_compute; reflexivity].
  - vm_compute. reflexivity.
  - vm_compute. reflexivity.
  - vm_compute. reflexivity.
  - vm_compute. reflexivity.
  - vm_compute. reflexivity.
  - apply (pool_exec_run small_pool panic_trace [] [] small_pool); [constructor|vm_compute; reflexivity].
Qed.
