(* ===== verification/Executors.v ===== *)
(** * The executors of a worker

    [executor/shell], [executor/http], [executor/executor.go] and
    [pkg/executror_registry]: how a task's payload becomes a process or an
    HTTP request, and how what happened becomes a [domain.TaskResult].

    Decoding a payload and building a request ([encoding/json], [net/http])
    are arguments, [Json].  What the
    process or the request did is an observation ([cmd_obs], [http_obs]) that
    the environment makes, given what was asked of it.  [Execute] returns, next
    to its result and its error, the calls it made with what was observed: the
    commands that were run and the requests that were sent. *)

From stdpp Require Import base gmap strings list pretty.
From Stdlib Require Import ZArith Lia.
From S2P Require Import Prelude Status Domain.

Definition TaskResult_zero : TaskResult :=
  {| res_Status := TaskPending; ExitCode := 0; Stdout := ""; Stderr := ""; res_Error := ""; Duration := 0 |}.

Definition error_result (msg : string) : TaskResult :=
  {| res_Status := TaskPending; ExitCode := 0; Stdout := ""; Stderr := ""; res_Error := msg; Duration := 0 |}.

(** Asking the environment, and the record of it. *)
Definition perform {A B} (f : A → Z → B) (a : A) (timeout : Z) : B * list (A * Z * B) :=
  let o := f a timeout in (o, [(a, timeout, o)]).

(** ** The shell executor *)

Module Shell.
Record payload := { Command : string; Args : string }.

(** What [cmd.Run] returned: nil, an [*exec.ExitError], or another error (the
    command did not start). *)
Inductive run_error := RunOK | RunExit (code : Z) | RunFailed (msg : string).

(** The output, the return of [Run], whether the deadline had passed when it
    was asked for, and the time measured. *)
Record cmd_obs := {
  co_stdout : string; co_stderr : string; co_run : run_error; co_deadline : bool; co_duration : Z;
}.

(** [unmarshal] is [json.Unmarshal] of the payload: an error's text or the
    value; [run p timeout] runs the command. *)
Definition Execute (unmarshal : string → string + payload) (run : payload → Z → cmd_obs) (spec : TaskSpec)
    (timeout : Z) : TaskResult * option string * list (payload * Z * cmd_obs) :=
  match unmarshal (Payload spec) with
  | inl e => (error_result ("invalid shell payload: " +:+ e), Some ("invalid shell payload: " +:+ e), [])
  | inr p =>
      if decide (Command p = "") then
        (error_result "command not found in task spec", Some "command not found in task spec", [])
      else
        let '(o, calls) := perform run p timeout in
        let result code err :=
          {| res_Status := TaskPending; ExitCode := code; Stdout := co_stdout o; Stderr := co_stderr o;
             res_Error := err; Duration := co_duration o |} in
        if co_deadline o then (result (-1)%Z "task timed out", None, calls)
        else
          match co_run o with
          | RunOK => (result 0%Z "", None, calls)
          | RunExit code => (result code "", None, calls)
          | RunFailed msg => (result 0%Z "", Some ("failed to start command: " +:+ msg), calls)
          end
  end.
End Shell.

(** ** The HTTP executor *)

Module Http.
Record payload := { URL : string; Method : string; Body : string; Headers : gmap string string }.

Record request := { rq_method : string; rq_url : string; rq_body : string; rq_headers : gmap string string }.

(** What [http.DefaultClient.Do] gave: an error, or a status and the body as
    far as it could be read, with the error of reading it. *)
Inductive response :=
  | DoFailed (msg : string)
  | Responded (status : Z) (body : string) (readErr : option string).

Record http_obs := { ho_response : response; ho_deadline : bool; ho_duration : Z }.

(** The loop over the payload's headers; [Set] canonicalizes the key, so of two
    keys with the same canonical form the later in the order wins. *)
Definition set_headers (canonical : string → string) (order : shuffle) (headers : gmap string string)
    : gmap string string :=
  foldl (λ h key, match headers !! key with Some value => <[canonical key := value]> h | None => h end) ∅
    (order (keys headers)).

(** [newRequest] is [http.NewRequestWithContext]: the text of its error, if
    any. *)
Definition Execute (unmarshal : string → string + payload) (newRequest : string → string → option string)
    (canonical : string → string) (order : shuffle)
    (send : request → Z → http_obs) (spec : TaskSpec) (timeout : Z)
    : TaskResult * option string * list (request * Z * http_obs) :=
  match unmarshal (Payload spec) with
  | inl e => (error_result ("invalid http payload: " +:+ e), Some ("invalid http payload: " +:+ e), [])
  | inr p =>
      if decide (URL p = "") then (error_result "url not found in task spec", Some "url not found in task spec", [])
      else
        let method := if decide (Method p = "") then "GET" else Method p in
        match newRequest method (URL p) with
        | Some e => (error_result e, Some ("build request: " +:+ e), [])
        | None =>
            let '(o, calls) := perform send {| rq_method := method; rq_url := URL p; rq_body := Body p;
                                               rq_headers := set_headers canonical order (Headers p) |} timeout in
            let result code out err :=
              {| res_Status := TaskPending; ExitCode := code; Stdout := out; Stderr := ""; res_Error := err;
                 Duration := ho_duration o |} in
            match ho_response o with
            | DoFailed msg => (result (-1)%Z "" (if ho_deadline o then "task timed out" else msg), None, calls)
            | Responded status body readErr =>
                match readErr with
                | Some e => (result (-1)%Z body ("read response body: " +:+ e), None, calls)
                | None =>
                    if decide (400 ≤ status)%Z
                    then (result status body ("unexpected status code: " +:+ pretty status), None, calls)
                    else (result 0%Z body "", None, calls)
                end
            end
        end
  end.
End Http.

(** ** The registry of executors *)

Inductive executor := ShellExecutor | HttpExecutor.

#[export] Instance executor_eq_dec : EqDecision executor.
Proof. solve_decision. Defined.

Class Json := {
  shell_payload : string → string + Shell.payload;
  http_payload : string → string + Http.payload;
  NewRequest : string → string → option string;
  CanonicalHeaderKey : string → string;
}.

(** What the environment does when it is asked to. *)
Record environment := {
  run_command : Shell.payload → Z → Shell.cmd_obs;
  send_request : Http.request → Z → Http.http_obs;
  header_order : shuffle;
}.

(** A call of an executor to the outside, with its timeout and what was
    observed. *)
Inductive external_call :=
  | RanCommand (p : Shell.payload) (timeout : Z) (o : Shell.cmd_obs)
  | SentRequest (rq : Http.request) (timeout : Z) (o : Http.http_obs).

Definition Execute `{Json} (ex : executor) (env : environment) (spec : TaskSpec) (timeout : Z)
    : TaskResult * option string * list external_call :=
  match ex with
  | ShellExecutor =>
      let '(result, err, calls) := Shell.Execute shell_payload (run_command env) spec timeout in
      (result, err, (λ '(p, s, o), RanCommand p s o) <$> calls)
  | HttpExecutor =>
      let '(result, err, calls) :=
        Http.Execute http_payload NewRequest CanonicalHeaderKey (header_order env) (send_request env) spec timeout in
      (result, err, (λ '(rq, s, o), SentRequest rq s o) <$> calls)
  end.

(** [executrorregistry.Registry] *)
Definition Registry : Type := gmap string executor.

Definition New : Registry := ∅.
Definition Register (taskType : string) (ex : executor) (r : Registry) : Registry := <[taskType := ex]> r.
Definition Get (taskType : string) (r : Registry) : string + executor :=
  match r !! taskType with
  | Some ex => inr ex
  | None => inl ("unknown task type: " +:+ taskType)
  end.

Definition isExecutorExists (executorType : string) : bool :=
  bool_decide (executorType = "shell") || bool_decide (executorType = "http").

(** One turn of the loop over the capabilities. *)
Definition register_capability (capability : string) (r : Registry) : Registry :=
  if decide (capability = "shell") then Register capability ShellExecutor r
  else if decide (capability = "http") then Register capability HttpExecutor r
  else r.

Fixpoint RegisterExecutors_loop (registered capabilities : list string) (r : Registry)
    : (string + list string) * Registry :=
  match capabilities with
  | [] => (inr registered, r)
  | capability :: rest =>
      if isExecutorExists capability
      then RegisterExecutors_loop (registered ++ [capability]) rest (register_capability capability r)
      else (inl ("executor " +:+ capability +:+ " does not exist"), r)
  end.

Definition RegisterExecutors (capabilities : list string) (r : Registry) : (string + list string) * Registry :=
  RegisterExecutors_loop [] capabilities r.

Definition executor_of (capability : string) : option executor :=
  if decide (capability = "shell") then Some ShellExecutor
  else if decide (capability = "http") then Some HttpExecutor
  else None.

Lemma isExecutorExists_executor_of c : isExecutorExists c = true ↔ is_Some (executor_of c).
Proof.
  unfold isExecutorExists, executor_of. repeat case_decide; subst; simpl; by split; intros He.
Qed.

Lemma register_capability_lookup c r k :
  register_capability c r !! k = if decide (k = c) then (match executor_of c with Some ex => Some ex | None => r !! k end) else r !! k.
Proof.
  unfold register_capability, executor_of, Register, Registry in *.
  destruct (decide (c = "shell")), (decide (c = "http")), (decide (k = c)) as [->|Hk]; simplify_eq;
    by rewrite ?lookup_insert_eq, ?lookup_insert_ne.
Qed.

Lemma RegisterExecutors_loop_ok registered cs r :
  (∀ c, c ∈ cs → is_Some (executor_of c)) →
  ∃ r', RegisterExecutors_loop registered cs r = (inr (registered ++ cs), r') ∧
    ∀ k, r' !! k = if decide (k ∈ cs) then executor_of k else r !! k.
Proof.
  revert registered r. induction cs as [|c cs IH]; intros registered r Hall; simpl.
  { exists r. by rewrite app_nil_r. }
  rewrite (proj2 (isExecutorExists_executor_of c)) by (apply Hall; left).
  destruct (IH (registered ++ [c]) (register_capability c r)) as (r' & -> & Hr'); [intros; apply Hall; by right|].
  exists r'. rewrite <-app_assoc. split; [done|]. intros k. rewrite Hr', register_capability_lookup.
  destruct (Hall c) as [ex Hex]; [left|].
  destruct (decide (k ∈ cs)), (decide (k = c)), (decide (k ∈ c :: cs)); subst; try done; try set_solver.
  by rewrite Hex.
Qed.

(** The registry of a worker process: exactly its capabilities, each with its
    executor; the process does not start if one is unknown. *)
Lemma RegisterExecutors_correct cs :
  match RegisterExecutors cs New with
  | (inr registered, r) =>
      registered = cs ∧ (∀ c, c ∈ cs → is_Some (executor_of c)) ∧
      ∀ k, Get k r = match executor_of k with
                     | Some ex => if decide (k ∈ cs) then inr ex else inl ("unknown task type: " +:+ k)
                     | None => inl ("unknown task type: " +:+ k)
                     end
  | (inl _, _) => ∃ c, c ∈ cs ∧ executor_of c = None
  end.
Proof.
  unfold RegisterExecutors. destruct (decide (Exists (λ c, executor_of c = None) cs)) as [(c & Hc & Hn)%Exists_exists|Hall].
  - assert (∀ registered r, ∃ e r', RegisterExecutors_loop registered cs r = (inl e, r')) as Herr.
    { induction cs as [|c' cs IH]; [by apply elem_of_nil in Hc|]. intros registered r. simpl.
      destruct (isExecutorExists c') eqn:He; [|eauto]. apply elem_of_cons in Hc as [->|Hc]; [|by apply IH].
      apply isExecutorExists_executor_of in He as [ex He]. congruence. }
    destruct (Herr [] New) as (e & r' & ->). eauto.
  - assert (∀ c, c ∈ cs → is_Some (executor_of c)) as Hsome.
    { intros c Hc. destruct (executor_of c) eqn:He; [eauto|]. exfalso. apply Hall, Exists_exists. eauto. }
    destruct (RegisterExecutors_loop_ok [] cs New Hsome) as (r' & -> & Hr'). split_and!; [done|done|].
    intros k. unfold Get. rewrite Hr'. destruct (decide (k ∈ cs)) as [Hk|Hk].
    + by destruct (Hsome k Hk) as [ex ->].
    + assert (New !! k = None) as -> by apply lookup_empty. by destruct (executor_of k).
Qed.

(** ** Results *)

(** A result that [Do] reports as a success. *)
Definition successful (r : TaskResult) : bool := bool_decide (ExitCode r = 0%Z) && bool_decide (res_Error r = "").

(** The shell executor reports success exactly when the command ran to its end
    in time with exit code 0; it returns an error (and the pool tries again)
    exactly when the command was never run to an exit code. *)
Lemma Shell_Execute_correct unmarshal run spec timeout :
  let '(result, err, _) := Shell.Execute unmarshal run spec timeout in
  (err = None ∧ successful result = true ↔
     ∃ p, unmarshal (Payload spec) = inr p ∧ Shell.Command p ≠ "" ∧ Shell.co_deadline (run p timeout) = false ∧
       (Shell.co_run (run p timeout) = Shell.RunOK ∨ Shell.co_run (run p timeout) = Shell.RunExit 0)) ∧
  (is_Some err ↔
     ∀ p, unmarshal (Payload spec) = inr p → Shell.Command p ≠ "" →
       Shell.co_deadline (run p timeout) = false ∧ ∃ msg, Shell.co_run (run p timeout) = Shell.RunFailed msg).
Proof.
  unfold Shell.Execute, perform, successful. destruct (unmarshal (Payload spec)) as [e|p]; [split; [split; [by intros [? _]|naive_solver]|split; [done|by eexists]]|].
  case_decide as Hc; [split; [split; [by intros [? _]|naive_solver]|split; [naive_solver|by eexists]]|].
  cbv zeta. destruct (Shell.co_deadline (run p timeout)) eqn:Hd.
  { split; [split; [intros [_ Hf]; vm_compute in Hf; done|naive_solver]|split; [by intros []|]].
    intros Hp. destruct (Hp p) as [? _]; congruence. }
  destruct (Shell.co_run (run p timeout)) as [|code|msg] eqn:Hr; simpl.
  - split; [split; [intros _; eauto 10|done]|split; [by intros []|]]. intros Hp. destruct (Hp p) as (_ & ? & ?); congruence.
  - split; [|split; [by intros []|]].
    + rewrite andb_true_r, bool_decide_eq_true. split; [intros [_ ->]; eauto 10|].
      intros (p' & [= <-] & _ & _ & [Hx|Hx]); rewrite Hr in Hx; by simplify_eq.
    + intros Hp. destruct (Hp p) as (_ & ? & ?); congruence.
  - split; [split; [by intros [? _]|]|split; [|by eexists]].
    + intros (p' & [= <-] & _ & _ & [Hx|Hx]); by rewrite Hr in Hx.
    + intros _ p' [= <-] _. eauto.
Qed.

(** The method the HTTP executor uses, and the request it builds. *)
Definition http_method (p : Http.payload) : string := if decide (Http.Method p = "") then "GET" else Http.Method p.

Definition built_request (canonical : string → string) (order : shuffle) (p : Http.payload) : Http.request := {|
  Http.rq_method := http_method p; Http.rq_url := Http.URL p; Http.rq_body := Http.Body p;
  Http.rq_headers := Http.set_headers canonical order (Http.Headers p);
|}.

(** The HTTP executor reports success exactly when a response with a status
    below 400 was read completely; it returns an error exactly when no request
    was sent. *)
Lemma Http_Execute_correct unmarshal newRequest canonical order send spec timeout :
  let '(result, err, _) := Http.Execute unmarshal newRequest canonical order send spec timeout in
  (err = None ∧ successful result = true ↔
     ∃ p status body, unmarshal (Payload spec) = inr p ∧ Http.URL p ≠ "" ∧ newRequest (http_method p) (Http.URL p) = None ∧
       Http.ho_response (send (built_request canonical order p) timeout) = Http.Responded status body None ∧ (status < 400)%Z) ∧
  (is_Some err ↔
     ∀ p, unmarshal (Payload spec) = inr p → Http.URL p ≠ "" → newRequest (http_method p) (Http.URL p) ≠ None).
Proof.
  unfold Http.Execute, perform, successful. destruct (unmarshal (Payload spec)) as [e|p]; [split; [split; [by intros [? _]|naive_solver]|split; [done|by eexists]]|].
  case_decide as Hc; [split; [split; [by intros [? _]|naive_solver]|split; [naive_solver|by eexists]]|].
  fold (http_method p). fold (built_request canonical order p).
  destruct (newRequest (http_method p) (Http.URL p)) as [e|] eqn:Hn.
  { split; [split; [by intros [? _]|]|split; [|by eexists]].
    - intros (p' & ? & ? & [= <-] & _ & Hx & _). congruence.
    - intros _ p' [= <-] _. congruence. }
  assert (¬ (∀ p0, inr (A := string) p = inr p0 → Http.URL p0 ≠ "" → newRequest (http_method p0) (Http.URL p0) ≠ None)) as Herr.
  { intros Hall. by apply (Hall p). }
  cbv zeta. destruct (Http.ho_response (send (built_request canonical order p) timeout)) as [msg|status body [e|]] eqn:Hr.
  - split; [split; [intros [_ Hf]; apply andb_true_iff in Hf as [Hf%bool_decide_eq_true _]; done|]|by split; [intros []|]].
    intros (p' & ? & ? & [= <-] & _ & _ & Hx & _). congruence.
  - split; [split; [intros [_ Hf]; apply andb_true_iff in Hf as [Hf%bool_decide_eq_true _]; done|]|by split; [intros []|]].
    intros (p' & ? & ? & [= <-] & _ & _ & Hx & _). congruence.
  - case_decide as Hs.
    + split; [split; [intros [_ Hf]; apply andb_true_iff in Hf as [Hf%bool_decide_eq_true _]; simpl in Hf; lia|]|by split; [intros []|]].
      intros (p' & s & b & [= <-] & _ & _ & Hx & ?). rewrite Hr in Hx. injection Hx as -> ->. lia.
    + split; [split; [intros _|done]|by split; [intros []|]]. exists p, status, body. split_and!; [done..|lia].
Qed.

(** ** What a call says

    The meaning of a call, independently of the executor's code: whose call it
    is, whether it succeeded, and the result it stands for. *)

Definition call_for `{Json} (ex : executor) (spec_payload : string) (timeout : Z) (call : external_call) : Prop :=
  match ex, call with
  | ShellExecutor, RanCommand p s _ => shell_payload spec_payload = inr p ∧ Shell.Command p ≠ "" ∧ s = timeout
  | HttpExecutor, SentRequest rq s _ =>
      ∃ p order, http_payload spec_payload = inr p ∧ Http.URL p ≠ "" ∧ NewRequest (http_method p) (Http.URL p) = None ∧
        rq = built_request CanonicalHeaderKey order p ∧ s = timeout
  | _, _ => False
  end.

(** What was observed is what the environment does. *)
Definition answered_by (env : environment) (call : external_call) : Prop :=
  match call with
  | RanCommand p s o => o = run_command env p s
  | SentRequest rq s o => o = send_request env rq s
  end.

(** The command ended with exit code 0 before the deadline; a response with a
    status below 400 was read to its end. *)
Definition call_succeeded (call : external_call) : Prop :=
  match call with
  | RanCommand _ _ o => Shell.co_deadline o = false ∧ (Shell.co_run o = Shell.RunOK ∨ Shell.co_run o = Shell.RunExit 0)
  | SentRequest _ _ o => ∃ status body, Http.ho_response o = Http.Responded status body None ∧ (status < 400)%Z
  end.

(** The command did not start. *)
Definition call_failed (call : external_call) : Prop :=
  match call with
  | RanCommand _ _ o => Shell.co_deadline o = false ∧ ∃ msg, Shell.co_run o = Shell.RunFailed msg
  | SentRequest _ _ _ => False
  end.

Definition call_output (call : external_call) : string * string :=
  match call with
  | RanCommand _ _ o => (Shell.co_stdout o, Shell.co_stderr o)
  | SentRequest _ _ o => (match Http.ho_response o with Http.DoFailed _ => "" | Http.Responded _ body _ => body end, "")
  end.

(** The result of a call: it is successful exactly if the call was, and it has
    the call's output. *)
Definition result_of_call (call : external_call) (r : TaskResult) : Prop :=
  (successful r = true ↔ call_succeeded call) ∧ (Stdout r, Stderr r) = call_output call ∧ ¬ call_failed call.

Lemma result_of_call_intro call r :
  (ExitCode r = 0%Z ∧ res_Error r = "" ↔ call_succeeded call) → (Stdout r, Stderr r) = call_output call →
  ¬ call_failed call → result_of_call call r.
Proof. intros Hs Ho Hf. split; [|done]. unfold successful. by rewrite andb_true_iff, !bool_decide_eq_true. Qed.

(** Without an error exactly one call was made, and the result is its result;
    with an error no call was made, or a command that did not start.  Every
    call is for the payload and the timeout, and the environment answered it. *)
Lemma Execute_calls `{Json} ex env spec timeout :
  let '(result, err, calls) := Execute ex env spec timeout in
  (∀ call, call ∈ calls → call_for ex (Payload spec) timeout call ∧ answered_by env call) ∧
  match err with
  | None => ∃ call, calls = [call] ∧ result_of_call call result
  | Some _ => ∀ call, call ∈ calls → call_failed call
  end.
Proof.
  destruct ex; unfold Execute.
  - unfold Shell.Execute, perform. destruct (shell_payload (Payload spec)) as [e|p] eqn:Hp; [by split; intros call ?%elem_of_nil|].
    case_decide as Hc; [by split; intros call ?%elem_of_nil|]. cbv zeta.
    set (call := RanCommand p timeout (run_command env p timeout)).
    assert (∀ call', call' ∈ [call] → call_for ShellExecutor (Payload spec) timeout call' ∧ answered_by env call') as Hfor.
    { intros call' ->%list_elem_of_singleton. by split. }
    destruct (Shell.co_deadline (run_command env p timeout)) eqn:Hd;
      [|destruct (Shell.co_run (run_command env p timeout)) as [|code|msg] eqn:Hr]; (split; [exact Hfor|]).
    4: { intros call' ->%list_elem_of_singleton. simpl. eauto. }
    all: exists call; (split; [done|]); apply result_of_call_intro; simpl; rewrite ?Hd, ?Hr; naive_solver.
  - unfold Http.Execute, perform. destruct (http_payload (Payload spec)) as [e|p] eqn:Hp; [by split; intros call ?%elem_of_nil|].
    case_decide as Hc; [by split; intros call ?%elem_of_nil|]. fold (http_method p).
    fold (built_request CanonicalHeaderKey (header_order env) p).
    destruct (NewRequest (http_method p) (Http.URL p)) as [e|] eqn:Hn; [by split; intros call ?%elem_of_nil|]. cbv zeta.
    set (rq := built_request CanonicalHeaderKey (header_order env) p).
    set (call := SentRequest rq timeout (send_request env rq timeout)).
    assert (∀ call', call' ∈ [call] → call_for HttpExecutor (Payload spec) timeout call' ∧ answered_by env call') as Hfor.
    { intros call' ->%list_elem_of_singleton. split; [|done]. by exists p, (header_order env). }
    destruct (Http.ho_response (send_request env rq timeout)) as [msg|status body [e|]] eqn:Hr;
      [| |case_decide as Hs]; (split; [exact Hfor|]); exists call; (split; [done|]); apply result_of_call_intro; simpl;
      rewrite ?Hr; try naive_solver lia.
Qed.
