(* ===== verification/WorkerTask.v ===== *)
(** * A task on a worker, and its reports

    [models/executable_task.go]: the execution of one dispatched task and the
    two reports it sends; [client/cluster_client.go]: the worker's connection
    to the control plane.  The round trips at the end follow a task from its
    definition through the control plane to the executor, and its result back
    to the control plane. *)

From stdpp Require Import base gmap strings list.
From Stdlib Require Import ZArith Lia.
From S2P Require Import Prelude Status Domain GoFloat Jobs Engine Server Executors.

(** ** The cluster client *)

Section client.
Context {Conn : Type} (NewClient : string → option Conn).

Record GRPCClusterClient := { addr : string; conn : option Conn }.
Implicit Types (c : GRPCClusterClient).

Definition NewClusterClient (a : string) : GRPCClusterClient := {| addr := a; conn := None |}.

Definition getOrDial c : option Conn * GRPCClusterClient :=
  match conn c with
  | Some k => (Some k, c)
  | None =>
      match NewClient (addr c) with
      | None => (None, c)
      | Some k => (Some k, {| addr := addr c; conn := Some k |})
      end
  end.

(** [Register], [Heartbeat] and [ReportResult] are this, with the call of the
    generated client for [rpc]: no response if the dial or the call fails. *)
Definition call {Resp} (rpc : Conn → option Resp) c : option Resp * GRPCClusterClient :=
  let '(k, c) := getOrDial c in
  match k with None => (None, c) | Some k => (rpc k, c) end.

(** The connection is dropped even if closing it fails. *)
Definition Close (closed : Conn → bool) c : bool * GRPCClusterClient :=
  match conn c with
  | None => (true, c)
  | Some k => (closed k, {| addr := addr c; conn := None |})
  end.

(** The client dials at most once between two [Close]s, and a failed dial is
    tried again. *)
Lemma call_dials_once {Resp Resp'} (rpc : Conn → option Resp) (rpc' : Conn → option Resp') c :
  let '(_, c') := call rpc c in
  addr c' = addr c ∧
  match conn c' with
  | Some k => (conn c = Some k ∨ conn c = None ∧ NewClient (addr c) = Some k) ∧ call rpc' c' = (rpc' k, c')
  | None => conn c = None ∧ NewClient (addr c) = None ∧ (call rpc c).1 = None
  end.
Proof.
  unfold call, getOrDial. destruct (conn c) as [k|] eqn:Hc; simpl; rewrite ?Hc; [auto|].
  destruct (NewClient (addr c)) as [k|] eqn:Hn; simpl; rewrite ?Hc; auto.
Qed.
End client.
Arguments GRPCClusterClient Conn : clear implicits.

(** ** The task *)

Definition retryBackoff : Z := 2 * Second.

Record TaskInfo := { info_ID : string; info_WorkflowID : string; info_Spec : TaskSpec; info_TimeoutInSeconds : Z }.

Record ExecutableTask := { et_task : TaskInfo; et_exec : executor }.

Definition NewExecutableTask (task : TaskInfo) (exec : executor) : ExecutableTask := {| et_task := task; et_exec := exec |}.

(** The request [sendStatus] passes to [ReportResult]; its outcome is only
    logged. *)
Definition sendStatus (t : ExecutableTask) (status : Z) (taskResult : option TaskResult) : ResultRequest :=
  match taskResult with
  | None =>
      {| rq_WorkflowId := info_WorkflowID (et_task t); rq_TaskId := info_ID (et_task t); rq_Status := status;
         rq_ExitCode := 0; rq_Stdout := ""; rq_Stderr := ""; rq_Error := ""; rq_Duration := 0 |}
  | Some r =>
      {| rq_WorkflowId := info_WorkflowID (et_task t); rq_TaskId := info_ID (et_task t); rq_Status := status;
         rq_ExitCode := wrap32 (ExitCode r); rq_Stdout := Stdout r; rq_Stderr := Stderr r; rq_Error := res_Error r;
         rq_Duration := 0 |}
  end.

(** [time.Duration(t.task.TimeoutInSeconds) * time.Second] *)
Definition timeout (t : ExecutableTask) : Z := seconds (info_TimeoutInSeconds (et_task t)).

Definition running_report (t : ExecutableTask) : ResultRequest := sendStatus t TASK_REPORT_RUNNING None.

Definition final_status (result : TaskResult) : Z :=
  if negb (bool_decide (ExitCode result = 0%Z)) || negb (bool_decide (res_Error result = ""))
  then TASK_REPORT_FAILED else TASK_REPORT_SUCCEEDED.

(** The report after [Execute] returned without an error. *)
Definition final_report (t : ExecutableTask) (result : TaskResult) : ResultRequest :=
  sendStatus t (final_status result) (Some result).

(** [Do] when nothing comes between: the reports it sends, and its error. *)
Definition Do `{Json} (env : environment) (t : ExecutableTask) : list ResultRequest * option string :=
  let '(result, err, _) := Execute (et_exec t) env (info_Spec (et_task t)) (timeout t) in
  match err with
  | Some e => ([running_report t], Some ("execute task " +:+ info_ID (et_task t) +:+ ": " +:+ e))
  | None => ([running_report t; final_report t result], None)
  end.

(** The [TaskInfo] [DispatchTask] builds from a request. *)
Definition task_info (req : DispatchRequest) : TaskInfo := {|
  info_ID := dr_TaskId req; info_WorkflowID := dr_WorkflowId req;
  info_Spec := {| Type_ := ""; Payload := dr_Payload req |};
  info_TimeoutInSeconds := dr_TimeoutSeconds req;
|}.

(** ** Round trips *)

Lemma FromProto_final result :
  FromProtoTaskStatus (final_status result) = if successful result then TaskSucceeded else TaskFailed.
Proof.
  unfold final_status, successful. by destruct (bool_decide (ExitCode result = 0%Z)), (bool_decide (res_Error result = "")).
Qed.

(** C26. A report survives the trip to the control plane: for every execution of
    a task, the first request decodes to the task RUNNING; if the executor
    returned an error nothing else is sent; otherwise one more request is sent,
    and it decodes to the executor's result with its exit code as an int32 and
    the status SUCCEEDED exactly if the exit code is 0 and the error empty.
    The measured duration is not sent. *)
Theorem report_roundtrip `{Json} env t :
  let '(result, err, _) := Execute (et_exec t) env (info_Spec (et_task t)) (timeout t) in
  let '(reports, err') := Do env t in
  (∀ rq, rq ∈ reports → rq_WorkflowId rq = info_WorkflowID (et_task t) ∧ rq_TaskId rq = info_ID (et_task t)) ∧
  (is_Some err' ↔ is_Some err) ∧
  result_of_request <$> reports =
    {| res_Status := TaskRunning; ExitCode := 0; Stdout := ""; Stderr := ""; res_Error := ""; Duration := 0 |} ::
    match err with
    | Some _ => []
    | None =>
        [{| res_Status := if successful result then TaskSucceeded else TaskFailed; ExitCode := wrap32 (ExitCode result);
            Stdout := Stdout result; Stderr := Stderr result; res_Error := res_Error result; Duration := 0 |}]
    end.
Proof.
  unfold Do. destruct (Execute _ _ _ _) as [[result [e|]] calls].
  - split_and!; [|split; by eexists|done]. intros rq Hrq. by apply list_elem_of_singleton in Hrq as ->.
  - split_and!; [|split; by intros []|].
    + intros rq [->|Hrq]%elem_of_cons; [done|]. by apply list_elem_of_singleton in Hrq as ->.
    + simpl. unfold result_of_request at 2. unfold final_report. simpl. by rewrite FromProto_final.
Qed.

(** C27. A task survives the trip to the worker: the request the engine queues
    for a task whose timeout is a whole, non-negative number of seconds that
    fits an int64 of nanoseconds gives the worker the task's identifiers and payload, and
    exactly the task's timeout for the executor, float64 conversion included. *)
Theorem dispatch_roundtrip r (task : Task) (exec : executor) s :
  (0 ≤ s)%Z → int64_ok (s * Second) → Timeout task = seconds s →
  ∃ req, Request (job_of r task) = Some req ∧ dr_Type req = Type_ (Spec task) ∧
    info_ID (task_info req) = task_ID task ∧ info_WorkflowID (task_info req) = task_WorkflowID task ∧
    Payload (info_Spec (task_info req)) = Payload (Spec task) ∧
    timeout (NewExecutableTask (task_info req) exec) = Timeout task.
Proof.
  intros Hs Hok Ht. eexists. split; [done|]. split_and!; [done..|]. unfold timeout. simpl. rewrite Ht.
  unfold seconds at 2. rewrite (wrap64_id _ Hok), Duration_Seconds_whole by done. done.
Qed.

Definition sample_task : Task :=
  set_task_ID "t1" (task_of_definition {|
    td_Name := "fetch"; td_DependsOn := []; td_Type := "shell"; td_Payload := "payload"; td_MaxRetries := 0;
    td_RetryBackoffSeconds := 0; td_TimeoutSeconds := 90 |}).

Lemma dispatch_roundtrip_witness :
  ∃ req, Request (job_of {| ref_wf := ""; ref_task := "t1" |} sample_task) = Some req ∧
    timeout (NewExecutableTask (task_info req) ShellExecutor) = (90 * Second)%Z.
Proof.
  destruct (dispatch_roundtrip {| ref_wf := ""; ref_task := "t1" |} sample_task ShellExecutor 90)
    as (req & Hreq & _ & _ & _ & _ & Ht); [lia|vm_compute; split; congruence|reflexivity|].
  exists req. split; [exact Hreq|]. rewrite Ht. reflexivity.
Defined.
