(* ===== verification/WorkerService.v ===== *)
(** * The worker process

    [service/service.go], [service/unique.go], [service/tracked_task.go],
    [server/grpc_server.go] of the worker and [cmd/worker/main.go]: the tasks
    in flight ([unique]), the handlers of [Dispatch] and [CancelTasks], the
    heartbeat, and the execution of a task by a worker of the pool.

    The process is the pool of [WorkerPool] together with the handlers in
    progress and, for each worker of the pool inside [Do], an [attempt].  Each
    goroutine is a state machine; a step is one call of a method under its
    lock, one remote call or one execution.  A [context.CancelFunc] is the
    number of the context it cancels.  [ran] is the log of the commands run and
    the requests sent by the executors. *)

From stdpp Require Import base gmap strings list.
From Stdlib Require Import ZArith Lia.
From S2P Require Import Prelude Status Domain Jobs Server LinkedList GoHeap PriorityQueue WorkerPool Executors WorkerTask Config.

(** ** [unique] *)

(** The map, or a nil pointer. *)
Definition unique : Type := option (gmap string (option nat)).
Implicit Types (u : unique) (id : string).

Definition newUnique : unique := Some ∅.

Definition unique_Add id u : bool * unique :=
  match u with
  | None => (true, None)
  | Some items => match items !! id with
                  | None => (true, Some (<[id := None]> items))
                  | Some _ => (false, Some items)
                  end
  end.

Definition unique_Remove id u : unique := delete id <$> u.

Definition unique_SetCancel id (cancel : nat) u : unique := insert id (Some cancel) <$> u.

(** The function [Cancel] finds under the lock and then calls. *)
Definition unique_Cancel id u : option nat := items ← u; mjoin (items !! id).

(** ** The service *)

(** [trackedTask]; its closures capture the key. *)
Record trackedTask := { tk_key : string; tk_inner : ExecutableTask }.

#[export] Instance trackedTask_Task : Task trackedTask := λ _, retryBackoff.

(** [DispatchTask] from its beginning: about to read [suspended], to add the
    key, to look up the executor, to submit, to remove the key; returned. *)
Inductive dispatch_pc :=
  | DStart (req : DispatchRequest)
  | DAdd (req : DispatchRequest)
  | DGet (req : DispatchRequest)
  | DSubmit (t : trackedTask)
  | DRemove (key : string)
  | DDone (accepted : bool).

(** [CancelTasks]: the identifiers left and the answers; about to call a
    cancel function. *)
Inductive cancel_pc :=
  | CNext (ids : list string) (answers : gmap string bool)
  | CCall (ctx : nat) (id : string) (ids : list string) (answers : gmap string bool)
  | CDone (answers : gmap string bool).

(** A worker inside [trackedTask.Do]: about to create its context and set its
    cancel function; about to report RUNNING; to execute; to report the
    result; to return. *)
Inductive attempt :=
  | ASetCancel (t : trackedTask)
  | ARunning (t : trackedTask) (ctx : nat)
  | AExecute (t : trackedTask) (ctx : nat)
  | AReport (t : trackedTask) (ctx : nat) (result : TaskResult)
  | AReturn (ctx : nat) (err : bool).

(** [heartbeatLoop]: waiting for the ticker; in [sendHeartbeat]. *)
Inductive heart_pc := HWait | HBeat | HSuspend | HRegister | HResume.

Section service.
Context {Conn : Type} (NewClient : string → option Conn) `{J : Json}.

Record WorkerService := {
  workerPool : WorkerPool trackedTask;
  executionRegistry : Registry;
  clusterClient : GRPCClusterClient Conn;
  uniq : unique;
  node : WorkerNode;
  suspended : bool;
  attempts : gmap nat attempt;        (* by worker *)
  contexts : nat;                     (* contexts created so far *)
  cancelled : gset nat;
  dispatches : list dispatch_pc;
  cancels : list cancel_pc;
  heart : heart_pc;
  reported : list ResultRequest;      (* what reached the control plane *)
  ran : list (ExecutableTask * external_call);   (* what the executors did, in order *)
}.
Implicit Types (ws : WorkerService) (t : trackedTask) (i h : nat).

Definition set_pool v ws : WorkerService :=
  let 'Build_WorkerService _ r c u n s a x k d e h o j := ws in Build_WorkerService v r c u n s a x k d e h o j.
Definition set_client v ws : WorkerService :=
  let 'Build_WorkerService p r _ u n s a x k d e h o j := ws in Build_WorkerService p r v u n s a x k d e h o j.
Definition set_uniq v ws : WorkerService :=
  let 'Build_WorkerService p r c _ n s a x k d e h o j := ws in Build_WorkerService p r c v n s a x k d e h o j.
Definition set_suspended v ws : WorkerService :=
  let 'Build_WorkerService p r c u n _ a x k d e h o j := ws in Build_WorkerService p r c u n v a x k d e h o j.
Definition set_attempts v ws : WorkerService :=
  let 'Build_WorkerService p r c u n s _ x k d e h o j := ws in Build_WorkerService p r c u n s v x k d e h o j.
Definition set_contexts v ws : WorkerService :=
  let 'Build_WorkerService p r c u n s a _ k d e h o j := ws in Build_WorkerService p r c u n s a v k d e h o j.
Definition set_cancelled v ws : WorkerService :=
  let 'Build_WorkerService p r c u n s a x _ d e h o j := ws in Build_WorkerService p r c u n s a x v d e h o j.
Definition set_dispatches v ws : WorkerService :=
  let 'Build_WorkerService p r c u n s a x k _ e h o j := ws in Build_WorkerService p r c u n s a x k v e h o j.
Definition set_cancels v ws : WorkerService :=
  let 'Build_WorkerService p r c u n s a x k d _ h o j := ws in Build_WorkerService p r c u n s a x k d v h o j.
Definition set_heart v ws : WorkerService :=
  let 'Build_WorkerService p r c u n s a x k d e _ o j := ws in Build_WorkerService p r c u n s a x k d e v o j.
Definition set_reported v ws : WorkerService :=
  let 'Build_WorkerService p r c u n s a x k d e h _ j := ws in Build_WorkerService p r c u n s a x k d e h v j.
Definition set_ran v ws : WorkerService :=
  let 'Build_WorkerService p r c u n s a x k d e h o _ := ws in Build_WorkerService p r c u n s a x k d e h o v.

Definition NewWorkerService (node : WorkerNode) (pool : WorkerPool trackedTask) (registry : Registry)
    (client : GRPCClusterClient Conn) : WorkerService := {|
  workerPool := pool; executionRegistry := registry; clusterClient := client; uniq := newUnique; node := node;
  suspended := false; attempts := ∅; contexts := 0; cancelled := ∅; dispatches := []; cancels := [];
  heart := HWait; reported := []; ran := [];
|}.

(** ** Registration and start *)

Definition register_request (n : WorkerNode) : RegisterRequest := {|
  rr_WorkerId := node_ID n; rr_Address := Address n; rr_Labels := Labels n; rr_Capabilities := Capabilities n;
  rr_Capacity := wrap32 (Capacity n);
|}.

(** Whether [register] returned nil; [rpc] gives [Accepted], or fails. *)
Definition register (rpc : RegisterRequest → Conn → option bool) ws : bool * WorkerService :=
  let '(resp, c) := call NewClient (rpc (register_request (node ws))) (clusterClient ws) in
  (default false resp, set_client c ws).

(** [Start]: no pool without a registration. *)
Definition Start_service (rpc : RegisterRequest → Conn → option bool) ws : bool * WorkerService :=
  let '(ok, ws) := register rpc ws in
  if ok : bool then (true, set_pool (Start (workerPool ws)) ws) else (false, ws).

(** [main] up to serving; it panics when it cannot go on. *)
Definition worker_main (cfg : Worker.Config) (rpc : RegisterRequest → Conn → option bool) (t0 : Z)
    : outcome () WorkerService :=
  pool ← NewWorkerPool [WithWorkerCount (Worker.cfg_Pool cfg); WithCapacity 128] t0;
  match RegisterExecutors (Worker.cfg_Capabilities cfg) New with
  | (inl _, _) => Panic
  | (inr _, registry) =>
      let node := {| node_ID := Worker.cfg_ID cfg; Address := Worker.cfg_Address cfg; Labels := Worker.cfg_Labels cfg;
                     Capabilities := Worker.cfg_Capabilities cfg; Capacity := Worker.cfg_Capacity cfg; RunningTasks := 0;
                     LastHeartbeat := 0; node_status := WorkerAlive |} in
      let '(ok, ws) := Start_service rpc
        (NewWorkerService node pool registry (NewClusterClient (Worker.cfg_ControlPlane cfg))) in
      if ok : bool then Ret ws else Panic
  end.

(** ** The handlers *)

Definition set_dispatch h (pc : dispatch_pc) ws : WorkerService := set_dispatches (<[h := pc]> (dispatches ws)) ws.
Definition set_cancel h (pc : cancel_pc) ws : WorkerService := set_cancels (<[h := pc]> (cancels ws)) ws.

(** One step of [DispatchTask]; the answer is the [Accepted] of the RPC. *)
Definition DispatchTask h (pc : dispatch_pc) ws : option (outcome () WorkerService) :=
  match pc with
  | DStart req => Some (Ret (set_dispatch h (if suspended ws then DDone false else DAdd req) ws))
  | DAdd req =>
      let '(added, u) := unique_Add (dr_TaskId req) (uniq ws) in
      Some (Ret (set_dispatch h (if added : bool then DGet req else DDone true) (set_uniq u ws)))
  | DGet req =>
      Some (Ret (set_dispatch h
        (match Get (dr_Type req) (executionRegistry ws) with
         | inl _ => DDone false
         | inr executor =>
             DSubmit {| tk_key := dr_TaskId req; tk_inner := NewExecutableTask (task_info req) executor |}
         end) ws))
  | DSubmit t =>
      Some ('(ok, pool) ← TrySubmit t (workerPool ws);
            Ret (set_dispatch h (if ok : bool then DDone true else DRemove (tk_key t)) (set_pool pool ws)))
  | DRemove key => Some (Ret (set_dispatch h (DDone false) (set_uniq (unique_Remove key (uniq ws)) ws)))
  | DDone _ => None
  end.

(** One step of [CancelTasks]. *)
Definition CancelTasks h (pc : cancel_pc) ws : option WorkerService :=
  match pc with
  | CNext [] answers => Some (set_cancel h (CDone answers) ws)
  | CNext (id :: ids) answers =>
      match unique_Cancel id (uniq ws) with
      | None => Some (set_cancel h (CNext ids (<[id := false]> answers)) ws)
      | Some ctx => Some (set_cancel h (CCall ctx id ids answers) ws)
      end
  | CCall ctx id ids answers =>
      Some (set_cancel h (CNext ids (<[id := true]> answers)) (set_cancelled ({[ctx]} ∪ cancelled ws) ws))
  | CDone _ => None
  end.

(** ** Executing a task *)

Definition set_attempt i (a : attempt) ws : WorkerService := set_attempts (<[i := a]> (attempts ws)) ws.

(** [ReportResult]: a call with a cancelled context is not delivered. *)
Definition report (ctx : nat) (rq : ResultRequest) (delivered : bool) ws : option WorkerService :=
  if delivered && bool_decide (ctx ∈ cancelled ws) then None
  else
    let '(resp, c) := call NewClient (λ _, if delivered then Some () else None) (clusterClient ws) in
    Some (set_reported (match resp with Some _ => reported ws ++ [rq] | None => reported ws end) (set_client c ws)).

Inductive attempt_label :=
  | LSetCancel
  | LReport (delivered : bool)
  | LExecute (env : environment).

Definition attempt_next i (l : attempt_label) ws : option WorkerService :=
  match attempts ws !! i, l with
  | Some (ASetCancel t), LSetCancel =>
      let ctx := contexts ws in
      Some (set_attempt i (ARunning t ctx)
             (set_uniq (unique_SetCancel (tk_key t) ctx (uniq ws)) (set_contexts (S ctx) ws)))
  | Some (ARunning t ctx), LReport delivered =>
      ws ← report ctx (running_report (tk_inner t)) delivered ws; Some (set_attempt i (AExecute t ctx) ws)
  | Some (AExecute t ctx), LExecute env =>
      let '(result, err, calls) :=
        Execute (et_exec (tk_inner t)) env (info_Spec (et_task (tk_inner t))) (timeout (tk_inner t)) in
      Some (set_attempt i (match err with Some _ => AReturn ctx true | None => AReport t ctx result end)
             (set_ran (ran ws ++ (pair (tk_inner t) <$> calls)) ws))
  | Some (AReport t ctx result), LReport delivered =>
      ws ← report ctx (final_report (tk_inner t) result) delivered ws; Some (set_attempt i (AReturn ctx false) ws)
  | _, _ => None
  end.

(** ** The process *)

Inductive ws_label :=
  | WDispatch (req : DispatchRequest)       (* a call of [Dispatch] arrives *)
  | WDispatchStep (h : nat)
  | WCancel (ids : list string)             (* a call of [CancelTasks] *)
  | WCancelStep (h : nat)
  | WAttempt (i : nat) (l : attempt_label)
  | WPool (l : pool_label (T := trackedTask))
  | WTicker                                 (* ten seconds have passed *)
  | WHeartbeat (acknowledged : bool)
  | WHeart (rpc : RegisterRequest → Conn → option bool).   (* the next step of [sendHeartbeat] *)

(** The steps of the pool in this process: [main] neither cancels the context
    nor stops the pool, and only [DispatchTask] submits. *)
Definition pool_step_allowed (l : pool_label (T := trackedTask)) : bool :=
  match l with LStart | LCancelCtx | LSubmit _ | LTrySubmit _ _ | LStop | LStopStep _ => false | _ => true end.

(** What a step of a worker means to the service: entering [Do], leaving it
    with the attempt's verdict (its deferred [cancel] runs), and [OnDone],
    which removes the key unless there was an error. *)
Definition pool_effect (l : pool_label (T := trackedTask)) ws : option WorkerService :=
  match l with
  | LBusy i =>
      match workers (workerPool ws) !! i with
      | Some (WReceived job) => Some (set_attempt i (ASetCancel (job_task job)) ws)
      | _ => None
      end
  | LDo i err =>
      match attempts ws !! i with
      | Some (AReturn ctx err') =>
          if bool_decide (err = err')
          then Some (set_attempts (delete i (attempts ws)) (set_cancelled ({[ctx]} ∪ cancelled ws) ws)) else None
      | _ => None
      end
  | LOnDone i =>
      match workers (workerPool ws) !! i with
      | Some (WOnDone job err) =>
          Some (if err : bool then ws else set_uniq (unique_Remove (tk_key (job_task job)) (uniq ws)) ws)
      | _ => None
      end
  | _ => Some ws
  end.

(** [sendHeartbeat] once the heartbeat has been sent. *)
Definition heart_next (rpc : RegisterRequest → Conn → option bool) ws : option WorkerService :=
  match heart ws with
  | HSuspend => Some (set_heart HRegister (set_suspended true ws))
  | HRegister => let '(ok, ws) := register rpc ws in Some (set_heart (if ok : bool then HResume else HWait) ws)
  | HResume => Some (set_heart HWait (set_suspended false ws))
  | HWait | HBeat => None
  end.

(** The [HeartbeatRequest]: the worker and the tasks it runs. *)
Definition heartbeat_request ws : string * Z := (node_ID (node ws), BusyCount (workerPool ws)).

Definition ws_next (l : ws_label) ws : option (outcome () WorkerService) :=
  match l with
  | WDispatch req => Some (Ret (set_dispatches (dispatches ws ++ [DStart req]) ws))
  | WDispatchStep h => pc ← dispatches ws !! h; DispatchTask h pc ws
  | WCancel ids => Some (Ret (set_cancels (cancels ws ++ [CNext ids ∅]) ws))
  | WCancelStep h => pc ← cancels ws !! h; Ret <$> CancelTasks h pc ws
  | WAttempt i l => Ret <$> attempt_next i l ws
  | WPool l =>
      if pool_step_allowed l then
        ws' ← pool_effect l ws; r ← pool_next l (workerPool ws);
        Some (pool ← r; Ret (set_pool pool ws'))
      else None
  | WTicker => match heart ws with HWait => Some (Ret (set_heart HBeat ws)) | _ => None end
  | WHeartbeat acknowledged =>
      match heart ws with
      | HBeat =>
          let '(resp, c) := call NewClient (λ _, if acknowledged then Some () else None) (clusterClient ws) in
          Some (Ret (set_heart (match resp with Some _ => HWait | None => HSuspend end) (set_client c ws)))
      | _ => None
      end
  | WHeart rpc => Ret <$> heart_next rpc ws
  end.

(** Executions, with their labels. *)
Inductive ws_run ws0 : list ws_label → outcome () WorkerService → Prop :=
  | ws_run_nil : ws_run ws0 [] (Ret ws0)
  | ws_run_snoc tr ws l r : ws_run ws0 tr (Ret ws) → ws_next l ws = Some r → ws_run ws0 (tr ++ [l]) r.

Fixpoint ws_exec (tr : list ws_label) ws : option (outcome () WorkerService) :=
  match tr with
  | [] => Some (Ret ws)
  | l :: tr =>
      match ws_next l ws with
      | None => None
      | Some (Ret ws') => ws_exec tr ws'
      | Some r => match tr with [] => Some r | _ => None end
      end
  end.

Lemma ws_exec_run ws0 tr tr' ws r : ws_run ws0 tr (Ret ws) → ws_exec tr' ws = Some r → ws_run ws0 (tr ++ tr') r.
Proof.
  revert tr ws. induction tr' as [|l tr' IH]; intros tr ws Hrun Hex; simpl in Hex.
  { simplify_eq. by rewrite app_nil_r. }
  rewrite (app_assoc tr [l] tr' : tr ++ l :: tr' = (tr ++ [l]) ++ tr'). destruct (ws_next l ws) as [[ws'|[]|]|] eqn:Hn; [|destruct tr'; [|done]..|done].
  - eapply IH; [|exact Hex]. by econstructor.
  - simplify_eq. rewrite app_nil_r. by econstructor.
  - simplify_eq. rewrite app_nil_r. by econstructor.
Qed.
End service.
