(* ===== verification/Startup.v ===== *)
(** * Starting the two processes

    [cmd/control-plane/main.go] and [cmd/worker/main.go] from the command line
    to the listening server, with the registration of the gRPC services
    ([server/grpc_server.go] of both).  [System.sys_start] and
    [WorkerService.worker_main] are the states they serve from. *)

From stdpp Require Import base gmap strings list relations.
From Stdlib Require Import ZArith Lia.
From S2P Require Import Prelude Status Domain EventBus RetryQueue Registry Client Engine Config System.
From S2P Require Import Jobs Scheduler Server LinkedList GoHeap PriorityQueue WorkerPool Executors WorkerTask WorkerService.

(** A process has exited, panicked, or serves. *)
Inductive startup (P : Type) :=
  | Exited (code : nat)
  | Panicked
  | Serving (p : P).
Arguments Exited {P} code.
Arguments Panicked {P}.
Arguments Serving {P} p.

(** The services of the protocol; a server's list of them. *)
Inductive grpc_service := ClusterService | OrchestratorAPI | WorkerServiceAPI.

Definition RegisterServer (server : list grpc_service) : list grpc_service :=
  server ++ [ClusterService; OrchestratorAPI].

Definition RegisterGRPCServer (server : list grpc_service) : list grpc_service := server ++ [WorkerServiceAPI].

(** What a serving process has: its output so far, the address it listens on,
    its services and its state. *)
Record Process (S : Type) := {
  stdout : list string;
  listening : string;
  services : list grpc_service;
  state : S;
}.
Arguments stdout {S} _.
Arguments listening {S} _.
Arguments services {S} _.
Arguments state {S} _.

Section control_plane.
Context {H Conn : Type} (Unmarshal : string → option ControlPlane.Config) (Listen : string → bool).
Implicit Types (fs : files) (args : list string).

Definition main_control_plane fs args : startup (Process (System H Conn)) :=
  match ControlPlane.Load Unmarshal fs args with
  | LoadExits code => Exited code
  | LoadFailed _ => Panicked
  | Loaded cfg =>
      match NewBus (ControlPlane.cfg_BusCapacity cfg) with
      | Ret eventBus =>
          if Listen (ControlPlane.cfg_Port cfg) then
            Serving {| stdout := ControlPlane.Print cfg; listening := ControlPlane.cfg_Port cfg;
                       services := RegisterServer []; state := sys_start eventBus |}
          else Panicked
      | _ => Panicked
      end
  end.

Lemma NewBus_capacity {E HH} c (b : Bus E HH) :
  NewBus c = Ret b → (0 ≤ c)%Z ∧ bus_cap b = (if decide (c = 0%Z) then 128 else Z.to_nat c).
Proof.
  unfold NewBus. repeat case_decide; try done; intros [= <-]; simpl; split; try lia; by rewrite ?decide_True, ?decide_False.
Qed.

Lemma NewBus_panics {E HH} c : (c < 0)%Z → NewBus (E := E) (H := HH) c = Panic.
Proof. intros Hc. unfold NewBus. rewrite (decide_False (P := c = 0%Z)) by lia. by rewrite decide_True. Qed.

(** The control plane serves exactly when its configuration can be loaded, the
    capacity of the bus is not negative and it can listen; it then starts as
    [System] does, from a new bus with the configured capacity, 128 for 0. *)
Theorem main_control_plane_serves fs args p :
  main_control_plane fs args = Serving p ↔
  ∃ cfg bus, ControlPlane.Load Unmarshal fs args = Loaded cfg ∧ Listen (ControlPlane.cfg_Port cfg) = true ∧
    NewBus (ControlPlane.cfg_BusCapacity cfg) = Ret bus ∧
    p = {| stdout := ControlPlane.Print cfg; listening := ControlPlane.cfg_Port cfg;
           services := [ClusterService; OrchestratorAPI]; state := sys_start bus |}.
Proof.
  unfold main_control_plane. split.
  - destruct (ControlPlane.Load _ _ _) as [cfg| |]; [|done..]. destruct (NewBus _) as [bus| |] eqn:Hb; [|done..].
    destruct (Listen _) eqn:Hl; [|done]. intros [= <-]. by exists cfg, bus.
  - by intros (cfg & bus & -> & Hl & -> & ->); rewrite Hl.
Qed.
End control_plane.

Section worker.
Context `{W : World} {Conn : Type} (NewClient : string → option Conn) `{J : Json}.
Context (Unmarshal : string → option Worker.Config) (Listen : string → bool).
Implicit Types (fs : files) (args : list string) (rpc : RegisterRequest → Conn → option bool).

(** [n] and [t0] are the next identifier and the time of the pool's start. *)
Definition main_worker fs args (n : nat) rpc (t0 : Z) : startup (Process (WorkerService (Conn := Conn))) :=
  match (Worker.Load Unmarshal fs args n).1 with
  | LoadExits code => Exited code
  | LoadFailed _ => Panicked
  | Loaded cfg =>
      match worker_main NewClient cfg rpc t0 with
      | Ret workerService =>
          if Listen (Worker.cfg_Port cfg) then
            Serving {| stdout := Worker.Print cfg; listening := Worker.cfg_Port cfg; services := RegisterGRPCServer [];
                       state := workerService |}
          else Panicked
      | _ => Panicked
      end
  end.

Lemma worker_main_node cfg rpc t0 ws :
  worker_main NewClient cfg rpc t0 = Ret ws →
  node_ID (node ws) = Worker.cfg_ID cfg ∧ Address (node ws) = Worker.cfg_Address cfg ∧
  Capabilities (node ws) = Worker.cfg_Capabilities cfg ∧
  ∃ c, rpc (register_request (node ws)) c = Some true.
Proof.
  unfold worker_main. intros Hm. destruct (NewWorkerPool _ _) as [pool|[]|]; [|done..]. simpl in Hm.
  destruct (RegisterExecutors _ _) as [[e|names] registry]; [done|].
  unfold Start_service, register, call in Hm.
  destruct (getOrDial NewClient _) as [[conn|] c] eqn:Hc; simpl in Hm; [|done].
  destruct (default false (rpc _ conn)) eqn:Hr; [|done]. injection Hm as <-. simpl. split_and!; [done..|].
  exists conn. by destruct (rpc _ conn) as [[]|].
Qed.

(** A worker that serves has registered, under an identifier generated for this
    start of the process (the configuration file cannot set it), with the
    address and the capabilities of its configuration; it registers before it
    listens. *)
Theorem main_worker_serves fs args n rpc t0 p :
  main_worker fs args n rpc t0 = Serving p →
  node_ID (node (state p)) = uuid n ∧ services p = [WorkerServiceAPI] ∧ Listen (listening p) = true ∧
  ∃ cfg c, load_file Unmarshal fs args = Loaded cfg ∧ listening p = Worker.cfg_Port cfg ∧
    Address (node (state p)) = Worker.cfg_Address cfg ∧ Capabilities (node (state p)) = Worker.cfg_Capabilities cfg ∧
    rpc (register_request (node (state p))) c = Some true.
Proof.
  unfold main_worker, Worker.Load. destruct (load_file Unmarshal fs args) as [cfg| |] eqn:Hl; [|done..]. simpl.
  destruct (worker_main NewClient _ rpc t0) as [ws|[]|] eqn:Hm; [|done..]. destruct (Listen _) eqn:Hlis; [|done].
  intros [= <-]. destruct (worker_main_node _ _ _ _ Hm) as (Hid & Ha & Hcap & c & Hc). cbn [state services listening] in *.
  destruct cfg. simpl in *. split_and!; [done|done|done|]. eexists _, c. by split_and!.
Qed.
End worker.
