(* ===== verification/WorkerProps.v ===== *)
(** * What the worker process guarantees

    [flight_step] is the abstract specification of the tasks in flight: the
    keys in [unique] and the keys of the unfinished copies (jobs of the pool,
    and handlers that have added their key and not yet submitted or given
    up).  Every step of [WorkerService] is a step of it ([ws_step_ok]), so at
    most one copy of a task exists at any time; a key that is in [unique]
    without a copy stays there for ever. *)

From stdpp Require Import base gmap strings list.
From Stdlib Require Import ZArith Lia.
From S2P Require Import Prelude Status Domain Jobs Server LinkedList GoHeap PriorityQueue WorkerPool PoolProps Config.
From S2P Require Import Executors WorkerTask WorkerService.

#[local] Ltac keys_solve := rewrite ?fmap_cons, ?app_nil_l; simpl; rewrite <-?Permutation_middle; reflexivity.

(** ** The abstract specification *)

Definition flight : Type := gmap string (option nat) * list string.

(** A key is added with its copy, removed with its copy, or loses its copy;
    otherwise keys are not lost and the copies stay. *)
Inductive flight_step : flight → flight → Prop :=
  | flight_stay items items' live live' :
      (∀ k, is_Some (items !! k) → is_Some (items' !! k)) → live ≡ₚ live' → flight_step (items, live) (items', live')
  | flight_add items live live' k :
      items !! k = None → live' ≡ₚ k :: live → flight_step (items, live) (<[k := None]> items, live')
  | flight_remove items live live' k :
      live ≡ₚ k :: live' → flight_step (items, live) (delete k items, live')
  | flight_drop items live live' k :
      live ≡ₚ k :: live' → flight_step (items, live) (items, live').

Definition flight_ok (f : flight) : Prop := NoDup f.2 ∧ ∀ k, k ∈ f.2 → is_Some (f.1 !! k).

(** A key without a copy. *)
Definition leaked (k : string) (f : flight) : Prop := is_Some (f.1 !! k) ∧ k ∉ f.2.

Lemma flight_step_ok f f' : flight_step f f' → flight_ok f → flight_ok f'.
Proof.
  intros Hstep [Hnd Hin]. unfold flight_ok. destruct Hstep as [items items' live live' Hit Hp|items live live' k Hk Hp|items live live' k Hp|items live live' k Hp];
    simpl in *; split.
  - by rewrite <-Hp.
  - intros k. rewrite <-Hp. auto.
  - rewrite Hp. constructor; [|done]. intros Hx%Hin. rewrite Hk in Hx. by destruct Hx.
  - intros k'. rewrite Hp. intros [->|Hk']%elem_of_cons; [rewrite lookup_insert_eq; eauto|].
    destruct (decide (k' = k)) as [->|]; [rewrite lookup_insert_eq; eauto|rewrite lookup_insert_ne by done; auto].
  - rewrite Hp in Hnd. by apply NoDup_cons in Hnd as [_ ?].
  - intros k' Hk'. rewrite Hp in Hnd. apply NoDup_cons in Hnd as [Hn _].
    rewrite lookup_delete_ne by (by intros ->). apply Hin. rewrite Hp. by right.
  - rewrite Hp in Hnd. by apply NoDup_cons in Hnd as [_ ?].
  - intros k' Hk'. apply Hin. rewrite Hp. by right.
Qed.

Lemma flight_step_leaked f f' k : flight_step f f' → leaked k f → leaked k f'.
Proof.
  intros Hstep [Hs Hn]. unfold leaked. destruct Hstep as [items items' live live' Hit Hp|items live live' k' Hk Hp|items live live' k' Hp|items live live' k' Hp];
    simpl in *.
  - rewrite <-Hp. auto.
  - assert (k ≠ k') as Hne by (intros ->; rewrite Hk in Hs; by destruct Hs).
    rewrite Hp, lookup_insert_ne by done. split; [done|]. by rewrite not_elem_of_cons.
  - rewrite Hp, not_elem_of_cons in Hn. destruct Hn as [Hne Hn]. by rewrite lookup_delete_ne by done.
  - rewrite Hp, not_elem_of_cons in Hn. by destruct Hn.
Qed.

(** ** The process refines it *)

Section props.
Context {Conn : Type} (NewClient : string → option Conn) `{J : Json}.
Implicit Types (ws : WorkerService (Conn := Conn)) (l : list (PriorityQueue.Job trackedTask)) (h i : nat).

(** The key a handler holds between [Add] and its submission or [Remove]. *)
Definition handler_key (pc : dispatch_pc) : list string :=
  match pc with
  | DGet req => [dr_TaskId req]
  | DSubmit t => [tk_key t]
  | DRemove key => [key]
  | DStart _ | DAdd _ | DDone _ => []
  end.

Definition job_keys (jobs : list (PriorityQueue.Job trackedTask)) : list string := tk_key <$> (job_task <$> jobs).

Definition in_flight ws l : flight :=
  (default ∅ (uniq ws), job_keys (all_jobs (workerPool ws) l) ++ concat (handler_key <$> dispatches ws)).

Record ws_inv ws l : Prop := {
  wi_pool : pool_inv (workerPool ws) l;
  wi_running : stop_calls (workerPool ws) = [];
  wi_uniq : is_Some (uniq ws);
}.

Lemma running_no_panic ws l lab : ws_inv ws l → ¬ may_panic lab (workerPool ws).
Proof. intros [Hp Hs _]. by eapply unstopped_never_panics. Qed.

Lemma running_open ws l : ws_inv ws l → chan_closed (workerPool ws) = false.
Proof.
  intros [Hp Hs _]. destruct (pi_stops _ _ Hp) as [_ Hc]. rewrite Hs in Hc.
  destruct (chan_closed (workerPool ws)); [|done]. destruct (Hc eq_refl) as (j & pc & Hj & _). by rewrite lookup_nil in Hj.
Qed.

(** The guarantee of one step. *)
Definition ws_ok ws l (r : outcome () (WorkerService (Conn := Conn))) : Prop :=
  ∃ ws' l', r = Ret ws' ∧ ws_inv ws' l' ∧ flight_step (in_flight ws l) (in_flight ws' l').

(** A step that touches neither the pool, nor the handlers, nor the keys. *)
Lemma ws_same ws l ws' :
  ws_inv ws l → workerPool ws' = workerPool ws → uniq ws' = uniq ws →
  concat (handler_key <$> dispatches ws') ≡ₚ concat (handler_key <$> dispatches ws) → ws_ok ws l (Ret ws').
Proof.
  intros [Hp Hs Hu] Hpool Huniq Hd. exists ws', l. split; [done|].
  split; [split; congruence|]. unfold in_flight. rewrite Hpool, Huniq. apply flight_stay; [done|]. by rewrite Hd.
Qed.

Lemma DispatchTask_ok ws l h pc r :
  ws_inv ws l → dispatches ws !! h = Some pc → DispatchTask h pc ws = Some r → ws_ok ws l r.
Proof.
  intros Hinv Hh Hs. pose proof Hinv as [Hp Hsc [items Hu]].
  destruct (concat_insert handler_key (dispatches ws) h pc Hh) as (R & HR & Hnew).
  assert (∀ pc' u p, dispatches (set_dispatch h pc' (set_uniq u (set_pool p ws))) = <[h := pc']> (dispatches ws)) as Hds
    by (intros; by destruct ws).
  assert (∀ pc', handler_key pc' = handler_key pc → ws_ok ws l (Ret (set_dispatch h pc' ws))) as Hsame.
  { intros pc' Hk. apply ws_same; [done|by destruct ws|by destruct ws|].
    specialize (Hnew pc'). rewrite HR, <-Hk. by destruct ws. }
  destruct pc as [req|req|req|t|key|accepted]; simpl in Hs; [| | | | |done].
  - injection Hs as <-. apply Hsame. by destruct (suspended ws).
  - rewrite Hu in Hs. simpl in Hs. destruct (items !! dr_TaskId req) as [c|] eqn:Hk; injection Hs as <-.
    + replace (set_uniq (Some items) ws) with ws by (destruct ws; simpl in *; congruence). by apply Hsame.
    + eexists _, l. split; [done|]. split; [by destruct ws; split|].
      specialize (Hnew (DGet req)). unfold in_flight. rewrite Hu. destruct ws; simpl in *. subst. simpl.
      apply flight_add; [done|]. rewrite Hnew, HR. cbn [handler_key]. keys_solve.
  - injection Hs as <-. unfold Get. destruct (executionRegistry ws !! dr_Type req) as [ex|].
    + by apply Hsame.
    + eexists _, l. split; [done|]. split; [by destruct ws; split|].
      specialize (Hnew (DDone false)). unfold in_flight. destruct ws; simpl in *.
      apply (flight_drop _ _ _ (dr_TaskId req)). rewrite Hnew, HR. cbn [handler_key]. keys_solve.
  - unfold TrySubmit in Hs. pose proof (running_open ws l Hinv) as Hopen. pose proof (pi_clock _ _ Hp) as Hclk.
    pose proof (send_ok {| job_task := t; job_waitToTime := 0 |} _ l Hp Hclk Hopen) as Hsend.
    destruct (send _ _) as [r'|].
    + destruct Hsend as (wp' & -> & Hp' & Hall & Hwp'). simpl in Hs. injection Hs as <-.
      eexists _, l. split; [done|]. split.
      { destruct ws as [p0]; split; simpl in *; [done| |by eexists]. subst wp'. by destruct p0. }
      specialize (Hnew (DDone true)). unfold in_flight, job_keys. destruct ws; simpl in *.
      apply flight_stay; [done|]. rewrite Hall, Hnew, HR. cbn [handler_key]. keys_solve.
    + simpl in Hs. injection Hs as <-.
      replace (set_pool (workerPool ws) ws) with ws by by destruct ws. by apply Hsame.
  - injection Hs as <-. eexists _, l. split; [done|]. split.
    { destruct ws; split; simpl in *; [done|done|]. rewrite Hu. by eexists. }
    specialize (Hnew (DDone false)). unfold in_flight. rewrite Hu. destruct ws; simpl in *. subst. simpl.
    apply flight_remove. rewrite Hnew, HR. cbn [handler_key]. keys_solve.
Qed.

Lemma CancelTasks_same ws h pc ws' :
  CancelTasks h pc ws = Some ws' →
  workerPool ws' = workerPool ws ∧ uniq ws' = uniq ws ∧ dispatches ws' = dispatches ws.
Proof. intros Hs. destruct ws. unfold CancelTasks, set_cancel in Hs. simpl in Hs. by go_cases. Qed.

Lemma heart_next_same ws rpc ws' :
  heart_next NewClient rpc ws = Some ws' →
  workerPool ws' = workerPool ws ∧ uniq ws' = uniq ws ∧ dispatches ws' = dispatches ws.
Proof. intros Hs. destruct ws. unfold heart_next, register in Hs. simpl in Hs. by go_cases. Qed.

Lemma report_same ctx rq delivered ws ws' :
  report NewClient ctx rq delivered ws = Some ws' →
  workerPool ws' = workerPool ws ∧ uniq ws' = uniq ws ∧ dispatches ws' = dispatches ws ∧
  attempts ws' = attempts ws ∧ contexts ws' = contexts ws ∧ cancelled ws' = cancelled ws ∧ ran ws' = ran ws.
Proof. intros Hs. destruct ws. unfold report in Hs. simpl in Hs. by go_cases. Qed.

(** A step of an attempt only sets a cancel function. *)
Lemma attempt_next_same ws i la ws' :
  attempt_next NewClient i la ws = Some ws' →
  workerPool ws' = workerPool ws ∧ dispatches ws' = dispatches ws ∧
  (uniq ws' = uniq ws ∨ ∃ k ctx, uniq ws' = unique_SetCancel k ctx (uniq ws)).
Proof.
  unfold attempt_next. intros Hs.
  destruct (attempts ws !! i) as [[t|t ctx|t ctx|t ctx res|]|], la as [|delivered|env]; try done.
  - injection Hs as <-. destruct ws. simpl. eauto 6.
  - destruct (report _ _ _ _ _) as [ws1|] eqn:Hr; [|done]. apply report_same in Hr as (Hp & Hu & Hd & _).
    injection Hs as <-. destruct ws1; simpl in *. auto.
  - destruct (Execute _ _ _ _) as [[res err] calls]. injection Hs as <-. destruct ws. simpl. auto.
  - destruct (report _ _ _ _ _) as [ws1|] eqn:Hr; [|done]. apply report_same in Hr as (Hp & Hu & Hd & _).
    injection Hs as <-. destruct ws1; simpl in *. auto.
Qed.

(** The keys after a step of the pool. *)
Lemma pool_effect_same ws lab ws' :
  pool_effect lab ws = Some ws' →
  workerPool ws' = workerPool ws ∧ dispatches ws' = dispatches ws ∧
  uniq ws' = foldr (λ t, unique_Remove (tk_key t)) (uniq ws) (finishes lab (workerPool ws)).
Proof.
  unfold pool_effect, finishes. intros Hs. destruct lab; simplify_eq; try done.
  - destruct (workers (workerPool ws) !! i) as [[]|]; simplify_eq. by destruct ws.
  - destruct (attempts ws !! i) as [[]|]; try done. case_bool_decide; simplify_eq. by destruct ws.
  - destruct (workers (workerPool ws) !! i) as [[]|]; simplify_eq. destruct err; simplify_eq; by destruct ws.
Qed.

Lemma finishes_at_most_one lab (wp : WorkerPool trackedTask) : finishes lab wp = [] ∨ ∃ t, finishes lab wp = [t].
Proof. unfold finishes. repeat case_match; eauto. Qed.

Lemma pool_step_accepts lab : pool_step_allowed lab = true → accepts lab = [].
Proof. by destruct lab. Qed.

Lemma pool_step_ok ws l lab ws1 r :
  ws_inv ws l → pool_step_allowed lab = true → pool_effect lab ws = Some ws1 →
  pool_next lab (workerPool ws) = Some r → ws_ok ws l (pool ← r; Ret (set_pool pool ws1)).
Proof.
  intros Hinv Hallow Heff Hnext. pose proof Hinv as [Hp Hsc Hu].
  destruct (pool_next_ok lab _ l r Hp Hnext) as [[_ Hc]|(wp' & l' & -> & Hp' & Hall)].
  { by destruct (running_no_panic ws l lab Hinv). }
  assert (stop_calls wp' = []) as Hsc'.
  { rewrite <-Hsc. eapply pool_next_stop_calls; [|exact Hnext]. by destruct lab. }
  destruct (pool_effect_same ws lab ws1 Heff) as (Hpool & Hdisp & Huniq).
  rewrite (pool_step_accepts lab Hallow), app_nil_r in Hall. apply (fmap_Permutation tk_key) in Hall.
  rewrite fmap_app in Hall. fold (job_keys (all_jobs wp' l')) (job_keys (all_jobs (workerPool ws) l)) in Hall.
  simpl. exists (set_pool wp' ws1), l'. split; [done|].
  assert (uniq (set_pool wp' ws1) = uniq ws1 ∧ dispatches (set_pool wp' ws1) = dispatches ws ∧
    workerPool (set_pool wp' ws1) = wp') as (Hu1 & Hd1 & Hw1) by by destruct ws1.
  unfold in_flight. split; [split; rewrite ?Hw1, ?Hu1; [done|done|]|rewrite Hu1, Hd1, Hw1].
  - rewrite Huniq. destruct (finishes_at_most_one lab (workerPool ws)) as [->|[t ->]]; [done|]. by apply fmap_is_Some.
  - rewrite Huniq. destruct (finishes_at_most_one lab (workerPool ws)) as [Hf|[t Hf]]; rewrite Hf in *; simpl in *.
    + apply flight_stay; [done|]. by rewrite <-Hall, app_nil_r.
    + destruct Hu as [items Hu]. rewrite Hu. simpl. apply flight_remove.
      rewrite <-Hall, <-app_assoc. simpl. by rewrite <-Permutation_middle.
Qed.

(** Every step of the process is a step of the specification, and no step
    panics. *)
Lemma ws_step_ok ws l lab r :
  ws_inv ws l → ws_next NewClient lab ws = Some r → ws_ok ws l r.
Proof.
  intros Hinv Hs. destruct lab as [req|h|ids|h|i la|lab| |acknowledged|rpc]; simpl in Hs.
  - injection Hs as <-. apply ws_same; [done|by destruct ws|by destruct ws|].
    destruct ws. simpl. rewrite fmap_app, concat_app. simpl. by rewrite app_nil_r.
  - destruct (dispatches ws !! h) as [pc|] eqn:Hh; [|done]. by eapply DispatchTask_ok.
  - injection Hs as <-. apply ws_same; [done|by destruct ws..|by destruct ws].
  - destruct (cancels ws !! h) as [pc|]; [|done]. simpl in Hs.
    destruct (CancelTasks h pc ws) as [ws'|] eqn:Hc; [|done]. injection Hs as <-.
    apply CancelTasks_same in Hc as (? & ? & Hd). apply ws_same; [done..|by rewrite Hd].
  - destruct (attempt_next NewClient i la ws) as [ws'|] eqn:Ha; [|done]. injection Hs as <-.
    apply attempt_next_same in Ha as (Hp & Hd & [Hu|(k & ctx & Hu)]); [apply ws_same; [done..|by rewrite Hd]|].
    destruct Hinv as [Hpi Hsc [items Hui]]. rewrite Hui in Hu. simpl in Hu.
    exists ws', l. split; [done|]. split; [split; [congruence|congruence|rewrite Hu; by eexists]|].
    unfold in_flight. rewrite Hp, Hd, Hu, Hui. simpl. apply flight_stay; [|done].
    intros k' Hk'. destruct (decide (k' = k)) as [->|]; [rewrite lookup_insert_eq; eauto|by rewrite lookup_insert_ne].
  - destruct (pool_step_allowed lab) eqn:Hallow; [|done].
    destruct (pool_effect lab ws) as [ws1|] eqn:Heff; [|done]. simpl in Hs.
    destruct (pool_next lab (workerPool ws)) as [r'|] eqn:Hnext; [|done]. injection Hs as <-. by eapply pool_step_ok.
  - destruct (heart ws); try done. injection Hs as <-. apply ws_same; [done|by destruct ws..|by destruct ws].
  - destruct (heart ws); try done. destruct (call _ _ _) as [resp c]. injection Hs as <-.
    apply ws_same; [done|by destruct ws..|by destruct ws].
  - destruct (heart_next NewClient rpc ws) as [ws'|] eqn:Hh; [|done]. injection Hs as <-.
    apply heart_next_same in Hh as (? & ? & Hd). apply ws_same; [done..|by rewrite Hd].
Qed.

(** ** Executions of the process *)

Lemma worker_main_inv cfg rpc t0 ws :
  (0 ≤ t0)%Z → worker_main NewClient cfg rpc t0 = Ret ws → ws_inv ws [] ∧ (in_flight ws []) = (∅, []).
Proof.
  intros Ht0. unfold worker_main.
  destruct (NewWorkerPool [WithWorkerCount (Worker.cfg_Pool cfg); WithCapacity 128] t0) as [wp|[]|] eqn:Hnew; [|done..].
  cbn [mbind outcome_bind]. destruct (NewWorkerPool_inv _ _ _ Ht0 Hnew) as [Hinv Hall].
  assert (jobs_loop wp = JNone ∧ retry_loop wp = RNone ∧ stop_calls wp = []) as (Hj & Hr & Hsc).
  { unfold NewWorkerPool in Hnew. destruct (foldl _ _ _) as [n c]. case_decide; [done|]. by injection Hnew as <-. }
  destruct (RegisterExecutors (Worker.cfg_Capabilities cfg) New) as [[e|reg] registry]; [done|].
  unfold Start_service, register. destruct (call _ _ _) as [resp c]. destruct (default false resp); [|done].
  intros [= <-]. simpl.
  assert (pool_next LStart wp = Some (Ret (Start wp))) as Hnext by (simpl; by rewrite Hj, Hr).
  destruct (pool_next_ok LStart wp [] _ Hinv Hnext) as [[? _]|(wp' & l' & [= <-] & Hp' & Hall')]; [done|].
  assert (stop_calls (Start wp) = []) as Hsc' by (rewrite <-Hsc; by destruct wp).
  assert (l' = []) as ->.
  { eapply represents_inj; [apply Hp'|]. replace (jobsQ (Start wp)) with (jobsQ wp) by by destruct wp. apply Hinv. }
  rewrite Hall in Hall'. simpl in Hall'. rewrite !app_nil_r in Hall'. symmetry in Hall'. apply Permutation_nil_l, eq_sym in Hall'.
  split; [split; [done|done|by eexists]|]. unfold in_flight, job_keys. simpl. by rewrite Hall'.
Qed.

Lemma ws_run_inv ws0 l0 tr r :
  ws_inv ws0 l0 → flight_ok (in_flight ws0 l0) → ws_run NewClient ws0 tr r →
  match r with Ret ws => ∃ l, ws_inv ws l ∧ flight_ok (in_flight ws l) | _ => False end.
Proof.
  intros Hinv0 Hok0. induction 1 as [|tr ws lab r _ (l & Hinv & Hok) Hnext]; [eauto|].
  destruct (ws_step_ok ws l lab r Hinv Hnext) as (ws' & l' & -> & Hinv' & Hstep).
  exists l'. split; [done|]. by eapply flight_step_ok.
Qed.

Lemma worker_run_inv cfg rpc t0 ws0 tr r :
  (0 ≤ t0)%Z → worker_main NewClient cfg rpc t0 = Ret ws0 → ws_run NewClient ws0 tr r →
  match r with Ret ws => ∃ l, ws_inv ws l ∧ flight_ok (in_flight ws l) | _ => False end.
Proof.
  intros Ht0 Hmain Hrun. destruct (worker_main_inv _ _ _ _ Ht0 Hmain) as [Hinv Hf].
  apply (ws_run_inv ws0 [] tr); [done| |done]. rewrite Hf. split; [constructor|]. intros k Hk. by apply elem_of_nil in Hk.
Qed.

(** C21. A worker never has two copies of a task: in every interleaving of
    dispatches (repeated and concurrent ones included), executions, retries,
    cancellations and heartbeats, the keys of the unfinished jobs and of the
    dispatches in progress are distinct and all marked in [unique]; so no two
    workers of the pool ever execute the same task.  No step panics. *)
Theorem at_most_one_copy cfg rpc t0 ws0 tr r :
  (0 ≤ t0)%Z → worker_main NewClient cfg rpc t0 = Ret ws0 → ws_run NewClient ws0 tr r →
  match r with
  | Ret ws =>
      ∃ l items, represents (jobsQ (workerPool ws)) l ∧ uniq ws = Some items ∧
        (let copies := job_keys (all_jobs (workerPool ws) l) ++ concat (handler_key <$> dispatches ws) in
         NoDup copies ∧ ∀ k, k ∈ copies → is_Some (items !! k)) ∧
        ∀ i j job job', workers (workerPool ws) !! i = Some (WDo job) → workers (workerPool ws) !! j = Some (WDo job') →
          tk_key (job_task job) = tk_key (job_task job') → i = j
  | Err _ | Panic => False
  end.
Proof.
  intros Ht0 Hmain Hrun. pose proof (worker_run_inv _ _ _ _ _ _ Ht0 Hmain Hrun) as Hinv.
  destruct r as [ws| |]; [|done..]. destruct Hinv as (l & [Hp Hsc [items Hu]] & Hnd & Hin).
  unfold in_flight in Hnd, Hin. rewrite Hu in Hin. simpl in Hnd, Hin.
  exists l, items. split_and!; try done; [apply Hp|].
  intros i j job job' Hi Hj Hk. destruct (decide (i = j)) as [|Hne]; [done|exfalso].
  apply NoDup_app in Hnd as (Hnd & _). unfold job_keys, all_jobs in Hnd. rewrite !fmap_app in Hnd.
  apply NoDup_app in Hnd as (_ & _ & Hnd). apply NoDup_app in Hnd as (Hnd & _).
  destruct (concat_insert held (workers (workerPool ws)) i _ Hi) as (R & HR & Hnew).
  assert (<[i := WSelect]> (workers (workerPool ws)) !! j = Some (WDo job')) as Hj' by by rewrite list_lookup_insert_ne.
  destruct (concat_insert held _ j _ Hj') as (R' & HR' & _).
  rewrite (Hnew WSelect) in HR'. simpl in HR'. rewrite HR, HR' in Hnd. simpl in Hnd. rewrite Hk in Hnd.
  apply NoDup_cons in Hnd as [Hn _]. apply Hn. left.
Qed.

(** C23. A key left in [unique] without a copy of its task stays there for ever,
    and no later dispatch, which is answered as accepted, makes the task run:
    no copy of it ever exists again. *)
Theorem leaked_key_stays cfg rpc t0 ws0 tr ws l items k tr' r :
  (0 ≤ t0)%Z → worker_main NewClient cfg rpc t0 = Ret ws0 → ws_run NewClient ws0 tr (Ret ws) →
  represents (jobsQ (workerPool ws)) l → uniq ws = Some items → is_Some (items !! k) →
  k ∉ job_keys (all_jobs (workerPool ws) l) ++ concat (handler_key <$> dispatches ws) →
  ws_run NewClient ws tr' r →
  match r with
  | Ret ws' =>
      ∃ l' items', represents (jobsQ (workerPool ws')) l' ∧ uniq ws' = Some items' ∧
        is_Some (items' !! k) ∧ (unique_Add k (uniq ws')).1 = false ∧
        k ∉ job_keys (all_jobs (workerPool ws') l') ++ concat (handler_key <$> dispatches ws')
  | Err _ | Panic => False
  end.
Proof.
  intros Ht0 Hmain Hrun Hl Hu Hs Hn Hrun'.
  destruct (worker_run_inv _ _ _ _ _ _ Ht0 Hmain Hrun) as (l0 & Hinv0 & _).
  assert (l0 = l) as -> by (eapply represents_inj; [apply Hinv0|done]).
  assert (leaked k (in_flight ws l)) as Hleak by (unfold in_flight; rewrite Hu; by split).
  assert (match r with Ret ws' => ∃ l', ws_inv ws' l' ∧ leaked k (in_flight ws' l') | _ => False end) as Hr.
  { clear Hl Hu Hs Hn. induction Hrun' as [|tr' ws1 lab r _ (l1 & Hinv1 & Hk1) Hnext]; [eauto|].
    destruct (ws_step_ok ws1 l1 lab r Hinv1 Hnext) as (ws' & l' & -> & Hinv' & Hstep).
    exists l'. split; [done|]. by eapply flight_step_leaked. }
  destruct r as [ws'| |]; [|done..]. destruct Hr as (l' & [Hp' _ [items' Hu']] & Hs' & Hn').
  unfold in_flight in Hs', Hn'. rewrite Hu' in Hs'. simpl in Hs', Hn'.
  exists l', items'. split_and!; [apply Hp'|done|done| |done].
  rewrite Hu'. simpl. by destruct Hs' as [c ->].
Qed.

(** ** Where reports come from *)

Definition tasks_of ws l : list trackedTask := job_task <$> all_jobs (workerPool ws) l.

Lemma tasks_of_same ws l ws' l' :
  ws_inv ws l → ws_inv ws' l' → workerPool ws' = workerPool ws → tasks_of ws' l' = tasks_of ws l.
Proof.
  intros [Hp _ _] [Hp' _ _] He. unfold tasks_of. rewrite He in Hp' |- *.
  assert (l' = l) as ->; [|done]. eapply represents_inj; [apply Hp'|apply Hp].
Qed.

(** A step of the pool, other than accepting a job, brings no task into it. *)
Lemma pool_step_tasks ws l lab ws' l' t :
  ws_inv ws l → ws_inv ws' l' → pool_step_allowed lab = true →
  pool_next lab (workerPool ws) = Some (Ret (workerPool ws')) → t ∈ tasks_of ws' l' → t ∈ tasks_of ws l.
Proof.
  intros [Hp _ _] [Hp' _ _] Hallow Hnext Ht.
  destruct (pool_next_ok lab _ l _ Hp Hnext) as [[[=] _]|(wp' & l'' & [= <-] & Hp'' & Hall)].
  assert (l' = l'') as -> by (eapply represents_inj; [apply Hp'|apply Hp'']).
  rewrite (pool_step_accepts lab Hallow), app_nil_r in Hall. unfold tasks_of in *. rewrite <-Hall. apply elem_of_app. by left.
Qed.

(** A step brings no task into the pool but the one a handler submits. *)
Lemma ws_step_tasks ws l lab ws' l' t :
  ws_inv ws l → ws_next NewClient lab ws = Some (Ret ws') → ws_inv ws' l' → t ∈ tasks_of ws' l' →
  t ∈ tasks_of ws l ∨ ∃ h, dispatches ws !! h = Some (DSubmit t).
Proof.
  intros Hinv Hs Hinv' Ht. pose proof Hinv as [Hp Hsc Hu].
  assert (workerPool ws' = workerPool ws → t ∈ tasks_of ws l ∨ ∃ h, dispatches ws !! h = Some (DSubmit t)) as Hsame.
  { intros He. left. by rewrite <-(tasks_of_same ws l ws' l'). }
  destruct lab as [req|h|ids|h|i la|lab| |acknowledged|rpc]; simpl in Hs.
  - injection Hs as <-. apply Hsame. by destruct ws.
  - destruct (dispatches ws !! h) as [pc|] eqn:Hh; [|done].
    destruct pc as [req|req|req|t'|key|accepted]; simpl in Hs; [| | | | |done].
    + injection Hs as <-. apply Hsame. by destruct ws.
    + destruct (unique_Add _ _). injection Hs as <-. apply Hsame. by destruct ws.
    + injection Hs as <-. apply Hsame. by destruct ws.
    + unfold TrySubmit in Hs. pose proof (pi_clock _ _ Hp) as Hclk.
      pose proof (send_ok {| job_task := t'; job_waitToTime := 0 |} _ l Hp Hclk (running_open ws l Hinv)) as Hsend.
      destruct (send _ _) as [r'|]; simpl in Hs.
      * destruct Hsend as (wp' & -> & Hp' & Hall & _). simpl in Hs. injection Hs as <-.
        assert (workerPool (set_dispatch h (DDone true) (set_pool wp' ws)) = wp') as Hw by by destruct ws.
        destruct Hinv' as [Hp'' _ _]. rewrite Hw in Hp''. unfold tasks_of in Ht. rewrite Hw in Ht.
        assert (l' = l) as -> by (eapply represents_inj; [apply Hp''|apply Hp']). rewrite Hall in Ht. simpl in Ht.
        apply elem_of_cons in Ht as [->|Ht]; eauto.
      * injection Hs as <-. apply Hsame. by destruct ws.
    + injection Hs as <-. apply Hsame. by destruct ws.
  - injection Hs as <-. apply Hsame. by destruct ws.
  - destruct (cancels ws !! h) as [pc|]; [|done]. simpl in Hs.
    destruct (CancelTasks h pc ws) eqn:Hc; [|done]. injection Hs as <-. by apply Hsame, (CancelTasks_same ws h pc).
  - destruct (attempt_next NewClient i la ws) eqn:Ha; [|done]. injection Hs as <-. apply Hsame.
    by apply attempt_next_same in Ha as (? & _).
  - destruct (pool_step_allowed lab) eqn:Hallow; [|done].
    destruct (pool_effect lab ws) as [ws1|] eqn:Heff; [|done]. simpl in Hs.
    destruct (pool_next lab (workerPool ws)) as [r'|] eqn:Hnext; [|done]. injection Hs as Hs.
    destruct r' as [wp'|[]|]; [|done..]. simpl in Hs. injection Hs as <-.
    left. eapply pool_step_tasks; eauto. rewrite Hnext. by destruct ws1.
  - destruct (heart ws); try done. injection Hs as <-. apply Hsame. by destruct ws.
  - destruct (heart ws); try done. destruct (call _ _ _). injection Hs as <-. apply Hsame. by destruct ws.
  - destruct (heart_next NewClient rpc ws) eqn:Hh; [|done]. injection Hs as <-. apply Hsame.
    by apply heart_next_same in Hh as (? & _).
Qed.

(** A tracked task built from one of the requests [D]. *)
Definition originates (reg : Registry) (D : list DispatchRequest) (t : trackedTask) : Prop :=
  ∃ req ex, req ∈ D ∧ Get (dr_Type req) reg = inr ex ∧
    t = {| tk_key := dr_TaskId req; tk_inner := NewExecutableTask (task_info req) ex |}.

(** What an executor did for a task is what the task asks for. *)
Definition call_of (x : ExecutableTask * external_call) : Prop :=
  call_for (et_exec x.1) (Payload (info_Spec (et_task x.1))) (timeout x.1) x.2.

(** The result of a call that an executor made, as the log [L] has it. *)
Definition executed (L : list (ExecutableTask * external_call)) (t : ExecutableTask) (result : TaskResult) : Prop :=
  ∃ call, (t, call) ∈ L ∧ result_of_call call result.

(** A request that [Do] sends for a task. *)
Definition report_of (L : list (ExecutableTask * external_call)) (t : ExecutableTask) (rq : ResultRequest) : Prop :=
  rq = running_report t ∨ ∃ result, executed L t result ∧ rq = final_report t result.

Definition dispatch_from reg D (pc : dispatch_pc) : Prop :=
  match pc with
  | DStart req | DAdd req | DGet req => req ∈ D
  | DSubmit t => originates reg D t
  | DRemove _ | DDone _ => True
  end.

Definition attempt_from reg D L (a : attempt) : Prop :=
  match a with
  | ASetCancel t | ARunning t _ | AExecute t _ => originates reg D t
  | AReport t _ result => originates reg D t ∧ executed L (tk_inner t) result
  | AReturn _ _ => True
  end.

Record genuine reg D ws l : Prop := {
  ge_tasks t : t ∈ tasks_of ws l → originates reg D t;
  ge_dispatches h pc : dispatches ws !! h = Some pc → dispatch_from reg D pc;
  ge_attempts i a : attempts ws !! i = Some a → attempt_from reg D (ran ws) a;
  ge_reported rq : rq ∈ reported ws → ∃ t, originates reg D t ∧ report_of (ran ws) (tk_inner t) rq;
  ge_ran x : x ∈ ran ws → call_of x ∧ ∃ t, originates reg D t ∧ tk_inner t = x.1;
  ge_registry : executionRegistry ws = reg;
}.

Lemma originates_mono reg D D' t : D ⊆ D' → originates reg D t → originates reg D' t.
Proof. intros HD (req & ex & ? & ? & ?). exists req, ex. auto. Qed.

Lemma dispatch_from_mono reg D D' pc : D ⊆ D' → dispatch_from reg D pc → dispatch_from reg D' pc.
Proof. intros HD. destruct pc; simpl; eauto using originates_mono. Qed.

Lemma executed_mono L L' t result : L ⊆ L' → executed L t result → executed L' t result.
Proof. intros HL (call & Hc & ?). exists call. split; [by apply HL|done]. Qed.

Lemma report_of_mono L L' t rq : L ⊆ L' → report_of L t rq → report_of L' t rq.
Proof. intros HL [->|(result & He & ->)]; [by left|right]. eauto using executed_mono. Qed.

Lemma attempt_from_mono reg D D' L L' a : D ⊆ D' → L ⊆ L' → attempt_from reg D L a → attempt_from reg D' L' a.
Proof.
  intros HD HL. destruct a; simpl; [eauto using originates_mono..| |done]. intros [].
  eauto using originates_mono, executed_mono.
Qed.

Definition dispatched (tr : list (ws_label (Conn := Conn))) : list DispatchRequest :=
  omap (λ lab : ws_label (Conn := Conn), match lab with WDispatch req => Some req | _ => None end) tr.

Lemma ws_step_registry ws lab ws' :
  ws_next NewClient lab ws = Some (Ret ws') → executionRegistry ws' = executionRegistry ws.
Proof.
  intros Hs. destruct ws. destruct lab; unfold ws_next, DispatchTask, CancelTasks, attempt_next, report, heart_next, register,
    pool_effect, set_dispatch, set_cancel, set_attempt in Hs; simpl in Hs;
    unfold fmap, option_fmap, option_map, mbind, outcome_bind, option_bind in Hs; go_cases; done.
Qed.

(** Executors run in the steps [LExecute], and nowhere else. *)
Lemma ws_step_ran ws lab ws' :
  ws_next NewClient lab ws = Some (Ret ws') →
  ran ws' = ran ws ∨
  ∃ i env t ctx, lab = WAttempt i (LExecute env) ∧ attempts ws !! i = Some (AExecute t ctx) ∧
    ran ws' = ran ws ++ (pair (tk_inner t) <$>
      (Execute (et_exec (tk_inner t)) env (info_Spec (et_task (tk_inner t))) (timeout (tk_inner t))).2).
Proof.
  intros Hs.
  assert ((∀ i env, lab ≠ WAttempt i (LExecute env)) → ran ws' = ran ws) as Hother.
  { intros Hl. destruct ws. destruct lab as [| | | |i la| | | |]; [..|destruct la; [..|by destruct (Hl i env)]| | | |];
      unfold ws_next, DispatchTask, CancelTasks, attempt_next, report, heart_next, register, pool_effect, set_dispatch,
        set_cancel, set_attempt in Hs; simpl in Hs;
      unfold fmap, option_fmap, option_map, mbind, outcome_bind, option_bind in Hs; go_cases; done. }
  destruct lab as [| | | |i la| | | |]; try (left; by apply Hother). destruct la as [| |env]; try (left; by apply Hother).
  right. simpl in Hs. unfold attempt_next in Hs. destruct (attempts ws !! i) as [[| |t ctx| |]|] eqn:Ha; try done.
  exists i, env, t, ctx. split_and!; [done..|]. destruct (Execute _ _ _ _) as [[result err] calls].
  injection Hs as <-. by destruct ws.
Qed.

(** What the executors do in a step is done for a task about to be executed,
    and is what the task asks for. *)
Lemma ws_step_new ws lab ws' :
  ws_next NewClient lab ws = Some (Ret ws') →
  ∃ new, ran ws' = ran ws ++ new ∧
    ∀ x, x ∈ new → call_of x ∧ ∃ i t ctx, attempts ws !! i = Some (AExecute t ctx) ∧ tk_inner t = x.1.
Proof.
  intros [Heq|(i & env & t & ctx & -> & Ha & Heq)]%ws_step_ran; rewrite Heq.
  - exists []. rewrite app_nil_r. split; [done|]. by intros x ?%elem_of_nil.
  - eexists. split; [done|]. intros x (call & -> & Hcall)%list_elem_of_fmap. split; [|by exists i, t, ctx].
    pose proof (Execute_calls (et_exec (tk_inner t)) env (info_Spec (et_task (tk_inner t))) (timeout (tk_inner t))) as Hcalls.
    destruct (Execute _ _ _ _) as [[res err] calls]. by apply Hcalls.
Qed.

Lemma ws_step_ran_mono ws lab ws' : ws_next NewClient lab ws = Some (Ret ws') → ran ws ⊆ ran ws'.
Proof. intros [->|(i & env & t & ctx & _ & _ & ->)]%ws_step_ran; set_solver. Qed.

Lemma ws_step_dispatches reg D ws l lab ws' h pc :
  genuine reg D ws l → ws_next NewClient lab ws = Some (Ret ws') → dispatches ws' !! h = Some pc →
  dispatch_from reg (D ++ dispatched [lab]) pc.
Proof.
  intros Hg Hs Hpc. pose proof (ge_dispatches _ _ _ _ Hg) as Hold.
  assert (dispatches ws' = dispatches ws → dispatch_from reg (D ++ dispatched [lab]) pc) as Hsame.
  { intros He. rewrite He in Hpc. apply (dispatch_from_mono reg D); [set_solver|eauto]. }
  assert (∀ h' pc', dispatches ws' = <[h' := pc']> (dispatches ws) → dispatch_from reg D pc' →
    dispatch_from reg (D ++ dispatched [lab]) pc) as Hins.
  { intros h' pc' He Hpc'. rewrite He in Hpc. apply (dispatch_from_mono reg D); [set_solver|].
    apply list_lookup_insert_Some in Hpc as [(_ & <- & _)|[_ Hpc]]; eauto. }
  destruct lab as [req|h'|ids|h'|i la|lab| |acknowledged|rpc]; simpl in Hs.
  - injection Hs as <-. simpl. assert (dispatches ws ++ [DStart req] = dispatches (set_dispatches (dispatches ws ++ [DStart req]) ws)) as He
      by by destruct ws. rewrite <-He in Hpc. apply lookup_snoc_Some in Hpc as [[_ Hpc]|[_ <-]]; [|simpl; set_solver].
    apply (dispatch_from_mono reg D); [set_solver|eauto].
  - destruct (dispatches ws !! h') as [pc'|] eqn:Hh; [|done]. specialize (Hold h' pc' Hh).
    destruct pc' as [req|req|req|t|key|accepted]; simpl in Hs, Hold; [| | | | |done].
    + injection Hs as <-. eapply (Hins h'); [by destruct ws|]. by destruct (suspended ws).
    + destruct (unique_Add _ _) as [[] u]; injection Hs as <-; (eapply (Hins h'); [by destruct ws|done]).
    + injection Hs as <-. eapply (Hins h'); [by destruct ws|]. rewrite (ge_registry _ _ _ _ Hg).
      destruct (Get (dr_Type req) reg) eqn:Hget; [done|]. simpl. by exists req, e.
    + destruct (TrySubmit _ _) as [[ok pool]|[]|]; [|done..]. simpl in Hs. injection Hs as <-.
      eapply (Hins h'); [by destruct ws|]. by destruct ok.
    + injection Hs as <-. eapply (Hins h'); [by destruct ws|done].
  - injection Hs as <-. apply Hsame. by destruct ws.
  - destruct (cancels ws !! h') as [pc'|]; [|done]. simpl in Hs.
    destruct (CancelTasks h' pc' ws) eqn:Hc; [|done]. injection Hs as <-. apply Hsame. by eapply CancelTasks_same.
  - destruct (attempt_next NewClient i la ws) eqn:Ha; [|done]. injection Hs as <-. apply Hsame.
    by apply attempt_next_same in Ha as (_ & ? & _).
  - destruct (pool_step_allowed lab); [|done]. destruct (pool_effect lab ws) as [ws1|] eqn:Heff; [|done]. simpl in Hs.
    destruct (pool_next lab (workerPool ws)) as [[pool|[]|]|]; try done. simpl in Hs. injection Hs as <-. apply Hsame.
    apply pool_effect_same in Heff as (_ & <- & _). by destruct ws1.
  - destruct (heart ws); try done. injection Hs as <-. apply Hsame. by destruct ws.
  - destruct (heart ws); try done. destruct (call _ _ _). injection Hs as <-. apply Hsame. by destruct ws.
  - destruct (heart_next NewClient rpc ws) eqn:Hh; [|done]. injection Hs as <-. apply Hsame.
    by apply heart_next_same in Hh as (_ & _ & ?).
Qed.

(** The reports and the attempts change in the steps of an attempt, and when a
    worker of the pool enters or leaves [Do]. *)
Lemma held_in_tasks ws l i w job :
  workers (workerPool ws) !! i = Some w → job ∈ held w → job_task job ∈ tasks_of ws l.
Proof.
  intros Hi Hj. apply list_elem_of_fmap. exists job. split; [done|]. unfold all_jobs. rewrite !elem_of_app. right. left.
  destruct (concat_insert held _ i w Hi) as (R & -> & _). apply elem_of_app. by left.
Qed.

Lemma attempt_from_insert reg D L (m : gmap nat attempt) i a i' a' :
  (∀ i a, m !! i = Some a → attempt_from reg D L a) → attempt_from reg D L a' →
  <[i' := a']> m !! i = Some a → attempt_from reg D L a.
Proof. intros Hm Ha'. rewrite lookup_insert_Some. naive_solver. Qed.

Lemma report_reported ctx rq delivered ws ws' x :
  report NewClient ctx rq delivered ws = Some ws' → x ∈ reported ws' → x = rq ∨ x ∈ reported ws.
Proof. intros Hs. destruct ws. unfold report in Hs. simpl in Hs. go_cases; set_solver. Qed.

Lemma attempt_next_genuine reg D ws l i la ws' :
  genuine reg D ws l → attempt_next NewClient i la ws = Some ws' →
  (∀ j a, attempts ws' !! j = Some a → attempt_from reg D (ran ws') a) ∧
  (∀ rq, rq ∈ reported ws' → ∃ t, originates reg D t ∧ report_of (ran ws') (tk_inner t) rq).
Proof.
  intros [_ _ Hatt Hrep _ _]. unfold attempt_next. destruct (attempts ws !! i) as [a0|] eqn:Hi; [|done].
  specialize (Hatt i a0 Hi) as Ha0.
  destruct a0 as [t|t ctx|t ctx|t ctx res|ctx err], la as [|delivered|env]; try done; intros Hs.
  - injection Hs as <-. destruct ws; simpl in *. split; [|done]. intros j a. by apply attempt_from_insert.
  - destruct (report _ _ _ _ _) as [ws1|] eqn:Hr; [|done]. injection Hs as <-.
    pose proof (report_same _ _ _ _ _ Hr) as (_ & _ & _ & He & _ & _ & Hran).
    replace (ran (set_attempt i (AExecute t ctx) ws1)) with (ran ws) by by destruct ws1. split.
    + intros j a. replace (attempts (set_attempt i (AExecute t ctx) ws1)) with (<[i := AExecute t ctx]> (attempts ws1))
        by by destruct ws1. rewrite He. by apply attempt_from_insert.
    + intros rq Hrq. replace (reported (set_attempt i (AExecute t ctx) ws1)) with (reported ws1) in Hrq by by destruct ws1.
      destruct (report_reported _ _ _ _ _ _ Hr Hrq) as [->|]; [|auto]. exists t. split; [done|by left].
  - pose proof (Execute_calls (et_exec (tk_inner t)) env (info_Spec (et_task (tk_inner t))) (timeout (tk_inner t))) as Hcalls.
    destruct (Execute _ _ _ _) as [[res err] calls]. destruct Hcalls as [_ Hcall]. injection Hs as <-.
    destruct ws; simpl in *. split.
    + intros j a. apply attempt_from_insert; [intros j' a' Hj; eapply attempt_from_mono; [done| |by eapply Hatt]; set_solver|].
      destruct err; simpl; [done|]. split; [done|]. destruct Hcall as (call & -> & Hres). exists call.
      split; [|done]. apply elem_of_app. right. apply list_elem_of_singleton. done.
    + intros rq Hrq. destruct (Hrep rq Hrq) as (t' & Ht' & Hof). exists t'. split; [done|].
      eapply report_of_mono; [|exact Hof]. set_solver.
  - destruct (report _ _ _ _ _) as [ws1|] eqn:Hr; [|done]. injection Hs as <-.
    pose proof (report_same _ _ _ _ _ Hr) as (_ & _ & _ & He & _ & _ & Hran). destruct Ha0 as [Ht Hex].
    replace (ran (set_attempt i (AReturn ctx false) ws1)) with (ran ws) by by destruct ws1. split.
    + intros j a. replace (attempts (set_attempt i (AReturn ctx false) ws1)) with (<[i := AReturn ctx false]> (attempts ws1))
        by by destruct ws1. rewrite He. by apply attempt_from_insert.
    + intros rq Hrq. replace (reported (set_attempt i (AReturn ctx false) ws1)) with (reported ws1) in Hrq by by destruct ws1.
      destruct (report_reported _ _ _ _ _ _ Hr Hrq) as [->|]; [|auto]. exists t. split; [done|right; eauto].
Qed.

Lemma pool_effect_genuine reg D ws l lab ws' :
  genuine reg D ws l → pool_effect lab ws = Some ws' →
  (∀ j a, attempts ws' !! j = Some a → attempt_from reg D (ran ws) a) ∧ reported ws' = reported ws ∧ ran ws' = ran ws.
Proof.
  intros [Htasks _ Hatt Hrep _ _] Hs. unfold pool_effect in Hs. destruct lab; simplify_eq; try done.
  - destruct (workers (workerPool ws) !! i) as [w|] eqn:Hi; [|done]. destruct w; try done. injection Hs as <-.
    pose proof (held_in_tasks ws l i _ job Hi ltac:(left)) as Hjob. destruct ws; simpl in *. split; [|done].
    intros j a. apply attempt_from_insert; [done|]. by apply Htasks.
  - destruct (attempts ws !! i) as [[]|]; try done. case_bool_decide; simplify_eq. destruct ws; simpl in *. split; [|done].
    intros j a. rewrite lookup_delete_Some. naive_solver.
  - destruct (workers (workerPool ws) !! i) as [[]|]; simplify_eq. destruct err; simplify_eq; by destruct ws.
Qed.

(** What the executors did so far, and in this step. *)
Lemma ws_step_calls reg D ws l lab ws' x :
  genuine reg D ws l → ws_next NewClient lab ws = Some (Ret ws') → x ∈ ran ws' →
  call_of x ∧ ∃ t, originates reg (D ++ dispatched [lab]) t ∧ tk_inner t = x.1.
Proof.
  intros Hg Hs Hx.
  assert (x ∈ ran ws → call_of x ∧ ∃ t, originates reg (D ++ dispatched [lab]) t ∧ tk_inner t = x.1) as Hold.
  { intros Hx'. destruct (ge_ran _ _ _ _ Hg x Hx') as (Hc & t & Ht & He). split; [done|]. exists t. split; [|done].
    eapply originates_mono; [|exact Ht]. set_solver. }
  destruct (ws_step_new _ _ _ Hs) as (new & Heq & Hnew). rewrite Heq in Hx. apply elem_of_app in Hx as [Hx|Hx]; [by apply Hold|].
  destruct (Hnew x Hx) as (Hfor & i & t & ctx & Ha & Ht). split; [done|]. exists t. split; [|done].
  eapply originates_mono; [|by apply (ge_attempts _ _ _ _ Hg i _ Ha)]. set_solver.
Qed.

Lemma ws_step_genuine reg D ws l lab ws' l' :
  ws_inv ws l → genuine reg D ws l → ws_next NewClient lab ws = Some (Ret ws') → ws_inv ws' l' →
  genuine reg (D ++ dispatched [lab]) ws' l'.
Proof.
  intros Hinv Hg Hs Hinv'. pose proof Hg as [Htasks Hdis Hatt Hrep Hran Hreg]. set (D' := D ++ dispatched [lab]).
  assert (D ⊆ D') as HD by (unfold D'; set_solver).
  assert ((∀ j a, attempts ws' !! j = Some a → attempt_from reg D (ran ws') a) ∧
    (∀ rq, rq ∈ reported ws' → ∃ t, originates reg D t ∧ report_of (ran ws') (tk_inner t) rq)) as [Hatt' Hrep'].
  { pose proof (ws_step_ran_mono _ _ _ Hs) as HL.
    assert (attempts ws' = attempts ws → reported ws' = reported ws →
      (∀ j a, attempts ws' !! j = Some a → attempt_from reg D (ran ws') a) ∧
      (∀ rq, rq ∈ reported ws' → ∃ t, originates reg D t ∧ report_of (ran ws') (tk_inner t) rq)) as Hsame.
    { intros -> ->. split; [intros j a Ha; by eapply attempt_from_mono; [| |eapply Hatt]|].
      intros rq Hrq. destruct (Hrep rq Hrq) as (t & ? & ?). eauto using report_of_mono. }
    destruct lab as [req|h|ids|h|i la|lab| |acknowledged|rpc]; simpl in Hs.
    - injection Hs as <-. apply Hsame; by destruct ws.
    - destruct (dispatches ws !! h) as [pc|]; [|done].
      destruct ws; unfold DispatchTask, set_dispatch, mbind, outcome_bind in Hs; simpl in Hs. apply Hsame; by go_cases.
    - injection Hs as <-. apply Hsame; by destruct ws.
    - destruct (cancels ws !! h) as [pc|]; [|done].
      destruct ws; unfold CancelTasks, set_cancel, fmap, option_fmap, option_map in Hs; simpl in Hs. apply Hsame; by go_cases.
    - destruct (attempt_next NewClient i la ws) eqn:Ha; [|done]. injection Hs as <-. by eapply attempt_next_genuine.
    - destruct (pool_step_allowed lab); [|done]. destruct (pool_effect lab ws) as [ws1|] eqn:Heff; [|done]. simpl in Hs.
      destruct (pool_next lab (workerPool ws)) as [[pool|[]|]|]; try done. simpl in Hs. injection Hs as <-.
      destruct (pool_effect_genuine reg D ws l lab ws1 Hg Heff) as (Ha & Hr & Hl). rewrite <-Hr, <-Hl in Hrep.
      rewrite <-Hl in Ha. by destruct ws1.
    - destruct (heart ws); try done. injection Hs as <-. apply Hsame; by destruct ws.
    - destruct (heart ws); try done. destruct (call _ _ _). injection Hs as <-. apply Hsame; by destruct ws.
    - destruct ws; unfold heart_next, register, fmap, option_fmap, option_map in Hs; simpl in Hs. apply Hsame; by go_cases. }
  split.
  - intros t Ht. destruct (ws_step_tasks ws l lab ws' l' t Hinv Hs Hinv' Ht) as [Ht'|[h Hh]].
    + by eapply originates_mono; [|apply Htasks].
    + by eapply originates_mono; [|apply (Hdis h _ Hh)].
  - intros h pc. by eapply ws_step_dispatches.
  - intros i a Ha. eapply attempt_from_mono; eauto.
  - intros rq Hrq. destruct (Hrep' rq Hrq) as (t & ? & ?). exists t. eauto using originates_mono.
  - intros x Hx. by eapply ws_step_calls.
  - by rewrite (ws_step_registry _ _ _ Hs).
Qed.

Lemma worker_main_empty cfg rpc t0 ws0 :
  worker_main NewClient cfg rpc t0 = Ret ws0 →
  dispatches ws0 = [] ∧ attempts ws0 = ∅ ∧ reported ws0 = [] ∧ ran ws0 = [].
Proof.
  unfold worker_main, Start_service, register. intros Hmain.
  destruct (NewWorkerPool _ _) as [wp|[]|]; [|done..]. simpl in Hmain.
  destruct (RegisterExecutors (Worker.cfg_Capabilities cfg) New) as [[e|reg] registry]; [done|].
  destruct (call _ _ _) as [resp c]. destruct (default false resp); [|done]. by injection Hmain as <-.
Qed.

Lemma worker_run_genuine cfg rpc t0 ws0 tr ws :
  (0 ≤ t0)%Z → worker_main NewClient cfg rpc t0 = Ret ws0 → ws_run NewClient ws0 tr (Ret ws) →
  ∃ l, ws_inv ws l ∧ genuine (executionRegistry ws0) (dispatched tr) ws l.
Proof.
  intros Ht0 Hmain Hrun. destruct (worker_main_inv _ _ _ _ Ht0 Hmain) as [Hinv0 Hf].
  remember (Ret ws) as r eqn:Hr. revert ws Hr. induction Hrun as [|tr ws lab r _ IH Hnext]; intros ws' Hr.
  - injection Hr as <-. exists []. split; [done|].
    destruct (worker_main_empty _ _ _ _ Hmain) as (Hd & Ha & Hrep & Hran).
    split; rewrite ?Hd, ?Ha, ?Hrep, ?Hran; try done.
    + intros t Ht. unfold in_flight in Hf. injection Hf as _ Hf. apply app_nil in Hf as [Hf _]. unfold job_keys in Hf.
      apply fmap_nil_inv in Hf. unfold tasks_of in Ht. rewrite Hf in Ht. by apply elem_of_nil in Ht.
    + intros rq Hrq. by apply elem_of_nil in Hrq.
    + intros x Hx. by apply elem_of_nil in Hx.
  - subst r. destruct (IH ws eq_refl) as (l & Hinv & Hg).
    destruct (ws_step_ok ws l lab _ Hinv Hnext) as (ws'' & l' & [= <-] & Hinv' & _). exists l'. split; [done|].
    unfold dispatched. rewrite omap_app. by apply (ws_step_genuine _ _ ws l).
Qed.

(** Every call of an executor was made in a step [LExecute] of the execution. *)
Lemma worker_run_executed cfg rpc t0 ws0 tr ws x :
  worker_main NewClient cfg rpc t0 = Ret ws0 → ws_run NewClient ws0 tr (Ret ws) → x ∈ ran ws →
  ∃ i env, WAttempt i (LExecute env) ∈ tr ∧
    x.2 ∈ (Execute (et_exec x.1) env (info_Spec (et_task x.1)) (timeout x.1)).2.
Proof.
  intros (_ & _ & _ & Hran)%worker_main_empty Hrun. remember (Ret ws) as r eqn:Hr. revert ws Hr.
  induction Hrun as [|tr ws lab r _ IH Hnext]; intros ws' Hr Hx.
  { injection Hr as <-. rewrite Hran in Hx. by apply elem_of_nil in Hx. }
  subst r.
  assert (x ∈ ran ws → ∃ i env, WAttempt i (LExecute env) ∈ tr ++ [lab] ∧
    x.2 ∈ (Execute (et_exec x.1) env (info_Spec (et_task x.1)) (timeout x.1)).2) as Hold.
  { intros (i & env & ? & ?)%IH; [|done]. exists i, env. split; [set_solver|done]. }
  destruct (ws_step_ran _ _ _ Hnext) as [Heq|(i & env & t & ctx & -> & Ha & Heq)]; rewrite Heq in Hx; [by apply Hold|].
  apply elem_of_app in Hx as [Hx|(call & -> & Hcall)%list_elem_of_fmap]; [by apply Hold|].
  exists i, env. split; [set_solver|done].
Qed.

(** C22. Every report that reaches the control plane comes from the execution
    of a task it dispatched, by the executor registered for the task's type.
    It is the task's RUNNING report, or the report on a call that this
    executor made in a step [Execute] of this process, logged in [ran]: the
    command of the payload was run, or the request of the payload sent, with
    the timeout dispatched; the report has the output observed, and its status
    is SUCCEEDED exactly if the command ended with exit code 0 in time, or a
    response with a status below 400 was read to its end, and FAILED
    otherwise.  In particular no result is reported for a task whose executor
    always returns an error (a payload that cannot be decoded, say): the pool
    executes it again and again, and the control plane only ever hears that
    it is running. *)
Theorem reports_are_genuine cfg rpc t0 ws0 tr ws rq :
  (0 ≤ t0)%Z → worker_main NewClient cfg rpc t0 = Ret ws0 → ws_run NewClient ws0 tr (Ret ws) → rq ∈ reported ws →
  ∃ req ex, WDispatch req ∈ tr ∧ Get (dr_Type req) (executionRegistry ws0) = inr ex ∧
    rq_TaskId rq = dr_TaskId req ∧ rq_WorkflowId rq = dr_WorkflowId req ∧
    let t := NewExecutableTask (task_info req) ex in
    (rq = running_report t ∨
     ∃ i env call, WAttempt i (LExecute env) ∈ tr ∧ (t, call) ∈ ran ws ∧
       call_for ex (dr_Payload req) (seconds (dr_TimeoutSeconds req)) call ∧ answered_by env call ∧ ¬ call_failed call ∧
       (rq_Stdout rq, rq_Stderr rq) = call_output call ∧
       (FromProtoTaskStatus (rq_Status rq) = TaskSucceeded ∧ call_succeeded call ∨
        FromProtoTaskStatus (rq_Status rq) = TaskFailed ∧ ¬ call_succeeded call)) ∧
    ((∀ env, is_Some (Execute ex env {| Type_ := ""; Payload := dr_Payload req |} (seconds (dr_TimeoutSeconds req))).1.2) →
     FromProtoTaskStatus (rq_Status rq) = TaskRunning).
Proof.
  intros Ht0 Hmain Hrun Hrq. destruct (worker_run_genuine _ _ _ _ _ _ Ht0 Hmain Hrun) as (l & _ & Hg).
  destruct (ge_reported _ _ _ _ Hg rq Hrq) as (t & (req & ex & Hreq & Hget & ->) & Hof). simpl in Hof.
  exists req, ex. cbv zeta. unfold dispatched in Hreq. apply list_elem_of_omap in Hreq as (lab & Hlab & Heq).
  destruct lab; simplify_eq. destruct Hof as [->|(result & (call & Hcall & Hres) & ->)]; [split_and!; try done; by left|].
  destruct (worker_run_executed _ _ _ _ _ _ _ Hmain Hrun Hcall) as (i & env & Hi & Hans). simpl in Hans.
  pose proof (Execute_calls ex env {| Type_ := ""; Payload := dr_Payload req |} (seconds (dr_TimeoutSeconds req))) as Hcalls.
  unfold timeout in Hans. simpl in Hans. destruct (Execute ex env _ _) as [[res err] calls] eqn:Hex. simpl in Hans.
  destruct Hcalls as [Hfor Herr]. destruct (Hfor call Hans) as [Hcf Hca]. destruct Hres as (Hsucc & Hout & Hnf). split_and!; try done.
  - right. exists i, env, call. split_and!; try done. unfold final_report, sendStatus. simpl. rewrite FromProto_final.
    destruct (successful result); [left|right]; split; try done; [by apply Hsucc|by intros ?%Hsucc].
  - intros Hall. destruct (Hall env) as [e He]. rewrite Hex in He. simpl in He. subst err. by destruct (Hnf (Herr call Hans)).
Qed.
End props.
