(* ===== verification/WorkerRuns.v ===== *)
(** * Executions of the worker process

    A worker with one pool worker and the shell executor: instances of the
    theorems of [WorkerProps], and two orders of events in which the process
    misbehaves. *)

From stdpp Require Import base gmap strings list.
From Stdlib Require Import ZArith Lia.
From S2P Require Import Prelude Status Domain Jobs Server LinkedList GoHeap PriorityQueue WorkerPool PoolProps Config.
From S2P Require Import Executors WorkerTask WorkerService WorkerProps.

(** The payload is the command; every request can be built. *)
#[local] Instance plain_json : Json := {|
  shell_payload p := inr {| Shell.Command := p; Shell.Args := "" |};
  http_payload _ := inl "unexpected end of JSON input";
  NewRequest _ _ := None;
  CanonicalHeaderKey k := k;
|}.

Definition dial (_ : string) : option () := Some ().

Definition cfg1 : Worker.Config := {|
  Worker.cfg_Port := ":9001"; Worker.cfg_ID := "w1"; Worker.cfg_Address := "127.0.0.1:9001"; Worker.cfg_Capacity := 4; Worker.cfg_Pool := 1; Worker.cfg_Labels := ∅;
  Worker.cfg_Capabilities := ["shell"]; Worker.cfg_ControlPlane := "127.0.0.1:9000";
|}.

Definition accept (_ : RegisterRequest) (_ : ()) : option bool := Some true.

Definition blank : WorkerService (Conn := ()) :=
  NewWorkerService {| node_ID := ""; Address := ""; Labels := ∅; Capabilities := []; Capacity := 0; RunningTasks := 0;
                      LastHeartbeat := 0; node_status := WorkerAlive |}
    {| workerCount := 0; capacity := 0; jobsQ := ll_empty; retryQ := {| mem := ∅; items := []; seq := 0 |};
       jobChan := []; chan_closed := false; stop_closed := false; busyCount := 0; workers := [];
       jobs_loop := JNone; retry_loop := RNone; stop_calls := []; ctx_done := false; now := 0 |}
    New (NewClusterClient "").

Definition worker1 : WorkerService := match worker_main dial cfg1 accept 0 with Ret ws => ws | _ => blank end.

Lemma worker1_main : worker_main dial cfg1 accept 0 = Ret worker1.
Proof. vm_compute. reflexivity. Qed.

Definition ws_end (tr : list (ws_label (Conn := ()))) : WorkerService :=
  match ws_exec dial tr worker1 with Some (Ret ws) => ws | _ => blank end.

Definition request (id type : string) : DispatchRequest :=
  {| dr_WorkflowId := "wf"; dr_TaskId := id; dr_Type := type; dr_Payload := "make"; dr_TimeoutSeconds := 30 |}.

(** The environment in which the command ends as given. *)
Definition ends (e : Shell.run_error) : environment := {|
  run_command _ _ := {| Shell.co_stdout := "out"; Shell.co_stderr := ""; Shell.co_run := e; Shell.co_deadline := false;
                        Shell.co_duration := Second |};
  send_request _ _ := {| Http.ho_response := Http.DoFailed ""; Http.ho_deadline := false; Http.ho_duration := 0 |};
  header_order := shuffle_id;
|}.

(** A dispatch that goes through, and the worker taking the job up to the
    execution. *)
Definition dispatch_steps (h : nat) : list (ws_label (Conn := ())) := replicate 4 (WDispatchStep h).
Definition begin_steps : list (ws_label (Conn := ())) :=
  [WPool (LReceive 0); WPool (LBusy 0); WAttempt 0 LSetCancel; WAttempt 0 (LReport true)].

(** [t1] is being executed; the same task was dispatched again, and a second
    one waits. *)
Definition busy_steps : list (ws_label (Conn := ())) :=
  [WDispatch (request "t1" "shell")] ++ dispatch_steps 0 ++ begin_steps ++
  [WDispatch (request "t1" "shell"); WDispatchStep 1; WDispatchStep 1] ++
  [WDispatch (request "t2" "shell")] ++ dispatch_steps 2.

Definition busy_worker : WorkerService := ws_end busy_steps.

Lemma busy_worker_run : ws_run dial worker1 busy_steps (Ret busy_worker).
Proof. apply (ws_exec_run dial worker1 [] busy_steps worker1); [constructor|vm_compute; reflexivity]. Qed.

Lemma at_most_one_copy_witness :
  dispatches busy_worker = [DDone true; DDone true; DDone true] ∧
  ∃ l, represents (jobsQ (workerPool busy_worker)) l ∧ NoDup (job_keys (all_jobs (workerPool busy_worker) l)) ∧
    length (job_keys (all_jobs (workerPool busy_worker) l)) = 2.
Proof.
  split; [vm_compute; reflexivity|].
  destruct (at_most_one_copy dial cfg1 accept 0 worker1 busy_steps (Ret busy_worker) (Z.le_refl 0) worker1_main
    busy_worker_run) as (l & items & Hl & Hu & [Hnd _] & _).
  exists l. split; [exact Hl|]. apply NoDup_app in Hnd as [Hnd _]. split; [exact Hnd|].
  assert (l = []) as ->.
  { eapply represents_inj; [exact Hl|]. replace (jobsQ (workerPool busy_worker)) with (@ll_empty (PriorityQueue.Job trackedTask));
      [apply represents_empty|vm_compute; reflexivity]. }
  vm_compute. reflexivity.
Defined.

(** ** A dispatch of an unknown type *)

(** The worker has no HTTP executor: the dispatch is refused, and the same
    task with a known type is answered as accepted and not executed. *)
Definition unknown_steps : list (ws_label (Conn := ())) :=
  [WDispatch (request "t1" "http"); WDispatchStep 0; WDispatchStep 0; WDispatchStep 0].
Definition unknown_then_known : list (ws_label (Conn := ())) :=
  unknown_steps ++ [WDispatch (request "t1" "shell"); WDispatchStep 1; WDispatchStep 1].

Definition refused_worker : WorkerService := ws_end unknown_steps.
Definition fooled_worker : WorkerService := ws_end unknown_then_known.

Lemma refused_worker_run : ws_run dial worker1 unknown_steps (Ret refused_worker).
Proof. apply (ws_exec_run dial worker1 [] unknown_steps worker1); [constructor|vm_compute; reflexivity]. Qed.

Lemma fooled_worker_run :
  ws_run dial refused_worker [WDispatch (request "t1" "shell"); WDispatchStep 1; WDispatchStep 1] (Ret fooled_worker).
Proof.
  apply (ws_exec_run dial refused_worker [] [WDispatch (request "t1" "shell"); WDispatchStep 1; WDispatchStep 1] refused_worker);
    [constructor|vm_compute; reflexivity].
Qed.

Lemma leaked_key_stays_witness :
  dispatches fooled_worker = [DDone false; DDone true] ∧
  ∃ l, represents (jobsQ (workerPool fooled_worker)) l ∧ "t1" ∉ job_keys (all_jobs (workerPool fooled_worker) l).
Proof.
  split; [vm_compute; reflexivity|].
  destruct (leaked_key_stays dial cfg1 accept 0 worker1 unknown_steps refused_worker [] {["t1" := None]} "t1"
    [WDispatch (request "t1" "shell"); WDispatchStep 1; WDispatchStep 1] (Ret fooled_worker)
    (Z.le_refl 0) worker1_main refused_worker_run)
    as (l & items & Hl & _ & _ & _ & Hn).
  - replace (jobsQ (workerPool refused_worker)) with (@ll_empty (PriorityQueue.Job trackedTask));
      [apply represents_empty|vm_compute; reflexivity].
  - vm_compute. reflexivity.
  - exists None. vm_compute. reflexivity.
  - replace (job_keys (all_jobs (workerPool refused_worker) []) ++ concat (handler_key <$> dispatches refused_worker))
      with (@nil string) by (vm_compute; reflexivity).
    apply not_elem_of_nil.
  - exact fooled_worker_run.
  - exists l. split; [exact Hl|]. intros Hin. apply Hn. apply elem_of_app. left. exact Hin.
Defined.

(** ** A cancellation between two attempts *)

(** The command of [t1] cannot be started; while the task waits for its retry
    it is cancelled; after two seconds it is executed again. *)
Definition retry_steps : list (ws_label (Conn := ())) :=
  [WDispatch (request "t1" "shell")] ++ dispatch_steps 0 ++ begin_steps ++
  [WAttempt 0 (LExecute (ends (Shell.RunFailed "no such file"))); WPool (LDo 0 true); WPool (LOnDone 0);
   WPool (LClock 0); WPool (LRetry 0); WPool (LRelease 0)].
Definition cancel_steps : list (ws_label (Conn := ())) :=
  [WCancel ["t1"]; WCancelStep 0; WCancelStep 0; WCancelStep 0].
Definition second_steps : list (ws_label (Conn := ())) :=
  [WPool (LTick (2 * Second)); WPool LRetryLoop; WPool LRetryLoop; WPool LRetryLoop; WPool LRetryLoop; WPool LRetryLoop;
   WPool LJobs; WPool LJobs] ++ begin_steps ++
  [WAttempt 0 (LExecute (ends Shell.RunOK)); WAttempt 0 (LReport true)].

Definition ran_again : WorkerService := ws_end (retry_steps ++ cancel_steps ++ second_steps).

Lemma ran_again_run : ws_run dial worker1 (retry_steps ++ cancel_steps ++ second_steps) (Ret ran_again).
Proof.
  apply (ws_exec_run dial worker1 [] (retry_steps ++ cancel_steps ++ second_steps) worker1); [constructor|vm_compute; reflexivity].
Qed.

Definition success_report : ResultRequest := {|
  rq_WorkflowId := "wf"; rq_TaskId := "t1"; rq_Status := TASK_REPORT_SUCCEEDED; rq_ExitCode := 0; rq_Stdout := "out";
  rq_Stderr := ""; rq_Error := ""; rq_Duration := 0 |}.

(** The report of the success is the report of a command that was run: the
    second one, after one that could not be started. *)
Lemma reports_are_genuine_witness :
  success_report ∈ reported ran_again ∧ length (ran ran_again) = 2 ∧
  ∃ t call, (t, call) ∈ ran ran_again ∧ call_succeeded call ∧ call_output call = ("out", "").
Proof.
  assert (success_report ∈ reported ran_again) as Hin.
  { replace (reported ran_again) with [running_report {| et_task := task_info (request "t1" "shell"); et_exec := ShellExecutor |};
      running_report {| et_task := task_info (request "t1" "shell"); et_exec := ShellExecutor |}; success_report]
      by (vm_compute; reflexivity).
    right. right. left. }
  split; [exact Hin|]. split; [vm_compute; reflexivity|].
  destruct (reports_are_genuine dial cfg1 accept 0 worker1 (retry_steps ++ cancel_steps ++ second_steps) ran_again
    success_report (Z.le_refl 0) worker1_main ran_again_run Hin)
    as (req & ex & _ & _ & _ & _ & [Hrun|(i & env & call & _ & Hcall & _ & _ & _ & Hout & Hst)] & _); [discriminate Hrun|].
  eexists _, call. split; [exact Hcall|]. split; [|symmetry; exact Hout].
  destruct Hst as [[_ Hs]|[Hf _]]; [exact Hs|discriminate Hf].
Defined.

(** [CancelTasks] answers true for a task that waits for a retry, because
    the cancel function of its last attempt is still in [unique]; the task is
    executed again nevertheless, and its success is reported. *)
Theorem cancelled_task_runs_again :
  ws_run dial worker1 (retry_steps ++ cancel_steps ++ second_steps) (Ret ran_again) ∧
  cancels ran_again = [CDone {["t1" := true]}] ∧
  (rq_Status <$> reported ran_again) = [TASK_REPORT_RUNNING; TASK_REPORT_RUNNING; TASK_REPORT_SUCCEEDED].
Proof.
  split_and!.
  - exact ran_again_run.
  - vm_compute. reflexivity.
  - vm_compute. reflexivity.
Qed.
