(* ===== verification/Cluster.v ===== *)
(** * The control plane and its workers

    One control plane ([System]), any number of worker processes
    ([WorkerService]) and the calls between them.  Every call a component
    makes to the other is one of the other's handlers: the scheduler's
    [Dispatch] and the engine's [CancelTasks] become calls of the worker's
    server, a worker's [Register], [Heartbeat] and [ReportResult] calls of the
    cluster service.  What neither decides is left open: whether a request or
    a response gets through, how long a report is on its way and which of
    those on their way arrives first, and when processes start and crash.

    A step is a step of one component on its own, or the steps of two that
    meet in a call.  [executions] is the log of what the executors of all
    processes did outside, in order; it outlives the processes. *)

From stdpp Require Import base gmap strings list relations.
From Stdlib Require Import ZArith Lia.
From S2P Require Import Prelude Status Domain Jobs GoFloat Registry Scheduler Client Engine EngineProps System Config.
From S2P Require Import Server WorkerPool Executors WorkerTask WorkerService.

(** The scheduler's [Dispatch]: not under way, or the request has not arrived;
    served by a handler of a process; the process that served it is gone. *)
Inductive call_state := NoCall | Served (p : string) (h : nat) | Lost.

Section cluster.
Context `{W : World} `{LS : LargeSort} `{J : Json} {H Conn WConn : Type}.
Context (NewClient : string → option Conn) (NewClusterConn : string → option WConn).

(** The process at the other end of a connection. *)
Context (reaches : Conn → string).

Record Cluster := {
  control : System H Conn;
  processes : gmap string (WorkerService (Conn := WConn));
  calling : call_state;
  in_transit : list ResultRequest;   (* reports sent and not yet handled *)
  cancels_sent : gset nat;           (* the [CancelTasks] calls that arrived *)
  executions : list (string * (ExecutableTask * external_call));   (* what executors did, and where, in order *)
}.
Implicit Types (c : Cluster) (p : string).

Definition set_control v c : Cluster := let 'Build_Cluster _ p k t n x := c in Build_Cluster v p k t n x.
Definition set_processes v c : Cluster := let 'Build_Cluster s _ k t n x := c in Build_Cluster s v k t n x.
Definition set_calling v c : Cluster := let 'Build_Cluster s p _ t n x := c in Build_Cluster s p v t n x.
Definition set_in_transit v c : Cluster := let 'Build_Cluster s p k _ n x := c in Build_Cluster s p k v n x.
Definition set_cancels_sent v c : Cluster := let 'Build_Cluster s p k t _ x := c in Build_Cluster s p k t v x.
Definition set_executions v c : Cluster := let 'Build_Cluster s p k t n _ := c in Build_Cluster s p k t n v.

(** The control plane alone. *)
Definition cluster_start (bus : EventBus.Bus event H) : Cluster := {|
  control := sys_start bus; processes := ∅; calling := NoCall; in_transit := []; cancels_sent := ∅;
  executions := [];
|}.

(** ** One component's part of a step *)

Definition control_step (l : sys_label H) c : option (outcome () Cluster) :=
  r ← sys_next NewClient l (control c); Some (s ← r; Ret (set_control s c)).

(** The reports a process sends in its step are on their way; what its
    executors do in it is logged. *)
Definition process_step p (l : ws_label (Conn := WConn)) c : option (outcome () Cluster) :=
  ws ← processes c !! p; r ← ws_next NewClusterConn l ws;
  Some (ws' ← r;
        Ret (set_executions (executions c ++ (pair p <$> drop (length (ran ws)) (ran ws')))
              (set_in_transit (in_transit c ++ drop (length (reported ws)) (reported ws'))
                (set_processes (<[p := ws']> (processes c)) c)))).

Definition and_then (o : option (outcome () Cluster)) (f : Cluster → option (outcome () Cluster))
    : option (outcome () Cluster) :=
  match o with Some (Ret c) => f c | _ => o end.

(** The steps a component makes without the other: all but the ends of calls. *)
Definition own_control (l : sys_label H) : bool :=
  match l with LResponse _ _ _ | LHeartbeat _ _ _ | LScheduler (LReply _ _) => false | _ => true end.

Definition own_process (l : ws_label (Conn := WConn)) (ws : WorkerService (Conn := WConn)) : bool :=
  match l with
  | WDispatch _ | WCancel _ | WHeartbeat _ => false
  | WHeart _ => match heart ws with HRegister => false | _ => true end
  | _ => true
  end.

(** Whether the process has or gets a connection to the control plane. *)
Definition connects (ws : WorkerService (Conn := WConn)) : bool :=
  match (getOrDial NewClusterConn (clusterClient ws)).1 with Some _ => true | None => false end.

(** ** Steps *)

Inductive cluster_label :=
  | NControl (l : sys_label H)
  | NProcess (p : string) (l : ws_label (Conn := WConn))
  | NStart (p : string) (cfg : Worker.Config) (t0 now : Z)      (* [main] of a worker, up to serving *)
  | NCrash (p : string)
  | NDispatch                                            (* the scheduler's request arrives *)
  | NReply (answered : bool)                             (* its [Dispatch] returns: a response or an error *)
  | NReport (n : nat)                                    (* the n-th report on its way arrives *)
  | NHeartbeat (p : string) (arrived answered : bool) (now : Z)
  | NRegister (p : string) (arrived answered : bool) (now : Z)   (* after a lost heartbeat *)
  | NCancel (n : nat).                                   (* the n-th [CancelTasks] call arrives *)

(** ** Calls *)

(** [GRPCWorkerClient.Dispatch], on the connection [getOrDial] returned: the
    request arrives at the process, whose server starts a handler. *)
Definition Dispatch_arrives c : option (outcome () Cluster) :=
  match sched (control c), calling c with
  | SchedRPC _ _ job _ conn, NoCall =>
      ws ← processes c !! reaches conn; req ← Request job;
      process_step (reaches conn) (WDispatch req) (set_calling (Served (reaches conn) (length (dispatches ws))) c)
  | _, _ => None
  end.

(** It returns an error, at any time, or the answer of the handler. *)
Definition Dispatch_returns (answered : bool) c : option (outcome () Cluster) :=
  if answered then
    match calling c with
    | Served p h =>
        ws ← processes c !! p;
        match dispatches ws !! h with
        | Some (DDone accepted) => control_step (LScheduler (LReply true (Some accepted))) (set_calling NoCall c)
        | _ => None
        end
    | _ => None
    end
  else
    control_step (LScheduler (LReply (match calling c with NoCall => false | _ => true end) None)) (set_calling NoCall c).

(** [GRPCWorkerClient.CancelTasks] for the n-th call of the engine: the
    request arrives; the response is only logged. *)
Definition CancelTasks_arrives (n : nat) c : option (outcome () Cluster) :=
  '(workerID, ids) ← cancel_calls (eng (control c)) !! n;
  conn ← getOrDial_cached workerID (conns (control c));
  if decide (n ∈ cancels_sent c) then None
  else process_step (reaches conn) (WCancel ids) (set_cancels_sent ({[n]} ∪ cancels_sent c) c).

(** A worker's [ReportResult] arrives and is handled by [ReportResult_rpc]. *)
Definition ReportResult_arrives (n : nat) c : option (outcome () Cluster) :=
  rq ← in_transit c !! n;
  control_step (LResponse (rq_WorkflowId rq) (rq_TaskId rq) (result_of_request rq))
    (set_in_transit (delete n (in_transit c)) c).

Definition registration (ws : WorkerService (Conn := WConn)) (now : Z) : sys_label H :=
  LRegister (node_of_request (register_request (node ws))) now.

Definition cluster_next (l : cluster_label) c : option (outcome () Cluster) :=
  match l with
  | NControl l => if own_control l then control_step l c else None
  | NProcess p l =>
      ws ← processes c !! p; if own_process l ws then process_step p l c else None
  | NStart p cfg t0 now =>
      match processes c !! p, worker_main NewClusterConn cfg (λ _ _, Some true) t0 with
      | None, Ret ws =>
          and_then (control_step (registration ws now) c) (λ c, Some (Ret (set_processes (<[p := ws]> (processes c)) c)))
      | _, _ => None
      end
  | NCrash p =>
      Some (Ret (set_calling (match calling c with
                              | Served p' h => if decide (p' = p) then Lost else Served p' h
                              | k => k
                              end) (set_processes (delete p (processes c)) c)))
  | NDispatch => Dispatch_arrives c
  | NReply answered => Dispatch_returns answered c
  | NReport n => ReportResult_arrives n c
  | NHeartbeat p false _ _ => process_step p (WHeartbeat false) c
  | NHeartbeat p true answered now =>
      ws ← processes c !! p;
      if connects ws then
        let '(id, n) := heartbeat_request ws in
        let known := match (Registry.Heartbeat id n now (reg (control c))).1 with None => true | Some _ => false end in
        and_then (control_step (LHeartbeat id n now) c) (process_step p (WHeartbeat (answered && known)))
      else None
  | NRegister p arrived answered now =>
      ws ← processes c !! p;
      match heart ws with
      | HRegister =>
          if arrived then
            if connects ws
            then and_then (control_step (registration ws now) c)
                   (process_step p (WHeart (λ _ _, if answered : bool then Some true else None)))
            else None
          else process_step p (WHeart (λ _ _, None)) c
      | _ => None
      end
  | NCancel n => CancelTasks_arrives n c
  end.

Definition cluster_label_ok (l : cluster_label) c : Prop :=
  match l with
  | NControl l => label_ok l (control c)
  | NStart _ _ t0 _ => (0 ≤ t0)%Z
  | _ => True
  end.

Definition cluster_step c c' : Prop := ∃ l, cluster_label_ok l c ∧ cluster_next l c = Some (Ret c').

Definition cluster_reachable c : Prop := ∃ bus, rtc cluster_step (cluster_start bus) c.

(** The steps [tr] one after the other. *)
Fixpoint cluster_exec (tr : list cluster_label) c : option Cluster :=
  match tr with
  | [] => Some c
  | l :: tr => match cluster_next l c with Some (Ret c') => cluster_exec tr c' | _ => None end
  end.

(** Labels that can be taken in any state. *)
Definition label_free (l : cluster_label) : bool :=
  match l with
  | NControl (System.LSubmit _) => false
  | NStart _ _ t0 _ => bool_decide (0 ≤ t0)%Z
  | _ => true
  end.

Lemma label_free_ok l c : label_free l = true → cluster_label_ok l c.
Proof. destruct l as [[]| | | | | | | | |]; simpl; try done. apply bool_decide_eq_true. Qed.

Lemma cluster_exec_steps tr c c' :
  forallb label_free tr = true → cluster_exec tr c = Some c' → rtc cluster_step c c'.
Proof.
  revert c. induction tr as [|l tr IH]; intros c Hok Hx; simpl in *; [by injection Hx as ->|].
  apply andb_true_iff in Hok as [Hl Hok]. destruct (cluster_next l c) as [[c1|[]|]|] eqn:Hn; [|done..].
  eapply rtc_l; [exists l; split; [by apply label_free_ok|done]|by apply IH].
Qed.
End cluster.
Arguments Cluster H Conn WConn : clear implicits.
Arguments cluster_label H WConn : clear implicits.
