(* ===== verification/ClusterProps.v ===== *)
(** * What the control plane and its workers guarantee together

    Every step of the cluster projects to a step of the control plane and to
    steps of the processes ([step_effect]), so the guarantees of both hold in
    it; what goes from one to the other is what was sent; and the log of all
    executions ([executions]) has what the executors of the processes did, in
    order.  Hence the end-to-end guarantees: a task is executed only after
    successful executions of its dependencies, and it has SUCCEEDED only if it
    was itself executed successfully. *)

From stdpp Require Import base gmap strings list relations.
From Stdlib Require Import ZArith Lia.
From S2P Require Import Prelude Status Domain NewWorkflow Jobs GoFloat Registry Scheduler Client Config.
From S2P Require Import Engine WorkflowSpec EngineBase EngineProps EngineQueue EngineCauses System SystemCauses.
From S2P Require Import Server WorkerPool PoolProps Executors WorkerTask WorkerService WorkerProps Cluster.

Section props.
Context `{W : World} `{LS : LargeSort} `{J : Json} {H Conn WConn : Type}.
Context (NewClient : string → option Conn) (NewClusterConn : string → option WConn) (reaches : Conn → string).
Implicit Types (c : Cluster H Conn WConn) (p : string) (ws : WorkerService (Conn := WConn)) (rq : ResultRequest).

#[local] Abbreviation next := (cluster_next NewClient NewClusterConn reaches).

(** ** Projections *)

(** What a step may do to the control plane, to a process, and to the reports
    on their way. *)
Definition control_effect c c' : Prop :=
  control c' = control c ∨
  ∃ l, label_ok l (control c) ∧ sys_next NewClient l (control c) = Some (Ret (control c')) ∧
    ∀ w k result, l = LResponse w k result →
      ∃ rq, rq ∈ in_transit c ∧ w = rq_WorkflowId rq ∧ k = rq_TaskId rq ∧ result = result_of_request rq.

Definition process_effect c p ws' : Prop :=
  processes c !! p = Some ws' ∨
  (∃ ws l, processes c !! p = Some ws ∧ ws_next NewClusterConn l ws = Some (Ret ws') ∧
    ∀ req, l = WDispatch req → ∃ job, job ∈ outstanding (control c) ∧ Request job = Some req) ∨
  ∃ cfg rpc t0, (0 ≤ t0)%Z ∧ worker_main NewClusterConn cfg rpc t0 = Ret ws'.

Record step_effect c c' : Prop := {
  se_control : control_effect c c';
  se_process p ws' : processes c' !! p = Some ws' → process_effect c p ws';
  se_transit rq : rq ∈ in_transit c' → rq ∈ in_transit c ∨ ∃ p ws', processes c' !! p = Some ws' ∧ rq ∈ reported ws';
  se_executions : ∃ new, executions c' = executions c ++ new ∧
    ∀ x, x ∈ new → call_of x.2 ∧
      ∃ ws i t ctx, processes c !! x.1 = Some ws ∧ attempts ws !! i = Some (AExecute t ctx) ∧ tk_inner t = x.2.1;
  se_ran p ws' y : processes c' !! p = Some ws' → y ∈ ran ws' →
    (p, y) ∈ executions c' ∨ ∃ ws, processes c !! p = Some ws ∧ y ∈ ran ws;
}.

(** A step of the control plane, or nothing, so far. *)
Record only_control c c' : Prop := {
  oc_control : control_effect c c';
  oc_processes : processes c' = processes c;
  oc_transit rq : rq ∈ in_transit c' → rq ∈ in_transit c;
  oc_executions : executions c' = executions c;
}.

Lemma only_control_refl c : only_control c c.
Proof. split; [by left|done..]. Qed.

Lemma nothing_new {A} (P : A → Prop) (X : list A) : ∃ new, X = X ++ new ∧ ∀ x, x ∈ new → P x.
Proof. exists []. rewrite app_nil_r. split; [done|]. by intros x ?%elem_of_nil. Qed.

Lemma only_control_effect c c' : only_control c c' → step_effect c c'.
Proof.
  intros [Hc Hp Ht Hx].
  split; [done|intros p ws'; rewrite Hp; by left|by left; apply Ht|rewrite Hx; apply nothing_new|].
  intros p ws' x. rewrite Hp. eauto.
Qed.

(** No component panics. *)
Record no_panic c : Prop := {
  np_control l o : sys_next NewClient l (control c) = Some o → ∃ s', o = Ret s';
  np_process p ws l o : processes c !! p = Some ws → ws_next NewClusterConn l ws = Some o → ∃ ws', o = Ret ws';
}.

(** A call of the control plane in a step that has so far changed neither
    control plane nor processes. *)
Lemma control_step_ok l c c1 r :
  no_panic c → control c1 = control c → processes c1 = processes c → (∀ rq, rq ∈ in_transit c1 → rq ∈ in_transit c) →
  executions c1 = executions c → label_ok l (control c) →
  (∀ w k result, l = LResponse w k result →
    ∃ rq, rq ∈ in_transit c ∧ w = rq_WorkflowId rq ∧ k = rq_TaskId rq ∧ result = result_of_request rq) →
  control_step NewClient l c1 = Some r → ∃ c', r = Ret c' ∧ only_control c c'.
Proof.
  intros Hnp Hc Hp Ht Hx Hok Hresp. unfold control_step. rewrite Hc. destruct (sys_next _ _ _) as [o|] eqn:Hn; [|done].
  destruct (np_control _ Hnp l o Hn) as [s' ->]. intros [= <-]. exists (set_control s' c1). split; [done|].
  destruct c1; simpl in *. split; simpl; [right; eauto|done..].
Qed.

Lemma process_step_ok p l c c1 r :
  no_panic c → only_control c c1 →
  (∀ req, l = WDispatch req → ∃ job, job ∈ outstanding (control c) ∧ Request job = Some req) →
  process_step NewClusterConn p l c1 = Some r → ∃ c', r = Ret c' ∧ step_effect c c'.
Proof.
  intros Hnp [Hc Hp Ht Hex] Hreq. unfold process_step. rewrite Hp. destruct (processes c !! p) as [ws|] eqn:Hw; [|done]. simpl.
  destruct (ws_next _ _ _) as [o|] eqn:Hn; [|done]. destruct (np_process _ Hnp p ws l o Hw Hn) as [ws' ->]. intros [= <-].
  eexists. split; [done|]. destruct c1; simpl in *. split; simpl; [done|..].
  - intros p' ws1. rewrite lookup_insert. case_decide; [|by left]. intros [= <-]. subst p'. right. left. eauto.
  - intros rq [Hrq|Hrq]%elem_of_app; [left; by apply Ht|right]. exists p, ws'. rewrite lookup_insert_eq. split; [done|].
    rewrite <-(take_drop (length (reported ws)) (reported ws')). apply elem_of_app. by right.
  - destruct (ws_step_new _ _ _ _ Hn) as (new & Hran & Hnew). rewrite Hran, drop_app_length, Hex. eexists. split; [done|].
    intros x (y & -> & Hy)%list_elem_of_fmap. destruct (Hnew y Hy) as (Hfor & i & t & ctx & Ha & Het). split; [done|].
    exists ws, i, t, ctx. done.
  - intros p' ws1 x. rewrite lookup_insert. case_decide; [|by eauto]. intros [= <-] Hx. subst p'.
    destruct (ws_step_new _ _ _ _ Hn) as (new & Hran & _). rewrite Hran in Hx |- *. rewrite drop_app_length.
    apply elem_of_app in Hx as [Hx|Hx]; [by eauto|]. left. apply elem_of_app. right. apply list_elem_of_fmap. eauto.
Qed.

Lemma and_then_ok (P Q : Cluster H Conn WConn → Prop) o f r :
  (∀ r1, o = Some r1 → ∃ c1, r1 = Ret c1 ∧ P c1) →
  (∀ c1 r1, P c1 → f c1 = Some r1 → ∃ c', r1 = Ret c' ∧ Q c') →
  and_then o f = Some r → ∃ c', r = Ret c' ∧ Q c'.
Proof.
  intros Ho Hf. destruct o as [r1|]; [|done]. destruct (Ho r1 eq_refl) as (c1 & -> & Hc1). simpl. by apply Hf.
Qed.

(** A call a worker makes at the control plane: a step of each. *)
Lemma call_ok l p l' c r :
  no_panic c → label_ok l (control c) → (∀ w k result, l ≠ LResponse w k result) → (∀ req, l' ≠ WDispatch req) →
  and_then (control_step NewClient l c) (process_step NewClusterConn p l') = Some r → ∃ c', r = Ret c' ∧ step_effect c c'.
Proof.
  intros Hnp Hok Hl Hl'. apply (and_then_ok (only_control c)).
  - intros r1. apply control_step_ok; try done. intros w k result ->. by destruct (Hl w k result).
  - intros c1 r1 Hc1. apply process_step_ok; [done..|]. by intros req []%Hl'.
Qed.

(** A new process: its registration, and then it serves. *)
Lemma start_ok p cfg t0 ws now c r :
  no_panic c → (0 ≤ t0)%Z → label_ok (registration ws now) (control c) →
  worker_main NewClusterConn cfg (λ _ _, Some true) t0 = Ret ws →
  and_then (control_step NewClient (registration ws now) c) (λ c, Some (Ret (set_processes (<[p := ws]> (processes c)) c))) = Some r →
  ∃ c', r = Ret c' ∧ step_effect c c'.
Proof.
  intros Hnp Ht0 Hok Hmain.
  apply (and_then_ok (only_control c)); [intros r1; by apply control_step_ok|].
  intros c1 r1 [Hc Hpr Ht Hx] [= <-]. eexists. split; [done|]. destruct c1; simpl in *. split; simpl; [done|..].
  - intros p' ws'. rewrite Hpr, lookup_insert. case_decide; [|by left]. intros [= <-]. right. right. eauto.
  - intros rq Hrq. left. by apply Ht.
  - rewrite Hx. apply nothing_new.
  - intros p' ws' x. rewrite Hpr, lookup_insert. case_decide; [|by eauto]. intros [= <-] Hx'.
    apply worker_main_empty in Hmain as (_ & _ & _ & Hran). rewrite Hran in Hx'. by apply elem_of_nil in Hx'.
Qed.

Lemma cluster_next_ok l c r :
  no_panic c → cluster_label_ok l c → next l c = Some r → ∃ c', r = Ret c' ∧ step_effect c c'.
Proof.
  intros Hnp Hok Hn.
  assert (∀ l' c1 r, control c1 = control c → processes c1 = processes c → (∀ rq, rq ∈ in_transit c1 → rq ∈ in_transit c) →
    executions c1 = executions c → label_ok l' (control c) → own_control l' = true ∨ (∀ w k result, l' ≠ LResponse w k result) →
    control_step NewClient l' c1 = Some r → ∃ c', r = Ret c' ∧ only_control c c') as Hcontrol.
  { intros l' c1 r1 ? ? ? ? ? Hl. apply control_step_ok; try done. intros w k result ->. by destruct Hl as [|Hl]; [|destruct (Hl w k result)]. }
  assert (∀ p l' r, (∀ req, l' ≠ WDispatch req) → process_step NewClusterConn p l' c = Some r → ∃ c', r = Ret c' ∧ step_effect c c')
    as Hprocess.
  { intros p l' r1 Hl. apply process_step_ok; [done|apply only_control_refl|]. by intros req []%Hl. }
  assert (∀ r : outcome () (Cluster H Conn WConn), (∃ c', r = Ret c' ∧ only_control c c') → ∃ c', r = Ret c' ∧ step_effect c c') as Hweaken.
  { intros r1 (c' & -> & ?). eauto using only_control_effect. }
  destruct l as [l|p l|p cfg t0 now|p| |answered|n|p arrived answered now|p arrived answered now|n];
    simpl in Hn; unfold Dispatch_arrives, Dispatch_returns, CancelTasks_arrives, ReportResult_arrives in Hn.
  - destruct (own_control l) eqn:Hown; [|done]. apply Hweaken. eapply Hcontrol; eauto.
  - destruct (processes c !! p) as [ws|]; [|done]. simpl in Hn. destruct (own_process l ws) eqn:Hown; [|done].
    eapply Hprocess; [|exact Hn]. by intros req ->.
  - destruct (processes c !! p) as [|] eqn:Hp; [done|].
    destruct (worker_main _ _ _ _) as [ws|[]|] eqn:Hmain; [|done..]. by eapply start_ok.
  - injection Hn as <-. eexists. split; [done|]. destruct c; simpl in *. split; simpl; [by left| |by left|apply nothing_new|].
    + intros p' ws'. rewrite lookup_delete_Some. intros [_ ?]. by left.
    + intros p' ws' x. rewrite lookup_delete_Some. intros [_ ?]. eauto.
  - destruct (sched (control c)) as [| | | | |ws0 jobs job id conn| | |] eqn:Hs; try done. destruct (calling c); [|done..].
    destruct (processes c !! reaches conn) as [ws|]; [|done]. simpl in Hn. destruct (Request job) as [req|] eqn:Hreq; [|done].
    simpl in Hn. revert Hn. apply process_step_ok; [done|destruct c; split; [by left|done..]|].
    intros req' [= <-]. exists job. split; [|done]. unfold outstanding. rewrite Hs, elem_of_app. right. left.
  - apply Hweaken. destruct answered.
    + destruct (calling c) as [|p h|]; [done| |done]. destruct (processes c !! p) as [ws|]; [|done]. simpl in Hn.
      destruct (dispatches ws !! h) as [[]|]; try done. eapply Hcontrol; [..|exact Hn]; try (by destruct c); by right.
    + eapply Hcontrol; [..|exact Hn]; try (by destruct c); by right.
  - destruct (in_transit c !! n) as [rq|] eqn:Hrq; [|done]. simpl in Hn. apply Hweaken.
    eapply control_step_ok; [done|..|exact Hn]; [by destruct c|by destruct c| |by destruct c|done|].
    + destruct c; simpl. intros rq'. apply list_elem_of_delete_inv.
    + intros w k result [= <- <- <-]. exists rq. split; [by eapply list_elem_of_lookup_2|done].
  - destruct arrived; [|by eapply Hprocess; [|exact Hn]]. destruct (processes c !! p) as [ws|]; [|done]. simpl in Hn.
    destruct (connects _ ws); [|done]. by eapply call_ok; [..|exact Hn].
  - destruct (processes c !! p) as [ws|]; [|done]. simpl in Hn. destruct (heart ws); try done.
    destruct arrived; [|by eapply Hprocess; [|exact Hn]]. destruct (connects _ ws); [|done].
    by eapply call_ok; [..|exact Hn].
  - destruct (cancel_calls (eng (control c)) !! n) as [[workerID ids]|]; [|done]. simpl in Hn.
    destruct (getOrDial_cached workerID (conns (control c))) as [conn|]; [|done]. simpl in Hn. case_decide; [done|].
    revert Hn. apply process_step_ok; [done|destruct c; split; [by left|done..]|by intros].
Qed.

(** ** What is sent is what was meant *)

Implicit Types (e : Engine H) (req : DispatchRequest).

(** A request for a stored task whose dependencies have succeeded. *)
Definition sound_request e req : Prop := ∃ job, sound_job e job ∧ Request job = Some req.

(** A report about such a request, with the executors' log [L]. *)
Definition sound_report e L rq : Prop :=
  ∃ req ex, sound_request e req ∧ executor_of (dr_Type req) = Some ex ∧
    report_of L (NewExecutableTask (task_info req) ex) rq.

(** A process started by [main] that was only sent sound requests. *)
Definition sound_process e ws : Prop :=
  ∃ cfg rpc t0 ws0 tr, (0 ≤ t0)%Z ∧ worker_main NewClusterConn cfg rpc t0 = Ret ws0 ∧
    ws_run NewClusterConn ws0 tr (Ret ws) ∧ ∀ req, WDispatch req ∈ tr → sound_request e req.

(** What an executor did on a process. *)
Implicit Types (X : list (string * (ExecutableTask * external_call))) (x : string * (ExecutableTask * external_call)).

(** It was done for the task [t]: by the executor of its type, with its payload
    and its timeout in seconds. *)
Definition execution_of (t : Domain.Task) x : Prop :=
  info_ID (et_task x.2.1) = task_ID t ∧ info_WorkflowID (et_task x.2.1) = task_WorkflowID t ∧
  executor_of (Type_ (Spec t)) = Some (et_exec x.2.1) ∧
  call_for (et_exec x.2.1) (Payload (Spec t)) (seconds (f64_to_int64 (Duration_Seconds (Timeout t)))) x.2.2.

Definition succeeded_by (t : Domain.Task) x : Prop := execution_of t x ∧ call_succeeded x.2.2.

(** The result of [t] is the output of a successful execution of it in [X]. *)
Definition result_from X (t : Domain.Task) : Prop :=
  ∃ x, x ∈ X ∧ succeeded_by t x ∧
    task_result t = Some {| res_Status := TaskSucceeded; ExitCode := 0; Stdout := (call_output x.2.2).1;
                            Stderr := (call_output x.2.2).2; res_Error := ""; Duration := 0 |}.

(** [x] was done for a stored task, after its dependencies: each has SUCCEEDED,
    and [X] has a successful execution of it. *)
Definition in_order e X x : Prop :=
  ∃ r task, get_task e r = Some task ∧ execution_of task x ∧
    ∀ d, d ∈ DependsOn task →
      ∃ td y, get_task e (sibling r d) = Some td ∧ task_status td = TaskSucceeded ∧ y ∈ X ∧ succeeded_by td y.

Lemma execution_of_frozen (t t' : Domain.Task) x : frozen t' = frozen t → execution_of t x → execution_of t' x.
Proof. intros (Hid & Hw & _ & Hs & Ht)%frozen_inj_fields. unfold execution_of. by rewrite Hid, Hw, Hs, Ht. Qed.

Lemma succeeded_by_frozen (t t' : Domain.Task) x : frozen t' = frozen t → succeeded_by t x → succeeded_by t' x.
Proof. intros Hf [? ?]. split; [by eapply execution_of_frozen|done]. Qed.

Lemma result_from_frozen X (t t' : Domain.Task) :
  frozen t' = frozen t → task_result t' = task_result t → result_from X t → result_from X t'.
Proof. intros Hf Hr (x & ? & ? & ?). exists x. rewrite Hr. eauto using succeeded_by_frozen. Qed.

Lemma result_from_mono X X' t : X ⊆ X' → result_from X t → result_from X' t.
Proof. intros HX (x & ? & ?). exists x. split; [by apply HX|done]. Qed.

Lemma in_order_keeps e e' X X' x : keeps e e' → X ⊆ X' → in_order e X x → in_order e' X' x.
Proof.
  intros Hk HX (r & task & Ht & Hx & Hd). destruct (Hk r task Ht) as (task' & Ht' & Hf & _). exists r, task'.
  split_and!; [done|by eapply execution_of_frozen|]. intros d Hdep.
  destruct (Hd d) as (td & y & Htd & Hs & Hy & Hsucc); [by apply frozen_inj_fields in Hf as (_ & _ & <- & _)|].
  destruct (Hk _ td Htd) as (td' & Htd' & Hfd & Hst). exists td', y.
  split_and!; [done|rewrite Hst; [done|by left]|by apply HX|by eapply succeeded_by_frozen].
Qed.

Lemma sound_request_keeps e e' req : keeps e e' → sound_request e req → sound_request e' req.
Proof. intros Hk (job & ? & ?). exists job. split; [by eapply sound_job_keeps|done]. Qed.

Lemma sound_report_keeps e e' L L' rq : keeps e e' → L ⊆ L' → sound_report e L rq → sound_report e' L' rq.
Proof.
  intros Hk HL (req & ex & ? & ? & ?). exists req, ex.
  split_and!; [by eapply sound_request_keeps|done|by eapply report_of_mono].
Qed.

Lemma sound_process_keeps e e' ws : keeps e e' → sound_process e ws → sound_process e' ws.
Proof.
  intros Hk (cfg & rpc & t0 & ws0 & tr & ? & ? & ? & Hreq). exists cfg, rpc, t0, ws0, tr. split_and!; [done..|].
  intros req Hr. eapply sound_request_keeps; [exact Hk|by apply Hreq].
Qed.

Lemma worker_main_executors cfg rpc t0 ws k ex :
  worker_main NewClusterConn cfg rpc t0 = Ret ws → Get k (executionRegistry ws) = inr ex → executor_of k = Some ex.
Proof.
  unfold worker_main, Start_service, register. intros Hmain.
  destruct (NewWorkerPool _ _) as [wp|[]|]; [|done..]. simpl in Hmain.
  pose proof (RegisterExecutors_correct (Worker.cfg_Capabilities cfg)) as Hreg.
  destruct (RegisterExecutors (Worker.cfg_Capabilities cfg) New) as [[e|registered] registry]; [done|].
  destruct Hreg as (_ & _ & Hget). destruct (call _ _ _) as [resp cl]. destruct (default false resp); [|done].
  injection Hmain as <-. simpl. rewrite Hget. destruct (executor_of k); [|done]. case_decide; [|done]. by intros [= ->].
Qed.

(** What such a process works on, and what it reports. *)
Lemma sound_process_genuine e ws :
  sound_process e ws →
  ∃ reg D l, ws_inv ws l ∧ genuine reg D ws l ∧ (∀ req, req ∈ D → sound_request e req) ∧
    ∀ k ex, Get k reg = inr ex → executor_of k = Some ex.
Proof.
  intros (cfg & rpc & t0 & ws0 & tr & Ht0 & Hmain & Hrun & Hreq).
  destruct (worker_run_genuine _ _ _ _ _ _ _ Ht0 Hmain Hrun) as (l & Hinv & Hg).
  exists (executionRegistry ws0), (dispatched tr), l. split_and!; [done..| |].
  - unfold dispatched. intros req (lab & Hlab & Heq)%list_elem_of_omap. destruct lab; simplify_eq. by apply Hreq.
  - intros k ex. by eapply worker_main_executors.
Qed.

Lemma sound_process_reports e ws rq : sound_process e ws → rq ∈ reported ws → sound_report e (ran ws) rq.
Proof.
  intros (reg & D & l & _ & Hg & HD & Hex)%sound_process_genuine Hrq.
  destruct (ge_reported _ _ _ _ Hg rq Hrq) as (t & (req & ex & Hreq & Hget & ->) & Hof). exists req, ex. eauto.
Qed.

(** What such a process is about to execute is stored, with its dependencies
    done; so is what its executors do for it. *)
Lemma sound_process_execution e ws i t ctx call :
  sound_process e ws → attempts ws !! i = Some (AExecute t ctx) → call_of (tk_inner t, call) →
  ∃ r task, get_task e r = Some task ∧ deps_done e r task ∧ ∀ p, execution_of task (p, (tk_inner t, call)).
Proof.
  intros (reg & D & l & _ & Hg & HD & Hex)%sound_process_genuine Ha Hcall.
  destruct (ge_attempts _ _ _ _ Hg i _ Ha) as (req & ex & Hreq & Hget & ->).
  destruct (HD req Hreq) as (job & (r & task & Htask & -> & Hdeps) & Hjob). injection Hjob as <-.
  apply Hex in Hget. exists r, task. split_and!; [done..|]. intros p. by split_and!.
Qed.

(** The report of a success, handled by the engine, is about its own task. *)
Lemma sound_report_success e X r t rq :
  engine_inv e → sound_report e (snd <$> X) rq → ref_wf r = rq_WorkflowId rq → ref_task r = rq_TaskId rq →
  res_Status (result_of_request rq) = TaskSucceeded →
  get_task e r = Some t → (∀ x, x ∈ X → call_of x.2) → result_from X (Task_SetResult (Some (result_of_request rq)) t).
Proof.
  intros Hi (req & ex & (job & (r0 & t0 & Ht0 & -> & _) & Hreq) & Hex & Hof) Hw Hk Hs Ht.
  injection Hreq as <-. simpl in Hex.
  assert (r0 = r) as ->.
  { destruct (get_task_inv _ _ _ Hi Ht0) as (wf & Hwf & Htk & _). destruct (engine_inv_wf _ _ _ Hi Hwf) as (Hid & Hok & _).
    destruct (wfok_closed _ Hok _ _ Htk) as [Hkey _]. pose proof (wfok_owner _ Hok _ _ Htk) as Howner.
    destruct r as [w k], r0 as [w0 k0]. simpl in *.
    assert (rq_WorkflowId rq = task_WorkflowID t0 ∧ rq_TaskId rq = task_ID t0) as [Hrw Hrk]
      by by destruct Hof as [-> |(result & _ & ->)].
    f_equal; congruence. }
  intros Hcalls. rewrite Ht in Ht0. injection Ht0 as <-. destruct Hof as [-> |(result & (call & Hcall & Hres) & ->)]; [done|].
  change (FromProtoTaskStatus (final_status result) = TaskSucceeded) in Hs.
  rewrite FromProto_final in Hs. destruct (successful result) eqn:Hsucc; [|done].
  destruct Hres as (Hiff & Hout & _). pose proof (proj1 Hiff Hsucc) as Hcs.
  unfold successful in Hsucc. apply andb_true_iff in Hsucc as [Hcode%bool_decide_eq_true Herr%bool_decide_eq_true].
  apply list_elem_of_fmap in Hcall as ([p y] & Hy & Hx). simpl in Hy. subst y.
  pose proof (Hcalls _ Hx) as Hcall. eexists. split; [exact Hx|]. split.
  { split; [|done]. destruct t. simpl in *. by split_and!. }
  unfold final_report, sendStatus, result_of_request. simpl. rewrite FromProto_final.
  unfold successful. rewrite <-Hout, Hcode, Herr. by destruct t.
Qed.

(** ** The invariant *)

Record cluster_inv c : Prop := {
  ci_control : sys_reachable NewClient (control c);
  ci_jobs : jobs_sound (control c);
  ci_process p ws : processes c !! p = Some ws → sound_process (eng (control c)) ws;
  ci_transit rq : rq ∈ in_transit c → sound_report (eng (control c)) (snd <$> executions c) rq;
  ci_success r t : get_task (eng (control c)) r = Some t → task_status t = TaskSucceeded → result_from (executions c) t;
  ci_ran p ws y : processes c !! p = Some ws → y ∈ ran ws → (p, y) ∈ executions c;
  ci_calls x : x ∈ executions c → call_of x.2;
  ci_order i x : executions c !! i = Some x → in_order (eng (control c)) (take i (executions c)) x;
}.

Lemma cluster_inv_start bus : cluster_inv (cluster_start bus).
Proof.
  split; simpl; [by exists bus|apply jobs_sound_start| |by intros rq ?%elem_of_nil|..].
  - intros p ws. by rewrite lookup_empty.
  - by intros p ws [=].
  - intros p ws y. by rewrite lookup_empty.
  - by intros x ?%elem_of_nil.
  - by intros i x [=].
Qed.

Lemma cluster_inv_no_panic c : cluster_inv c → no_panic c.
Proof.
  intros Hi. split.
  - intros l o. by apply sys_next_ret, Hi.
  - intros p ws l o Hw Hn. destruct (sound_process_genuine _ _ (ci_process _ Hi p ws Hw)) as (_ & _ & l' & Hinv & _).
    destruct (ws_step_ok _ _ _ _ _ Hinv Hn) as (ws' & _ & -> & _). eauto.
Qed.

(** The engine moves forward. *)
Lemma step_effect_keeps c c' : cluster_inv c → step_effect c c' → keeps (eng (control c)) (eng (control c')).
Proof.
  intros Hi [Hc _ _]. pose proof (sys_reachable_inv _ _ (ci_control _ Hi)) as Hs.
  destruct Hc as [-> |(l & Hok & Hn & _)]; [|by eapply sys_next_keeps].
  apply engine_steps_keep; [apply Hs|done].
Qed.

Lemma step_effect_process c c' p ws :
  cluster_inv c → step_effect c c' → processes c' !! p = Some ws → sound_process (eng (control c')) ws.
Proof.
  intros Hi Heff Hp. eapply sound_process_keeps; [by apply step_effect_keeps|].
  destruct (se_process _ _ Heff p ws Hp) as [Hp'|[(ws1 & l & Hp' & Hn & Hreq)|(cfg & rpc & t0 & Ht0 & Hmain)]].
  - by eapply ci_process.
  - destruct (ci_process _ Hi p ws1 Hp') as (cfg & rpc & t0 & ws0 & tr & ? & ? & ? & Hsound).
    exists cfg, rpc, t0, ws0, (tr ++ [l]). split_and!; [done|done|by econstructor|].
    intros req [Hr|Hr]%elem_of_app; [by apply Hsound|]. apply list_elem_of_singleton in Hr.
    destruct (Hreq req (eq_sym Hr)) as (job & Hjob & Hjr). exists job. split; [by apply (ci_jobs _ Hi)|done].
  - exists cfg, rpc, t0, ws, []. split_and!; [done|done|constructor|]. by intros req ?%elem_of_nil.
Qed.

Lemma step_effect_log c c' : step_effect c c' → executions c ⊆ executions c'.
Proof. intros (new & -> & _)%se_executions. set_solver. Qed.

Lemma step_effect_success c c' r t' :
  cluster_inv c → step_effect c c' → get_task (eng (control c')) r = Some t' → task_status t' = TaskSucceeded →
  result_from (executions c) t'.
Proof.
  intros Hi Heff Ht' Hs. pose proof (step_effect_keeps c c' Hi Heff) as Hk.
  pose proof (si_engine _ (sys_reachable_inv _ _ (ci_control _ Hi))) as Hei.
  destruct (se_control _ _ Heff) as [He|(l & Hok & Hn & Hresp)]; [rewrite He in Ht'; by eapply ci_success|].
  destruct (sys_next_success _ l _ _ r t' Hok Hei Hn Ht' Hs) as [(t & Ht & Hst & Hr)|(result & t & -> & Ht & Hst & Hr)].
  - destruct (Hk r t Ht) as (t2 & Ht2 & Hf & _). rewrite Ht' in Ht2. injection Ht2 as <-.
    eapply result_from_frozen; [exact Hf|done|]. by eapply ci_success.
  - destruct (Hresp _ _ _ eq_refl) as (rq & Hrq & Hw & Hkk & ->).
    destruct (Hk r t Ht) as (t2 & Ht2 & Hf & _). rewrite Ht' in Ht2. injection Ht2 as <-.
    eapply (result_from_frozen _ (Task_SetResult (Some (result_of_request rq)) t)).
    + by rewrite Hf, frozen_result.
    + by rewrite Hr; destruct t.
    + by eapply sound_report_success; [|by eapply ci_transit|..|apply (ci_calls _ Hi)].
Qed.

(** The dependencies of what is executed in a step were executed before. *)
Lemma step_effect_order c c' i x :
  cluster_inv c → step_effect c c' → executions c' !! i = Some x →
  in_order (eng (control c')) (take i (executions c')) x.
Proof.
  intros Hi Heff Hx. pose proof (step_effect_keeps c c' Hi Heff) as Hk.
  destruct (se_executions _ _ Heff) as (new & Heq & Hnew). rewrite Heq in Hx |- *.
  apply lookup_app_Some in Hx as [Hx|[Hge Hx]].
  { rewrite take_app_le by (apply lookup_lt_Some in Hx; lia). eapply in_order_keeps; [exact Hk|done|by apply (ci_order _ Hi)]. }
  destruct (Hnew x) as (Hcall & ws & j & t & ctx & Hp & Ha & Hte); [by eapply list_elem_of_lookup_2|].
  destruct x as [p [et call]]. simpl in *. subst et.
  destruct (sound_process_execution _ _ _ _ _ _ (ci_process _ Hi p ws Hp) Ha Hcall) as (r & task & Htask & Hdeps & Hof).
  eapply (in_order_keeps _ _ (executions c)); [exact Hk|rewrite take_app_ge by done; set_solver|].
  exists r, task. split_and!; [done|by apply Hof|]. intros d Hd. destruct (Hdeps d Hd) as (td & Htd & Hs).
  destruct (ci_success _ Hi _ td Htd Hs) as (y & Hy & Hsucc & _). exists td, y. done.
Qed.

Lemma step_effect_inv c c' : cluster_inv c → step_effect c c' → cluster_inv c'.
Proof.
  intros Hi Heff. pose proof (step_effect_keeps c c' Hi Heff) as Hk.
  pose proof (sys_reachable_inv _ _ (ci_control _ Hi)) as Hs. pose proof (step_effect_log c c' Heff) as HX.
  assert (∀ p ws y, processes c' !! p = Some ws → y ∈ ran ws → (p, y) ∈ executions c') as Hran.
  { intros p ws y Hp Hx. destruct (se_ran _ _ Heff p ws y Hp Hx) as [?|(ws0 & Hp0 & Hx0)]; [done|].
    by apply HX, (ci_ran _ Hi p ws0). }
  split.
  - destruct (se_control _ _ Heff) as [-> |(l & Hok & Hn & _)]; [apply Hi|].
    destruct (ci_control _ Hi) as [bus Hr]. exists bus. eapply rtc_r; [exact Hr|]. by exists l.
  - destruct (se_control _ _ Heff) as [-> |(l & Hok & Hn & _)]; [apply Hi|].
    eapply jobs_sound_next; [done|done|exact Hn|apply Hi].
  - intros p ws. by apply (step_effect_process c c').
  - intros rq Hrq. destruct (se_transit _ _ Heff rq Hrq) as [Hold|(p & ws & Hp & Hr)].
    + eapply sound_report_keeps; [exact Hk| |by apply (ci_transit _ Hi)]. intros y (z & -> & Hz)%list_elem_of_fmap. apply list_elem_of_fmap. eauto.
    + eapply (sound_report_keeps (eng (control c')) _ (ran ws)); [by intros ? ? ?; eauto| |].
      * intros y Hx. apply list_elem_of_fmap. exists (p, y). split; [done|]. by eapply Hran.
      * eapply sound_process_reports; [|exact Hr]. by apply (step_effect_process c c' p).
  - intros r t Ht Hst. eapply result_from_mono; [exact HX|]. by eapply (step_effect_success c c').
  - exact Hran.
  - intros x Hx. destruct (se_executions _ _ Heff) as (new & Heq & Hnew). rewrite Heq in Hx.
    apply elem_of_app in Hx as [Hx|Hx]; [by apply (ci_calls _ Hi)|by apply Hnew].
  - intros i x. by apply (step_effect_order c c').
Qed.

Lemma cluster_reachable_inv c : cluster_reachable NewClient NewClusterConn reaches c → cluster_inv c.
Proof.
  intros [bus Hr]. eapply (rtc_invariant _ cluster_inv); [apply cluster_inv_start| |exact Hr].
  intros x y Hx (l & Hok & Hn). destruct (cluster_next_ok l x _ (cluster_inv_no_panic x Hx) Hok Hn) as (c' & [= <-] & Heff).
  by eapply step_effect_inv.
Qed.

(** C1. Dependencies are executed first, end to end.  Whatever an executor of
    any worker process did - a command it ran, a request it sent - was done
    for a task the control plane stores, by the executor of the task's type,
    with its payload and its timeout in seconds; and every dependency of the
    task has SUCCEEDED and was itself executed successfully, on some worker,
    earlier in the log of all executions: its command had ended with exit code
    0 in time, or a response with a status below 400 to its request had been
    read.  This holds whatever the interleaving of the components, the losses
    and delays of calls, and the crashes of workers. *)
Theorem executed_after_dependencies c i x :
  cluster_reachable NewClient NewClusterConn reaches c → executions c !! i = Some x →
  ∃ r task, get_task (eng (control c)) r = Some task ∧ execution_of task x ∧
    ∀ d, d ∈ DependsOn task →
      ∃ td j y, get_task (eng (control c)) (sibling r d) = Some td ∧ task_status td = TaskSucceeded ∧
        j < i ∧ executions c !! j = Some y ∧ succeeded_by td y.
Proof.
  intros Hi%cluster_reachable_inv Hx. destruct (ci_order _ Hi i x Hx) as (r & task & Htask & Hof & Hdeps).
  exists r, task. split_and!; [done..|]. intros d Hd. destruct (Hdeps d Hd) as (td & y & Htd & Hs & Hy & Hsucc).
  apply elem_of_take in Hy as (j & Hj & Hlt). by exists td, j, y.
Qed.

(** C2. Success is genuine, end to end: a task is SUCCEEDED in the control
    plane only if the log has a successful execution of it on some worker
    process, that is its command was run and ended with exit code 0 in time,
    or its request was sent and a response with a status below 400 read, by
    the executor of its type, with its payload and its timeout in seconds; and
    the result stored for the task is the output observed in that execution. *)
Theorem success_is_genuine c r t :
  cluster_reachable NewClient NewClusterConn reaches c →
  get_task (eng (control c)) r = Some t → task_status t = TaskSucceeded →
  ∃ x, x ∈ executions c ∧ succeeded_by t x ∧
    task_result t = Some {| res_Status := TaskSucceeded; ExitCode := 0; Stdout := (call_output x.2.2).1;
                            Stderr := (call_output x.2.2).2; res_Error := ""; Duration := 0 |}.
Proof. intros Hi%cluster_reachable_inv. apply (ci_success _ Hi). Qed.
End props.
