(* ===== verification/ClusterRuns.v ===== *)
(** * An execution of the whole program

    One control plane and one worker with the shell executor run a workflow of
    two tasks, the second depending on the first, from submission to success:
    the instance on which the theorems of [ClusterProps] are applied.  Another
    order of events shows what becomes of a dispatch that the worker refuses. *)

From stdpp Require Import base gmap strings list relations.
From Stdlib Require Import ZArith Lia.
From S2P Require Import Prelude Status Domain NewWorkflow EventBus Jobs GoFloat RetryQueue Registry Scheduler Client.
From S2P Require Import Engine WorkflowSpec EngineBase EngineProps EngineQueue EngineCauses System SystemCauses SystemRuns.
From S2P Require Import Server WorkerPool Executors WorkerTask Config WorkerService WorkerRuns Cluster ClusterProps.

#[local] Existing Instance runs_world.
#[local] Existing Instance plain_json.

(** [b], named "test", depends on [a], named "build". *)
Definition chain_task (id name : string) (deps : list string) : Domain.Task :=
  {| task_ID := id; task_WorkflowID := ""; task_Name := name; DependsOn := deps;
     Spec := {| Type_ := "shell"; Payload := "make " +:+ name |}; MaxRetries := 0; RetryBackoff := 0;
     Timeout := 30 * Second; task_status := TaskPending; AssignedTo := ""; Attempt := 0; task_result := None;
     task_CreatedAt := 0; task_UpdatedAt := 0 |}.

Definition chain_tasks : list Domain.Task := [chain_task "a" "build" []; chain_task "b" "test" ["build"]].

Definition chain_wf : Workflow :=
  match NewWorkflow "admin" "pipeline" chain_tasks 0 with Ret (wf, _) => wf | _ => run_wf end.

Definition chain_start : Cluster () string () := cluster_start run_bus.

#[local] Abbreviation exec := (cluster_exec (Some : string → option string) dial id).

(** The process listens where the control plane will dial it. *)
Definition at1 : string := "127.0.0.1:9001".
Definition control_ (l : sys_label ()) : cluster_label () () := NControl l.
Definition worker_ (l : ws_label (Conn := ())) : cluster_label () () := NProcess at1 l.
Definition work_ (l : pool_label (T := trackedTask)) : cluster_label () () := worker_ (WPool l).

Definition boot : list (cluster_label () ()) :=
  [NStart at1 cfg1 0 0; control_ (LRegisterPush 0 0)].

(** A pass of the scheduler up to the RPC; [dial] if no connection is cached. *)
Definition to_call (n : nat) : list (cluster_label () ()) := control_ tick_ :: replicate n (control_ step_).

(** The handler [h] accepts the task, and the scheduler commits the assignment. *)
Definition dispatch (h : nat) : list (cluster_label () ()) :=
  NDispatch :: replicate 4 (worker_ (WDispatchStep h)) ++ NReply true :: replicate 3 (control_ step_).

(** The pool's worker takes the job, reports RUNNING and is about to execute. *)
Definition begin_ : list (cluster_label () ()) :=
  [work_ (LReceive 0); work_ (LBusy 0); worker_ (WAttempt 0 LSetCancel); worker_ (WAttempt 0 (LReport true)); NReport 0].

(** The command ends well, and its report arrives. *)
Definition end_ : list (cluster_label () ()) :=
  [worker_ (WAttempt 0 (LExecute (ends Shell.RunOK))); worker_ (WAttempt 0 (LReport true)); NReport 0;
   work_ (LDo 0 false); work_ (LOnDone 0); work_ (LRelease 0)].

Definition until_b : list (cluster_label () ()) :=
  boot ++ to_call 4 ++ dispatch 0 ++ begin_ ++ end_ ++ to_call 3 ++ dispatch 1 ++ begin_.

Definition status_in (c : Cluster () string ()) (k : string) : option TaskStatus :=
  task_status <$> get_task (eng (control c)) {| ref_wf := wf_ID chain_wf; ref_task := k |}.

Definition workflow_in (c : Cluster () string ()) : option WorkflowStatus :=
  wf_status <$> workflows (eng (control c)) !! wf_ID chain_wf.

(** The cluster after the submission and the steps [tr]. *)
Definition after (tr : list (cluster_label () ())) : Cluster () string () :=
  default chain_start (exec (control_ (System.LSubmit chain_wf) :: tr) chain_start).

#[local] Abbreviation reachable_cluster := (cluster_reachable (Some : string → option string) dial id).

Lemma chain_submittable : submittable (NewWorkflowEngine run_bus true) chain_wf.
Proof.
  assert (∃ n', NewWorkflow "admin" "pipeline" chain_tasks 0 = Ret (chain_wf, n')) as [n' Hn].
  { eexists. vm_compute. reflexivity. }
  eapply NewWorkflow_submittable; [exact Hn| |reflexivity].
  intros t Ht. unfold chain_tasks in Ht. rewrite !elem_of_cons, elem_of_nil in Ht. by destruct Ht as [->|[->|[]]].
Qed.

Lemma after_reachable tr :
  forallb label_free tr = true → is_Some (exec (control_ (System.LSubmit chain_wf) :: tr) chain_start) →
  reachable_cluster (after tr).
Proof.
  intros Htr [c Hc]. unfold after. rewrite Hc. exists run_bus. simpl in Hc.
  eapply rtc_l; [exists (control_ (System.LSubmit chain_wf)); split; [exact chain_submittable|reflexivity]|].
  by apply (cluster_exec_steps _ _ _ tr).
Qed.

(** Both tasks have been executed; the workflow is done. *)
Definition all_done : Cluster () string () := after (until_b ++ end_).

Lemma all_done_reachable : reachable_cluster all_done.
Proof. apply after_reachable; [reflexivity|vm_compute; eexists; reflexivity]. Qed.

Lemma all_done_statuses :
  status_in all_done "a" = Some TaskSucceeded ∧ status_in all_done "b" = Some TaskSucceeded ∧
  workflow_in all_done = Some WorkflowSucceeded.
Proof. split_and!; vm_compute; reflexivity. Qed.

(** The command [b] runs. *)
Definition b_execution : string * (ExecutableTask * external_call) :=
  match executions all_done with [_; x] => x | _ => (at1, (NewExecutableTask (task_info (request "" "")) ShellExecutor,
    RanCommand {| Shell.Command := ""; Shell.Args := "" |} 0 (run_command (ends Shell.RunOK)
      {| Shell.Command := ""; Shell.Args := "" |} 0))) end.

Lemma executed_after_dependencies_witness :
  length (executions all_done) = 2 ∧ executions all_done !! 1 = Some b_execution ∧
  ∃ r task, get_task (eng (control all_done)) r = Some task ∧ execution_of task b_execution ∧
    ∀ d, d ∈ DependsOn task → ∃ td y, get_task (eng (control all_done)) (sibling r d) = Some td ∧
      executions all_done !! 0 = Some y ∧ succeeded_by td y.
Proof.
  split; [vm_compute; reflexivity|].
  assert (executions all_done !! 1 = Some b_execution) as Hx by (vm_compute; reflexivity). split; [exact Hx|].
  destruct (executed_after_dependencies Some dial id all_done 1 b_execution all_done_reachable Hx)
    as (r & task & Htask & Hof & Hdeps).
  exists r, task. split; [exact Htask|]. split; [exact Hof|]. intros d Hd.
  destruct (Hdeps d Hd) as (td & j & y & Htd & _ & Hj & Hy & Hsucc). exists td, y. split; [exact Htd|].
  assert (j = 0) as -> by lia. split; [exact Hy|exact Hsucc].
Defined.

Lemma success_is_genuine_witness :
  ∃ t x, get_task (eng (control all_done)) {| ref_wf := wf_ID chain_wf; ref_task := "b" |} = Some t ∧
    x ∈ executions all_done ∧ succeeded_by t x.
Proof.
  destruct (get_task (eng (control all_done)) {| ref_wf := wf_ID chain_wf; ref_task := "b" |}) as [t|] eqn:Ht;
    [|exfalso; vm_compute in Ht; discriminate Ht].
  assert (task_status t = TaskSucceeded) as Hst.
  { destruct all_done_statuses as (_ & Hs & _). unfold status_in in Hs. rewrite Ht in Hs. by injection Hs. }
  destruct (success_is_genuine Some dial id all_done _ t all_done_reachable Ht Hst) as (x & Hx & Hsucc & _).
  exists t, x. split; [reflexivity|]. split; [exact Hx|exact Hsucc].
Defined.

(** ** A refused dispatch *)

(** A heartbeat is lost, so the worker suspends itself; the control plane,
    which still takes it for alive, sends it [a].  The worker refuses, and the
    refusal is not looked at. *)
Definition refuse : list (cluster_label () ()) :=
  boot ++ [worker_ WTicker; NHeartbeat at1 false false 0; worker_ (WHeart accept)] ++ to_call 4 ++
  [NDispatch; worker_ (WDispatchStep 0); NReply true; control_ step_; control_ step_; control_ step_].

Definition idle_process (ws : WorkerService (Conn := ())) : bool :=
  match dispatches ws, jobChan (workerPool ws), uniq ws with
  | [DDone false], [], Some items => bool_decide (items = ∅)
  | _, _, _ => false
  end.

(** A refused dispatch strands the task: it is DISPATCHED on the worker, no
    job is left for it, and the worker has nothing to do. *)
Theorem refused_dispatch_strands_task :
  ∃ c, reachable_cluster c ∧ status_in c "a" = Some TaskDispatched ∧ outstanding (control c) = [] ∧
    idle_process <$> processes c !! at1 = Some true ∧ in_transit c = [].
Proof.
  exists (after refuse). split; [apply after_reachable; [reflexivity|vm_compute; eexists; reflexivity]|].
  split_and!; vm_compute; reflexivity.
Qed.

(** ** A worker that is not dead *)

Definition at2 : string := "127.0.0.1:9002".
Definition cfg2 : Worker.Config := {|
  Worker.cfg_Port := ":9002"; Worker.cfg_ID := "w2"; Worker.cfg_Address := at2; Worker.cfg_Capacity := 4;
  Worker.cfg_Pool := 1; Worker.cfg_Labels := ∅; Worker.cfg_Capabilities := ["shell"];
  Worker.cfg_ControlPlane := "127.0.0.1:9000";
|}.
Definition worker2_ (l : ws_label (Conn := ())) : cluster_label () () := NProcess at2 l.

(** While the first worker executes [a] it is cut off and declared dead; a
    second one joins and is sent [a]; then the first one's report arrives,
    and the second one begins to execute. *)
Definition cut_off : list (cluster_label () ()) :=
  boot ++ to_call 4 ++ dispatch 0 ++ begin_ ++ (control_ <$> declare_dead ++ [probe_at 40; probe_at 40]) ++
  [NStart at2 cfg2 0 (40 * Second); control_ (LRegisterPush 0 (40 * Second))] ++
  to_call 4 ++ NDispatch :: replicate 4 (worker2_ (WDispatchStep 0)) ++ NReply true :: replicate 2 (control_ step_).
Definition overtaken : list (cluster_label () ()) :=
  cut_off ++ end_ ++
  [worker2_ (WPool (LReceive 0)); worker2_ (WPool (LBusy 0)); worker2_ (WAttempt 0 LSetCancel);
   worker2_ (WAttempt 0 (LReport true)); NReport 0].

Definition assigned_in (c : Cluster () string ()) (k : string) : option string :=
  AssignedTo <$> get_task (eng (control c)) {| ref_wf := wf_ID chain_wf; ref_task := k |}.

(** The task a worker's first goroutine is executing. *)
Definition executes (c : Cluster () string ()) (p : string) : option string :=
  ws ← processes c !! p; a ← attempts ws !! 0; match a with AExecute t _ => Some (tk_key t) | _ => None end.

(** A report is not checked against the assignment: a worker that was
    declared dead reports the success of a task that has been reassigned; the
    task is SUCCEEDED, assigned to the other worker, which executes it
    nevertheless. *)
Theorem stale_report_is_accepted :
  ∃ c c', reachable_cluster c ∧ status_in c "a" = Some TaskDispatched ∧ assigned_in c "a" = Some "w2" ∧
    executes c at1 = Some "a" ∧ (node_status <$> Registry.workers (reg (control c)) !! "w1") = Some WorkerDead ∧
    reachable_cluster c' ∧ status_in c' "a" = Some TaskSucceeded ∧ assigned_in c' "a" = Some "w2" ∧
    executes c' at2 = Some "a".
Proof.
  exists (after cut_off), (after overtaken).
  split; [apply after_reachable; [reflexivity|vm_compute; eexists; reflexivity]|].
  do 4 (split; [vm_compute; reflexivity|]).
  split; [apply after_reachable; [reflexivity|vm_compute; eexists; reflexivity]|].
  split_and!; vm_compute; reflexivity.
Qed.
